(* ===== verification/_CoqProject ===== *)
-Q . S2P
Prelude.v
Dv.v
BnLow.v
BnLowEasy.v
BnLowEasyProofs.v
BnLowEasyDiv.v
Bn.v
BnOk.v
BnMul.v
BnMulOk.v
BnConv.v
BnMod.v
BnModOk.v
BnGcd.v
BnGcdOk.v
Relic.v
Radix.v
Stream.v
UInt256.v
UInt256Ok.v
UInt256Io.v
OrdMap.v
BlockHash.v
MatchDex.v
MatchDexOk.v
MatchDexBook.v
Data.v
Exchange.v
Merkle.v
Base32.v
Bitmap.v
Vote.v
Node.v
Base25519.v
Base25519Ok.v
Sc25519.v
Sc25519Ok.v
ScTable.v
Interp.v
Poly.v
InterpOk.v
Parallel.v
ParallelOk.v
MpBox.v
MpBoxOk.v
Mpvss.v
MpvssOk.v
EnrollOk.v
Secret.v
Fp25519.v
Fp25519Ok.v
FpInverse.v
Prime25519.v
FpPower.v
EdwardsId.v
Edwards.v
Ed25519.v
Ed25519Ok.v
EdMult.v
EdPack.v
EdBase.v
Curve.v
Keys.v
HonestBox.v
Points.v
TrieNode.v
TrieNodeOk.v
Trie.v
TrieRep.v
TrieAdd.v
TriePath.v
TrieUpdate.v
TrieDb.v
MemKv.v
Tries.v
