(* ===== verification/Prelude.v ===== *)
(** * Verification of the HashAhead node's core

    HashAhead (src/src/) is a blockchain node in C++.  This library models the parts that
    carry its own logic and can be stated without the network, the database and the
    virtual machine, together with the C multiple precision module its signatures rest
    on, and proves what each part promises to the others.

    ** The program's parts and the files that model them

    - The multiple precision module of RELIC (src/src/crypto/blss/relic/src/bn/, low/easy/,
      dv/), the integers below the BLS signatures of blocks.  [Prelude] has the machine
      digits ([dig_t]), digit vectors and loops; [Dv] the vector utilities; [BnLow] the
      low-level interface as a class of operations with a contract; [BnLowEasy] the
      portable backend that implements it, proved in [BnLowEasyProofs] and [BnLowEasyDiv];
      [Bn], [BnMul], [BnMod], [BnGcd], [BnConv] the operations of bn_*.c, proved against
      the contract in [BnOk], [BnMulOk], [BnModOk], [BnGcdOk]; [Relic] what the module
      promises.  A [bn_st] is the record of its fields (alloc, used, sign, digits).
    - Serialisation (src/src/hnbase/stream/): [Stream], a codec per overload of
      [CStream::Serialize], with the laws of a codec as a class and instances for the
      fundamental types and the containers.
    - Fixed-width integers (src/src/crypto/uint256.h): [UInt256] for the operators of
      [base_uint], [UInt256Ok] and [UInt256Io] for their correctness, text and byte forms.
    - Block hashes (src/src/common/block.cpp, block.h): [BlockHash].
    - The exchange's order book (src/src/storage/matchdex.cpp, matchdex.h): [OrdMap] for
      std::map with a comparison, [MatchDex] for the keys, orders, pairs and the matching
      loops, [MatchDexOk] for the invariant of a match, [MatchDexBook] for the refinement
      of the book to a map from hashes to open orders.
    - Merkle proofs (src/src/hnbase/structure/merkletree.h): [Merkle].
    - Addresses and checksums (src/src/crypto/base32.cpp, crc24q.cpp): [Base32].
    - Votes on blocks (src/src/consensus/, src/src/hnbase/bitmap/): [Bitmap] and [Vote].
    - Scalars of curve25519 (src/src/crypto/curve25519/): [Base25519] for the 256-bit
      routines of both builds (with and without 128-bit integers), [Sc25519] for CSC25519
      and its reductions, [ScTable] for its table of powers; proved in [Base25519Ok] and
      [Sc25519Ok].
    - Field and points of curve25519 (same directory): [Fp25519] for CFP25519, proved in
      [Fp25519Ok], [FpInverse] (the binary Euclidean algorithm) and [FpPower] (powers and
      square roots); [Ed25519] for CEdwards25519 with its table of multiples.  [EdwardsId]
      and [Edwards] are the reference: the group of the twisted Edwards curve.  [Ed25519Ok],
      [EdMult], [EdPack] and [EdBase] prove the code against it; [Prime25519] proves that
      2^255 - 19 and the order of the base point are prime.
    - Secret sharing among delegates (src/src/mpvss/): [Interp] for the interpolations,
      proved in [InterpOk] with the algebra of [Poly]; [Parallel] for the parallel computer
      as interleaved threads behind an interface, which [ParallelOk] discharges for every
      schedule; [MpBox] for the boxes, [Mpvss] for the participants and the sessions,
      proved in [MpBoxOk], [MpvssOk] and [EnrollOk]; [Curve] implements the interface of
      [MpBox] by the points, [Keys] and [HonestBox] prove the keys and boxes on it.
    - State tries (src/src/storage/triedb.cpp, triedb.h): [TrieNode] for nibbles, branches,
      extensions and their streams, [Trie] for CTrieDB on an engine behind the interface of
      kvdb.h.  [TrieNodeOk] has the laws of the nodes, [TrieRep] the map a root stands for
      ([rep]), [TrieAdd] and [TriePath] what the two loops of AddNode make of a path,
      [TrieUpdate] and [TrieDb] the cache, the database and lists of updates; [MemKv] is
      the engine in memory (memkvdb.cpp), which implements the interface.

    ** How the parts interact

    [MatchDex] compares block hashes with [BlockHash] and computes prices with the
    arithmetic of [UInt256Io]; [Vote] records signatures in a [Bitmap], which is serialised
    with [Stream]; the operations of [Bn] call the backend through the interface of
    [BnLow], so its theorems hold for every backend that meets the contract.  [Mpvss] runs
    its tasks through the interface of [Parallel], evaluates and interpolates with the
    scalars of [Sc25519], and uses the curve through the class of [MpBox], which [Curve]
    implements by [Ed25519].  [Trie] writes nodes with the codecs of [Stream] into an
    engine behind a class, which [MemKv] implements.

    ** Conventions

    A w-bit integer is a [Z] with its wrap-around written out; an array is a list, and an
    access beyond its end is [Undef]; a thrown error is [Throw e]; a loop without a
    structural bound takes fuel, [NoFuel] when it runs out.  [returns m P] says that [m]
    ends normally with a value in [P], so that every theorem about a loop also says that
    the fuel is enough.  Fuel is computed from the operands (the bits of the larger one
    for a divisor, the digits for a conversion, the number of shares or orders for the
    others).  Code outside the repository is a parameter: the hash of two nodes, Boost's
    wide integers, the header and body of a transaction's order, libsodium's
    multiplication of the base point, the random numbers, the hash of a trie node.

    ** What the theorems show

    - [Relic]: the backend implements the contract; sums, products, quotients, reductions,
      divisors, inverses and conversions are those of the integers, and results that do
      not fit are reported as errors.
    - [Data]: what is serialised reads back; [base_uint] is arithmetic modulo 2^(32W); text and byte forms read back; block hashes carry
      their fields.
    - [Exchange]: a match keeps amounts, settles between the limits, leaves no crossing
      orders and makes progress; adding and completing orders refine a finite map.
    - [Node]: Merkle proofs are complete, and one that verifies is of the node at its place or
      exhibits a collision; Base32 reads back and its checksum detects a changed byte; a bitmap is a set; every
      candidate's vote is counted once.
    - [Secret]: the scalars are a ring of residues; both interpolations return the secret;
      the threads of the parallel computer end with the same result under every schedule;
      enrolment hands out disjoint ranges; distributed shares are accepted; whatever is
      collected, reconstruction returns the committed secrets; and the inputs for which
      the code is undefined or wrong.
    - [Points]: the field is the integers modulo a prime, with inverses and square roots that
      always end; the points are a commutative group, ScalarMult computes its multiples, and
      encoded points are read back; honest boxes, shares, signatures and shared keys are
      accepted; forged signatures are accepted, too; and a stale table gives wrong multiples.
    - [Tries]: an update of a trie makes a root from which exactly the updated map is read and
      keeps the old roots, for a hash without collisions among the nodes at hand; the three
      ways in which values are lost all the same.  A trie of [c] entries per table takes
      255 - [c] updates: [c] grows by at most one with each, and the index is one byte.

    ** Not modelled

    The network, RPC and console layers, the LevelDB glue and the services that connect
    them are input and output; the walks over a trie only read it; the locks of the
    databases are left out, each operation being one step; the contract engine binds an EVM library that is not in
    the repository; RELIC's fields, curves and pairings above the integers, and Lehmer's
    divisors, are left out.  Headers of the repository that declare fewer members than
    their .cpp files use (consblockvote.h) are modelled by what the .cpp files use. *)

From Stdlib Require Import ZArith List Lia Bool.
Import ListNotations.
Local Open Scope Z_scope.

(** ** Machine digits *)

(** [RLC_DIG] is the digit width (WSIZE of the build, 64) and [B] the radix. *)
Definition RLC_DIG : Z := 64.
Definition B : Z := 2 ^ RLC_DIG.
Arguments B : simpl never.
Arguments RLC_DIG : simpl never.

(** A value of type [dig_t]. *)
Definition dig (d : Z) : Prop := 0 <= d < B.

(** Arithmetic on [dig_t] wraps around modulo [B]. *)
Definition dadd (x y : Z) : Z := (x + y) mod B.
Definition dsub (x y : Z) : Z := (x - y) mod B.
Definition dmul (x y : Z) : Z := (x * y) mod B.
Definition dneg (x : Z) : Z := (- x) mod B.
Definition dshl (x n : Z) : Z := (Z.shiftl x n) mod B.
Definition dshr (x n : Z) : Z := Z.shiftr x n.

(** [RLC_MASK(b)]: the lowest [b] bits of a digit. *)
Definition RLC_MASK (b : Z) : Z :=
  Z.lor (dneg (Z.b2z (RLC_DIG <=? b))) (dsub (dshl 1 (b mod RLC_DIG)) 1).

(** [RLC_CEIL(a, b)] on non-negative [int]s. *)
Definition RLC_CEIL (a b : Z) : Z := Z.quot (a - 1) b + 1.

(** [RLC_RIP(b, d, v)]: the digit index and the bit index of bit [v]. *)
Definition RLC_RIP_d (v : Z) : Z := Z.shiftr v 6.
Definition RLC_RIP_b (v : Z) : Z := v - RLC_RIP_d v * 2 ^ 6.

(** [RLC_MUL_DIG] and [RLC_DIV_DIG] work on double digits. *)
Definition RLC_MUL_DIG (a b : Z) : Z * Z :=
  (Z.shiftr ((a * b) mod (B * B)) RLC_DIG mod B, dmul a b).
Definition RLC_DIV_DIG (h l d : Z) : Z * Z :=
  let n := Z.lor (Z.shiftl h RLC_DIG) l in
  let q := (n / d) mod B in
  (q, (n - q * d) mod B).

(** Comparison results. *)
Inductive cmp_t := RLC_LT | RLC_EQ | RLC_GT | RLC_NE.

Definition cmp_eqb (x y : cmp_t) : bool :=
  match x, y with
  | RLC_LT, RLC_LT | RLC_EQ, RLC_EQ | RLC_GT, RLC_GT | RLC_NE, RLC_NE => true
  | _, _ => false
  end.

(** What [cmp_t] answers for two integers. *)
Definition cmpZ (x y : Z) : cmp_t :=
  match x ?= y with Lt => RLC_LT | Eq => RLC_EQ | Gt => RLC_GT end.

(** ** Results of fallible C code *)

Inductive err :=
| ERR_NO_MEMORY | ERR_NO_PRECI | ERR_NO_FILE | ERR_NO_READ | ERR_NO_VALID
| ERR_NO_BUFFER | ERR_NO_FIELD | ERR_NO_CURVE | ERR_NO_CONFIG | ERR_NO_RAND
(* the C++ exception std::runtime_error, and an overflow_error *)
| runtime_error | overflow_error.

(** [Ok]: the call returns.  [Throw e]: the call reaches [RLC_THROW(e)].
    [Undef]: the C code accesses a buffer out of its bounds (undefined
    behaviour).  [NoFuel]: the model's own loop bound was too small. *)
Inductive result (A : Type) :=
| Ok (a : A)
| Throw (e : err)
| Undef
| NoFuel.
Arguments Ok {A} a.
Arguments Throw {A} e.
Arguments Undef {A}.
Arguments NoFuel {A}.

Definition bind {A C} (m : result A) (f : A -> result C) : result C :=
  match m with
  | Ok a => f a
  | Throw e => Throw e
  | Undef => Undef
  | NoFuel => NoFuel
  end.

Declare Scope relic_scope.
Delimit Scope relic_scope with relic.
Notation "'let!' x ':=' m 'in' k" := (bind m (fun x => k))
  (at level 10, x pattern, m at level 100, k at level 200,
   format "'[v' 'let!'  x  ':='  m  'in' '/' k ']'") : relic_scope.
Open Scope relic_scope.

(** [returns m P]: the call returns (no throw, no undefined behaviour, no loop
    bound reached) and its value satisfies [P]. *)
Definition returns {A} (m : result A) (P : A -> Prop) : Prop :=
  match m with Ok a => P a | _ => False end.

Lemma returns_ok {A} (a : A) (P : A -> Prop) : P a -> returns (Ok a) P.
Proof. exact (fun H => H). Qed.

Lemma returns_bind {A C} (m : result A) (f : A -> result C) P Q :
  returns m P -> (forall a, P a -> returns (f a) Q) -> returns (bind m f) Q.
Proof. destruct m; cbn; intros HP HQ; solve [auto | contradiction]. Qed.

Lemma returns_mono {A} (m : result A) (P Q : A -> Prop) :
  returns m P -> (forall a, P a -> Q a) -> returns m Q.
Proof. destruct m; cbn; auto. Qed.

Lemma returns_conj {A} (m : result A) (P Q : A -> Prop) :
  returns m P -> returns m Q -> returns m (fun a => P a /\ Q a).
Proof. destruct m; cbn; auto. Qed.

Lemma returns_ex {A} (m : result A) (P : A -> Prop) :
  returns m P -> exists a, m = Ok a /\ P a.
Proof. destruct m; cbn; intros H; solve [eauto | contradiction]. Qed.

(** ** Loops *)

(** [loop fuel body s]: [while (1)] with [body] returning [inl] to go on and
    [inr] to leave. *)
Fixpoint loop {S R} (fuel : nat) (body : S -> result (S + R)) (s : S) : result R :=
  match fuel with
  | O => NoFuel
  | Datatypes.S fuel' =>
      let! o := body s in
      match o with inl s' => loop fuel' body s' | inr r => Ok r end
  end.

Lemma loop_returns {S R} (Inv : S -> Prop) (measure : S -> nat) (P : R -> Prop) body :
  (forall s, Inv s -> returns (body s) (fun o =>
     match o with inl s' => Inv s' /\ (measure s' < measure s)%nat | inr r => P r end)) ->
  forall fuel s, Inv s -> (measure s < fuel)%nat -> returns (loop fuel body s) P.
Proof.
  intros Hbody fuel; induction fuel as [|fuel IH]; intros s HI Hf; [lia|].
  cbn [loop]. eapply returns_bind; [apply Hbody, HI|].
  intros [s'|r]; [intros [HI' Hm]; apply IH; [exact HI'|lia] | intros Hr; exact Hr].
Qed.

(** [for_up n i body s]: [for (k = i; k < i + n; k++)]. *)
Fixpoint for_up {S} (n i : nat) (body : nat -> S -> result S) (s : S) : result S :=
  match n with
  | O => Ok s
  | Datatypes.S n' => let! s' := body i s in for_up n' (Datatypes.S i) body s'
  end.

Lemma for_up_returns {S} (Inv : nat -> S -> Prop) body n : forall i s,
  (forall k s, (i <= k < i + n)%nat -> Inv k s -> returns (body k s) (Inv (Datatypes.S k))) ->
  Inv i s -> returns (for_up n i body s) (Inv (i + n)%nat).
Proof.
  induction n as [|n IH]; intros i s Hb Hi.
  - rewrite Nat.add_0_r; exact Hi.
  - cbn [for_up]. eapply returns_bind; [apply Hb; [lia|exact Hi]|].
    intros s' Hs'. rewrite <- Nat.add_succ_comm.
    apply IH; [|exact Hs']. intros k t Hk; apply Hb; lia.
Qed.

(** [for_down n body s]: [for (k = n - 1; k >= 0; k--)]. *)
Fixpoint for_down {S} (n : nat) (body : nat -> S -> result S) (s : S) : result S :=
  match n with
  | O => Ok s
  | Datatypes.S n' => let! s' := body n' s in for_down n' body s'
  end.

Lemma for_down_returns {S} (Inv : nat -> S -> Prop) body n : forall s,
  (forall k s, (k < n)%nat -> Inv (Datatypes.S k) s -> returns (body k s) (Inv k)) ->
  Inv n s -> returns (for_down n body s) (Inv O).
Proof.
  induction n as [|n IH]; intros s Hb Hn; [exact Hn|].
  cbn [for_down]. eapply returns_bind; [apply Hb; [lia|exact Hn]|].
  intros s' Hs'. apply IH; [|exact Hs']. intros k t Hk; apply Hb; lia.
Qed.

(** ** Facts on the radix *)

Lemma B_gt : 2 < B.
Proof. vm_compute; reflexivity. Qed.

Lemma B_pow2 : B = 2 ^ 64.
Proof. reflexivity. Qed.

Lemma B_div k : 0 <= k <= 64 -> B = 2 ^ k * 2 ^ (64 - k).
Proof. intros H. rewrite <- Z.pow_add_r by lia. rewrite B_pow2. f_equal; lia. Qed.

(** [Bp n] is the radix to the power [n]. *)
Definition Bp (n : nat) : Z := B ^ Z.of_nat n.
Arguments Bp : simpl never.

Lemma Bp_0 : Bp 0 = 1.
Proof. reflexivity. Qed.

Lemma Bp_S n : Bp (S n) = B * Bp n.
Proof. unfold Bp. rewrite Nat2Z.inj_succ, Z.pow_succ_r by lia. reflexivity. Qed.

Lemma Bp_1 : Bp 1 = B.
Proof. rewrite Bp_S, Bp_0. lia. Qed.

Lemma Bp_add n m : Bp (n + m) = Bp n * Bp m.
Proof. unfold Bp. rewrite Nat2Z.inj_add, Z.pow_add_r by lia. reflexivity. Qed.

Lemma Bp_pos n : 0 < Bp n.
Proof. apply Z.pow_pos_nonneg; pose proof B_gt; lia. Qed.

Lemma Bp_pow2 n : Bp n = 2 ^ (64 * Z.of_nat n).
Proof. unfold Bp. rewrite B_pow2, <- Z.pow_mul_r by lia. reflexivity. Qed.

Lemma Bp_le n m : (n <= m)%nat -> Bp n <= Bp m.
Proof. intros H. apply Z.pow_le_mono_r; pose proof B_gt; lia. Qed.

Lemma Bp_lt n m : (n < m)%nat -> Bp n < Bp m.
Proof. intros H. apply Z.pow_lt_mono_r; pose proof B_gt; lia. Qed.

Lemma Bp_lt_inv n m : Bp n < Bp m -> (n < m)%nat.
Proof.
  intros H. destruct (Nat.lt_ge_cases n m) as [?|Hge]; [assumption|].
  apply Bp_le in Hge. lia.
Qed.

(** ** Facts on digits *)

Lemma dig_mod x : dig (x mod B).
Proof. apply Z.mod_pos_bound. pose proof B_gt; lia. Qed.

Lemma dig_b2z b : dig (Z.b2z b).
Proof. unfold dig; pose proof B_gt; destruct b; cbn; lia. Qed.

Lemma dig_0 : dig 0.
Proof. unfold dig; pose proof B_gt; lia. Qed.

Lemma dig_1 : dig 1.
Proof. unfold dig; pose proof B_gt; lia. Qed.

Lemma dadd_dig x y : dig (dadd x y).
Proof. apply dig_mod. Qed.
Lemma dsub_dig x y : dig (dsub x y).
Proof. apply dig_mod. Qed.
Lemma dmul_dig x y : dig (dmul x y).
Proof. apply dig_mod. Qed.

(** The test [r < y] after [r = x + y] is the carry. *)
Lemma dadd_carry x y : dig x -> dig y ->
  dadd x y + B * Z.b2z (dadd x y <? y) = x + y.
Proof.
  unfold dig, dadd. intros Hx Hy.
  destruct (Z.lt_ge_cases (x + y) B) as [H|H].
  - rewrite Z.mod_small by lia. destruct (Z.ltb_spec (x + y) y); cbn; lia.
  - assert (E : (x + y) mod B = x + y - B).
    { symmetry; apply (Z.mod_unique _ _ 1); lia. }
    rewrite E. destruct (Z.ltb_spec (x + y - B) y); cbn; lia.
Qed.

Lemma dadd_carry_l x y : dig x -> dig y ->
  dadd x y + B * Z.b2z (dadd x y <? x) = x + y.
Proof.
  intros Hx Hy. pose proof (dadd_carry y x Hy Hx) as E.
  unfold dadd in *. rewrite (Z.add_comm x y). exact E.
Qed.

(** The test [r > x] after [r = x - y] is the borrow. *)
Lemma dsub_borrow x y : dig x -> dig y ->
  dsub x y = x - y + B * Z.b2z (x <? dsub x y).
Proof.
  unfold dig, dsub. intros Hx Hy.
  destruct (Z.lt_ge_cases x y) as [H|H].
  - assert (E : (x - y) mod B = x - y + B).
    { symmetry; apply (Z.mod_unique _ _ (-1)); lia. }
    rewrite E. destruct (Z.ltb_spec x (x - y + B)); cbn; lia.
  - rewrite Z.mod_small by lia. destruct (Z.ltb_spec x (x - y)); cbn; lia.
Qed.

Lemma dsub_eq x y : dig x -> dig y -> dsub x y = x - y + B * Z.b2z (x <? y).
Proof.
  unfold dig, dsub. intros Hx Hy. destruct (Z.ltb_spec x y) as [H|H]; cbn.
  - symmetry; apply (Z.mod_unique _ _ (-1)); lia.
  - rewrite Z.mod_small; lia.
Qed.

Lemma RLC_MUL_DIG_spec a b h l : dig a -> dig b -> RLC_MUL_DIG a b = (h, l) ->
  l + B * h = a * b /\ dig l /\ 0 <= h <= B - 2.
Proof.
  unfold RLC_MUL_DIG, dmul, dig. intros Ha Hb H. apply pair_equal_spec in H as [<- <-].
  pose proof B_gt as HB.
  assert (Hab : 0 <= a * b <= (B - 1) * (B - 1)) by nia.
  rewrite (Z.mod_small (a * b) (B * B)) by nia.
  rewrite Z.shiftr_div_pow2 by (unfold RLC_DIG; lia).
  change (2 ^ RLC_DIG) with B.
  assert (Hq : 0 <= a * b / B <= B - 2).
  { split; [apply Z.div_pos; lia|].
    assert (a * b / B < B - 1) by (apply Z.div_lt_upper_bound; nia). lia. }
  rewrite (Z.mod_small (a * b / B) B) by lia.
  pose proof (Z.div_mod (a * b) B ltac:(lia)).
  pose proof (Z.mod_pos_bound (a * b) B ltac:(lia)). lia.
Qed.

Lemma lor_shiftl_add h l n : 0 <= n -> 0 <= l < 2 ^ n ->
  Z.lor (Z.shiftl h n) l = h * 2 ^ n + l.
Proof.
  intros Hn Hl. rewrite Z.shiftl_mul_pow2 by lia.
  rewrite <- Z.lxor_lor, <- Z.add_nocarry_lxor; try reflexivity;
    apply Z.bits_inj'; intros k Hk; rewrite Z.land_spec, Z.bits_0;
    (destruct (Z.lt_ge_cases k n);
     [rewrite Z.mul_pow2_bits_low by lia; reflexivity
     |rewrite <- (Z.mod_small l (2 ^ n)), Z.mod_pow2_bits_high by lia;
      apply andb_false_r]).
Qed.

Lemma RLC_DIV_DIG_spec h l d q r : dig l -> 0 <= h < d -> d < B ->
  RLC_DIV_DIG h l d = (q, r) ->
  h * B + l = q * d + r /\ 0 <= r < d /\ dig q.
Proof.
  unfold RLC_DIV_DIG, dig. intros Hl Hh Hd H.
  rewrite lor_shiftl_add in H by (unfold RLC_DIG; change (2 ^ 64) with B; lia).
  change (2 ^ RLC_DIG) with B in H. apply pair_equal_spec in H as [<- <-].
  assert (Hq : 0 <= (h * B + l) / d < B).
  { split; [apply Z.div_pos; nia|apply Z.div_lt_upper_bound; nia]. }
  rewrite (Z.mod_small ((h * B + l) / d)) by lia.
  pose proof (Z.div_mod (h * B + l) d ltac:(lia)).
  pose proof (Z.mod_pos_bound (h * B + l) d ltac:(lia)).
  rewrite Z.mod_small by nia. nia.
Qed.

(** ** Digit vectors *)

(** The value of a little-endian digit vector. *)
Fixpoint val (l : list Z) : Z :=
  match l with [] => 0 | d :: l' => d + B * val l' end.

Definition digs (l : list Z) : Prop := Forall dig l.

Lemma digs_nil : digs [].
Proof. constructor. Qed.
Lemma digs_cons d l : dig d -> digs l -> digs (d :: l).
Proof. constructor; assumption. Qed.
Lemma digs_inv d l : digs (d :: l) -> dig d /\ digs l.
Proof. intros H; inversion H; auto. Qed.
Lemma digs_app l1 l2 : digs l1 -> digs l2 -> digs (l1 ++ l2).
Proof. intros; apply Forall_app; auto. Qed.
Lemma digs_app_inv l1 l2 : digs (l1 ++ l2) -> digs l1 /\ digs l2.
Proof. apply Forall_app. Qed.
Lemma digs_firstn n l : digs l -> digs (firstn n l).
Proof. intros H. apply (digs_app_inv _ (skipn n l)). rewrite firstn_skipn. exact H. Qed.
Lemma digs_skipn n l : digs l -> digs (skipn n l).
Proof. intros H. apply (digs_app_inv (firstn n l)). rewrite firstn_skipn. exact H. Qed.
Lemma digs_repeat0 n : digs (repeat 0 n).
Proof. induction n; cbn; constructor; auto using dig_0. Qed.
Lemma digs_rev l : digs l -> digs (rev l).
Proof. apply Forall_rev. Qed.
Lemma digs_nth l i : digs l -> dig (nth i l 0).
Proof.
  intros H. destruct (nth_in_or_default i l 0) as [Hi | ->]; [|apply dig_0].
  unfold digs in H; rewrite Forall_forall in H. apply H, Hi.
Qed.

Create HintDb digits.
#[export] Hint Resolve digs_nil digs_cons digs_app digs_firstn digs_skipn
  digs_repeat0 digs_rev digs_nth dig_mod dig_b2z dig_0 dig_1
  dadd_dig dsub_dig dmul_dig : digits.

Lemma val_app l1 l2 : val (l1 ++ l2) = val l1 + Bp (length l1) * val l2.
Proof.
  induction l1 as [|d l1 IH]; cbn [val app length]; [rewrite Bp_0; lia|].
  rewrite IH, Bp_S. ring.
Qed.

Lemma val_repeat0 n : val (repeat 0 n) = 0.
Proof. induction n as [|n IH]; cbn [val repeat]; [reflexivity|]. rewrite IH; lia. Qed.

Lemma val_bound l : digs l -> 0 <= val l < Bp (length l).
Proof.
  induction 1 as [|d l Hd Hl IH]; cbn [val length]; [rewrite Bp_0; lia|].
  rewrite Bp_S. unfold dig in Hd. nia.
Qed.

Lemma val_inj l1 : forall l2, length l1 = length l2 -> digs l1 -> digs l2 ->
  val l1 = val l2 -> l1 = l2.
Proof.
  induction l1 as [|d l1 IH]; intros [|e l2] HL H1 H2 HV; try discriminate; [reflexivity|].
  apply digs_inv in H1 as [Hd H1], H2 as [He H2]. cbn [val length] in *.
  unfold dig in *.
  assert (E : d = e).
  { assert (d mod B = e mod B) as E'.
    { rewrite <- (Z_mod_plus_full d (val l1) B), <- (Z_mod_plus_full e (val l2) B).
      f_equal; lia. }
    rewrite !Z.mod_small in E' by lia. exact E'. }
  subst e. f_equal. pose proof B_gt. apply IH; auto; nia.
Qed.

Lemma val_firstn_skipn n l : (n <= length l)%nat ->
  val l = val (firstn n l) + Bp n * val (skipn n l).
Proof.
  intros H. rewrite <- (firstn_skipn n l) at 1.
  rewrite val_app, firstn_length_le by exact H. reflexivity.
Qed.

Lemma val_firstn n l : digs l -> (n <= length l)%nat -> val (firstn n l) = val l mod Bp n.
Proof.
  intros Hd Hn. rewrite (val_firstn_skipn n l) by exact Hn.
  pose proof (val_bound (firstn n l) (digs_firstn n l Hd)) as Hb.
  rewrite firstn_length_le in Hb by exact Hn.
  rewrite Z.mul_comm, Z_mod_plus_full, Z.mod_small by lia. reflexivity.
Qed.

Lemma val_skipn n l : digs l -> (n <= length l)%nat -> val (skipn n l) = val l / Bp n.
Proof.
  intros Hd Hn. rewrite (val_firstn_skipn n l) by exact Hn.
  pose proof (val_bound (firstn n l) (digs_firstn n l Hd)) as Hb.
  rewrite firstn_length_le in Hb by exact Hn.
  rewrite Z.mul_comm, Z_div_plus_full, Z.div_small by lia. lia.
Qed.

(** Array update [l[i] = x]; a list of the same length. *)
Fixpoint upd (l : list Z) (i : nat) (x : Z) : list Z :=
  match l, i with
  | [], _ => []
  | _ :: l', O => x :: l'
  | d :: l', S i' => d :: upd l' i' x
  end.

Lemma length_upd l : forall i x, length (upd l i x) = length l.
Proof. induction l as [|d l IH]; intros [|i] x; cbn; auto. Qed.

Lemma nth_upd_eq l : forall i x, (i < length l)%nat -> nth i (upd l i x) 0 = x.
Proof.
  induction l as [|d l IH]; intros [|i] x H; cbn [upd nth length] in *; try lia;
    apply IH; lia.
Qed.

Lemma nth_upd_neq l : forall i j x, i <> j -> nth j (upd l i x) 0 = nth j l 0.
Proof.
  induction l as [|d l IH]; intros [|i] [|j] x H; cbn; try congruence; auto.
Qed.

Lemma digs_upd l : forall i x, digs l -> dig x -> digs (upd l i x).
Proof.
  induction l as [|d l IH]; intros [|i] x Hl Hx; cbn; auto;
    apply digs_inv in Hl as [Hd Hl]; constructor; auto. apply IH; auto.
Qed.

Lemma val_upd l : forall i x, (i < length l)%nat ->
  val (upd l i x) = val l + Bp i * (x - nth i l 0).
Proof.
  induction l as [|d l IH]; intros [|i] x H; cbn [val upd nth length] in *; try lia.
  - rewrite Bp_0; lia.
  - rewrite IH, Bp_S by lia. ring.
Qed.

Lemma upd_split l : forall i x, (i < length l)%nat ->
  upd l i x = firstn i l ++ x :: skipn (S i) l.
Proof.
  induction l as [|d l IH]; intros [|i] x H; cbn in *; try lia; [reflexivity|].
  f_equal. apply IH; lia.
Qed.

Lemma firstn_S_nth l : forall i, (i < length l)%nat ->
  firstn (S i) l = firstn i l ++ [nth i l 0].
Proof.
  induction l as [|d l IH]; intros [|i] H; cbn in *; try lia; [reflexivity|].
  f_equal. apply IH; lia.
Qed.

#[export] Hint Resolve digs_upd : digits.
Create Rewrite HintDb lens.
#[export] Hint Rewrite length_upd length_app length_firstn length_skipn
  repeat_length length_rev length_map length_seq : lens.

(** Solve length side conditions. *)
Ltac lens := autorewrite with lens in *; cbn [length] in *; try lia.

(** ** Finite sums *)

(** [sumf f lo n] is the sum of [f lo .. f (lo + n - 1)]. *)
Fixpoint sumf (f : nat -> Z) (lo n : nat) : Z :=
  match n with O => 0 | S n' => f lo + sumf f (S lo) n' end.

Lemma sumf_ext f g lo n : (forall i, (lo <= i < lo + n)%nat -> f i = g i) ->
  sumf f lo n = sumf g lo n.
Proof.
  revert lo; induction n as [|n IH]; intros lo H; cbn; [reflexivity|].
  rewrite H by lia. f_equal. apply IH. intros; apply H; lia.
Qed.

Lemma sumf_split f lo n m : sumf f lo (n + m) = sumf f lo n + sumf f (lo + n) m.
Proof.
  revert lo; induction n as [|n IH]; intros lo; cbn; [rewrite Nat.add_0_r; lia|].
  rewrite IH. replace (S lo + n)%nat with (lo + S n)%nat by lia. lia.
Qed.

Lemma sumf_zero f lo n : (forall i, (lo <= i < lo + n)%nat -> f i = 0) -> sumf f lo n = 0.
Proof.
  revert lo; induction n as [|n IH]; intros lo H; cbn; [reflexivity|].
  rewrite H, IH by (intros; try apply H; lia). reflexivity.
Qed.

Lemma sumf_shift f lo n k : sumf f (lo + k) n = sumf (fun i => f (i + k)%nat) lo n.
Proof.
  revert lo; induction n as [|n IH]; intros lo; cbn; [reflexivity|].
  f_equal. apply (IH (S lo)).
Qed.

Lemma sumf_add f g lo n : sumf (fun i => f i + g i) lo n = sumf f lo n + sumf g lo n.
Proof. revert lo; induction n as [|n IH]; intros lo; cbn; [reflexivity|]. rewrite IH; lia. Qed.

Lemma sumf_scale c f lo n : sumf (fun i => c * f i) lo n = c * sumf f lo n.
Proof. revert lo; induction n as [|n IH]; intros lo; cbn; [lia|]. rewrite IH; lia. Qed.

Lemma sumf_bound f lo n M : (forall i, (lo <= i < lo + n)%nat -> 0 <= f i <= M) ->
  0 <= sumf f lo n <= Z.of_nat n * M.
Proof.
  revert lo; induction n as [|n IH]; intros lo H; cbn [sumf]; [lia|].
  specialize (IH (S lo) ltac:(intros; apply H; lia)). specialize (H lo ltac:(lia)). lia.
Qed.

Lemma sumf_rev f lo n : sumf f lo n = sumf (fun i => f (2 * lo + n - 1 - i)%nat) lo n.
Proof.
  revert f lo; induction n as [|n IH]; intros f lo; [reflexivity|].
  replace (S n) with (n + 1)%nat at 1 by lia. rewrite sumf_split. cbn [sumf].
  replace (2 * lo + S n - 1 - lo)%nat with (lo + n)%nat by lia.
  rewrite IH. replace (S lo) with (lo + 1)%nat by lia. rewrite sumf_shift.
  rewrite (sumf_ext (fun i => f (2 * lo + S n - 1 - (i + 1))%nat)
             (fun i => f (2 * lo + n - 1 - i)%nat)) by (intros; f_equal; lia). lia.
Qed.

(** Column [k] of the product of two digit vectors. *)
Definition conv (a b : list Z) (k : nat) : Z :=
  sumf (fun j => nth j a 0 * nth (k - j) b 0) 0 (S k).

Lemma conv_window a b k lo n : (lo + n <= S k)%nat -> (length b + lo <= S k)%nat ->
  (length a <= lo + n \/ S k <= lo + n)%nat ->
  sumf (fun j => nth j a 0 * nth (k - j) b 0) lo n = conv a b k.
Proof.
  intros H1 H2 H3. unfold conv.
  replace (S k) with (lo + (n + (S k - lo - n)))%nat by lia.
  rewrite !sumf_split, Nat.add_0_l.
  rewrite (sumf_zero _ 0 lo), (sumf_zero _ (lo + n)).
  - lia.
  - intros i Hi. rewrite (nth_overflow a) by lia. reflexivity.
  - intros i Hi. rewrite (nth_overflow b) by lia. lia.
Qed.

Lemma val_sumf b : forall n, (val b - sumf (fun k => Bp k * nth k b 0) 0 n) mod Bp n = 0.
Proof.
  induction b as [|y b IH]; intros [|n]; cbn [val sumf].
  - reflexivity.
  - rewrite sumf_zero; [rewrite Bp_0; cbn; reflexivity|].
    intros i Hi. destruct i; cbn; lia.
  - rewrite Bp_0. apply Z.mod_1_r.
  - change 1%nat with (0 + 1)%nat. rewrite sumf_shift.
    rewrite (sumf_ext _ (fun k => B * (Bp k * nth k b 0))).
    2: { intros i _. replace (i + 1)%nat with (S i) by lia. cbn [nth]. rewrite Bp_S. ring. }
    rewrite sumf_scale, Bp_0. cbn [nth].
    replace (y + B * val b - (1 * y + B * sumf (fun k => Bp k * nth k b 0) 0 n))
      with (B * (val b - sumf (fun k => Bp k * nth k b 0) 0 n)) by ring.
    rewrite Bp_S. pose proof B_gt. pose proof (Bp_pos n).
    rewrite Z.mul_mod_distr_l, IH by lia. lia.
Qed.

Lemma conv_cons x a b k :
  conv (x :: a) b k = x * nth k b 0 + match k with O => 0 | S k' => conv a b k' end.
Proof.
  unfold conv at 1. change (S k) with (1 + k)%nat. rewrite sumf_split.
  cbn [sumf nth]. rewrite Nat.sub_0_r, Z.add_0_r. f_equal.
  destruct k as [|k]; [reflexivity|].
  rewrite (sumf_shift _ 0 (S k) 1). apply sumf_ext.
  intros i _. replace (i + 1)%nat with (S i) by lia. reflexivity.
Qed.

(** The columns add up to the product. *)
Lemma conv_total a : forall b n,
  (val a * val b - sumf (fun k => Bp k * conv a b k) 0 n) mod Bp n = 0.
Proof.
  induction a as [|x a IH]; intros b n.
  - cbn [val]. rewrite sumf_zero; [apply Z.mod_0_l; pose proof (Bp_pos n); lia|].
    intros k _. unfold conv. rewrite sumf_zero; [lia|]. intros i _. destruct i; cbn; lia.
  - rewrite (sumf_ext _ (fun k => x * (Bp k * nth k b 0) +
      Bp k * match k with O => 0 | S k' => conv a b k' end))
      by (intros; rewrite conv_cons; ring).
    rewrite sumf_add, sumf_scale.
    destruct n as [|n]; [rewrite Bp_0; apply Z.mod_1_r|].
    cbn [val].
    assert (E : sumf (fun k => Bp k * match k with O => 0 | S k' => conv a b k' end) 0 (S n)
                = Bp 0 * 0 + B * sumf (fun k => Bp k * conv a b k) 0 n).
    { cbn [sumf]. f_equal. rewrite (sumf_shift _ 0 n 1), <- sumf_scale. apply sumf_ext.
      intros i _. replace (i + 1)%nat with (S i) by lia. rewrite Bp_S. ring. }
    rewrite E.
    replace ((x + B * val a) * val b - (x * sumf (fun k => Bp k * nth k b 0) 0 (S n) +
      (Bp 0 * 0 + B * sumf (fun k => Bp k * conv a b k) 0 n)))
      with (x * (val b - sumf (fun k => Bp k * nth k b 0) 0 (S n)) +
            B * (val a * val b - sumf (fun k => Bp k * conv a b k) 0 n)) by ring.
    pose proof B_gt. pose proof (Bp_pos n). pose proof (Bp_pos (S n)).
    rewrite Z.add_mod, Z.mul_mod, val_sumf by lia.
    rewrite (Bp_S n), Z.mul_mod_distr_l, IH by lia.
    rewrite !Z.mul_0_r, !Zmod_0_l. reflexivity.
Qed.

Lemma Bp_gt n : Z.of_nat n < Bp n.
Proof.
  induction n as [|n IH]; [rewrite Bp_0; lia|].
  rewrite Bp_S. pose proof B_gt. pose proof (Bp_pos n). nia.
Qed.

Lemma conv_high a b k : (length a + length b <= S k)%nat -> conv a b k = 0.
Proof.
  intros H. apply sumf_zero. intros j Hj.
  destruct (Nat.lt_ge_cases j (length a)).
  - rewrite (nth_overflow b) by lia. lia.
  - rewrite (nth_overflow a) by lia. lia.
Qed.

(** With enough columns the sum is the product itself. *)
Lemma conv_total_exact a b n : (length a + length b <= S n)%nat ->
  sumf (fun k => Bp k * conv a b k) 0 n = val a * val b.
Proof.
  intros Hn. set (D := val a * val b - sumf (fun k => Bp k * conv a b k) 0 n).
  enough (D = 0) by lia.
  set (N := (n + Z.to_nat (Z.abs D))%nat).
  assert (HD : D mod Bp N = 0).
  { rewrite <- (conv_total a b N). unfold D. f_equal. subst N. rewrite sumf_split.
    rewrite (sumf_zero _ (0 + n)); [lia|]. intros i Hi. rewrite conv_high by lia. lia. }
  apply Z.mod_divide in HD as [z Hz]; [|pose proof (Bp_pos N); lia].
  pose proof (Bp_gt N) as HN. subst N. rewrite Nat2Z.inj_add, Z2Nat.id in HN by lia.
  destruct (Z.eq_dec z 0) as [->|Hz0]; [lia|].
  assert (Bp (n + Z.to_nat (Z.abs D)) <= Z.abs D) by (rewrite Hz at 2; nia). lia.
Qed.

(** Digits by position. *)
Lemma val_sumf_exact b n : (length b <= n)%nat -> sumf (fun k => Bp k * nth k b 0) 0 n = val b.
Proof.
  revert n; induction b as [|y b IH]; intros n Hn; cbn [val].
  - apply sumf_zero. intros i _. destruct i; cbn; lia.
  - destruct n as [|n]; [cbn in Hn; lia|]. cbn [sumf length] in *. rewrite Bp_0. cbn [nth].
    rewrite (sumf_shift _ 0 n 1), <- (IH n), <- sumf_scale by lia. f_equal; [lia|].
    apply sumf_ext. intros i _. replace (i + 1)%nat with (S i) by lia. cbn [nth]. rewrite Bp_S. ring.
Qed.

(** ** Reversing in place *)

(** while (i < j) { swap str[i] and str[j]; ++i; --j; } *)
Fixpoint reverse_loop (fuel : nat) (str : list Z) (i j : nat) : list Z :=
  match fuel with
  | O => str
  | S fuel' =>
      if (i <? j)%nat then
        let c := nth i str 0 in
        let str := upd str i (nth j str 0) in
        let str := upd str j c in
        reverse_loop fuel' str (S i) (j - 1)
      else str
  end.

Lemma upd_middle l1 x l2 y : upd (l1 ++ x :: l2) (length l1) y = l1 ++ y :: l2.
Proof. induction l1 as [|z l1 IH]; cbn; [reflexivity|]. f_equal. exact IH. Qed.

Lemma reverse_loop_ok fuel : forall pre m post, (length m <= 2 * fuel)%nat ->
  reverse_loop fuel (pre ++ m ++ post) (length pre) (length pre + length m - 1) = pre ++ rev m ++ post.
Proof.
  induction fuel as [|fuel IH]; intros pre m post Hm; cbn [reverse_loop].
  - destruct m; [reflexivity|cbn in Hm; lia].
  - destruct m as [|x m]; [cbn [length]; destruct (Nat.ltb_spec (length pre) (length pre + 0 - 1)); [lia|reflexivity]|].
    destruct m as [|z m'] using rev_ind.
    { cbn [length]. destruct (Nat.ltb_spec (length pre) (length pre + 1 - 1)); [lia|reflexivity]. }
    clear IHm'. rename m' into mid.
    assert (Lm : length (x :: mid ++ [z]) = S (S (length mid))) by (cbn; rewrite length_app; cbn; lia).
    rewrite Lm in *. destruct (Nat.ltb_spec (length pre) (length pre + S (S (length mid)) - 1)); [|lia].
    assert (E0 : pre ++ (x :: mid ++ [z]) ++ post = pre ++ x :: (mid ++ z :: post))
      by (cbn; rewrite <- app_assoc; reflexivity).
    rewrite E0. rewrite nth_middle.
    assert (Ej : (length pre + S (S (length mid)) - 1)%nat = length (pre ++ x :: mid))
      by (rewrite length_app; cbn; lia).
    rewrite Ej at 1 2. replace (nth (length (pre ++ x :: mid)) (pre ++ x :: mid ++ z :: post) 0) with z.
    2: { change (pre ++ x :: mid ++ z :: post) with (pre ++ (x :: mid) ++ z :: post).
         rewrite app_assoc, nth_middle. reflexivity. }
    rewrite upd_middle.
    assert (E1 : pre ++ z :: mid ++ z :: post = (pre ++ z :: mid) ++ z :: post) by (rewrite <- app_assoc; reflexivity).
    assert (E2 : length (pre ++ x :: mid) = length (pre ++ z :: mid)) by (rewrite !length_app; reflexivity).
    rewrite E1, E2, upd_middle.
    assert (E3 : (pre ++ z :: mid) ++ x :: post = (pre ++ [z]) ++ mid ++ x :: post)
      by (rewrite <- !app_assoc; reflexivity).
    rewrite E3. specialize (IH (pre ++ [z]) mid (x :: post) ltac:(lia)).
    rewrite length_app in IH. cbn [length] in IH.
    replace (length pre + 1)%nat with (S (length pre)) in IH by lia.
    replace (length pre + S (S (length mid)) - 1 - 1)%nat with (S (length pre) + length mid - 1)%nat by lia.
    rewrite IH. cbn [rev]. rewrite rev_app_distr. cbn [rev app]. rewrite <- !app_assoc. reflexivity.
Qed.
