(* ===== verification/Dv.v ===== *)
(** * Digit vectors and utilities

    dv/relic_dv_util.c (zeroing, copying, comparing and shifting vectors of
    digits, the constant-time conditional copy and swap) and the byte and
    character utilities of relic_util.c.  A C buffer is a list; a call that
    writes beyond the end of the list is undefined behaviour ([Undef]). *)

From Stdlib Require Import ZArith List Lia Bool.
From S2P Require Import Prelude.
Import ListNotations.
Local Open Scope Z_scope.

(** ** Operations on digit vectors *)

(** Replace the digits of [a] from index [k] on by [ds]. *)
Definition blit (a : list Z) (k : nat) (ds : list Z) : list Z :=
  firstn k a ++ ds ++ skipn (k + length ds) a.

(** BN_PRECI = 1024, BN_MAGNI = DOUBLE: two operands and two spare digits. *)
Definition RLC_BN_SIZE : nat := 34.
Definition RLC_DV_DIGS : nat := Nat.max 6 RLC_BN_SIZE.

Definition dv_zero (a : list Z) (digits : nat) : result (list Z) :=
  if (RLC_DV_DIGS <? digits)%nat then Throw ERR_NO_PRECI
  else if (length a <? digits)%nat then Undef
  else Ok (blit a 0 (repeat 0 digits)).

Definition dv_copy (c a : list Z) (digits : nat) : result (list Z) :=
  if (length a <? digits)%nat || (length c <? digits)%nat then Undef
  else Ok (blit c 0 (firstn digits a)).

Fixpoint dv_copy_cond (c a : list Z) (digits : nat) (cond : Z) : result (list Z) :=
  match digits, c, a with
  | O, _, _ => Ok c
  | S digits', y :: c', x :: a' =>
      let mask := dneg cond in
      let t := Z.land (Z.lxor x y) mask in
      let! r := dv_copy_cond c' a' digits' cond in
      Ok (Z.lxor y t :: r)
  | _, _, _ => Undef
  end.

(** The pair is [(c, a)]. *)
Fixpoint dv_swap_cond (c a : list Z) (digits : nat) (cond : Z) : result (list Z * list Z) :=
  match digits, c, a with
  | O, _, _ => Ok (c, a)
  | S digits', y :: c', x :: a' =>
      let mask := dneg cond in
      let t := Z.land (Z.lxor x y) mask in
      let! (c'', a'') := dv_swap_cond c' a' digits' cond in
      Ok (Z.lxor y t :: c'', Z.lxor x t :: a'')
  | _, _, _ => Undef
  end.

(** The first difference from the top decides. *)
Definition dv_cmp (a b : list Z) : cmp_t :=
  fold_left (fun r '(x, y) =>
    if negb (x =? y) && cmp_eqb r RLC_EQ then (if y <? x then RLC_GT else RLC_LT) else r)
    (rev (combine a b)) RLC_EQ.

Definition dv_cmp_const (a b : list Z) : cmp_t :=
  let r := fold_left (fun r '(x, y) => Z.lor r (Z.lxor x y)) (combine a b) 0 in
  if r =? 0 then RLC_EQ else RLC_NE.

(** The digits written over the first [size] positions of the destination. *)
Definition dv_rshd (a : list Z) (size digits : nat) : list Z :=
  firstn (size - digits) (skipn digits a) ++ repeat 0 (size - (size - digits)).

Definition dv_lshd (a : list Z) (size digits : nat) : list Z :=
  repeat 0 digits ++ firstn (size - digits) a.

(** ** Utilities *)

(** [arch_lzcnt] is the machine's count-leading-zeros instruction. *)
Definition arch_lzcnt (x : Z) : Z := if x =? 0 then RLC_DIG else RLC_DIG - 1 - Z.log2 x.
Definition util_bits_dig (a : Z) : Z := RLC_DIG - arch_lzcnt a.

Definition util_conv_endian (i : Z) : Z :=
  let i1 := Z.land i 255 in
  let i2 := Z.land (Z.shiftr i 8) 255 in
  let i3 := Z.land (Z.shiftr i 16) 255 in
  let i4 := Z.land (Z.shiftr i 24) 255 in
  Z.lor (Z.lor (Z.lor (Z.shiftl i1 24) (Z.shiftl i2 16)) (Z.shiftl i3 8)) i4.

(** The build targets a little-endian machine ([BIGED] is not defined). *)
Definition util_conv_big (i : Z) : Z := util_conv_endian i.
Definition util_conv_little (i : Z) : Z := util_conv_endian i.

(** "0123456789ABCDEFGHIJKLMNOPQRSTUVWXYZabcdefghijklmnopqrstuvwxyz+/" *)
Definition conv_table : list Z :=
  map Z.of_nat (seq 48 10 ++ seq 65 26 ++ seq 97 26 ++ [43; 47]%nat).

Definition util_conv_char (i : Z) : Z := nth (Z.to_nat i) conv_table 0.

Definition RLC_UPP (c : Z) : Z := c - 32 * Z.b2z ((97 <=? c) && (c <=? 122)).

Definition util_cmp_const (a b : list Z) : cmp_t :=
  let result := fold_left (fun r '(x, y) => Z.lor r (Z.lxor x y)) (combine a b) 0 in
  if result =? 0 then RLC_EQ else RLC_NE.

(** Enumerate the digits of a non-empty vector. *)
Ltac inv_digs :=
  repeat match goal with H : digs (_ :: _) |- _ => apply digs_inv in H as [? H] end.

(** ** Comparison of digit vectors *)

Lemma dv_cmp_cons x a y b : length a = length b ->
  dv_cmp (x :: a) (y :: b) =
  match dv_cmp a b with
  | RLC_EQ => if x =? y then RLC_EQ else if y <? x then RLC_GT else RLC_LT
  | r => r
  end.
Proof.
  intros _. unfold dv_cmp. cbn [combine rev]. rewrite fold_left_app. cbn [fold_left].
  destruct (fold_left _ _ RLC_EQ), (x =? y); reflexivity.
Qed.

Lemma dv_cmp_ok a : forall b, length a = length b -> digs a -> digs b ->
  dv_cmp a b = cmpZ (val a) (val b).
Proof.
  induction a as [|x a IH]; intros [|y b] HL Ha Hb; try discriminate HL; [reflexivity|].
  inv_digs. injection HL as HL. rewrite dv_cmp_cons, IH by auto. cbn [val].
  unfold cmpZ, dig in *. pose proof B_gt.
  destruct (Z.compare_spec (val a) (val b)) as [E|E|E].
  - rewrite E. destruct (Z.eqb_spec x y), (Z.ltb_spec y x),
      (Z.compare_spec (x + B * val b) (y + B * val b)); try reflexivity; lia.
  - replace (x + B * val a ?= y + B * val b) with Lt; [reflexivity|].
    symmetry. apply Z.compare_lt_iff. nia.
  - replace (x + B * val a ?= y + B * val b) with Gt; [reflexivity|].
    symmetry. apply Z.compare_gt_iff. nia.
Qed.

Lemma cmpZ_lt x y : cmp_eqb (cmpZ x y) RLC_LT = (x <? y).
Proof. unfold cmpZ, Z.ltb. destruct (x ?= y); reflexivity. Qed.

Lemma cmpZ_gt x y : cmp_eqb (cmpZ x y) RLC_GT = (y <? x).
Proof. unfold cmpZ, Z.ltb. rewrite (Z.compare_antisym x y). destruct (x ?= y); reflexivity. Qed.

(** ** Arithmetic on a slice of a vector *)

Lemma length_blit a k ds : (k + length ds <= length a)%nat -> length (blit a k ds) = length a.
Proof. unfold blit. intros H. lens. Qed.

Lemma blit_middle F V R ds : length ds = length V ->
  blit (F ++ V ++ R) (length F) ds = F ++ ds ++ R.
Proof.
  intros H. unfold blit. rewrite firstn_app, Nat.sub_diag, firstn_all. cbn [firstn].
  rewrite app_nil_r. do 2 f_equal. rewrite app_assoc, skipn_app, skipn_all2 by (rewrite length_app; lia).
  rewrite length_app. replace (length F + length ds - (length F + length V))%nat with 0%nat by lia.
  reflexivity.
Qed.

Lemma digs_blit a k ds : digs a -> digs ds -> digs (blit a k ds).
Proof. unfold blit. auto with digits. Qed.

Lemma val_blit a k ds : (k + length ds <= length a)%nat ->
  val (blit a k ds) = val a + Bp k * (val ds - val (firstn (length ds) (skipn k a))).
Proof.
  intros H. unfold blit. rewrite !val_app, firstn_length_le by lia.
  rewrite (val_firstn_skipn k a), (val_firstn_skipn (length ds) (skipn k a)) by (lens).
  rewrite skipn_skipn, (Nat.add_comm (length ds) k). ring.
Qed.

#[export] Hint Resolve digs_blit : digits.

(** The leading digits of a vector. *)
Lemma nth_div a i : digs a -> nth i a 0 = val a / Bp i mod B.
Proof.
  intros Ha. destruct (Nat.lt_ge_cases i (length a)) as [Hi|Hi].
  - rewrite <- val_skipn by (auto; lia).
    assert (E : skipn i a = nth i a 0 :: skipn (S i) a).
    { rewrite <- (firstn_skipn i a) at 2. rewrite app_nth2; rewrite firstn_length_le by lia; [|lia].
      rewrite Nat.sub_diag. destruct (skipn i a) as [|x l] eqn:E.
      - apply (f_equal (@length Z)) in E. rewrite length_skipn in E. cbn in E. lia.
      - cbn [nth]. f_equal. change (S i) with (1 + i)%nat. rewrite <- skipn_skipn, E. reflexivity. }
    rewrite E. cbn [val]. rewrite Z.mul_comm, Z_mod_plus_full.
    pose proof (digs_nth a i Ha) as D. unfold dig in D. rewrite Z.mod_small by lia. reflexivity.
  - rewrite nth_overflow by lia. pose proof (val_bound a Ha). pose proof (Bp_le _ _ Hi).
    rewrite (Z.div_small (val a)) by lia. reflexivity.
Qed.

Lemma top_digit a i : digs a -> val a < Bp (S i) -> nth i a 0 = val a / Bp i.
Proof.
  intros Ha H. rewrite nth_div by exact Ha. rewrite Bp_S in H.
  pose proof (val_bound a Ha). pose proof (Bp_pos i).
  apply Z.mod_small. split; [apply Z.div_pos; lia|apply Z.div_lt_upper_bound; lia].
Qed.

Lemma next_digit a i : digs a -> val a / Bp i = nth i a 0 + B * (val a / Bp (S i)).
Proof.
  intros Ha. rewrite nth_div by exact Ha. pose proof (Bp_pos i). pose proof B_gt.
  rewrite Bp_S, (Z.mul_comm B (Bp i)), <- Z.div_div by lia.
  pose proof (Z.div_mod (val a / Bp i) B ltac:(lia)). lia.
Qed.

(** Only [n] digits of a small enough value are needed. *)
Lemma firstn_small n l : digs l -> (n <= length l)%nat -> val l < Bp n ->
  val (firstn n l) = val l /\ digs (firstn n l) /\ length (firstn n l) = n.
Proof.
  intros Hl Hn Hv. pose proof (val_bound l Hl). rewrite val_firstn, Z.mod_small by (auto; lia).
  repeat split; auto with digits. apply firstn_length_le; lia.
Qed.

(** ** Constant-time selection *)

Lemma dneg_mask cond : cond = 0 \/ cond = 1 -> dneg cond = if cond =? 1 then B - 1 else 0.
Proof. intros [-> | ->]; reflexivity. Qed.

Lemma land_mask x : dig x -> Z.land x (B - 1) = x.
Proof.
  intros H. change (B - 1) with (Z.ones 64). rewrite Z.land_ones by lia.
  rewrite <- B_pow2. apply Z.mod_small. exact H.
Qed.

Lemma lxor_dig x y : dig x -> dig y -> dig (Z.lxor x y).
Proof.
  unfold dig. intros Hx Hy. assert (0 <= Z.lxor x y) by (apply Z.lxor_nonneg; lia).
  split; [assumption|]. rewrite B_pow2 in *.
  destruct (Z.eq_dec (Z.lxor x y) 0) as [->|]; [lia|].
  apply Z.log2_lt_pow2; [lia|].
  eapply Z.le_lt_trans; [apply Z.log2_lxor; lia|].
  apply Z.max_lub_lt; (destruct (Z.eq_dec x 0), (Z.eq_dec y 0); subst; cbn; try lia;
    apply Z.log2_lt_pow2; lia).
Qed.

Lemma cond_select x y cond : dig x -> dig y -> cond = 0 \/ cond = 1 ->
  Z.lxor y (Z.land (Z.lxor x y) (dneg cond)) = if cond =? 1 then x else y.
Proof.
  intros Hx Hy Hc. rewrite dneg_mask by exact Hc. destruct Hc as [-> | ->]; cbn [Z.eqb Pos.eqb].
  - rewrite Z.land_0_r. apply Z.lxor_0_r.
  - rewrite land_mask by (apply lxor_dig; assumption).
    rewrite (Z.lxor_comm x y), <- Z.lxor_assoc, Z.lxor_nilpotent. apply Z.lxor_0_l.
Qed.

Lemma dv_copy_cond_ok c : forall a n cond, digs a -> digs c -> cond = 0 \/ cond = 1 ->
  (n <= length a)%nat -> (n <= length c)%nat ->
  dv_copy_cond c a n cond = Ok (if cond =? 1 then blit c 0 (firstn n a) else c).
Proof.
  induction c as [|y c IH]; intros a n cond Ha Hc Hcond Hna Hnc.
  - destruct n; [|cbn in Hnc; lia]. cbn. destruct (cond =? 1); reflexivity.
  - destruct n as [|n]; [cbn; destruct (cond =? 1); reflexivity|].
    destruct a as [|x a]; [cbn in Hna; lia|]. inv_digs. cbn [length] in *.
    cbn [dv_copy_cond]. rewrite IH by (auto; lia). cbn [bind].
    rewrite cond_select by auto. unfold blit.
    destruct (cond =? 1); cbn [firstn app length skipn Nat.add]; reflexivity.
Qed.

Lemma dv_swap_cond_ok c : forall a n cond, digs a -> digs c -> cond = 0 \/ cond = 1 ->
  (n <= length a)%nat -> (n <= length c)%nat ->
  dv_swap_cond c a n cond =
  Ok (if cond =? 1 then (blit c 0 (firstn n a), blit a 0 (firstn n c)) else (c, a)).
Proof.
  induction c as [|y c IH]; intros a n cond Ha Hc Hcond Hna Hnc.
  - destruct n; [|cbn in Hnc; lia]. cbn. destruct (cond =? 1); reflexivity.
  - destruct n as [|n]; [cbn; destruct (cond =? 1); reflexivity|].
    destruct a as [|x a]; [cbn in Hna; lia|]. inv_digs. cbn [length] in *.
    cbn [dv_swap_cond]. rewrite IH by (auto; lia). unfold blit.
    assert (E : Z.lxor x (Z.land (Z.lxor x y) (dneg cond)) = if cond =? 1 then y else x)
      by (rewrite (Z.lxor_comm x y); apply cond_select; auto).
    rewrite (cond_select x y) by auto.
    destruct (cond =? 1); cbn [bind firstn app length skipn Nat.add];
      rewrite E; cbn [app]; reflexivity.
Qed.

(** ** Constant-time comparison *)

Lemma lor_fold l : forall r,
  fold_left (fun r '(x, y) => Z.lor r (Z.lxor x y)) l r = 0 <-> r = 0 /\ Forall (fun '(x, y) => x = y) l.
Proof.
  induction l as [|[x y] l IH]; intros r; cbn [fold_left].
  - split; [auto|intros [H _]; exact H].
  - rewrite IH, Z.lor_eq_0_iff, Z.lxor_eq_0_iff, Forall_cons_iff. tauto.
Qed.

Lemma dv_cmp_const_ok a b : length a = length b ->
  dv_cmp_const a b = RLC_EQ <-> a = b.
Proof.
  intros HL. unfold dv_cmp_const.
  pose proof (lor_fold (combine a b) 0) as H.
  assert (G : Forall (fun '(x, y) => x = y) (combine a b) <-> a = b).
  { clear H. revert b HL. induction a as [|x a IH]; intros [|y b] HL; try discriminate HL; cbn.
    - split; constructor.
    - rewrite Forall_cons_iff, IH by (cbn in HL; lia). split; [intros [-> ->]; reflexivity|].
      intros E; injection E; auto. }
  destruct (Z.eqb_spec (fold_left (fun r '(x, y) => Z.lor r (Z.lxor x y)) (combine a b) 0) 0); split.
  - intros _. apply G, H. assumption.
  - reflexivity.
  - discriminate.
  - intros E. apply G in E. tauto.
Qed.

(** ** Byte order and characters *)

(** Reversing the byte order twice is the identity on 32-bit words. *)
Lemma util_conv_endian_bits i k : 0 <= k -> 0 <= i < 2 ^ 32 ->
  Z.testbit (util_conv_endian i) k =
  if k <? 32 then Z.testbit i (8 * (3 - k / 8) + k mod 8) else false.
Proof.
  intros Hk Hi. unfold util_conv_endian. rewrite !Z.lor_spec.
  change 255 with (Z.ones 8).
  pose proof (Z.div_mod k 8 ltac:(lia)) as E. pose proof (Z.mod_pos_bound k 8 ltac:(lia)) as Hm.
  assert (Hq : 0 <= k / 8) by (apply Z.div_pos; lia).
  set (q := k / 8) in *. set (m := k mod 8) in *. clearbody q m. subst k.
  assert (F : forall n j, 0 <= n -> 0 <= j -> Z.testbit (Z.land (Z.shiftr i n) (Z.ones 8)) j =
              if j <? 8 then Z.testbit i (j + n) else false).
  { intros n j Hn Hj. rewrite Z.land_spec, Z.testbit_ones_nonneg, Z.shiftr_spec by lia.
    destruct (j <? 8); [apply andb_true_r|apply andb_false_r]. }
  assert (G : forall n s, 0 <= n -> 0 <= s ->
    Z.testbit (Z.shiftl (Z.land (Z.shiftr i n) (Z.ones 8)) s) (8 * q + m) =
    if (s <=? 8 * q + m) && (8 * q + m - s <? 8) then Z.testbit i (8 * q + m - s + n) else false).
  { intros n s Hn Hs. rewrite Z.shiftl_spec by lia. destruct (Z.leb_spec s (8 * q + m)).
    - rewrite F by lia. reflexivity.
    - rewrite Z.testbit_neg_r by lia. reflexivity. }
  pose proof (G 0 24) as G0. rewrite Z.shiftr_0_r in G0. rewrite G0, (G 8 16), (G 16 8), F by lia.
  destruct (Z.ltb_spec (8 * q + m) 32) as [H32|H32].
  - assert (q = 0 \/ q = 1 \/ q = 2 \/ q = 3) as [-> | [-> | [-> | ->]]] by lia;
    repeat match goal with
    | |- context [?x <=? ?y] => destruct (Z.leb_spec x y)
    | |- context [?x <? ?y] => destruct (Z.ltb_spec x y)
    end; cbn [andb]; rewrite ?orb_false_l, ?orb_false_r; try (exfalso; lia); f_equal; lia.
  - repeat match goal with
    | |- context [?x <=? ?y] => destruct (Z.leb_spec x y)
    | |- context [?x <? ?y] => destruct (Z.ltb_spec x y)
    end; cbn [andb orb]; try reflexivity; exfalso; lia.
Qed.

Lemma util_conv_char_inj i j : 0 <= i < 64 -> 0 <= j < 64 ->
  util_conv_char i = util_conv_char j -> i = j.
Proof.
  intros Hi Hj H. unfold util_conv_char in H.
  assert (N : NoDup conv_table) by (vm_compute; repeat constructor; cbn; intuition discriminate).
  rewrite NoDup_nth with (d := 0) in N.
  apply N in H; [lia|change (length conv_table) with 64%nat; lia..].
Qed.

(** ** Masks *)

Lemma RLC_MASK_ones n : 0 <= n < 64 -> RLC_MASK n = Z.ones n.
Proof.
  intros Hn. unfold RLC_MASK. replace (RLC_DIG <=? n) with false
    by (symmetry; apply Z.leb_gt; unfold RLC_DIG; lia).
  change (dneg (Z.b2z false)) with 0. rewrite Z.lor_0_l.
  rewrite (Z.mod_small n) by (unfold RLC_DIG; lia).
  assert (HP : 0 < 2 ^ n < B).
  { split; [apply Z.pow_pos_nonneg; lia|]. apply Z.pow_lt_mono_r; unfold RLC_DIG; lia. }
  unfold dshl, dsub. rewrite Z.shiftl_1_l, !(Z.mod_small (2 ^ n)), Z.mod_small by lia.
  rewrite Z.ones_equiv. lia.
Qed.

Lemma land_MASK x n : 0 <= n < 64 -> Z.land x (RLC_MASK n) = x mod 2 ^ n.
Proof. intros H. rewrite RLC_MASK_ones by exact H. apply Z.land_ones. lia. Qed.
