(* ===== verification/BnLow.v ===== *)
(** * The low-level interface of the multiple precision module

    RELIC's [bn] layer calls routines on digit vectors ([bn_*_low], prototypes
    in include/low/relic_bn_low.h) whose code is chosen when the library is
    built: low/easy (portable C) or low/gmp (GNU MP).  [BnLow] is that
    interface and [BnLowOk] its contract.  The [bn] layer is verified against
    the contract; the two backends discharge it.

    A vector of [size] digits is a list of length [size]; a routine that fills
    [c] and returns a carry is a function to a list and a digit. *)

From Stdlib Require Import ZArith List Lia Bool.
From S2P Require Import Prelude.
Import ListNotations.
Local Open Scope Z_scope.

Class BnLow := {
  low_add1 : list Z -> Z -> list Z * Z;
  low_addn : list Z -> list Z -> list Z * Z;
  low_sub1 : list Z -> Z -> list Z * Z;
  low_subn : list Z -> list Z -> list Z * Z;
  low_lsh1 : list Z -> list Z * Z;
  low_lshb : list Z -> Z -> list Z * Z;
  low_rsh1 : list Z -> list Z * Z;
  low_rshb : list Z -> Z -> list Z * Z;
  low_mula : list Z -> list Z -> Z -> list Z * Z;
  low_mul1 : list Z -> Z -> list Z * Z;
  low_muln : list Z -> list Z -> list Z;
  (** [low_muld a b l h]: the digits [l .. h-1] computed from the columns [l .. h-1] of
      the product, [length b <= length a] *)
  low_muld : list Z -> list Z -> nat -> nat -> list Z;
  low_sqra : list Z -> list Z -> list Z * Z;
  low_sqrn : list Z -> list Z;
  (** [low_divn a b]: quotient ([length a - length b + 1] digits) and remainder *)
  low_divn : list Z -> list Z -> list Z * list Z;
  low_div1 : list Z -> Z -> list Z * Z;
  low_modn : list Z -> list Z -> Z -> list Z
}.

(** Vectors are short enough for a column of products to fit three digits. *)
Definition short (l : list Z) : Prop := Z.of_nat (length l) < 2 ^ 32.

Class BnLowOk (L : BnLow) : Prop := {
  add1_ok : forall a d c cy, digs a -> dig d -> low_add1 a d = (c, cy) ->
    val c + Bp (length a) * cy = val a + d /\ digs c /\ length c = length a /\ dig cy;
  addn_ok : forall a b c cy, digs a -> digs b -> length a = length b ->
    low_addn a b = (c, cy) ->
    val c + Bp (length a) * cy = val a + val b /\ digs c /\ length c = length a /\ 0 <= cy <= 1;
  sub1_ok : forall a d c cy, digs a -> dig d -> low_sub1 a d = (c, cy) ->
    val c = val a - d + Bp (length a) * cy /\ digs c /\ length c = length a /\ dig cy;
  subn_ok : forall a b c cy, digs a -> digs b -> length a = length b ->
    low_subn a b = (c, cy) ->
    val c = val a - val b + Bp (length a) * cy /\ digs c /\ length c = length a /\ 0 <= cy <= 1;
  lsh1_ok : forall a c cy, digs a -> low_lsh1 a = (c, cy) ->
    val c + Bp (length a) * cy = 2 * val a /\ digs c /\ length c = length a /\ 0 <= cy <= 1;
  lshb_ok : forall a n c cy, digs a -> 0 < n < RLC_DIG -> low_lshb a n = (c, cy) ->
    val c + Bp (length a) * cy = val a * 2 ^ n /\ digs c /\ length c = length a /\ 0 <= cy < 2 ^ n;
  rsh1_ok : forall a c cy, digs a -> low_rsh1 a = (c, cy) ->
    2 * val c + cy = val a /\ digs c /\ length c = length a /\ 0 <= cy <= 1;
  rshb_ok : forall a n c cy, digs a -> 0 < n < RLC_DIG -> low_rshb a n = (c, cy) ->
    val c = val a / 2 ^ n /\ digs c /\ length c = length a;
  mula_ok : forall c a d c' cy, digs c -> digs a -> dig d -> length c = length a ->
    low_mula c a d = (c', cy) ->
    val c' + Bp (length a) * cy = val c + val a * d /\ digs c' /\ length c' = length a /\ dig cy;
  mul1_ok : forall a d c cy, digs a -> dig d -> low_mul1 a d = (c, cy) ->
    val c + Bp (length a) * cy = val a * d /\ digs c /\ length c = length a /\ dig cy;
  muln_ok : forall a b, digs a -> digs b -> length a = length b -> short a ->
    val (low_muln a b) = val a * val b /\ digs (low_muln a b) /\
    length (low_muln a b) = (length a + length b)%nat;
  muld_ok : forall a b h, digs a -> digs b -> (1 <= length b <= length a)%nat -> short a ->
    (length a <= h <= length a + length b)%nat ->
    val (low_muld a b 0 h) = (val a * val b) mod Bp h /\ digs (low_muld a b 0 h) /\
    length (low_muld a b 0 h) = h;
  sqra_ok : forall c a c' cy, digs c -> digs a -> (1 <= length a)%nat ->
    length c = S (length a) -> low_sqra c a = (c', cy) ->
    val c' + Bp (length c) * cy = val c + nth 0 a 0 * (2 * val a - nth 0 a 0) /\
    digs c' /\ length c' = length c /\ 0 <= cy <= 2;
  sqrn_ok : forall a, digs a -> short a ->
    val (low_sqrn a) = val a * val a /\ digs (low_sqrn a) /\
    length (low_sqrn a) = (length a + length a)%nat;
  divn_ok : forall a b q r, digs a -> digs b -> (1 <= length b <= length a)%nat ->
    nth (length b - 1) b 0 <> 0 -> val b <= val a -> low_divn a b = (q, r) ->
    val q = val a / val b /\ val r = val a mod val b /\ digs q /\ digs r /\
    length q = (length a - length b + 1)%nat /\ length r = length b;
  div1_ok : forall a d q r, digs a -> 0 < d < B -> low_div1 a d = (q, r) ->
    val q = val a / d /\ r = val a mod d /\ digs q /\ length q = length a;
  modn_ok : forall a m u, digs a -> digs m -> short m -> (1 <= length m)%nat ->
    (length a <= 2 * length m)%nat -> dig u -> (nth 0 m 0 * u) mod B = B - 1 ->
    val a < val m * Bp (length m) ->
    let c := low_modn a m u in
    (val c * Bp (length m)) mod val m = val a mod val m /\
    0 <= val c < 2 * val m /\ digs c /\ length c = length m
}.
