(* ===== verification/BnLowEasy.v ===== *)
(** * The portable backend: low/easy/relic_bn_*_low.c

    Each loop over digit vectors is a recursive function over the digits, least
    significant first unless the C loop runs downwards; carries, borrows and the
    three-digit Comba accumulator are kept at their machine width. *)

From Stdlib Require Import ZArith List Lia Bool.
From S2P Require Import Prelude Dv BnLow.
Import ListNotations.
Local Open Scope Z_scope.

(** ** Addition and subtraction (relic_bn_add_low.c) *)

Fixpoint bn_add1_low (a : list Z) (carry : Z) : list Z * Z :=
  match a with
  | [] => ([], carry)
  | x :: a' =>
      if carry =? 0 then (x :: a', carry)
      else
        let r0 := dadd x carry in
        let '(c, cy) := bn_add1_low a' (Z.b2z (r0 <? carry)) in
        (r0 :: c, cy)
  end.

Fixpoint addn_loop (a b : list Z) (carry : Z) : list Z * Z :=
  match a, b with
  | x :: a', y :: b' =>
      let r0 := dadd x y in
      let c0 := Z.b2z (r0 <? x) in
      let r1 := dadd r0 carry in
      let c1 := Z.b2z (r1 <? r0) in
      let '(c, cy) := addn_loop a' b' (Z.lor c0 c1) in
      (r1 :: c, cy)
  | _, _ => ([], carry)
  end.

Definition bn_addn_low (a b : list Z) : list Z * Z := addn_loop a b 0.

Fixpoint bn_sub1_low (a : list Z) (carry : Z) : list Z * Z :=
  match a with
  | [] => ([], carry)
  | x :: a' =>
      if carry =? 0 then (x :: a', carry)
      else
        let r0 := dsub x carry in
        let '(c, cy) := bn_sub1_low a' (Z.b2z (x <? r0)) in
        (r0 :: c, cy)
  end.

Fixpoint subn_loop (a b : list Z) (carry : Z) : list Z * Z :=
  match a, b with
  | x :: a', y :: b' =>
      let diff := dsub x y in
      let r0 := dsub diff carry in
      let cy' := Z.b2z ((x <? y) || (negb (carry =? 0) && (diff =? 0))) in
      let '(c, cy) := subn_loop a' b' cy' in
      (r0 :: c, cy)
  | _, _ => ([], carry)
  end.

Definition bn_subn_low (a b : list Z) : list Z * Z := subn_loop a b 0.

(** ** Shifts (relic_bn_shift_low.c) *)

Fixpoint lsh1_loop (a : list Z) (carry : Z) : list Z * Z :=
  match a with
  | [] => ([], carry)
  | x :: a' =>
      let r := dshr x (RLC_DIG - 1) in
      let '(c, cy) := lsh1_loop a' r in
      (Z.lor (dshl x 1) carry :: c, cy)
  end.

Definition bn_lsh1_low (a : list Z) : list Z * Z := lsh1_loop a 0.

Fixpoint lshb_loop (bits shift mask : Z) (a : list Z) (carry : Z) : list Z * Z :=
  match a with
  | [] => ([], carry)
  | x :: a' =>
      let r := Z.land (dshr x shift) mask in
      let '(c, cy) := lshb_loop bits shift mask a' r in
      (Z.lor (dshl x bits) carry :: c, cy)
  end.

Definition bn_lshb_low (a : list Z) (bits : Z) : list Z * Z :=
  lshb_loop bits (RLC_DIG - bits) (RLC_MASK bits) a 0.

(** The right shifts run from the most significant digit: the recursion reaches
    the end of the vector first, and hands the carry back down. *)
Fixpoint bn_rsh1_low (a : list Z) : list Z * Z :=
  match a with
  | [] => ([], 0)
  | x :: a' =>
      let '(c, carry) := bn_rsh1_low a' in
      let r := Z.land x 1 in
      (Z.lor (dshr x 1) (dshl carry (RLC_DIG - 1)) :: c, r)
  end.

Fixpoint rshb_loop (bits shift mask : Z) (a : list Z) : list Z * Z :=
  match a with
  | [] => ([], 0)
  | x :: a' =>
      let '(c, carry) := rshb_loop bits shift mask a' in
      let r := Z.land x mask in
      (Z.lor (dshr x bits) (dshl carry shift) :: c, r)
  end.

Definition bn_rshb_low (a : list Z) (bits : Z) : list Z * Z :=
  rshb_loop bits ((RLC_DIG - bits) mod RLC_DIG) (RLC_MASK bits) a.

(** ** Multiplication (relic_bn_mul_low.c) *)

Fixpoint mula_loop (c a : list Z) (digit carry : Z) : list Z * Z :=
  match c, a with
  | y :: c', x :: a' =>
      let '(r1, r0) := RLC_MUL_DIG x digit in
      let _c := dadd r0 carry in
      let carry := dadd r1 (Z.b2z (_c <? carry)) in
      let y' := dadd y _c in
      let carry := dadd carry (Z.b2z (y' <? _c)) in
      let '(cs, cy) := mula_loop c' a' digit carry in
      (y' :: cs, cy)
  | _, _ => ([], carry)
  end.

Definition bn_mula_low (c a : list Z) (digit : Z) : list Z * Z := mula_loop c a digit 0.

Fixpoint mul1_loop (a : list Z) (digit carry : Z) : list Z * Z :=
  match a with
  | x :: a' =>
      let '(r1, r0) := RLC_MUL_DIG x digit in
      let y := dadd r0 carry in
      let carry := dadd r1 (Z.b2z (y <? carry)) in
      let '(cs, cy) := mul1_loop a' digit carry in
      (y :: cs, cy)
  | [] => ([], carry)
  end.

Definition bn_mul1_low (a : list Z) (digit : Z) : list Z * Z := mul1_loop a digit 0.

(** The triple register (r2, r1, r0) of the Comba columns. *)
Definition triple : Type := (Z * Z * Z)%type.

Definition RLC_COMBA_ADD (r : triple) (a : Z) : triple :=
  let '(r2, r1, r0) := r in
  let t := r1 in
  let r0 := dadd r0 a in
  let r1 := dadd r1 (Z.b2z (r0 <? a)) in
  let r2 := dadd r2 (Z.b2z (r1 <? t)) in
  (r2, r1, r0).

Definition RLC_COMBA_STEP_MUL (r : triple) (ab : Z * Z) : triple :=
  let '(_r1, _r0) := RLC_MUL_DIG (fst ab) (snd ab) in
  let '(r2, r1, r0) := RLC_COMBA_ADD r _r0 in
  let r1 := dadd r1 _r1 in
  let r2 := dadd r2 (Z.b2z (r1 <? _r1)) in
  (r2, r1, r0).

Definition RLC_COMBA_STEP_SQR (r : triple) (ab : Z * Z) : triple :=
  let '(_r1, _r0) := RLC_MUL_DIG (fst ab) (snd ab) in
  let _s0 := dadd _r0 _r0 in
  let _s1 := dadd (dadd _r1 _r1) (Z.b2z (_s0 <? _r0)) in
  let '(r2, r1, r0) := RLC_COMBA_ADD r _s0 in
  let r1 := dadd r1 _s1 in
  let r2 := dadd r2 (Z.b2z (r1 <? _s1)) in
  let r2 := dadd r2 (Z.b2z (_s1 <? _r1)) in
  (r2, r1, r0).

(** One output digit per column: accumulate the column, emit [r0], shift the
    register by one digit. *)
Definition shift_triple (r : triple) : triple :=
  let '(r2, r1, r0) := r in (0, r2, r1).

Fixpoint comba_columns {T} (step : triple -> T -> triple) (cols : list (list T))
    (r : triple) : list Z * triple :=
  match cols with
  | [] => ([], r)
  | col :: cols' =>
      let r := fold_left step col r in
      let '(c, r') := comba_columns step cols' (shift_triple r) in
      (snd r :: c, r')
  end.

Definition pairs (a b : list Z) (fa fb : nat -> nat) (n : nat) : list (Z * Z) :=
  map (fun j => (nth (fa j) a 0, nth (fb j) b 0)) (seq 0 n).

Definition bn_muln_low (a b : list Z) : list Z :=
  let size := length a in
  let cols1 := map (fun i => pairs a b (fun j => j) (fun j => i - j)%nat (i + 1))
                 (seq 0 size) in
  let '(c1, r) := comba_columns RLC_COMBA_STEP_MUL cols1 (0, 0, 0) in
  let cols2 := map (fun i => pairs a b (fun j => i + 1 + j)%nat (fun j => size - 1 - j)%nat
                               (size - (i + 1))) (seq 0 size) in
  let '(c2, _) := comba_columns RLC_COMBA_STEP_MUL cols2 r in
  c1 ++ c2.

(** [bn_muld_low] with [l] and [h]: the digits [l .. h-1] it writes, from the
    columns [l .. h-1] only. *)
Definition bn_muld_low (a b : list Z) (l h : nat) : list Z :=
  let sa := length a in
  let sb := length b in
  let cols1 := map (fun i => pairs a b (fun j => j) (fun j => i - j)%nat (i + 1))
                 (seq l (sb - l)) in
  let '(c1, r) := comba_columns RLC_COMBA_STEP_MUL cols1 (0, 0, 0) in
  let cols2 := map (fun i => pairs a b (fun j => i - sb + 1 + j)%nat (fun j => sb - 1 - j)%nat sb)
                 (seq sb (sa - sb)) in
  let '(c2, r) := comba_columns RLC_COMBA_STEP_MUL cols2 r in
  let cols3 := map (fun i => pairs a b (fun j => i - sb + 1 + j)%nat (fun j => sb - 1 - j)%nat
                               (sa - (i - sb + 1)))
                 (seq sa (h - sa)) in
  let '(c3, _) := comba_columns RLC_COMBA_STEP_MUL cols3 r in
  c1 ++ c2 ++ c3.

(** ** Squaring (relic_bn_sqr_low.c) *)

(** The double-precision variant: [dbl_t] is 128 bits wide. *)
Fixpoint sqra_loop (a0 : Z) (c a : list Z) (c0 c1 : Z) : list Z * Z :=
  match a, c with
  | x :: a', y :: c' =>
      let r := (a0 * x) mod (B * B) in
      let r0 := (r + r) mod (B * B) in
      let r1 := (r0 + y + c0) mod (B * B) in
      let c0' := (Z.shiftr r1 RLC_DIG + c1) mod B in
      let c1' := Z.b2z ((r0 <? r) || (r1 <? r0) || (c0' <? c1)) in
      let '(cs, cy) := sqra_loop a0 c' a' c0' c1' in
      (r1 mod B :: cs, cy)
  | [], y :: c' =>
      let y' := dadd y c0 in
      (y' :: c', dadd c1 (Z.b2z (y' <? c0)))
  | _, [] => ([], c1)
  end.

Definition bn_sqra_low (c a : list Z) : list Z * Z :=
  match a, c with
  | a0 :: a', y :: c' =>
      let r := (y + a0 * a0) mod (B * B) in
      let '(cs, cy) := sqra_loop a0 c' a' (Z.shiftr r RLC_DIG mod B) 0 in
      (r mod B :: cs, cy)
  | _, _ => (c, 0)
  end.

(** A column of [bn_sqrn_low]: the doubled products, then the square in the
    middle of the column when there is one. *)
Inductive sqr_term := Twice (ab : Z * Z) | Once (ab : Z * Z).

Definition sqr_step (r : triple) (t : sqr_term) : triple :=
  match t with
  | Twice ab => RLC_COMBA_STEP_SQR r ab
  | Once ab => RLC_COMBA_STEP_MUL r ab
  end.

Definition sqr_column (a : list Z) (fa fb : nat -> nat) (n : nat) (mid : bool) : list sqr_term :=
  map Twice (pairs a a fa fb n) ++
  (if mid then [Once (nth (fa n) a 0, nth (fa n) a 0)] else []).

Definition bn_sqrn_low (a : list Z) : list Z :=
  let size := length a in
  let cols1 := map (fun i => sqr_column a (fun j => j) (fun j => i - j)%nat
                               ((i + 1) / 2) (Nat.even i)) (seq 0 size) in
  let '(c1, r) := comba_columns sqr_step cols1 (0, 0, 0) in
  let cols2 := map (fun i => sqr_column a (fun j => i + 1 + j)%nat (fun j => size - 1 - j)%nat
                               ((size - 1 - i) / 2) (Nat.even (size - i))) (seq 0 size) in
  let '(c2, _) := comba_columns sqr_step cols2 r in
  c1 ++ c2.

(** ** Montgomery reduction (relic_bn_mod_low.c) *)

(** First loop: column [i] determines the quotient digit [c[i]]. *)
Fixpoint modn_low_loop (n i : nat) (a m : list Z) (u : Z) (c : list Z) (r : triple)
    : list Z * triple :=
  match n with
  | O => (c, r)
  | S n' =>
      let r := fold_left RLC_COMBA_STEP_MUL
                 (pairs c m (fun j => j) (fun j => i - j)%nat i) r in
      let r := if (i <? length a)%nat then RLC_COMBA_ADD r (nth i a 0) else r in
      let q := dmul (snd r) u in
      let r := RLC_COMBA_STEP_MUL r (q, nth 0 m 0) in
      modn_low_loop n' (S i) a m u (c ++ [q]) (shift_triple r)
  end.

(** Second loop: columns [sm .. 2*sm-2] produce the result; digit [i - sm] of [c]
    is overwritten when it is no longer needed. *)
Fixpoint modn_high_loop (n i : nat) (a m : list Z) (c : list Z) (r : triple)
    : list Z * triple :=
  match n with
  | O => (c, r)
  | S n' =>
      let sm := length m in
      let r := fold_left RLC_COMBA_STEP_MUL
                 (pairs c m (fun j => i - sm + 1 + j)%nat (fun j => sm - 1 - j)%nat
                    (sm - (i - sm + 1))) r in
      let r := if (i <? length a)%nat then RLC_COMBA_ADD r (nth i a 0) else r in
      modn_high_loop n' (S i) a m (upd c (i - sm) (snd r)) (shift_triple r)
  end.

Definition bn_modn_low (a m : list Z) (u : Z) : list Z :=
  let sm := length m in
  let '(c, r) := modn_low_loop sm 0 a m u [] (0, 0, 0) in
  let '(c, r) := modn_high_loop (sm - 1) sm a m c r in
  let r := if (2 * sm - 1 <? length a)%nat then RLC_COMBA_ADD r (nth (2 * sm - 1) a 0) else r in
  let c := upd c (sm - 1) (snd r) in
  if snd (fst r) =? 0 then c else fst (bn_subn_low c m).

(** ** Division (relic_bn_div_low.c) *)

(** while (dv_cmp(a, b, sa) != RLC_LT) { c[n - t]++; a -= b; } *)
Fixpoint divn_top (fuel : nat) (a b : list Z) (q : Z) : list Z * Z :=
  match fuel with
  | O => (a, q)
  | S fuel' =>
      if cmp_eqb (dv_cmp a b) RLC_LT then (a, q)
      else divn_top fuel' (fst (bn_subn_low a b)) b (dadd q 1)
  end.

(** do { q--; ... } while (dv_cmp(t1, t2, 3) == RLC_GT) *)
Fixpoint divn_estimate (fuel : nat) (b1 b0 : Z) (t2 : list Z) (q : Z) : Z :=
  match fuel with
  | O => q
  | S fuel' =>
      let q := dsub q 1 in
      let '(t1, carry) := bn_mul1_low [b0; b1] q in
      if cmp_eqb (dv_cmp (t1 ++ [carry]) t2) RLC_GT
      then divn_estimate fuel' b1 b0 t2 q
      else q
  end.

(** One quotient digit: the new dividend and the digit [c[i - t - 1]]. *)
Definition divn_digit (i t : nat) (a b : list Z) : list Z * Z :=
  let sa := length a in
  let sb := length b in
  let k := (i - t - 1)%nat in
  let ai := nth i a 0 in
  let bt := nth t b 0 in
  let q := if ai =? bt then RLC_MASK RLC_DIG else fst (RLC_DIV_DIG ai (nth (i - 1) a 0) bt) in
  let q := dadd q 1 in
  let b0 := if (t =? 0)%nat then 0 else nth (t - 1) b 0 in
  let a2 := if (i <? 2)%nat then 0 else nth (i - 2) a 0 in
  let q := divn_estimate 6 bt b0 [a2; nth (i - 1) a 0; ai] q in
  let '(d, carry) := bn_mul1_low b q in
  let d := if carry =? 0 then d else d ++ [carry] in
  let sd := length d in
  let '(s, carry) := bn_subn_low (firstn sd (skipn k a)) d in
  let a := blit a k s in
  let sd := (sd + k)%nat in
  let '(a, carry) :=
    if (0 <? sa - sd)%nat
    then let '(s, carry) := bn_sub1_low (skipn sd a) carry in (blit a sd s, carry)
    else (a, carry) in
  if carry =? 0 then (a, q)
  else
    let sd := (sb + k)%nat in
    let '(s, carry) := bn_addn_low (firstn sb (skipn k a)) b in
    let a := blit a k s in
    let '(s, _) := bn_add1_low (skipn sd a) carry in
    (blit a sd s, dsub q 1).

(** for (i = n; i >= t + 1; i--), [cnt = i - t] digits still to find. *)
Fixpoint divn_loop (cnt t : nat) (a b : list Z) : list Z * list Z :=
  match cnt with
  | O => (a, [])
  | S cnt' =>
      let '(a, q) := divn_digit (t + cnt) t a b in
      let '(a, qs) := divn_loop cnt' t a b in
      (a, qs ++ [q])
  end.

(** The divisor is shifted until its leading digit has 63 bits, which may add a
    digit to it; quotient digits not reached by the loops are those [bn_zero] left
    in the buffer, and the caller keeps [sa - sb + 1] and [sb] digits. *)
Definition bn_divn_low (a b : list Z) : list Z * list Z :=
  let sa := length a in
  let sb := length b in
  let norm := util_bits_dig (nth (sb - 1) b 0) mod RLC_DIG in
  let '(a, b, norm) :=
    if norm <? RLC_DIG - 1 then
      let norm := RLC_DIG - 1 - norm in
      let '(a, carry) := bn_lshb_low a norm in
      let a := if carry =? 0 then a else a ++ [carry] in
      let '(b, carry) := bn_lshb_low b norm in
      let b := if carry =? 0 then b else b ++ [carry] in
      (a, b, norm)
    else (a, b, 0) in
  let n := (length a - 1)%nat in
  let t := (length b - 1)%nat in
  let '(a, top) := divn_top 5 a (repeat 0 (n - t) ++ b) 0 in
  let '(a, qs) := divn_loop (n - t) t a b in
  (firstn (sa - sb + 1) (qs ++ [top; 0]),
   firstn sb (fst (bn_rshb_low (firstn (length b) a) norm))).

Fixpoint bn_div1_low (a : list Z) (b : Z) : list Z * Z :=
  match a with
  | [] => ([], 0)
  | x :: a' =>
      let '(c, w) := bn_div1_low a' b in
      let '(q, r) := RLC_DIV_DIG w x b in
      (q :: c, r)
  end.
