(* ===== verification/BnLowEasyProofs.v ===== *)
(** * The portable backend meets the low-level contract

    Correctness of every routine of [BnLowEasy] and the instance of [BnLowOk]. *)

From Stdlib Require Import ZArith List Lia Bool.
From S2P Require Import Prelude Dv BnLow BnLowEasy.
Import ListNotations.
Local Open Scope Z_scope.

(** Take apart the [let '(c, cy) := f x in _] of a loop body and its equation. *)
Ltac split_pair H c cy E :=
  match type of H with
  | context [let '(_, _) := ?e in _] => destruct e as [c cy] eqn:E
  end; apply pair_equal_spec in H as [<- <-].

(** The end of the vector. *)
Ltac base_case H :=
  apply pair_equal_spec in H as [<- <-]; cbn [val length]; rewrite ?Bp_0;
  repeat split; auto with digits; unfold dig in *; try lia.

(** One more digit: the equation [E] of the rest, scaled by the radix. *)
Ltac step_case E :=
  apply (f_equal (Z.mul B)) in E; cbn [val length]; rewrite ?Bp_S;
  repeat split; repeat match goal with v := _ |- _ => subst v end;
  auto with digits; unfold dig in *; lia.

(** ** Addition and subtraction *)

Lemma bn_add1_low_ok a : forall d c cy, digs a -> dig d -> bn_add1_low a d = (c, cy) ->
  val c + Bp (length a) * cy = val a + d /\ digs c /\ length c = length a /\ dig cy.
Proof.
  induction a as [|x a IH]; intros d c cy Ha Hd H; cbn [bn_add1_low] in H.
  - base_case H.
  - inv_digs. destruct (Z.eqb_spec d 0) as [->|Hn].
    + base_case H.
    + split_pair H c' cy' E. apply IH in E as (E & Hc & HL & Hcy); auto with digits.
      pose proof (dadd_carry x d ltac:(auto) ltac:(auto)).
      step_case E.
Qed.

Lemma addn_loop_ok a : forall b d c cy, digs a -> digs b -> length a = length b ->
  0 <= d <= 1 -> addn_loop a b d = (c, cy) ->
  val c + Bp (length a) * cy = val a + val b + d /\ digs c /\ length c = length a /\ 0 <= cy <= 1.
Proof.
  induction a as [|x a IH]; intros [|y b] d c cy Ha Hb HL Hd H; try discriminate HL.
  - base_case H.
  - inv_digs. cbn [addn_loop] in H. split_pair H c' cy' E.
    assert (Hdd : dig d) by (unfold dig; pose proof B_gt; lia).
    pose proof (dadd_carry_l x y ltac:(auto) ltac:(auto)) as E1.
    pose proof (dadd_carry_l (dadd x y) d ltac:(auto with digits) Hdd) as E2.
    assert (Hor : Z.lor (Z.b2z (dadd x y <? x)) (Z.b2z (dadd (dadd x y) d <? dadd x y)) =
                  Z.b2z (dadd x y <? x) + Z.b2z (dadd (dadd x y) d <? dadd x y)).
    { unfold dig in *. pose proof (dadd_dig (dadd x y) d) as D2. unfold dig in D2.
      destruct (dadd x y <? x), (dadd (dadd x y) d <? dadd x y); cbn in *; try reflexivity; lia. }
    rewrite Hor in E. apply IH in E as (E & Hc & HL' & Hcy); auto.
    + step_case E.
    + destruct (dadd x y <? x), (dadd (dadd x y) d <? dadd x y); cbn in *; lia.
Qed.

Lemma bn_sub1_low_ok a : forall d c cy, digs a -> dig d -> bn_sub1_low a d = (c, cy) ->
  val c = val a - d + Bp (length a) * cy /\ digs c /\ length c = length a /\ dig cy.
Proof.
  induction a as [|x a IH]; intros d c cy Ha Hd H; cbn [bn_sub1_low] in H.
  - base_case H.
  - inv_digs. destruct (Z.eqb_spec d 0) as [->|Hn].
    + base_case H.
    + split_pair H c' cy' E. apply IH in E as (E & Hc & HL & Hcy); auto with digits.
      pose proof (dsub_borrow x d ltac:(auto) ltac:(auto)).
      step_case E.
Qed.

Lemma subn_loop_ok a : forall b d c cy, digs a -> digs b -> length a = length b ->
  0 <= d <= 1 -> subn_loop a b d = (c, cy) ->
  val c = val a - val b - d + Bp (length a) * cy /\ digs c /\ length c = length a /\ 0 <= cy <= 1.
Proof.
  induction a as [|x a IH]; intros [|y b] d c cy Ha Hb HL Hd H; try discriminate HL.
  - base_case H.
  - inv_digs. cbn [subn_loop] in H. split_pair H c' cy' E.
    assert (Hdd : dig d) by (unfold dig; pose proof B_gt; lia).
    pose proof (dsub_eq x y ltac:(auto) ltac:(auto)) as E1.
    pose proof (dsub_eq (dsub x y) d ltac:(auto with digits) Hdd) as E2.
    assert (E3 : Z.b2z ((x <? y) || negb (d =? 0) && (dsub x y =? 0)) =
                 Z.b2z (x <? y) + Z.b2z (dsub x y <? d)).
    { pose proof (dsub_dig x y) as D1. unfold dig in *.
      destruct (Z.eqb_spec d 0), (Z.eqb_spec (dsub x y) 0), (Z.ltb_spec x y),
        (Z.ltb_spec (dsub x y) d); cbn in *; lia. }
    rewrite E3 in E. apply IH in E as (E & Hc & HL' & Hcy); auto.
    + step_case E.
    + pose proof (dsub_dig x y) as D1. unfold dig in *.
      destruct (Z.ltb_spec x y), (Z.ltb_spec (dsub x y) d); cbn in *; lia.
Qed.

(** ** Shifts *)

Lemma shiftr_dig x n : dig x -> 0 <= n <= 64 -> 0 <= Z.shiftr x n < 2 ^ (64 - n).
Proof.
  intros Hx Hn. rewrite Z.shiftr_div_pow2 by lia. unfold dig in Hx.
  split; [apply Z.div_pos; lia|].
  apply Z.div_lt_upper_bound; [lia|]. rewrite <- B_div by lia. lia.
Qed.

(** A digit shifted left, with the bits that came out below it. *)
Lemma dshl_lor x n cy : dig x -> 0 <= n <= 64 -> 0 <= cy < 2 ^ n ->
  Z.lor (dshl x n) cy + B * Z.shiftr x (64 - n) = x * 2 ^ n + cy /\ dig (Z.lor (dshl x n) cy).
Proof.
  intros Hx Hn Hcy. unfold dshl. rewrite (Z.shiftl_mul_pow2 x) by lia.
  set (P := 2 ^ n) in *. set (Q := 2 ^ (64 - n)).
  assert (HB : B = P * Q) by (apply B_div; lia).
  assert (HP : 0 < P) by (apply Z.pow_pos_nonneg; lia).
  assert (HQ : 0 < Q) by (apply Z.pow_pos_nonneg; lia).
  assert (Hm : (x * P) mod B = Z.shiftl (x mod Q) n).
  { rewrite Z.shiftl_mul_pow2 by lia. fold P. rewrite HB, (Z.mul_comm P Q).
    apply Z.mul_mod_distr_r; lia. }
  rewrite Hm, lor_shiftl_add by (fold P; lia). fold P.
  rewrite Z.shiftr_div_pow2 by lia. fold Q.
  pose proof (Z.div_mod x Q ltac:(lia)). pose proof (Z.mod_pos_bound x Q HQ).
  unfold dig. rewrite HB. split; nia.
Qed.

(** A digit shifted right, with the carry of the digit above it. *)
Lemma dshr_lor x n cy : dig x -> 0 <= n < 64 -> 0 <= cy < 2 ^ n ->
  Z.lor (dshr x n) (dshl cy (64 - n)) * 2 ^ n + x mod 2 ^ n = x + B * cy /\
  dig (Z.lor (dshr x n) (dshl cy (64 - n))).
Proof.
  intros Hx Hn Hcy. unfold dshl, dshr. rewrite Z.lor_comm.
  pose proof (shiftr_dig x n Hx ltac:(lia)) as Hs.
  set (P := 2 ^ n) in *. set (Q := 2 ^ (64 - n)) in *.
  assert (HB : B = P * Q) by (apply B_div; lia).
  assert (HP : 0 < P) by (apply Z.pow_pos_nonneg; lia).
  assert (HQ : 0 < Q) by (apply Z.pow_pos_nonneg; lia).
  rewrite (Z.mod_small (Z.shiftl cy (64 - n))).
  2: { rewrite Z.shiftl_mul_pow2 by lia. fold Q. rewrite HB. nia. }
  rewrite lor_shiftl_add by (fold Q; lia). fold Q.
  rewrite Z.shiftr_div_pow2 in * by lia. fold P in Hs |- *.
  pose proof (Z.div_mod x P ltac:(lia)).
  unfold dig. rewrite HB. split; nia.
Qed.

Lemma lsh_loop_ok n a : forall shift mask d c cy, 0 < n < 64 ->
  shift = 64 - n -> (forall x, dig x -> Z.land (dshr x shift) mask = Z.shiftr x (64 - n)) ->
  digs a -> 0 <= d < 2 ^ n -> lshb_loop n shift mask a d = (c, cy) ->
  val c + Bp (length a) * cy = val a * 2 ^ n + d /\ digs c /\ length c = length a /\ 0 <= cy < 2 ^ n.
Proof.
  induction a as [|x a IH]; intros shift mask d c cy Hn Hs Hm Ha Hd H; cbn [lshb_loop] in H.
  - base_case H.
  - inv_digs. split_pair H c' cy' E. rewrite Hm in E by auto.
    pose proof (shiftr_dig x (64 - n) ltac:(auto) ltac:(lia)) as Hr.
    replace (64 - (64 - n)) with n in Hr by lia.
    apply IH in E as (E & Hc & HL & Hcy); auto.
    destruct (dshl_lor x n d ltac:(auto) ltac:(lia) Hd) as [E1 D1].
    step_case E.
Qed.

Lemma bn_lshb_low_ok a n c cy : digs a -> 0 < n < RLC_DIG -> bn_lshb_low a n = (c, cy) ->
  val c + Bp (length a) * cy = val a * 2 ^ n /\ digs c /\ length c = length a /\ 0 <= cy < 2 ^ n.
Proof.
  unfold bn_lshb_low, RLC_DIG. intros Ha Hn H.
  assert (Hm : forall x, dig x -> Z.land (dshr x (64 - n)) (RLC_MASK n) = Z.shiftr x (64 - n)).
  { intros x Hx. rewrite land_MASK by lia. unfold dshr.
    apply Z.mod_small. pose proof (shiftr_dig x (64 - n) Hx ltac:(lia)) as Hr.
    replace (64 - (64 - n)) with n in Hr by lia. exact Hr. }
  assert (0 < 2 ^ n) by (apply Z.pow_pos_nonneg; lia).
  apply (lsh_loop_ok n) in H as (E & ? & ? & ?); auto; try lia.
  repeat split; auto; lia.
Qed.

Lemma bn_lsh1_low_ok a c cy : digs a -> bn_lsh1_low a = (c, cy) ->
  val c + Bp (length a) * cy = 2 * val a /\ digs c /\ length c = length a /\ 0 <= cy <= 1.
Proof.
  unfold bn_lsh1_low. intros Ha H.
  assert (G : forall a d c cy, digs a -> 0 <= d < 2 ^ 1 -> lsh1_loop a d = (c, cy) ->
    val c + Bp (length a) * cy = val a * 2 ^ 1 + d /\ digs c /\ length c = length a /\ 0 <= cy < 2 ^ 1).
  { clear. induction a as [|x a IH]; intros d c cy Ha Hd H; cbn [lsh1_loop] in H.
    - base_case H.
    - inv_digs. split_pair H c' cy' E.
      pose proof (shiftr_dig x 63 ltac:(auto) ltac:(lia)) as Hr.
      apply IH in E as (E & Hc & HL & Hcy); auto.
      destruct (dshl_lor x 1 d ltac:(auto) ltac:(lia) Hd) as [E1 D1].
      unfold dshr, RLC_DIG in E. change (64 - 1) with 63 in *.
      step_case E. }
  apply G in H as (E & Hc & HL & Hcy); auto; try lia. change (2 ^ 1) with 2 in *.
  repeat split; auto; lia.
Qed.

Lemma bn_rsh1_low_ok a : forall c cy, digs a -> bn_rsh1_low a = (c, cy) ->
  2 * val c + cy = val a /\ digs c /\ length c = length a /\ 0 <= cy <= 1.
Proof.
  induction a as [|x a IH]; intros c cy Ha H; cbn [bn_rsh1_low] in H.
  - base_case H.
  - inv_digs. split_pair H c' cy' E. destruct (IH _ _ ltac:(auto) eq_refl) as (E' & Hc & HL & Hcy).
    change (RLC_DIG - 1) with (64 - 1).
    assert (Z.land x 1 = x mod 2) as -> by (apply (Z.land_ones x 1); lia).
    destruct (dshr_lor x 1 cy' ltac:(auto) ltac:(lia) ltac:(lia)) as [E1 D1].
    change (2 ^ 1) with 2 in *. pose proof (Z.mod_pos_bound x 2 ltac:(lia)).
    step_case E'.
Qed.

Lemma rshb_loop_ok n a : forall c cy, digs a -> 0 <= n < 64 ->
  rshb_loop n (64 - n) (RLC_MASK n) a = (c, cy) ->
  2 ^ n * val c + cy = val a /\ digs c /\ length c = length a /\ 0 <= cy < 2 ^ n.
Proof.
  induction a as [|x a IH]; intros c cy Ha Hn H; cbn [rshb_loop] in H.
  - base_case H.
  - inv_digs. split_pair H c' cy' E.
    destruct (IH _ _ ltac:(auto) Hn eq_refl) as (E' & Hc & HL & Hcy).
    rewrite land_MASK by lia.
    destruct (dshr_lor x n cy' ltac:(auto) ltac:(lia) ltac:(lia)) as [E1 D1].
    assert (0 < 2 ^ n) by (apply Z.pow_pos_nonneg; lia).
    pose proof (Z.mod_pos_bound x (2 ^ n) ltac:(lia)).
    step_case E'.
Qed.

Lemma bn_rshb_low_ok a n c cy : digs a -> 0 < n < RLC_DIG -> bn_rshb_low a n = (c, cy) ->
  val c = val a / 2 ^ n /\ digs c /\ length c = length a.
Proof.
  unfold bn_rshb_low. intros Ha Hn H. unfold RLC_DIG in *.
  rewrite (Z.mod_small (64 - n)) in H by lia.
  apply rshb_loop_ok in H as (E & Hc & HL & Hcy); auto; try lia.
  repeat split; auto. apply Z.div_unique with cy; lia.
Qed.

(** A shift by no bits copies the vector. *)
Lemma bn_rshb_low_0 a : digs a -> fst (bn_rshb_low a 0) = a.
Proof.
  unfold bn_rshb_low. change ((RLC_DIG - 0) mod RLC_DIG) with 0.
  induction a as [|x a IH]; intros Ha; [reflexivity|]. inv_digs.
  cbn [rshb_loop]. specialize (IH ltac:(auto)).
  destruct (rshb_loop 0 0 (RLC_MASK 0) a) as [c cy] eqn:E. cbn [fst] in *.
  assert (cy = 0) as ->.
  { destruct a; cbn [rshb_loop] in E; [congruence|].
    destruct (rshb_loop 0 0 (RLC_MASK 0) a) as [c' cy']. apply pair_equal_spec in E as [_ <-].
    change (RLC_MASK 0) with 0. apply Z.land_0_r. }
  rewrite IH. change (dshl 0 0) with 0. rewrite Z.lor_0_r. unfold dshr. rewrite Z.shiftr_0_r.
  reflexivity.
Qed.

(** ** Multiplication by a digit *)

Lemma mula_loop_ok c : forall a d cy0 c' cy, digs c -> digs a -> dig d -> dig cy0 ->
  length c = length a -> mula_loop c a d cy0 = (c', cy) ->
  val c' + Bp (length a) * cy = val c + val a * d + cy0 /\ digs c' /\ length c' = length a /\ dig cy.
Proof.
  induction c as [|y c IH]; intros [|x a] d cy0 c' cy Hc Ha Hd Hcy HL H; try discriminate HL.
  - base_case H.
  - inv_digs. cbn [mula_loop] in H. destruct (RLC_MUL_DIG x d) as [r1 r0] eqn:Em.
    apply RLC_MUL_DIG_spec in Em as (Em & Hr0 & Hr1); auto.
    split_pair H cs cy' E.
    pose proof (dadd_carry r0 cy0 Hr0 Hcy) as E1.
    pose proof (dadd_carry y (dadd r0 cy0) ltac:(auto) ltac:(auto with digits)) as E2.
    set (v := dadd r0 cy0) in *. set (y' := dadd y v) in *.
    assert (Ec : dadd (dadd r1 (Z.b2z (v <? cy0))) (Z.b2z (y' <? v)) =
                 r1 + Z.b2z (v <? cy0) + Z.b2z (y' <? v)).
    { pose proof (dadd_dig r0 cy0) as D1. pose proof (dadd_dig y v) as D2. fold v in D1. fold y' in D2.
      unfold dig in *.
      assert (x * d <= (B - 1) * (B - 1)) by nia.
      assert (r1 + Z.b2z (v <? cy0) + Z.b2z (y' <? v) < B) by nia.
      assert (0 <= Z.b2z (v <? cy0) /\ 0 <= Z.b2z (y' <? v))
        by (destruct (v <? cy0), (y' <? v); cbn; lia).
      clearbody v y'. unfold dadd.
      rewrite (Z.mod_small (r1 + _)), Z.mod_small by lia. reflexivity. }
    rewrite Ec in E.
    assert (Hcy' : dig (r1 + Z.b2z (v <? cy0) + Z.b2z (y' <? v))) by (rewrite <- Ec; auto with digits).
    apply IH in E as (E & Hcs & HL' & Hcy2); auto. step_case E.
Qed.

Lemma mul1_loop_ok a : forall d cy0 c cy, digs a -> dig d -> dig cy0 ->
  mul1_loop a d cy0 = (c, cy) ->
  val c + Bp (length a) * cy = val a * d + cy0 /\ digs c /\ length c = length a /\ dig cy.
Proof.
  induction a as [|x a IH]; intros d cy0 c cy Ha Hd Hcy H.
  - base_case H.
  - inv_digs. cbn [mul1_loop] in H. destruct (RLC_MUL_DIG x d) as [r1 r0] eqn:Em.
    apply RLC_MUL_DIG_spec in Em as (Em & Hr0 & Hr1); auto.
    split_pair H cs cy' E.
    pose proof (dadd_carry r0 cy0 Hr0 Hcy) as E1.
    set (v := dadd r0 cy0) in *.
    assert (Ec : dadd r1 (Z.b2z (v <? cy0)) = r1 + Z.b2z (v <? cy0)).
    { unfold dadd. apply Z.mod_small. destruct (v <? cy0); cbn; lia. }
    rewrite Ec in E.
    assert (Hcy' : dig (r1 + Z.b2z (v <? cy0))) by (rewrite <- Ec; auto with digits).
    apply IH in E as (E & Hcs & HL' & Hcy2); auto. step_case E.
Qed.

(** ** The Comba accumulator *)

Definition tri (r : triple) : Prop :=
  let '(r2, r1, r0) := r in dig r2 /\ dig r1 /\ dig r0.
Definition acc (r : triple) : Z :=
  let '(r2, r1, r0) := r in r0 + B * r1 + B * B * r2.

Lemma acc_nonneg r : tri r -> 0 <= acc r.
Proof. destruct r as [[r2 r1] r0]. unfold tri, acc, dig. pose proof B_gt. nia. Qed.

(** The top digit of an accumulator below [B^3] does not overflow. *)
Lemma tri_top x y k : 0 <= x -> 0 <= y -> x + B * y + B * B * k < B * B * B -> k < B.
Proof. pose proof B_gt. nia. Qed.

Lemma COMBA_ADD_ok r a : tri r -> dig a -> acc r + a < B * B * B ->
  tri (RLC_COMBA_ADD r a) /\ acc (RLC_COMBA_ADD r a) = acc r + a.
Proof.
  destruct r as [[r2 r1] r0]. unfold tri, acc, RLC_COMBA_ADD. intros (H2 & H1 & H0) Ha Hs.
  pose proof (dadd_carry r0 a H0 Ha) as E0.
  set (s0 := dadd r0 a) in *. set (k0 := Z.b2z (s0 <? a)) in *.
  pose proof (dadd_carry_l r1 k0 H1 ltac:(apply dig_b2z)) as E1.
  set (s1 := dadd r1 k0) in *. set (k1 := Z.b2z (s1 <? r1)) in *.
  assert (D0 : dig s0) by apply dadd_dig. assert (D1 : dig s1) by apply dadd_dig.
  assert (Dk : 0 <= k1 <= 1) by (subst k1; destruct (s1 <? r1); cbn; lia).
  unfold dig in *. pose proof B_gt.
  assert (X : s0 + B * s1 + B * B * (r2 + k1) = r0 + B * r1 + B * B * r2 + a).
  { apply (f_equal (Z.mul B)) in E1. lia. }
  assert (r2 + k1 < B) by (apply (tri_top s0 s1); lia).
  unfold dadd. rewrite (Z.mod_small (r2 + k1)) by lia. repeat split; lia.
Qed.

Lemma COMBA_STEP_MUL_ok r ab : tri r -> dig (fst ab) -> dig (snd ab) ->
  acc r + fst ab * snd ab < B * B * B ->
  tri (RLC_COMBA_STEP_MUL r ab) /\ acc (RLC_COMBA_STEP_MUL r ab) = acc r + fst ab * snd ab.
Proof.
  intros Hr Ha Hb Hs. unfold RLC_COMBA_STEP_MUL.
  destruct (RLC_MUL_DIG (fst ab) (snd ab)) as [p1 p0] eqn:E.
  apply RLC_MUL_DIG_spec in E as (E & H0 & H1); auto.
  destruct (COMBA_ADD_ok r p0) as [T A]; auto; [unfold dig in *; nia|].
  destruct (RLC_COMBA_ADD r p0) as [[r2 r1] r0]. cbn [tri acc] in *.
  destruct T as (T2 & T1 & T0).
  assert (Hp1 : dig p1) by (unfold dig; lia).
  pose proof (dadd_carry r1 p1 T1 Hp1) as E1.
  set (s1 := dadd r1 p1) in *. set (k1 := Z.b2z (s1 <? p1)) in *.
  assert (D1 : dig s1) by apply dadd_dig.
  assert (Dk : 0 <= k1 <= 1) by (subst k1; destruct (s1 <? p1); cbn; lia).
  unfold dig in *. pose proof B_gt.
  assert (X : r0 + B * s1 + B * B * (r2 + k1) = acc r + fst ab * snd ab).
  { apply (f_equal (Z.mul B)) in E1. lia. }
  assert (r2 + k1 < B) by (apply (tri_top r0 s1); lia).
  unfold dadd. rewrite (Z.mod_small (r2 + k1)) by lia. repeat split; lia.
Qed.

Lemma COMBA_STEP_SQR_ok r ab : tri r -> dig (fst ab) -> dig (snd ab) ->
  acc r + 2 * (fst ab * snd ab) < B * B * B ->
  tri (RLC_COMBA_STEP_SQR r ab) /\ acc (RLC_COMBA_STEP_SQR r ab) = acc r + 2 * (fst ab * snd ab).
Proof.
  intros Hr Ha Hb Hs. unfold RLC_COMBA_STEP_SQR.
  destruct (RLC_MUL_DIG (fst ab) (snd ab)) as [p1 p0] eqn:E.
  apply RLC_MUL_DIG_spec in E as (E & H0 & H1); auto.
  pose proof (dadd_carry p0 p0 H0 H0) as E0.
  set (s0 := dadd p0 p0) in *. set (k0 := Z.b2z (s0 <? p0)) in *.
  assert (D0 : dig s0) by apply dadd_dig.
  assert (Dk0 : 0 <= k0 <= 1) by (subst k0; destruct (s0 <? p0); cbn; lia).
  assert (Es1 : exists k, 0 <= k <= 1 /\
    dadd (dadd p1 p1) k0 + B * k = 2 * p1 + k0 /\ Z.b2z (dadd (dadd p1 p1) k0 <? p1) = k).
  { unfold dadd. rewrite Zplus_mod_idemp_l.
    destruct (Z.lt_ge_cases (p1 + p1 + k0) B).
    - exists 0. rewrite Z.mod_small by lia. repeat split; try lia.
      replace (p1 + p1 + k0 <? p1) with false by (symmetry; apply Z.ltb_ge; lia). reflexivity.
    - exists 1. assert (Em : (p1 + p1 + k0) mod B = p1 + p1 + k0 - B).
      { symmetry; apply (Z.mod_unique _ _ 1); lia. }
      rewrite Em. repeat split; try lia.
      replace (p1 + p1 + k0 - B <? p1) with true by (symmetry; apply Z.ltb_lt; lia). reflexivity. }
  destruct Es1 as (k2 & Dk2 & Es1 & Ek2). rewrite Ek2.
  set (s1 := dadd (dadd p1 p1) k0) in *. assert (D1 : dig s1) by apply dadd_dig.
  unfold dig in *. pose proof B_gt as HB.
  destruct (COMBA_ADD_ok r s0) as [T A]; auto; [unfold dig in *; nia|].
  destruct (RLC_COMBA_ADD r s0) as [[r2 r1] r0]. cbn [tri acc] in *.
  destruct T as (T2 & T1 & T0). unfold dig in *.
  pose proof (dadd_carry r1 s1 T1 D1) as E1.
  set (u1 := dadd r1 s1) in *. set (k1 := Z.b2z (u1 <? s1)) in *.
  assert (D2 : dig u1) by apply dadd_dig. unfold dig in D2.
  assert (Dk : 0 <= k1 <= 1) by (subst k1; destruct (u1 <? s1); cbn; lia).
  assert (X : r0 + B * u1 + B * B * (r2 + k1 + k2) = acc r + 2 * (fst ab * snd ab)).
  { apply (f_equal (Z.mul B)) in E1, Es1. lia. }
  assert (r2 + k1 + k2 < B) by (apply (tri_top r0 u1); lia).
  unfold dadd. rewrite Zplus_mod_idemp_l, (Z.mod_small (r2 + k1 + k2)) by lia.
  repeat split; lia.
Qed.

(** Columns of terms of known weight. *)
Section Columns.
Context {T : Type} (step : triple -> T -> triple) (w : T -> Z) (okT : T -> Prop).
Hypothesis step_ok : forall r t, okT t -> tri r -> acc r + w t < B * B * B ->
  tri (step r t) /\ acc (step r t) = acc r + w t.
Hypothesis w_nonneg : forall t, okT t -> 0 <= w t.

Fixpoint sumw (col : list T) : Z :=
  match col with [] => 0 | t :: col' => w t + sumw col' end.

Fixpoint colsum (cols : list (list T)) : Z :=
  match cols with [] => 0 | col :: cols' => sumw col + B * colsum cols' end.

Lemma sumw_nonneg col : Forall okT col -> 0 <= sumw col.
Proof. induction 1 as [|t col Ht _ IH]; cbn; [lia|]. pose proof (w_nonneg t Ht). lia. Qed.

Lemma sumw_app c1 c2 : sumw (c1 ++ c2) = sumw c1 + sumw c2.
Proof. induction c1; cbn; lia. Qed.

Lemma column_ok col : forall r, Forall okT col -> tri r -> acc r + sumw col < B * B * B ->
  tri (fold_left step col r) /\ acc (fold_left step col r) = acc r + sumw col.
Proof.
  induction col as [|t col IH]; intros r Hc Hr Hs; cbn [fold_left sumw] in *.
  - split; [exact Hr|lia].
  - inversion Hc as [|? ? Ht Hc']; subst. pose proof (sumw_nonneg col Hc').
    destruct (step_ok r t Ht Hr ltac:(lia)) as [Hr' E].
    destruct (IH (step r t) Hc' Hr' ltac:(lia)) as [Hr'' E']. split; [exact Hr''|lia].
Qed.

Definition fits_col (col : list T) : Prop :=
  Forall okT col /\ sumw col <= B * B * B - B * B.

Lemma shift_triple_ok r : tri r -> tri (shift_triple r) /\ acc (shift_triple r) < B * B /\
  acc r = snd r + B * acc (shift_triple r) /\ dig (snd r).
Proof.
  destruct r as [[r2 r1] r0]. cbn. intros (H2 & H1 & H0). unfold dig in *. pose proof B_gt.
  repeat split; try lia; nia.
Qed.

Lemma comba_columns_ok cols : forall r c r', Forall fits_col cols -> tri r -> acc r < B * B ->
  comba_columns step cols r = (c, r') ->
  val c + Bp (length cols) * acc r' = acc r + colsum cols /\ digs c /\
  length c = length cols /\ tri r' /\ acc r' < B * B.
Proof.
  induction cols as [|col cols IH]; intros r c r' Hc Hr Ha H; cbn [comba_columns] in H.
  - apply pair_equal_spec in H as [<- <-]. cbn. rewrite Bp_0. repeat split; auto with digits; lia.
  - inversion Hc as [|? ? [Ho Hs] Hc']; subst. cbv zeta in H.
    destruct (column_ok col r Ho Hr ltac:(lia)) as [Hr1 E1].
    set (r1 := fold_left step col r) in *.
    destruct (shift_triple_ok r1 Hr1) as (Hr2 & Ha2 & E2 & D2).
    destruct (comba_columns step cols (shift_triple r1)) as [c' r''] eqn:E.
    apply pair_equal_spec in H as [<- <-].
    apply IH in E as (E & Hd & HL & Hr3 & Ha3); auto.
    cbn [colsum]. apply (f_equal (Z.mul B)) in E. cbn [val length]. rewrite Bp_S.
    repeat split; auto with digits; lia.
Qed.
End Columns.

(** ** Comba multiplication *)

Definition wmul (ab : Z * Z) : Z := fst ab * snd ab.
Definition okmul (ab : Z * Z) : Prop := dig (fst ab) /\ dig (snd ab).

Lemma step_mul_ok r t : okmul t -> tri r -> acc r + wmul t < B * B * B ->
  tri (RLC_COMBA_STEP_MUL r t) /\ acc (RLC_COMBA_STEP_MUL r t) = acc r + wmul t.
Proof. intros [Ha Hb] Hr. apply COMBA_STEP_MUL_ok; auto. Qed.

Lemma wmul_nonneg t : okmul t -> 0 <= wmul t.
Proof. unfold okmul, wmul, dig. nia. Qed.

Lemma okmul_pairs a b fa fb n : digs a -> digs b -> Forall okmul (pairs a b fa fb n).
Proof.
  intros Ha Hb. apply Forall_forall. intros t Ht. apply in_map_iff in Ht as (j & <- & _).
  split; cbn; auto with digits.
Qed.

Lemma sumw_map_seq {T} (w : T -> Z) (f : nat -> T) lo n :
  sumw w (map f (seq lo n)) = sumf (fun j => w (f j)) lo n.
Proof. revert lo; induction n as [|n IH]; intros lo; cbn; [reflexivity|]. rewrite IH. reflexivity. Qed.

Lemma colsum_map_seq {T} (w : T -> Z) (f : nat -> list T) lo n :
  colsum w (map f (seq lo n)) = sumf (fun k => Bp k * sumw w (f (k + lo)%nat)) 0 n.
Proof.
  revert lo; induction n as [|n IH]; intros lo; cbn [map seq colsum sumf]; [reflexivity|].
  rewrite Bp_0, Nat.add_0_l, IH. rewrite (sumf_shift _ 0 n 1), <- sumf_scale.
  rewrite Z.mul_1_l. f_equal. apply sumf_ext. intros i _.
  replace (i + 1)%nat with (S i) by lia. rewrite Bp_S.
  replace (S i + lo)%nat with (i + S lo)%nat by lia. ring.
Qed.

Lemma colsum_app {T} (w : T -> Z) c1 c2 :
  colsum w (c1 ++ c2) = colsum w c1 + Bp (length c1) * colsum w c2.
Proof.
  induction c1 as [|c c1 IH]; cbn [app colsum length]; [rewrite Bp_0; lia|].
  rewrite IH, Bp_S. ring.
Qed.

Lemma comba_columns_app {T} (step : triple -> T -> triple) c1 : forall c2 r,
  comba_columns step (c1 ++ c2) r =
  let '(d1, r1) := comba_columns step c1 r in
  let '(d2, r2) := comba_columns step c2 r1 in (d1 ++ d2, r2).
Proof.
  induction c1 as [|c c1 IH]; intros c2 r; cbn [app comba_columns].
  - destruct (comba_columns step c2 r); reflexivity.
  - cbv zeta. rewrite IH. destruct (comba_columns step c1 _) as [d1 r1].
    destruct (comba_columns step c2 r1) as [d2 r2]. reflexivity.
Qed.

Lemma fits_pairs a b fa fb n : digs a -> digs b -> Z.of_nat n < 2 ^ 33 ->
  fits_col wmul okmul (pairs a b fa fb n).
Proof.
  intros Ha Hb Hn. split; [apply okmul_pairs; auto|].
  unfold pairs. rewrite sumw_map_seq.
  assert (0 <= sumf (fun j => wmul (nth (fa j) a 0, nth (fb j) b 0)) 0 n
          <= Z.of_nat n * ((B - 1) * (B - 1))) as Hs.
  { apply sumf_bound. intros i _. unfold wmul; cbn.
    pose proof (digs_nth a (fa i) Ha). pose proof (digs_nth b (fb i) Hb). unfold dig in *. nia. }
  assert (HB : 2 ^ 33 < B) by reflexivity. nia.
Qed.

Lemma tri_0 : tri (0, 0, 0) /\ acc (0, 0, 0) = 0.
Proof. cbn; auto with digits. Qed.

(** A run of Comba columns that are the columns of a product, from column 0 on,
    yields the product modulo the digits produced. *)
Lemma comba_product {T} (step : triple -> T -> triple) w okT
    (Hstep : forall r t, okT t -> tri r -> acc r + w t < B * B * B ->
      tri (step r t) /\ acc (step r t) = acc r + w t)
    (Hw : forall t, okT t -> 0 <= w t) cols a b c r :
  Forall (fits_col w okT) cols ->
  colsum w cols = sumf (fun k => Bp k * conv a b k) 0 (length cols) ->
  comba_columns step cols (0, 0, 0) = (c, r) ->
  val c = (val a * val b) mod Bp (length cols) /\ digs c /\ length c = length cols.
Proof.
  intros Hf Hsum H. destruct tri_0 as [Ht Ha0].
  apply (comba_columns_ok step w okT Hstep Hw) in H as (E & Hd & HL & _ & _); auto.
  2: { rewrite Ha0. pose proof B_gt. nia. }
  repeat split; auto.
  pose proof (val_bound c Hd) as Hb. rewrite HL in Hb.
  pose proof (conv_total a b (length cols)) as Ht'. rewrite <- Hsum in Ht'.
  apply Z.mod_divide in Ht' as [z Hz]; [|pose proof (Bp_pos (length cols)); lia].
  apply Z.mod_unique with (z + acc r); [lia|]. rewrite Ha0 in E. lia.
Qed.

Lemma sumw_pairs a b fa fb n :
  sumw wmul (pairs a b fa fb n) = sumf (fun j => nth (fa j) a 0 * nth (fb j) b 0) 0 n.
Proof. apply sumw_map_seq. Qed.

Lemma pairs_conv a b lo n k : (lo + n <= S k)%nat -> (length b + lo <= S k)%nat ->
  (length a <= lo + n \/ S k <= lo + n)%nat -> forall fb, (forall j, (j < n)%nat -> fb j = (k - (lo + j))%nat) ->
  sumw wmul (pairs a b (fun j => lo + j)%nat fb n) = conv a b k.
Proof.
  intros H1 H2 H3 fb Hfb. rewrite sumw_pairs, <- (conv_window a b k lo n) by assumption.
  rewrite (sumf_shift _ 0 n lo : sumf _ lo n = _). apply sumf_ext.
  intros i Hi. rewrite Hfb, (Nat.add_comm i lo) by lia. reflexivity.
Qed.

(** The three runs of columns of [bn_muld_low] (the first two also of
    [bn_muln_low]) are the columns of the product. *)
Lemma muld_colsum a b h : (1 <= length b <= length a)%nat ->
  (length a <= h <= length a + length b)%nat ->
  let sa := length a in let sb := length b in
  let cols :=
    map (fun i => pairs a b (fun j => j) (fun j => i - j)%nat (i + 1)) (seq 0 (sb - 0)) ++
    map (fun i => pairs a b (fun j => i - sb + 1 + j)%nat (fun j => sb - 1 - j)%nat sb)
      (seq sb (sa - sb)) ++
    map (fun i => pairs a b (fun j => i - sb + 1 + j)%nat (fun j => sb - 1 - j)%nat
                    (sa - (i - sb + 1))) (seq sa (h - sa)) in
  length cols = h /\ colsum wmul cols = sumf (fun k => Bp k * conv a b k) 0 h.
Proof.
  intros Hb Hh sa sb cols. subst cols.
  assert (Esa : sa = length a) by reflexivity. assert (Esb : sb = length b) by reflexivity.
  clearbody sa sb. rewrite !length_app, !length_map, !length_seq.
  split; [lia|]. rewrite !colsum_app, !colsum_map_seq, !length_map, !length_seq.
  replace h with ((sb - 0) + ((sa - sb) + (h - sa)))%nat at 2 by lia.
  rewrite !sumf_split, !Z.mul_add_distr_l, !Z.add_assoc, Nat.add_0_l.
  f_equal; [f_equal|].
  - apply sumf_ext. intros i Hi. f_equal. rewrite Nat.add_0_r, Nat.add_1_r. apply sumw_pairs.
  - rewrite (sumf_shift _ 0 (sa - sb) (sb - 0) : sumf _ (sb - 0) _ = _), <- sumf_scale.
    apply sumf_ext. intros i Hi. rewrite Nat.sub_0_r, Bp_add.
    replace (i + sb - sb + 1)%nat with (i + 1)%nat by lia.
    rewrite (pairs_conv a b (i + 1) sb (i + sb)); [ring|lia..].
  - replace (sb - 0 + (sa - sb))%nat with sa by lia.
    rewrite (sumf_shift _ 0 (h - sa) sa : sumf _ sa _ = _), Z.mul_assoc, <- Bp_add, <- sumf_scale.
    apply sumf_ext. intros i Hi.
    replace (sb - 0 + (sa - sb))%nat with sa by lia. rewrite (Bp_add i sa).
    rewrite (pairs_conv a b (i + sa - sb + 1) _ (i + sa)); [ring|lia..].
Qed.

Lemma comba_run2 {T} (step : triple -> T -> triple) c1 c2 r :
  (let '(d1, r1) := comba_columns step c1 r in
   let '(d2, _) := comba_columns step c2 r1 in d1 ++ d2) =
  fst (comba_columns step (c1 ++ c2) r).
Proof.
  rewrite comba_columns_app. destruct (comba_columns step c1 r) as [d1 r1].
  destruct (comba_columns step c2 r1). reflexivity.
Qed.

Lemma comba_run3 {T} (step : triple -> T -> triple) c1 c2 c3 r :
  (let '(d1, r1) := comba_columns step c1 r in
   let '(d2, r2) := comba_columns step c2 r1 in
   let '(d3, _) := comba_columns step c3 r2 in d1 ++ d2 ++ d3) =
  fst (comba_columns step (c1 ++ c2 ++ c3) r).
Proof.
  rewrite comba_columns_app. destruct (comba_columns step c1 r) as [d1 r1].
  rewrite comba_columns_app. destruct (comba_columns step c2 r1) as [d2 r2].
  destruct (comba_columns step c3 r2). reflexivity.
Qed.

Lemma bn_muld_low_ok a b h : digs a -> digs b -> (1 <= length b <= length a)%nat -> short a ->
  (length a <= h <= length a + length b)%nat ->
  val (bn_muld_low a b 0 h) = (val a * val b) mod Bp h /\ digs (bn_muld_low a b 0 h) /\
  length (bn_muld_low a b 0 h) = h.
Proof.
  intros Ha Hb Hlen Hs Hh. unfold short in Hs.
  destruct (muld_colsum a b h Hlen Hh) as [HL Hsum]. cbv zeta in HL, Hsum.
  unfold bn_muld_low. rewrite comba_run3.
  destruct (comba_columns _ _ (0, 0, 0)) as [c r] eqn:E. cbn [fst].
  eapply (comba_product _ wmul okmul step_mul_ok wmul_nonneg) in E as (E1 & E2 & E3).
  - rewrite HL in *. eauto.
  - rewrite !Forall_app, !Forall_map, !Forall_forall.
    split; [|split]; intros i Hi%in_seq; apply fits_pairs; auto; lia.
  - rewrite HL. exact Hsum.
Qed.

Lemma bn_muln_low_muld a b : length a = length b ->
  bn_muln_low a b = bn_muld_low a b 0 (length a + length b).
Proof.
  intros HL. unfold bn_muln_low, bn_muld_low. rewrite <- HL, Nat.sub_0_r.
  rewrite Nat.sub_diag, Nat.add_sub. cbn [seq map comba_columns app].
  destruct (comba_columns _ _ (0, 0, 0)) as [c1 r1].
  assert (Hshift : forall n lo, map (fun i => (i + length a)%nat) (seq lo n) =
                               seq (lo + length a) n).
  { induction n as [|n IH]; intros lo; cbn; [reflexivity|]. f_equal. apply (IH (S lo)). }
  change (seq (length a) (length a)) with (seq (0 + length a) (length a)).
  rewrite <- Hshift, map_map.
  erewrite map_ext_in; [reflexivity|]. intros i Hi%in_seq. cbv beta.
  rewrite Nat.add_sub. reflexivity.
Qed.

Lemma bn_muln_low_ok a b : digs a -> digs b -> length a = length b -> short a ->
  val (bn_muln_low a b) = val a * val b /\ digs (bn_muln_low a b) /\
  length (bn_muln_low a b) = (length a + length b)%nat.
Proof.
  intros Ha Hb HL Hs. destruct a as [|x a].
  { destruct b; [|discriminate]. cbn. auto with digits. }
  rewrite bn_muln_low_muld by exact HL.
  destruct (bn_muld_low_ok (x :: a) b (length (x :: a) + length b)) as (E & Hd & Hl); auto;
    cbn [length] in *; try lia.
  rewrite E. repeat split; auto. apply Z.mod_small.
  pose proof (val_bound _ Ha). pose proof (val_bound _ Hb). cbn [length] in *.
  rewrite Bp_add. nia.
Qed.

(** ** Comba squaring *)

Lemma sumf_sym f lo n : (forall j, (j < n)%nat -> f (lo + j)%nat = f (lo + (n - 1 - j))%nat) ->
  sumf f lo n = 2 * sumf f lo (n / 2) + (if Nat.odd n then f (lo + n / 2)%nat else 0).
Proof.
  intros Hf. pose proof (Nat.div_mod_eq n 2) as En.
  set (h := (n / 2)%nat) in *.
  assert (Hr : (n mod 2 = (if Nat.odd n then 1 else 0))%nat).
  { rewrite <- Nat.bit0_mod, Nat.bit0_odd. reflexivity. }
  rewrite Hr in En. clear Hr.
  assert (E2 : sumf f (lo + (n - h)) h = sumf f lo h).
  { rewrite (sumf_rev f lo h), (sumf_shift f lo h (n - h)) by idtac.
    apply sumf_ext. intros i Hi.
    replace (i + (n - h))%nat with (lo + (i - lo + (n - h)))%nat by lia.
    rewrite Hf by lia. f_equal. lia. }
  destruct (Nat.odd n).
  - replace n with (h + (1 + h))%nat at 1 by lia. rewrite !sumf_split. cbn [sumf].
    replace (lo + h + 1)%nat with (lo + (n - h))%nat by lia. rewrite E2. lia.
  - replace n with (h + h)%nat at 1 by lia. rewrite sumf_split.
    replace (lo + h)%nat with (lo + (n - h))%nat by lia. rewrite E2. lia.
Qed.

Definition wsqr (t : sqr_term) : Z :=
  match t with Twice ab => 2 * wmul ab | Once ab => wmul ab end.
Definition oksqr (t : sqr_term) : Prop :=
  match t with Twice ab | Once ab => okmul ab end.

Lemma sqr_step_ok r t : oksqr t -> tri r -> acc r + wsqr t < B * B * B ->
  tri (sqr_step r t) /\ acc (sqr_step r t) = acc r + wsqr t.
Proof.
  destruct t as [ab|ab]; intros [Ha Hb] Hr Hs; cbn in *;
    [apply COMBA_STEP_SQR_ok|apply COMBA_STEP_MUL_ok]; auto.
Qed.

Lemma wsqr_nonneg t : oksqr t -> 0 <= wsqr t.
Proof. destruct t as [ab|ab]; intros H; apply wmul_nonneg in H; cbn [wsqr]; lia. Qed.

Lemma sumw_sqr_column a fa fb n mid :
  sumw wsqr (sqr_column a fa fb n mid) =
  2 * sumf (fun j => nth (fa j) a 0 * nth (fb j) a 0) 0 n +
  (if mid then nth (fa n) a 0 * nth (fa n) a 0 else 0).
Proof.
  unfold sqr_column, pairs. rewrite map_map, sumw_app, sumw_map_seq. cbn [wsqr].
  rewrite sumf_scale. f_equal. destruct mid; cbn [sumw wsqr]; unfold wmul; cbn [fst snd]; lia.
Qed.

Lemma fits_sqr_column a fa fb n mid : digs a -> Z.of_nat n < 2 ^ 32 ->
  fits_col wsqr oksqr (sqr_column a fa fb n mid).
Proof.
  intros Ha Hn. split.
  - unfold sqr_column, pairs. rewrite map_map. apply Forall_app. split.
    + apply Forall_forall. intros t Ht. apply in_map_iff in Ht as (j & <- & _).
      split; cbn; auto with digits.
    + destruct mid; constructor; [split; cbn; auto with digits|constructor].
  - rewrite sumw_sqr_column.
    assert (Hs : 0 <= sumf (fun j => nth (fa j) a 0 * nth (fb j) a 0) 0 n
            <= Z.of_nat n * ((B - 1) * (B - 1))).
    { apply sumf_bound. intros i _.
      pose proof (digs_nth a (fa i) Ha). pose proof (digs_nth a (fb i) Ha). unfold dig in *. nia. }
    assert (Hm : (if mid then nth (fa n) a 0 * nth (fa n) a 0 else 0) <= (B - 1) * (B - 1)).
    { pose proof (digs_nth a (fa n) Ha). pose proof B_gt. unfold dig in *. destruct mid; nia. }
    assert (HB : 2 ^ 34 < B) by reflexivity.
    set (M := (B - 1) * (B - 1)) in *.
    assert (M * 2 ^ 34 <= B * B * B - B * B) by (subst M; nia). nia.
Qed.

(** A symmetric window of products is a column of the square. *)
Lemma sqr_column_conv a lo n k fb mid : (lo + n <= S k)%nat -> (length a + lo <= S k)%nat \/ lo = 0%nat ->
  (length a <= lo + n \/ S k <= lo + n)%nat -> (lo + lo + n = S k)%nat ->
  (forall j, (j < n)%nat -> fb j = (k - (lo + j))%nat) -> mid = Nat.odd n ->
  sumw wsqr (sqr_column a (fun j => lo + j)%nat fb (n / 2) mid) = conv a a k.
Proof.
  intros H1 H2 H3 H4 Hfb ->. rewrite sumw_sqr_column.
  assert (Hd : (2 * (n / 2) <= n)%nat) by (apply Nat.Div0.mul_div_le).
  transitivity (sumf (fun j => nth j a 0 * nth (k - j) a 0) lo n).
  2: { destruct H2 as [H2|H2]; [apply conv_window; auto|].
       subst lo. unfold conv. f_equal. lia. }
  rewrite (sumf_sym (fun j => nth j a 0 * nth (k - j) a 0) lo n).
  2: { intros j Hj. rewrite Z.mul_comm. f_equal; f_equal; lia. }
  f_equal; [f_equal|].
  - rewrite (sumf_shift _ 0 (n / 2) lo : sumf _ lo (n / 2) = _). apply sumf_ext.
    intros i Hi. rewrite Hfb, (Nat.add_comm i lo) by lia. reflexivity.
  - destruct (Nat.odd n) eqn:Ho; [|reflexivity]. f_equal. f_equal.
    apply Nat.odd_spec in Ho as [h Hh]. replace (n / 2)%nat with h; [lia|].
    apply Nat.div_unique with 1%nat; lia.
Qed.

Lemma sqrn_colsum a :
  let size := length a in
  let cols :=
    map (fun i => sqr_column a (fun j => j) (fun j => i - j)%nat ((i + 1) / 2) (Nat.even i))
      (seq 0 size) ++
    map (fun i => sqr_column a (fun j => i + 1 + j)%nat (fun j => size - 1 - j)%nat
                    ((size - 1 - i) / 2) (Nat.even (size - i))) (seq 0 size) in
  length cols = (size + size)%nat /\
  colsum wsqr cols = sumf (fun k => Bp k * conv a a k) 0 (size + size).
Proof.
  intros size cols. subst cols. assert (Es : size = length a) by reflexivity. clearbody size.
  rewrite length_app, !length_map, !length_seq. split; [reflexivity|].
  rewrite colsum_app, !colsum_map_seq, length_map, length_seq, sumf_split. f_equal.
  - apply sumf_ext. intros i Hi. f_equal. rewrite Nat.add_0_r.
    apply (sqr_column_conv a 0 (i + 1) i); try lia.
    rewrite Nat.add_1_r, Nat.odd_succ. reflexivity.
  - rewrite Nat.add_0_l, (sumf_shift _ 0 size size : sumf _ size size = _), <- sumf_scale.
    apply sumf_ext. intros i Hi. rewrite Bp_add, Nat.add_0_r.
    rewrite (sqr_column_conv a (i + 1) (size - 1 - i) (i + size)); [ring|lia..|].
    replace (size - i)%nat with (S (size - 1 - i)) by lia. apply Nat.even_succ.
Qed.

Lemma bn_sqrn_low_ok a : digs a -> short a ->
  val (bn_sqrn_low a) = val a * val a /\ digs (bn_sqrn_low a) /\
  length (bn_sqrn_low a) = (length a + length a)%nat.
Proof.
  intros Ha Hs. unfold short in Hs.
  destruct (sqrn_colsum a) as [HL Hsum]. cbv zeta in HL, Hsum.
  unfold bn_sqrn_low. rewrite comba_run2.
  destruct (comba_columns _ _ (0, 0, 0)) as [c r] eqn:E. cbn [fst].
  eapply (comba_product _ wsqr oksqr sqr_step_ok wsqr_nonneg) in E as (E1 & E2 & E3).
  - rewrite HL in *. repeat split; auto. rewrite E1. apply Z.mod_small.
    pose proof (val_bound _ Ha). rewrite Bp_add. nia.
  - rewrite Forall_app, !Forall_map, !Forall_forall.
    split; intros i Hi%in_seq; apply fits_sqr_column; auto;
      apply Z.le_lt_trans with (Z.of_nat (length a)); auto; apply inj_le;
      apply Nat.Div0.div_le_upper_bound; lia.
  - rewrite HL. exact Hsum.
Qed.

(** ** Squaring one digit at a time *)

(** One column of [bn_sqra_low]: the three overflow tests detect the carry. *)
Lemma sqra_column a0 x y c0 c1 : dig a0 -> dig x -> dig y -> dig c0 -> 0 <= c1 <= 1 ->
  let r := (a0 * x) mod (B * B) in
  let r0 := (r + r) mod (B * B) in
  let r1 := (r0 + y + c0) mod (B * B) in
  let c0' := (Z.shiftr r1 RLC_DIG + c1) mod B in
  let c1' := Z.b2z ((r0 <? r) || (r1 <? r0) || (c0' <? c1)) in
  r1 mod B + B * c0' + B * B * c1' = 2 * (a0 * x) + y + c0 + B * c1 /\ 0 <= c1' <= 1.
Proof.
  intros Ha0 Hx Hy Hc0 Hc1 r r0 r1 c0' c1'. unfold dig in *. pose proof B_gt as HB.
  assert (Hr : r = a0 * x) by (apply Z.mod_small; nia).
  assert (Hrb : 0 <= r <= (B - 1) * (B - 1)) by nia.
  assert (Hrb2 : r < B * B) by nia. clearbody r.
  assert (E0 : r0 + B * B * Z.b2z (r0 <? r) = 2 * r).
  { subst r0. destruct (Z.lt_ge_cases (r + r) (B * B)).
    - rewrite Z.mod_small by lia. destruct (Z.ltb_spec (r + r) r); cbn [Z.b2z]; lia.
    - assert (Em : (r + r) mod (B * B) = r + r - B * B) by (symmetry; apply (Z.mod_unique _ _ 1); lia).
      rewrite Em. destruct (Z.ltb_spec (r + r - B * B) r); cbn [Z.b2z]; lia. }
  assert (Hr0 : 0 <= r0 < B * B) by (apply Z.mod_pos_bound; nia).
  assert (E1 : r1 + B * B * Z.b2z (r1 <? r0) = r0 + y + c0).
  { subst r1. destruct (Z.lt_ge_cases (r0 + y + c0) (B * B)).
    - rewrite Z.mod_small by lia. destruct (Z.ltb_spec (r0 + y + c0) r0); cbn [Z.b2z]; lia.
    - assert (Em : (r0 + y + c0) mod (B * B) = r0 + y + c0 - B * B)
        by (symmetry; apply (Z.mod_unique _ _ 1); nia).
      rewrite Em. destruct (Z.ltb_spec (r0 + y + c0 - B * B) r0); cbn [Z.b2z]; nia. }
  assert (Hr1 : 0 <= r1 < B * B) by (apply Z.mod_pos_bound; nia).
  assert (Eh : Z.shiftr r1 RLC_DIG = r1 / B) by (apply Z.shiftr_div_pow2; unfold RLC_DIG; lia).
  pose proof (Z.div_mod r1 B ltac:(lia)) as Ed. pose proof (Z.mod_pos_bound r1 B ltac:(lia)) as Hm.
  set (hi := r1 / B) in *. set (lo := r1 mod B) in *.
  assert (Hhi : 0 <= hi < B) by nia.
  assert (E2 : c0' + B * Z.b2z (c0' <? c1) = hi + c1).
  { subst c0'. rewrite Eh. apply (dadd_carry hi c1); unfold dig; lia. }
  assert (Hc0' : 0 <= c0' < B) by (apply Z.mod_pos_bound; lia).
  subst c1'. clearbody r0 r1 c0' lo hi. subst r.
  apply (f_equal (Z.mul B)) in E2.
  assert (Hs : 2 * (a0 * x) + y + c0 + B * c1 < 2 * (B * B)) by nia.
  clear - E0 E1 E2 Ed Hm Hc0' Hs HB. assert (0 < B * B) by nia.
  assert (0 <= B * c0') by nia.
  destruct (r0 <? a0 * x), (r1 <? r0), (c0' <? c1); cbn [orb Z.b2z] in *; lia.
Qed.

Lemma sqra_loop_ok a0 a : forall c c0 c1 c' cy, dig a0 -> digs a -> digs c -> dig c0 ->
  0 <= c1 <= 1 -> length c = S (length a) -> sqra_loop a0 c a c0 c1 = (c', cy) ->
  val c' + Bp (length c) * cy = val c + 2 * a0 * val a + c0 + B * c1 /\
  digs c' /\ length c' = length c /\ 0 <= cy <= 2.
Proof.
  induction a as [|x a IH]; intros [|y c] c0 c1 c' cy Ha0 Ha Hc Hc0 Hc1 HL H; try discriminate HL.
  - destruct c; [|discriminate HL]. inv_digs. cbn [sqra_loop] in H. cbv zeta in H.
    apply pair_equal_spec in H as [<- <-].
    pose proof (dadd_carry y c0 ltac:(auto) Hc0) as E.
    set (k := Z.b2z (dadd y c0 <? c0)) in *.
    assert (Hk : 0 <= k <= 1) by (subst k; destruct (dadd y c0 <? c0); cbn; lia).
    assert (Ek : dadd c1 k = c1 + k) by (apply Z.mod_small; pose proof B_gt; lia).
    rewrite Ek. cbn [val length]. rewrite Bp_1. repeat split; auto with digits; lia.
  - inv_digs. cbn [sqra_loop] in H. cbv zeta in H.
    destruct (sqra_column a0 x y c0 c1) as [Ecol Hc1']; auto. cbv zeta in Ecol, Hc1'.
    split_pair H cs cy' E.
    apply IH in E as (E & Hd & HL' & Hcy); auto with digits. step_case E.
Qed.

Lemma bn_sqra_low_ok c a c' cy : digs c -> digs a -> (1 <= length a)%nat ->
  length c = S (length a) -> bn_sqra_low c a = (c', cy) ->
  val c' + Bp (length c) * cy = val c + nth 0 a 0 * (2 * val a - nth 0 a 0) /\
  digs c' /\ length c' = length c /\ 0 <= cy <= 2.
Proof.
  intros Hc Ha Hl HL H. destruct a as [|a0 a]; [cbn in Hl; lia|].
  destruct c as [|y c]; [discriminate|]. inv_digs. cbn [bn_sqra_low] in H. cbv zeta in H.
  split_pair H cs cy' E. unfold dig in *. pose proof B_gt as HB.
  set (r := (y + a0 * a0) mod (B * B)) in *.
  assert (Hr : r = y + a0 * a0) by (apply Z.mod_small; nia).
  assert (Eh : Z.shiftr r RLC_DIG mod B = r / B).
  { rewrite Z.shiftr_div_pow2 by (unfold RLC_DIG; lia). change (2 ^ RLC_DIG) with B.
    apply Z.mod_small. split; [apply Z.div_pos; nia|apply Z.div_lt_upper_bound; nia]. }
  rewrite Eh in E.
  pose proof (Z.div_mod r B ltac:(lia)) as Ed. pose proof (Z.mod_pos_bound r B ltac:(lia)) as Hm.
  apply sqra_loop_ok in E as (E & Hd & HL' & Hcy); auto; try lia.
  2: { unfold dig. rewrite <- Eh. apply Z.mod_pos_bound; lia. }
  apply (f_equal (Z.mul B)) in E. cbn [val length nth] in *. rewrite Bp_S.
  repeat split; auto with digits; lia.
Qed.

(** ** Division by a digit *)

Lemma bn_div1_low_ok a : forall d q r, digs a -> 0 < d < B -> bn_div1_low a d = (q, r) ->
  val q = val a / d /\ r = val a mod d /\ digs q /\ length q = length a.
Proof.
  intros d q r Ha Hd H.
  assert (G : val a = val q * d + r /\ 0 <= r < d /\ digs q /\ length q = length a).
  { revert q r H. induction a as [|x a IH]; intros q r H; cbn [bn_div1_low] in H.
    - apply pair_equal_spec in H as [<- <-]. cbn. repeat split; auto with digits; lia.
    - inv_digs. destruct (bn_div1_low a d) as [c w]. destruct (IH ltac:(auto) c w eq_refl) as (E & Hw & Hc & HL).
      destruct (RLC_DIV_DIG w x d) as [q0 r0] eqn:E0.
      apply RLC_DIV_DIG_spec in E0 as (E0 & Hr0 & Hq0); auto; try lia.
      apply pair_equal_spec in H as [<- <-]. apply (f_equal (Z.mul B)) in E.
      cbn [val length]. repeat split; auto with digits; lia. }
  destruct G as (E & Hr & Hq & HL). repeat split; auto.
  - apply Z.div_unique with r; lia.
  - apply Z.mod_unique with (val q); lia.
Qed.

(** ** Montgomery reduction *)

Lemma add_digit_ok r a i : tri r -> digs a -> acc r + B < B * B * B ->
  let r' := if (i <? length a)%nat then RLC_COMBA_ADD r (nth i a 0) else r in
  tri r' /\ acc r' = acc r + nth i a 0.
Proof.
  intros Hr Ha Hs. cbv zeta. pose proof (digs_nth a i Ha) as Hi.
  destruct (Nat.ltb_spec i (length a)).
  - apply COMBA_ADD_ok; auto. unfold dig in Hi. lia.
  - rewrite nth_overflow by lia. split; [assumption|lia].
Qed.

(** Folding a column of products into the accumulator. *)
Lemma mul_column_ok a b fa fb n r : digs a -> digs b -> tri r -> acc r < B * B ->
  Z.of_nat n < 2 ^ 33 ->
  let r' := fold_left RLC_COMBA_STEP_MUL (pairs a b fa fb n) r in
  let s := sumf (fun j => nth (fa j) a 0 * nth (fb j) b 0) 0 n in
  tri r' /\ acc r' = acc r + s /\ 0 <= s <= Z.of_nat n * ((B - 1) * (B - 1)).
Proof.
  intros Ha Hb Hr Hs Hn r' s.
  destruct (fits_pairs a b fa fb n Ha Hb Hn) as [Ho Hf]. rewrite sumw_pairs in Hf. fold s in Hf.
  assert (0 <= s <= Z.of_nat n * ((B - 1) * (B - 1))).
  { apply sumf_bound. intros i _.
    pose proof (digs_nth a (fa i) Ha). pose proof (digs_nth b (fb i) Hb). unfold dig in *. nia. }
  destruct (column_ok _ wmul okmul step_mul_ok wmul_nonneg (pairs a b fa fb n) r Ho Hr) as [T A].
  - rewrite sumw_pairs. fold s. pose proof B_gt. lia.
  - rewrite sumw_pairs in A. auto.
Qed.

Lemma column_room n : Z.of_nat n < 2 ^ 33 ->
  B * B + Z.of_nat n * ((B - 1) * (B - 1)) + B + (B - 1) * (B - 1) < B * B * B.
Proof.
  intros Hn. assert (HB : 2 ^ 34 < B) by reflexivity.
  assert (Z.of_nat n * ((B - 1) * (B - 1)) <= 2 ^ 33 * (B * B)) by nia. nia.
Qed.

Lemma modn_low_loop_ok a m u : digs a -> digs m -> dig u -> (nth 0 m 0 * u) mod B = B - 1 ->
  short m -> forall n i c r c' r', (i + n <= length m)%nat ->
  length c = i -> digs c -> tri r -> acc r < B * B ->
  modn_low_loop n i a m u c r = (c', r') ->
  (exists qs, c' = c ++ qs /\ length qs = n) /\ digs c' /\ tri r' /\ acc r' < B * B /\
  Bp i * acc r + sumf (fun k => Bp k * (nth k a 0 + conv c' m k)) i n = Bp (i + n) * acc r'.
Proof.
  intros Ha Hm Hu Hinv Hs. unfold short in Hs. pose proof B_gt as HB.
  induction n as [|n IH]; intros i c r c' r' Hin Hc Hcd Hr Hacc H; cbn [modn_low_loop] in H.
  - apply pair_equal_spec in H as [<- <-]. rewrite Nat.add_0_r. cbn [sumf].
    repeat split; auto; [exists []; rewrite app_nil_r; auto|lia].
  - cbv zeta in H.
    destruct (mul_column_ok c m (fun j => j) (fun j => (i - j)%nat) i r) as (T1 & A1 & S1); auto; try lia.
    pose proof (column_room i ltac:(lia)) as Hroom. cbv zeta in T1, A1, S1.
    set (r1 := fold_left RLC_COMBA_STEP_MUL _ r) in *.
    destruct (add_digit_ok r1 a i) as [T2 A2]; auto; [nia|].
    set (r2 := if (i <? length a)%nat then _ else r1) in *. cbv zeta in T2, A2.
    set (q := dmul (snd r2) u) in *.
    pose proof (digs_nth a i Ha) as Dai. pose proof (digs_nth m 0 Hm) as Dm0.
    assert (Dq : dig q) by apply dmul_dig.
    assert (Hqm : 0 <= q * nth 0 m 0 <= (B - 1) * (B - 1)) by (unfold dig in *; nia).
    destruct (COMBA_STEP_MUL_ok r2 (q, nth 0 m 0)) as [T3 A3]; auto;
      [cbn [fst snd]; unfold dig in *; lia|].
    cbn [fst snd] in A3. set (r3 := RLC_COMBA_STEP_MUL r2 (q, nth 0 m 0)) in *.
    destruct (shift_triple_ok r3 T3) as (T4 & A4 & E4 & D4).
    destruct (shift_triple_ok r2 T2) as (_ & _ & E2 & D2).
    assert (Hz : snd r3 = 0).
    { assert (Hmod : (snd r2 + q * nth 0 m 0) mod B = 0).
      { subst q. unfold dmul. rewrite Z.add_mod, Z.mul_mod_idemp_l, <- Z.add_mod by lia.
        replace (snd r2 + snd r2 * u * nth 0 m 0) with (snd r2 * 1 + snd r2 * (nth 0 m 0 * u)) by ring.
        rewrite <- Z.mul_add_distr_l, Z.mul_mod, Z.add_mod, Hinv by lia.
        rewrite (Z.mod_small 1), Z.add_sub_assoc by lia.
        replace (1 + B - 1) with B by lia. rewrite Z.mod_same, Z.mul_0_r by lia.
        apply Z.mod_0_l; lia. }
      rewrite <- (Z.mod_small (snd r3) B) by (unfold dig in D4; lia). rewrite <- Hmod.
      replace (snd r3) with (snd r2 + q * nth 0 m 0 +
        (acc (shift_triple r2) - acc (shift_triple r3)) * B) by lia.
      apply Z_mod_plus_full. }
    apply IH in H as ((qs & -> & HLq) & Hd' & Hr' & Ha' & E); auto;
      [|lia|rewrite length_app; cbn; lia|auto with digits].
    replace (S i + n)%nat with (i + S n)%nat in E by lia.
    repeat split; auto.
    + exists (q :: qs). rewrite <- app_assoc. split; [reflexivity|cbn; lia].
    + cbn [sumf]. rewrite <- E, Z.add_assoc. f_equal.
      assert (Ec : conv ((c ++ [q]) ++ qs) m i =
        sumf (fun j => nth j c 0 * nth (i - j) m 0) 0 i + q * nth 0 m 0).
      { unfold conv. rewrite <- Nat.add_1_r, sumf_split. cbn [sumf]. f_equal.
        - apply sumf_ext. intros j Hj. rewrite <- app_assoc, app_nth1 by lia. reflexivity.
        - rewrite Nat.add_0_l, Nat.sub_diag, <- app_assoc, app_nth2, Hc, Nat.sub_diag by lia.
          cbn. lia. }
      rewrite Ec, Bp_S. apply (f_equal (Z.mul (Bp i))) in E4. rewrite Hz, A3, A2, A1 in E4. lia.
Qed.

(** The second loop: [Q] holds the quotient digits of the first loop, whose
    prefix is progressively overwritten by the result. *)
Lemma modn_high_loop_ok a m Q : digs a -> digs m -> digs Q -> short m -> length Q = length m ->
  forall n i c r c' r', (length m <= i)%nat -> (i + n < 2 * length m)%nat ->
  length c = length m -> digs c ->
  (forall k, (i - length m <= k)%nat -> nth k c 0 = nth k Q 0) -> tri r -> acc r < B * B ->
  modn_high_loop n i a m c r = (c', r') ->
  length c' = length m /\ digs c' /\ tri r' /\ acc r' < B * B /\
  (forall k, (k < i - length m)%nat -> nth k c' 0 = nth k c 0) /\
  Bp i * acc r + sumf (fun k => Bp k * (nth k a 0 + conv Q m k)) i n =
  sumf (fun k => Bp k * nth (k - length m) c' 0) i n + Bp (i + n) * acc r'.
Proof.
  intros Ha Hm HQ Hs HLQ. unfold short in Hs. pose proof B_gt as HB.
  set (sm := length m) in *.
  induction n as [|n IH]; intros i c r c' r' Hi Hin Hc Hcd Hcq Hr Hacc H; cbn [modn_high_loop] in H.
  - apply pair_equal_spec in H as [<- <-]. rewrite Nat.add_0_r. cbn [sumf]. repeat split; auto; lia.
  - cbv zeta in H. fold sm in H.
    destruct (mul_column_ok c m (fun j => i - sm + 1 + j)%nat (fun j => sm - 1 - j)%nat
                (sm - (i - sm + 1)) r) as (T1 & A1 & S1); auto; try lia.
    pose proof (column_room (sm - (i - sm + 1)) ltac:(lia)) as Hroom. cbv zeta in T1, A1, S1.
    set (r1 := fold_left RLC_COMBA_STEP_MUL _ r) in *.
    destruct (add_digit_ok r1 a i) as [T2 A2]; auto; [nia|].
    set (r2 := if (i <? length a)%nat then _ else r1) in *. cbv zeta in T2, A2.
    destruct (shift_triple_ok r2 T2) as (T3 & A3 & E3 & D3).
    assert (Ec : sumf (fun j => nth (i - sm + 1 + j) c 0 * nth (sm - 1 - j) m 0) 0
              (sm - (i - sm + 1)) = conv Q m i).
    { rewrite <- (conv_window Q m i (i - sm + 1) (sm - (i - sm + 1))) by (fold sm; lia).
      rewrite (sumf_shift _ 0 _ (i - sm + 1) : sumf _ (i - sm + 1) _ = _).
      apply sumf_ext. intros j Hj. rewrite Hcq by lia. f_equal; f_equal; lia. }
    apply IH in H as (HL' & Hd' & Hr' & Ha' & Hpre & E); auto with digits; try lia.
    2: { rewrite length_upd. exact Hc. }
    2: { intros k Hk. rewrite nth_upd_neq by lia. apply Hcq; lia. }
    replace (S i + n)%nat with (i + S n)%nat in E by lia.
    repeat split; auto.
    + intros k Hk. rewrite Hpre, nth_upd_neq by lia. reflexivity.
    + cbn [sumf]. rewrite (Hpre (i - sm)%nat), nth_upd_eq by lia.
      rewrite Bp_S in E. apply (f_equal (Z.mul (Bp i))) in E3. rewrite A2, A1, Ec in E3. lia.
Qed.

(** Before the final subtraction: the carry [t] out of the result and the
    quotient [Q] make the reduction exact. *)
Lemma modn_exact a m u c1 r1 c2 r2 :
  let sm := length m in
  digs a -> digs m -> dig u -> (nth 0 m 0 * u) mod B = B - 1 -> short m -> (1 <= sm)%nat ->
  (length a <= 2 * sm)%nat ->
  modn_low_loop sm 0 a m u [] (0, 0, 0) = (c1, r1) ->
  modn_high_loop (sm - 1) sm a m c1 r1 = (c2, r2) ->
  let r := if (2 * sm - 1 <? length a)%nat then RLC_COMBA_ADD r2 (nth (2 * sm - 1) a 0) else r2 in
  let c := upd c2 (sm - 1) (snd r) in
  tri r /\ digs c /\ length c = sm /\ 0 <= val c1 < Bp sm /\
  val a + val c1 * val m = Bp sm * (val c + Bp sm * acc (shift_triple r)).
Proof.
  intros sm Ha Hm Hu Hinv Hs Hsm HLa E1 E2. assert (Esm : sm = length m) by reflexivity.
  pose proof B_gt as HB.
  apply modn_low_loop_ok in E1 as ((qs & Hc1 & HLq) & Dc1 & T1 & A1 & S1); auto with digits;
    try solve [unfold tri; auto with digits|cbn; lia].
  cbn [app] in Hc1. subst qs. cbn [acc] in S1. rewrite Nat.add_0_l in S1.
  apply (modn_high_loop_ok a m c1) in E2 as (HL2 & Dc2 & T2 & A2 & _ & S2); auto; try lia.
  rewrite <- Esm in *.
  intros r c. destruct (add_digit_ok r2 a (2 * sm - 1) T2 Ha ltac:(nia)) as [T3 A3]. fold r in T3, A3.
  destruct (shift_triple_ok r T3) as (T4 & A4 & E4 & D4).
  pose proof (val_bound c1 Dc1) as Hb. rewrite HLq in Hb.
  assert (HLc : length c = sm) by (subst c; rewrite length_upd; exact HL2).
  repeat split; auto; try (subst c; auto with digits; fail); try lia.
  rewrite <- (conv_total_exact c1 m (sm + ((sm - 1) + 1))) by lia.
  rewrite <- (val_sumf_exact a (sm + ((sm - 1) + 1))) by lia.
  rewrite <- sumf_add.
  rewrite (sumf_ext _ (fun k => Bp k * (nth k a 0 + conv c1 m k))) by (intros; lia).
  rewrite !sumf_split, Nat.add_0_l. cbn [sumf].
  rewrite (conv_high c1 m) by lia. replace (2 * sm - 1)%nat with (sm + (sm - 1))%nat in A3 by lia.
  rewrite <- (val_sumf_exact c ((sm - 1) + 1)) by lia. rewrite sumf_split. cbn [sumf].
  subst c. rewrite Nat.add_0_l, nth_upd_eq by lia.
  assert (S3 : sumf (fun k => Bp k * nth (k - sm) c2 0) sm (sm - 1) =
    Bp sm * sumf (fun k => Bp k * nth k (upd c2 (sm - 1) (snd r)) 0) 0 (sm - 1)).
  { rewrite (sumf_shift _ 0 (sm - 1) sm : sumf _ sm (sm - 1) = _), <- sumf_scale.
    apply sumf_ext. intros i Hi. rewrite Nat.add_sub, Bp_add, nth_upd_neq by lia. ring. }
  rewrite A3 in E4. rewrite S3 in S2.
  replace (Bp (sm + (sm - 1))) with (Bp sm * Bp (sm - 1)) by (rewrite <- Bp_add; reflexivity).
  assert (Es : Bp sm = B * Bp (sm - 1)) by (rewrite <- Bp_S; f_equal; lia).
  apply (f_equal (Z.mul (Bp sm * Bp (sm - 1)))) in E4.
  rewrite Bp_add in S2. clear - S1 S2 E4 Es. nia.
Qed.

Lemma bn_modn_low_ok a m u : digs a -> digs m -> short m -> (1 <= length m)%nat ->
  (length a <= 2 * length m)%nat -> dig u -> (nth 0 m 0 * u) mod B = B - 1 ->
  val a < val m * Bp (length m) ->
  let c := bn_modn_low a m u in
  (val c * Bp (length m)) mod val m = val a mod val m /\
  0 <= val c < 2 * val m /\ digs c /\ length c = length m.
Proof.
  intros Ha Hm Hs Hsm HLa Hu Hinv Hlt c.
  pose proof (val_bound a Ha) as Hba. pose proof (val_bound m Hm) as Hbm.
  assert (Hmpos : 0 < val m) by nia.
  assert (G : exists Q, (val c * Bp (length m)) = val a + Q * val m /\
    0 <= val c < 2 * val m /\ digs c /\ length c = length m).
  2: { destruct G as (Q & E & G). split; [|exact G]. rewrite E. apply Z_mod_plus_full. }
  subst c. unfold bn_modn_low.
  destruct (modn_low_loop _ _ _ _ _ _ _) as [c1 r1] eqn:E1.
  destruct (modn_high_loop _ _ _ _ _ _) as [c2 r2] eqn:E2.
  pose proof (modn_exact a m u c1 r1 c2 r2) as X. cbv zeta in X |- *.
  destruct X as (T & Dc & HLc & Hq & E); auto.
  set (r := if (2 * length m - 1 <? length a)%nat then _ else r2) in *.
  set (c := upd c2 (length m - 1) (snd r)) in *. clearbody c r.
  pose proof (val_bound c Dc) as Hbc. rewrite HLc in Hbc.
  set (P := Bp (length m)) in *. assert (HP : 0 < P) by apply Bp_pos.
  assert (HT : val c + P * acc (shift_triple r) < 2 * val m) by nia.
  destruct (shift_triple_ok r T) as (T4 & _).
  pose proof (acc_nonneg _ T4) as Ht0. destruct r as [[t2 t1] t0].
  cbn [shift_triple acc fst snd tri] in *. unfold dig in T. pose proof B_gt as HB.
  assert (Ht : t1 + B * t2 <= 1) by nia.
  assert (Ht2 : t2 = 0) by nia. subst t2.
  destruct (Z.eqb_spec t1 0) as [->|Hn].
  - exists (val c1). repeat split; auto; nia.
  - assert (t1 = 1) by lia. subst t1.
    destruct (bn_subn_low c m) as [d cy] eqn:Es. cbn [fst].
    apply subn_loop_ok in Es as (Es & Dd & HLd & Hcy); auto.
    pose proof (val_bound d Dd) as Hbd. rewrite HLd, HLc in Hbd. rewrite HLc in Es. fold P in Es, Hbd.
    assert (Ev : val d = val c + P - val m) by (assert (cy = 0 \/ cy = 1) as [-> | ->] by lia; nia).
    exists (val c1 - P). repeat split; auto; nia.
Qed.
