(* ===== verification/BnLowEasyDiv.v ===== *)
(** * Long division of the portable backend

    [bn_divn_low] (low/easy/relic_bn_div_low.c) is Knuth's algorithm D with the
    divisor normalised to 63 bits.  The estimate of each quotient digit is at
    most four too large, the three-digit test brings it to at most one too large,
    and the add-back step repairs that one; the fuel of the two inner loops (5
    and 6) is never used up. *)

From Stdlib Require Import ZArith List Lia Bool.
From S2P Require Import Prelude Dv BnLow BnLowEasy BnLowEasyProofs.
Import ListNotations.
Local Open Scope Z_scope.

(** ** Arithmetic on a slice of a vector *)

(** Subtract [d] from the slice of [a] at [k] and propagate the borrow. *)
Lemma sub_at a k d s cy a1 : digs a -> digs d -> (k + length d <= length a)%nat ->
  bn_subn_low (firstn (length d) (skipn k a)) d = (s, cy) -> a1 = blit a k s ->
  let sd := (length d + k)%nat in
  let '(a2, cy2) :=
    if (0 <? length a - sd)%nat
    then let '(s, carry) := bn_sub1_low (skipn sd a1) cy in (blit a1 sd s, carry)
    else (a1, cy) in
  val a2 = val a - Bp k * val d + Bp (length a) * cy2 /\ digs a2 /\ length a2 = length a /\
  0 <= cy2 <= 1.
Proof.
  intros Ha Hd HL E -> sd.
  apply subn_loop_ok in E as (E & Ds & Ls & Hcy); auto with digits; try lia; [|lens].
  rewrite length_firstn, length_skipn in *.
  assert (Ls' : length s = length d) by lia.
  assert (V1 : val (blit a k s) = val a - Bp k * val d + Bp sd * cy).
  { rewrite val_blit, Ls', E by lia. subst sd. rewrite Nat.min_l, (Nat.add_comm _ k), Bp_add by lia. ring. }
  assert (L1 : length (blit a k s) = length a) by (apply length_blit; lia).
  assert (D1 : digs (blit a k s)) by auto with digits.
  set (a1 := blit a k s) in *. clearbody a1.
  destruct (Nat.ltb_spec 0 (length a - sd)) as [Hs|Hs].
  - destruct (bn_sub1_low (skipn sd a1) cy) as [s2 cy2] eqn:E2.
    assert (Dcy : dig cy) by (unfold dig; pose proof B_gt; lia).
    apply bn_sub1_low_ok in E2 as (E2 & Ds2 & Ls2 & Hcy2); auto with digits.
    rewrite length_skipn in *.
    pose proof (val_bound _ Ds2) as Hb2. pose proof (val_bound (skipn sd a1) ltac:(auto with digits)) as Hb1.
    rewrite length_skipn in Hb1. rewrite Ls2 in Hb2.
    pose proof (Bp_pos (length a1 - sd)).
    repeat split; auto with digits; try (rewrite length_blit; lia); unfold dig in *; try nia.
    rewrite val_blit, V1, firstn_all2 by lens.
    replace (length a) with (sd + (length a1 - sd))%nat by lia. rewrite Bp_add.
    apply (f_equal (Z.mul (Bp sd))) in E2. lia.
  - replace (length a) with sd by lia. repeat split; auto; lia.
Qed.

(** Add [b] back at [k]; the carry out of the vector is dropped. *)
Lemma add_at a k b : digs a -> digs b -> (k + length b <= length a)%nat ->
  let sb := length b in
  let sd := (sb + k)%nat in
  let '(s, carry) := bn_addn_low (firstn sb (skipn k a)) b in
  let a1 := blit a k s in
  let '(s2, _) := bn_add1_low (skipn sd a1) carry in
  let a2 := blit a1 sd s2 in
  digs a2 /\ length a2 = length a /\ exists cy, 
  val a2 + Bp (length a) * cy = val a + Bp k * val b.
Proof.
  intros Ha Hb HL sb sd. assert (Esb : sb = length b) by reflexivity. clearbody sb.
  destruct (bn_addn_low (firstn sb (skipn k a)) b) as [s cy] eqn:E.
  apply addn_loop_ok in E as (E & Ds & Ls & Hcy); auto with digits; try lia; [|lens].
  rewrite length_firstn, length_skipn, Nat.min_l in * by lia.
  assert (V1 : val (blit a k s) + Bp sd * cy = val a + Bp k * val b).
  { rewrite val_blit, Ls by lia. subst sd. rewrite (Nat.add_comm _ k), Bp_add.
    apply (f_equal (Z.mul (Bp k))) in E. lia. }
  assert (L1 : length (blit a k s) = length a) by (apply length_blit; lia).
  assert (D1 : digs (blit a k s)) by auto with digits.
  cbv zeta. set (a1 := blit a k s) in *. clearbody a1.
  destruct (bn_add1_low (skipn sd a1) cy) as [s2 cy2] eqn:E2.
  apply bn_add1_low_ok in E2 as (E2 & Ds2 & Ls2 & Hcy2); auto with digits;
    [|unfold dig; pose proof B_gt; lia].
  rewrite length_skipn in *.
  split; [auto with digits|]. split; [rewrite length_blit; lia|]. exists cy2.
  rewrite val_blit, firstn_all2 by lens.
  replace (length a) with (sd + (length a1 - sd))%nat by lia. rewrite Bp_add.
  apply (f_equal (Z.mul (Bp sd))) in E2. lia.
Qed.

(** ** The estimate of a quotient digit *)

Section Estimate.
(** Dividend [A], divisor [V] with leading digit [bt] of weight [T], and the
    weight [K] of the quotient digit sought. *)
Variables A V T K : Z.
Hypotheses (HT : 0 < T) (HK : 0 < K) (HA : 0 <= A < V * K * B).
Let bt := V / T.
Hypothesis Hbt : B <= 4 * bt.
Let q := A / (V * K).

Lemma estimate_V : bt * T <= V < (bt + 1) * T /\ 0 < bt /\ 0 < V.
Proof using HT HK HA Hbt.
  pose proof B_gt. pose proof (Z.div_mod V T ltac:(lia)) as E. fold bt in E.
  pose proof (Z.mod_pos_bound V T HT). nia.
Qed.

Lemma estimate_q : q * (V * K) <= A < (q + 1) * (V * K) /\ 0 <= q < B.
Proof using HT HK HA Hbt.
  destruct estimate_V as (? & ? & HV). assert (HVK : 0 < V * K) by nia.
  pose proof (Z.div_mod A (V * K) ltac:(lia)) as E. fold q in E.
  pose proof (Z.mod_pos_bound A (V * K) HVK).
  split; [nia|]. split; [apply Z.div_pos; lia|apply Z.div_lt_upper_bound; nia].
Qed.

Lemma estimate_upper qh : qh * bt <= A / (T * K) -> qh <= q + 4.
Proof using HT HK HA Hbt.
  intros H. destruct estimate_V as (HV & Hb & _), estimate_q as (Hq & Hqb).
  assert (HTK : 0 < T * K) by nia.
  pose proof (Z.mul_div_le A (T * K) HTK).
  assert (qh * bt * (T * K) < (q + 1) * (V * K)) by nia.
  assert (qh * bt * T < (q + 1) * V) by nia.
  assert (qh * bt * T < (q + 1) * ((bt + 1) * T)) by nia.
  assert (qh * bt < (q + 1) * (bt + 1)) by nia.
  nia.
Qed.

Lemma estimate_lower2 : q * bt <= A / (T * K).
Proof using HT HK HA Hbt.
  destruct estimate_V as (HV & Hb & _), estimate_q as (Hq & Hqb).
  apply Z.div_le_lower_bound; nia.
Qed.

Lemma estimate_lower3 : q * (V * B / T) <= A * B / (T * K).
Proof using HT HK HA Hbt.
  destruct estimate_V as (HV & Hb & _), estimate_q as (Hq & Hqb). pose proof B_gt.
  pose proof (Z.mul_div_le (V * B) T HT) as H1.
  apply Z.div_le_lower_bound; [nia|].
  assert (H2 : (q * K) * (T * (V * B / T)) <= (q * K) * (V * B)) by (apply Z.mul_le_mono_nonneg_l; nia).
  assert (H3 : B * (q * (V * K)) <= B * A) by (apply Z.mul_le_mono_nonneg_l; lia). lia.
Qed.

Lemma estimate_test q' : 0 <= q' < B -> q' * (V * B / T) <= A * B / (T * K) -> q' <= q + 1.
Proof using HT HK HA Hbt.
  intros Hq' H. destruct estimate_V as (HV & Hb & HVp), estimate_q as (Hq & Hqb).
  pose proof B_gt as HB. assert (HTK : 0 < T * K) by nia.
  pose proof (Z.mul_div_le (A * B) (T * K) HTK) as H1.
  pose proof (Z.div_mod (V * B) T ltac:(lia)) as H2.
  pose proof (Z.mod_pos_bound (V * B) T HT) as H3.
  set (b2 := V * B / T) in *.
  assert (H4 : q' * b2 * (T * K) <= A * B) by nia.
  assert (H5 : q' * (b2 * T) * K < ((q + 1) * V * B) * K) by nia.
  assert (H6 : q' * (b2 * T) < (q + 1) * V * B) by nia.
  assert (H7 : q' * (V * B - T) <= q' * (b2 * T)) by (apply Z.mul_le_mono_nonneg_l; lia).
  destruct (Z.le_gt_cases q' (q + 1)) as [|Hgt]; [assumption|].
  assert (HVB : 0 <= V * B) by (apply Z.mul_nonneg_nonneg; lia).
  assert ((q + 2) * (V * B) <= q' * (V * B)) by (apply Z.mul_le_mono_nonneg_r; lia).
  assert (H8 : V * B < q' * T) by lia.
  assert (H9 : q' * T <= B * V) by (apply Z.mul_le_mono_nonneg; nia). lia.
Qed.
End Estimate.

(** The loop stops at the first acceptable value below the estimate. *)
Lemma divn_estimate_ok b1 b0 t2 q : dig b1 -> dig b0 -> digs t2 -> length t2 = 3%nat ->
  0 <= q -> q * (b0 + B * b1) <= val t2 ->
  forall fuel qh, q <= qh < q + Z.of_nat fuel -> qh < B ->
  let q' := divn_estimate fuel b1 b0 t2 (dadd qh 1) in
  q <= q' <= qh /\ q' * (b0 + B * b1) <= val t2.
Proof.
  intros Hb1 Hb0 Ht2 HL Hq Hle. pose proof B_gt as HB.
  induction fuel as [|fuel IH]; intros qh Hqh HqB; [lia|]. cbn [divn_estimate].
  assert (E : dsub (dadd qh 1) 1 = qh).
  { unfold dsub, dadd. rewrite Zminus_mod_idemp_l, Z.add_simpl_r. apply Z.mod_small; lia. }
  rewrite E. destruct (bn_mul1_low [b0; b1] qh) as [t1 cy] eqn:Em.
  apply mul1_loop_ok in Em as (Em & Dt1 & Lt1 & Dcy); auto with digits; [|unfold dig; lia].
  rewrite dv_cmp_ok by (try rewrite length_app, Lt1, HL; auto with digits).
  assert (Ev : val (t1 ++ [cy]) = qh * (b0 + B * b1)).
  { rewrite val_app, Lt1. cbn [val length] in *. lia. }
  rewrite cmpZ_gt, Ev. destruct (Z.ltb_spec (val t2) (qh * (b0 + B * b1))) as [Hgt|Hok]; [|lia].
  assert (Hne : q <> qh) by lia.
  specialize (IH (qh - 1)). replace (dadd (qh - 1) 1) with qh in IH
    by (unfold dadd; rewrite Z.sub_add, Z.mod_small; lia).
  destruct IH as [IH1 IH2]; lia.
Qed.

(** ** One quotient digit *)

(** The digit found by estimate and test is the quotient digit or one more. *)
Lemma divn_guess_ok i t a b : digs a -> digs b -> length b = S t -> (t < i < length a)%nat ->
  B <= 4 * nth t b 0 -> val a < val b * Bp (i - t) ->
  let ai := nth i a 0 in
  let bt := nth t b 0 in
  let q0 := if ai =? bt then RLC_MASK RLC_DIG else fst (RLC_DIV_DIG ai (nth (i - 1) a 0) bt) in
  let b0 := if (t =? 0)%nat then 0 else nth (t - 1) b 0 in
  let a2 := if (i <? 2)%nat then 0 else nth (i - 2) a 0 in
  let q := val a / (val b * Bp (i - t - 1)) in
  let q' := divn_estimate 6 bt b0 [a2; nth (i - 1) a 0; ai] (dadd q0 1) in
  q <= q' <= q + 1 /\ dig q'.
Proof.
  intros Ha Hb HLb Hi Hbt HA ai bt q0 b0 a2 q q'. pose proof B_gt as HB.
  set (k := (i - t - 1)%nat) in *. assert (Ei : i = S (t + k)) by lia.
  pose proof (val_bound b Hb) as HVb. rewrite HLb in HVb. pose proof (val_bound a Ha) as HAb.
  assert (Ebt : bt = val b / Bp t) by (apply top_digit; auto; lia).
  assert (HT := Bp_pos t). assert (HK := Bp_pos k).
  assert (HA' : 0 <= val a < val b * Bp k * B).
  { replace (i - t)%nat with (S k) in HA by lia. rewrite Bp_S in HA. lia. }
  assert (HAi : val a < Bp (S i)).
  { replace (S i) with (S t + S k)%nat by lia. rewrite Bp_add, (Bp_S k). nia. }
  assert (Eai : ai = val a / Bp i) by (apply top_digit; auto).
  assert (Ea1 : nth (i - 1) a 0 + B * ai = val a / (Bp t * Bp k)).
  { rewrite <- Bp_add. replace (t + k)%nat with (i - 1)%nat by lia.
    rewrite next_digit, Eai by auto. replace (S (i - 1)) with i by lia. reflexivity. }
  assert (Et3 : val [a2; nth (i - 1) a 0; ai] = val a * B / (Bp t * Bp k)).
  { cbn [val]. rewrite Z.mul_0_r, Z.add_0_r, Ea1, <- Bp_add. subst a2.
    destruct (Nat.ltb_spec i 2).
    - assert (t = 0 /\ k = 0)%nat as [-> ->] by lia. cbn [Nat.add]. rewrite Bp_0, !Z.div_1_r. lia.
    - assert (E1 : Bp (t + k) = Bp (i - 2) * B)
        by (replace (t + k)%nat with (S (i - 2)) by lia; rewrite Bp_S; lia).
      rewrite E1, Z.div_mul_cancel_r by (pose proof (Bp_pos (i - 2)); lia).
      rewrite (next_digit a (i - 2)), Bp_S, (Z.mul_comm B (Bp (i - 2))) by auto. reflexivity. }
  assert (Eb2 : b0 + B * bt = val b * B / Bp t).
  { subst b0. destruct (Nat.eqb_spec t 0) as [Et|Et].
    - rewrite Ebt, Et, Bp_0, !Z.div_1_r. lia.
    - assert (E1 : Bp t = Bp (t - 1) * B)
        by (replace t with (S (t - 1)) at 1 by lia; rewrite Bp_S; lia).
      rewrite E1, Z.div_mul_cancel_r by (pose proof (Bp_pos (t - 1)); lia).
      rewrite (next_digit b (t - 1)), Ebt by auto. replace (S (t - 1)) with t by lia. reflexivity. }
  assert (Hai : 0 <= ai <= bt).
  { rewrite Eai. split; [apply Z.div_pos; [lia|apply Bp_pos]|].
    assert (val a / Bp i < bt + 1); [|lia]. apply Z.div_lt_upper_bound; [apply Bp_pos|].
    rewrite Ei, Bp_S, Bp_add. pose proof (Z.mul_succ_div_gt (val b) (Bp t) HT). rewrite <- Ebt in *. nia. }
  assert (Dbt : dig bt) by (apply digs_nth; auto).
  pose proof (digs_nth a (i - 1) Ha) as D1.
  assert (Hq0 : q0 * bt <= val a / (Bp t * Bp k) /\ dig q0 /\
                (ai = bt /\ q0 = B - 1 \/ val a / (Bp t * Bp k) < (q0 + 1) * bt)).
  { subst q0. rewrite <- Ea1. unfold dig in *. destruct (Z.eqb_spec ai bt) as [Eab|Nab].
    - change (RLC_MASK RLC_DIG) with (B - 1). split; [nia|]. split; [lia|]. left; auto.
    - destruct (RLC_DIV_DIG _ _ _) as [qd rd] eqn:E.
      apply RLC_DIV_DIG_spec in E as (E & Hr & Hqd); unfold dig in *; try lia. cbn [fst]. nia. }
  destruct Hq0 as (Hq0 & Dq0 & Hq0').
  change (B <= 4 * bt) in Hbt. rewrite Ebt in Hbt. unfold dig in *.
  destruct (estimate_q (val a) (val b) (Bp t) (Bp k) HT HK HA' Hbt) as [_ HqB].
  pose proof (estimate_upper (val a) (val b) (Bp t) (Bp k) HT HK HA' Hbt q0) as Hup.
  rewrite <- Ebt in Hup. specialize (Hup Hq0).
  pose proof (estimate_lower2 (val a) (val b) (Bp t) (Bp k) HT HK HA' Hbt) as Hl2.
  rewrite <- Ebt in Hl2.
  pose proof (estimate_lower3 (val a) (val b) (Bp t) (Bp k) HT HK HA' Hbt) as Hl3.
  fold q in HqB, Hup, Hl2, Hl3.
  assert (Hle : q <= q0).
  { destruct Hq0' as [[_ ->]|Hq0']; [lia|].
    assert (q < q0 + 1); [|lia]. apply (Z.mul_lt_mono_pos_r bt); [|lia]. rewrite Ebt; lia. }
  destruct (divn_estimate_ok bt b0 [a2; nth (i - 1) a 0; ai] q) with (fuel := 6%nat) (qh := q0)
    as [Hr1 Hr2]; auto; try lia.
  - unfold dig, b0. destruct (t =? 0)%nat; [lia|]. apply digs_nth; auto.
  - unfold a2. destruct (i <? 2)%nat; repeat apply digs_cons; unfold ai; auto with digits.
  - fold q' in Hr1, Hr2. rewrite Et3, Eb2 in Hr2.
    pose proof (estimate_test (val a) (val b) (Bp t) (Bp k) HT HK HA' Hbt q') as Hte.
    fold q in Hte. specialize (Hte ltac:(lia) Hr2). lia.
Qed.

Lemma divn_digit_ok i t a b a' q : digs a -> digs b -> length b = S t -> (t < i < length a)%nat ->
  B <= 4 * nth t b 0 -> val a < val b * Bp (i - t) -> divn_digit i t a b = (a', q) ->
  q = val a / (val b * Bp (i - t - 1)) /\ val a' = val a mod (val b * Bp (i - t - 1)) /\
  digs a' /\ length a' = length a /\ dig q.
Proof.
  intros Ha Hb HLb Hi Hbt HA H. pose proof B_gt as HB.
  pose proof (divn_guess_ok i t a b Ha Hb HLb Hi Hbt HA) as Hg.
  unfold divn_digit in H. cbv zeta in Hg, H.
  set (k := (i - t - 1)%nat) in *.
  set (q' := divn_estimate 6 _ _ _ _) in *. clearbody q'. destruct Hg as [Hg Dq'].
  pose proof (val_bound b Hb) as HVb. pose proof (val_bound a Ha) as HAb.
  assert (HV : 0 < val b).
  { assert (E : nth t b 0 = val b / Bp t) by (apply top_digit; auto; rewrite <- HLb; lia).
    rewrite E in Hbt. destruct (Z.eq_dec (val b) 0) as [E0|]; [|lia].
    rewrite E0, Z.div_0_l in Hbt by (pose proof (Bp_pos t); lia). lia. }
  assert (HK := Bp_pos k). set (W := val b * Bp k) in *. assert (HW : 0 < W) by (subst W; nia).
  pose proof (Z.div_mod (val a) W ltac:(lia)) as Ediv. pose proof (Z.mod_pos_bound (val a) W HW) as Hmod.
  assert (Hq0 : 0 <= val a / W) by (apply Z.div_pos; lia).
  set (q0 := val a / W) in *. set (r0 := val a mod W) in *.
  assert (Hr0 : r0 <= val a) by nia.
  destruct (bn_mul1_low b q') as [d cy] eqn:Em.
  apply mul1_loop_ok in Em as (Em & Dd & Ld & Hcy); auto with digits. unfold dig in Hcy.
  set (d' := if cy =? 0 then d else d ++ [cy]) in *.
  assert (Vd : val d' = val b * q' /\ digs d' /\ (length d' <= S (S t))%nat).
  { subst d'. destruct (Z.eqb_spec cy 0) as [->|].
    - repeat split; auto; lia.
    - rewrite val_app, length_app, Ld. cbn [val length]. repeat split; auto with digits; lia. }
  clearbody d'. destruct Vd as (Vd & Dd' & Ld').
  destruct (bn_subn_low (firstn (length d') (skipn k a)) d') as [s cys] eqn:Es.
  pose proof (sub_at a k d' s cys _ Ha Dd' ltac:(lia) Es eq_refl) as Hsub. cbv zeta in Hsub.
  destruct (if (0 <? _)%nat then _ else _) as [a2 cy2]. destruct Hsub as (E2 & D2 & L2 & Hcy2).
  rewrite Vd in E2. pose proof (val_bound a2 D2) as HA2. rewrite L2 in HA2.
  pose proof (add_at a2 k b D2 Hb ltac:(lia)) as Hadd. cbv zeta in Hadd.
  destruct (bn_addn_low _ b) as [s1 c1]. destruct (bn_add1_low _ c1) as [s2 c2].
  destruct Hadd as (D3 & L3 & cy3 & E3).
  pose proof (val_bound _ D3) as HA3. rewrite L3, L2 in HA3. rewrite L2 in L3, E3.
  assert (Eq : Bp k * (val b * q') = W * q') by (subst W; ring).
  assert (Eb : Bp k * val b = W) by (subst W; ring).
  rewrite Eq in E2. rewrite Eb in E3. set (P := Bp (length a)) in *. clearbody q0 r0 P W.
  unfold dig in *.
  destruct (Z.eqb_spec cy2 0) as [->|Hn]; apply pair_equal_spec in H as [<- <-].
  - assert (q' = q0) by nia. subst q'. repeat split; auto; lia.
  - assert (cy2 = 1) by lia. subst cy2.
    assert (q' = q0 + 1) by nia. subst q'.
    assert (Eq' : dsub (q0 + 1) 1 = q0).
    { unfold dsub. unfold dig in *. rewrite Z.add_simpl_r. apply Z.mod_small. nia. }
    rewrite Eq'. repeat split; auto; try lia.
    + assert (val a2 + W = r0 + P) by lia.
      assert (cy3 = 1) by nia. subst cy3. lia.
Qed.

(** ** The whole division *)

Lemma divn_loop_ok t b : digs b -> length b = S t -> B <= 4 * nth t b 0 -> 0 < val b ->
  forall cnt a a' qs, digs a -> (t + cnt < length a)%nat -> val a < val b * Bp cnt ->
  divn_loop cnt t a b = (a', qs) ->
  val qs = val a / val b /\ val a' = val a mod val b /\ digs a' /\ length a' = length a /\
  digs qs /\ length qs = cnt.
Proof.
  intros Hb HLb Hbt HV. induction cnt as [|cnt IH]; intros a a' qs Ha Hl HA H; cbn [divn_loop] in H.
  - apply pair_equal_spec in H as [<- <-]. rewrite Bp_0 in HA. pose proof (val_bound a Ha).
    rewrite Z.div_small, Z.mod_small by lia. repeat split; auto with digits.
  - destruct (divn_digit _ _ _ _) as [a1 q] eqn:E.
    replace (t + S cnt - t)%nat with (S cnt) in E by lia.
    apply divn_digit_ok in E as (Eq & Er & D1 & L1 & Dq); auto; try lia.
    2: { replace (t + S cnt - t)%nat with (S cnt) by lia. exact HA. }
    replace (t + S cnt - t - 1)%nat with cnt in Eq, Er by lia.
    destruct (divn_loop cnt t a1 b) as [a2 qs'] eqn:E2. apply pair_equal_spec in H as [<- <-].
    pose proof (Bp_pos cnt) as HK.
    pose proof (Z.div_mod (val a) (val b * Bp cnt) ltac:(nia)) as Ed.
    pose proof (Z.mod_pos_bound (val a) (val b * Bp cnt) ltac:(nia)) as Hm.
    rewrite <- Eq, <- Er in Ed. rewrite <- Er in Hm.
    apply IH in E2 as (Eq2 & Er2 & D2 & L2 & Dqs & Lqs); auto; try lia.
    rewrite val_app, Lqs, length_app, Lqs. cbn [val length].
    pose proof (Z.div_mod (val a1) (val b) ltac:(lia)) as Ed2. rewrite <- Eq2, <- Er2 in Ed2.
    pose proof (Z.mod_pos_bound (val a1) (val b) HV) as Hm2. rewrite <- Er2 in Hm2.
    repeat split; auto with digits; try lia.
    + apply Z.div_unique with (val a2); nia.
    + apply Z.mod_unique with (val qs' + Bp cnt * q); nia.
Qed.

Lemma divn_top_ok b : digs b -> forall fuel a q a' q', digs a -> length a = length b ->
  0 <= q -> val a < val b * Z.of_nat fuel -> q + Z.of_nat fuel < B -> divn_top fuel a b q = (a', q') ->
  val a = (q' - q) * val b + val a' /\ val a' < val b /\ digs a' /\ length a' = length a /\
  q <= q' < q + Z.of_nat fuel.
Proof.
  intros Hb. induction fuel as [|fuel IH]; intros a q a' q' Ha HL Hq HA HqB H; cbn [divn_top] in H.
  - pose proof (val_bound a Ha). lia.
  - rewrite dv_cmp_ok, cmpZ_lt in H by auto.
    destruct (Z.ltb_spec (val a) (val b)) as [Hlt|Hge].
    + apply pair_equal_spec in H as [<- <-]. repeat split; auto; lia.
    + destruct (bn_subn_low a b) as [c cy] eqn:E. cbn [fst] in H.
      apply subn_loop_ok in E as (E & Dc & Lc & Hcy); auto; [|lia].
      pose proof (val_bound c Dc) as Hbc. pose proof (val_bound a Ha) as Hba. rewrite Lc in Hbc.
      pose proof (val_bound b Hb) as Hbb.
      assert (cy = 0) by nia. subst cy.
      replace (dadd q 1) with (q + 1) in H by (symmetry; apply Z.mod_small; lia).
      rewrite Nat2Z.inj_succ in *.
      apply IH in H as (E' & Hlt' & D' & L' & Hq'); auto; try lia.
      repeat split; auto; lia.
Qed.

(** Normalisation: the divisor scaled by [2 ^ norm] has a 63-bit leading digit. *)
Lemma divn_norm_ok b : digs b -> (1 <= length b)%nat -> nth (length b - 1) b 0 <> 0 ->
  let n0 := util_bits_dig (nth (length b - 1) b 0) mod RLC_DIG in
  let norm := if n0 <? RLC_DIG - 1 then RLC_DIG - 1 - n0 else 0 in
  0 <= norm < 64 /\
  (norm = 0 -> n0 = 63) /\
  exists j, (length b - 1 <= j <= length b)%nat /\
    Bp j * B <= 4 * (val b * 2 ^ norm) /\ 2 * (val b * 2 ^ norm) < Bp j * B.
Proof.
  intros Hb HL Hnz n0 norm. unfold RLC_DIG in *. pose proof B_gt.
  assert (Dtop : dig (nth (length b - 1) b 0)) by (apply digs_nth; auto).
  assert (Etop : nth (length b - 1) b 0 = val b / Bp (length b - 1)).
  { apply top_digit; auto. replace (S (length b - 1)) with (length b) by lia. apply val_bound; auto. }
  set (top := nth (length b - 1) b 0) in *. unfold dig in Dtop.
  set (P := Bp (length b - 1)) in *. assert (HP : 0 < P) by apply Bp_pos.
  assert (Hv : top * P <= val b < (top + 1) * P).
  { pose proof (Z.div_mod (val b) P ltac:(lia)). pose proof (Z.mod_pos_bound (val b) P HP).
    rewrite <- Etop in *. nia. }
  clearbody top.
  assert (Hlog : 2 ^ Z.log2 top <= top < 2 ^ Z.succ (Z.log2 top)) by (apply Z.log2_spec; lia).
  assert (Hl0 : 0 <= Z.log2 top) by apply Z.log2_nonneg.
  assert (Hl1 : Z.log2 top < 64) by (apply Z.log2_lt_pow2; [lia|]; rewrite <- B_pow2; lia).
  assert (Ebits : util_bits_dig top = Z.log2 top + 1).
  { unfold util_bits_dig, arch_lzcnt, RLC_DIG. destruct (Z.eqb_spec top 0); lia. }
  set (l := Z.log2 top) in *. clearbody l.
  assert (En : l = 63 /\ n0 = 0 \/ l < 63 /\ n0 = l + 1).
  { subst n0. rewrite Ebits. destruct (Z.eq_dec l 63) as [->|]; [left; split; reflexivity|].
    right. split; [lia|]. apply Z.mod_small; lia. }
  assert (EPB : Bp (length b) = B * P).
  { subst P. rewrite <- Bp_S. f_equal. lia. }
  assert (Hs : norm = if l =? 63 then 63 else 62 - l).
  { subst norm. destruct En as [[-> ->]|[Hl ->]]; [reflexivity|].
    destruct (Z.eqb_spec l 63); [lia|]. destruct (Z.ltb_spec (l + 1) (64 - 1)); lia. }
  clearbody norm n0.
  destruct (Z.eqb_spec l 63) as [Hl|Hl].
  - subst l norm. split; [lia|]. split; [lia|].
    exists (length b). split; [lia|]. rewrite EPB, B_pow2 in *.
    change (2 ^ Z.succ 63) with (2 ^ 64) in *.
    assert (2 ^ 63 * P <= val b < 2 ^ 64 * P) by nia. lia.
  - split; [lia|]. split; [intros; lia|]. exists (length b - 1)%nat. split; [lia|]. fold P.
    assert (E62 : 2 ^ l * 2 ^ norm = 2 ^ 62) by (rewrite <- Z.pow_add_r by lia; f_equal; lia).
    rewrite Z.pow_succ_r in Hlog by lia.
    assert (HB62 : B = 4 * 2 ^ 62) by reflexivity. rewrite HB62, <- E62.
    assert (0 < 2 ^ norm) by (apply Z.pow_pos_nonneg; lia). nia.
Qed.

(** A left shift with the carry appended when there is one. *)
Lemma lshb_append a norm c cy : digs a -> 0 < norm < 64 -> bn_lshb_low a norm = (c, cy) ->
  let a1 := if cy =? 0 then c else c ++ [cy] in
  val a1 = val a * 2 ^ norm /\ digs a1 /\ (length a <= length a1 <= S (length a))%nat /\
  ((length a < length a1)%nat -> Bp (length a) <= val a1).
Proof.
  intros Ha Hn E. apply bn_lshb_low_ok in E as (E & Dc & Lc & Hcy); auto.
  assert (dig cy).
  { unfold dig. pose proof (Z.pow_lt_mono_r 2 norm 64 ltac:(lia) ltac:(lia) ltac:(lia)).
    rewrite <- B_pow2 in *. lia. }
  cbv zeta. destruct (Z.eqb_spec cy 0) as [->|Hn0].
  - repeat split; auto; lia.
  - pose proof (Bp_pos (length a)). pose proof (val_bound c Dc).
    rewrite val_app, length_app, Lc. cbn [val length]. repeat split; auto with digits; nia.
Qed.

(** Dividing with a normalised divisor, as the code does after scaling. *)
Lemma divn_core a b j a1 top a2 qs : digs a -> digs b -> length b = S j -> (S j <= length a)%nat ->
  Bp j * B <= 4 * val b ->
  divn_top 5 a (repeat 0 (length a - 1 - j) ++ b) 0 = (a1, top) ->
  divn_loop (length a - 1 - j) j a1 b = (a2, qs) ->
  val (qs ++ [top; 0]) = val a / val b /\ val a2 = val a mod val b /\
  digs (qs ++ [top; 0]) /\ digs a2 /\
  length qs = (length a - 1 - j)%nat /\ length a2 = length a.
Proof.
  intros Ha Hb HLb HL Hbj E1 E2. set (k := (length a - 1 - j)%nat) in *.
  pose proof (Bp_pos j) as HJ. pose proof (Bp_pos k) as HK. pose proof (val_bound a Ha) as Hba.
  pose proof (val_bound b Hb) as Hbb. rewrite HLb, Bp_S in Hbb.
  assert (HB4 : B = 4 * 2 ^ 62) by reflexivity. assert (HV : 0 < val b) by nia.
  assert (Vs : val (repeat 0 k ++ b) = val b * Bp k).
  { rewrite val_app, val_repeat0, repeat_length. lia. }
  apply divn_top_ok in E1 as (Et & Hlt & D1 & L1 & Htop); auto with digits; try lia.
  - rewrite Vs, Z.sub_0_r in *.
    assert (Hbt : B <= 4 * nth j b 0).
    { rewrite top_digit by (auto; rewrite Bp_S; lia).
      assert (2 ^ 62 <= val b / Bp j) by (apply Z.div_le_lower_bound; nia). lia. }
    apply divn_loop_ok in E2 as (Eq & Er & D2 & L2 & Dq & Lq); auto; try lia.
    pose proof (Z.div_mod (val a1) (val b) ltac:(lia)) as Ed. rewrite <- Eq, <- Er in Ed.
    pose proof (Z.mod_pos_bound (val a1) (val b) HV) as Hm. rewrite <- Er in Hm.
    assert (Ev : val (qs ++ [top; 0]) = val qs + Bp k * top).
    { rewrite val_app, Lq. cbn [val]. lia. }
    repeat split; auto; try lia.
    + rewrite Ev. apply Z.div_unique with (val a2); nia.
    + apply Z.mod_unique with (val qs + Bp k * top); nia.
    + apply digs_app; auto. repeat apply digs_cons; auto with digits. unfold dig; lia.
  - rewrite length_app, repeat_length. lia.
  - rewrite Vs. replace (length a) with (k + S j)%nat in Hba by lia. rewrite Bp_add, Bp_S in Hba.
    change (Z.of_nat 5) with 5. nia.
Qed.

Lemma bn_divn_low_ok a b q r : digs a -> digs b -> (1 <= length b <= length a)%nat ->
  nth (length b - 1) b 0 <> 0 -> val b <= val a -> bn_divn_low a b = (q, r) ->
  val q = val a / val b /\ val r = val a mod val b /\ digs q /\ digs r /\
  length q = (length a - length b + 1)%nat /\ length r = length b.
Proof.
  intros Ha Hb HL Hnz Hle H. pose proof B_gt as HB.
  destruct (divn_norm_ok b Hb ltac:(lia) Hnz) as (Hnorm & Hnorm0 & j & Hj & Hlo & Hhi).
  set (n0 := util_bits_dig _ mod RLC_DIG) in *.
  set (norm := if n0 <? RLC_DIG - 1 then _ else 0) in *.
  assert (G : exists a1 b1, val a1 = val a * 2 ^ norm /\ digs a1 /\
    (length a <= length a1 <= S (length a))%nat /\ val b1 = val b * 2 ^ norm /\ digs b1 /\
    (length b <= length b1 <= S (length b))%nat /\ ((length b < length b1)%nat -> Bp (length b) <= val b1) /\
    (let n := (length a1 - 1)%nat in let t := (length b1 - 1)%nat in
     let '(a2, top) := divn_top 5 a1 (repeat 0 (n - t) ++ b1) 0 in
     let '(a2, qs) := divn_loop (n - t) t a2 b1 in
     (firstn (length a - length b + 1) (qs ++ [top; 0]),
      firstn (length b) (fst (bn_rshb_low (firstn (length b1) a2) norm)))) = (q, r)).
  { unfold bn_divn_low in H. cbv zeta in H. fold n0 in H. subst norm.
    destruct (n0 <? RLC_DIG - 1) eqn:En.
    - destruct (bn_lshb_low a _) as [ca cya] eqn:Ea. destruct (bn_lshb_low b _) as [cb cyb] eqn:Eb.
      assert (Hn63 : 0 < RLC_DIG - 1 - n0 < 64).
      { destruct (Z.eq_dec (RLC_DIG - 1 - n0) 0) as [E0|]; [|lia].
        apply Z.ltb_lt in En. lia. }
      apply lshb_append in Ea as (V1 & D1 & L1 & _); auto.
      apply lshb_append in Eb as (V2 & D2 & L2 & G2); auto.
      eexists _, _. repeat split; eauto; lia.
    - exists a, b. change (2 ^ 0) with 1. repeat split; auto; lia. }
  destruct G as (a1 & b1 & Va & Da & La & Vb & Db & Lb & Hg & G). clear H. cbv zeta in G.
  assert (HN : 0 < 2 ^ norm) by (apply Z.pow_pos_nonneg; lia).
  pose proof (val_bound b1 Db) as Hb1. pose proof (val_bound a1 Da) as Ha1. rewrite <- Vb in Hlo, Hhi.
  pose proof (Bp_pos j) as HJ.
  assert (Ej : length b1 = S j).
  { destruct (Nat.eq_dec (length b1) (length b)) as [E|E].
    - rewrite E in *. destruct (Nat.eq_dec j (length b)) as [->|]; [|lia].
      assert (B > 4) by reflexivity. nia.
    - destruct (Nat.eq_dec j (length b)) as [->|]; [lia|].
      specialize (Hg ltac:(lia)). replace (length b) with (S j) in Hg by lia. rewrite Bp_S in Hg. nia. }
  assert (HVb : 0 < val b) by nia.
  assert (Hla : (S j <= length a1)%nat).
  { apply Bp_lt_inv. apply Z.le_lt_trans with (val a1); [|lia].
    assert (val b1 <= val a1) by (rewrite Va, Vb; apply Z.mul_le_mono_nonneg_r; lia).
    assert (B >= 4) by discriminate. nia. }
  rewrite Ej in G. replace (S j - 1)%nat with j in G by lia.
  destruct (divn_top _ _ _ _) as [a2 top] eqn:E1. destruct (divn_loop _ _ _ _) as [a3 qs] eqn:E2.
  eapply divn_core in E2 as (Vq & Vr & Dq & Dr & Lq & Lr); eauto.
  rewrite Va, Vb, Z.div_mul_cancel_r in Vq by lia.
  rewrite Va, Vb, Z.mul_mod_distr_r in Vr by lia.
  apply pair_equal_spec in G as [<- <-].
  pose proof (Z.mod_pos_bound (val a) (val b) HVb) as Hmod.
  pose proof (val_bound a Ha) as Hba. pose proof (val_bound b Hb) as Hbb.
  destruct (firstn_small (length a - length b + 1) (qs ++ [top; 0])) as (F1 & F2 & F3); auto.
  { rewrite length_app. cbn [length]. lia. }
  { rewrite Vq. apply Z.div_lt_upper_bound; [lia|].
    assert (E : Bp (length a) = Bp (length b - 1) * Bp (length a - length b + 1))
      by (rewrite <- Bp_add; f_equal; lia).
    assert (Ht : nth (length b - 1) b 0 = val b / Bp (length b - 1)).
    { apply top_digit; auto. replace (S (length b - 1)) with (length b) by lia. lia. }
    assert (Bp (length b - 1) <= val b).
    { destruct (Z.lt_ge_cases (val b) (Bp (length b - 1))); [|lia].
      rewrite Z.div_small in Ht by lia. lia. }
    pose proof (Bp_pos (length a - length b + 1)). rewrite E in Hba.
    apply Z.lt_le_trans with (1 := proj2 Hba). apply Z.mul_le_mono_nonneg_r; lia. }
  assert (Hr : val a3 < Bp (length b1)).
  { apply Z.lt_trans with (val b1); [|lia]. rewrite Vr, Vb. apply Z.mul_lt_mono_pos_r; lia. }
  destruct (firstn_small (S j) a3) as (F4 & F5 & F6); auto; [lia|rewrite <- Ej; exact Hr|].
  assert (Hsh : val (fst (bn_rshb_low (firstn (S j) a3) norm)) = val a mod val b /\
    digs (fst (bn_rshb_low (firstn (S j) a3) norm)) /\
    length (fst (bn_rshb_low (firstn (S j) a3) norm)) = S j).
  { destruct (Z.eq_dec norm 0) as [E0|E0].
    - rewrite E0 in *. rewrite bn_rshb_low_0 by auto. repeat split; auto. rewrite F4, Vr. lia.
    - destruct (bn_rshb_low (firstn (S j) a3) norm) as [c cy] eqn:Es. cbn [fst].
      apply bn_rshb_low_ok in Es as (Es & Dc & Lc); auto; [|unfold RLC_DIG; lia].
      rewrite F4, Vr, Z.div_mul in Es by lia. repeat split; auto; lia. }
  destruct Hsh as (V5 & D5 & L5).
  destruct (firstn_small (length b) (fst (bn_rshb_low (firstn (S j) a3) norm))) as (G1 & G2 & G3);
    auto; [lia..|].
  repeat split; auto; lia.
Qed.

(** ** The portable backend as an instance of the interface *)

#[export] Instance easy_low : BnLow := {
  low_add1 := bn_add1_low;
  low_addn := bn_addn_low;
  low_sub1 := bn_sub1_low;
  low_subn := bn_subn_low;
  low_lsh1 := bn_lsh1_low;
  low_lshb := bn_lshb_low;
  low_rsh1 := bn_rsh1_low;
  low_rshb := bn_rshb_low;
  low_mula := bn_mula_low;
  low_mul1 := bn_mul1_low;
  low_muln := bn_muln_low;
  low_muld := bn_muld_low;
  low_sqra := bn_sqra_low;
  low_sqrn := bn_sqrn_low;
  low_divn := bn_divn_low;
  low_div1 := bn_div1_low;
  low_modn := bn_modn_low
}.

#[export] Instance easy_low_ok : BnLowOk easy_low.
Proof.
  constructor; cbn [low_add1 low_addn low_sub1 low_subn low_lsh1 low_lshb low_rsh1 low_rshb
    low_mula low_mul1 low_muln low_muld low_sqra low_sqrn low_divn low_div1 low_modn easy_low].
  - intros; eapply bn_add1_low_ok; eauto.
  - intros a b c cy Ha Hb HL H. apply addn_loop_ok in H as (E & D); auto; try lia; split; [lia|exact D].
  - intros; eapply bn_sub1_low_ok; eauto.
  - intros a b c cy Ha Hb HL H. apply subn_loop_ok in H as (E & D); auto; try lia; split; [lia|exact D].
  - intros; eapply bn_lsh1_low_ok; eauto.
  - intros; eapply bn_lshb_low_ok; eauto.
  - intros; eapply bn_rsh1_low_ok; eauto.
  - intros; eapply bn_rshb_low_ok; eauto.
  - intros c a d c' cy Hc Ha Hd HL H. apply mula_loop_ok in H as (E & D); auto with digits; try lia; split; [lia|exact D].
  - intros a d c cy Ha Hd H. apply mul1_loop_ok in H as (E & D); auto with digits; try lia; split; [lia|exact D].
  - intros; apply bn_muln_low_ok; auto.
  - intros; apply bn_muld_low_ok; auto.
  - intros; eapply bn_sqra_low_ok; eauto.
  - intros; apply bn_sqrn_low_ok; auto.
  - intros; eapply bn_divn_low_ok; eauto.
  - intros; eapply bn_div1_low_ok; eauto.
  - intros; apply bn_modn_low_ok; auto.
Qed.
