(* ===== verification/Bn.v ===== *)
(** * Multiple precision integers: representation, memory, conversion, comparison,
      addition and shifts

    The code of bn/relic_bn_mem.c, relic_bn_util.c, relic_bn_cmp.c,
    relic_bn_add.c and relic_bn_shift.c over the low-level interface [BnLow].

    A [bn_st] is its digit buffer [dp] (all [RLC_BN_SIZE] digits: automatic
    allocation), the number of digits in use and the sign; the digits above
    [used] are whatever was left there.  A function with an output argument
    takes the old contents of that argument first, as in C, and returns the
    new contents; a destination that is also an operand is passed twice. *)

From Stdlib Require Import ZArith List Lia Bool.
From S2P Require Import Prelude Dv BnLow.
Import ListNotations.
Local Open Scope Z_scope.

(** ** Data *)

Inductive sign_t := RLC_POS | RLC_NEG.

Definition sign_eqb (s t : sign_t) : bool :=
  match s, t with RLC_POS, RLC_POS | RLC_NEG, RLC_NEG => true | _, _ => false end.

(** [^] on signs. *)
Definition sign_xor (s t : sign_t) : sign_t := if sign_eqb s t then RLC_POS else RLC_NEG.
Definition sign_flip (s : sign_t) : sign_t := sign_xor s RLC_NEG.

Record bn := mk_bn { used : nat; sign : sign_t; dp : list Z }.

Definition set_sign (a : bn) (s : sign_t) : bn := mk_bn (used a) s (dp a).
Definition set_used (a : bn) (n : nat) : bn := mk_bn n (sign a) (dp a).

(** Write [ds] at index [k] of the buffer. *)
Definition store (a : bn) (k : nat) (ds : list Z) : result bn :=
  if (length (dp a) <? k + length ds)%nat then Undef
  else Ok (mk_bn (used a) (sign a) (blit (dp a) k ds)).

(** The digits [k .. k+n-1]. *)
Definition view (a : bn) (k n : nat) : list Z := firstn n (skipn k (dp a)).
Definition digs_of (a : bn) : list Z := view a 0 (used a).

(** ** Memory (relic_bn_mem.c, automatic allocation) *)

(** The contents of fresh stack memory are unspecified; the model takes zeros for
    the digits [bn_make] does not write. *)
Definition bn_make (digits : nat) : result bn :=
  if (RLC_BN_SIZE <? Nat.max digits 1)%nat then Throw ERR_NO_PRECI
  else Ok (mk_bn 1 RLC_POS (repeat 0 RLC_BN_SIZE)).

Definition bn_new : bn := mk_bn 1 RLC_POS (repeat 0 RLC_BN_SIZE).

Definition bn_clean (a : bn) : bn := mk_bn 0 RLC_POS (dp a).

Definition bn_grow (a : bn) (digits : nat) : result bn :=
  if (RLC_BN_SIZE <? digits)%nat then Throw ERR_NO_PRECI else Ok a.

(** while (a->used > 0 && a->dp[a->used - 1] == 0) --(a->used); *)
Fixpoint trim_used (dp : list Z) (u : nat) : nat :=
  match u with
  | O => O
  | S u' => if nth u' dp 0 =? 0 then trim_used dp u' else u
  end.

Definition bn_trim (a : bn) : bn :=
  if (used a <=? RLC_BN_SIZE)%nat then
    let u := trim_used (dp a) (used a) in
    if (u =? 0)%nat then mk_bn 1 RLC_POS (upd (dp a) 0 0) else mk_bn u (sign a) (dp a)
  else a.

(** ** Utilities (relic_bn_util.c) *)

Definition bn_copy (c a : bn) : result bn :=
  let! c := bn_grow c (used a) in
  let! c := store c 0 (view a 0 (used a)) in
  Ok (mk_bn (used a) (sign a) (dp c)).

Definition bn_abs (c a : bn) : result bn :=
  let! c := bn_copy c a in Ok (set_sign c RLC_POS).

Definition bn_is_zero (a : bn) : bool :=
  (used a =? 0)%nat || ((used a =? 1)%nat && (nth 0 (dp a) 0 =? 0)).

Definition bn_neg (c a : bn) : result bn :=
  let! c := bn_copy c a in
  Ok (if bn_is_zero c then c else set_sign c (sign_flip (sign a))).

Definition bn_sign (a : bn) : sign_t := sign a.

Definition bn_zero (a : bn) : result bn :=
  let! d := dv_zero (dp a) RLC_BN_SIZE in Ok (mk_bn 1 RLC_POS d).

Definition bn_is_even (a : bn) : bool :=
  bn_is_zero a || (Z.land (nth 0 (dp a) 0) 1 =? 0).

Definition bn_bits (a : bn) : Z :=
  if bn_is_zero a then 0
  else (Z.of_nat (used a) - 1) * RLC_DIG + util_bits_dig (nth (used a - 1) (dp a) 0).

Definition bn_get_bit (a : bn) (bit : Z) : result Z :=
  if bit <? 0 then Throw ERR_NO_VALID
  else if bn_bits a <? bit then Ok 0
  else
    let d := RLC_RIP_d bit in
    let bit := RLC_RIP_b bit in
    if Z.of_nat (used a) <=? d then Ok 0
    else Ok (Z.land (dshr (nth (Z.to_nat d) (dp a) 0) bit) 1).

Definition bn_set_bit (a : bn) (bit : Z) (value : Z) : result bn :=
  if bit <? 0 then Throw ERR_NO_VALID
  else
    let d := Z.to_nat (RLC_RIP_d bit) in
    let bit := RLC_RIP_b bit in
    let! a := bn_grow a d in
    let x := nth d (dp a) 0 in
    if value =? 1 then
      let! a := store a d [Z.lor x (dshl 1 bit)] in
      Ok (if (used a <? d + 1)%nat then set_used a (d + 1) else a)
    else
      let! a := store a d [Z.land x (B - 1 - dshl 1 bit)] in
      Ok (bn_trim a).

Definition bn_ham (a : bn) : result Z :=
  for_up (Z.to_nat (bn_bits a)) 0
    (fun i c => let! b := bn_get_bit a (Z.of_nat i) in Ok (c + b)) 0.

Definition bn_get_dig (a : bn) : Z := nth 0 (dp a) 0.

Definition bn_set_dig (a : bn) (digit : Z) : result bn :=
  let! a := bn_zero a in
  let! a := store a 0 [digit] in
  Ok (mk_bn 1 RLC_POS (dp a)).

Definition bn_set_2b (a : bn) (b : Z) : result bn :=
  if b <? 0 then bn_zero a
  else
    let d := Z.to_nat (RLC_RIP_d b) in
    let b := RLC_RIP_b b in
    let! a := bn_grow a (d + 1) in
    let! a := store a 0 (repeat 0 d) in
    let! a := store a d [dshl 1 b] in
    Ok (mk_bn (d + 1) RLC_POS (dp a)).

(** [rnd] is what [rand_bytes] writes to the buffer, as digits. *)
Definition bn_rand (rnd : nat -> list Z) (a : bn) (s : sign_t) (bits : Z) : result bn :=
  let digits := RLC_RIP_d bits in
  let bits := RLC_RIP_b bits in
  let digits := Z.to_nat (digits + Z.b2z (0 <? bits)) in
  let! a := bn_grow a digits in
  let! a := store a 0 (rnd digits) in
  let a := mk_bn digits s (dp a) in
  let! a :=
    if 0 <? bits then
      let mask := dsub (dshl 1 bits) 1 in
      store a (used a - 1) [Z.land (nth (used a - 1) (dp a) 0) mask]
    else Ok a in
  Ok (bn_trim a).

(** ** Raw and binary conversion *)

Definition bn_size_raw (a : bn) : nat := used a.

Definition bn_read_raw (a : bn) (raw : list Z) (len : nat) : result bn :=
  let! a := bn_grow a len in
  if (length raw <? len)%nat then Undef
  else
    let! a := store a 0 (firstn len raw) in
    Ok (bn_trim (mk_bn len RLC_POS (dp a))).

(** The [len] digits written to the caller's buffer. *)
Definition bn_write_raw (len : nat) (a : bn) : result (list Z) :=
  let size := used a in
  if (len <? size)%nat then Throw ERR_NO_BUFFER
  else Ok (view a 0 size ++ repeat 0 (len - size)).

(** while (d != 0) { d = d >> 8; digits++; }: a digit has at most 8 bytes. *)
Fixpoint size_bytes (fuel : nat) (d : Z) : nat :=
  match fuel with
  | O => O
  | S fuel' => if d =? 0 then O else S (size_bytes fuel' (dshr d 8))
  end.

Definition bn_size_bin (a : bn) : nat :=
  (used a - 1) * 8 + size_bytes 8 (nth (used a - 1) (dp a) 0).

(** for (j = n - 1; j >= 0; j--) { d = d << 8; d |= bin[len - 1 - (i*8 + j)]; } *)
Fixpoint read_digit (bin : list Z) (len i n : nat) (d : Z) : Z :=
  match n with
  | O => d
  | S j => read_digit bin len i j
             (Z.lor (dshl d 8) (nth (len - 1 - (i * 8 + j)) bin 0))
  end.

(** The same for the last digit, where only the bytes the input has are read. *)
Fixpoint read_last (bin : list Z) (len i n : nat) (d : Z) : Z :=
  match n with
  | O => d
  | S j => read_last bin len i j
             (if (i * 8 + j <? len)%nat
              then Z.lor (dshl d 8) (nth (len - 1 - (i * 8 + j)) bin 0) else d)
  end.

Definition bn_read_bin (a : bn) (bin : list Z) (len : nat) : result bn :=
  if (length bin <? len)%nat then Undef
  else
    let digs := (if (len mod 8 =? 0)%nat then len / 8 else len / 8 + 1)%nat in
    let! a := bn_grow a digs in
    let! a := bn_zero a in
    let! a := store a 0 (map (fun i => read_digit bin len i 8 0) (seq 0 (digs - 1))) in
    let! a := store a (digs - 1) [read_last bin len (digs - 1) 8 0] in
    Ok (bn_trim (mk_bn digs RLC_POS (dp a))).

(** The bytes of a digit, least significant first: all eight, or up to the last
    non-zero one. *)
Fixpoint write_digit (n : nat) (d : Z) : list Z :=
  match n with
  | O => []
  | S n' => Z.land d 255 :: write_digit n' (dshr d 8)
  end.

Fixpoint write_last (fuel : nat) (d : Z) : list Z :=
  match fuel with
  | O => []
  | S fuel' => if d =? 0 then [] else Z.land d 255 :: write_last fuel' (dshr d 8)
  end.

(** The bytes are written from the end of the buffer towards its beginning. *)
Definition bn_write_bin (len : nat) (a : bn) : result (list Z) :=
  let size := bn_size_bin a in
  if (len <? size)%nat then Throw ERR_NO_BUFFER
  else
    let bs := flat_map (write_digit 8) (view a 0 (used a - 1)) ++
              write_last 8 (nth (used a - 1) (dp a) 0) in
    Ok (rev (bs ++ repeat 0 (len - length bs))).

(** ** Comparison (relic_bn_cmp.c) *)

Definition bn_cmp_abs (a b : bn) : cmp_t :=
  if bn_is_zero a && bn_is_zero b then RLC_EQ
  else if (used b <? used a)%nat then RLC_GT
  else if (used a <? used b)%nat then RLC_LT
  else dv_cmp (view a 0 (used a)) (view b 0 (used a)).

Definition bn_cmp_dig (a : bn) (b : Z) : cmp_t :=
  if sign_eqb (sign a) RLC_NEG then RLC_LT
  else if (1 <? used a)%nat then RLC_GT
  else if b <? nth 0 (dp a) 0 then RLC_GT
  else if nth 0 (dp a) 0 <? b then RLC_LT
  else RLC_EQ.

Definition bn_cmp (a b : bn) : cmp_t :=
  if bn_is_zero a && bn_is_zero b then RLC_EQ
  else if sign_eqb (sign a) RLC_POS && sign_eqb (sign b) RLC_NEG then RLC_GT
  else if sign_eqb (sign a) RLC_NEG && sign_eqb (sign b) RLC_POS then RLC_LT
  else if sign_eqb (sign a) RLC_NEG then bn_cmp_abs b a
  else bn_cmp_abs a b.

Section Arith.
Context {L : BnLow}.

(** ** Addition and subtraction (relic_bn_add.c) *)

Definition bn_add_imp (c a b : bn) : result bn :=
  let max := used a in
  let min := used b in
  if (min =? 0)%nat then bn_copy c a
  else
    let! c := bn_grow c max in
    let! (c, carry) :=
      if (used a =? used b)%nat then
        let '(d, carry) := low_addn (view a 0 max) (view b 0 max) in
        let! c := store c 0 d in
        Ok (c, carry)
      else
        let '(d, carry) := low_addn (view a 0 min) (view b 0 min) in
        let! c := store c 0 d in
        let '(d, carry) := low_add1 (view a min (max - min)) carry in
        let! c := store c min d in
        Ok (c, carry) in
    let! c :=
      if carry =? 0 then Ok c
      else let! c := bn_grow c (max + 1) in store c max [carry] in
    Ok (bn_trim (set_used c (max + Z.to_nat carry))).

Definition bn_sub_imp (c a b : bn) : result bn :=
  let max := used a in
  let min := used b in
  if (min =? 0)%nat then bn_copy c a
  else
    let! c := bn_grow c max in
    let! c :=
      if (used a =? used b)%nat then
        let '(d, _) := low_subn (view a 0 min) (view b 0 min) in
        store c 0 d
      else
        let '(d, carry) := low_subn (view a 0 min) (view b 0 min) in
        let! c := store c 0 d in
        let '(d, _) := low_sub1 (view a min (max - min)) carry in
        store c min d in
    Ok (bn_trim (set_used c max)).

Definition bn_add (c a b : bn) : result bn :=
  let sa := sign a in
  let sb := sign b in
  if sign_eqb sa sb then
    let c := set_sign c sa in
    if cmp_eqb (bn_cmp_abs a b) RLC_LT then bn_add_imp c b a else bn_add_imp c a b
  else if cmp_eqb (bn_cmp_abs a b) RLC_LT then
    let! c := bn_sub_imp c b a in Ok (set_sign c sb)
  else
    let! c := bn_sub_imp c a b in Ok (set_sign c sa).

Definition bn_add_dig (c a : bn) (b : Z) : result bn :=
  let! c := bn_grow c (used a) in
  let! c :=
    if sign_eqb (sign a) RLC_POS then
      let '(d, carry) := low_add1 (view a 0 (used a)) b in
      let! c := store c 0 d in
      let! c :=
        if carry =? 0 then Ok c
        else let! c := bn_grow c (used a + 1) in store c (used a) [carry] in
      Ok (mk_bn (used a + Z.to_nat carry) RLC_POS (dp c))
    else if (1 <? used a)%nat || (b <=? nth 0 (dp a) 0) then
      let '(d, _) := low_sub1 (view a 0 (used a)) b in
      let! c := store c 0 d in
      Ok (mk_bn (used a) RLC_NEG (dp c))
    else
      let! c := store c 0 [if (used a =? 1)%nat then dsub b (nth 0 (dp a) 0) else b] in
      Ok (mk_bn 1 RLC_POS (dp c)) in
  Ok (bn_trim c).

Definition bn_sub (c a b : bn) : result bn :=
  let sa := sign a in
  let sb := sign b in
  if negb (sign_eqb sa sb) then
    let c := set_sign c sa in
    if cmp_eqb (bn_cmp_abs a b) RLC_LT then bn_add_imp c b a else bn_add_imp c a b
  else if negb (cmp_eqb (bn_cmp_abs a b) RLC_LT) then
    let! c := bn_sub_imp c a b in Ok (set_sign c sa)
  else
    let! c := bn_sub_imp c b a in
    Ok (set_sign c (if sign_eqb sa RLC_POS then RLC_NEG else RLC_POS)).

Definition bn_sub_dig (c a : bn) (b : Z) : result bn :=
  let! c := bn_grow c (used a) in
  let! c :=
    if sign_eqb (sign a) RLC_NEG then
      let '(d, carry) := low_add1 (view a 0 (used a)) b in
      let! c := store c 0 d in
      let! c :=
        if carry =? 0 then Ok c
        else let! c := bn_grow c (used a + 1) in store c (used a) [carry] in
      Ok (mk_bn (used a + Z.to_nat carry) RLC_NEG (dp c))
    else if (1 <? used a)%nat || (b <=? nth 0 (dp a) 0) then
      let '(d, _) := low_sub1 (view a 0 (used a)) b in
      let! c := store c 0 d in
      Ok (mk_bn (used a) RLC_POS (dp c))
    else
      let! c := store c 0 [if (used a =? 1)%nat then dsub b (nth 0 (dp a) 0) else b] in
      Ok (mk_bn 1 RLC_NEG (dp c)) in
  Ok (bn_trim c).

(** ** Shifts (relic_bn_shift.c) *)

Definition bn_dbl (c a : bn) : result bn :=
  let! c := bn_grow c (used a + 1) in
  let '(d, carry) := low_lsh1 (view a 0 (used a)) in
  let! c := store c 0 d in
  let c := set_used c (used a) in
  let! c :=
    if carry =? 0 then Ok c
    else let! c := store c (used c) [carry] in Ok (set_used c (used c + 1)) in
  Ok (set_sign c (sign a)).

Definition bn_hlv (c a : bn) : result bn :=
  let! c := bn_copy c a in
  let '(d, _) := low_rsh1 (view c 0 (used c)) in
  let! c := store c 0 d in
  Ok (bn_trim c).

Definition bn_lsh (c a : bn) (bits : Z) : result bn :=
  let! c := bn_copy c a in
  if bits <=? 0 then Ok c
  else
    let digits := Z.to_nat (RLC_RIP_d bits) in
    let bits := RLC_RIP_b bits in
    let! c := bn_grow c (used c + digits + (if (0 <? bits)%Z then 1 else 0))%nat in
    let c := mk_bn (used a + digits) (sign a) (dp c) in
    let! c :=
      if (0 <? digits)%nat then store c 0 (dv_lshd (dp a) (used c) digits) else Ok c in
    let! c :=
      if 0 <? bits then
        let '(d, carry) := low_lshb (view a 0 (used a)) bits in
        let! c := store c digits d in
        if carry =? 0 then Ok c
        else let! c := store c (used c) [carry] in Ok (set_used c (used c + 1))
      else Ok c in
    Ok (bn_trim c).

Definition bn_rsh (c a : bn) (bits : Z) : result bn :=
  let! c := bn_copy c a in
  if bits <=? 0 then Ok c
  else
    let digits := Z.to_nat (RLC_RIP_d bits) in
    let bits := RLC_RIP_b bits in
    let! c :=
      if (0 <? digits)%nat then store c 0 (dv_rshd (dp a) (used a) digits) else Ok c in
    let c := mk_bn (used a - digits) (sign a) (dp c) in
    let! c :=
      if (0 <? used c)%nat && (0 <? bits) then
        store c 0 (fst (low_rshb (view c 0 (used c)) bits))
      else Ok c in
    Ok (bn_trim c).

End Arith.
