(* ===== verification/BnOk.v ===== *)
(** * Correctness of the core of the multiple precision module

    The invariant [wf] of a [bn_st], the integer [ival] it represents, and the
    behaviour of every operation of [Bn] on every branch: the exact result when
    it fits the precision, [ERR_NO_PRECI] when it does not. *)

From Stdlib Require Import ZArith List Lia Bool.
From S2P Require Import Prelude Dv BnLow Bn.
Import ListNotations.
Local Open Scope Z_scope.

(** ** Invariant and value *)

Definition buf (a : bn) : Prop := length (dp a) = RLC_BN_SIZE /\ digs (dp a).

Definition wf (a : bn) : Prop :=
  buf a /\ (1 <= used a <= RLC_BN_SIZE)%nat /\
  (used a = 1%nat \/ nth (used a - 1) (dp a) 0 <> 0).

Definition sgn (s : sign_t) : Z := match s with RLC_POS => 1 | RLC_NEG => -1 end.
Definition mag (a : bn) : Z := val (digs_of a).
Definition ival (a : bn) : Z := sgn (sign a) * mag a.

(** [a] is a well-formed representation of [z]. *)
Definition repr (a : bn) (z : Z) : Prop := wf a /\ ival a = z.

(** Zero carries the positive sign. *)
Definition canonical (a : bn) : Prop := ival a = 0 -> sign a = RLC_POS.

(** The integers that fit the precision. *)
Definition fits (z : Z) : Prop := Z.abs z < Bp RLC_BN_SIZE.

(** The buffer starts with the digits [l]. *)
Definition has (c : bn) (l : list Z) : Prop := buf c /\ firstn (length l) (dp c) = l.

Lemma wf_buf a : wf a -> buf a.
Proof. intros H; apply H. Qed.

Lemma repr_buf a z : repr a z -> buf a.
Proof. intros H; apply H. Qed.

Lemma repr_wf a z : repr a z -> wf a.
Proof. intros H; apply H. Qed.

Lemma BN_SIZE_pos : (1 < RLC_BN_SIZE)%nat.
Proof. cbv; lia. Qed.

Lemma BN_SIZE_short l : (length l <= RLC_BN_SIZE)%nat -> short l.
Proof. intros H. unfold short. apply Z.le_lt_trans with 34; [|reflexivity]. change 34 with (Z.of_nat RLC_BN_SIZE). lia. Qed.

Lemma has_nil c : buf c -> has c [].
Proof. intros H. split; [exact H|reflexivity]. Qed.

Lemma buf_new : buf bn_new.
Proof. split; [reflexivity|apply digs_repeat0]. Qed.

Lemma buf_set_sign c s : buf c -> buf (set_sign c s).
Proof. exact (fun H => H). Qed.

Lemma buf_set_used c n : buf c -> buf (set_used c n).
Proof. exact (fun H => H). Qed.

Lemma has_set_sign c s l : has c l -> has (set_sign c s) l.
Proof. exact (fun H => H). Qed.

Create HintDb bn.
#[export] Hint Resolve wf_buf repr_buf repr_wf has_nil buf_new buf_set_sign buf_set_used has_set_sign : bn.

Lemma view_facts a k n : buf a -> (k + n <= RLC_BN_SIZE)%nat ->
  digs (view a k n) /\ length (view a k n) = n.
Proof.
  intros [HL HD] H. unfold view. split; [auto with digits|].
  rewrite length_firstn, length_skipn. lia.
Qed.

Lemma digs_of_facts a : wf a -> digs (digs_of a) /\ length (digs_of a) = used a.
Proof. intros (Hb & Hu & _). apply view_facts; [exact Hb|lia]. Qed.

Lemma digs_of_view a : view a 0 (used a) = digs_of a.
Proof. reflexivity. Qed.

Lemma mag_bound a : wf a -> 0 <= mag a < Bp (used a).
Proof. intros H. destruct (digs_of_facts a H) as [D E]. rewrite <- E. apply val_bound, D. Qed.

Lemma mag_fits a : wf a -> 0 <= mag a < Bp RLC_BN_SIZE.
Proof.
  intros H. pose proof (mag_bound a H). destruct H as (_ & Hu & _).
  pose proof (Bp_le (used a) RLC_BN_SIZE ltac:(lia)). lia.
Qed.

Lemma ival_abs a : wf a -> Z.abs (ival a) = mag a.
Proof. intros H. pose proof (mag_bound a H). unfold ival. destruct (sign a); cbn [sgn]; lia. Qed.

Lemma repr_fits a z : repr a z -> fits z.
Proof. intros [Hw <-]. unfold fits. rewrite ival_abs by exact Hw. apply mag_fits, Hw. Qed.

#[export] Hint Resolve repr_fits : bn.

(** The leading digit bounds the magnitude from below. *)
Lemma top_nth_digs a i : wf a -> (i < used a)%nat -> nth i (digs_of a) 0 = nth i (dp a) 0.
Proof.
  intros ((HL & _) & Hu & _) Hi. unfold digs_of, view. cbn [skipn].
  rewrite <- (firstn_skipn (used a) (dp a)) at 2. rewrite app_nth1; [reflexivity|].
  rewrite firstn_length_le; lia.
Qed.

Lemma mag_low a : wf a -> (1 < used a)%nat -> Bp (used a - 1) <= mag a.
Proof.
  intros H Hu. destruct (digs_of_facts a H) as [D E].
  assert (Ht : nth (used a - 1) (digs_of a) 0 = mag a / Bp (used a - 1)).
  { apply top_digit; [exact D|]. replace (S (used a - 1)) with (used a) by lia. apply mag_bound, H. }
  rewrite top_nth_digs in Ht by (auto; lia).
  destruct (Z.lt_ge_cases (mag a) (Bp (used a - 1))) as [Hlt|]; [|lia].
  pose proof (mag_bound a H). rewrite Z.div_small in Ht by lia.
  destruct H as (_ & _ & [Hu1|Hn]); [lia|contradiction].
Qed.

Lemma used_mono a b : wf a -> wf b -> mag b <= mag a -> (used b <= used a)%nat.
Proof.
  intros Ha Hb H. destruct (Nat.le_gt_cases (used b) (used a)) as [|Hlt]; [assumption|].
  pose proof (mag_low b Hb ltac:(destruct Ha as (_ & ? & _); lia)).
  pose proof (mag_bound a Ha). pose proof (Bp_le (used a) (used b - 1) ltac:(lia)). lia.
Qed.

(** ** Memory operations *)

Lemma bn_grow_ok c n : (n <= RLC_BN_SIZE)%nat -> bn_grow c n = Ok c.
Proof. unfold bn_grow. intros H. destruct (Nat.ltb_spec RLC_BN_SIZE n); [lia|reflexivity]. Qed.

Lemma bn_grow_fail c n : (RLC_BN_SIZE < n)%nat -> bn_grow c n = Throw ERR_NO_PRECI.
Proof. unfold bn_grow. intros H. destruct (Nat.ltb_spec RLC_BN_SIZE n); [reflexivity|lia]. Qed.

Ltac grow := rewrite bn_grow_ok by lia; cbn [bind].

Lemma store_ok c k l ds : has c l -> digs ds -> k = length l ->
  (length l + length ds <= RLC_BN_SIZE)%nat ->
  returns (store c k ds) (fun c' =>
    has c' (l ++ ds) /\ used c' = used c /\ sign c' = sign c).
Proof.
  intros [[HL HD] Hl] Hds -> Hle. unfold store. rewrite HL.
  destruct (Nat.ltb_spec RLC_BN_SIZE (length l + length ds)); [lia|]. cbn.
  split; [split; [split; cbn|]|auto].
  - rewrite length_blit; lia.
  - auto with digits.
  - cbn [dp]. unfold blit. rewrite Hl, app_assoc, firstn_app, firstn_all, Nat.sub_diag.
    cbn [firstn]. apply app_nil_r.
Qed.

(** Overwriting the front of the buffer. *)
Lemma store_front c ds : buf c -> digs ds -> (length ds <= RLC_BN_SIZE)%nat ->
  returns (store c 0 ds) (fun c' => has c' ds /\ used c' = used c /\ sign c' = sign c).
Proof. intros Hc Hd Hl. apply (store_ok c 0 [] ds); auto with bn. Qed.

(** Overwriting part of a known prefix. *)
Lemma store_in c k l ds : has c l -> digs ds -> (k + length ds <= length l)%nat ->
  returns (store c k ds) (fun c' => has c' (blit l k ds) /\ used c' = used c /\ sign c' = sign c).
Proof.
  intros [[HL HD] Hl] Hds Hle. unfold store.
  assert (Hll : (length l <= length (dp c))%nat) by (rewrite <- Hl, length_firstn; lia).
  destruct (Nat.ltb_spec (length (dp c)) (k + length ds)); [lia|]. cbn.
  split; [split; [split; cbn|]|auto].
  - rewrite length_blit; lia.
  - auto with digits.
  - cbn [dp]. rewrite length_blit by lia. unfold blit.
    rewrite <- (firstn_skipn (length l) (dp c)), Hl.
    rewrite (firstn_app k l), (skipn_app _ l).
    replace (k - length l)%nat with 0%nat by lia.
    replace (k + length ds - length l)%nat with 0%nat by lia. cbn [firstn skipn]. rewrite app_nil_r.
    rewrite !app_assoc, firstn_app, firstn_all2 by (rewrite !length_app, length_firstn, length_skipn; lia).
    replace (length l - length (((firstn k l ++ ds) ++ skipn (k + length ds) l)))%nat with 0%nat
      by (rewrite !length_app, length_firstn, length_skipn; lia).
    cbn [firstn]. apply app_nil_r.
Qed.

Lemma trim_used_ok d : forall u, (u <= length d)%nat ->
  (trim_used d u <= u)%nat /\ val (firstn (trim_used d u) d) = val (firstn u d) /\
  (trim_used d u = 0%nat \/ nth (trim_used d u - 1) d 0 <> 0).
Proof.
  induction u as [|u IH]; intros Hu; cbn [trim_used]; [auto|].
  destruct (Z.eqb_spec (nth u d 0) 0) as [E|E].
  - destruct (IH ltac:(lia)) as (H1 & H2 & H3). repeat split; auto. rewrite H2.
    rewrite firstn_S_nth, val_app, E by lia. cbn [val]. lia.
  - repeat split; auto. right. cbn [Nat.sub]. rewrite Nat.sub_0_r. exact E.
Qed.

Lemma bn_trim_ok c l : has c l -> used c = length l -> (length l <= RLC_BN_SIZE)%nat ->
  wf (bn_trim c) /\ mag (bn_trim c) = val l /\ (val l <> 0 -> sign (bn_trim c) = sign c) /\
  (val l = 0 -> sign (bn_trim c) = RLC_POS).
Proof.
  intros [[HL HD] Hl] Hu Hle. unfold bn_trim.
  destruct (Nat.leb_spec (used c) RLC_BN_SIZE); [|lia].
  destruct (trim_used_ok (dp c) (used c) ltac:(lia)) as (H1 & H2 & H3).
  rewrite Hu, Hl in H2. rewrite Hu in *.
  set (u := trim_used (dp c) (length l)) in *. clearbody u. pose proof BN_SIZE_pos.
  destruct (Nat.eqb_spec u 0) as [->|Hn].
  - cbn [firstn val] in H2. rewrite <- H2. destruct (dp c) as [|x d] eqn:E; [cbn in HL; lia|].
    apply digs_inv in HD as [_ HD].
    cbn [upd]. unfold wf, buf, mag, digs_of, view. cbn [used sign dp length nth firstn skipn val] in *.
    repeat split; auto with digits; lia.
  - unfold wf, buf, mag, digs_of, view. cbn [used sign dp skipn].
    repeat split; auto; try lia.
    intros E0. exfalso. destruct H3 as [|H3]; [contradiction|]. apply H3.

      assert (Ev : nth (u - 1) (firstn u (dp c)) 0 = val (firstn u (dp c)) / Bp (u - 1)).
      { apply top_digit; [auto with digits|]. replace (S (u - 1)) with u by lia.
        pose proof (val_bound (firstn u (dp c)) ltac:(auto with digits)) as Hb.
        rewrite firstn_length_le in Hb by lia. lia. }
      rewrite H2, E0, Z.div_0_l in Ev by (pose proof (Bp_pos (u - 1)); lia).
      rewrite <- (firstn_skipn u (dp c)), app_nth1; [exact Ev|]. rewrite firstn_length_le; lia.
Qed.

Lemma repr_trim c l s : has c l -> used c = length l -> (length l <= RLC_BN_SIZE)%nat -> sign c = s ->
  repr (bn_trim c) (sgn s * val l) /\ canonical (bn_trim c).
Proof.
  intros Hc Hu Hl <-. destruct (bn_trim_ok c l Hc Hu Hl) as (Hw & Hm & Hs & Hz).
  unfold canonical, repr, ival. rewrite Hm. split; [split; [exact Hw|]|].
  - destruct (Z.eq_dec (val l) 0) as [E|E]; [rewrite E; lia|rewrite Hs by exact E; reflexivity].
  - intros E. apply Hz. destruct (sign (bn_trim c)); cbn [sgn] in E; lia.
Qed.

(** ** Copies, signs and tests *)

(** Two representations with the same digits and sign. *)
Lemma bn_copy_eq c a : buf c -> wf a -> returns (bn_copy c a) (fun r =>
  wf r /\ used r = used a /\ sign r = sign a /\ digs_of r = digs_of a).
Proof.
  intros Hc Ha. pose proof Ha as (Hb & Hu & Ht). unfold bn_copy. grow.
  destruct (view_facts a 0 (used a) Hb ltac:(lia)) as [D1 L1].
  eapply returns_bind; [apply store_front; [exact Hc|exact D1|lia]|].
  intros c' ((Hb' & Hd) & _ & _). cbn. rewrite L1 in Hd.
  assert (Ed : view (mk_bn (used a) (sign a) (dp c')) 0 (used a) = view a 0 (used a))
    by (unfold view at 1; cbn [dp skipn]; exact Hd).
  split; [|repeat split; exact Ed].
  split; [exact Hb'|]. split; [exact Hu|]. destruct Ht as [Ht|Ht]; [left; exact Ht|right].
  assert (N : forall d, (used a - 1 < length d)%nat ->
    nth (used a - 1) (firstn (used a) d) 0 = nth (used a - 1) d 0).
  { intros d H. rewrite <- (firstn_skipn (used a) d) at 2. rewrite app_nth1; [reflexivity|].
    rewrite length_firstn. lia. }
  cbn [used dp]. unfold view in Hd. cbn [skipn] in Hd. destruct Hb as [HLa _], Hb' as [HLc _].
  rewrite <- N, Hd, N by lia. exact Ht.
Qed.

Lemma bn_copy_ok c a z : buf c -> repr a z -> returns (bn_copy c a) (fun r =>
  repr r z /\ sign r = sign a).
Proof.
  intros Hc [Ha Hz]. eapply returns_mono; [apply bn_copy_eq; eauto|].
  intros r (Hw & Hu & Hs & Hd). split; [|exact Hs]. split; [exact Hw|].
  unfold ival, mag in *. rewrite Hs, Hd. exact Hz.
Qed.

Lemma wf_set_sign a s : wf a -> wf (set_sign a s).
Proof. exact (fun H => H). Qed.

Lemma mag_set_sign a s : mag (set_sign a s) = mag a.
Proof. reflexivity. Qed.

Lemma bn_abs_ok c a z : buf c -> repr a z -> returns (bn_abs c a) (fun r =>
  repr r (Z.abs z) /\ canonical r).
Proof.
  intros Hc Ha. unfold bn_abs. eapply returns_bind; [apply bn_copy_ok; eauto|].
  intros r [[Hw Hr] _]. cbn. split; [|intros _; reflexivity]. split; [exact Hw|].
  unfold ival at 1. cbn [set_sign sign sgn]. rewrite mag_set_sign, Z.mul_1_l, <- Hr.
  symmetry. apply ival_abs, Hw.
Qed.

Lemma bn_is_zero_mag a : wf a -> bn_is_zero a = (mag a =? 0).
Proof.
  intros Ha. pose proof Ha as (Hb & Hu & Ht). unfold bn_is_zero.
  destruct (Nat.eqb_spec (used a) 0) as [E|_]; [lia|]. cbn [orb].
  destruct (Nat.eqb_spec (used a) 1) as [E|E]; cbn [andb].
  - rewrite <- top_nth_digs by (auto; lia).
    destruct (digs_of_facts a Ha) as [_ L]. rewrite E in L. unfold mag.
    destruct (digs_of a) as [|x [|y d]]; try discriminate L. cbn [val nth]. f_equal. lia.
  - pose proof (mag_low a Ha ltac:(lia)). pose proof (Bp_pos (used a - 1)).
    symmetry. apply Z.eqb_neq. lia.
Qed.

Lemma bn_is_zero_ok a z : repr a z -> bn_is_zero a = (z =? 0).
Proof.
  intros [Ha <-]. rewrite bn_is_zero_mag by exact Ha. unfold ival.
  destruct (sign a); cbn [sgn]; destruct (Z.eqb_spec (mag a) 0), (Z.eqb_spec (1 * mag a) 0),
    (Z.eqb_spec (-1 * mag a) 0); lia || reflexivity.
Qed.

Lemma bn_neg_ok c a z : buf c -> repr a z -> returns (bn_neg c a) (fun r =>
  repr r (- z) /\ (canonical a -> canonical r)).
Proof.
  intros Hc Ha. unfold bn_neg. eapply returns_bind; [apply bn_copy_ok; eauto|].
  intros r [Hr Hs]. cbn. rewrite (bn_is_zero_ok r z Hr). destruct Hr as [Hw Hr].
  destruct (Z.eqb_spec z 0) as [->|Hz].
  - split; [split; auto|]. unfold canonical. rewrite Hs, Hr. destruct Ha as [_ ->]. auto.
  - assert (E : ival (set_sign r (sign_flip (sign a))) = - z).
    { unfold ival in *. cbn [set_sign sign]. rewrite mag_set_sign, <- Hr, Hs.
      destruct (sign a); cbn [sign_flip sign_xor sign_eqb sgn]; lia. }
    split; [split; [exact Hw|exact E]|]. intros _ E0. lia.
Qed.

Lemma dv_zero_ok d : length d = RLC_BN_SIZE -> dv_zero d RLC_BN_SIZE = Ok (repeat 0 RLC_BN_SIZE).
Proof.
  intros H. unfold dv_zero. cbn [RLC_DV_DIGS Nat.ltb]. rewrite H, Nat.ltb_irrefl.
  unfold blit. cbn [Nat.add]. rewrite repeat_length, skipn_all2 by lia.
  reflexivity.
Qed.

Lemma repr_const d : dig d -> repr (mk_bn 1 RLC_POS (d :: repeat 0 (RLC_BN_SIZE - 1))) d.
Proof.
  intros Hd. unfold repr, wf, buf, ival, mag, digs_of, view.
  cbn [used sign dp sgn length skipn firstn val]. rewrite repeat_length. pose proof BN_SIZE_pos.
  split; [split; [split; [lia|auto with digits]|auto with digits]|lia].
  split; [lia|left; reflexivity].
Qed.

Lemma bn_zero_ok c : buf c -> returns (bn_zero c) (fun r => repr r 0 /\ canonical r).
Proof.
  intros [HL _]. unfold bn_zero. rewrite dv_zero_ok by exact HL. cbn [bind returns].
  split; [|intros _; reflexivity]. exact (repr_const 0 dig_0).
Qed.

Lemma bn_set_dig_ok c d : buf c -> dig d -> returns (bn_set_dig c d) (fun r => repr r d /\ canonical r).
Proof.
  intros [HL _] Hd. unfold bn_set_dig, bn_zero. rewrite dv_zero_ok by exact HL. cbn [bind].
  unfold store. cbn [dp length repeat used sign]. rewrite repeat_length.
  change (RLC_BN_SIZE <? 0 + 1)%nat with false. cbn [bind returns].
  split; [|intros _; reflexivity]. exact (repr_const d Hd).
Qed.

Lemma repr_new : repr bn_new 0 /\ canonical bn_new.
Proof. split; [exact (repr_const 0 dig_0)|intros _; reflexivity]. Qed.

(** Parity, bit length and single bits. *)

Lemma nth0_mag a : wf a -> nth 0 (dp a) 0 = mag a mod B.
Proof.
  intros Ha. rewrite <- top_nth_digs by (auto; destruct Ha as (_ & ? & _); lia).
  rewrite nth_div by (apply digs_of_facts; exact Ha). rewrite Bp_0, Z.div_1_r. reflexivity.
Qed.

Lemma bn_is_even_ok a z : repr a z -> bn_is_even a = Z.even z.
Proof.
  intros Hr. unfold bn_is_even. rewrite (bn_is_zero_ok a z Hr).
  destruct (Z.eqb_spec z 0) as [->|Hz]; [reflexivity|]. cbn [orb].
  pose proof Hr as [Ha Ez]. rewrite nth0_mag by exact Ha.
  rewrite (Z.land_ones _ 1) by lia. change (2 ^ 1) with 2.
  assert (Em : mag a mod B mod 2 = mag a mod 2).
  { change B with (2 * 2 ^ 63). rewrite Z.rem_mul_r by lia.
    rewrite Z.mul_comm, Z_mod_plus_full, Z.mod_mod by lia. reflexivity. }
  rewrite Em, <- Ez. unfold ival. rewrite <- Zeven_mod. destruct (sign a); cbn [sgn].
  - rewrite Z.mul_1_l. reflexivity.
  - replace (-1 * mag a) with (- mag a) by lia. rewrite Z.even_opp. reflexivity.
Qed.

Definition bitlen (z : Z) : Z := if z =? 0 then 0 else Z.log2 (Z.abs z) + 1.

Lemma util_bits_dig_ok x : dig x -> util_bits_dig x = bitlen x.
Proof.
  unfold dig, util_bits_dig, arch_lzcnt, bitlen. intros Hx.
  destruct (Z.eqb_spec x 0); [lia|]. rewrite Z.abs_eq by lia. lia.
Qed.

Lemma mag_top a : wf a -> nth (used a - 1) (dp a) 0 = mag a / Bp (used a - 1).
Proof.
  intros Ha. pose proof Ha as (_ & Hu & _).
  rewrite <- top_nth_digs by (auto; lia). apply top_digit; [apply digs_of_facts, Ha|].
  replace (S (used a - 1)) with (used a) by lia. apply mag_bound, Ha.
Qed.

Lemma mag_top_nz a : wf a -> mag a <> 0 -> 0 < nth (used a - 1) (dp a) 0 < B.
Proof.
  intros Ha Hm. pose proof Ha as (Hb & Hu & Ht).
  assert (dig (nth (used a - 1) (dp a) 0)) as Hd by (apply digs_nth, Hb). unfold dig in Hd.
  destruct Ht as [E|Hn]; [|lia]. pose proof (mag_top a Ha) as E1.
  rewrite E in *. cbn [Nat.sub] in *. rewrite Bp_0, Z.div_1_r in E1. lia.
Qed.

Lemma bn_bits_mag a : wf a -> bn_bits a = bitlen (mag a).
Proof.
  intros Ha. unfold bn_bits. rewrite bn_is_zero_mag by exact Ha. unfold bitlen.
  destruct (Z.eqb_spec (mag a) 0) as [E|E]; [reflexivity|].
  pose proof (mag_top_nz a Ha E) as Ht. pose proof (mag_top a Ha) as Et.
  rewrite util_bits_dig_ok by (unfold dig; lia). unfold bitlen.
  destruct (Z.eqb_spec (nth (used a - 1) (dp a) 0) 0); [lia|].
  rewrite (Z.abs_eq (nth _ _ _)), (Z.abs_eq (mag a)) by (pose proof (mag_bound a Ha); lia).
  set (t := nth (used a - 1) (dp a) 0) in *. set (u := (used a - 1)%nat) in *.
  assert (Hlog : 2 ^ Z.log2 t <= t < 2 ^ Z.succ (Z.log2 t)) by (apply Z.log2_spec; lia).
  pose proof (Z.log2_nonneg t) as Hl0. pose proof (Bp_pos u) as HP.
  pose proof (Z.div_mod (mag a) (Bp u) ltac:(lia)) as Ed. rewrite <- Et in Ed.
  pose proof (Z.mod_pos_bound (mag a) (Bp u) HP) as Hm.
  replace (Z.of_nat (used a) - 1) with (Z.of_nat u)
    by (subst u; destruct Ha as (_ & Hu & _); lia).
  unfold RLC_DIG.
  enough (Z.log2 (mag a) = Z.of_nat u * 64 + Z.log2 t) by lia.
  apply Z.log2_unique; [lia|]. rewrite Bp_pow2 in *.
  rewrite Z.pow_succ_r in * by lia. rewrite Z.pow_add_r by lia.
  rewrite (Z.mul_comm (Z.of_nat u) 64). nia.
Qed.

Lemma bitlen_abs z : bitlen (Z.abs z) = bitlen z.
Proof. unfold bitlen. destruct z; reflexivity. Qed.

Lemma bn_bits_ok a z : repr a z -> bn_bits a = bitlen z.
Proof.
  intros [Ha <-]. rewrite bn_bits_mag, <- ival_abs by exact Ha. apply bitlen_abs.
Qed.

Lemma bitlen_spec z n : 0 <= n -> Z.abs z < 2 ^ n <-> bitlen z <= n.
Proof.
  intros Hn. unfold bitlen. destruct (Z.eqb_spec z 0) as [->|Hz].
  - split; [lia|]. intros _. cbn. apply Z.pow_pos_nonneg; lia.
  - rewrite Z.log2_lt_pow2 by lia. lia.
Qed.

Lemma bitlen_nonneg z : 0 <= bitlen z.
Proof. unfold bitlen. pose proof (Z.log2_nonneg (Z.abs z)). destruct (z =? 0); lia. Qed.

Lemma bitlen_repr a x : repr a x -> bitlen x <= 64 * Z.of_nat RLC_BN_SIZE.
Proof.
  intros H. apply bitlen_spec; [lia|]. rewrite <- Bp_pow2. exact (repr_fits a x H).
Qed.

Lemma RLC_RIP_spec v : 0 <= v -> v = 64 * RLC_RIP_d v + RLC_RIP_b v /\
  0 <= RLC_RIP_d v /\ 0 <= RLC_RIP_b v < 64.
Proof.
  intros Hv. unfold RLC_RIP_b, RLC_RIP_d. rewrite Z.shiftr_div_pow2 by lia.
  change (2 ^ 6) with 64. pose proof (Z.div_mod v 64 ltac:(lia)).
  pose proof (Z.mod_pos_bound v 64 ltac:(lia)). pose proof (Z.div_pos v 64 Hv ltac:(lia)). lia.
Qed.

Lemma bn_get_bit_ok a z bit : repr a z -> 0 <= bit ->
  bn_get_bit a bit = Ok (Z.b2z (Z.testbit (Z.abs z) bit)).
Proof.
  intros Hr Hbit. pose proof Hr as [Ha Hz]. unfold bn_get_bit.
  destruct (Z.ltb_spec bit 0); [lia|]. rewrite (bn_bits_ok a z Hr).
  destruct (Z.ltb_spec (bitlen z) bit) as [Hhi|Hlo].
  { rewrite Z.bits_above_log2; [reflexivity|lia|].
    unfold bitlen in Hhi. destruct (Z.eqb_spec z 0) as [->|]; cbn; lia. }
  destruct (RLC_RIP_spec bit Hbit) as (E & Hd & Hb).
  set (d := RLC_RIP_d bit) in *. set (b := RLC_RIP_b bit) in *. clearbody d b.
  rewrite <- Hz, ival_abs by exact Ha.
  assert (Et : Z.testbit (mag a) bit = Z.testbit (mag a / Bp (Z.to_nat d) mod B) b).
  { rewrite B_pow2, Z.mod_pow2_bits_low, Bp_pow2, Z2Nat.id, Z.div_pow2_bits by lia.
    f_equal. lia. }
  pose proof (nth_div (digs_of a) (Z.to_nat d) (proj1 (digs_of_facts a Ha))) as En.
  fold (mag a) in En. rewrite <- En in Et.
  destruct (Z.leb_spec (Z.of_nat (used a)) d) as [Hge|Hlt].
  - rewrite Et, nth_overflow, Z.testbit_0_l; [reflexivity|].
    destruct (digs_of_facts a Ha) as [_ ->]. lia.
  - rewrite Et, <- top_nth_digs by (auto; lia). unfold dshr.
    rewrite (Z.land_ones _ 1) by lia.
    change (2 ^ 1) with 2. rewrite <- Z.bit0_mod, Z.shiftr_spec, Z.add_0_l by lia. reflexivity.
Qed.

(** ** Comparison *)

Lemma cmpZ_opp x y : cmpZ (- y) (- x) = cmpZ x y.
Proof. unfold cmpZ. rewrite Z.compare_opp. reflexivity. Qed.

Lemma cmpZ_lt_iff x y : cmpZ x y = RLC_LT <-> x < y.
Proof. unfold cmpZ. destruct (Z.compare_spec x y); split; intros; try discriminate; lia || reflexivity. Qed.
Lemma cmpZ_gt_iff x y : cmpZ x y = RLC_GT <-> y < x.
Proof. unfold cmpZ. destruct (Z.compare_spec x y); split; intros; try discriminate; lia || reflexivity. Qed.
Lemma cmpZ_eq_iff x y : cmpZ x y = RLC_EQ <-> x = y.
Proof. unfold cmpZ. destruct (Z.compare_spec x y); split; intros; try discriminate; lia || reflexivity. Qed.

Lemma bn_cmp_abs_ok a b : wf a -> wf b -> bn_cmp_abs a b = cmpZ (mag a) (mag b).
Proof.
  intros Ha Hb. unfold bn_cmp_abs. rewrite !bn_is_zero_mag by assumption.
  destruct (Z.eqb_spec (mag a) 0) as [Ea|Ea], (Z.eqb_spec (mag b) 0) as [Eb|Eb]; cbn [andb];
    [rewrite Ea, Eb; reflexivity|..];
  (destruct (Nat.ltb_spec (used b) (used a)) as [H|H];
   [symmetry; apply cmpZ_gt_iff; apply Z.nle_gt; intros E;
    apply (used_mono b a) in E; auto; lia|];
   destruct (Nat.ltb_spec (used a) (used b)) as [H'|H'];
   [symmetry; apply cmpZ_lt_iff; apply Z.nle_gt; intros E;
    apply (used_mono a b) in E; auto; lia|];
   assert (Eu : used a = used b) by lia;
   destruct (digs_of_facts a Ha) as [Da La], (digs_of_facts b Hb) as [Db Lb];
   rewrite Eu at 2; apply dv_cmp_ok; auto; unfold digs_of in *; lia).
Qed.

Lemma bn_cmp_ok a b x y : repr a x -> repr b y -> bn_cmp a b = cmpZ x y.
Proof.
  intros Hx Hy. unfold bn_cmp. rewrite (bn_is_zero_ok a x Hx), (bn_is_zero_ok b y Hy).
  destruct Hx as [Ha Ex], Hy as [Hb Ey].
  pose proof (mag_bound a Ha). pose proof (mag_bound b Hb). unfold ival in *.
  destruct (Z.eqb_spec x 0) as [E1|E1], (Z.eqb_spec y 0) as [E2|E2]; cbn [andb];
    [rewrite E1, E2; reflexivity|..];
    destruct (sign a), (sign b); cbn [sign_eqb andb sgn] in *;
    try (symmetry; first [apply cmpZ_lt_iff; lia | apply cmpZ_gt_iff; lia]);
    rewrite bn_cmp_abs_ok by assumption; rewrite <- Ex, <- Ey;
    try (rewrite !Z.mul_1_l; reflexivity);
    replace (-1 * mag a) with (- mag a) by lia; replace (-1 * mag b) with (- mag b) by lia;
    symmetry; apply cmpZ_opp.
Qed.

Lemma bn_cmp_dig_ok a z d : repr a z -> canonical a -> dig d -> bn_cmp_dig a d = cmpZ z d.
Proof.
  intros [Ha Hz] Hc Hd. unfold bn_cmp_dig, canonical in *. unfold dig in Hd.
  pose proof (mag_bound a Ha) as Hm. unfold ival in *. rewrite Hz in Hc.
  destruct (sign a); cbn [sign_eqb sgn] in *.
  - destruct (Nat.ltb_spec 1 (used a)) as [Hu|Hu].
    + symmetry. apply cmpZ_gt_iff. pose proof (mag_low a Ha Hu).
      pose proof (Bp_le 1 (used a - 1) ltac:(lia)). rewrite Bp_1 in *. lia.
    + assert (E : used a = 1%nat) by (destruct Ha as (_ & ? & _); lia).
      rewrite nth0_mag by exact Ha. rewrite E, Bp_1 in Hm. rewrite Z.mod_small by lia.
      unfold cmpZ. replace z with (mag a) by lia.
      destruct (Z.compare_spec (mag a) d), (Z.ltb_spec d (mag a)), (Z.ltb_spec (mag a) d);
        lia || reflexivity.
  - symmetry. apply cmpZ_lt_iff. destruct (Z.eq_dec z 0) as [E|]; [specialize (Hc E); discriminate|lia].
Qed.

Section ArithOk.
Context {L : BnLow} {LO : BnLowOk L}.

(** ** Addition and subtraction *)

(** The low digits and the rest of a number. *)
Lemma view_split a k n : buf a -> (k + n <= RLC_BN_SIZE)%nat ->
  val (view a 0 (k + n)) = val (view a 0 k) + Bp k * val (view a k n).
Proof.
  intros Hb H. destruct (view_facts a 0 (k + n) Hb H) as [_ L0].
  rewrite (val_firstn_skipn k (view a 0 (k + n))) by lia. unfold view. cbn [skipn].
  rewrite firstn_firstn, Nat.min_l, skipn_firstn_comm by lia.
  replace (k + n - k)%nat with n by lia. reflexivity.
Qed.

(** The digits of a sum and its carry. *)
Lemma add_digits c a b : wf a -> wf b -> (used b <= used a)%nat -> buf c ->
  returns (if (used a =? used b)%nat then
      let '(d, carry) := low_addn (view a 0 (used a)) (view b 0 (used a)) in
      let! c := store c 0 d in Ok (c, carry)
    else
      let '(d, carry) := low_addn (view a 0 (used b)) (view b 0 (used b)) in
      let! c := store c 0 d in
      let '(d, carry) := low_add1 (view a (used b) (used a - used b)) carry in
      let! c := store c (used b) d in Ok (c, carry))
  (fun '(c', cy) => exists l, has c' l /\ length l = used a /\ sign c' = sign c /\
     used c' = used c /\ val l + Bp (used a) * cy = mag a + mag b /\ dig cy /\ digs l).
Proof.
  intros Ha Hb Hle Hc. pose proof Ha as (Hba & Hua & _). pose proof Hb as (Hbb & Hub & _).
  pose proof B_gt as HB.
  destruct (Nat.eqb_spec (used a) (used b)) as [E|E].
  - destruct (view_facts a 0 (used a) Hba ltac:(lia)) as [Da La].
    destruct (view_facts b 0 (used a) Hbb ltac:(lia)) as [Db Lb].
    destruct (low_addn _ _) as [d cy] eqn:El. apply addn_ok in El as (Ev & Dd & Ld & Hcy); auto; try lia.
    rewrite La in *. eapply returns_bind; [apply store_front; auto; lia|].
    intros c' (Hh & Hu & Hs). cbn. exists d. repeat split; try apply Hh; auto; try (unfold dig; lia).
    rewrite E in Ev at 3. exact Ev.
  - destruct (view_facts a 0 (used b) Hba ltac:(lia)) as [Da La].
    destruct (view_facts b 0 (used b) Hbb ltac:(lia)) as [Db Lb].
    destruct (view_facts a (used b) (used a - used b) Hba ltac:(lia)) as [Da' La'].
    destruct (low_addn _ _) as [d cy] eqn:El. apply addn_ok in El as (Ev & Dd & Ld & Hcy); auto; try lia.
    rewrite La in *. eapply returns_bind; [apply store_front; auto; lia|].
    intros c1 (Hh & Hu & Hs).
    destruct (low_add1 _ _) as [d' cy'] eqn:El'.
    apply add1_ok in El' as (Ev' & Dd' & Ld' & Hcy'); auto; try (unfold dig; lia).
    rewrite La' in *. eapply returns_bind; [apply store_ok; eauto; lia|].
    intros c2 (Hh2 & Hu2 & Hs2). cbn. exists (d ++ d').
    refine (conj Hh2 (conj _ (conj _ (conj _ (conj _ (conj Hcy' (digs_app _ _ Dd Dd'))))))); try congruence;
      [rewrite length_app; lia|].
    rewrite val_app, Ld. pose proof (view_split a (used b) (used a - used b) Hba ltac:(lia)) as Es.
    replace (used b + (used a - used b))%nat with (used a) in Es by lia.
    unfold mag, digs_of. rewrite Es.
    replace (Bp (used a)) with (Bp (used b) * Bp (used a - used b))
      by (rewrite <- Bp_add; f_equal; lia).
    apply (f_equal (Z.mul (Bp (used b)))) in Ev'. lia.
Qed.

Lemma bn_add_imp_ok c a b : buf c -> wf a -> wf b -> mag b <= mag a ->
  fits (mag a + mag b) ->
  returns (bn_add_imp c a b) (fun r => repr r (sgn (sign c) * (mag a + mag b)) /\ canonical r).
Proof.
  intros Hc Ha Hb Hle Hf. pose proof (used_mono a b Ha Hb Hle) as Hu.
  pose proof Ha as (_ & Hua & _). pose proof Hb as (_ & Hub & _). unfold bn_add_imp.
  destruct (Nat.eqb_spec (used b) 0); [lia|]. grow.
  eapply returns_bind; [apply add_digits; auto|].
  intros [c1 cy] (l & Hh & Ll & Hs & Hused & Ev & Hcy & Dl).
  pose proof (val_bound l Dl) as Hl. rewrite Ll in Hl.
  pose proof (mag_bound a Ha). pose proof (mag_bound b Hb).
  pose proof (Bp_le (used b) (used a) Hu). pose proof (Bp_pos (used a)) as HP. unfold dig in Hcy.
  assert (Hcy1 : cy = 0 \/ cy = 1) by nia.
  destruct Hcy1 as [-> | ->]; cbn [Z.eqb bind returns].
  - replace (used a + Z.to_nat 0)%nat with (length l) by (cbn; lia).
    rewrite <- Ev, Z.mul_0_r, Z.add_0_r.
    apply repr_trim; auto; lia.
  - unfold fits in Hf. rewrite Z.abs_eq in Hf by lia.
    assert (used a < RLC_BN_SIZE)%nat by (apply Bp_lt_inv; nia).
    grow. eapply returns_bind; [apply (store_ok c1 (used a) l [1]); cbn [length]; auto with digits; lia|].
    intros c2 (Hh2 & Hu2 & Hs2). cbn [returns].
    replace (used a + Z.to_nat 1)%nat with (length (l ++ [1])) by (rewrite length_app; cbn; lia).
    assert (Ev' : mag a + mag b = val (l ++ [1])) by (rewrite val_app, Ll; cbn [val]; lia).
    rewrite Ev'. apply repr_trim; auto; [rewrite length_app; cbn; lia|cbn; congruence].
Qed.

(** A sum that needs one digit more than the precision is refused. *)
Lemma bn_add_imp_overflow c a b : buf c -> wf a -> wf b -> mag b <= mag a ->
  ~ fits (mag a + mag b) -> bn_add_imp c a b = Throw ERR_NO_PRECI.
Proof.
  intros Hc Ha Hb Hle Hf. pose proof (used_mono a b Ha Hb Hle) as Hu.
  pose proof Ha as (_ & Hua & _). pose proof Hb as (_ & Hub & _). unfold bn_add_imp.
  destruct (Nat.eqb_spec (used b) 0); [lia|]. grow.
  destruct (returns_ex _ _ (add_digits c a b Ha Hb Hu Hc)) as ([c1 cy] & E & l & _ & Ll & _ & _ & Ev & Hcy & Dl).
  rewrite E. cbn [bind].
  pose proof (val_bound l Dl) as Hl. rewrite Ll in Hl.
  pose proof (mag_bound a Ha). pose proof (mag_bound b Hb). unfold fits in Hf.
  pose proof (Bp_le (used a) RLC_BN_SIZE ltac:(lia)). pose proof (Bp_pos (used a)) as HP.
  destruct (Z.eqb_spec cy 0) as [->|Hn]; [lia|].
  assert (used a = RLC_BN_SIZE).
  { destruct (Nat.eq_dec (used a) RLC_BN_SIZE) as [|Hne]; [assumption|].
    pose proof (Bp_le (S (used a)) RLC_BN_SIZE ltac:(lia)) as H5. rewrite Bp_S in H5.
    pose proof B_gt. pose proof (Bp_le (used b) (used a) Hu). nia. }
  rewrite bn_grow_fail by lia. reflexivity.
Qed.

Lemma bn_sub_imp_ok c a b : buf c -> wf a -> wf b -> mag b <= mag a ->
  returns (bn_sub_imp c a b) (fun r => wf r /\ mag r = mag a - mag b).
Proof.
  intros Hc Ha Hb Hle. pose proof (used_mono a b Ha Hb Hle) as Hu.
  pose proof Ha as (Hba & Hua & _). pose proof Hb as (Hbb & Hub & _). unfold bn_sub_imp.
  destruct (Nat.eqb_spec (used b) 0); [lia|]. grow.
  pose proof (mag_bound a Ha) as Hma. pose proof (mag_bound b Hb) as Hmb.
  apply returns_bind with (P := fun c' => exists l, has c' l /\ length l = used a /\ val l = mag a - mag b).
  2: { intros c1 (l & Hh & Ll & Ev). cbn [returns].
       destruct (bn_trim_ok (set_used c1 (used a)) l) as (Hw & Hm & _); auto; [lia|]. split; [exact Hw|lia]. }
  destruct (view_facts a 0 (used b) Hba ltac:(lia)) as [Da La].
  destruct (view_facts b 0 (used b) Hbb ltac:(lia)) as [Db Lb].
  destruct (low_subn _ _) as [d cy] eqn:El. apply subn_ok in El as (Ev & Dd & Ld & Hcy); auto; try lia.
  rewrite La in *. pose proof (val_bound d Dd) as Hd. rewrite Ld in Hd.
  destruct (Nat.eqb_spec (used a) (used b)) as [E|E].
  - eapply returns_mono; [apply store_front; auto; lia|].
    intros c' (Hh & _ & _). exists d. repeat split; try apply Hh; [lia|].
    unfold mag, digs_of in *. rewrite E in *. pose proof (Bp_pos (used b)). assert (cy = 0) by nia. subst cy. lia.
  - destruct (view_facts a (used b) (used a - used b) Hba ltac:(lia)) as [Da' La'].
    eapply returns_bind; [apply store_front; auto; lia|].
    intros c1 (Hh & _ & _). destruct (low_sub1 _ _) as [d' cy'] eqn:El'.
    apply sub1_ok in El' as (Ev' & Dd' & Ld' & Hcy'); auto; try (unfold dig; pose proof B_gt; lia).
    rewrite La' in *. eapply returns_mono; [apply store_ok; eauto; lia|].
    intros c2 (Hh2 & _ & _). exists (d ++ d'). split; [exact Hh2|]. split; [rewrite length_app; lia|].
    rewrite val_app, Ld. pose proof (view_split a (used b) (used a - used b) Hba ltac:(lia)) as Es.
    replace (used b + (used a - used b))%nat with (used a) in Es by lia.
    unfold mag, digs_of in *. rewrite Es in *.
    assert (EP : Bp (used a) = Bp (used b) * Bp (used a - used b)) by (rewrite <- Bp_add; f_equal; lia).
    rewrite EP in *. pose proof (val_bound d' Dd') as Hd'. rewrite Ld' in Hd'.
    pose proof (Bp_pos (used b)). pose proof (Bp_pos (used a - used b)). unfold dig in Hcy'.
    assert (cy' = 0) by nia. subst cy'. nia.
Qed.

Lemma wf_is a : wf a -> repr a (ival a).
Proof. split; [assumption|reflexivity]. Qed.

(** Addition and subtraction of signed integers: the sign logic shared by both. *)
Lemma signed_sum c a b sa sb : buf c -> wf a -> wf b ->
  let x := sgn sa * mag a in
  let y := sgn sb * mag b in
  fits (x + y) ->
  returns
    (if sign_eqb sa sb then
       if cmp_eqb (bn_cmp_abs a b) RLC_LT then bn_add_imp (set_sign c sa) b a
       else bn_add_imp (set_sign c sa) a b
     else if cmp_eqb (bn_cmp_abs a b) RLC_LT then
       let! c := bn_sub_imp c b a in Ok (set_sign c sb)
     else let! c := bn_sub_imp c a b in Ok (set_sign c sa))
    (fun r => repr r (x + y)).
Proof.
  intros Hc Ha Hb x y Hf. pose proof (mag_bound a Ha). pose proof (mag_bound b Hb).
  rewrite bn_cmp_abs_ok, cmpZ_lt by assumption. subst x y.
  assert (Hsum : forall s u v, wf u -> wf v -> mag v <= mag u ->
    fits (sgn s * (mag u + mag v)) ->
    returns (bn_add_imp (set_sign c s) u v) (fun r => repr r (sgn s * (mag u + mag v)))).
  { intros s u v Hu Hv Hle Hfs. eapply returns_mono; [apply bn_add_imp_ok; auto|tauto].
    pose proof (mag_bound u Hu). pose proof (mag_bound v Hv). unfold fits in *.
    destruct s; cbn [sgn] in *; lia. }
  assert (Hdiff : forall s u v, wf u -> wf v -> mag v <= mag u ->
    returns (let! c := bn_sub_imp c u v in Ok (set_sign c s))
            (fun r => repr r (sgn s * (mag u - mag v)))).
  { intros s u v Hu Hv Hle. eapply returns_bind; [apply bn_sub_imp_ok; auto|].
    intros r [Hw Hm]. cbn [returns]. split; [exact Hw|]. unfold ival. cbn [sign set_sign].
    rewrite mag_set_sign, Hm. reflexivity. }
  destruct (Z.ltb_spec (mag a) (mag b)); destruct sa, sb; cbn [sign_eqb]; cbn [sgn] in *;
    (eapply returns_mono; [first [apply Hsum | apply Hdiff]; auto; try lia;
       (* fits *) cbn [sgn]; unfold fits in *; lia
     |cbn [sgn]; intros r [Hw Hr]; split; [exact Hw|lia]]).
Qed.

Lemma bn_add_ok c a b x y : buf c -> repr a x -> repr b y -> fits (x + y) ->
  returns (bn_add c a b) (fun r => repr r (x + y)).
Proof. intros Hc [Ha <-] [Hb <-]. apply signed_sum; assumption. Qed.

Lemma bn_sub_signs c a b :
  bn_sub c a b =
  (if sign_eqb (sign a) (sign_flip (sign b)) then
     if cmp_eqb (bn_cmp_abs a b) RLC_LT then bn_add_imp (set_sign c (sign a)) b a
     else bn_add_imp (set_sign c (sign a)) a b
   else if cmp_eqb (bn_cmp_abs a b) RLC_LT then
     let! c := bn_sub_imp c b a in Ok (set_sign c (sign_flip (sign b)))
   else let! c := bn_sub_imp c a b in Ok (set_sign c (sign a))).
Proof.
  unfold bn_sub. destruct (sign a), (sign b); cbn [sign_eqb sign_flip sign_xor negb];
    destruct (cmp_eqb (bn_cmp_abs a b) RLC_LT); reflexivity.
Qed.

Lemma bn_sub_ok c a b x y : buf c -> repr a x -> repr b y -> fits (x - y) ->
  returns (bn_sub c a b) (fun r => repr r (x - y)).
Proof.
  intros Hc [Ha <-] [Hb <-] Hf. rewrite bn_sub_signs. unfold ival in *.
  assert (E : sgn (sign a) * mag a - sgn (sign b) * mag b =
              sgn (sign a) * mag a + sgn (sign_flip (sign b)) * mag b)
    by (destruct (sign b); cbn [sign_flip sign_xor sign_eqb sgn]; lia).
  rewrite E in *. apply signed_sum; assumption.
Qed.

(** The sum is refused exactly when it does not fit. *)
Lemma bn_add_overflow c a b x y : buf c -> repr a x -> repr b y -> ~ fits (x + y) ->
  bn_add c a b = Throw ERR_NO_PRECI.
Proof.
  intros Hc [Ha <-] [Hb <-] Hf. unfold bn_add. unfold ival, fits in Hf.
  pose proof (mag_fits a Ha). pose proof (mag_fits b Hb).
  rewrite bn_cmp_abs_ok, cmpZ_lt by assumption.
  destruct (sign a), (sign b); cbn [sign_eqb sgn] in *; try lia;
    destruct (Z.ltb_spec (mag a) (mag b)); apply bn_add_imp_overflow; auto with bn; unfold fits; lia.
Qed.

(** [|a| + b] with one digit [b], and the sign [s] of the result. *)
Lemma add1_digits c a b s : buf c -> wf a -> dig b -> fits (mag a + b) ->
  returns (let '(d, carry) := low_add1 (view a 0 (used a)) b in
      let! c := store c 0 d in
      let! c :=
        if carry =? 0 then Ok c
        else let! c := bn_grow c (used a + 1) in store c (used a) [carry] in
      Ok (mk_bn (used a + Z.to_nat carry) s (dp c)))
    (fun r => repr (bn_trim r) (sgn s * (mag a + b)) /\ canonical (bn_trim r)).
Proof.
  intros Hc Ha Hb Hf. pose proof Ha as (Hba & Hua & _).
  destruct (view_facts a 0 (used a) Hba ltac:(lia)) as [Da La].
  destruct (low_add1 _ _) as [d cy] eqn:E. apply add1_ok in E as (Ev & Dd & Ld & Hcy); auto.
  rewrite La in *. fold (digs_of a) in Ev. fold (mag a) in Ev.
  pose proof (mag_bound a Ha). pose proof (val_bound d Dd) as Hd. rewrite Ld in Hd.
  pose proof (Bp_pos (used a)). pose proof B_gt. unfold dig in *.
  assert (B <= Bp (used a)) by (rewrite <- Bp_1; apply Bp_le; lia).
  assert (Hcy1 : cy = 0 \/ cy = 1) by nia.
  eapply returns_bind; [apply store_front; auto; lia|]. intros c1 (Hh & _ & _).
  destruct Hcy1 as [-> | ->]; cbn [Z.eqb bind returns].
  - replace (mag a + b) with (val d) by lia.
    apply repr_trim; auto; cbn; lia.
  - unfold fits in Hf. assert (used a < RLC_BN_SIZE)%nat by (apply Bp_lt_inv; nia). grow.
    eapply returns_bind; [apply (store_ok c1 (used a) d [1]); cbn [length]; auto with digits; lia|].
    intros c2 (Hh2 & _ & _). cbn [returns].
    replace (mag a + b) with (val (d ++ [1])) by (rewrite val_app, Ld; cbn [val]; lia).
    apply repr_trim; auto; [|rewrite length_app; cbn; lia].
    cbn [used]. rewrite length_app. cbn. lia.
Qed.

(** [|a| - b] when [b <= |a|]. *)
Lemma sub1_digits c a b s : buf c -> wf a -> dig b -> b <= mag a ->
  returns (let '(d, _) := low_sub1 (view a 0 (used a)) b in
      let! c := store c 0 d in Ok (mk_bn (used a) s (dp c)))
    (fun r => repr (bn_trim r) (sgn s * (mag a - b)) /\ canonical (bn_trim r)).
Proof.
  intros Hc Ha Hb Hle. pose proof Ha as (Hba & Hua & _).
  destruct (view_facts a 0 (used a) Hba ltac:(lia)) as [Da La].
  destruct (low_sub1 _ _) as [d cy] eqn:E. apply sub1_ok in E as (Ev & Dd & Ld & Hcy); auto.
  rewrite La in *. fold (digs_of a) in Ev. fold (mag a) in Ev.
  pose proof (mag_bound a Ha). pose proof (val_bound d Dd) as Hd. rewrite Ld in Hd.
  unfold dig in *. assert (cy = 0) by nia. subst cy.
  eapply returns_bind; [apply store_front; auto; lia|]. intros c1 (Hh & _ & _). cbn [returns].
  replace (mag a - b) with (val d) by lia. apply repr_trim; auto; cbn; lia.
Qed.

(** The test for [b <= |a|] and the branch taken when it fails. *)
Lemma dig_le_mag a b : wf a -> dig b -> (1 <? used a)%nat || (b <=? nth 0 (dp a) 0) = (b <=? mag a).
Proof.
  intros Ha Hb. unfold dig in Hb. pose proof Ha as (_ & Hu & _).
  destruct (Nat.ltb_spec 1 (used a)); cbn [orb].
  - pose proof (mag_low a Ha ltac:(lia)). pose proof (Bp_le 1 (used a - 1) ltac:(lia)).
    rewrite Bp_1 in *. symmetry. apply Z.leb_le. lia.
  - rewrite nth0_mag by exact Ha. pose proof (mag_bound a Ha) as Hm.
    replace (used a) with 1%nat in Hm by lia. rewrite Bp_1 in Hm. rewrite Z.mod_small by lia. reflexivity.
Qed.

Lemma rsub_digits c a b s : buf c -> wf a -> dig b -> mag a < b ->
  returns (let! c := store c 0 [if (used a =? 1)%nat then dsub b (nth 0 (dp a) 0) else b] in
           Ok (mk_bn 1 s (dp c)))
    (fun r => repr (bn_trim r) (sgn s * (b - mag a)) /\ canonical (bn_trim r)).
Proof.
  intros Hc Ha Hb Hlt. pose proof (mag_bound a Ha). pose proof BN_SIZE_pos. pose proof Ha as (_ & Hu & _).
  pose proof (dig_le_mag a b Ha Hb) as E. replace (b <=? mag a) with false in E by (symmetry; apply Z.leb_gt; lia).
  apply orb_false_iff in E as [E _]. apply Nat.ltb_ge in E. unfold dig in Hb.
  assert (Eu : used a = 1%nat) by lia. rewrite Eu. cbn [Nat.eqb].
  rewrite nth0_mag, (Z.mod_small (mag a)) by (auto; lia).
  assert (Ed : dsub b (mag a) = b - mag a) by (apply Z.mod_small; lia).
  eapply returns_bind; [apply store_front; auto with digits; cbn; lia|]. intros c1 (Hh & _ & _).
  cbn [returns]. replace (b - mag a) with (val [dsub b (mag a)]) by (cbn [val]; lia).
  apply repr_trim; auto; cbn; lia.
Qed.

Lemma bn_add_dig_ok c a x d : buf c -> repr a x -> dig d -> fits (x + d) ->
  returns (bn_add_dig c a d) (fun r => repr r (x + d) /\ canonical r).
Proof.
  intros Hc [Ha <-] Hd Hf. pose proof Ha as (_ & Hu & _). pose proof (mag_bound a Ha).
  unfold bn_add_dig. grow. rewrite dig_le_mag by assumption. unfold ival in *. unfold fits, dig in *.
  destruct (sign a); cbn [sign_eqb sgn] in *.
  - eapply returns_bind; [apply (add1_digits c a d RLC_POS)|cbn [sgn returns]]; unfold fits; auto; try lia.
    intros r Hr. replace (1 * mag a + d) with (1 * (mag a + d)) by lia. exact Hr.
  - destruct (Z.leb_spec d (mag a)).
    + eapply returns_bind; [apply (sub1_digits c a d RLC_NEG)|cbn [sgn returns]]; auto.
      intros r Hr. replace (-1 * mag a + d) with (-1 * (mag a - d)) by lia. exact Hr.
    + eapply returns_bind; [apply (rsub_digits c a d RLC_POS)|cbn [sgn returns]]; auto.
      intros r Hr. replace (-1 * mag a + d) with (1 * (d - mag a)) by lia. exact Hr.
Qed.

Lemma bn_sub_dig_ok c a x d : buf c -> repr a x -> dig d -> fits (x - d) ->
  returns (bn_sub_dig c a d) (fun r => repr r (x - d) /\ canonical r).
Proof.
  intros Hc [Ha <-] Hd Hf. pose proof Ha as (_ & Hu & _). pose proof (mag_bound a Ha).
  unfold bn_sub_dig. grow. rewrite dig_le_mag by assumption. unfold ival in *. unfold fits, dig in *.
  destruct (sign a); cbn [sign_eqb sgn] in *.
  - destruct (Z.leb_spec d (mag a)).
    + eapply returns_bind; [apply (sub1_digits c a d RLC_POS)|cbn [sgn returns]]; auto.
      intros r Hr. replace (1 * mag a - d) with (1 * (mag a - d)) by lia. exact Hr.
    + eapply returns_bind; [apply (rsub_digits c a d RLC_NEG)|cbn [sgn returns]]; auto.
      intros r Hr. replace (1 * mag a - d) with (-1 * (d - mag a)) by lia. exact Hr.
  - eapply returns_bind; [apply (add1_digits c a d RLC_NEG)|cbn [sgn returns]]; unfold fits; auto; try lia.
    intros r Hr. replace (-1 * mag a - d) with (-1 * (mag a + d)) by lia. exact Hr.
Qed.

(** ** Shifts *)

Lemma used_le a x n : repr a x -> Z.abs x < Bp n -> (1 <= n)%nat -> (used a <= n)%nat.
Proof.
  intros [Ha <-] Hx Hn. rewrite ival_abs in Hx by exact Ha.
  destruct (Nat.le_gt_cases (used a) n) as [|Hgt]; [assumption|].
  pose proof (mag_low a Ha ltac:(lia)). pose proof (Bp_le n (used a - 1) ltac:(lia)). lia.
Qed.

(** Without trimming: the leading digit of a doubled number is not zero. *)
Lemma repr_untrimmed c l s : has c l -> (1 <= length l <= RLC_BN_SIZE)%nat ->
  (length l = 1%nat \/ Bp (length l - 1) <= val l) ->
  repr (mk_bn (length l) s (dp c)) (sgn s * val l).
Proof.
  intros [Hb Hl] Hlen Htop. split; [|unfold ival, mag, digs_of, view; cbn [used sign dp skipn]; rewrite Hl; reflexivity].
  split; [exact Hb|]. split; [exact Hlen|]. cbn [used dp]. destruct Htop as [Ht|Ht]; [left; exact Ht|right].
  assert (Dl : digs l) by (rewrite <- Hl; apply digs_firstn, Hb).
  assert (E : nth (length l - 1) (dp c) 0 = val l / Bp (length l - 1)).
  { rewrite <- (firstn_skipn (length l) (dp c)), Hl, app_nth1 by lia.
    apply top_digit; [exact Dl|]. replace (S (length l - 1)) with (length l) by lia. apply val_bound, Dl. }
  rewrite E. pose proof (Bp_pos (length l - 1)).
  pose proof (Z.div_le_lower_bound (val l) (Bp (length l - 1)) 1 ltac:(lia) ltac:(lia)). lia.
Qed.

Lemma bn_dbl_ok c a x : buf c -> repr a x -> (used a < RLC_BN_SIZE)%nat ->
  returns (bn_dbl c a) (fun r => repr r (2 * x) /\ (canonical a -> canonical r)).
Proof.
  intros Hc [Ha <-] Hsz. pose proof Ha as (Hba & Hua & _). unfold bn_dbl. grow.
  destruct (view_facts a 0 (used a) Hba ltac:(lia)) as [Da La].
  destruct (low_lsh1 _) as [d cy] eqn:E. apply lsh1_ok in E as (Ev & Dd & Ld & Hcy); auto.
  rewrite La in *. fold (digs_of a) in Ev. fold (mag a) in Ev.
  pose proof (val_bound d Dd) as Hd. rewrite Ld in Hd. pose proof (mag_bound a Ha).
  eapply returns_bind; [apply store_front; auto; lia|]. intros c1 (Hh & _ & _).
  assert (Hlow : used a = 1%nat \/ Bp (used a - 1) <= mag a).
  { destruct (Nat.eq_dec (used a) 1); [left; assumption|right; apply mag_low; auto; lia]. }
  apply returns_bind with (P := fun c' => exists l, has c' l /\ used c' = length l /\
    (1 <= length l <= RLC_BN_SIZE)%nat /\ val l = 2 * mag a /\
    (length l = 1%nat \/ Bp (length l - 1) <= val l)).
  - destruct (Z.eqb_spec cy 0) as [->|Hn].
    + exists d. cbn [set_used used]. rewrite Ld. repeat split; try apply Hh; auto; try lia.
    + assert (cy = 1) by lia. subst cy. cbn [set_used used].
      eapply returns_bind; [apply (store_ok (set_used c1 (used a)) (used a) d [1]);
        cbn [length]; auto with digits; lia|].
      intros c2 (Hh2 & Hu2 & _). cbn [returns]. exists (d ++ [1]). rewrite length_app, Ld. cbn [length].
      assert (Ev2 : val (d ++ [1]) = 2 * mag a) by (rewrite val_app, Ld; cbn [val]; lia).
      rewrite Ev2. replace (used a + 1 - 1)%nat with (used a) by lia.
      split; [exact Hh2|]. split; [cbn [set_used used] in *; lia|]. repeat split; lia.
  - intros r (l & Hr & Hu & Hlen & Hv & Ht). cbn [returns].
    pose proof (repr_untrimmed r l (sign a) Hr Hlen Ht) as Hx. rewrite <- Hu, Hv in Hx.
    replace (sgn (sign a) * (2 * mag a)) with (2 * ival a) in Hx by (unfold ival; lia).
    split; [exact Hx|]. intros Hca H0. apply Hca. destruct Hx as [_ Hx].
    unfold set_sign in H0. lia.
Qed.

Lemma bn_hlv_ok c a x : buf c -> repr a x ->
  returns (bn_hlv c a) (fun r => repr r (Z.quot x 2) /\ canonical r).
Proof.
  intros Hc [Ha <-]. unfold bn_hlv. eapply returns_bind; [apply bn_copy_eq; auto|].
  intros c1 (Hw & Hu & Hs & Hd). pose proof Hw as (Hb1 & Hu1 & _).
  destruct (view_facts c1 0 (used c1) Hb1 ltac:(lia)) as [Da La].
  destruct (low_rsh1 _) as [d cy] eqn:E. apply rsh1_ok in E as (Ev & Dd & Ld & Hcy); auto.
  rewrite La in *. fold (digs_of c1) in Ev. rewrite Hd in Ev. fold (mag a) in Ev.
  eapply returns_bind; [apply store_front; auto; lia|]. intros c2 (Hh & Hu2 & Hs2). cbn [returns].
  pose proof (val_bound d Dd). pose proof (mag_bound a Ha).
  assert (Eq : Z.quot (ival a) 2 = sgn (sign a) * val d).
  { assert (Ed : Z.quot (mag a) 2 = val d)
      by (rewrite Z.quot_div_nonneg by lia; symmetry; apply Z.div_unique with cy; lia).
    unfold ival. destruct (sign a); cbn [sgn]; [rewrite !Z.mul_1_l; exact Ed|].
    replace (-1 * mag a) with (- mag a) by lia. rewrite Z.quot_opp_l by lia. lia. }
  rewrite Eq. apply repr_trim; auto; try lia. congruence.
Qed.

(** The copy at the start of the shifts. *)
Lemma copy_then {R} c a (f : bn -> result R) P : buf c -> wf a ->
  (forall c1, has c1 (digs_of a) -> wf c1 -> used c1 = used a -> sign c1 = sign a -> returns (f c1) P) ->
  returns (let! c := bn_copy c a in f c) P.
Proof.
  intros Hc Ha Hf. eapply returns_bind; [apply bn_copy_eq; auto|].
  intros c1 (Hw & Hu & Hs & Hd). destruct (digs_of_facts a Ha) as [_ HL]. apply Hf; auto.
  split; [apply Hw|]. rewrite HL, <- Hu. exact Hd.
Qed.

Lemma has_prefix c l1 l2 : has c (l1 ++ l2) -> has c l1.
Proof.
  intros [Hb Hl]. split; [exact Hb|]. apply (f_equal (firstn (length l1))) in Hl.
  rewrite firstn_firstn, length_app, Nat.min_l, firstn_app, Nat.sub_diag, firstn_all in Hl by lia.
  cbn [firstn] in Hl. rewrite app_nil_r in Hl. exact Hl.
Qed.

Lemma sgn_quot s m p : 0 <= m -> 0 < p -> sgn s * (m / p) = Z.quot (sgn s * m) p.
Proof.
  intros Hm Hp. destruct s; cbn [sgn].
  - rewrite !Z.mul_1_l. symmetry. apply Z.quot_div_nonneg; lia.
  - replace (-1 * m) with (- m) by lia. rewrite Z.quot_opp_l by lia.
    rewrite Z.quot_div_nonneg by lia. lia.
Qed.

Lemma bn_lsh_ok c a x bits : buf c -> repr a x -> 0 <= bits ->
  (used a + Z.to_nat (RLC_RIP_d bits) + (if (0 <? RLC_RIP_b bits)%Z then 1 else 0) <= RLC_BN_SIZE)%nat ->
  returns (bn_lsh c a bits) (fun r => repr r (x * 2 ^ bits) /\ (canonical a -> canonical r)).
Proof.
  intros Hc [Ha <-] Hbits Hsz. pose proof Ha as (Hba & Hua & _). unfold bn_lsh.
  apply copy_then; auto. intros c1 Hh1 Hw1 Hu1 Hs1.
  destruct (digs_of_facts a Ha) as [Da La].
  destruct (Z.leb_spec bits 0) as [H0|H0].
  { replace bits with 0 by lia. cbn [returns]. change (2 ^ 0) with 1. rewrite Z.mul_1_r.
    assert (Ei : ival c1 = ival a).
    { unfold ival, mag. rewrite Hs1. f_equal. f_equal. destruct Hh1 as [_ Hh1].
      unfold digs_of at 1, view. cbn [skipn]. rewrite Hu1, <- La. exact Hh1. }
    split; [split; auto|]. unfold canonical. rewrite Ei, Hs1. auto. }
  destruct (RLC_RIP_spec bits Hbits) as (Eb & Hd & Hb).
  set (dz := RLC_RIP_d bits) in *. set (b := RLC_RIP_b bits) in *. clearbody dz b.
  set (digits := Z.to_nat dz) in *. assert (Edz : dz = Z.of_nat digits) by (subst digits; lia).
  clearbody digits. subst dz. rewrite Hu1. grow.
  set (c1' := mk_bn (used a + digits) (sign a) (dp c1)).
  apply returns_bind with (P := fun c2 => has c2 (repeat 0 digits ++ digs_of a) /\
    used c2 = (used a + digits)%nat /\ sign c2 = sign a).
  { destruct (Nat.ltb_spec 0 digits) as [Hdp|Hdp].
    - unfold dv_lshd. cbn [c1' used]. rewrite Nat.add_sub.
      eapply returns_mono; [apply (store_front c1' (repeat 0 digits ++ digs_of a))|]; auto with bn.
      + exact (proj1 Hh1).
      + auto with digits.
      + rewrite length_app, repeat_length. lia.
    - replace digits with 0%nat by lia. cbn [returns repeat app]. split; [exact Hh1|]. cbn. split; [lia|reflexivity]. }
  intros c2 (Hh2 & Hu2 & Hs2).
  apply returns_bind with (P := fun c3 => exists l, has c3 l /\ used c3 = length l /\
    (length l <= RLC_BN_SIZE)%nat /\ sign c3 = sign a /\ val l = mag a * 2 ^ bits).
  2: { intros c3 (l & Hh3 & Hu3 & Hl3 & Hs3 & Hv). cbn [returns].
       destruct (repr_trim c3 l (sign a) Hh3 Hu3 Hl3 Hs3) as [Hr Hcr]. rewrite Hv in Hr.
       unfold ival at 1. rewrite <- Z.mul_assoc. split; [exact Hr|auto]. }
  assert (EP : 2 ^ bits = Bp digits * 2 ^ b) by (rewrite Eb, Z.pow_add_r, Bp_pow2 by lia; reflexivity).
  destruct (Z.ltb_spec 0 b) as [Hbp|Hbp].
  - fold (digs_of a). destruct (low_lshb (digs_of a) b) as [d cy] eqn:E.
    apply lshb_ok in E as (Ev & Dd & Ld & Hcy); auto; [|unfold RLC_DIG; lia]. rewrite La in *. fold (mag a) in Ev.
    apply has_prefix in Hh2.
    eapply returns_bind; [apply (store_ok c2 digits (repeat 0 digits) d); auto; rewrite repeat_length; lia|].
    intros c3 (Hh3 & Hu3 & Hs3).
    assert (Vl : forall e, val ((repeat 0 digits ++ d) ++ e) = Bp digits * (val d + Bp (used a) * val e)).
    { intros e. rewrite !val_app, length_app, val_repeat0, repeat_length, Ld, Bp_add. ring. }
    destruct (Z.eqb_spec cy 0) as [->|Hn].
    + exists (repeat 0 digits ++ d). rewrite length_app, repeat_length, Ld.
      specialize (Vl []). rewrite app_nil_r in Vl. rewrite Vl, EP. cbn [val].
      split; [exact Hh3|]. repeat split; try lia. congruence.
    + assert (dig cy).
      { unfold dig. pose proof (Z.pow_le_mono_r 2 b 64 ltac:(lia) ltac:(lia)). rewrite <- B_pow2 in *. lia. }
      eapply returns_bind; [apply (store_ok c3 (used c3) (repeat 0 digits ++ d) [cy]);
        rewrite ?length_app, ?repeat_length; cbn [length]; auto with digits; lia|].
      intros c4 (Hh4 & Hu4 & Hs4). exists ((repeat 0 digits ++ d) ++ [cy]).
      rewrite Vl, EP, !length_app, repeat_length, Ld. cbn [val length set_used used sign].
      split; [exact Hh4|]. repeat split; try lia. congruence.
  - exists (repeat 0 digits ++ digs_of a). rewrite length_app, repeat_length, La, val_app, val_repeat0, repeat_length, EP.
    assert (b = 0) by lia. subst b. fold (mag a). change (2 ^ 0) with 1.
    split; [exact Hh2|]. repeat split; try lia. exact Hs2.
Qed.

Lemma bn_rsh_ok c a x bits : buf c -> repr a x -> 0 <= bits ->
  returns (bn_rsh c a bits) (fun r => repr r (Z.quot x (2 ^ bits)) /\ (canonical a -> canonical r)).
Proof.
  intros Hc [Ha <-] Hbits. pose proof Ha as (Hba & Hua & _). unfold bn_rsh.
  apply copy_then; auto. intros c1 Hh1 Hw1 Hu1 Hs1.
  destruct (digs_of_facts a Ha) as [Da La]. pose proof (mag_bound a Ha) as Hma.
  destruct (Z.leb_spec bits 0) as [H0|H0].
  { replace bits with 0 by lia. cbn [returns]. change (2 ^ 0) with 1. rewrite Z.quot_1_r.
    assert (Ei : ival c1 = ival a).
    { unfold ival, mag. rewrite Hs1. f_equal. f_equal. destruct Hh1 as [_ Hh1].
      unfold digs_of at 1, view. cbn [skipn]. rewrite Hu1, <- La. exact Hh1. }
    split; [split; auto|]. unfold canonical. rewrite Ei, Hs1. auto. }
  destruct (RLC_RIP_spec bits Hbits) as (Eb & Hd & Hb).
  set (dz := RLC_RIP_d bits) in *. set (b := RLC_RIP_b bits) in *. clearbody dz b.
  set (digits := Z.to_nat dz) in *. assert (Edz : dz = Z.of_nat digits) by (subst digits; lia).
  clearbody digits. subst dz.
  set (v := skipn digits (digs_of a)).
  assert (Dv : digs v) by (subst v; auto with digits).
  assert (Lv : length v = (used a - digits)%nat) by (subst v; rewrite length_skipn; lia).
  assert (Vv : val v = mag a / Bp digits).
  { destruct (Nat.le_gt_cases digits (used a)).
    - apply val_skipn; auto; lia.
    - subst v. rewrite skipn_all2 by lia. cbn [val]. symmetry. apply Z.div_small.
      pose proof (Bp_le (used a) digits ltac:(lia)). lia. }
  assert (EP : 2 ^ bits = Bp digits * 2 ^ b) by (rewrite Eb, Z.pow_add_r, Bp_pow2 by lia; reflexivity).
  pose proof (Bp_pos digits) as HP. assert (HN : 0 < 2 ^ b) by (apply Z.pow_pos_nonneg; lia).
  apply returns_bind with (P := fun c2 => has c2 v).
  { destruct (Nat.ltb_spec 0 digits) as [Hdp|Hdp].
    - assert (Ev : firstn (used a - digits) (skipn digits (dp a)) = v).
      { subst v. unfold digs_of, view. cbn [skipn]. rewrite skipn_firstn_comm. reflexivity. }
      unfold dv_rshd. rewrite Ev.
      eapply returns_mono; [apply (store_front c1 (v ++ repeat 0 (used a - (used a - digits))))|].
      + exact (proj1 Hh1).
      + auto with digits.
      + rewrite length_app, repeat_length. lia.
      + intros c2 (Hh2 & _). apply has_prefix in Hh2. exact Hh2.
    - subst v. replace digits with 0%nat by lia. exact Hh1. }
  intros c2 Hh2. rewrite <- Lv. set (c2' := mk_bn (length v) (sign a) (dp c2)).
  apply returns_bind with (P := fun c3 => exists l, has c3 l /\ used c3 = length l /\
    (length l <= RLC_BN_SIZE)%nat /\ sign c3 = sign a /\ val l = mag a / 2 ^ bits).
  2: { intros c3 (l & Hh3 & Hu3 & Hl3 & Hs3 & Hv). cbn [returns].
       destruct (repr_trim c3 l (sign a) Hh3 Hu3 Hl3 Hs3) as [Hr Hcr].
       rewrite Hv, sgn_quot in Hr by (try lia; rewrite EP; nia). split; [exact Hr|auto]. }
  rewrite EP, <- Z.div_div, <- Vv by lia. cbn [c2' used].
  destruct (Nat.ltb_spec 0 (length v)) as [Hv0|Hv0], (Z.ltb_spec 0 b) as [Hb0|Hb0]; cbn [andb].
  - assert (Ew : view c2' 0 (length v) = v) by (exact (proj2 Hh2)). rewrite Ew.
    destruct (low_rshb v b) as [d cy] eqn:E. apply rshb_ok in E as (Ev & Dd & Ld); auto; [|unfold RLC_DIG; lia].
    cbn [fst]. eapply returns_mono; [apply (store_front c2' d); auto; [exact (proj1 Hh2)|lia]|].
    intros c3 (Hh3 & Hu3 & Hs3). exists d. cbn [c2' used sign] in *.
    split; [exact Hh3|]. repeat split; try lia. exact Hs3.
  - exists v. assert (b = 0) by lia. subst b. change (2 ^ 0) with 1. rewrite Z.div_1_r.
    split; [exact Hh2|]. repeat split; lia.
  - exists v. destruct v; [|cbn in Hv0; lia]. cbn [val]. rewrite Z.div_0_l by lia.
    split; [exact Hh2|]. repeat split; cbn; lia.
  - exists v. assert (b = 0) by lia. subst b. change (2 ^ 0) with 1. rewrite Z.div_1_r.
    split; [exact Hh2|]. repeat split; lia.
Qed.
End ArithOk.

(** ** Concrete numbers *)

(** The [n] least significant digits of an integer. *)
Fixpoint digits (n : nat) (z : Z) : list Z :=
  match n with O => [] | S n' => z mod B :: digits n' (z / B) end.

(** The trimmed, canonical number of value [z]. *)
Definition num (z : Z) : bn :=
  bn_trim (mk_bn RLC_BN_SIZE (if z <? 0 then RLC_NEG else RLC_POS) (digits RLC_BN_SIZE (Z.abs z))).

Lemma digits_ok n : forall z, 0 <= z -> digs (digits n z) /\ length (digits n z) = n /\
  val (digits n z) = z mod Bp n.
Proof.
  pose proof B_gt as HB.
  induction n as [|n IH]; intros z Hz; cbn [digits length val].
  - rewrite Bp_0, Z.mod_1_r. split; [constructor|auto].
  - destruct (IH (z / B) ltac:(apply Z.div_pos; lia)) as (D & E & V).
    split; [apply digs_cons; [apply Z.mod_pos_bound; lia|exact D]|]. split; [now rewrite E|].
    rewrite V, Bp_S. pose proof (Bp_pos n). rewrite Z.rem_mul_r by lia. ring.
Qed.

Lemma num_ok z : fits z -> repr (num z) z /\ canonical (num z).
Proof.
  unfold fits. intros Hz. destruct (digits_ok RLC_BN_SIZE (Z.abs z) ltac:(lia)) as (D & E & V).
  unfold num. set (s := if z <? 0 then RLC_NEG else RLC_POS).
  destruct (repr_trim (mk_bn RLC_BN_SIZE s (digits RLC_BN_SIZE (Z.abs z)))
              (digits RLC_BN_SIZE (Z.abs z)) s) as [Hr Hc]; cbn [used sign dp]; try lia; auto.
  - split; [split; [exact E|exact D]|]. cbn [dp]. apply firstn_all.
  - split; [|exact Hc]. rewrite V, Z.mod_small in Hr by lia.
    assert (E2 : sgn s * Z.abs z = z) by (subst s; destruct (Z.ltb_spec z 0); cbn [sgn]; lia).
    rewrite E2 in Hr. exact Hr.
Qed.

Lemma num_repr z : fits z -> repr (num z) z.
Proof. apply num_ok. Qed.

Lemma num_canonical z : fits z -> canonical (num z).
Proof. apply num_ok. Qed.

(** Closes the side conditions of a theorem applied to concrete numbers. *)
Ltac concrete :=
  lazymatch goal with
  | |- buf _ => exact buf_new
  | |- repr _ _ => apply num_repr; vm_compute; reflexivity
  | |- canonical _ => apply num_canonical; vm_compute; reflexivity
  | |- _ => first [ vm_compute; reflexivity | vm_compute; lia | vm_compute; intuition discriminate ]
  end.
