(* ===== verification/BnMul.v ===== *)
(** * Multiplication, squaring and division of multiple precision integers

    bn/relic_bn_mul.c, relic_bn_sqr.c and relic_bn_div.c.  Each method the build
    offers (basic, Comba, Karatsuba) is a definition of its own, and all of them
    compute the same product. *)

From Stdlib Require Import ZArith List Lia Bool.
From S2P Require Import Prelude Dv BnLow Bn BnOk.
Import ListNotations.
Local Open Scope Z_scope.

Section Mul.
Context {L : BnLow}.

(** ** Multiplication (relic_bn_mul.c) *)

Definition bn_mul_dig (c a : bn) (b : Z) : result bn :=
  let! c := bn_grow c (used a + 1) in
  let c := set_sign c (sign a) in
  let '(d, carry) := low_mul1 (view a 0 (used a)) b in
  let! c := store c 0 d in
  let! c := store c (used a) [carry] in
  Ok (bn_trim (set_used c (used a + 1))).

Definition bn_mul_basic (c a b : bn) : result bn :=
  let! t := bn_make (used a + used b) in
  let! t := bn_zero t in
  let t := set_used t (used a + used b) in
  let! t := for_up (used a) 0 (fun i t =>
    let '(d, carry) := low_mula (view t i (used b)) (view b 0 (used b)) (nth i (dp a) 0) in
    let! t := store t i d in
    store t (i + used b) [carry]) t in
  let t := set_sign t (sign_xor (sign a) (sign b)) in
  let t := bn_trim t in
  bn_copy c t.

Definition bn_mul_comba (c a b : bn) : result bn :=
  let! t := bn_make (used a + used b) in
  let t := set_used t (used a + used b) in
  let! t :=
    if (used a =? used b)%nat then
      store t 0 (low_muln (view a 0 (used a)) (view b 0 (used a)))
    else if (used b <? used a)%nat then
      store t 0 (low_muld (view a 0 (used a)) (view b 0 (used b)) 0 (used a + used b))
    else
      store t 0 (low_muld (view b 0 (used b)) (view a 0 (used a)) 0 (used a + used b)) in
  let t := set_sign t (sign_xor (sign a) (sign b)) in
  let t := bn_trim t in
  bn_copy c t.

(** [a0] or [a1]: [n] digits of [a] from index [k] in a fresh number. *)
Definition karat_part (a : bn) (k n : nat) : result bn :=
  let! t := bn_make n in
  let! t := store t 0 (view a k n) in
  Ok (bn_trim (set_used t n)).

(** One step of [bn_mul_karat_imp], with [mul] for the products of the halves. *)
Definition mul_karat_step (mul : bn -> bn -> bn -> result bn) (c a b : bn) : result bn :=
  let h := (Nat.min (used a) (used b) / 2)%nat in
  let! a0 := karat_part a 0 h in
  let! b0 := karat_part b 0 h in
  let! a1 := karat_part a h (used a - h) in
  let! b1 := karat_part b h (used b - h) in
  let! a0b0 := mul bn_new a0 b0 in
  let! a1b1 := mul bn_new a1 b1 in
  let! a1 := bn_add a1 a1 a0 in
  let! b1 := bn_add b1 b1 b0 in
  let! t := mul bn_new a1 b1 in
  let! t := bn_sub t t a0b0 in
  let! t := bn_sub t t a1b1 in
  let! t := bn_lsh t t (Z.of_nat h * RLC_DIG) in
  let! a1b1 := bn_lsh a1b1 a1b1 (2 * Z.of_nat h * RLC_DIG) in
  let! t := bn_add t t a0b0 in
  let! t := bn_add t t a1b1 in
  let t := set_sign t (sign_xor (sign a) (sign b)) in
  let! c := bn_copy c t in
  Ok (bn_trim c).

(** The build multiplies with Comba below the last level ([BN_MUL == COMBA]). *)
Fixpoint bn_mul_karat_imp (c a b : bn) (level : nat) : result bn :=
  mul_karat_step
    (match level with
     | S (S _ as level') => fun c a b => bn_mul_karat_imp c a b level'
     | _ => bn_mul_comba
     end) c a b.

Definition BN_KARAT : nat := 0.
Definition bn_mul_karat (c a b : bn) : result bn := bn_mul_karat_imp c a b BN_KARAT.

(** BN_METHD selects Comba multiplication. *)
Definition bn_mul (c a b : bn) : result bn := bn_mul_comba c a b.

(** ** Squaring (relic_bn_sqr.c) *)

Definition bn_sqr_basic (c a : bn) : result bn :=
  let! t := bn_make (2 * used a) in
  let! t := bn_zero t in
  let! t := for_up (used a - 1) 0 (fun i t =>
    let '(d, carry) := low_sqra (view t (2 * i) (used a - i + 1)) (view a i (used a - i)) in
    let! t := store t (2 * i) d in
    store t (used a + i + 1) [carry]) t in
  let i := (used a - 1)%nat in
  let '(d, _) := low_sqra (view t (2 * i) 2) (view a i 1) in
  let! t := store t (2 * i) d in
  let t := bn_trim (mk_bn (2 * used a) RLC_POS (dp t)) in
  bn_copy c t.

Definition bn_sqr_comba (c a : bn) : result bn :=
  let digits := (2 * used a)%nat in
  let! t := bn_make digits in
  let! t := store t 0 (low_sqrn (view a 0 (used a))) in
  let t := bn_trim (mk_bn digits RLC_POS (dp t)) in
  bn_copy c t.

(** One step of [bn_sqr_karat_imp]. *)
Definition sqr_karat_step (sqr : bn -> bn -> result bn) (c a : bn) : result bn :=
  let h := (used a / 2)%nat in
  let! a0 := karat_part a 0 h in
  let! a1 := karat_part a h (used a - h) in
  let! a0a0 := sqr bn_new a0 in
  let! a1a1 := sqr bn_new a1 in
  let! t := bn_add bn_new a1 a0 in
  let! t := sqr t t in
  let! a0 := bn_add a0 a0a0 a1a1 in
  let! t := bn_sub t t a0 in
  let! t := bn_lsh t t (Z.of_nat h * RLC_DIG) in
  let! a1a1 := bn_lsh a1a1 a1a1 (2 * Z.of_nat h * RLC_DIG) in
  let! t := bn_add t t a0a0 in
  let! t := bn_add t t a1a1 in
  let t := set_sign t RLC_POS in
  bn_copy c t.

Fixpoint bn_sqr_karat_imp (c a : bn) (level : nat) : result bn :=
  sqr_karat_step
    (match level with
     | S (S _ as level') => fun c a => bn_sqr_karat_imp c a level'
     | _ => bn_sqr_comba
     end) c a.

Definition bn_sqr_karat (c a : bn) : result bn := bn_sqr_karat_imp c a BN_KARAT.

(** BN_METHD selects Comba squaring. *)
Definition bn_sqr (c a : bn) : result bn := bn_sqr_comba c a.

(** ** Division (relic_bn_div.c) *)

(** An output argument that may be NULL. *)
Definition out (c : option bn) (f : bn -> result bn) : result (option bn) :=
  match c with
  | None => Ok None
  | Some c => let! c := f c in Ok (Some c)
  end.

(** The outputs [c] and [d], when both are given, are distinct from [a] and [b]. *)
Definition bn_div_imp (c d : option bn) (a b : bn) : result (option bn * option bn) :=
  if cmp_eqb (bn_cmp_abs a b) RLC_LT then
    if sign_eqb (bn_sign a) (bn_sign b) then
      let! c := out c (fun c => bn_zero c) in
      let! d := out d (fun d => bn_copy d a) in
      Ok (c, d)
    else
      let! c := out c (fun c => let! c := bn_set_dig c 1 in bn_neg c c) in
      let! d := out d (fun d => bn_add d a b) in
      Ok (c, d)
  else
    let! x := bn_make (used a + 1) in
    let! q := bn_make (used a + 1) in
    let! y := bn_make (used a + 1) in
    let! r := bn_make (used a + 1) in
    let! q := bn_zero q in
    let! r := bn_zero r in
    let! x := bn_abs x a in
    let! y := bn_abs y b in
    let sign := if sign_eqb (sign a) (sign b) then RLC_POS else RLC_NEG in
    let '(qd, rd) := low_divn (view x 0 (used a)) (view y 0 (used b)) in
    let! q := store q 0 qd in
    let! r := store r 0 rd in
    let q := bn_trim (mk_bn (used a - used b + 1) sign (dp q)) in
    let r := bn_trim (mk_bn (used b) (bn_sign b) (dp r)) in
    let exact := bn_is_zero r || sign_eqb (bn_sign a) (bn_sign b) in
    let! c := out c (fun c => if exact then bn_copy c q else bn_sub_dig c q 1) in
    let! d := out d (fun d => if exact then bn_copy d r else bn_sub d b r) in
    Ok (c, d).

(** [bn_div(c, a, b)] and [bn_div_rem(c, d, a, b)]. *)
Definition bn_div (c a b : bn) : result bn :=
  if bn_is_zero b then Throw ERR_NO_VALID
  else
    let! r := bn_div_imp (Some c) None a b in
    match fst r with Some q => Ok q | None => Undef end.

Definition bn_div_rem (c d : option bn) (a b : bn) : result (option bn * option bn) :=
  if bn_is_zero b then Throw ERR_NO_VALID else bn_div_imp c d a b.

Definition bn_div_dig (c a : bn) (b : Z) : result bn :=
  if b =? 0 then Throw ERR_NO_VALID
  else if (b =? 1) || bn_is_zero a then bn_copy c a
  else
    let! q := bn_make (used a) in
    let '(d, _) := low_div1 (view a 0 (used a)) b in
    let! q := store q 0 d in
    bn_copy c (bn_trim (mk_bn (used a) (sign a) (dp q))).

(** Quotient (when asked for) and remainder. *)
Definition bn_div_rem_dig (c : option bn) (a : bn) (b : Z) : result (option bn * Z) :=
  if b =? 0 then Throw ERR_NO_VALID
  else if (b =? 1) || bn_is_zero a then
    let! c := out c (fun c => bn_copy c a) in Ok (c, 0)
  else
    let! q := bn_make (used a) in
    let '(d, r) := low_div1 (view a 0 (used a)) b in
    let! q := store q 0 d in
    let! c := out c (fun c => bn_copy c (bn_trim (mk_bn (used a) (sign a) (dp q)))) in
    Ok (c, r).

End Mul.
