(* ===== verification/BnMulOk.v ===== *)
(** * Correctness of multiplication, squaring and division *)

From Stdlib Require Import ZArith List Lia Bool.
From S2P Require Import Prelude Dv BnLow Bn BnOk BnMul.
Import ListNotations.
Local Open Scope Z_scope.

Lemma bn_make_ok n : (n <= RLC_BN_SIZE)%nat -> bn_make n = Ok bn_new.
Proof.
  intros H. unfold bn_make. destruct (Nat.ltb_spec RLC_BN_SIZE (Nat.max n 1)); [|reflexivity].
  pose proof BN_SIZE_pos. lia.
Qed.

Ltac make := rewrite bn_make_ok by lia; cbn [bind].

Lemma bn_zero_new : bn_zero bn_new = Ok bn_new.
Proof. reflexivity. Qed.

Lemma copy_trim c t l s : buf c -> has t l -> used t = length l -> (length l <= RLC_BN_SIZE)%nat ->
  sign t = s -> returns (bn_copy c (bn_trim t)) (fun r => repr r (sgn s * val l) /\ canonical r).
Proof.
  intros Hc Ht Hu Hl Hs. destruct (repr_trim t l s Ht Hu Hl Hs) as [Hr Hcr].
  eapply returns_mono; [apply bn_copy_ok; eauto|].
  intros r [Hr' Hs']. split; [exact Hr'|]. unfold canonical in *. rewrite Hs', (proj2 Hr').
  rewrite (proj2 Hr) in Hcr. exact Hcr.
Qed.

Lemma sgn_xor s t : sgn (sign_xor s t) = sgn s * sgn t.
Proof. destruct s, t; reflexivity. Qed.

Lemma has_new0 n : (n <= RLC_BN_SIZE)%nat -> has bn_new (repeat 0 n).
Proof.
  intros H. split; [apply buf_new|]. cbn [bn_new dp]. rewrite repeat_length.
  replace RLC_BN_SIZE with (n + (RLC_BN_SIZE - n))%nat by lia.
  rewrite repeat_app, firstn_app, repeat_length, Nat.sub_diag, firstn_all2 by (rewrite repeat_length; lia).
  apply app_nil_r.
Qed.

(** A slice of the known prefix. *)
Lemma has_view t l k n : has t l -> (k + n <= length l)%nat -> view t k n = firstn n (skipn k l).
Proof.
  intros [_ Hl] H. unfold view. rewrite <- Hl. rewrite skipn_firstn_comm, firstn_firstn.
  rewrite Nat.min_l by lia. reflexivity.
Qed.

Lemma has_firstn t l k : has t l -> has t (firstn k l).
Proof. intros H. apply (has_prefix t _ (skipn k l)). rewrite firstn_skipn. exact H. Qed.

Section MulOk.
Context {L : BnLow} {LO : BnLowOk L}.

(** ** Multiplication *)

Lemma bn_mul_dig_ok c a x d : buf c -> repr a x -> dig d -> (used a < RLC_BN_SIZE)%nat ->
  returns (bn_mul_dig c a d) (fun r => repr r (x * d) /\ canonical r).
Proof.
  intros Hc [Ha <-] Hd Hsz. pose proof Ha as (Hba & Hua & _). unfold bn_mul_dig. grow.
  destruct (view_facts a 0 (used a) Hba ltac:(lia)) as [Da La].
  destruct (low_mul1 _ _) as [ds cy] eqn:E. apply mul1_ok in E as (Ev & Dd & Ld & Hcy); auto.
  rewrite La in *. fold (digs_of a) in Ev. fold (mag a) in Ev.
  eapply returns_bind; [apply (store_front _ ds); auto with bn; lia|]. intros c1 (Hh & _ & Hs).
  eapply returns_bind; [apply (store_ok c1 (used a) ds [cy]); cbn [length]; auto with digits; lia|].
  intros c2 (Hh2 & _ & Hs2). cbn [returns].
  replace (ival a * d) with (sgn (sign a) * val (ds ++ [cy]))
    by (rewrite val_app, Ld; cbn [val]; unfold ival; lia).
  apply repr_trim; auto; [cbn [set_used used]; rewrite length_app; cbn; lia|rewrite length_app; cbn; lia|].
  cbn [set_used sign]. cbn [set_sign sign] in *. congruence.
Qed.

Lemma bn_mul_comba_ok c a b x y : buf c -> repr a x -> repr b y ->
  (used a + used b <= RLC_BN_SIZE)%nat ->
  returns (bn_mul_comba c a b) (fun r => repr r (x * y) /\ canonical r).
Proof.
  intros Hc [Ha <-] [Hb <-] Hsz. unfold bn_mul_comba. make.
  pose proof Ha as (_ & Hua & _). pose proof Hb as (_ & Hub & _).
  destruct (digs_of_facts a Ha) as [Da La], (digs_of_facts b Hb) as [Db Lb].
  assert (Sa : short (digs_of a)) by (apply BN_SIZE_short; lia).
  assert (Sb : short (digs_of b)) by (apply BN_SIZE_short; lia).
  pose proof (mag_bound a Ha). pose proof (mag_bound b Hb).
  apply returns_bind with (P := fun t => exists l, has t l /\ length l = (used a + used b)%nat /\
    used t = (used a + used b)%nat /\ val l = mag a * mag b).
  - rewrite !digs_of_view.
    assert (Hst : forall l, digs l -> length l = (used a + used b)%nat -> val l = mag a * mag b ->
      returns (store (set_used bn_new (used a + used b)) 0 l) (fun t => exists l, has t l /\
        length l = (used a + used b)%nat /\ used t = (used a + used b)%nat /\ val l = mag a * mag b)).
    { intros l Dl Ll Vl. eapply returns_mono; [apply (store_front _ l); auto with bn; lia|].
      intros t (Hh & Hu & _). exists l. repeat split; auto; apply Hh. }
    destruct (Nat.eqb_spec (used a) (used b)) as [E|E].
    + replace (view b 0 (used a)) with (digs_of b) by (unfold digs_of; rewrite E; reflexivity).
      destruct (muln_ok (digs_of a) (digs_of b)) as (V & D & Ln); auto; [lia|].
      apply Hst; auto. lia.
    + destruct (Nat.ltb_spec (used b) (used a)).
      * destruct (muld_ok (digs_of a) (digs_of b) (used a + used b)) as (V & D & Ln); auto; try lia.
        apply Hst; auto. rewrite V. apply Z.mod_small. fold (mag a) (mag b). rewrite Bp_add. nia.
      * destruct (muld_ok (digs_of b) (digs_of a) (used a + used b)) as (V & D & Ln); auto; try lia.
        apply Hst; auto. rewrite V, Z.mul_comm. apply Z.mod_small. fold (mag a) (mag b). rewrite Bp_add. nia.
  - intros t (l & Hh & Ll & Hu & Hv).
    replace (ival a * ival b) with (sgn (sign_xor (sign a) (sign b)) * val l)
      by (rewrite Hv, sgn_xor; unfold ival; ring).
    apply copy_trim; auto with bn; cbn [set_sign used sign]; auto; lia.
Qed.

Lemma bn_mul_comba_throws c a b : (RLC_BN_SIZE < used a + used b)%nat ->
  bn_mul_comba c a b = Throw ERR_NO_PRECI.
Proof.
  intros H. unfold bn_mul_comba, bn_make.
  destruct (Nat.ltb_spec RLC_BN_SIZE (Nat.max (used a + used b) 1)); [reflexivity|lia].
Qed.

(** Row [i] of the schoolbook product. *)
Lemma bn_mul_basic_row a b i t l : wf a -> wf b -> (used a + used b <= RLC_BN_SIZE)%nat ->
  (i < used a)%nat -> has t l -> length l = (i + used b)%nat ->
  val l = val (firstn i (digs_of a)) * mag b ->
  returns (let '(d, carry) := low_mula (view t i (used b)) (view b 0 (used b)) (nth i (dp a) 0) in
    let! t := store t i d in store t (i + used b) [carry])
   (fun t' => exists l', has t' l' /\ length l' = (S i + used b)%nat /\ used t' = used t /\
      val l' = val (firstn (S i) (digs_of a)) * mag b).
Proof.
  intros Ha Hb Hsz Hi Ht Ll Vl. destruct (digs_of_facts a Ha) as [Da La], (digs_of_facts b Hb) as [Db Lb].
  rewrite (has_view t l i (used b) Ht) by lia. rewrite firstn_all2 by (rewrite length_skipn; lia).
  rewrite digs_of_view.
  assert (Dl : digs l) by (rewrite <- (proj2 Ht); apply digs_firstn, Ht).
  destruct (low_mula _ _ _) as [d cy] eqn:E.
  apply mula_ok in E as (Ev & Dd & Ld & Hcy); auto with digits.
  2: { apply digs_nth, Ha. } 2: { rewrite length_skipn. lia. }
  fold (mag b) in Ev. rewrite Lb in *.
  eapply returns_bind; [apply (store_ok t i (firstn i l) d);
    [apply has_firstn; exact Ht|exact Dd|rewrite length_firstn; lia|rewrite length_firstn; lia]|].
  intros t1 (Hh1 & Hu1 & _).
  eapply returns_mono; [apply (store_ok t1 (i + used b) (firstn i l ++ d) [cy]);
    rewrite ?length_app, ?length_firstn; cbn [length]; auto with digits; lia|].
  intros t2 (Hh2 & Hu2 & _). exists ((firstn i l ++ d) ++ [cy]).
  split; [exact Hh2|]. rewrite !length_app, length_firstn. cbn [length].
  split; [lia|]. split; [congruence|].
  rewrite firstn_S_nth by lia. rewrite !val_app, length_app, !length_firstn, Nat.min_l, Ld, Nat.min_l by lia.
  cbn [val]. rewrite top_nth_digs by (auto; lia).
  rewrite (val_firstn_skipn i l) in Vl by lia. rewrite Bp_add.
  apply (f_equal (Z.mul (Bp i))) in Ev. lia.
Qed.

Lemma bn_mul_basic_ok c a b x y : buf c -> repr a x -> repr b y ->
  (used a + used b <= RLC_BN_SIZE)%nat ->
  returns (bn_mul_basic c a b) (fun r => repr r (x * y) /\ canonical r).
Proof.
  intros Hc [Ha <-] [Hb <-] Hsz. unfold bn_mul_basic. make. rewrite bn_zero_new. cbn [bind].
  destruct (digs_of_facts a Ha) as [Da La].
  eapply returns_bind.
  - apply (for_up_returns (fun i t => exists l, has t l /\ length l = (i + used b)%nat /\
      used t = (used a + used b)%nat /\ val l = val (firstn i (digs_of a)) * mag b)).
    + intros i t Hi (l & Hh & Ll & Hu & Vl).
      eapply returns_mono; [apply (bn_mul_basic_row a b i t l); auto; lia|].
      intros t' (l' & Hh' & Ll' & Hu' & Vl'). exists l'. repeat split; auto; try apply Hh'. congruence.
    + exists (repeat 0 (used b)). rewrite repeat_length, val_repeat0.
      split; [apply has_new0; lia|]. cbn. repeat split; lia.
  - intros t (l & Hh & Ll & Hu & Vl). cbn [Nat.add] in *.
    rewrite firstn_all2 in Vl by lia. fold (mag a) in Vl.
    replace (ival a * ival b) with (sgn (sign_xor (sign a) (sign b)) * val l)
      by (rewrite Vl, sgn_xor; unfold ival; ring).
    apply copy_trim; auto with bn; cbn [set_sign used sign]; auto; lia.
Qed.

(** ** Squaring *)

Lemma bn_sqr_comba_ok c a x : buf c -> repr a x -> (2 * used a <= RLC_BN_SIZE)%nat ->
  returns (bn_sqr_comba c a) (fun r => repr r (x * x) /\ canonical r).
Proof.
  intros Hc [Ha <-] Hsz. unfold bn_sqr_comba. make.
  destruct (digs_of_facts a Ha) as [Da La].
  destruct (sqrn_ok (digs_of a)) as (V & D & Ln); auto; [apply BN_SIZE_short; lia|].
  eapply returns_bind; [apply (store_front bn_new (low_sqrn (digs_of a))); auto with bn; lia|].
  intros t (Hh & _ & _).
  replace (ival a * ival a) with (sgn RLC_POS * val (low_sqrn (digs_of a))).
  - apply copy_trim; auto; cbn [used]; lia.
  - rewrite V. fold (mag a). unfold ival. destruct (sign a); cbn [sgn]; ring.
Qed.

(** Row [i] of the schoolbook square: what is left is the square of the digits above. *)
Lemma sqra_row a t l i n d cy : wf a -> (i < used a)%nat -> has t l -> length l = (2 * i + S n)%nat ->
  n = (used a - i)%nat ->
  val l + Bp (2 * i) * (val (skipn i (digs_of a)) * val (skipn i (digs_of a))) = mag a * mag a ->
  low_sqra (view t (2 * i) (S n)) (view a i n) = (d, cy) ->
  let l' := firstn (2 * i) l ++ d in
  digs d /\ length d = S n /\ 0 <= cy <= 2 /\
  val l' + Bp (length l') * cy +
    Bp (2 * S i) * (val (skipn (S i) (digs_of a)) * val (skipn (S i) (digs_of a))) = mag a * mag a.
Proof.
  intros Ha Hi Ht Ll Hn Vl E l'. destruct (digs_of_facts a Ha) as [Da La].
  rewrite (has_view t l (2 * i) (S n) Ht), firstn_all2 in E by (rewrite ?length_skipn; lia).
  assert (Ea : view a i n = skipn i (digs_of a)).
  { unfold digs_of, view. cbn [skipn]. rewrite skipn_firstn_comm, Hn. reflexivity. }
  rewrite Ea in E. assert (Dl : digs l) by (rewrite <- (proj2 Ht); apply digs_firstn, Ht).
  apply sqra_ok in E as (Ev & Dd & Ld & Hcy); auto with digits; try (rewrite ?length_skipn; lia).
  rewrite length_skipn in *. replace (length l - 2 * i)%nat with (S n) in * by lia.
  repeat split; auto; try lia.
  subst l'. rewrite length_app, length_firstn, Nat.min_l, val_app, length_firstn, Nat.min_l, Ld by lia.
  rewrite (val_firstn_skipn (2 * i) l) in Vl by lia.
  assert (Es : skipn i (digs_of a) = nth i (digs_of a) 0 :: skipn (S i) (digs_of a)).
  { rewrite <- (firstn_skipn i (digs_of a)) at 2. rewrite app_nth2; rewrite firstn_length_le by lia; [|lia].
    rewrite Nat.sub_diag. destruct (skipn i (digs_of a)) as [|z m] eqn:Ez.
    - apply (f_equal (@length Z)) in Ez. rewrite length_skipn in Ez. cbn in Ez. lia.
    - cbn [nth]. f_equal. change (S i) with (1 + i)%nat. rewrite <- skipn_skipn, Ez. reflexivity. }
  rewrite Es in Vl, Ev. cbn [val nth] in Vl, Ev.
  replace (2 * S i)%nat with (S (S (2 * i))) by lia. rewrite !Bp_S, Bp_add.
  set (A := val (skipn (S i) (digs_of a))) in *. set (a0 := nth i (digs_of a) 0) in *.
  apply (f_equal (Z.mul (Bp (2 * i)))) in Ev. lia.
Qed.

Lemma bn_sqr_basic_ok c a x : buf c -> repr a x -> (2 * used a <= RLC_BN_SIZE)%nat ->
  returns (bn_sqr_basic c a) (fun r => repr r (x * x) /\ canonical r).
Proof.
  intros Hc [Ha <-] Hsz. unfold bn_sqr_basic. make. rewrite bn_zero_new. cbn [bind].
  pose proof Ha as (_ & Hua & _). destruct (digs_of_facts a Ha) as [Da La]. pose proof (mag_bound a Ha) as Hm.
  eapply returns_bind.
  - apply (for_up_returns (fun i t => exists l, has t l /\ length l = (used a + i + 1)%nat /\
      val l + Bp (2 * i) * (val (skipn i (digs_of a)) * val (skipn i (digs_of a))) = mag a * mag a)).
    + intros i t Hi (l & Hh & Ll & Vl). replace (used a - i + 1)%nat with (S (used a - i)) by lia.
      destruct (low_sqra _ _) as [d cy] eqn:E.
      destruct (sqra_row a t l i (used a - i) d cy) as (Dd & Ld & Hcy & Ev); auto; try lia.
      eapply returns_bind; [apply (store_ok t (2 * i) (firstn (2 * i) l) d);
        [apply has_firstn; exact Hh|exact Dd|rewrite length_firstn; lia|rewrite length_firstn; lia]|].
      intros t1 (Hh1 & _ & _). assert (dig cy) by (unfold dig; pose proof B_gt; lia).
      eapply returns_mono; [apply (store_ok t1 (used a + i + 1) (firstn (2 * i) l ++ d) [cy]);
        rewrite ?length_app, ?length_firstn; cbn [length]; auto with digits; lia|].
      intros t2 (Hh2 & _ & _). exists ((firstn (2 * i) l ++ d) ++ [cy]). split; [exact Hh2|].
      split; [rewrite !length_app, length_firstn; cbn [length]; lia|].
      rewrite val_app. cbn [val]. lia.
    + exists (repeat 0 (used a + 1)). rewrite repeat_length, val_repeat0.
      split; [apply has_new0; lia|]. split; [lia|]. change (2 * 0)%nat with 0%nat. cbn [skipn]. rewrite Bp_0. fold (mag a). lia.
  - intros t (l & Hh & Ll & Vl). cbn [Nat.add] in *.
    set (i := (used a - 1)%nat) in *. assert (Ei : used a = S i) by lia.
    destruct (low_sqra _ _) as [d cy] eqn:E.
    destruct (sqra_row a t l i 1 d cy) as (Dd & Ld & Hcy & Ev); auto; try lia.
    eapply returns_bind; [apply (store_ok t (2 * i) (firstn (2 * i) l) d);
      [apply has_firstn; exact Hh|exact Dd|rewrite length_firstn; lia|rewrite length_firstn; lia]|].
    intros t1 (Hh1 & _ & _).
    set (l' := firstn (2 * i) l ++ d) in *.
    assert (Ll' : length l' = (2 * used a)%nat) by (subst l'; rewrite length_app, length_firstn; lia).
    rewrite skipn_all2 in Ev by lia. cbn [val] in Ev. rewrite Ll' in Ev.
    assert (Dl' : digs l') by (rewrite <- (proj2 Hh1); apply digs_firstn, Hh1).
    pose proof (val_bound l' Dl') as Hb. rewrite Ll' in Hb.
    assert (EB : Bp (2 * used a) = Bp (used a) * Bp (used a)) by (rewrite <- Bp_add; f_equal; lia).
    assert (Hlt : mag a * mag a < Bp (2 * used a)) by (rewrite EB; nia).
    assert (cy = 0) by nia. subst cy.
    replace (ival a * ival a) with (sgn RLC_POS * val l')
      by (unfold ival; destruct (sign a); cbn [sgn]; lia).
    apply copy_trim; auto; cbn [used]; lia.
Qed.

(** ** Karatsuba *)

(** Run the next call of a sequence with its specification. *)
Ltac call H :=
  eapply returns_bind; [eapply H; eauto with bn|cbv beta].

Lemma karat_part_ok a k n : wf a -> (k + n <= used a)%nat ->
  returns (karat_part a k n) (fun r => repr r (val (view a k n)) /\ canonical r).
Proof.
  intros Ha H. pose proof Ha as (Hb & Hu & _). unfold karat_part. make.
  destruct (view_facts a k n Hb ltac:(lia)) as [D E].
  eapply returns_bind; [apply (store_front bn_new (view a k n)); auto with bn; lia|].
  intros t (Hh & Hu' & Hs). cbn [returns].
  rewrite <- (Z.mul_1_l (val (view a k n))). apply (repr_trim (set_used t n) _ RLC_POS); auto.
  lia.
Qed.

(** The halves of a number. *)
Lemma halves a h : wf a -> (h <= used a)%nat ->
  let a0 := val (view a 0 h) in
  let a1 := val (view a h (used a - h)) in
  mag a = a0 + Bp h * a1 /\ 0 <= a0 < Bp h /\ 0 <= a1 < Bp (used a - h).
Proof.
  intros Ha Hh a0 a1. pose proof Ha as (Hb & Hu & _).
  destruct (view_facts a 0 h Hb ltac:(lia)) as [D0 L0].
  destruct (view_facts a h (used a - h) Hb ltac:(lia)) as [D1 L1].
  pose proof (val_bound _ D0) as B0. pose proof (val_bound _ D1) as B1. rewrite L0 in B0. rewrite L1 in B1.
  split; [|auto]. pose proof (view_split a h (used a - h) Hb ltac:(lia)) as E.
  replace (h + (used a - h))%nat with (used a) in E by lia. exact E.
Qed.

(** The sum of the halves needs no more digits than the number itself. *)
Lemma halves_sum a h : wf a -> (2 * h <= used a)%nat ->
  0 <= val (view a h (used a - h)) + val (view a 0 h) < Bp (used a).
Proof.
  intros Ha Hh. destruct (halves a h Ha ltac:(lia)) as (_ & H0 & H1). pose proof Ha as (_ & Hu & _).
  destruct (Nat.eq_dec h 0) as [->|Hn].
  - rewrite Bp_0 in H0. rewrite Nat.sub_0_r in *. lia.
  - pose proof (Bp_le h (used a - h) ltac:(lia)).
    pose proof (Bp_le (S (used a - h)) (used a) ltac:(lia)) as H2. rewrite Bp_S in H2.
    pose proof B_gt. pose proof (Bp_pos (used a - h)). nia.
Qed.

(** A number below [Bp n] has at most [n] digits. *)
Lemma used_below a x n : repr a x -> 0 <= x < Bp n -> (1 <= n)%nat -> (used a <= n)%nat.
Proof. intros Ha Hx Hn. apply (used_le a x n Ha); [|exact Hn]. rewrite Z.abs_eq; lia. Qed.

Lemma half_min m n : (2 * (Nat.min m n / 2) <= m /\ 2 * (Nat.min m n / 2) <= n)%nat.
Proof. pose proof (Nat.Div0.mul_div_le (Nat.min m n) 2). lia. Qed.

Lemma fits_Bp n z : (n <= RLC_BN_SIZE)%nat -> 0 <= z < Bp n -> fits z.
Proof. intros Hn Hz. unfold fits. pose proof (Bp_le n RLC_BN_SIZE Hn). lia. Qed.

Lemma RIP_digits h : 0 <= Z.of_nat h -> RLC_RIP_d (Z.of_nat h * RLC_DIG) = Z.of_nat h /\
  RLC_RIP_b (Z.of_nat h * RLC_DIG) = 0.
Proof.
  intros H. unfold RLC_RIP_b, RLC_RIP_d, RLC_DIG. rewrite Z.shiftr_div_pow2 by lia.
  change (2 ^ 6) with 64. rewrite Z.div_mul by lia. lia.
Qed.

(** A shift by whole digits. *)
Lemma bn_lsh_digits c a x h : buf c -> repr a x -> (used a + h <= RLC_BN_SIZE)%nat ->
  returns (bn_lsh c a (Z.of_nat h * RLC_DIG)) (fun r => repr r (x * Bp h)).
Proof.
  intros Hc Ha Hsz. destruct (RIP_digits h ltac:(lia)) as [Ed Eb].
  eapply returns_mono; [apply (bn_lsh_ok c a x); auto|].
  - unfold RLC_DIG; lia.
  - rewrite Ed, Eb, Nat2Z.id. cbn. lia.
  - intros r [Hr _]. rewrite Bp_pow2, Z.mul_comm. unfold RLC_DIG in Hr.
    rewrite (Z.mul_comm 64), Z.mul_comm. exact Hr.
Qed.

Definition mul_spec (n : nat) (f : bn -> bn -> bn -> result bn) : Prop :=
  forall c a b x y, buf c -> repr a x -> repr b y -> (used a + used b <= n)%nat ->
  returns (f c a b) (fun r => repr r (x * y) /\ canonical r).

(** The end shared by both Karatsuba routines: the middle product [t], the outer
    products [lo] and [hi], the split [h] and the size [n] of the result. *)
Lemma karat_combine {R} t lo hi T Lo Hi h n (f : bn -> result R) P :
  repr t T -> repr lo Lo -> repr hi Hi ->
  0 <= T -> 0 <= Lo -> 0 <= Hi -> Lo + Bp h * T + Bp h * Bp h * Hi < Bp n ->
  (used t + h <= RLC_BN_SIZE)%nat -> (used hi + 2 * h <= RLC_BN_SIZE)%nat -> (n <= RLC_BN_SIZE)%nat ->
  (forall r, repr r (Lo + Bp h * T + Bp h * Bp h * Hi) -> returns (f r) P) ->
  returns (let! t := bn_lsh t t (Z.of_nat h * RLC_DIG) in
    let! hi := bn_lsh hi hi (2 * Z.of_nat h * RLC_DIG) in
    let! t := bn_add t t lo in
    let! t := bn_add t t hi in f t) P.
Proof.
  intros Ht Hl Hh T0 L0 H0 Hn Hut Huh Hsz Hf. pose proof (Bp_pos h) as HP.
  assert (0 <= Bp h * T) by nia. assert (0 <= Bp h * Bp h * Hi) by nia.
  call (bn_lsh_digits t t T h). intros t1 Ht1.
  replace (2 * Z.of_nat h) with (Z.of_nat (2 * h)) by lia.
  call (bn_lsh_digits hi hi Hi (2 * h)). intros hi1 Hhi1.
  assert (E2 : Bp (2 * h) = Bp h * Bp h) by (rewrite <- Bp_add; f_equal; lia). rewrite E2 in Hhi1.
  call (bn_add_ok t1 t1 lo); [apply (fits_Bp n); auto; lia|]. intros t2 Ht2.
  call (bn_add_ok t2 t2 hi1); [apply (fits_Bp n); auto; lia|]. intros r Hr. apply Hf.
  replace (Lo + Bp h * T + Bp h * Bp h * Hi) with (T * Bp h + Lo + Hi * (Bp h * Bp h)) by ring.
  exact Hr.
Qed.

Lemma wf_has a : wf a -> has a (digs_of a).
Proof. intros Ha. split; [apply Ha|]. destruct (digs_of_facts a Ha) as [_ ->]. reflexivity. Qed.

(** Copying a non-negative number with a new sign. *)
Lemma copy_signed c t v s : buf c -> repr t v -> 0 <= v ->
  returns (bn_copy c (set_sign t s)) (fun r => repr r (sgn s * v) /\ sign r = s).
Proof.
  intros Hc [Ht Hv] H0. eapply returns_mono; [apply (bn_copy_ok c (set_sign t s) (sgn s * v)); auto|].
  - split; [exact Ht|]. unfold ival. cbn [set_sign sign]. rewrite mag_set_sign, <- (ival_abs t Ht), Hv.
    rewrite Z.abs_eq by exact H0. reflexivity.
  - intros r [Hr Hs]. split; [exact Hr|exact Hs].
Qed.

Lemma trim_wf r v : repr r v -> repr (bn_trim r) v /\ canonical (bn_trim r).
Proof.
  intros [Hw <-]. destruct (digs_of_facts r Hw) as [_ Lr]. unfold ival, mag.
  apply repr_trim; auto; [apply wf_has; exact Hw|]. destruct Hw as (_ & ? & _). lia.
Qed.

Lemma mul_karat_step_ok mul : mul_spec (RLC_BN_SIZE - 2) mul ->
  mul_spec (RLC_BN_SIZE - 2) (mul_karat_step mul).
Proof.
  intros Hmul c a b x y Hc [Ha <-] [Hb <-] Hsz. unfold mul_karat_step.
  destruct (half_min (used a) (used b)) as [Hh1 Hh2].
  set (h := (Nat.min (used a) (used b) / 2)%nat) in *. clearbody h.
  pose proof BN_SIZE_pos as HS. pose proof Ha as (_ & Hua & _). pose proof Hb as (_ & Hub & _).
  destruct (halves a h Ha ltac:(lia)) as (Ea & Ha0 & Ha1).
  destruct (halves b h Hb ltac:(lia)) as (Eb & Hb0 & Hb1).
  pose proof (halves_sum a h Ha ltac:(lia)) as Hsa. pose proof (halves_sum b h Hb ltac:(lia)) as Hsb.
  call (karat_part_ok a 0 h); [lia|]. intros a0 [Ra0 _]. call (karat_part_ok b 0 h); [lia|]. intros b0 [Rb0 _].
  call (karat_part_ok a h (used a - h)); [lia|]. intros a1 [Ra1 _].
  call (karat_part_ok b h (used b - h)); [lia|]. intros b1 [Rb1 _].
  set (A0 := val (view a 0 h)) in *. set (A1 := val (view a h (used a - h))) in *.
  set (B0 := val (view b 0 h)) in *. set (B1 := val (view b h (used b - h))) in *.
  clearbody A0 A1 B0 B1.
  pose proof (Bp_le h (used a) ltac:(lia)). pose proof (Bp_le h (used b) ltac:(lia)).
  pose proof (used_below a0 A0 (used a) Ra0 ltac:(lia) ltac:(lia)).
  pose proof (used_below b0 B0 (used b) Rb0 ltac:(lia) ltac:(lia)).
  pose proof (used_below a1 A1 (used a) Ra1 ltac:(lia) ltac:(lia)).
  pose proof (used_below b1 B1 (used b) Rb1 ltac:(lia) ltac:(lia)).
  call Hmul; [lia|]. intros lo [Rlo _]. call Hmul; [lia|]. intros hi [Rhi _].
  call (bn_add_ok a1 a1 a0); [apply (fits_Bp (used a)); auto; lia|]. intros sa Rsa.
  call (bn_add_ok b1 b1 b0); [apply (fits_Bp (used b)); auto; lia|]. intros sb Rsb.
  pose proof (used_below sa _ (used a) Rsa Hsa ltac:(lia)).
  pose proof (used_below sb _ (used b) Rsb Hsb ltac:(lia)).
  call Hmul; [lia|]. intros t [Rt _].
  pose proof (Bp_pos h) as HP.
  assert (HN : forall u v, 0 <= u -> 0 <= v -> 0 <= u * v) by (intros; apply Z.mul_nonneg_nonneg; assumption).
  pose proof (HN A0 B0 ltac:(lia) ltac:(lia)). pose proof (HN A0 B1 ltac:(lia) ltac:(lia)).
  pose proof (HN A1 B0 ltac:(lia) ltac:(lia)). pose proof (HN A1 B1 ltac:(lia) ltac:(lia)).
  assert (Hst : (A1 + A0) * (B1 + B0) < Bp (used a + used b)).
  { rewrite Bp_add. apply Z.mul_lt_mono_nonneg; lia. }
  call (bn_sub_ok t t lo); [apply (fits_Bp (used a + used b)); [lia|lia]|]. intros t1 Rt1.
  call (bn_sub_ok t1 t1 hi); [apply (fits_Bp (used a + used b)); [lia|lia]|]. intros t2 Rt2.
  replace ((A1 + A0) * (B1 + B0) - A0 * B0 - A1 * B1) with (A0 * B1 + A1 * B0) in Rt2 by ring.
  pose proof (mag_bound a Ha) as Hma. pose proof (mag_bound b Hb) as Hmb.
  assert (Hexp : mag a * mag b = A0 * B0 + Bp h * (A0 * B1 + A1 * B0) + Bp h * Bp h * (A1 * B1))
    by (rewrite Ea, Eb; ring).
  assert (Hprod : mag a * mag b < Bp (used a + used b)) by (rewrite Bp_add; apply Z.mul_lt_mono_nonneg; lia).
  assert (Hmid : A0 * B1 + A1 * B0 < Bp (S (Nat.max (used a) (used b)))).
  { assert (EPa : Bp (used a) = Bp h * Bp (used a - h)) by (rewrite <- Bp_add; f_equal; lia).
    assert (EPb : Bp (used b) = Bp h * Bp (used b - h)) by (rewrite <- Bp_add; f_equal; lia).
    assert (A0 * B1 < Bp (used b)) by (rewrite EPb; apply Z.mul_lt_mono_nonneg; lia).
    assert (A1 * B0 < Bp (used a)) by (rewrite EPa, Z.mul_comm; apply Z.mul_lt_mono_nonneg; lia).
    pose proof (Bp_le (used a) (Nat.max (used a) (used b)) ltac:(lia)).
    pose proof (Bp_le (used b) (Nat.max (used a) (used b)) ltac:(lia)).
    rewrite Bp_S. pose proof B_gt.
    pose proof (Z.mul_le_mono_nonneg_r 2 B (Bp (Nat.max (used a) (used b))) ltac:(lia) ltac:(lia)). lia. }
  pose proof (used_below t2 _ (S (Nat.max (used a) (used b))) Rt2 ltac:(lia) ltac:(lia)).
  assert (Huhi : (used hi <= used a - h + (used b - h) + 1)%nat).
  { apply (used_below hi _ _ Rhi); [|lia]. split; [lia|].
    pose proof (Bp_le (used a - h + (used b - h)) (used a - h + (used b - h) + 1) ltac:(lia)) as HQ.
    rewrite Bp_add in HQ at 1. apply Z.lt_le_trans with (2 := HQ). apply Z.mul_lt_mono_nonneg; lia. }
  eapply (karat_combine t2 lo hi _ _ _ h (used a + used b)); eauto; try lia.
  rewrite <- Hexp. intros t3 Rt3.
  eapply returns_bind; [apply (copy_signed c t3 _ _ Hc Rt3); lia|]. intros r [Rr _]. cbn [returns].
  apply trim_wf. rewrite sgn_xor in Rr.
  replace (ival a * ival b) with (sgn (sign a) * sgn (sign b) * (mag a * mag b)) by (unfold ival; ring).
  exact Rr.
Qed.

Lemma bn_mul_karat_ok level : mul_spec (RLC_BN_SIZE - 2) (fun c a b => bn_mul_karat_imp c a b level).
Proof.
  assert (Hcomba : mul_spec (RLC_BN_SIZE - 2) bn_mul_comba).
  { intros c a b x y Hc Ha Hb H. apply bn_mul_comba_ok; auto. lia. }
  induction level as [|[|level] IH]; cbn [bn_mul_karat_imp]; apply mul_karat_step_ok; auto.
Qed.

Definition sqr_spec (n : nat) (f : bn -> bn -> result bn) : Prop :=
  forall c a x, buf c -> repr a x -> (2 * used a <= n)%nat ->
  returns (f c a) (fun r => repr r (x * x) /\ canonical r).

Lemma sqr_karat_step_ok sqr : sqr_spec (RLC_BN_SIZE - 2) sqr ->
  sqr_spec (RLC_BN_SIZE - 2) (sqr_karat_step sqr).
Proof.
  intros Hsqr c a x Hc [Ha <-] Hsz. unfold sqr_karat_step.
  pose proof (half_min (used a) (used a)) as [Hh _]. rewrite Nat.min_id in Hh.
  set (h := (used a / 2)%nat) in *. clearbody h.
  pose proof BN_SIZE_pos as HS. pose proof Ha as (_ & Hua & _).
  destruct (halves a h Ha ltac:(lia)) as (Ea & Ha0 & Ha1).
  pose proof (halves_sum a h Ha ltac:(lia)) as Hsa.
  call (karat_part_ok a 0 h); [lia|]. intros a0 [Ra0 _].
  call (karat_part_ok a h (used a - h)); [lia|]. intros a1 [Ra1 _].
  set (A0 := val (view a 0 h)) in *. set (A1 := val (view a h (used a - h))) in *. clearbody A0 A1.
  pose proof (Bp_le h (used a) ltac:(lia)).
  pose proof (used_below a0 A0 (used a) Ra0 ltac:(lia) ltac:(lia)).
  pose proof (used_below a1 A1 (used a) Ra1 ltac:(lia) ltac:(lia)).
  call Hsqr; [lia|]. intros lo [Rlo _]. call Hsqr; [lia|]. intros hi [Rhi _].
  call (bn_add_ok bn_new a1 a0); [apply (fits_Bp (used a)); auto; lia|]. intros sa Rsa.
  pose proof (used_below sa _ (used a) Rsa Hsa ltac:(lia)).
  call Hsqr; [lia|]. intros t [Rt _].
  pose proof (Bp_pos h) as HP.
  assert (HN : forall u v, 0 <= u -> 0 <= v -> 0 <= u * v) by (intros; apply Z.mul_nonneg_nonneg; assumption).
  pose proof (HN A0 A0 ltac:(lia) ltac:(lia)). pose proof (HN A0 A1 ltac:(lia) ltac:(lia)).
  pose proof (HN A1 A1 ltac:(lia) ltac:(lia)).
  assert (Hst : (A1 + A0) * (A1 + A0) < Bp (used a + used a)).
  { rewrite Bp_add. apply Z.mul_lt_mono_nonneg; lia. }
  call (bn_add_ok a0 lo hi); [apply (fits_Bp (used a + used a)); [lia|lia]|]. intros s2 Rs2.
  call (bn_sub_ok t t s2); [apply (fits_Bp (used a + used a)); [lia|lia]|]. intros t2 Rt2.
  replace ((A1 + A0) * (A1 + A0) - (A0 * A0 + A1 * A1)) with (A0 * A1 + A1 * A0) in Rt2 by ring.
  pose proof (mag_bound a Ha) as Hma.
  assert (Hexp : mag a * mag a = A0 * A0 + Bp h * (A0 * A1 + A1 * A0) + Bp h * Bp h * (A1 * A1))
    by (rewrite Ea; ring).
  assert (Hprod : mag a * mag a < Bp (used a + used a)) by (rewrite Bp_add; apply Z.mul_lt_mono_nonneg; lia).
  assert (Hmid : A0 * A1 + A1 * A0 < Bp (S (used a))).
  { assert (EPa : Bp (used a) = Bp h * Bp (used a - h)) by (rewrite <- Bp_add; f_equal; lia).
    assert (A0 * A1 < Bp (used a)) by (rewrite EPa; apply Z.mul_lt_mono_nonneg; lia).
    rewrite Bp_S. pose proof B_gt.
    pose proof (Z.mul_le_mono_nonneg_r 2 B (Bp (used a)) ltac:(lia) ltac:(lia)). lia. }
  pose proof (used_below t2 _ (S (used a)) Rt2 ltac:(lia) ltac:(lia)).
  assert (Huhi : (used hi <= used a - h + (used a - h) + 1)%nat).
  { apply (used_below hi _ _ Rhi); [|lia]. split; [lia|].
    pose proof (Bp_le (used a - h + (used a - h)) (used a - h + (used a - h) + 1) ltac:(lia)) as HQ.
    rewrite Bp_add in HQ at 1. apply Z.lt_le_trans with (2 := HQ). apply Z.mul_lt_mono_nonneg; lia. }
  eapply (karat_combine t2 lo hi _ _ _ h (used a + used a)); eauto; try lia.
  rewrite <- Hexp. intros t3 Rt3.
  eapply returns_mono; [apply (copy_signed c t3 _ RLC_POS Hc Rt3); lia|]. intros r [Rr Sr].
  replace (ival a * ival a) with (sgn RLC_POS * (mag a * mag a))
    by (unfold ival; destruct (sign a); cbn [sgn]; ring).
  split; [exact Rr|]. intros _. exact Sr.
Qed.

Lemma bn_sqr_karat_ok level : sqr_spec (RLC_BN_SIZE - 2) (fun c a => bn_sqr_karat_imp c a level).
Proof.
  assert (Hcomba : sqr_spec (RLC_BN_SIZE - 2) bn_sqr_comba).
  { intros c a x Hc Ha H. apply bn_sqr_comba_ok; auto. lia. }
  induction level as [|[|level] IH]; cbn [bn_sqr_karat_imp]; apply sqr_karat_step_ok; auto.
Qed.

(** ** Division *)

(** An optional output satisfies [P] when it was asked for. *)
Definition opt_post (c c' : option bn) (P : bn -> Prop) : Prop :=
  match c, c' with
  | None, None => True
  | Some _, Some r => P r
  | _, _ => False
  end.

Definition opt_repr (c c' : option bn) (z : Z) : Prop := opt_post c c' (fun r => repr r z).

Definition opt_buf (c : option bn) : Prop := match c with Some c => buf c | None => True end.

Lemma out_ok c f P : opt_buf c -> (forall c, buf c -> returns (f c) P) ->
  returns (out c f) (fun c' => opt_post c c' P).
Proof.
  intros Hc Hf. destruct c as [c|]; cbn; [|exact I].
  eapply returns_bind; [apply Hf, Hc|]. intros r Hr. exact Hr.
Qed.

Lemma canonical_nz r z : repr r z -> z <> 0 -> canonical r.
Proof. intros [_ Hz] Hn E. exfalso. apply Hn. rewrite <- Hz. exact E. Qed.

(** Quotient and remainder of a division. *)
Definition div_post (c d : option bn) (a : bn) (x y : Z) (r : option bn * option bn) : Prop :=
  opt_post c (fst r) (fun q => repr q (x / y) /\ canonical q) /\
  opt_post d (snd r) (fun r => repr r (x mod y) /\ (canonical a -> canonical r)).

Lemma copy_can c a x : buf c -> repr a x ->
  returns (bn_copy c a) (fun r => repr r x /\ (canonical a -> canonical r)).
Proof.
  intros Hc Ha. eapply returns_mono; [apply (bn_copy_ok c a x); auto|].
  intros r [Hr Hs]. split; [exact Hr|]. unfold canonical. rewrite Hs, (proj2 Hr), (proj2 Ha). auto.
Qed.

(** Floor division of [sa * A] by [sb * V] from the division of the magnitudes. *)
Lemma floor_signs sa sb A V Q R : A = V * Q + R -> 0 <= R < V ->
  let x := sgn sa * A in
  let y := sgn sb * V in
  if (R =? 0) || sign_eqb sa sb then
    x / y = sgn (if sign_eqb sa sb then RLC_POS else RLC_NEG) * Q /\ x mod y = sgn sb * R
  else
    x / y = sgn (if sign_eqb sa sb then RLC_POS else RLC_NEG) * Q - 1 /\ x mod y = y - sgn sb * R.
Proof.
  intros E HR. cbv zeta. destruct sa, sb; cbn [sign_eqb orb sgn]; rewrite ?orb_true_r;
    rewrite ?orb_false_r; try destruct (Z.eqb_spec R 0); split; symmetry;
    first [apply Z.div_unique with (1 * R); lia | apply Z.div_unique with (-1 * R); lia
          |apply Z.div_unique with (1 * V - 1 * R); lia |apply Z.div_unique with (-1 * V - -1 * R); lia
          |apply Z.mod_unique with (1 * Q); lia |apply Z.mod_unique with (-1 * Q); lia
          |apply Z.mod_unique with (-1 * Q - 1); lia].
Qed.

Lemma floor_small sa sb A V : 0 <= A < V ->
  let x := sgn sa * A in
  let y := sgn sb * V in
  if sign_eqb sa sb then x / y = 0 /\ x mod y = x
  else A <> 0 -> x / y = -1 /\ x mod y = x + y.
Proof.
  intros H. cbv zeta. destruct sa, sb; cbn [sign_eqb sgn]; try intros HA; split; symmetry;
    first [apply Z.div_unique with (1 * A); lia|apply Z.div_unique with (-1 * A); lia
          |apply Z.div_unique with (1 * A + -1 * V); lia|apply Z.div_unique with (-1 * A + 1 * V); lia
          |apply Z.mod_unique with 0; lia|apply Z.mod_unique with (-1); lia].
Qed.

(** The quotient and remainder digits of the magnitudes. *)
Lemma div_digits a b qd rd : wf a -> wf b -> 0 < mag b <= mag a ->
  low_divn (digs_of a) (digs_of b) = (qd, rd) ->
  val qd = mag a / mag b /\ val rd = mag a mod mag b /\ digs qd /\ digs rd /\
  length qd = (used a - used b + 1)%nat /\ length rd = used b.
Proof.
  intros Ha Hb Hle E. pose proof (used_mono a b Ha Hb ltac:(lia)) as Hu.
  destruct (digs_of_facts a Ha) as [Da La], (digs_of_facts b Hb) as [Db Lb].
  pose proof Hb as (_ & Hub & _).
  apply divn_ok in E as (V1 & V2 & D1 & D2 & L1 & L2); auto; try lia.
  - rewrite La, Lb in *. repeat split; auto.
  - rewrite Lb, top_nth_digs by (auto; lia). pose proof (mag_top_nz b Hb ltac:(lia)). lia.
  - exact (proj2 Hle).
Qed.

(** Both operands of the digit division are the magnitudes of the arguments. *)
Lemma abs_digits t a : buf t -> wf a ->
  returns (bn_abs t a) (fun r => view r 0 (used a) = digs_of a).
Proof.
  intros Ht Ha. unfold bn_abs. eapply returns_bind; [apply bn_copy_eq; auto|].
  intros r (_ & Hu & _ & Hd). cbn [returns]. rewrite <- Hu. exact Hd.
Qed.

(** The branch [|a| < |b|]. *)
Lemma div_small_ok c d a b x y : opt_buf c -> opt_buf d -> repr a x -> repr b y ->
  mag a < mag b -> (x <> 0 \/ sign a = sign b) ->
  returns (if sign_eqb (bn_sign a) (bn_sign b) then
      let! c := out c (fun c => bn_zero c) in
      let! d := out d (fun d => bn_copy d a) in
      Ok (c, d)
    else
      let! c := out c (fun c => let! c := bn_set_dig c 1 in bn_neg c c) in
      let! d := out d (fun d => bn_add d a b) in
      Ok (c, d))
    (div_post c d a x y).
Proof.
  intros Hc Hd Ha0 Hb0 Hlt Hz. pose proof Ha0 as [Ha Ex]. pose proof Hb0 as [Hb Ey].
  pose proof (mag_bound a Ha). pose proof (mag_fits a Ha). pose proof (mag_fits b Hb).
  pose proof (floor_small (sign a) (sign b) (mag a) (mag b) ltac:(lia)) as Hfl. cbv zeta in Hfl.
  fold (ival a) (ival b) in Hfl. rewrite Ex, Ey in Hfl. unfold bn_sign.
  destruct (sign_eqb (sign a) (sign b)) eqn:Es.
  - eapply returns_bind; [apply (out_ok c _ (fun q => repr q (x / y) /\ canonical q) Hc)|].
    { intros c1 Hc1. destruct Hfl as [-> _]. apply bn_zero_ok, Hc1. }
    intros c' Hc'. eapply returns_bind;
      [apply (out_ok d _ (fun r => repr r (x mod y) /\ (canonical a -> canonical r)) Hd)|].
    { intros d1 Hd1. destruct Hfl as [_ ->]. apply copy_can; auto. }
    intros d' Hd'. split; assumption.
  - destruct Hz as [Hz|Hz]; [|rewrite Hz in Es; destruct (sign b); discriminate].
    destruct Hfl as [Eq Er]; [intros E; apply Hz; rewrite <- Ex; unfold ival; rewrite E; lia|].
    eapply returns_bind; [apply (out_ok c _ (fun q => repr q (x / y) /\ canonical q) Hc)|].
    { intros c1 Hc1. eapply returns_bind; [apply (bn_set_dig_ok c1 1); auto with digits|].
      intros c2 [Hc2 Hk]. eapply returns_mono; [apply (bn_neg_ok c2 c2 1); eauto with bn|].
      rewrite Eq. intros r [Hr Hcr]. auto. }
    intros c' Hc'. eapply returns_bind;
      [apply (out_ok d _ (fun r => repr r (x mod y) /\ (canonical a -> canonical r)) Hd)|].
    { intros d1 Hd1. rewrite Er. eapply returns_mono; [apply (bn_add_ok d1 a b x y); auto|].
      - unfold fits. rewrite <- Ex, <- Ey. unfold ival.
        destruct (sign a), (sign b); try discriminate; cbn [sgn]; lia.
      - intros r Hr. split; [exact Hr|]. intros _. apply (canonical_nz r _ Hr).
        rewrite <- Ex, <- Ey. unfold ival.
        destruct (sign a), (sign b); try discriminate; cbn [sgn]; lia. }
    intros d' Hd'. split; assumption.
Qed.

(** From the quotient [q] and remainder [r] of the magnitudes to the outputs. *)
Lemma div_outputs c d a b x y q r Q R : opt_buf c -> opt_buf d -> repr a x -> repr b y ->
  (used a < RLC_BN_SIZE)%nat -> mag a = mag b * Q + R -> 0 <= R < mag b -> 0 <= Q ->
  let sq := if sign_eqb (sign a) (sign b) then RLC_POS else RLC_NEG in
  repr q (sgn sq * Q) -> canonical q -> repr r (sgn (sign b) * R) -> canonical r ->
  let exact := bn_is_zero r || sign_eqb (bn_sign a) (bn_sign b) in
  returns (let! c := out c (fun c => if exact then bn_copy c q else bn_sub_dig c q 1) in
           let! d := out d (fun d => if exact then bn_copy d r else bn_sub d b r) in
           Ok (c, d)) (div_post c d a x y).
Proof.
  intros Hc Hd [Ha Ex] Hb0 Hsz Ed Hm HQ sq Rq Kq Rr Kr exact. pose proof Hb0 as [Hb Ey].
  pose proof (mag_bound a Ha) as Hma. pose proof (mag_fits b Hb).
  pose proof (floor_signs (sign a) (sign b) _ _ _ _ Ed Hm) as Hfl. cbv zeta in Hfl.
  fold (ival a) (ival b) in Hfl. rewrite Ex, Ey in Hfl. fold sq in Hfl.
  assert (Ez : bn_is_zero r = (R =? 0)).
  { rewrite (bn_is_zero_ok r _ Rr). destruct (sign b); cbn [sgn];
      destruct (Z.eqb_spec R 0), (Z.eqb_spec (1 * R) 0), (Z.eqb_spec (-1 * R) 0); lia || reflexivity. }
  subst exact. rewrite Ez. unfold bn_sign.
  eapply returns_bind; [apply (out_ok c _ (fun q => repr q (x / y) /\ canonical q) Hc)|].
  { intros c1 Hc1. destruct ((R =? 0) || sign_eqb (sign a) (sign b)); destruct Hfl as [-> _].
    - eapply returns_mono; [apply (copy_can c1 q); eauto|]. intros q' [? ?]; auto.
    - assert (Hqle : Q <= mag a) by nia. pose proof (Bp_lt (used a) RLC_BN_SIZE Hsz).
      apply (bn_sub_dig_ok c1 q (sgn sq * Q) 1); auto with digits.
      unfold fits. destruct sq; cbn [sgn]; lia. }
  intros c' Hc'. eapply returns_bind;
    [apply (out_ok d _ (fun r => repr r (x mod y) /\ (canonical a -> canonical r)) Hd)|].
  { intros d1 Hd1. destruct ((R =? 0) || sign_eqb (sign a) (sign b)) eqn:Ex0; destruct Hfl as [_ ->].
    - eapply returns_mono; [apply (copy_can d1 r); eauto|]. intros r' [? ?]; auto.
    - apply orb_false_iff in Ex0 as [Ex0 _]. apply Z.eqb_neq in Ex0.
      eapply returns_mono; [apply (bn_sub_ok d1 b r y (sgn (sign b) * R)); auto|].
      + unfold fits. rewrite <- Ey. unfold ival. destruct (sign b); cbn [sgn]; lia.
      + intros r' Hr'. split; [exact Hr'|]. intros _. apply (canonical_nz r' _ Hr').
        rewrite <- Ey. unfold ival. destruct (sign b); cbn [sgn]; lia. }
  intros d' Hd'. split; assumption.
Qed.

Lemma bn_div_imp_ok c d a b x y : opt_buf c -> opt_buf d -> repr a x -> repr b y -> y <> 0 ->
  (Z.abs y <= Z.abs x -> (used a < RLC_BN_SIZE)%nat) -> (x <> 0 \/ sign a = sign b) ->
  returns (bn_div_imp c d a b) (div_post c d a x y).
Proof.
  intros Hc Hd Ha0 Hb0 Hy Hsz Hz. pose proof Ha0 as [Ha Ex]. pose proof Hb0 as [Hb Ey].
  unfold bn_div_imp. rewrite bn_cmp_abs_ok, cmpZ_lt by assumption.
  destruct (Z.ltb_spec (mag a) (mag b)) as [Hlt|Hge]; [apply div_small_ok; auto|].
  pose proof (mag_bound b Hb).
  assert (Hmb0 : mag b <> 0) by (intros E; apply Hy; rewrite <- Ey; unfold ival; rewrite E; lia).
  pose proof (used_mono a b Ha Hb Hge) as Hu.
  assert (Hsz' : (used a < RLC_BN_SIZE)%nat)
    by (apply Hsz; rewrite <- Ex, <- Ey, !ival_abs by assumption; exact Hge).
  make. rewrite !bn_zero_new. cbn [bind].
  eapply returns_bind; [apply (abs_digits bn_new a); auto with bn|]. intros xa Exa.
  eapply returns_bind; [apply (abs_digits bn_new b); auto with bn|]. intros yb Eyb.
  cbv zeta. rewrite Exa, Eyb. destruct (low_divn _ _) as [qd rd] eqn:E.
  apply div_digits in E as (Vq & Vr & Dq & Dr & Lq & Lr); auto; try lia.
  eapply returns_bind; [apply (store_front bn_new qd); auto with bn; lia|]. intros q (Hq & _ & _).
  eapply returns_bind; [apply (store_front bn_new rd); auto with bn; lia|]. intros r (Hr & _ & _).
  set (sq := if sign_eqb (sign a) (sign b) then RLC_POS else RLC_NEG).
  destruct (repr_trim (mk_bn (used a - used b + 1) sq (dp q)) qd sq) as [Rq Kq]; auto; try lia.
  destruct (repr_trim (mk_bn (used b) (bn_sign b) (dp r)) rd (sign b)) as [Rr Kr]; auto; try lia.
  pose proof (Z.div_mod (mag a) (mag b) Hmb0) as Ed.
  pose proof (Z.mod_pos_bound (mag a) (mag b) ltac:(lia)) as Hm.
  rewrite <- Vq, <- Vr in Ed. rewrite <- Vr in Hm. pose proof (val_bound qd Dq).
  eapply div_outputs; eauto. lia.
Qed.

Lemma bn_div_ok c a b x y : buf c -> repr a x -> repr b y -> y <> 0 ->
  (Z.abs y <= Z.abs x -> (used a < RLC_BN_SIZE)%nat) -> (x <> 0 \/ sign a = sign b) ->
  returns (bn_div c a b) (fun r => repr r (x / y) /\ canonical r).
Proof.
  intros Hc Ha Hb Hy Hsz Hz. unfold bn_div. rewrite (bn_is_zero_ok b y Hb).
  destruct (Z.eqb_spec y 0); [contradiction|].
  eapply returns_bind; [apply (bn_div_imp_ok (Some c) None a b x y); cbn; auto|].
  intros [[q|] d] [Hq _]; cbn in *; [exact Hq|contradiction].
Qed.

Lemma bn_div_rem_ok c d a b x y : buf c -> buf d -> repr a x -> repr b y -> y <> 0 ->
  (Z.abs y <= Z.abs x -> (used a < RLC_BN_SIZE)%nat) -> (x <> 0 \/ sign a = sign b) ->
  returns (bn_div_rem (Some c) (Some d) a b) (fun r => exists q s, r = (Some q, Some s) /\
    repr q (x / y) /\ canonical q /\ repr s (x mod y) /\ (canonical a -> canonical s)).
Proof.
  intros Hc Hd Ha Hb Hy Hsz Hz. unfold bn_div_rem. rewrite (bn_is_zero_ok b y Hb).
  destruct (Z.eqb_spec y 0); [contradiction|].
  eapply returns_mono; [apply (bn_div_imp_ok (Some c) (Some d) a b x y); cbn; auto|].
  intros [[q|] [s|]] [Hq Hs]; cbn in Hq, Hs; try contradiction. exists q, s. tauto.
Qed.

Lemma bn_div_zero c d a b : bn_is_zero b = true ->
  bn_div_rem c d a b = Throw ERR_NO_VALID.
Proof. intros H. unfold bn_div_rem. rewrite H. reflexivity. Qed.

(** ** Division by a digit *)

Lemma div1_facts a d q r : wf a -> 0 < d < B -> low_div1 (view a 0 (used a)) d = (q, r) ->
  digs q /\ length q = used a /\ val q = mag a / d /\ r = mag a mod d.
Proof.
  intros Ha Hd E. destruct (digs_of_facts a Ha) as [Da La]. rewrite digs_of_view in E.
  apply div1_ok in E as (V & Er & D & Ln); auto. fold (mag a) in *. repeat split; auto. lia.
Qed.

Lemma bn_div_rem_dig_ok c a x d : opt_buf c -> repr a x -> 0 < d < B ->
  returns (bn_div_rem_dig c a d) (fun r => opt_repr c (fst r) (Z.quot x d) /\ snd r = Z.abs x mod d).
Proof.
  intros Hc Ha0 Hd. pose proof Ha0 as [Ha Ex]. unfold bn_div_rem_dig.
  destruct (Z.eqb_spec d 0); [lia|]. rewrite (bn_is_zero_ok a x Ha0).
  pose proof Ha as (_ & Hu & _). pose proof (mag_bound a Ha).
  destruct (Z.eqb_spec d 1) as [->|Hd1], (Z.eqb_spec x 0) as [E0|Hx0]; cbn [orb].
  1, 2, 3: eapply returns_bind; [apply (out_ok c _ (fun r => repr r x) Hc);
      intros c1 Hc1; eapply returns_mono; [apply (bn_copy_ok c1 a x); auto|tauto]|];
    intros c' Hc'; cbn [returns fst snd];
    first [rewrite Z.quot_1_r, Z.mod_1_r | rewrite E0 in Hc' |- *; cbn [Z.abs]; rewrite Z.quot_0_l, Z.mod_0_l by lia]; auto.
  make. destruct (low_div1 _ _) as [ds r] eqn:E.
  apply div1_facts in E as (Dd & Ld & Vd & Er); auto.
  eapply returns_bind; [apply (store_front bn_new ds); auto with bn; lia|]. intros q (Hq & _ & _).
  assert (EQ : sgn (sign a) * val ds = Z.quot x d)
    by (rewrite Vd, sgn_quot by lia; fold (ival a); rewrite Ex; reflexivity).
  eapply returns_bind; [apply (out_ok c _ (fun r => repr r (Z.quot x d)) Hc)|].
  - intros c1 Hc1. rewrite <- EQ.
    eapply returns_mono; [apply (copy_trim c1 (mk_bn (used a) (sign a) (dp q)) ds); auto; lia|tauto].
  - intros c' Hc'. cbn [returns fst snd]. split; [exact Hc'|]. rewrite <- Ex, ival_abs by exact Ha. exact Er.
Qed.

Lemma bn_div_dig_ok c a x d : buf c -> repr a x -> 0 < d < B ->
  returns (bn_div_dig c a d) (fun r => repr r (Z.quot x d)).
Proof.
  intros Hc Ha Hd. pose proof (bn_div_rem_dig_ok (Some c) a x d Hc Ha Hd) as H.
  unfold bn_div_rem_dig, bn_div_dig in *. destruct (Z.eqb_spec d 0); [lia|].
  destruct ((d =? 1) || bn_is_zero a); cbn [out] in *.
  - destruct (bn_copy c a); cbn in *; try contradiction. apply H.
  - destruct (bn_make (used a)) as [q| | |]; cbn [bind] in *; try contradiction.
    destruct (low_div1 _ _) as [ds r]. destruct (store q 0 ds); cbn [bind] in *; try contradiction.
    destruct (bn_copy c _); cbn in *; try contradiction. apply H.
Qed.
End MulOk.
