(* ===== verification/BnConv.v ===== *)
(** * Conversions of multiple precision integers

    The rest of bn/relic_bn_util.c: the string conversions, and the correctness
    of the raw, binary and string conversions (each writer followed by its
    reader gives the number back).  Characters and bytes are their codes. *)

From Stdlib Require Import ZArith List Lia Bool.
From S2P Require Import Prelude Dv BnLow Bn BnOk BnMul BnMulOk.
Import ListNotations.
Local Open Scope Z_scope.

Section Str.
Context {L : BnLow}.

(** The longest string: [RLC_BN_SIZE] digits in base 2, and the end of the loop. *)
Definition str_fuel : nat := S (S (64 * RLC_BN_SIZE)).

(** while (!bn_is_zero(t)) { bn_div_dig(t, t, radix); digits++; } *)
Definition size_str_step (radix : Z) (s : bn * Z) : result ((bn * Z) + Z) :=
  let '(t, digits) := s in
  if bn_is_zero t then Ok (inr digits)
  else let! t := bn_div_dig t t radix in Ok (inl (t, digits + 1)).

Definition bn_size_str (a : bn) (radix : Z) : result Z :=
  if (radix <? 2) || (64 <? radix) then Throw ERR_NO_VALID
  else if bn_is_zero a then Ok 2
  else if radix =? 2 then Ok (bn_bits a + (if sign_eqb (sign a) RLC_NEG then 1 else 0) + 1)
  else
    let digits := if sign_eqb (sign a) RLC_NEG then 1 else 0 in
    let! t := bn_copy bn_new a in
    let t := set_sign t RLC_POS in
    let! digits := loop str_fuel (size_str_step radix) (t, digits) in
    Ok (digits + 1).

Definition char_at (str : list Z) (j : nat) : result Z :=
  if (j <? length str)%nat then Ok (nth j str 0) else Undef.

(** for (i = 0; i < 64; i++) if (c == util_conv_char(i)) break; *)
Fixpoint find_char (n i : nat) (c : Z) : Z :=
  match n with
  | O => Z.of_nat i
  | S n' => if c =? util_conv_char (Z.of_nat i) then Z.of_nat i else find_char n' (S i) c
  end.

(** while (j < len) ..., with [n = len - j]. *)
Fixpoint read_str_loop (n j : nat) (str : list Z) (radix : Z) (a : bn) : result bn :=
  match n with
  | O => Ok a
  | S n' =>
      let! ch := char_at str j in
      if ch =? 0 then Ok a
      else
        let c := if radix <? 36 then RLC_UPP ch else ch in
        let i := find_char 64 0 c in
        if i <? radix then
          let! a := bn_mul_dig a a radix in
          let! a := bn_add_dig a a i in
          read_str_loop n' (S j) str radix a
        else Ok a
  end.

Definition bn_read_str (a : bn) (str : list Z) (len : nat) (radix : Z) : result bn :=
  let! a := bn_zero a in
  if (radix <? 2) || (64 <? radix) then Throw ERR_NO_VALID
  else
    let! c0 := char_at str 0 in
    let '(j, sign) := if c0 =? 45 then (1%nat, RLC_NEG) else (0%nat, RLC_POS) in
    let! a := bn_grow a (Z.to_nat (RLC_CEIL (Z.of_nat len * util_bits_dig radix) RLC_DIG)) in
    let! a := read_str_loop (len - j) j str radix a in
    Ok (set_sign a sign).

(** str[j] = c, with a check of the bound. *)
Definition put_char (str : list Z) (j : nat) (c : Z) : result (list Z) :=
  if (j <? length str)%nat then Ok (upd str j c) else Undef.

Definition write_str_step (len : nat) (radix : Z) (s : bn * list Z * nat)
    : result ((bn * list Z * nat) + list Z) :=
  let '(t, str, j) := s in
  if negb (bn_is_zero t) && (j <? len)%nat then
    let! (t', d) := bn_div_rem_dig (Some t) t radix in
    match t' with
    | Some t' => let! str := put_char str j (util_conv_char d) in Ok (inl (t', str, S j))
    | None => Undef
    end
  else Ok (inr str).

(** [str] is the caller's buffer, at least [len] characters long. *)
Definition bn_write_str (str : list Z) (len : nat) (a : bn) (radix : Z) : result (list Z) :=
  let! lz := bn_size_str a radix in
  let l := Z.to_nat lz in
  if (len <? l)%nat then Throw ERR_NO_BUFFER
  else if (radix <? 2) || (64 <? radix) then Throw ERR_NO_VALID
  else if bn_is_zero a then
    let! str := put_char str 0 48 in
    put_char str 1 0
  else
    let! t := bn_copy bn_new a in
    let! (t, str, j) :=
      if sign_eqb (sign t) RLC_NEG then
        let! str := put_char str 0 45 in Ok (set_sign t RLC_POS, str, 1%nat)
      else Ok (t, str, 0%nat) in
    let! str := loop str_fuel (write_str_step len radix) (t, str, j) in
    let i := if nth 0 str 0 =? 45 then 1%nat else 0%nat in
    let str := reverse_loop len str i (l - 2) in
    put_char str (l - 1) 0.

End Str.

(** ** Raw conversion *)

Lemma bn_write_raw_ok a x len : repr a x ->
  if (used a <=? len)%nat then
    returns (bn_write_raw len a) (fun l => val l = Z.abs x /\ digs l /\ length l = len)
  else bn_write_raw len a = Throw ERR_NO_BUFFER.
Proof.
  intros [Ha Hx]. unfold bn_write_raw. destruct (digs_of_facts a Ha) as [Da La].
  destruct (Nat.leb_spec (used a) len), (Nat.ltb_spec len (used a)); try lia; [|reflexivity].
  cbn [returns]. rewrite digs_of_view, val_app, val_repeat0, length_app, repeat_length, <- Hx.
  rewrite ival_abs by exact Ha. unfold mag. repeat split; auto with digits; lia.
Qed.

Lemma bn_read_raw_ok c raw : buf c -> digs raw -> (length raw <= RLC_BN_SIZE)%nat ->
  returns (bn_read_raw c raw (length raw)) (fun r => repr r (val raw) /\ canonical r).
Proof.
  intros Hc Hr Hl. unfold bn_read_raw. grow. rewrite Nat.ltb_irrefl, firstn_all.
  eapply returns_bind; [apply (store_front c raw); auto|]. intros c1 (Hh & _ & _). cbn [returns].
  rewrite <- (Z.mul_1_l (val raw)). apply (repr_trim _ raw RLC_POS); auto.
Qed.

(** ** Binary conversion *)

(** Little-endian value of a list of bytes. *)
Fixpoint bval (l : list Z) : Z := match l with [] => 0 | b :: l' => b + 256 * bval l' end.

Definition byte (b : Z) : Prop := 0 <= b < 256.
Definition bytes (l : list Z) : Prop := Forall byte l.

Lemma bytes_split n l : bytes l -> bytes (firstn n l) /\ bytes (skipn n l).
Proof. intros H. apply Forall_app. rewrite firstn_skipn. exact H. Qed.
Lemma bytes_firstn n l : bytes l -> bytes (firstn n l).
Proof. intros H; apply bytes_split, H. Qed.
Lemma bytes_skipn n l : bytes l -> bytes (skipn n l).
Proof. intros H; apply bytes_split, H. Qed.
Lemma bytes_rev l : bytes l -> bytes (rev l).
Proof. apply Forall_rev. Qed.

Lemma bval_app l1 l2 : bval (l1 ++ l2) = bval l1 + 256 ^ Z.of_nat (length l1) * bval l2.
Proof.
  induction l1 as [|b l1 IH]; cbn [bval app length]; [change (256 ^ Z.of_nat 0) with 1; lia|].
  rewrite IH, Nat2Z.inj_succ, Z.pow_succ_r by lia. ring.
Qed.

Lemma bval_bound l : bytes l -> 0 <= bval l < 256 ^ Z.of_nat (length l).
Proof.
  induction 1 as [|b l Hb Hl IH]; cbn [bval length]; [lia|].
  rewrite Nat2Z.inj_succ, Z.pow_succ_r by lia. unfold byte in Hb. lia.
Qed.

Lemma bval_repeat0 n : bval (repeat 0 n) = 0.
Proof. induction n as [|n IH]; cbn [bval repeat]; [reflexivity|]. rewrite IH; lia. Qed.

Lemma Bp_256 n : Bp n = 256 ^ Z.of_nat (8 * n).
Proof. rewrite Bp_pow2. change 256 with (2 ^ 8). rewrite <- Z.pow_mul_r by lia. f_equal. lia. Qed.

Lemma pow256_pos n : 0 < 256 ^ Z.of_nat n.
Proof. apply Z.pow_pos_nonneg; lia. Qed.

(** Appending a byte to a digit that has room for it. *)
Lemma push_byte d b n : (n < 8)%nat -> 0 <= d < 256 ^ Z.of_nat (7 - n) -> byte b ->
  Z.lor (dshl d 8) b = d * 256 + b.
Proof.
  intros Hn Hd Hb. unfold dshl, byte in *. rewrite (Z.mod_small (Z.shiftl d 8)).
  - apply (lor_shiftl_add d b 8); [lia|]. change (2 ^ 8) with 256. lia.
  - rewrite Z.shiftl_mul_pow2 by lia. change (2 ^ 8) with 256.
    assert (256 ^ Z.of_nat (7 - n) <= 256 ^ 7) by (apply Z.pow_le_mono_r; lia).
    change B with (256 ^ 7 * 256). nia.
Qed.

(** The [n] bytes at position [8 i] of the little-endian input. *)
Lemma read_digit_ok bin len i : (len <= length bin)%nat -> bytes bin ->
  forall n d, (n <= 8)%nat -> (i * 8 + n <= len)%nat -> 0 <= d < 256 ^ Z.of_nat (8 - n) ->
  read_digit bin len i n d =
  d * 256 ^ Z.of_nat n + bval (firstn n (skipn (i * 8) (rev (firstn len bin)))).
Proof.
  intros HL Hb. set (r := rev (firstn len bin)).
  assert (Hr : length r = len) by (subst r; rewrite length_rev, firstn_length_le; lia).
  assert (Hbr : bytes r) by (subst r; apply bytes_rev, bytes_firstn; exact Hb).
  induction n as [|j IH]; intros d Hn Hij Hd; cbn [read_digit].
  - rewrite firstn_O. cbn [bval]. change (256 ^ Z.of_nat 0) with 1. lia.
  - assert (Eb : nth (len - 1 - (i * 8 + j)) bin 0 = nth j (skipn (i * 8) r) 0).
    { rewrite nth_skipn. subst r. rewrite rev_nth by (rewrite firstn_length_le; lia).
      rewrite firstn_length_le by lia. rewrite nth_firstn.
      replace (len - S (i * 8 + j) <? len)%nat with true by (symmetry; apply Nat.ltb_lt; lia).
      f_equal. lia. }
    assert (Hby : byte (nth j (skipn (i * 8) r) 0)).
    { rewrite nth_skipn. unfold bytes in Hbr. rewrite Forall_nth in Hbr. apply Hbr. lia. }
    rewrite Eb, (push_byte _ _ j) by (auto; replace (7 - j)%nat with (8 - S j)%nat by lia; exact Hd).
    rewrite IH; try lia.
    + rewrite firstn_S_nth by (rewrite length_skipn; lia).
      rewrite bval_app, length_firstn, length_skipn, Nat.min_l by lia. cbn [bval].
      rewrite Nat2Z.inj_succ, Z.pow_succ_r by lia. ring.
    + replace (8 - j)%nat with (S (8 - S j)) by lia. rewrite Nat2Z.inj_succ, Z.pow_succ_r by lia.
      unfold byte in Hby. lia.
Qed.

Lemma read_last_min bin len i : forall n d,
  read_last bin len i n d = read_digit bin len i (Nat.min n (len - i * 8)) d.
Proof.
  induction n as [|j IH]; intros d; [reflexivity|]. cbn [read_last]. rewrite IH.
  destruct (Nat.ltb_spec (i * 8 + j) len).
  - rewrite !Nat.min_l by lia. reflexivity.
  - rewrite !Nat.min_r by lia. reflexivity.
Qed.

Definition chunk (r : list Z) (i : nat) : Z := bval (firstn 8 (skipn (i * 8) r)).

Lemma chunks_val r : bytes r -> forall n, (8 * n <= length r)%nat ->
  val (map (chunk r) (seq 0 n)) = bval (firstn (8 * n) r).
Proof.
  intros Hr n. induction n as [|n IH]; intros Hn; [reflexivity|].
  rewrite seq_S, map_app, val_app, IH, length_map, length_seq by lia. cbn [map val Nat.add].
  replace (8 * S n)%nat with (8 * n + 8)%nat by lia.
  rewrite <- (firstn_skipn (8 * n) (firstn (8 * n + 8) r)), bval_app, firstn_firstn, skipn_firstn_comm.
  rewrite length_firstn, !Nat.min_l, Bp_256 by lia. unfold chunk.
  rewrite (Nat.mul_comm n 8). replace (8 * n + 8 - 8 * n)%nat with 8%nat by lia. lia.
Qed.

Lemma chunk_dig r i : bytes r -> dig (chunk r i).
Proof.
  intros Hr. unfold chunk, dig.
  pose proof (bval_bound (firstn 8 (skipn (i * 8) r)) ltac:(apply bytes_firstn, bytes_skipn, Hr)) as Hb.
  rewrite length_firstn in Hb.
  assert (256 ^ Z.of_nat (Nat.min 8 (length (skipn (i * 8) r))) <= 256 ^ 8) by (apply Z.pow_le_mono_r; lia).
  change B with (256 ^ 8). lia.
Qed.

Lemma bn_read_bin_ok c bin : buf c -> bytes bin -> (length bin <= 8 * RLC_BN_SIZE)%nat ->
  returns (bn_read_bin c bin (length bin)) (fun r => repr r (bval (rev bin)) /\ canonical r).
Proof.
  intros Hc Hb Hl. unfold bn_read_bin. rewrite Nat.ltb_irrefl. set (len := length bin) in *.
  pose proof (Nat.div_mod_eq len 8) as Ed. pose proof (Nat.mod_upper_bound len 8 ltac:(lia)) as Hm.
  set (digs := (if (len mod 8 =? 0)%nat then len / 8 else len / 8 + 1)%nat).
  assert (Hdigs : (8 * digs < len + 8 /\ len <= 8 * digs)%nat)
    by (subst digs; destruct (Nat.eqb_spec (len mod 8) 0); lia).
  clearbody digs. pose proof BN_SIZE_pos. grow.
  destruct Hc as [HLc _]. unfold bn_zero. rewrite dv_zero_ok by exact HLc. cbn [bind].
  change (mk_bn 1 RLC_POS (repeat 0 RLC_BN_SIZE)) with bn_new.
  set (r := rev bin). assert (Hr : bytes r) by (apply bytes_rev, Hb).
  assert (Lr : length r = len) by (subst r; apply length_rev).
  assert (Er : rev (firstn len bin) = r) by (subst r len; rewrite firstn_all; reflexivity).
  assert (E1 : map (fun i => read_digit bin len i 8 0) (seq 0 (digs - 1)) = map (chunk r) (seq 0 (digs - 1))).
  { apply map_ext_in. intros i Hi%in_seq.
    rewrite read_digit_ok, Er by (auto; try lia; change (256 ^ Z.of_nat (8 - 8)) with 1; lia).
    reflexivity. }
  assert (E2 : read_last bin len (digs - 1) 8 0 = chunk r (digs - 1)).
  { assert (0 <= 0 < 256 ^ Z.of_nat (8 - Nat.min 8 (len - (digs - 1) * 8))) by (split; [lia|apply pow256_pos]).
    rewrite read_last_min, read_digit_ok, Er by (auto; lia).
    unfold chunk. rewrite Z.mul_0_l, Z.add_0_l. f_equal.
    destruct (Nat.le_gt_cases 8 (len - (digs - 1) * 8)).
    - rewrite Nat.min_l by lia. reflexivity.
    - rewrite Nat.min_r, !firstn_all2 by (rewrite ?length_skipn; lia). reflexivity. }
  rewrite E1, E2.
  set (l1 := map (chunk r) (seq 0 (digs - 1))).
  assert (D1 : Prelude.digs l1) by (apply Forall_map, Forall_forall; intros; apply chunk_dig, Hr).
  assert (L1 : length l1 = (digs - 1)%nat) by (subst l1; rewrite length_map, length_seq; reflexivity).
  eapply returns_bind; [apply (store_front bn_new l1); auto with bn; lia|]. intros c1 (Hh & _ & _).
  eapply returns_bind; [apply (store_ok c1 (digs - 1) l1 [chunk r (digs - 1)]);
    cbn [length]; auto using chunk_dig with digits; lia|]. intros c2 (Hh2 & _ & _). cbn [returns].
  destruct (Nat.eq_dec digs 0) as [E0|Hn].
  - assert (len = 0%nat) by lia. assert (Enil : r = []) by (apply length_zero_iff_nil; lia).
    rewrite Enil in *. cbn [bval].
    pose proof (repr_trim (mk_bn digs RLC_POS (dp c2)) [] RLC_POS) as Ht. cbn [val sgn] in Ht.
    apply Ht; auto; [split; [apply Hh2|reflexivity]|cbn; lia].
  - assert (Ev : bval r = sgn RLC_POS * val (l1 ++ [chunk r (digs - 1)])).
    { subst l1. rewrite val_app, chunks_val, length_map, length_seq by (auto; lia). cbn [val sgn].
      rewrite <- (firstn_skipn (8 * (digs - 1)) r) at 1. rewrite bval_app, length_firstn, Nat.min_l, Bp_256 by lia.
      unfold chunk. rewrite (Nat.mul_comm (digs - 1) 8). rewrite (firstn_all2 (skipn _ r)) by (rewrite length_skipn; lia). lia. }
    rewrite Ev. apply repr_trim; auto; rewrite length_app; cbn; lia.
Qed.

Lemma land_255 d : Z.land d 255 = d mod 256.
Proof. change 255 with (Z.ones 8). rewrite Z.land_ones by lia. reflexivity. Qed.

Lemma dshr_8 d : dshr d 8 = d / 256.
Proof. unfold dshr. rewrite Z.shiftr_div_pow2 by lia. reflexivity. Qed.

Lemma mod256_byte d : byte (d mod 256).
Proof. apply Z.mod_pos_bound. lia. Qed.

Lemma write_digit_ok n : forall d, 0 <= d < 256 ^ Z.of_nat n ->
  bval (write_digit n d) = d /\ bytes (write_digit n d) /\ length (write_digit n d) = n.
Proof.
  induction n as [|n IH]; intros d Hd; cbn [write_digit].
  - change (256 ^ Z.of_nat 0) with 1 in Hd. cbn. repeat split; [lia|constructor].
  - rewrite Nat2Z.inj_succ, Z.pow_succ_r in Hd by lia. rewrite land_255, dshr_8.
    pose proof (Z.div_mod d 256 ltac:(lia)). pose proof (mod256_byte d) as Hm.
    destruct (IH (d / 256)) as (E & Hb & HL).
    { split; [apply Z.div_pos; lia|apply Z.div_lt_upper_bound; lia]. }
    cbn [bval length]. rewrite E, HL. repeat split; [lia|constructor; auto].
Qed.

Lemma write_last_ok n : forall d, 0 <= d < 256 ^ Z.of_nat n ->
  bval (write_last n d) = d /\ bytes (write_last n d) /\ length (write_last n d) = size_bytes n d /\
  (d <> 0 -> (0 < size_bytes n d)%nat /\ 256 ^ (Z.of_nat (size_bytes n d) - 1) <= d).
Proof.
  induction n as [|n IH]; intros d Hd; cbn [write_last size_bytes].
  - change (256 ^ Z.of_nat 0) with 1 in Hd. cbn. repeat split; try lia; constructor.
  - rewrite Nat2Z.inj_succ, Z.pow_succ_r in Hd by lia. rewrite land_255, dshr_8.
    destruct (Z.eqb_spec d 0) as [->|Hn]; [cbn; repeat split; try lia; constructor|].
    pose proof (Z.div_mod d 256 ltac:(lia)). pose proof (mod256_byte d) as Hm.
    assert (Hq : 0 <= d / 256 < 256 ^ Z.of_nat n)
      by (split; [apply Z.div_pos; lia|apply Z.div_lt_upper_bound; lia]).
    destruct (IH (d / 256) Hq) as (E & Hb & HL & Hs).
    cbn [bval length]. rewrite E, HL. split; [lia|]. split; [constructor; auto|]. split; [reflexivity|].
    intros _. split; [lia|]. rewrite Nat2Z.inj_succ.
    destruct (Z.eq_dec (d / 256) 0) as [E0|Hn0].
    + rewrite E0. replace (size_bytes n 0) with 0%nat by (destruct n; reflexivity). cbn. lia.
    + destruct (Hs Hn0) as [Hp Hle].
      replace (Z.succ (Z.of_nat (size_bytes n (d / 256))) - 1)
        with (Z.succ (Z.of_nat (size_bytes n (d / 256)) - 1)) by lia.
      rewrite Z.pow_succ_r by lia. unfold byte in Hm. lia.
Qed.

Lemma flat_write_digit ds : digs ds ->
  bval (flat_map (write_digit 8) ds) = val ds /\ bytes (flat_map (write_digit 8) ds) /\
  length (flat_map (write_digit 8) ds) = (8 * length ds)%nat.
Proof.
  induction 1 as [|d ds Hd Hds (E & Hb & HL)]; cbn [flat_map]; [cbn; repeat split; constructor|].
  destruct (write_digit_ok 8 d Hd) as (E1 & Hb1 & HL1).
  rewrite bval_app, length_app, HL1, E1, E, HL. cbn [val length].
  split; [change (256 ^ Z.of_nat 8) with B; lia|]. split; [apply Forall_app; auto|lia].
Qed.

(** The magnitude as bytes, and the number of bytes it needs. *)
Lemma bin_bytes a : wf a ->
  let bs := flat_map (write_digit 8) (view a 0 (used a - 1)) ++
            write_last 8 (nth (used a - 1) (dp a) 0) in
  bval bs = mag a /\ bytes bs /\ length bs = bn_size_bin a /\
  (mag a <> 0 -> (0 < bn_size_bin a)%nat /\ 256 ^ (Z.of_nat (bn_size_bin a) - 1) <= mag a).
Proof.
  intros Ha bs. pose proof Ha as (Hb & Hu & Ht). unfold bn_size_bin.
  destruct (view_facts a 0 (used a - 1) Hb ltac:(lia)) as [D1 L1].
  destruct (flat_write_digit _ D1) as (E1 & B1 & LL1).
  assert (Dt : dig (nth (used a - 1) (dp a) 0)) by (apply digs_nth, Hb).
  destruct (write_last_ok 8 _ Dt) as (E2 & B2 & LL2 & HS).
  set (top := nth (used a - 1) (dp a) 0) in *. set (u := (used a - 1)%nat) in *.
  assert (Em : mag a = val (view a 0 u) + Bp u * top).
  { unfold mag, digs_of. replace (used a) with (S u) by lia. unfold view. cbn [skipn].
    rewrite firstn_S_nth, val_app, length_firstn, Nat.min_l by (destruct Hb as [HL _]; lia).
    cbn [val]. fold top. lia. }
  subst bs. rewrite bval_app, length_app, LL1, L1, E1, E2, LL2.
  split; [rewrite Em, Bp_256; reflexivity|]. split; [apply Forall_app; auto|]. split; [lia|].
  intros Hn. assert (Htop : 0 < top < B) by (apply mag_top_nz; auto). destruct (HS ltac:(lia)) as [HS1 HS2].
  split; [lia|]. pose proof (val_bound _ D1) as Hv. rewrite Em.
  replace (Z.of_nat (u * 8 + size_bytes 8 top) - 1) with (Z.of_nat (8 * u) + (Z.of_nat (size_bytes 8 top) - 1)) by lia.
  rewrite Z.pow_add_r, <- Bp_256 by lia. pose proof (Bp_pos u). nia.
Qed.

Lemma bn_write_bin_ok a x len : repr a x ->
  if Z.abs x <? 256 ^ Z.of_nat len then
    returns (bn_write_bin len a) (fun l => bval (rev l) = Z.abs x /\ bytes l /\ length l = len)
  else bn_write_bin len a = Throw ERR_NO_BUFFER.
Proof.
  intros [Ha Hx]. unfold bn_write_bin. pose proof (bin_bytes a Ha) as Hbs. cbv zeta in *.
  set (bs := flat_map _ _ ++ _) in *. clearbody bs. destruct Hbs as (Ev & Hb & HL & HS).
  rewrite <- Hx, ival_abs by exact Ha. pose proof (mag_bound a Ha).
  assert (Hsize : (mag a <? 256 ^ Z.of_nat len) = negb (len <? bn_size_bin a)%nat).
  { pose proof (bval_bound _ Hb) as Hbb. rewrite Ev, HL in Hbb.
    destruct (Nat.ltb_spec len (bn_size_bin a)) as [Hlt|Hge]; cbn [negb].
    - apply Z.ltb_ge. destruct (Z.eq_dec (mag a) 0) as [E0|Hn].
      + exfalso. assert (Hz : bn_size_bin a = 0%nat); [|lia].
        unfold bn_size_bin. pose proof (mag_top a Ha) as Et. rewrite E0, Z.div_0_l in Et by (pose proof (Bp_pos (used a - 1)); lia).
        rewrite Et. pose proof Ha as (_ & Hu & [Hu1|Hn]); [rewrite Hu1; reflexivity|contradiction].
      + destruct (HS Hn) as [_ Hle]. apply Z.le_trans with (2 := Hle). apply Z.pow_le_mono_r; lia.
    - apply Z.ltb_lt. apply Z.lt_le_trans with (1 := proj2 Hbb). apply Z.pow_le_mono_r; lia. }
  rewrite Hsize. destruct (Nat.ltb_spec len (bn_size_bin a)) as [Hlt|Hge]; cbn [negb]; [reflexivity|].
  cbn [returns]. rewrite rev_involutive, length_rev, length_app, repeat_length, bval_app, bval_repeat0, Ev, HL.
  repeat split; [lia| |lia]. apply bytes_rev, Forall_app. split; [exact Hb|].
  apply Forall_forall. intros b Hi. apply repeat_spec in Hi. subst b. unfold byte; lia.
Qed.

(** ** String conversion *)

Section StrOk.
Context {L : BnLow} {LO : BnLowOk L}.

(** The number [m] has [k] digits in base [r]: it vanishes after [k] divisions, and
    not before. *)
Definition ndigits (r m : Z) (k : nat) : Prop :=
  m / r ^ Z.of_nat k = 0 /\ (forall j, (j < k)%nat -> m / r ^ Z.of_nat j <> 0).

Lemma ndigits_unique r m j k : ndigits r m j -> ndigits r m k -> j = k.
Proof.
  intros [Hj1 Hj2] [Hk1 Hk2]. destruct (Nat.lt_trichotomy j k) as [H|[H|H]]; [|exact H|].
  - destruct (Hk2 j H Hj1).
  - destruct (Hj2 k H Hk1).
Qed.

Lemma div_pow_S r m k : 2 <= r -> m / r ^ Z.of_nat (S k) = m / r ^ Z.of_nat k / r.
Proof.
  intros Hr. rewrite Nat2Z.inj_succ, Z.pow_succ_r by lia. rewrite Z.mul_comm.
  rewrite Z.div_div; [reflexivity| |lia]. pose proof (Z.pow_pos_nonneg r (Z.of_nat k)). lia.
Qed.

(** Dividing by the radix removes at least one bit. *)
Lemma bitlen_div r t : 2 <= r -> 0 < t -> bitlen (t / r) < bitlen t.
Proof.
  intros Hr Ht. assert (H1 : 0 < bitlen t).
  { unfold bitlen. pose proof (Z.log2_nonneg (Z.abs t)). destruct (Z.eqb_spec t 0); lia. }
  enough (bitlen (t / r) <= bitlen t - 1) by lia. apply bitlen_spec; [lia|].
  assert (Ht2 : Z.abs t < 2 ^ bitlen t) by (apply bitlen_spec; lia).
  replace (bitlen t) with (Z.succ (bitlen t - 1)) in Ht2 by lia. rewrite Z.pow_succ_r in Ht2 by lia.
  rewrite Z.abs_eq by (apply Z.div_pos; lia).
  apply Z.div_lt_upper_bound; [lia|].
  assert (0 < 2 ^ (bitlen t - 1)) by (apply Z.pow_pos_nonneg; lia). nia.
Qed.

(** State of both division loops after [k] digits of [m]. *)
Definition div_inv (r m : Z) (k : nat) (t : bn) : Prop :=
  repr t (m / r ^ Z.of_nat k) /\ (forall j, (j < k)%nat -> m / r ^ Z.of_nat j <> 0).

Lemma div_inv_step r m k t t' : 2 <= r -> 0 < m -> div_inv r m k t -> m / r ^ Z.of_nat k <> 0 ->
  repr t' (Z.quot (m / r ^ Z.of_nat k) r) -> div_inv r m (S k) t'.
Proof.
  intros Hr Hm [_ Hj] Hn Ht'. assert (0 <= m / r ^ Z.of_nat k).
  { apply Z.div_pos; [lia|]. pose proof (Z.pow_pos_nonneg r (Z.of_nat k)). lia. }
  rewrite Z.quot_div_nonneg, <- div_pow_S in Ht' by lia. split; [exact Ht'|].
  intros j Hjk. destruct (Nat.eq_dec j k) as [->|]; [exact Hn|apply Hj; lia].
Qed.

Lemma size_str_loop r m t d0 : 2 <= r < B -> 0 < m -> repr t m ->
  returns (loop str_fuel (size_str_step r) (t, d0)) (fun d => exists k, ndigits r m k /\ d = d0 + Z.of_nat k).
Proof.
  intros Hr Hm Ht.
  apply (loop_returns (fun s => exists k, div_inv r m k (fst s) /\ snd s = d0 + Z.of_nat k)
           (fun s => Z.to_nat (bitlen (ival (fst s))))).
  - intros [t1 d] (k & [Hk Hj] & Hd). cbn [fst snd size_str_step] in *. unfold size_str_step.
    rewrite (bn_is_zero_ok t1 _ Hk). destruct (Z.eqb_spec (m / r ^ Z.of_nat k) 0) as [E|E].
    + cbn. exists k. split; [split; auto|exact Hd].
    + eapply returns_bind; [apply (bn_div_dig_ok t1 t1 (m / r ^ Z.of_nat k) r); eauto with bn; lia|].
      intros t2 Ht2. cbn. pose proof (div_inv_step r m k t1 t2 ltac:(lia) Hm (conj Hk Hj) E Ht2) as Hi.
      split; [exists (S k); split; [exact Hi|lia]|].
      assert (0 < m / r ^ Z.of_nat k).
      { assert (0 <= m / r ^ Z.of_nat k); [|lia]. apply Z.div_pos; [lia|].
        pose proof (Z.pow_pos_nonneg r (Z.of_nat k)). lia. }
      destruct Hi as [[_ ->] _], Hk as [_ ->]. rewrite div_pow_S by lia.
      pose proof (bitlen_div r (m / r ^ Z.of_nat k) ltac:(lia) ltac:(lia)).
      pose proof (bitlen_nonneg (m / r ^ Z.of_nat k / r)). lia.
  - exists 0%nat. cbn [fst snd]. split; [|lia]. split; [|intros; lia].
    change (Z.of_nat 0) with 0. rewrite Z.pow_0_r, Z.div_1_r. exact Ht.
  - cbn [fst]. pose proof (bitlen_repr t m Ht). destruct Ht as [_ ->]. unfold str_fuel.
    pose proof (bitlen_nonneg m). lia.
Qed.

Definition neg_len (x : Z) : nat := if x <? 0 then 1%nat else 0%nat.

Lemma sign_neg a x : repr a x -> x <> 0 -> sign_eqb (sign a) RLC_NEG = (x <? 0).
Proof.
  intros [Ha <-] Hx. pose proof (mag_bound a Ha). unfold ival in *. destruct (sign a); cbn [sign_eqb sgn] in *.
  - symmetry. apply Z.ltb_ge. lia.
  - symmetry. apply Z.ltb_lt. lia.
Qed.

Lemma copy_abs a x : repr a x -> returns (bn_copy bn_new a) (fun t =>
  repr (set_sign t RLC_POS) (Z.abs x) /\ sign t = sign a /\ repr t x).
Proof.
  intros Ha. eapply returns_mono; [apply (bn_copy_ok bn_new a x); auto with bn|].
  intros t [Ht Hs]. split; [|auto]. destruct Ht as [Hw Hv]. split; [exact Hw|].
  unfold ival. cbn [set_sign sign sgn]. rewrite mag_set_sign, <- ival_abs, Hv by exact Hw. lia.
Qed.

Lemma bitlen_ndigits m : 0 < m -> ndigits 2 m (Z.to_nat (bitlen m)).
Proof.
  intros Hm. assert (Hs := bitlen_spec m). pose proof (bitlen_nonneg m).
  split.
  - rewrite Z2Nat.id by lia. apply Z.div_small. specialize (Hs (bitlen m)). lia.
  - intros j Hj E. apply Z.div_small_iff in E; [|pose proof (Z.pow_pos_nonneg 2 (Z.of_nat j)); lia].
    specialize (Hs (Z.of_nat j) ltac:(lia)). lia.
Qed.

(** The size of the string: sign, digits and terminator. *)
Lemma bn_size_str_ok a x r : repr a x -> 2 <= r <= 64 ->
  returns (bn_size_str a r) (fun l => (x = 0 -> l = 2) /\
    (x <> 0 -> exists k, ndigits r (Z.abs x) k /\ l = Z.of_nat (neg_len x + k + 1))).
Proof.
  intros Ha Hr. unfold bn_size_str, neg_len.
  destruct (Z.ltb_spec r 2), (Z.ltb_spec 64 r); try lia. cbn [orb].
  rewrite (bn_is_zero_ok a x Ha). destruct (Z.eqb_spec x 0) as [E|Hn]; [cbn; split; intros; lia|].
  rewrite (sign_neg a x Ha Hn). destruct (Z.eqb_spec r 2) as [->|Hr2].
  - cbn [returns]. split; [lia|]. intros _. exists (Z.to_nat (bitlen (Z.abs x))).
    split; [apply bitlen_ndigits; lia|]. rewrite (bn_bits_ok a x Ha), bitlen_abs.
    pose proof (bitlen_nonneg x). destruct (x <? 0); lia.
  - eapply returns_bind; [apply (copy_abs a x Ha)|]. intros t (Ht & _ & _).
    eapply returns_bind; [apply (size_str_loop r (Z.abs x)); auto|].
    + assert (64 < B) by reflexivity. lia.
    + lia.
    + intros d (k & Hk & Hd). cbn [returns]. split; [lia|]. intros _. exists k. split; [exact Hk|].
      destruct (x <? 0); lia.
Qed.

(** *** Writing *)

(** Value of digits, least significant first. *)
Fixpoint dval (r : Z) (ds : list Z) : Z := match ds with [] => 0 | d :: ds' => d + r * dval r ds' end.

(** Value of digits, most significant first, after a prefix of value [v]. *)
Definition deval (r v : Z) (ds : list Z) : Z := fold_left (fun x d => x * r + d) ds v.

Lemma dval_app r l1 l2 : dval r (l1 ++ l2) = dval r l1 + r ^ Z.of_nat (length l1) * dval r l2.
Proof.
  induction l1 as [|d l1 IH]; cbn [dval app length]; [rewrite Z.pow_0_r; lia|].
  rewrite IH, Nat2Z.inj_succ, Z.pow_succ_r by lia. ring.
Qed.

Lemma deval_rev r ds : deval r 0 (rev ds) = dval r ds.
Proof.
  unfold deval. rewrite fold_left_rev_right || rewrite <- fold_left_rev_right, rev_involutive.
  induction ds as [|d ds IH]; cbn [fold_right dval]; [reflexivity|]. rewrite IH. lia.
Qed.

(** Properties of the character table, by inspection of its 64 entries. *)
Lemma conv_char_facts i : 0 <= i < 64 ->
  find_char 64 0 (util_conv_char i) = i /\ util_conv_char i <> 0 /\ util_conv_char i <> 45 /\
  (i < 36 -> RLC_UPP (util_conv_char i) = util_conv_char i).
Proof.
  intros Hi.
  assert (H : forallb (fun i => let c := util_conv_char (Z.of_nat i) in
     (find_char 64 0 c =? Z.of_nat i) && negb (c =? 0) && negb (c =? 45) &&
     ((36 <=? Z.of_nat i) || (RLC_UPP c =? c))) (seq 0 64) = true)
    by (vm_compute; reflexivity).
  rewrite forallb_forall in H. specialize (H (Z.to_nat i) ltac:(apply in_seq; lia)).
  cbv zeta in H. rewrite Z2Nat.id in H by lia. rewrite !andb_true_iff in H.
  destruct H as [[[H1 H2] H3] H4]. apply Z.eqb_eq in H1.
  apply negb_true_iff, Z.eqb_neq in H2, H3.
  repeat split; auto. intros H36. apply orb_true_iff in H4 as [H4|H4]; [apply Z.leb_le in H4; lia|].
  apply Z.eqb_eq, H4.
Qed.

Lemma put_char_ok s j l c : (j < length s)%nat -> firstn j s = l ->
  returns (put_char s j c) (fun s' => firstn (S j) s' = l ++ [c] /\ length s' = length s /\
    skipn (S j) s' = skipn (S j) s).
Proof.
  intros Hj Hl. unfold put_char. destruct (Nat.ltb_spec j (length s)); [|lia]. cbn [returns].
  rewrite length_upd. rewrite upd_split by exact Hj. rewrite Hl.
  assert (Ll : length l = j) by (rewrite <- Hl, length_firstn; lia).
  split; [|split; [reflexivity|]].
  - rewrite firstn_app, Ll. replace (S j - j)%nat with 1%nat by lia.
    rewrite firstn_all2 by lia. reflexivity.
  - rewrite skipn_app, Ll, skipn_all2 by lia. replace (S j - j)%nat with 1%nat by lia. reflexivity.
Qed.

(** The loop writes the digits of [m], least significant first, after the sign [pre]. *)
Lemma write_str_loop r m t str len pre n : 2 <= r <= 64 -> 0 < m -> repr t m -> ndigits r m n ->
  (length pre + n < len)%nat -> (len <= length str)%nat -> firstn (length pre) str = pre ->
  returns (loop str_fuel (write_str_step len r) (t, str, length pre)) (fun s => exists ds,
    length ds = n /\ Forall (fun d => 0 <= d < r) ds /\ dval r ds = m /\
    firstn (length pre + n) s = pre ++ map util_conv_char ds /\ length s = length str).
Proof.
  intros Hr Hm Ht Hn Hlen HN Hpre.
  apply (loop_returns (fun s => let '(t, s, j) := s in exists k ds, div_inv r m k t /\
     length ds = k /\ Forall (fun d => 0 <= d < r) ds /\ dval r ds = m mod r ^ Z.of_nat k /\
     j = (length pre + k)%nat /\ firstn j s = pre ++ map util_conv_char ds /\ length s = length str)
     (fun s => Z.to_nat (bitlen (ival (fst (fst s)))))).
  - intros [[t1 s] j] (k & ds & [Hk Hj] & Lds & Fds & Vds & Ej & Es & Ls). unfold write_str_step.
    assert (Hrp : 0 < r ^ Z.of_nat k) by (apply Z.pow_pos_nonneg; lia).
    rewrite (bn_is_zero_ok t1 _ Hk). destruct (Z.eqb_spec (m / r ^ Z.of_nat k) 0) as [E|E]; cbn [negb andb].
    + cbn [returns]. assert (Ekn : k = n) by (apply (ndigits_unique r m); [split|]; auto).
      rewrite Ekn in Lds, Vds, E, Ej. exists ds. rewrite Ej in Es. split; [exact Lds|]. split; [exact Fds|]. split; [|split; [exact Es|exact Ls]].
      rewrite Vds. apply Z.mod_small. apply Z.div_small_iff in E; lia.
    + assert (Hkn : (k < n)%nat).
      { destruct (Nat.lt_ge_cases k n) as [|Hge]; [assumption|]. exfalso. destruct Hn as [Hn0 _].
        destruct (Nat.eq_dec k n) as [->|]; [exact (E Hn0)|]. exact (Hj n ltac:(lia) Hn0). }
      destruct (Nat.ltb_spec j len); [|lia].
      assert (Hq : 0 <= m / r ^ Z.of_nat k) by (apply Z.div_pos; lia).
      eapply returns_bind; [apply (bn_div_rem_dig_ok (Some t1) t1 (m / r ^ Z.of_nat k) r); cbn;
        eauto with bn; assert (64 < B) by reflexivity; lia|].
      intros [[t2|] d] [Ht2 Hd]; cbn [fst snd opt_repr opt_post] in Ht2, Hd; [|contradiction].
      rewrite Z.abs_eq in Hd by exact Hq.
      eapply returns_bind; [apply (put_char_ok s j); [lia|exact Es]|]. intros s' (Es' & Ls' & _).
      cbn [returns fst].
      pose proof (div_inv_step r m k t1 t2 ltac:(lia) Hm (conj Hk Hj) E Ht2) as Hi.
      pose proof (Z.mod_pos_bound (m / r ^ Z.of_nat k) r ltac:(lia)) as Hdr. rewrite <- Hd in Hdr.
      split.
      * exists (S k), (ds ++ [d]). split; [exact Hi|]. split; [rewrite length_app; cbn; lia|].
        split; [apply Forall_app; auto|]. split.
        { rewrite dval_app, Lds, Vds, Hd. cbn [dval].
          rewrite Nat2Z.inj_succ, Z.pow_succ_r, (Z.mul_comm r (r ^ Z.of_nat k)) by lia.
          rewrite Z.rem_mul_r by lia. ring. }
        split; [lia|]. split; [rewrite Es', map_app, app_assoc; reflexivity|congruence].
      * destruct Hi as [[_ ->] _], Hk as [_ ->]. rewrite div_pow_S by lia.
        pose proof (bitlen_div r (m / r ^ Z.of_nat k) ltac:(lia) ltac:(lia)).
        pose proof (bitlen_nonneg (m / r ^ Z.of_nat k / r)). lia.
  - exists 0%nat, []. rewrite Nat.add_0_r. cbn [map]. rewrite app_nil_r.
    change (Z.of_nat 0) with 0. rewrite Z.pow_0_r, Z.mod_1_r. cbn [dval length].
    split; [split; [rewrite Z.pow_0_r, Z.div_1_r; exact Ht|intros; lia]|]. repeat split; auto.
  - cbn [fst]. pose proof (bitlen_repr t m Ht). destruct Ht as [_ ->]. unfold str_fuel.
    pose proof (bitlen_nonneg m). lia.
Qed.

(** [s] starts with the text of [x] in base [r] ([n] characters) and a terminator. *)
Definition text (r x : Z) (n : nat) (s : list Z) : Prop := exists ds rest,
  s = (if x <? 0 then [45] else []) ++ map util_conv_char ds ++ 0 :: rest /\
  Forall (fun d => 0 <= d < r) ds /\ deval r 0 ds = Z.abs x /\ ds <> [] /\
  n = (neg_len x + length ds)%nat.

Lemma bn_write_str_ok a x r str len : repr a x -> 2 <= r <= 64 -> (len <= length str)%nat ->
  returns (bn_size_str a r) (fun l => l <= Z.of_nat len) ->
  returns (bn_write_str str len a r) (fun s => length s = length str /\
    exists n, (n < len)%nat /\ text r x n s).
Proof.
  intros Ha Hr HN Hsz. unfold bn_write_str.
  destruct (returns_ex _ _ (returns_conj _ _ _ (bn_size_str_ok a x r Ha Hr) Hsz)) as (l & El & (H0 & Hn0) & Hl).
  rewrite El. cbn [bind]. destruct (Nat.ltb_spec len (Z.to_nat l)); [lia|].
  destruct (Z.ltb_spec r 2), (Z.ltb_spec 64 r); try lia. cbn [orb].
  rewrite (bn_is_zero_ok a x Ha). destruct (Z.eqb_spec x 0) as [E|Hx].
  - specialize (H0 E). subst x. destruct str as [|c0 [|c1 str]]; cbn [length] in *; try lia.
    cbn. split; [reflexivity|]. exists 1%nat. split; [lia|]. exists [0], str. cbn. repeat split; try discriminate.
    constructor; [lia|constructor].
  - destruct (Hn0 Hx) as (n & Hn & El').
    eapply returns_bind; [apply (copy_abs a x Ha)|]. intros t (Ht & Hs & Htx). cbv beta.
    rewrite Hs, (sign_neg a x Ha Hx).
    set (pre := if x <? 0 then [45] else []).
    apply returns_bind with (P := fun r => let '(t, s, j) := r in repr t (Z.abs x) /\ j = length pre /\
      firstn j s = pre /\ length s = length str).
    { subst pre. destruct (Z.ltb_spec x 0).
      - eapply returns_bind; [apply (put_char_ok str 0 []); [lia|reflexivity]|].
        intros s (Es & Ls & _). cbn. auto.
      - cbn. rewrite Z.abs_eq by lia. auto. }
    intros [[t1 s1] j] (Ht1 & -> & Es1 & Ls1).
    assert (Lp : length pre = neg_len x) by (subst pre; unfold neg_len; destruct (x <? 0); reflexivity).
    assert (Hnp : (0 < n)%nat).
    { destruct n; [|lia]. destruct Hn as [Hn _]. change (Z.of_nat 0) with 0 in Hn.
      rewrite Z.pow_0_r, Z.div_1_r in Hn. lia. }
    eapply returns_bind; [apply (write_str_loop r (Z.abs x) t1 s1 len pre n); auto; lia|].
    intros s2 (ds & Lds & Fds & Vds & Es2 & Ls2).
    set (post := skipn (length pre + n) s2).
    assert (E2 : s2 = pre ++ map util_conv_char ds ++ post)
      by (rewrite app_assoc, <- Es2; symmetry; apply firstn_skipn).
    clearbody post.
    assert (Ei : (if nth 0 s2 0 =? 45 then 1%nat else 0%nat) = length pre).
    { rewrite E2. subst pre. destruct (Z.ltb_spec x 0); [reflexivity|].
      destruct ds as [|d ds]; [cbn in Lds; lia|]. inversion Fds; subst. cbn [map app nth length].
      destruct (conv_char_facts d ltac:(lia)) as (_ & _ & H45 & _).
      destruct (Z.eqb_spec (util_conv_char d) 45); [contradiction|reflexivity]. }
    rewrite Ei. replace (Z.to_nat l - 2)%nat with (length pre + length (map util_conv_char ds) - 1)%nat
      by (rewrite length_map; lia).
    rewrite E2, reverse_loop_ok by (rewrite length_map; lia).
    set (s3 := pre ++ rev (map util_conv_char ds) ++ post).
    assert (L3 : length s3 = length str)
      by (rewrite <- Ls1, <- Ls2, E2; subst s3; rewrite !length_app, length_rev; reflexivity).
    eapply returns_mono; [apply (put_char_ok s3 (Z.to_nat l - 1)); [lia|reflexivity]|].
    intros s4 (Es4 & Ls4 & Ek4). split; [lia|].
    exists (neg_len x + n)%nat. split; [lia|]. exists (rev ds), (skipn (S (Z.to_nat l - 1)) s4). fold pre.
    split; [|repeat split].
    + rewrite <- (firstn_skipn (S (Z.to_nat l - 1)) s4) at 1. rewrite Es4.
      replace (Z.to_nat l - 1)%nat with (length (pre ++ rev (map util_conv_char ds)))
        by (rewrite length_app, length_rev, length_map; lia).
      subst s3. rewrite app_assoc, firstn_app, Nat.sub_diag, firstn_all. cbn [firstn].
      rewrite app_nil_r, map_rev, <- !app_assoc. reflexivity.
    + apply Forall_rev, Fds.
    + rewrite deval_rev. exact Vds.
    + intros E. apply (f_equal (@length Z)) in E. rewrite length_rev in E. cbn in E. lia.
    + rewrite length_rev. lia.
Qed.

(** *** Reading *)

Lemma deval_ge r ds : 2 <= r -> Forall (fun d => 0 <= d < r) ds -> forall v, 0 <= v -> v <= deval r v ds.
Proof.
  intros Hr F. induction F as [|d ds Hd F IH]; intros v Hv; cbn [deval fold_left]; [lia|].
  specialize (IH (v * r + d) ltac:(nia)). unfold deval in IH. nia.
Qed.

(** One digit character is read as its digit. *)
Lemma read_char r d : 2 <= r <= 64 -> 0 <= d < r ->
  find_char 64 0 (if r <? 36 then RLC_UPP (util_conv_char d) else util_conv_char d) = d.
Proof.
  intros Hr Hd. destruct (conv_char_facts d ltac:(lia)) as (H1 & _ & _ & H2).
  destruct (Z.ltb_spec r 36); [rewrite H2 by lia|]; exact H1.
Qed.

Lemma nth_block (pre : list Z) ds rest k : (k < length ds)%nat ->
  nth (length pre + k) (pre ++ map util_conv_char ds ++ rest) 0 = util_conv_char (nth k ds 0).
Proof.
  intros Hk. rewrite app_nth2_plus, app_nth1 by (rewrite length_map; exact Hk).
  rewrite nth_indep with (d' := util_conv_char 0) by (rewrite length_map; exact Hk). apply map_nth.
Qed.

Lemma read_digits r str (P : bn -> Prop) : 2 <= r <= 64 -> forall ds pre rest n a v,
  str = pre ++ map util_conv_char ds ++ rest -> Forall (fun d => 0 <= d < r) ds ->
  repr a v -> 0 <= v -> deval r v ds < Bp (RLC_BN_SIZE - 1) ->
  (forall a', repr a' (deval r v ds) -> returns (read_str_loop n (length pre + length ds) str r a') P) ->
  returns (read_str_loop (length ds + n) (length pre) str r a) P.
Proof.
  intros Hr. induction ds as [|d ds IH]; intros pre rest n a v Es F Ha Hv Hlt Hend.
  - cbn [length Nat.add deval fold_left] in *. rewrite Nat.add_0_r in Hend. apply Hend, Ha.
  - apply Forall_cons_iff in F as [Hd Fds]. cbn [length Nat.add read_str_loop].
    assert (Ech : char_at str (length pre) = Ok (util_conv_char d)).
    { unfold char_at. rewrite Es. rewrite !length_app, length_map. cbn [length].
      destruct (Nat.ltb_spec (length pre) (length pre + (S (length ds) + length rest))); [|lia].
      pose proof (nth_block pre (d :: ds) rest 0 ltac:(cbn; lia)) as E. rewrite Nat.add_0_r in E.
      rewrite E. reflexivity. }
    rewrite Ech. cbn [bind]. destruct (conv_char_facts d ltac:(lia)) as (_ & H0 & _ & _).
    destruct (Z.eqb_spec (util_conv_char d) 0); [contradiction|]. rewrite read_char by assumption.
    destruct (Z.ltb_spec d r); [|lia].
    change (deval r v (d :: ds)) with (deval r (v * r + d) ds) in *.
    pose proof (deval_ge r ds ltac:(lia) Fds (v * r + d) ltac:(nia)) as Hge.
    pose proof BN_SIZE_pos. assert (HB64 : 64 < B) by reflexivity.
    assert (Hu : (used a <= RLC_BN_SIZE - 1)%nat) by (apply (used_below a v); auto; [nia|lia]).
    eapply returns_bind; [apply (bn_mul_dig_ok a a v r); eauto with bn; [unfold dig; lia|lia]|].
    intros a1 [Ha1 _]. pose proof (Bp_le (RLC_BN_SIZE - 1) RLC_BN_SIZE ltac:(lia)).
    eapply returns_bind; [apply (bn_add_dig_ok a1 a1 (v * r) d); eauto with bn;
      [unfold dig; lia|unfold fits; nia]|].
    intros a2 [Ha2 _].
    specialize (IH (pre ++ [util_conv_char d]) rest n a2 (v * r + d)).
    rewrite length_app in IH. cbn [length] in IH. rewrite Nat.add_1_r in IH.
    apply IH; auto; [rewrite Es, <- app_assoc; reflexivity|nia|].
    intros a' Ha'. replace (S (length pre) + length ds)%nat with (length pre + length (d :: ds))%nat
      by (cbn; lia). exact (Hend a' Ha').
Qed.

Lemma bn_read_str_ok c r x n s len : buf c -> 2 <= r <= 64 -> text r x n s ->
  Z.abs x < Bp (RLC_BN_SIZE - 1) -> (n <= len)%nat ->
  RLC_CEIL (Z.of_nat len * util_bits_dig r) RLC_DIG <= Z.of_nat RLC_BN_SIZE ->
  returns (bn_read_str c s len r) (fun a => repr a x).
Proof.
  intros Hc Hr (ds & rest & Es & F & V & Hne & Hn) Hx Hlen Hgrow. unfold bn_read_str.
  eapply returns_bind; [apply bn_zero_ok, Hc|]. intros a [Ha _].
  destruct (Z.ltb_spec r 2), (Z.ltb_spec 64 r); try lia. cbn [orb].
  set (pre := if x <? 0 then [45] else []) in *.
  assert (Lp : length pre = neg_len x) by (subst pre; unfold neg_len; destruct (x <? 0); reflexivity).
  assert (Hls : (0 < length s)%nat) by (rewrite Es, !length_app; cbn; lia).
  unfold char_at at 1. destruct (Nat.ltb_spec 0 (length s)); [|lia]. cbn [bind].
  assert (Ej : (if nth 0 s 0 =? 45 then (1%nat, RLC_NEG) else (0%nat, RLC_POS)) =
               (length pre, if x <? 0 then RLC_NEG else RLC_POS)).
  { rewrite Es. subst pre. destruct (Z.ltb_spec x 0); [reflexivity|].
    destruct ds as [|d ds]; [contradiction|]. inversion F; subst. cbn [map app nth length].
    destruct (conv_char_facts d ltac:(lia)) as (_ & _ & H45 & _).
    destruct (Z.eqb_spec (util_conv_char d) 45); [contradiction|reflexivity]. }
  rewrite Ej. grow.
  apply returns_bind with (P := fun a' => repr a' (Z.abs x)).
  - replace (len - length pre)%nat with (length ds + (len - n))%nat by lia.
    apply (read_digits r s _ Hr ds pre (0 :: rest) _ a 0); auto; try lia.
    rewrite V. intros a' Ha'. destruct (len - n)%nat as [|n']; [exact Ha'|]. cbn [read_str_loop].
    unfold char_at. rewrite Es, !length_app, length_map. cbn [length].
    destruct (Nat.ltb_spec (length pre + length ds) (length pre + (length ds + S (length rest)))); [|lia].
    cbn [bind]. rewrite app_nth2_plus, app_nth2 by (rewrite length_map; lia).
    rewrite length_map, Nat.sub_diag. cbn [nth Z.eqb returns]. exact Ha'.
  - intros a' [Hw Hv]. cbn [returns]. split; [exact Hw|]. unfold ival. cbn [set_sign sign].
    rewrite mag_set_sign, <- ival_abs, Hv by exact Hw. destruct (Z.ltb_spec x 0); cbn [sgn]; lia.
Qed.
End StrOk.
