(* ===== verification/BnMod.v ===== *)
(** * Modular reduction (bn/relic_bn_mod.c)

    Reduction modulo a power of two, by division, by Montgomery's method (both
    the basic and the Comba variant), for pseudo-Mersenne moduli and by
    Barrett's method. *)

From Stdlib Require Import ZArith List Lia Bool.
From S2P Require Import Prelude Dv BnLow Bn BnOk BnMul BnMulOk.
Import ListNotations.
Local Open Scope Z_scope.

Section Mod.
Context {L : BnLow}.

Definition bn_mod_2b (c a : bn) (b : Z) : result bn :=
  if b <=? 0 then bn_zero c
  else if Z.of_nat (used a) * RLC_DIG <=? b then bn_copy c a
  else
    let! c := bn_copy c a in
    let d := Z.to_nat (RLC_RIP_d b) in
    let b := RLC_RIP_b b in
    let first := (d + (if (b =? 0)%Z then 0 else 1))%nat in
    let! c := store c first (repeat 0 (used c - first)) in
    let! c := store c d [Z.land (nth d (dp c) 0) (RLC_MASK b)] in
    Ok (bn_trim c).

Definition bn_mod_dig (a : bn) (b : Z) : result Z :=
  let! r := bn_div_rem_dig None a b in Ok (snd r).

Definition bn_mod_basic (c a m : bn) : result bn :=
  let! r := bn_div_rem None (Some c) a m in
  match snd r with Some r => Ok r | None => Undef end.

(** bn_mod with three arguments. *)
Definition bn_mod (c a m : bn) : result bn := bn_mod_basic c a m.

(** ** Montgomery reduction *)

Definition bn_mod_pre_monty (u m : bn) : result bn :=
  let b := nth 0 (dp m) 0 in
  if Z.land b 1 =? 0 then Throw ERR_NO_VALID
  else
    let x := dadd (dshl (Z.land (dadd b 2) 4) 1) b in
    let x := dmul x (dsub 2 (dmul b x)) in
    let x := dmul x (dsub 2 (dmul b x)) in
    let x := dmul x (dsub 2 (dmul b x)) in
    let x := dmul x (dsub 2 (dmul b x)) in
    bn_set_dig u (dneg x).

(** while (bn_sign(c) == RLC_NEG) bn_add(c, c, m); takes [|a| / m + 1] rounds at
    most, the bound [fuel] is the caller's. *)
Definition monty_conv_step (m c : bn) : result (bn + bn) :=
  if sign_eqb (bn_sign c) RLC_NEG then let! c := bn_add c c m in Ok (inl c)
  else Ok (inr c).

Definition bn_mod_monty_conv (fuel : nat) (c a m : bn) : result bn :=
  let! c := bn_copy c a in
  let! c := loop fuel (monty_conv_step m) c in
  let! c := bn_lsh c c (Z.of_nat (used m) * RLC_DIG) in
  bn_mod c c m.

(** for (i = 0; i < m->used; i++, tmp++) { r = *tmp * u0; *tmp = bn_mula_low(...); } *)
Definition monty_basic_row (m : bn) (u0 : Z) (i : nat) (t : bn) : result bn :=
  let r := dmul (nth i (dp t) 0) u0 in
  let '(d, carry) := low_mula (view t i (used m)) (view m 0 (used m)) r in
  let! t := store t i d in
  store t i [carry].

Definition bn_mod_monty_basic (c a m u : bn) : result bn :=
  let digits := (2 * used m)%nat in
  let! t := bn_make digits in
  let! t := bn_zero t in
  let! t := bn_copy t a in
  let u0 := nth 0 (dp u) 0 in
  let! t := for_up (used m) 0 (monty_basic_row m u0) t in
  let '(d, carry) := low_addn (view t 0 (used m)) (view t (used m) (used m)) in
  let! t := store t 0 d in
  let! t :=
    if carry =? 0 then Ok t
    else store t 0 (fst (low_subn (view t 0 (used m)) (view m 0 (used m)))) in
  let t := bn_trim (set_used t (used m)) in
  let! t := if cmp_eqb (bn_cmp_abs t m) RLC_LT then Ok t else bn_sub t t m in
  bn_copy c t.

Definition bn_mod_monty_comba (c a m u : bn) : result bn :=
  let digits := (2 * used m)%nat in
  let! t := bn_make digits in
  let! t := bn_zero t in
  let! t := store t 0 (low_modn (view a 0 (used a)) (view m 0 (used m)) (nth 0 (dp u) 0)) in
  let t := bn_trim (set_used t (used m)) in
  let! t := if cmp_eqb (bn_cmp_abs t m) RLC_LT then Ok t else bn_sub t t m in
  bn_copy c t.

(** BN_METHD selects the Comba variant. *)
Definition bn_mod_monty (c a m u : bn) : result bn := bn_mod_monty_comba c a m u.

Definition bn_mod_monty_back (c a m : bn) : result bn :=
  let! u := bn_mod_pre_monty bn_new m in
  bn_mod_monty c a m u.

(** ** Pseudo-Mersenne reduction *)

Definition bn_mod_pre_pmers (u m : bn) : result bn :=
  let bits := bn_bits m in
  let! u := bn_set_2b u bits in
  bn_sub u u m.

(** while (!bn_is_zero(q)) ... on the state [(q, t, r)] *)
Definition pmers_step (u : bn) (bits : Z) (s : bn * bn * bn) : result ((bn * bn * bn) + bn) :=
  let '(q, t, r) := s in
  if bn_is_zero q then Ok (inr r)
  else
    let! t := if (used u =? 1)%nat then bn_mul_dig t q (nth 0 (dp u) 0) else bn_mul t q u in
    let! q := bn_rsh q t bits in
    let! t := bn_mod_2b t t bits in
    let! r := bn_add r r t in
    Ok (inl (q, t, r)).

(** while (bn_cmp_abs(r, m) != RLC_LT) bn_sub(r, r, m); *)
Definition final_sub_step (m r : bn) : result (bn + bn) :=
  if cmp_eqb (bn_cmp_abs r m) RLC_LT then Ok (inr r)
  else let! r := bn_sub r r m in Ok (inl r).

(** The quotient loses a bit per round, and each round adds less than [2 m] to [r]. *)
Definition pmers_fuel : nat := S (S (64 * RLC_BN_SIZE)).
Definition pmers_sub_fuel : nat := 2 * pmers_fuel + 2.

Definition bn_mod_pmers (c a m u : bn) : result bn :=
  let! t := bn_copy bn_new a in
  let bits := bn_bits m in
  let! q := bn_rsh bn_new t bits in
  let! r := bn_mod_2b bn_new t bits in
  let! r := loop pmers_fuel (pmers_step u bits) (q, t, r) in
  let! r := loop pmers_sub_fuel (final_sub_step m) r in
  bn_copy c r.

(** ** Barrett reduction *)

Definition bn_mod_pre_barrt (u m : bn) : result bn :=
  let! u := bn_set_2b u (Z.of_nat (used m) * 2 * RLC_DIG) in
  bn_div u u m.

(** The digits [l .. h-1] of the product stored in [t]; a negative [l] is an access
    before the buffer. *)
Definition barrt_product (t x y : bn) (l : Z) (h : nat) : result bn :=
  if l <? 0 then Undef
  else store t (Z.to_nat l) (low_muld (view x 0 (used x)) (view y 0 (used y)) (Z.to_nat l) h).

Definition barrt_fuel : nat := RLC_BN_SIZE + 4.

(** while (bn_cmp(t, m) != RLC_LT) bn_sub(t, t, m); *)
Definition barrt_sub_step (m t : bn) : result (bn + bn) :=
  if cmp_eqb (bn_cmp t m) RLC_LT then Ok (inr t)
  else let! t := bn_sub t t m in Ok (inl t).

Definition bn_mod_barrt (c a m u : bn) : result bn :=
  if cmp_eqb (bn_cmp a m) RLC_LT then bn_copy c a
  else
    let! t := bn_zero bn_new in
    let mu := used m in
    let! q := bn_rsh bn_new a ((Z.of_nat mu - 1) * RLC_DIG) in
    let! t :=
      if 2 ^ (RLC_DIG - 1) <? Z.of_nat mu then bn_mul t q u
      else
        let! t :=
          if (used u <? used q)%nat then barrt_product t q u (Z.of_nat mu) (used q + used u)
          else barrt_product t u q (Z.of_nat mu - (Z.of_nat (used u) - Z.of_nat (used q)))
                 (used q + used u) in
        Ok (bn_trim (set_used t (used q + used u))) in
    let! q := bn_rsh q t ((Z.of_nat mu + 1) * RLC_DIG) in
    let! t :=
      if (used m <? used q)%nat then barrt_product t q m 0 (used q + 1)
      else barrt_product t m q 0 (mu + 1) in
    let t := bn_trim (set_used t (mu + 1)) in
    let! q := bn_mod_2b q t (RLC_DIG * (Z.of_nat mu + 1)) in
    let! t := bn_mod_2b t a (RLC_DIG * (Z.of_nat mu + 1)) in
    let! t := bn_sub t t q in
    let! t :=
      if sign_eqb (bn_sign t) RLC_NEG then
        let! q := bn_set_dig q 1 in
        let! q := bn_lsh q q ((Z.of_nat mu + 1) * RLC_DIG) in
        bn_add t t q
      else Ok t in
    let! t := loop barrt_fuel (barrt_sub_step m) t in
    bn_copy c t.

End Mod.
