(* ===== verification/BnModOk.v ===== *)
(** * Correctness of modular reduction *)

From Stdlib Require Import ZArith List Lia Bool Znumtheory.
From S2P Require Import Prelude Dv BnLow Bn BnOk BnMul BnMulOk BnMod.
Import ListNotations.
Local Open Scope Z_scope.

(** ** Powers of two *)

Lemma dshl_1 b : 0 <= b < 64 -> dshl 1 b = 2 ^ b.
Proof.
  intros Hb. unfold dshl. rewrite Z.shiftl_1_l. apply Z.mod_small.
  split; [apply Z.pow_nonneg; lia|]. rewrite B_pow2. apply Z.pow_lt_mono_r; lia.
Qed.

Lemma bn_set_2b_ok c b : buf c -> 0 <= b < 64 * Z.of_nat RLC_BN_SIZE ->
  returns (bn_set_2b c b) (fun r => repr r (2 ^ b) /\ sign r = RLC_POS).
Proof.
  intros Hc Hb. unfold bn_set_2b. destruct (Z.ltb_spec b 0); [lia|].
  destruct (RLC_RIP_spec b ltac:(lia)) as (E & Hd & Hr).
  set (dz := RLC_RIP_d b) in *. set (r := RLC_RIP_b b) in *. clearbody dz r.
  set (d := Z.to_nat dz) in *. assert (Ed : dz = Z.of_nat d) by lia. clearbody d. subst dz.
  grow. eapply returns_bind; [apply (store_front c (repeat 0 d)); auto with digits;
    rewrite repeat_length; lia|]. intros c1 (Hh & _ & _).
  assert (Hdig : 0 < dshl 1 r < B).
  { rewrite dshl_1 by lia. split; [apply Z.pow_pos_nonneg; lia|]. rewrite B_pow2. apply Z.pow_lt_mono_r; lia. }
  eapply returns_bind; [apply (store_ok c1 d (repeat 0 d) [dshl 1 r]); rewrite ?repeat_length; cbn [length]; auto;
    [apply digs_cons; [unfold dig; lia|constructor]|lia]|].
  intros c2 (Hh2 & _ & _). cbn [returns]. split; [|reflexivity].
  set (l := repeat 0 d ++ [dshl 1 r]) in *.
  assert (Ll : length l = (d + 1)%nat) by (subst l; rewrite length_app, repeat_length; reflexivity).
  assert (Vl : val l = 2 ^ b).
  { subst l. rewrite val_app, val_repeat0, repeat_length, E, Z.pow_add_r, <- Bp_pow2 by lia.
    cbn [val]. rewrite dshl_1 by lia. lia. }
  rewrite <- Ll, <- Vl, <- (Z.mul_1_l (val l)).
  apply (repr_untrimmed c2 l RLC_POS); auto; [lia|]. right. rewrite Vl, Ll, E, Z.pow_add_r, <- Bp_pow2 by lia.
  replace (d + 1 - 1)%nat with d by lia. pose proof (Bp_pos d).
  assert (0 < 2 ^ r) by (apply Z.pow_pos_nonneg; lia). nia.
Qed.

Lemma val_skipn_zeros k n : val (skipn k (repeat 0 n)) = 0.
Proof.
  revert k; induction n as [|n IH]; intros [|k]; cbn [repeat skipn val]; try reflexivity; [|apply IH].
  rewrite val_repeat0. reflexivity.
Qed.

(** Digits are taken modulo [B]: no effect on the low bits. *)
Lemma mod_B_pow2 w k : 0 <= k <= 64 -> (w mod B) mod 2 ^ k = w mod 2 ^ k.
Proof.
  intros Hk. apply Z.mod_mod_divide.
  exists (2 ^ (64 - k)). rewrite (B_div k) by lia. ring.
Qed.

(** Digits above bit [b = 64 d + r] cleared, and digit [d] masked. *)
Lemma masked_prefix ds d r b : digs ds -> (d < length ds)%nat -> 0 <= r < 64 ->
  b = 64 * Z.of_nat d + r ->
  let first := (d + (if (r =? 0)%Z then 0 else 1))%nat in
  let l2 := firstn first ds ++ repeat 0 (length ds - first) in
  val (blit l2 d [nth d l2 0 mod 2 ^ r]) = val ds mod 2 ^ b.
Proof.
  intros Dd Hd Hr -> first l2. assert (HP : 0 < 2 ^ r) by (apply Z.pow_pos_nonneg; lia).
  assert (Hf : (d <= first <= S d)%nat) by (subst first; destruct (r =? 0); lia).
  assert (E1 : firstn d l2 = firstn d ds).
  { subst l2. rewrite firstn_app, firstn_firstn, length_firstn, Nat.min_l by lia.
    replace (d - Nat.min first (length ds))%nat with 0%nat by lia. cbn [firstn]. apply app_nil_r. }
  assert (E2 : val (skipn (d + 1) l2) = 0).
  { subst l2. rewrite skipn_app, skipn_all2 by (rewrite length_firstn; lia). apply val_skipn_zeros. }
  assert (E3 : nth d l2 0 mod 2 ^ r = nth d ds 0 mod 2 ^ r).
  { subst l2 first. destruct (Z.eqb_spec r 0) as [->|Hr0]; [rewrite !Z.mod_1_r; reflexivity|].
    rewrite app_nth1, nth_firstn by (rewrite length_firstn; lia).
    destruct (Nat.ltb_spec d (d + 1)); [reflexivity|lia]. }
  unfold blit. cbn [length]. rewrite E1, E3, !val_app, E2. cbn [val app length].
  rewrite length_firstn, Nat.min_l, val_firstn, nth_div by (auto; lia).
  rewrite Z.pow_add_r, <- Bp_pow2, Z.rem_mul_r by (try lia; pose proof (Bp_pos d); lia).
  rewrite mod_B_pow2 by lia. ring.
Qed.

(** The magnitude is reduced and the sign is kept. *)
Lemma bn_mod_2b_ok c a x b : buf c -> repr a x -> 0 <= b ->
  returns (bn_mod_2b c a b) (fun r => repr r (Z.rem x (2 ^ b)) /\ (canonical a -> canonical r)).
Proof.
  intros Hc [Ha <-] Hb. unfold bn_mod_2b. pose proof Ha as (Hba & Hua & _). pose proof (mag_bound a Ha) as Hm.
  assert (Hrem : Z.rem (ival a) (2 ^ b) = sgn (sign a) * (mag a mod 2 ^ b)).
  { assert (0 < 2 ^ b) by (apply Z.pow_pos_nonneg; lia). unfold ival.
    destruct (sign a); cbn [sgn]; [rewrite !Z.mul_1_l; apply Z.rem_mod_nonneg; lia|].
    replace (-1 * mag a) with (- mag a) by lia. rewrite Z.rem_opp_l, Z.rem_mod_nonneg by lia. lia. }
  destruct (Z.leb_spec b 0) as [H0|H0].
  { replace b with 0 by lia. change (2 ^ 0) with 1. rewrite Z.rem_1_r.
    eapply returns_mono; [apply bn_zero_ok, Hc|]. tauto. }
  destruct (Z.leb_spec (Z.of_nat (used a) * RLC_DIG) b) as [Hge|Hlt].
  { rewrite Hrem, Z.mod_small.
    - eapply returns_mono; [apply (bn_copy_ok c a (ival a)); [exact Hc|apply wf_is, Ha]|].
      intros r [Hr Hs]. split; [exact Hr|]. unfold canonical. rewrite Hs, (proj2 Hr). auto.
    - split; [lia|]. apply Z.lt_le_trans with (1 := proj2 Hm). rewrite Bp_pow2.
      apply Z.pow_le_mono_r; unfold RLC_DIG in Hge; lia. }
  apply copy_then; auto. intros c1 Hh1 Hw1 Hu1 Hs1.
  destruct (RLC_RIP_spec b Hb) as (E & Hd & Hr).
  set (dz := RLC_RIP_d b) in *. set (r := RLC_RIP_b b) in *. clearbody dz r.
  set (d := Z.to_nat dz) in *. assert (Ed : dz = Z.of_nat d) by lia. clearbody d. subst dz.
  destruct (digs_of_facts a Ha) as [Da La]. unfold RLC_DIG in Hlt. rewrite Hu1.
  set (first := (d + (if (r =? 0)%Z then 0 else 1))%nat).
  assert (Hf : (d <= first <= S d)%nat) by (subst first; destruct (r =? 0); lia).
  assert (Hfu : (first <= used a)%nat) by (subst first; destruct (Z.eqb_spec r 0); lia).
  set (keep := firstn first (digs_of a)).
  assert (Lk : length keep = first) by (subst keep; rewrite length_firstn; lia).
  assert (Hk1 : has c1 keep) by (apply has_firstn, Hh1).
  eapply returns_bind; [apply (store_ok c1 first keep (repeat 0 (used a - first)));
    rewrite ?repeat_length; auto with digits; lia|]. intros c2 (Hh2 & Hu2 & Hs2).
  set (l2 := keep ++ repeat 0 (used a - first)) in *.
  assert (L2 : length l2 = used a) by (subst l2; rewrite length_app, repeat_length; lia).
  assert (D2 : digs l2) by (subst l2 keep; auto with digits).
  assert (En : nth d (dp c2) 0 = nth d l2 0).
  { destruct Hh2 as [_ Hh2]. rewrite <- Hh2 at 1. rewrite nth_firstn.
    destruct (Nat.ltb_spec d (length l2)); [reflexivity|lia]. }
  rewrite En, land_MASK by lia. set (v := nth d l2 0 mod 2 ^ r).
  assert (HP : 0 < 2 ^ r) by (apply Z.pow_pos_nonneg; lia).
  assert (Dv : dig v).
  { pose proof (digs_nth l2 d D2) as D. unfold dig in *. subst v.
    pose proof (Z.mod_pos_bound (nth d l2 0) (2 ^ r) ltac:(lia)).
    pose proof (Z.mod_le (nth d l2 0) (2 ^ r) ltac:(lia) ltac:(lia)). lia. }
  eapply returns_bind; [apply (store_in c2 d l2 [v]); auto with digits; cbn [length]; lia|].
  intros c3 (Hh3 & Hu3 & Hs3). cbn [returns].
  assert (V : val (blit l2 d [v]) = mag a mod 2 ^ b).
  { pose proof (masked_prefix (digs_of a) d r b Da ltac:(lia) Hr E) as X. cbv zeta in X.
    rewrite La in X. exact X. }
  rewrite Hrem, <- V.
  destruct (repr_trim c3 (blit l2 d [v]) (sign a)) as [H1 H2]; auto;
    try (rewrite length_blit by (cbn; lia); lia); try congruence.
Qed.

Section ModOk.
Context {L : BnLow} {LO : BnLowOk L}.

(** ** Reduction by division *)

Lemma bn_mod_dig_ok a x d : repr a x -> 0 < d < B -> bn_mod_dig a d = Ok (Z.abs x mod d).
Proof.
  intros Ha Hd. pose proof (bn_div_rem_dig_ok None a x d I Ha Hd) as H.
  unfold bn_mod_dig. destruct (bn_div_rem_dig None a d) as [[q r]| | |]; cbn in *; try contradiction.
  f_equal. apply H.
Qed.

Lemma bn_mod_basic_ok c a m x y : buf c -> repr a x -> repr m y -> y <> 0 ->
  (Z.abs y <= Z.abs x -> (used a < RLC_BN_SIZE)%nat) -> (x <> 0 \/ sign a = sign m) ->
  returns (bn_mod_basic c a m) (fun r => repr r (x mod y) /\ (canonical a -> canonical r)).
Proof.
  intros Hc Ha Hm Hy Hsz Hz. unfold bn_mod_basic, bn_div_rem. rewrite (bn_is_zero_ok m y Hm).
  destruct (Z.eqb_spec y 0); [contradiction|].
  eapply returns_bind; [apply (bn_div_imp_ok None (Some c) a m x y); cbn; auto|].
  intros [q [r|]] [_ Hr]; cbn in *; [exact Hr|contradiction].
Qed.

(** The common case: a canonical dividend and a positive modulus. *)
Lemma bn_mod_pos c a m x y : buf c -> repr a x -> canonical a -> repr m y -> 0 < y ->
  (used a < RLC_BN_SIZE)%nat ->
  returns (bn_mod c a m) (fun r => repr r (x mod y) /\ canonical r).
Proof.
  intros Hc Ha Hca Hm Hy Hsz.
  assert (Hsm : sign m = RLC_POS).
  { destruct Hm as [Hw Hv]. pose proof (mag_bound m Hw). unfold ival in Hv.
    destruct (sign m); [reflexivity|cbn [sgn] in Hv; lia]. }
  eapply returns_mono; [apply (bn_mod_basic_ok c a m x y); auto; try lia|].
  - destruct (Z.eq_dec x 0) as [E|]; [right|left; assumption]. rewrite Hsm. apply Hca. rewrite (proj2 Ha). exact E.
  - intros r [Hr Hcr]. auto.
Qed.

(** ** Montgomery reduction *)

(** Newton's iteration doubles the number of correct bits of the inverse. *)
Lemma newton_step b x k : 0 < k <= 32 -> (b * x - 1) mod 2 ^ k = 0 ->
  (b * dmul x (dsub 2 (dmul b x)) - 1) mod 2 ^ (2 * k) = 0.
Proof.
  intros Hk H. assert (HP : 0 < 2 ^ k) by (apply Z.pow_pos_nonneg; lia).
  assert (HP2 : 0 < 2 ^ (2 * k)) by (apply Z.pow_pos_nonneg; lia).
  apply Z.mod_divide in H as [z Hz]; [|lia].
  assert (Hdiv : forall w, (w mod B) mod 2 ^ (2 * k) = w mod 2 ^ (2 * k))
    by (intros; apply mod_B_pow2; lia).
  assert (E : (b * dmul x (dsub 2 (dmul b x))) mod 2 ^ (2 * k) = (b * (x * (2 - b * x))) mod 2 ^ (2 * k)).
  { unfold dmul, dsub. rewrite (Z.mul_mod b), Hdiv, <- Z.mul_mod by lia.
    rewrite !Z.mul_assoc, (Z.mul_mod (b * x)), Hdiv, <- Z.mul_mod by lia.
    rewrite (Z.mul_mod (b * x)), Zminus_mod, Hdiv, <- Zminus_mod, <- Z.mul_mod by lia.
    reflexivity. }
  rewrite Zminus_mod, E, <- Zminus_mod.
  replace (b * (x * (2 - b * x)) - 1) with (- (b * x - 1) * (b * x - 1)) by ring.
  rewrite Hz. replace (2 * k) with (k + k) by lia. rewrite Z.pow_add_r by lia.
  replace (- (z * 2 ^ k) * (z * 2 ^ k)) with ((- z * z) * (2 ^ k * 2 ^ k)) by ring.
  apply Z_mod_mult.
Qed.

(** The first approximation is correct modulo 16. *)
Lemma newton_start b : dig b -> Z.odd b = true ->
  (b * dadd (dshl (Z.land (dadd b 2) 4) 1) b - 1) mod 2 ^ 4 = 0.
Proof.
  intros Hb Ho.
  assert (H16 : forall w, (w mod B) mod 16 = w mod 16) by (intros; apply (mod_B_pow2 w 4); lia).
  assert (H8 : forall w, Z.land w 4 = Z.land (w mod 16) 4).
  { intros w. change 16 with (2 ^ 4). rewrite <- Z.land_ones, <- Z.land_assoc by lia. reflexivity. }
  change (2 ^ 4) with 16. unfold dadd, dshl.
  rewrite Zminus_mod, Z.mul_mod, H16, Zplus_mod, H16, Z.shiftl_mul_pow2 by lia.
  rewrite H8, H16, (Zplus_mod b 2).
  assert (Hm : Z.odd (b mod 16) = true).
  { rewrite <- Ho. rewrite (Z.div_mod b 16) at 2 by lia.
    rewrite Z.odd_add, Z.odd_mul. cbn [Z.odd andb xorb]. destruct (Z.odd (b mod 16)); reflexivity. }
  pose proof (Z.mod_pos_bound b 16 ltac:(lia)) as Hr. set (m := b mod 16) in *. clearbody m.
  assert (m = 0 \/ m = 1 \/ m = 2 \/ m = 3 \/ m = 4 \/ m = 5 \/ m = 6 \/ m = 7 \/ m = 8 \/ m = 9 \/
          m = 10 \/ m = 11 \/ m = 12 \/ m = 13 \/ m = 14 \/ m = 15) as Hc by lia.
  repeat destruct Hc as [-> | Hc]; try subst m; first [discriminate Hm | reflexivity].
Qed.

Lemma bn_mod_pre_monty_ok c m y : buf c -> repr m y -> Z.odd y = true ->
  returns (bn_mod_pre_monty c m) (fun u => exists u0, repr u u0 /\ dig u0 /\ nth 0 (dp u) 0 = u0 /\
    (nth 0 (dp m) 0 * u0) mod B = B - 1).
Proof.
  intros Hc Hm Ho. pose proof Hm as [Hw Hv]. unfold bn_mod_pre_monty.
  set (b := nth 0 (dp m) 0).
  assert (Hb : dig b) by (apply digs_nth, Hw).
  assert (Hob : Z.odd b = true).
  { pose proof (bn_is_even_ok m y Hm) as He. rewrite <- Z.negb_odd, Ho in He. unfold bn_is_even in He.
    apply orb_false_iff in He as [_ He]. fold b in He. apply Z.eqb_neq in He.
    change (Z.land b (Z.ones 1) <> 0) in He. rewrite Z.land_ones in He by lia. change (2 ^ 1) with 2 in He.
    rewrite <- Z.bit0_mod, Z.bit0_odd in He.
    destruct (Z.odd b); [reflexivity|contradiction]. }
  assert (Hland : (Z.land b 1 =? 0) = false).
  { change ((Z.land b (Z.ones 1) =? 0) = false). rewrite Z.land_ones by lia. change (2 ^ 1) with 2.
    rewrite <- Z.bit0_mod, Z.bit0_odd, Hob. reflexivity. }
  rewrite Hland.
  set (x0 := dadd _ b). pose proof (newton_start b Hb Hob) as H0. fold x0 in H0.
  set (x1 := dmul x0 _). pose proof (newton_step b x0 4 ltac:(lia) H0) as H1. fold x1 in H1.
  set (x2 := dmul x1 _). pose proof (newton_step b x1 8 ltac:(lia) H1) as H2. fold x2 in H2.
  set (x3 := dmul x2 _). pose proof (newton_step b x2 16 ltac:(lia) H2) as H3. fold x3 in H3.
  set (x4 := dmul x3 _). pose proof (newton_step b x3 32 ltac:(lia) H3) as H4. fold x4 in H4.
  change (2 ^ (2 * 32)) with B in H4. clearbody x4. pose proof B_gt as HB.
  assert (Dn : dig (dneg x4)) by apply dig_mod.
  eapply returns_mono; [apply (bn_set_dig_ok c (dneg x4)); auto|].
  intros u [Hu _]. exists (dneg x4). split; [exact Hu|]. split; [exact Dn|]. split.
  - pose proof Hu as [Hwu Hvu]. rewrite nth0_mag, <- ival_abs, Hvu by exact Hwu.
    unfold dig in Dn. rewrite Z.abs_eq, Z.mod_small by lia. reflexivity.
  - unfold dneg. rewrite Zmult_mod_idemp_r. apply Z.mod_divide in H4 as [z Hz]; [|lia].
    symmetry. apply Z.mod_unique with (- z - 1); [lia|]. lia.
Qed.

(** What a Montgomery reduction of [x] modulo [y] ([n] digits) returns. *)
Definition monty_post (x y : Z) (n : nat) (r : bn) : Prop := exists v,
  repr r v /\ canonical r /\ 0 <= v < y /\ (v * Bp n) mod y = x mod y.

(** The final subtraction. *)
Lemma monty_final c t m v y : buf c -> repr t v -> canonical t -> repr m y -> 0 <= v < 2 * y ->
  returns (let! t := if cmp_eqb (bn_cmp_abs t m) RLC_LT then Ok t else bn_sub t t m in bn_copy c t)
    (fun r => repr r (v mod y) /\ canonical r).
Proof.
  intros Hc Ht Hct Hm Hv. pose proof Ht as [Hwt Evt]. pose proof Hm as [Hwm Evm].
  rewrite bn_cmp_abs_ok, cmpZ_lt by assumption.
  rewrite <- (ival_abs t Hwt), <- (ival_abs m Hwm), Evt, Evm, !Z.abs_eq by lia.
  destruct (Z.ltb_spec v y).
  - cbn [bind]. rewrite Z.mod_small by lia.
    eapply returns_mono; [apply (copy_can c t v); auto|]. intros r [? ?]; auto.
  - assert (Ev : v mod y = v - y) by (symmetry; apply (Z.mod_unique _ _ 1); lia). rewrite Ev.
    assert (Hst : sign t = RLC_POS).
    { destruct (Z.eq_dec v 0) as [E0|]; [apply Hct; lia|]. unfold ival in Evt. pose proof (mag_bound t Hwt).
      destruct (sign t); [reflexivity|cbn [sgn] in Evt; lia]. }
    assert (Hsm : sign m = RLC_POS).
    { pose proof (mag_bound m Hwm). unfold ival in Evm. destruct (sign m); [reflexivity|cbn [sgn] in Evm; lia]. }
    assert (Hsub : returns (bn_sub t t m) (fun r => repr r (v - y) /\ sign r = RLC_POS)).
    { pose proof (repr_fits t v Ht). pose proof (repr_fits m y Hm).
      eapply returns_mono; [apply returns_conj; [apply (bn_sub_ok t t m v y); eauto with bn; unfold fits in *; lia|]|
        intros r Hr; exact Hr].
      unfold bn_sub. rewrite Hst, Hsm. cbn [sign_eqb negb].
      rewrite bn_cmp_abs_ok, cmpZ_lt by assumption.
      rewrite <- (ival_abs t Hwt), <- (ival_abs m Hwm), Evt, Evm, !Z.abs_eq by lia.
      destruct (Z.ltb_spec v y); [lia|]. cbn [negb].
      eapply returns_bind; [apply (bn_sub_imp_ok t t m); eauto with bn|].
      + rewrite <- (ival_abs t Hwt), <- (ival_abs m Hwm), Evt, Evm, !Z.abs_eq by lia. lia.
      + intros r _. reflexivity. }
    eapply returns_bind; [exact Hsub|]. intros r [Hr Hs].
    eapply returns_mono; [apply (copy_can c r (v - y)); auto|]. intros r' [? Hk]. split; [assumption|].
    apply Hk. intros _. exact Hs.
Qed.

Lemma repr_digs a x : repr a x -> 0 <= x -> val (digs_of a) = x.
Proof. intros [Hw Hv] Hx. fold (mag a). rewrite <- ival_abs, Hv by exact Hw. lia. Qed.

(** From a value congruent to the result and below twice the modulus. *)
Lemma monty_finish c t m l y x n : buf c -> has t l -> length l = used m -> sign t = RLC_POS ->
  repr m y -> (val l * Bp n) mod y = x mod y -> 0 <= val l < 2 * y ->
  returns (let t := bn_trim (set_used t (used m)) in
    let! t := if cmp_eqb (bn_cmp_abs t m) RLC_LT then Ok t else bn_sub t t m in bn_copy c t)
    (monty_post x y n).
Proof.
  intros Hc Hh Hl Hs Hm H1 H2. pose proof Hm as ((_ & Hum & _) & _).
  destruct (repr_trim (set_used t (used m)) l RLC_POS Hh) as [Rt Kt]; auto; try lia.
  cbn [sgn] in Rt. rewrite Z.mul_1_l in Rt. cbv zeta.
  eapply returns_mono; [apply (monty_final c _ m (val l) y); eauto|].
  intros r [Rr Kr]. exists (val l mod y). split; [exact Rr|]. split; [exact Kr|].
  split; [apply Z.mod_pos_bound; lia|]. rewrite Zmult_mod_idemp_l. exact H1.
Qed.

Lemma bn_mod_monty_comba_ok c a m u x y : buf c -> repr a x -> 0 <= x -> repr m y -> 0 < y ->
  (2 * used m <= RLC_BN_SIZE)%nat -> (used a <= 2 * used m)%nat -> x < y * Bp (used m) ->
  dig (nth 0 (dp u) 0) -> (nth 0 (dp m) 0 * nth 0 (dp u) 0) mod B = B - 1 ->
  returns (bn_mod_monty_comba c a m u) (monty_post x y (used m)).
Proof.
  intros Hc Ha Hx Hm Hy Hsz Hua Hxy Hu Hinv. pose proof Ha as [Hwa Eva]. pose proof Hm as [Hwm Evm].
  unfold bn_mod_monty_comba. make. rewrite bn_zero_new. cbn [bind]. rewrite !digs_of_view.
  destruct (digs_of_facts a Hwa) as [Da La], (digs_of_facts m Hwm) as [Dm Lm].
  pose proof Hwm as (_ & Hum & _).
  pose proof (modn_ok (digs_of a) (digs_of m) (nth 0 (dp u) 0) Da Dm) as Hmodn.
  rewrite Lm, La, (repr_digs m y Hm), (repr_digs a x Ha) in Hmodn by lia.
  destruct Hmodn as (H1 & H2 & H3 & H4); auto; try lia.
  - apply BN_SIZE_short. lia.
  - rewrite top_nth_digs by (auto; lia). exact Hinv.
  - eapply returns_bind; [apply (store_front bn_new); auto with bn; lia|]. intros t (Hh & _ & Hs).
    eapply monty_finish; eauto.
Qed.

(** The rows of the basic variant: [l] holds the carries of the rows done and the
    digits still to reduce. *)
Definition monty_inv (M A : Z) (n i : nat) (l : list Z) : Prop :=
  length l = (2 * n)%nat /\
  exists Q, 0 <= Q < Bp i /\ Bp i * val (skipn i l) + Bp n * val (firstn i l) = A + Q * M.

(** The multiple of the modulus chosen for a digit clears it. *)
Lemma monty_digit v M m0 u0 : M mod B = m0 -> (m0 * u0) mod B = B - 1 ->
  (v + M * dmul (v mod B) u0) mod B = 0.
Proof.
  intros HM Hinv. pose proof B_gt as HB. unfold dmul.
  rewrite Z.mul_mod_idemp_l by lia.
  rewrite <- Z.add_mod_idemp_r, Z.mul_mod_idemp_r, Z.add_mod_idemp_r by lia.
  assert (H1 : (M * u0) mod B = B - 1) by (rewrite <- Z.mul_mod_idemp_l, HM by lia; exact Hinv).
  replace (v + M * (v * u0)) with (v * (1 + M * u0)) by ring.
  rewrite <- Z.mul_mod_idemp_r, <- Z.add_mod_idemp_r, H1 by lia.
  replace (1 + (B - 1)) with B by lia. rewrite Z.mod_same, Z.mul_0_r by lia. apply Z.mod_0_l; lia.
Qed.

Lemma val_mod_B l : digs l -> val l mod B = nth 0 l 0.
Proof. intros Dl. rewrite nth_div, Bp_0, Z.div_1_r by exact Dl. reflexivity. Qed.

Lemma monty_row m u0 M A i t F V S : wf m -> M = val (digs_of m) -> dig u0 ->
  (nth 0 (digs_of m) 0 * u0) mod B = B - 1 -> (2 * used m <= RLC_BN_SIZE)%nat -> (i < used m)%nat ->
  length F = i -> length V = used m -> length S = (used m - i)%nat -> has t (F ++ V ++ S) ->
  monty_inv M A (used m) i (F ++ V ++ S) ->
  returns (monty_basic_row m u0 i t) (fun t' => exists l', has t' l' /\
    monty_inv M A (used m) (Datatypes.S i) l' /\ sign t' = sign t).
Proof.
  intros Hm EM Hu Hinv Hsz Hi LF LV LS Ht (_ & Q & HQ & HE). unfold monty_basic_row.
  destruct (digs_of_facts m Hm) as [Dm Lm]. rewrite digs_of_view.
  assert (Dl : digs (F ++ V ++ S)) by (rewrite <- (proj2 Ht); apply digs_firstn, Ht).
  apply digs_app_inv in Dl as [DF Dl]. apply digs_app_inv in Dl as [DV DS].
  assert (En : nth i (dp t) 0 = nth 0 V 0).
  { replace (nth i (dp t) 0) with (nth i (F ++ V ++ S) 0).
    - rewrite app_nth2, app_nth1 by lia. f_equal. lia.
    - rewrite <- (proj2 Ht), nth_firstn, !length_app.
      destruct (Nat.ltb_spec i (length F + (length V + length S))); [reflexivity|lia]. }
  rewrite En, <- val_mod_B, (has_view t _ i (used m) Ht) by (auto; rewrite ?length_app; lia).
  rewrite skipn_app, skipn_all2, LF, Nat.sub_diag by lia. cbn [skipn app].
  rewrite firstn_app, firstn_all2, LV, Nat.sub_diag by lia. cbn [firstn]. rewrite app_nil_r.
  set (r := dmul (val V mod B) u0). assert (Dr : dig r) by apply dmul_dig.
  destruct (low_mula V _ r) as [d cy] eqn:E.
  apply mula_ok in E as (Ev & Dd & Ld & Hcy); auto; try lia. rewrite <- EM, Lm in *.
  pose proof (monty_digit (val V) M (nth 0 (digs_of m) 0) u0 ltac:(rewrite EM; apply val_mod_B, Dm) Hinv) as Hz.
  fold r in Hz. rewrite <- Ev in Hz.
  assert (Hd : exists d', d = 0 :: d').
  { destruct d as [|d0 d']; [cbn in Ld; lia|]. exists d'. f_equal.
    apply digs_inv in Dd as [Dd0 _]. unfold dig in Dd0. cbn [val] in Hz.
    replace (Bp (used m)) with (B * Bp (used m - 1)) in Hz by (rewrite <- Bp_S; f_equal; lia).
    replace (d0 + B * val d' + B * Bp (used m - 1) * cy) with (d0 + (val d' + Bp (used m - 1) * cy) * B) in Hz by ring.
    rewrite Z_mod_plus_full, Z.mod_small in Hz by lia. exact Hz. }
  destruct Hd as [d' ->]. cbn [length] in Ld. apply digs_inv in Dd as [_ Dd'].
  eapply returns_bind; [apply (store_in t i (F ++ V ++ S) (0 :: d')); auto with digits;
    rewrite !length_app; cbn [length]; lia|]. intros t1 (Hh1 & _ & Hs1).
  eapply returns_mono; [apply (store_in t1 i _ [cy] Hh1); auto with digits;
    rewrite length_blit; rewrite ?length_app; cbn [length]; lia|].
  intros t2 (Hh2 & _ & Hs2). exists (F ++ cy :: d' ++ S).
  assert (El : blit (blit (F ++ V ++ S) i (0 :: d')) i [cy] = F ++ cy :: d' ++ S).
  { rewrite <- LF, (blit_middle F V S) by (cbn [length]; lia).
    apply (blit_middle F [0] (d' ++ S) [cy]). reflexivity. }
  rewrite El in Hh2. split; [exact Hh2|]. split; [|congruence].
  split; [rewrite !length_app; cbn [length]; rewrite length_app; lia|].
  exists (Q + Bp i * r). unfold dig in Dr. rewrite Bp_S. pose proof (Bp_pos i). split; [nia|].
  assert (E1 : skipn (Datatypes.S i) (F ++ cy :: d' ++ S) = d' ++ S).
  { rewrite skipn_app, skipn_all2 by lia. rewrite LF. replace (Datatypes.S i - i)%nat with 1%nat by lia. reflexivity. }
  assert (E2 : firstn (Datatypes.S i) (F ++ cy :: d' ++ S) = F ++ [cy]).
  { rewrite firstn_app, firstn_all2 by lia. rewrite LF. replace (Datatypes.S i - i)%nat with 1%nat by lia. reflexivity. }
  rewrite E1, E2, !val_app, LF. cbn [val]. cbn [val] in Ev.
  assert (E3 : skipn i (F ++ V ++ S) = V ++ S) by (rewrite skipn_app, skipn_all2, LF, Nat.sub_diag by lia; reflexivity).
  assert (E4 : firstn i (F ++ V ++ S) = F).
  { rewrite firstn_app, firstn_all2, LF, Nat.sub_diag by lia. apply app_nil_r. }
  rewrite E3, E4, val_app, LV in HE.
  replace (length d') with (used m - 1)%nat by lia.
  assert (E5 : Bp (used m) = B * Bp (used m - 1)) by (rewrite <- Bp_S; f_equal; lia).
  apply (f_equal (Z.mul (Bp i))) in Ev. rewrite E5 in *. lia.
Qed.

(** A copy into a cleared number. *)
Lemma copy_new a n : wf a -> (used a <= n <= RLC_BN_SIZE)%nat ->
  returns (bn_copy bn_new a) (fun t => has t (digs_of a ++ repeat 0 (n - used a)) /\ sign t = sign a).
Proof.
  intros Ha Hn. unfold bn_copy. grow. destruct (digs_of_facts a Ha) as [Da La].
  eapply returns_bind; [apply (store_in bn_new 0 (repeat 0 n) (digs_of a));
    [apply has_new0; lia|exact Da|rewrite repeat_length; lia]|].
  intros t (Hh & _ & _). cbn [returns]. split; [|reflexivity].
  replace (repeat 0 n) with ([] ++ repeat 0 (used a) ++ repeat 0 (n - used a)) in Hh
    by (cbn [app]; rewrite <- repeat_app; f_equal; lia).
  rewrite (blit_middle [] _ _ (digs_of a)) in Hh by (rewrite repeat_length; exact La). exact Hh.
Qed.

Lemma monty_basic_rows m u0 M x t l : wf m -> M = val (digs_of m) -> dig u0 ->
  (nth 0 (digs_of m) 0 * u0) mod B = B - 1 -> (2 * used m <= RLC_BN_SIZE)%nat ->
  has t l -> length l = (2 * used m)%nat -> val l = x ->
  returns (for_up (used m) 0 (monty_basic_row m u0) t) (fun t' => exists l',
    has t' l' /\ monty_inv M x (used m) (used m) l' /\ sign t' = sign t).
Proof.
  intros Hm EM Hu Hinv Hsz Ht Ll Vl.
  apply (for_up_returns (fun i t' => exists l', has t' l' /\ monty_inv M x (used m) i l' /\ sign t' = sign t)).
  - intros i t1 Hi (l1 & Hh & Hinv1 & Hs). pose proof Hinv1 as [L1 _].
    assert (El : l1 = firstn i l1 ++ firstn (used m) (skipn i l1) ++ skipn (used m) (skipn i l1))
      by (rewrite firstn_skipn, firstn_skipn; reflexivity).
    rewrite El in Hh, Hinv1.
    eapply returns_mono; [eapply monty_row; eauto; rewrite ?length_firstn, ?length_skipn; lia|].
    intros t2 (l2 & H1 & H2 & H3). exists l2. repeat split; auto; try apply H1; try apply H2. congruence.
  - exists l. split; [exact Ht|]. split; [|reflexivity]. split; [exact Ll|]. exists 0.
    rewrite Bp_0. cbn [skipn firstn val]. lia.
Qed.

Lemma bn_mod_monty_basic_ok c a m u x y : buf c -> repr a x -> 0 <= x -> canonical a -> repr m y -> 0 < y ->
  (2 * used m <= RLC_BN_SIZE)%nat -> (used a <= 2 * used m)%nat -> x < y * Bp (used m) ->
  dig (nth 0 (dp u) 0) -> (nth 0 (dp m) 0 * nth 0 (dp u) 0) mod B = B - 1 ->
  returns (bn_mod_monty_basic c a m u) (monty_post x y (used m)).
Proof.
  intros Hc Ha Hx Hca Hm Hy Hsz Hua Hxy Hu Hinv. pose proof Ha as [Hwa Eva]. pose proof Hm as [Hwm Evm].
  unfold bn_mod_monty_basic. make. rewrite bn_zero_new. cbn [bind].
  destruct (digs_of_facts a Hwa) as [Da La], (digs_of_facts m Hwm) as [Dm Lm].
  pose proof Hwm as (_ & Hum & _). pose proof (repr_digs m y Hm ltac:(lia)) as EM.
  pose proof (repr_digs a x Ha Hx) as EA.
  assert (Hsa : sign a = RLC_POS).
  { destruct (Z.eq_dec x 0); [apply Hca; lia|]. unfold ival in Eva. pose proof (mag_bound a Hwa).
    destruct (sign a); [reflexivity|cbn [sgn] in Eva; lia]. }
  eapply returns_bind; [apply (copy_new a (2 * used m)); auto; lia|]. intros t0 [Hh0 Hs0].
  eapply returns_bind; [apply (monty_basic_rows m (nth 0 (dp u) 0) y x t0 (digs_of a ++ repeat 0 (2 * used m - used a)) Hwm); auto|].
  - rewrite top_nth_digs by (auto; lia). exact Hinv.
  - rewrite length_app, repeat_length. lia.
  - rewrite val_app, val_repeat0. lia.
  - intros t1 (l & Hh & (Ll & Q & HQ & HE) & Hs1).
    rewrite (has_view t1 l 0 (used m) Hh), (has_view t1 l (used m) (used m) Hh) by lia. cbn [skipn].
    assert (Dl : digs l) by (rewrite <- (proj2 Hh); apply digs_firstn, Hh).
    set (lo := firstn (used m) l) in *. rewrite (firstn_all2 (skipn (used m) l)) by (rewrite length_skipn; lia).
    set (hi := skipn (used m) l) in *.
    assert (Dlo : digs lo) by (subst lo; auto with digits). assert (Dhi : digs hi) by (subst hi; auto with digits).
    assert (Llo : length lo = used m) by (subst lo; rewrite length_firstn; lia).
    assert (Lhi : length hi = used m) by (subst hi; rewrite length_skipn; lia).
    pose proof (Bp_pos (used m)) as HP.
    assert (HT : Bp (used m) * (val lo + val hi) = x + Q * y) by lia.
    assert (HT2 : val lo + val hi < 2 * y) by nia.
    destruct (low_addn lo hi) as [d cy] eqn:Ead. apply addn_ok in Ead as (Ev & Dd & Ld & Hcy); auto; try lia.
    rewrite Llo in *.
    eapply returns_bind; [apply (store_front t1 d); [apply Hh|exact Dd|lia]|]. intros t2 (Hh2 & _ & Hs2).
    assert (Hcong : forall v, (exists k, v = val lo + val hi - k * y) -> (v * Bp (used m)) mod y = x mod y).
    { intros v [k ->]. replace ((val lo + val hi - k * y) * Bp (used m))
        with (x + (Q - k * Bp (used m)) * y) by lia. apply Z_mod_plus_full. }
    pose proof (val_bound d Dd) as Hd. rewrite Ld in Hd. pose proof (val_bound _ Dlo). pose proof (val_bound _ Dhi).
    destruct (Z.eqb_spec cy 0) as [->|Hn].
    + cbn [bind]. eapply (monty_finish c t2 m d y x); eauto; try congruence; try lia.
      apply Hcong. exists 0. lia.
    + assert (cy = 1) by lia. subst cy. rewrite (has_view t2 d 0 (used m) Hh2) by lia. cbn [skipn].
      rewrite firstn_all2, digs_of_view by lia.
      destruct (low_subn d (digs_of m)) as [e cy2] eqn:Es. apply subn_ok in Es as (Es & De & Le & Hcy2); auto; try lia.
      rewrite Ld, EM in *. pose proof (val_bound e De) as He. rewrite Le in He.
      pose proof (val_bound _ Dm) as Hmb. rewrite EM, Lm in Hmb.
      assert (cy2 = 1) by nia. subst cy2. cbn [fst].
      eapply returns_bind; [apply (store_front t2 e); [apply Hh2|exact De|lia]|]. intros t3 (Hh3 & _ & Hs3).
      eapply (monty_finish c t3 m e y x); eauto; try congruence; try lia.
      apply Hcong. exists 1. lia.
Qed.

(** Conversion to Montgomery form and back. *)

Lemma sign_POS a x : repr a x -> 0 < x -> sign a = RLC_POS.
Proof.
  intros [Hw Hv] Hx. pose proof (mag_bound a Hw). unfold ival in Hv.
  destruct (sign a); [reflexivity|cbn [sgn] in Hv; lia].
Qed.

Lemma sign_NEG_le a x : repr a x -> sign a = RLC_NEG -> x <= 0.
Proof. intros [Hw Hv] Hs. pose proof (mag_bound a Hw). unfold ival in Hv. rewrite Hs in Hv. cbn [sgn] in Hv. lia. Qed.

Lemma sign_POS_ge a x : repr a x -> sign a = RLC_POS -> 0 <= x.
Proof. intros [Hw Hv] Hs. pose proof (mag_bound a Hw). unfold ival in Hv. rewrite Hs in Hv. cbn [sgn] in Hv. lia. Qed.

Lemma bn_mod_monty_conv_ok fuel c a m x y : buf c -> repr a x -> repr m y -> 0 < y ->
  (Z.to_nat (Z.max 0 (- x) / y) + 1 < fuel)%nat ->
  (used a + used m < RLC_BN_SIZE)%nat -> (2 * used m < RLC_BN_SIZE)%nat ->
  returns (bn_mod_monty_conv fuel c a m) (fun r => repr r ((x * Bp (used m)) mod y) /\ canonical r).
Proof.
  intros Hc Ha Hm Hy Hf Hsz Hsz2. unfold bn_mod_monty_conv.
  pose proof Hm as [(_ & Hum & _) _]. pose proof (sign_POS m y Hm Hy) as Hsm.
  eapply returns_bind; [apply (bn_copy_ok c a x); auto|]. intros c0 [Hc0 Hs0].
  pose proof (repr_fits m y Hm) as Hfm. unfold fits in Hfm.
  set (n := Nat.max (used a) (used m)).
  assert (Hxn : Z.abs x < Bp n /\ y < Bp n).
  { destruct Ha as [Hwa Eva], Hm as [Hwm Evm].
    rewrite <- Eva, ival_abs by exact Hwa. pose proof (mag_bound a Hwa). pose proof (mag_bound m Hwm).
    pose proof (Bp_le (used a) n ltac:(lia)). pose proof (Bp_le (used m) n ltac:(lia)).
    assert (y = mag m) by (rewrite <- ival_abs, Evm by exact Hwm; lia). lia. }
  pose proof (Bp_le n RLC_BN_SIZE ltac:(lia)) as Hn.
  eapply returns_bind.
  { apply (loop_returns (fun c => exists v k, repr c v /\ v = x + k * y /\ 0 <= k /\ Z.abs v < Bp n)
             (fun c => if sign_eqb (sign c) RLC_NEG then S (Z.to_nat (- ival c / y)) else 0%nat)
             (fun c => exists v k, repr c v /\ sign c = RLC_POS /\ v = x + k * y /\ Z.abs v < Bp n)).
    - intros c1 (v & k & Hc1 & Ev & Hk & Hv). unfold monty_conv_step, bn_sign.
      destruct (sign c1) eqn:Es; cbn [sign_eqb].
      + cbn [returns]. exists v, k. auto.
      + pose proof (sign_NEG_le c1 v Hc1 Es) as Hv0.
        eapply returns_bind; [apply (bn_add_ok c1 c1 m v y); eauto with bn; unfold fits; lia|].
        intros c2 Hc2. cbn [returns]. split.
        * exists (v + y), (k + 1). repeat split; try apply Hc2; lia.
        * destruct (sign_eqb (sign c2) RLC_NEG) eqn:Es2; [|lia].
          assert (Es2' : sign c2 = RLC_NEG) by (destruct (sign c2); [discriminate|reflexivity]).
          pose proof (sign_NEG_le c2 _ Hc2 Es2') as Hle. rewrite (proj2 Hc2), (proj2 Hc1).
          replace (- v) with (- (v + y) + 1 * y) by lia. rewrite Z_div_plus by lia.
          pose proof (Z.div_pos (- (v + y)) y ltac:(lia) Hy). lia.
    - exists x, 0. repeat split; try apply Hc0; lia.
    - destruct (sign_eqb (sign c0) RLC_NEG) eqn:Es; [|lia]. rewrite (proj2 Hc0).
      assert (Es' : sign c0 = RLC_NEG) by (destruct (sign c0); [discriminate|reflexivity]).
      pose proof (sign_NEG_le c0 x Hc0 Es'). rewrite Z.max_r in Hf by lia. lia. }
  intros c1 (v & k & Hc1 & Hs1 & Ev & Hv). cbv beta.
  assert (Hu1 : (used c1 <= n)%nat) by (apply (used_le c1 v n Hc1 Hv); subst n; lia).
  destruct (RIP_digits (used m) ltac:(lia)) as [Erd Erb].
  eapply returns_bind; [apply (bn_lsh_ok c1 c1 v); eauto with bn|].
  - unfold RLC_DIG; lia.
  - rewrite Erd, Erb, Nat2Z.id. cbn. subst n. lia.
  - intros c2 [Hc2 Hk2].
    assert (EB : 2 ^ (Z.of_nat (used m) * RLC_DIG) = Bp (used m)) by (rewrite Bp_pow2, Z.mul_comm; reflexivity).
    rewrite EB in Hc2. pose proof (Bp_pos (used m)) as HP.
    assert (Hu2 : (used c2 < RLC_BN_SIZE)%nat).
    { apply Nat.le_lt_trans with (n + used m)%nat; [|subst n; lia].
      apply (used_le c2 _ (n + used m) Hc2); [|lia]. rewrite Z.abs_mul, (Z.abs_eq (Bp (used m))), Bp_add by lia. nia. }
    eapply returns_mono; [apply (bn_mod_pos c2 c2 m (v * Bp (used m)) y); eauto with bn|].
    + apply Hk2. intros _. exact Hs1.
    + intros r [Hr Hkr]. split; [|exact Hkr]. rewrite Ev in Hr.
      replace ((x + k * y) * Bp (used m)) with (x * Bp (used m) + k * Bp (used m) * y) in Hr by ring.
      rewrite Z_mod_plus_full in Hr. exact Hr.
Qed.

Lemma bn_mod_monty_back_ok c a m x y : buf c -> repr a x -> 0 <= x -> repr m y -> 0 < y -> Z.odd y = true ->
  (2 * used m <= RLC_BN_SIZE)%nat -> (used a <= 2 * used m)%nat -> x < y * Bp (used m) ->
  returns (bn_mod_monty_back c a m) (monty_post x y (used m)).
Proof.
  intros Hc Ha Hx Hm Hy Ho Hsz Hua Hxy. unfold bn_mod_monty_back.
  eapply returns_bind; [apply (bn_mod_pre_monty_ok bn_new m y); auto with bn|].
  intros u (u0 & Hu & Du & Eu & Hinv). subst u0. apply bn_mod_monty_comba_ok; auto.
Qed.

(** ** Pseudo-Mersenne reduction *)

Lemma bitlen_bounds y : 0 < y -> 2 ^ bitlen y <= 2 * y /\ y < 2 ^ bitlen y /\ 0 < bitlen y.
Proof.
  intros Hy. assert (Hs : y < 2 ^ bitlen y).
  { pose proof (proj2 (bitlen_spec y (bitlen y) (bitlen_nonneg y)) ltac:(lia)). lia. }
  unfold bitlen in *. destruct (Z.eqb_spec y 0); [lia|]. rewrite (Z.abs_eq y) in * by lia.
  pose proof (Z.log2_spec y Hy). pose proof (Z.log2_nonneg y).
  rewrite Z.pow_add_r in * by lia. lia.
Qed.

Lemma bn_mod_pre_pmers_ok c m y : buf c -> repr m y -> 0 < y -> bitlen y < 64 * Z.of_nat RLC_BN_SIZE ->
  returns (bn_mod_pre_pmers c m) (fun u => repr u (2 ^ bitlen y - y)).
Proof.
  intros Hc Hm Hy Hb. unfold bn_mod_pre_pmers. rewrite (bn_bits_ok m y Hm).
  destruct (bitlen_bounds y Hy) as (H1 & H2 & H3).
  eapply returns_bind; [apply (bn_set_2b_ok c (bitlen y)); auto; lia|]. intros u [Hu _].
  apply (bn_sub_ok u u m); eauto with bn. unfold fits. rewrite Bp_pow2.
  pose proof (Z.pow_lt_mono_r 2 (bitlen y) (64 * Z.of_nat RLC_BN_SIZE) ltac:(lia) ltac:(lia) ltac:(lia)). lia.
Qed.

(** The state of the folding loop: the value left is congruent to [x], and the
    partial remainder grows by less than [2 ^ b] for each bit the quotient loses. *)
Definition pmers_inv (x y b : Z) (s : bn * bn * bn) : Prop :=
  let '(q, t, r) := s in
  exists qv rv, repr q qv /\ repr r rv /\ buf t /\ 0 <= qv /\ 0 <= rv /\
    qv * 2 ^ b + rv <= x /\ (qv * 2 ^ b + rv) mod y = x mod y /\
    rv < (64 * Z.of_nat RLC_BN_SIZE - bitlen qv + 1) * 2 ^ b.

Lemma pmers_step_ok x y b u uv s : 0 < y -> b = bitlen y -> repr u uv -> uv = 2 ^ b - y ->
  Z.abs x < Bp (RLC_BN_SIZE - used u) -> (used u < RLC_BN_SIZE)%nat ->
  pmers_inv x y b s -> returns (pmers_step u b s) (fun o =>
    match o with
    | inl s' => pmers_inv x y b s' /\
        (Z.to_nat (bitlen (ival (fst (fst s')))) < Z.to_nat (bitlen (ival (fst (fst s)))))%nat
    | inr r => exists rv, repr r rv /\ 0 <= rv /\ rv mod y = x mod y /\
        rv < (64 * Z.of_nat RLC_BN_SIZE + 1) * 2 ^ b
    end).
Proof.
  intros Hy Eb Hu Euv Hx Hus Hinv. destruct s as [[q t] r].
  destruct Hinv as (qv & rv & Hq & Hr & Ht & Hq0 & Hr0 & Hle & Hmod & Hrv). unfold pmers_step.
  destruct (bitlen_bounds y Hy) as (H1 & H2 & H3). rewrite <- Eb in *.
  assert (HP : 0 < 2 ^ b) by (apply Z.pow_pos_nonneg; lia).
  rewrite (bn_is_zero_ok q qv Hq). destruct (Z.eqb_spec qv 0) as [E0|Hn].
  { cbn [returns]. exists rv. subst qv. change (bitlen 0) with 0 in Hrv.
    rewrite Z.mul_0_l, Z.add_0_l in Hmod. repeat split; try apply Hr; lia. }
  pose proof Hu as [(_ & Huu & _) _]. pose proof BN_SIZE_pos.
  assert (Hqx : qv * 1 <= qv * 2 ^ b) by (apply Z.mul_le_mono_nonneg_l; lia).
  assert (Huq : (used q <= RLC_BN_SIZE - used u)%nat) by (apply (used_below q qv); auto; lia).
  apply returns_bind with (P := fun t => repr t (qv * uv) /\ canonical t).
  { destruct (Nat.eqb_spec (used u) 1) as [E1|E1].
    - assert (Enu : nth 0 (dp u) 0 = uv).
      { pose proof Hu as [Hwu Evu]. rewrite nth0_mag, <- ival_abs, Evu by exact Hwu.
        pose proof (mag_bound u Hwu) as Hmb. rewrite E1, Bp_1, <- ival_abs, Evu in Hmb by exact Hwu.
        rewrite Z.abs_eq in * by lia. apply Z.mod_small; lia. }
      rewrite Enu. apply bn_mul_dig_ok; auto; [|lia].
      rewrite <- Enu. apply digs_nth. destruct Hu as [[[_ D] _] _]. exact D.
    - apply bn_mul_comba_ok; auto. lia. }
  intros t1 [Ht1 Hk1].
  eapply returns_bind; [apply (bn_rsh_ok q t1 (qv * uv) b); eauto with bn; lia|]. intros q1 [Hq1 _].
  eapply returns_bind; [apply (bn_mod_2b_ok t1 t1 (qv * uv) b); eauto with bn; lia|]. intros t2 [Ht2 _].
  assert (Hp0 : 0 <= qv * uv) by nia.
  rewrite Z.quot_div_nonneg in Hq1 by lia. rewrite Z.rem_mod_nonneg in Ht2 by lia.
  pose proof (Z.div_mod (qv * uv) (2 ^ b) ltac:(lia)) as Ed.
  pose proof (Z.mod_pos_bound (qv * uv) (2 ^ b) HP) as Hm.
  set (q' := qv * uv / 2 ^ b) in *. set (t' := (qv * uv) mod 2 ^ b) in *.
  assert (Hq'0 : 0 <= q') by (apply Z.div_pos; lia).
  assert (Hhalf : 2 * q' <= qv) by (assert (2 * (qv * uv) <= qv * 2 ^ b) by nia; nia).
  assert (Htot : q' * 2 ^ b + (rv + t') = qv * 2 ^ b + rv - qv * y) by (rewrite Euv in *; lia).
  pose proof (repr_fits r rv Hr) as Hfr.
  assert (Hxs : x < Bp RLC_BN_SIZE) by (pose proof (Bp_le (RLC_BN_SIZE - used u) RLC_BN_SIZE ltac:(lia)); lia).
  eapply returns_bind; [apply (bn_add_ok r r t2 rv t'); eauto with bn; unfold fits; nia|].
  intros r1 Hr1. cbn [returns fst].
  assert (Hbl : bitlen q' <= bitlen qv - 1).
  { destruct (bitlen_bounds qv ltac:(lia)) as (G1 & G2 & G3). apply bitlen_spec; [lia|].
    replace (bitlen qv) with (Z.succ (bitlen qv - 1)) in G2 by lia. rewrite Z.pow_succ_r in G2 by lia.
    rewrite Z.abs_eq by lia. lia. }
  split.
  - exists q', (rv + t'). split; [exact Hq1|]. split; [exact Hr1|]. split; [eauto with bn|].
    repeat split; try lia.
    + rewrite Htot. replace (qv * 2 ^ b + rv - qv * y) with (qv * 2 ^ b + rv + (- qv) * y) by ring.
      rewrite Z_mod_plus_full. exact Hmod.
    + assert ((bitlen qv - 1 - bitlen q') * 2 ^ b >= 0) by nia. lia.
  - rewrite (proj2 Hq1), (proj2 Hq). pose proof (bitlen_nonneg q'). lia.
Qed.

Lemma final_sub_ok m y fuel : forall r rv, repr m y -> 0 < y -> repr r rv -> 0 <= rv ->
  (Z.to_nat (rv / y) < fuel)%nat ->
  returns (loop fuel (final_sub_step m) r) (fun r => repr r (rv mod y)).
Proof.
  intros r rv Hm Hy Hr Hrv Hf.
  apply (loop_returns (fun r => exists v, repr r v /\ 0 <= v <= rv /\ v mod y = rv mod y)
           (fun r => Z.to_nat (ival r / y))).
  - intros r1 (v & Hr1 & Hv & Hmod). unfold final_sub_step.
    pose proof Hr1 as [Hw1 E1]. pose proof Hm as [Hwm Em].
    rewrite bn_cmp_abs_ok, cmpZ_lt, <- (ival_abs r1 Hw1), <- (ival_abs m Hwm), E1, Em, !Z.abs_eq by (auto; lia).
    destruct (Z.ltb_spec v y).
    + cbn [returns]. rewrite <- Hmod, Z.mod_small by lia. exact Hr1.
    + pose proof (repr_fits r1 v Hr1) as Hf1. unfold fits in Hf1.
      eapply returns_bind; [apply (bn_sub_ok r1 r1 m v y); eauto with bn; unfold fits; lia|].
      intros r2 Hr2. cbn [returns]. split.
      * exists (v - y). split; [exact Hr2|]. split; [lia|]. rewrite <- Hmod.
        replace v with (v - y + 1 * y) at 2 by ring. rewrite Z_mod_plus_full. reflexivity.
      * rewrite (proj2 Hr2). replace v with (v - y + 1 * y) at 2 by ring. rewrite Z_div_plus by lia.
        pose proof (Z.div_pos (v - y) y ltac:(lia) Hy). lia.
  - exists rv. repeat split; try apply Hr; lia.
  - rewrite (proj2 Hr). exact Hf.
Qed.

Lemma bn_mod_pmers_ok c a m u x y : buf c -> repr a x -> 0 <= x -> repr m y -> 0 < y ->
  repr u (2 ^ bitlen y - y) -> (used u < RLC_BN_SIZE)%nat -> x < Bp (RLC_BN_SIZE - used u) ->
  returns (bn_mod_pmers c a m u) (fun r => repr r (x mod y)).
Proof.
  intros Hc Ha Hx Hm Hy Hu Hus Hxs. unfold bn_mod_pmers. rewrite (bn_bits_ok m y Hm).
  destruct (bitlen_bounds y Hy) as (H1 & H2 & H3). set (b := bitlen y) in *.
  assert (HP : 0 < 2 ^ b) by (apply Z.pow_pos_nonneg; lia).
  eapply returns_bind; [apply (bn_copy_ok bn_new a x); auto with bn|]. intros t [Ht _].
  eapply returns_bind; [apply (bn_rsh_ok bn_new t x b); auto with bn; lia|]. intros q [Hq _].
  eapply returns_bind; [apply (bn_mod_2b_ok bn_new t x b); auto with bn; lia|]. intros r [Hr _].
  rewrite Z.quot_div_nonneg in Hq by lia. rewrite Z.rem_mod_nonneg in Hr by lia.
  pose proof (Z.div_mod x (2 ^ b) ltac:(lia)) as Ed. pose proof (Z.mod_pos_bound x (2 ^ b) HP) as Hmb.
  assert (Hq0 : 0 <= x / 2 ^ b) by (apply Z.div_pos; lia).
  eapply returns_bind.
  - eapply (loop_returns (pmers_inv x y b) (fun s => Z.to_nat (bitlen (ival (fst (fst s)))))).
    + intros s Hs. eapply pmers_step_ok; eauto. rewrite Z.abs_eq by lia. exact Hxs.
    + exists (x / 2 ^ b), (x mod 2 ^ b). split; [exact Hq|]. split; [exact Hr|]. split; [eauto with bn|].
      pose proof (bitlen_repr _ _ Hq). repeat split; try lia.
      * f_equal. lia.
      * assert (1 * 2 ^ b <= (64 * Z.of_nat RLC_BN_SIZE - bitlen (x / 2 ^ b) + 1) * 2 ^ b)
          by (apply Z.mul_le_mono_nonneg_r; lia). lia.
    + cbn [fst]. pose proof (bitlen_repr _ _ Hq). rewrite (proj2 Hq). unfold pmers_fuel.
      pose proof (bitlen_nonneg (x / 2 ^ b)). lia.
  - cbv beta. intros r1 (rv & Hr1 & Hrv & Hmod & Hlt). rewrite <- Hmod.
    eapply returns_bind; [apply (final_sub_ok m y pmers_sub_fuel r1 rv); auto|].
    + assert (rv / y < 2 * (64 * Z.of_nat RLC_BN_SIZE + 1)) by (apply Z.div_lt_upper_bound; nia).
      unfold pmers_sub_fuel, pmers_fuel. pose proof (Z.div_pos rv y Hrv Hy). lia.
    + intros r2 Hr2. eapply returns_mono; [apply (bn_copy_ok c r2 (rv mod y)); eauto|]. intros r3 [H3a _]; exact H3a.
Qed.
End ModOk.
