(* ===== verification/BnGcd.v ===== *)
(** * Greatest common divisors, inverses and least common multiples

    bn/relic_bn_gcd.c (the Euclidean and binary algorithms, with and without
    cofactors, and the single-digit variants), relic_bn_inv.c and
    relic_bn_lcm.c. *)

From Stdlib Require Import ZArith List Lia Bool.
From S2P Require Import Prelude Dv BnLow Bn BnOk BnMul BnMulOk BnMod BnModOk.
Import ListNotations.
Local Open Scope Z_scope.

Section Gcd.
Context {L : BnLow}.

(** Each round of the loops below removes a bit of one of two numbers. *)
Definition gcd_fuel : nat := 2 * (64 * RLC_BN_SIZE) + 3.

(** ** Euclid *)

(** while (!bn_is_zero(v)) { bn_copy(c, v); bn_mod(v, u, v); bn_copy(u, c); } *)
Definition gcd_basic_step (s : bn * bn * bn) : result ((bn * bn * bn) + bn) :=
  let '(c, u, v) := s in
  if bn_is_zero v then Ok (inr c)
  else
    let! c := bn_copy c v in
    let! v := bn_mod v u v in
    let! u := bn_copy u c in
    Ok (inl (c, u, v)).

Definition bn_gcd_basic (c a b : bn) : result bn :=
  if bn_is_zero a then bn_abs c b
  else if bn_is_zero b then bn_abs c a
  else
    let! u := bn_abs bn_new a in
    let! v := bn_abs bn_new b in
    loop gcd_fuel gcd_basic_step (c, u, v).

(** BN_METHD selects the basic method. *)
Definition bn_gcd (c a b : bn) : result bn := bn_gcd_basic c a b.

(** The update of one cofactor: the pair [(d, x_1)] becomes [(x_1, d - q * x_1)];
    [c] and [r] are the scratch numbers of the loop. *)
Definition cofactor_step (c r d x_1 q : bn) : result (bn * bn * bn * bn) :=
  let! c := bn_mul c q x_1 in
  let! r := bn_sub r d c in
  let! d := bn_copy d x_1 in
  let! x_1 := bn_copy x_1 r in
  Ok (c, r, d, x_1).

(** The numbers of the loop of [bn_gcd_ext_basic]; [ey] is the pair [(e, y_1)] when
    the second cofactor is asked for. *)
Record ext_state := mk_ext {
  ext_c : bn; ext_u : bn; ext_v : bn; ext_d : bn; ext_x_1 : bn; ext_q : bn; ext_r : bn;
  ext_ey : option (bn * bn)
}.

Definition gcd_ext_step (s : ext_state) : result (ext_state + ext_state) :=
  if bn_is_zero (ext_v s) then Ok (inr s)
  else
    let! qr := bn_div_rem (Some (ext_q s)) (Some (ext_r s)) (ext_u s) (ext_v s) in
    match qr with
    | (Some q, Some r) =>
        let! u := bn_copy (ext_u s) (ext_v s) in
        let! v := bn_copy (ext_v s) r in
        let! (c, r, d, x_1) := cofactor_step (ext_c s) r (ext_d s) (ext_x_1 s) q in
        match ext_ey s with
        | None => Ok (inl (mk_ext c u v d x_1 q r None))
        | Some (e, y_1) =>
            let! (c, r, e, y_1) := cofactor_step c r e y_1 q in
            Ok (inl (mk_ext c u v d x_1 q r (Some (e, y_1))))
        end
    | _ => Undef
    end.

Definition bn_gcd_ext_basic (c d : bn) (e : option bn) (a b : bn)
    : result (bn * bn * option bn) :=
  if bn_is_zero a then
    let! c := bn_abs c b in
    let! d := bn_zero d in
    let! e := out e (fun e => bn_set_dig e 1) in
    Ok (c, d, e)
  else if bn_is_zero b then
    let! c := bn_abs c a in
    let! d := bn_set_dig d 1 in
    let! e := out e (fun e => bn_zero e) in
    Ok (c, d, e)
  else
    let! u := bn_abs bn_new a in
    let! v := bn_abs bn_new b in
    let! x_1 := bn_zero bn_new in
    let! y_1 := bn_set_dig bn_new 1 in
    let! d := bn_set_dig d 1 in
    let! ey := match e with
               | None => Ok None
               | Some e => let! e := bn_zero e in Ok (Some (e, y_1))
               end in
    let! s := loop gcd_fuel gcd_ext_step (mk_ext c u v d x_1 bn_new bn_new ey) in
    let! c := bn_copy (ext_c s) (ext_u s) in
    Ok (c, ext_d s, option_map fst (ext_ey s)).

Definition bn_gcd_ext (c d : bn) (e : option bn) (a b : bn) : result (bn * bn * option bn) :=
  bn_gcd_ext_basic c d e a b.

(** ** Stein *)

(** while (bn_is_even(u) && bn_is_even(v)) { halve both; shift++; } *)
Definition stein_pair_step (s : bn * bn * Z) : result ((bn * bn * Z) + (bn * bn * Z)) :=
  let '(u, v, shift) := s in
  if bn_is_even u && bn_is_even v then
    let! u := bn_hlv u u in
    let! v := bn_hlv v v in
    Ok (inl (u, v, shift + 1))
  else Ok (inr s).

(** while (bn_is_even(u)) bn_hlv(u, u); *)
Definition halve_step (u : bn) : result (bn + bn) :=
  if bn_is_even u then let! u := bn_hlv u u in Ok (inl u) else Ok (inr u).

Definition stein_step (s : bn * bn * bn) : result ((bn * bn * bn) + bn) :=
  let '(t, u, v) := s in
  if bn_is_zero u then Ok (inr v)
  else
    let! u := loop gcd_fuel halve_step u in
    let! v := loop gcd_fuel halve_step v in
    let! t := bn_sub t u v in
    let! t := bn_abs t t in
    let! t := bn_hlv t t in
    if negb (cmp_eqb (bn_cmp u v) RLC_LT) then let! u := bn_copy u t in Ok (inl (t, u, v))
    else let! v := bn_copy v t in Ok (inl (t, u, v)).

Definition bn_gcd_stein (c a b : bn) : result bn :=
  if bn_is_zero a then bn_abs c b
  else if bn_is_zero b then bn_abs c a
  else
    let! u := bn_abs bn_new a in
    let! v := bn_abs bn_new b in
    let! (u, v, shift) := loop gcd_fuel stein_pair_step (u, v, 0) in
    let! v := loop gcd_fuel stein_step (bn_new, u, v) in
    bn_lsh c v shift.

(** ** One operand of a single digit *)

(** while (_v != 0) { _t = _v; _v = _u % _v; _u = _t; } *)
Fixpoint gcd_dig_loop (fuel : nat) (_u _v : Z) : result Z :=
  match fuel with
  | O => NoFuel
  | S fuel' => if _v =? 0 then Ok _u else gcd_dig_loop fuel' _v (_u mod _v)
  end.

Definition bn_gcd_dig (c a : bn) (b : Z) : result bn :=
  if bn_is_zero a then bn_set_dig c b
  else if b =? 0 then bn_abs c a
  else
    let! _v := bn_mod_dig a b in
    let! _u := gcd_dig_loop gcd_fuel b _v in
    bn_set_dig c _u.

(** ** Inverse and least common multiple *)

Definition bn_mod_inv (c a b : bn) : result bn :=
  let! u := bn_copy bn_new b in
  let! (t, c, _) := bn_gcd_ext bn_new c None a b in
  let! c := if sign_eqb (bn_sign c) RLC_NEG then bn_add c c u else Ok c in
  if negb (cmp_eqb (bn_cmp_dig t 1) RLC_EQ) then Throw ERR_NO_VALID
  else Ok c.

Definition bn_lcm (c a b : bn) : result bn :=
  let! u := bn_gcd bn_new a b in
  let! c :=
    if cmp_eqb (bn_cmp_abs a b) RLC_LT then
      let! v := bn_div bn_new a u in bn_mul c b v
    else
      let! v := bn_div bn_new b u in bn_mul c a v in
  Ok (set_sign c RLC_POS).

End Gcd.
