(* ===== verification/BnGcdOk.v ===== *)
(** * Correctness of the greatest common divisors, inverses and least common
    multiples

    Each algorithm of relic_bn_gcd.c is compared with [Z.gcd]; the Euclidean loops
    are shown to terminate within the bits of their operands. *)

From Stdlib Require Import ZArith List Lia Bool Znumtheory.
From S2P Require Import Prelude Dv BnLow Bn BnOk BnMul BnMulOk BnMod BnModOk BnGcd.
Import ListNotations.
Local Open Scope Z_scope.

Section GcdOk.
Context {L : BnLow} {LO : BnLowOk L}.

(** ** Measures *)

Lemma bitlen_le x y : 0 <= x <= y -> bitlen x <= bitlen y.
Proof.
  intros H. apply bitlen_spec; [apply bitlen_nonneg|].
  assert (Z.abs y < 2 ^ bitlen y) by (apply bitlen_spec; [apply bitlen_nonneg|lia]). lia.
Qed.

Lemma bitlen_pos x : 0 < x -> 0 < bitlen x.
Proof. intros H. apply (bitlen_bounds x H). Qed.

Lemma bitlen_half x y : 0 <= x -> 2 * x <= y -> 0 < y -> bitlen x < bitlen y.
Proof.
  intros H1 H2 H3. pose proof (bitlen_bounds y H3) as (_ & Hb & Hp).
  cut (bitlen x <= bitlen y - 1); [lia|]. apply bitlen_spec; [lia|].
  replace (bitlen y) with (Z.succ (bitlen y - 1)) in Hb by lia.
  rewrite Z.pow_succ_r in Hb by lia. lia.
Qed.

(** The rounds left to the Euclidean loop on a pair [(u, v)]. *)
Definition euclid_rounds (u v : Z) : nat :=
  Z.to_nat (bitlen u + bitlen v + (if u <? v then 1 else 0)).

Lemma euclid_decreases u v : 0 <= u -> 0 < v -> (euclid_rounds v (u mod v) < euclid_rounds u v)%nat.
Proof.
  intros Hu Hv. pose proof (Z.mod_pos_bound u v Hv) as Hm. unfold euclid_rounds.
  pose proof (bitlen_nonneg (u mod v)). pose proof (bitlen_pos v Hv). pose proof (bitlen_nonneg u).
  replace (v <? u mod v) with false by (symmetry; apply Z.ltb_ge; lia).
  destruct (u <? v) eqn:E.
  - apply Z.ltb_lt in E. rewrite Z.mod_small by lia. lia.
  - apply Z.ltb_ge in E.
    assert (1 <= u / v) by (apply Z.div_le_lower_bound; lia).
    assert (2 * (u mod v) <= u) by (pose proof (Z.div_mod u v ltac:(lia)); nia).
    pose proof (bitlen_half (u mod v) u ltac:(lia) ltac:(lia) ltac:(lia)). lia.
Qed.

Lemma euclid_bound a b u v : repr a u -> repr b v -> (euclid_rounds u v < gcd_fuel)%nat.
Proof.
  intros Ha Hb. pose proof (bitlen_repr a u Ha). pose proof (bitlen_repr b v Hb).
  unfold euclid_rounds, gcd_fuel. destruct (u <? v); lia.
Qed.

(** ** Euclid *)

(** A non-negative number of fewer digits than the precision. *)
Definition small (a : bn) (z : Z) : Prop := repr a z /\ canonical a /\ 0 <= z < Bp (RLC_BN_SIZE - 1).

Lemma small_used a z : small a z -> (used a < RLC_BN_SIZE)%nat.
Proof.
  intros (H & _ & Hz). pose proof BN_SIZE_pos.
  pose proof (used_below a z (RLC_BN_SIZE - 1) H Hz ltac:(lia)). lia.
Qed.

Lemma small_abs a x : repr a x -> (used a < RLC_BN_SIZE)%nat -> 0 <= Z.abs x < Bp (RLC_BN_SIZE - 1).
Proof.
  intros [Hw Hx] Hu. rewrite <- Hx, ival_abs by exact Hw. pose proof (mag_bound a Hw).
  pose proof (Bp_le (used a) (RLC_BN_SIZE - 1) ltac:(lia)). lia.
Qed.

Lemma small_copy c a z : buf c -> small a z -> returns (bn_copy c a) (fun r => small r z).
Proof.
  intros Hc (Ha & Hk & Hz). eapply returns_mono; [apply copy_can; eauto|].
  cbv beta. intros r [Hr Hcan]. split; [exact Hr|]. split; [auto|exact Hz].
Qed.

Lemma small_mod c a m x y : buf c -> small a x -> small m y -> 0 < y ->
  returns (bn_mod c a m) (fun r => small r (x mod y)).
Proof.
  intros Hc Ha Hm Hy. pose proof (small_used a x Ha) as Hu.
  destruct Ha as (Ha & Hk & Hx). destruct Hm as (Hm & _ & Hyb).
  eapply returns_mono; [apply (bn_mod_pos c a m x y); auto|]. cbv beta. intros r [Hr Hcan].
  split; [exact Hr|]. split; [exact Hcan|]. pose proof (Z.mod_pos_bound x y Hy). lia.
Qed.

Lemma small_abs_ok c a x : buf c -> repr a x -> (used a < RLC_BN_SIZE)%nat ->
  returns (bn_abs c a) (fun r => small r (Z.abs x)).
Proof.
  intros Hc Ha Hu. eapply returns_mono; [apply (bn_abs_ok c a x Hc Ha)|].
  cbv beta. intros r [Hr Hcan]. split; [exact Hr|]. split; [exact Hcan|]. eapply small_abs; eauto.
Qed.

Lemma small_buf a z : small a z -> buf a.
Proof. intros (H & _). eapply repr_buf; eauto. Qed.

Hint Resolve small_buf : bn.

Definition gcd_inv (g : Z) (s : bn * bn * bn) : Prop :=
  let '(c, u, v) := s in
  exists U V, small u U /\ small v V /\ buf c /\ Z.gcd U V = g /\ (V = 0 -> small c U).

Lemma gcd_basic_step_ok g s : gcd_inv g s -> returns (gcd_basic_step s) (fun o =>
  match o with
  | inl s' => gcd_inv g s' /\
      (euclid_rounds (ival (snd (fst s'))) (ival (snd s')) <
       euclid_rounds (ival (snd (fst s))) (ival (snd s)))%nat
  | inr r => small r g
  end).
Proof.
  destruct s as [[c u] v]. intros (U & V & Hu & Hv & Hc & Hg & H0). unfold gcd_basic_step.
  destruct Hv as (Hv & Hv'). rewrite (bn_is_zero_ok v V Hv).
  assert (Sv : small v V) by (split; auto).
  destruct (V =? 0) eqn:E.
  - apply Z.eqb_eq in E. cbn [returns]. subst V. rewrite Z.gcd_0_r in Hg.
    destruct Hu as (_ & _ & Hu). rewrite Z.abs_eq in Hg by lia. rewrite <- Hg. apply H0; reflexivity.
  - apply Z.eqb_neq in E. pose proof Hv' as [_ HV].
    eapply returns_bind; [apply (small_copy c v V Hc Sv)|cbv beta; intros c1 H1].
    eapply returns_bind; [apply (small_mod v u v U V); eauto with bn; lia|cbv beta; intros v1 H2].
    eapply returns_bind; [apply (small_copy u c1 V); eauto with bn|cbv beta; intros u1 H3].
    cbn [returns fst snd]. split.
    + exists V, (U mod V). split; [exact H3|]. split; [exact H2|]. split; [eauto with bn|].
      split; [|intros _; exact H1]. rewrite Z.gcd_comm, Z.gcd_mod, Z.gcd_comm by lia. exact Hg.
    + destruct H3 as ([_ ->] & _), H2 as ([_ ->] & _), Hv as [_ ->].
      destruct Hu as ([_ ->] & _ & HU). apply euclid_decreases; lia.
Qed.

Lemma bn_gcd_basic_ok c a b x y : buf c -> repr a x -> repr b y ->
  (used a < RLC_BN_SIZE)%nat -> (used b < RLC_BN_SIZE)%nat ->
  returns (bn_gcd_basic c a b) (fun r => small r (Z.gcd x y)).
Proof.
  intros Hc Ha Hb Hua Hub. unfold bn_gcd_basic.
  rewrite (bn_is_zero_ok a x Ha), (bn_is_zero_ok b y Hb).
  destruct (x =? 0) eqn:Ex.
  { apply Z.eqb_eq in Ex. subst x. apply small_abs_ok; auto. }
  destruct (y =? 0) eqn:Ey.
  { apply Z.eqb_eq in Ey. subst y. rewrite Z.gcd_0_r. apply small_abs_ok; auto. }
  apply Z.eqb_neq in Ex, Ey.
  eapply returns_bind; [apply (small_abs_ok bn_new a x); auto using buf_new|cbv beta; intros u Hu].
  eapply returns_bind; [apply (small_abs_ok bn_new b y); auto using buf_new|cbv beta; intros v Hv].
  eapply (loop_returns (gcd_inv (Z.gcd x y))
            (fun s => euclid_rounds (ival (snd (fst s))) (ival (snd s)))).
  - apply gcd_basic_step_ok.
  - exists (Z.abs x), (Z.abs y). split; [exact Hu|]. split; [exact Hv|]. split; [exact Hc|].
    split; [|lia]. now rewrite Z.gcd_abs_l, Z.gcd_abs_r.
  - cbn [fst snd]. destruct Hu as (Hu & _), Hv as (Hv & _).
    apply (euclid_bound u v); apply wf_is; eauto with bn.
Qed.

(** ** Cofactors *)

(** Two numbers whose product has a digit less than the precision can be multiplied. *)
Lemma mul_room a b x y n : repr a x -> repr b y -> (1 <= n)%nat ->
  Z.abs x < Bp n -> Z.abs y < Bp n -> Z.abs (x * y) < Bp n -> (used a + used b <= S n)%nat.
Proof.
  intros Ha Hb Hn Hx Hy Hxy.
  pose proof (used_le a x n Ha Hx Hn). pose proof (used_le b y n Hb Hy Hn).
  destruct (Nat.eq_dec (used a) 1) as [?|Ua]; [lia|]. destruct (Nat.eq_dec (used b) 1) as [?|Ub]; [lia|].
  destruct Ha as [Ha <-], Hb as [Hb <-]. rewrite Z.abs_mul, !ival_abs in Hxy by auto.
  assert (1 <= used a)%nat by apply Ha. assert (1 <= used b)%nat by apply Hb.
  pose proof (mag_low a Ha ltac:(lia)). pose proof (mag_low b Hb ltac:(lia)).
  pose proof (Bp_pos (used a - 1)). pose proof (Bp_pos (used b - 1)).
  assert (E : Bp (used a - 1 + (used b - 1)) <= mag a * mag b).
  { rewrite Bp_add. apply Z.mul_le_mono_nonneg; lia. }
  pose proof (Bp_lt_inv (used a - 1 + (used b - 1)) n ltac:(lia)). lia.
Qed.

(** The pair [(d, x)] holds cofactors of opposite signs [s * D] and [- s * X]. *)
Definition cof (N : Z) (d x : bn) (s D X : Z) : Prop :=
  repr d (s * D) /\ repr x (- s * X) /\ 0 <= D <= N /\ 0 <= X <= N /\ N < Bp (RLC_BN_SIZE - 1) /\
  (s = 1 \/ s = -1).

Lemma cofactor_step_ok c r d x_1 q N s D X Q : buf c -> buf r -> small q Q -> cof N d x_1 s D X ->
  D + Q * X <= N ->
  returns (cofactor_step c r d x_1 q) (fun o => let '(c', r', d', x_1') := o in
    buf c' /\ buf r' /\ cof N d' x_1' (- s) X (D + Q * X)).
Proof.
  intros Hc Hr Hq (Hd & Hx & HD & HX & HN & Hs) Hle. pose proof BN_SIZE_pos.
  destruct Hq as (Hq & _ & HQ). unfold cofactor_step.
  assert (HQX : 0 <= Q * X) by (apply Z.mul_nonneg_nonneg; lia).
  assert (Habs : Z.abs (- s * X) = X) by (destruct Hs as [-> | ->]; lia).
  assert (Hm : Z.abs (Q * (- s * X)) = Q * X) by (rewrite Z.abs_mul, Habs, Z.abs_eq; lia).
  assert (Room : (used q + used x_1 <= RLC_BN_SIZE)%nat).
  { pose proof (mul_room q x_1 Q (- s * X) (RLC_BN_SIZE - 1) Hq Hx ltac:(lia)
      ltac:(lia) ltac:(lia) ltac:(lia)). lia. }
  eapply returns_bind; [apply (bn_mul_comba_ok c q x_1 Q (- s * X)); auto|cbv beta; intros c1 [H1 _]].
  eapply returns_bind.
  { apply (bn_sub_ok r d c1 (s * D) (Q * (- s * X))); auto.
    unfold fits. pose proof (Bp_le (RLC_BN_SIZE - 1) RLC_BN_SIZE ltac:(lia)).
    replace (s * D - Q * (- s * X)) with (s * (D + Q * X)) by ring.
    destruct Hs as [-> | ->]; lia. }
  cbv beta. intros r1 H2.
  eapply returns_bind; [apply (bn_copy_ok d x_1 (- s * X)); eauto with bn|cbv beta; intros d1 [H3 _]].
  eapply returns_bind; [apply (bn_copy_ok x_1 r1 (s * D - Q * (- s * X))); eauto with bn|].
  cbv beta. intros x1 [H4 _]. cbn [returns].
  split; [eauto with bn|]. split; [eauto with bn|]. split; [exact H3|].
  split; [replace (- - s * (D + Q * X)) with (s * D - Q * (- s * X)) by ring; exact H4|].
  split; [lia|]. split; [lia|]. split; [exact HN|]. destruct Hs as [-> | ->]; lia.
Qed.

(** The invariant of the extended Euclidean loop on [|a|] and [|b|]. *)
Definition ext_inv (A N : Z) (st : ext_state) : Prop :=
  exists U V s D X E Y,
    small (ext_u st) U /\ small (ext_v st) V /\ 0 < U /\
    buf (ext_c st) /\ buf (ext_q st) /\ buf (ext_r st) /\
    cof N (ext_d st) (ext_x_1 st) s D X /\ X * U + D * V = N /\
    (0 <= E <= A /\ 0 <= Y <= A /\ A < Bp (RLC_BN_SIZE - 1) /\ Y * U + E * V = A) /\
    match ext_ey st with None => True | Some (e, y_1) => cof A e y_1 (- s) E Y end /\
    U = s * D * A - s * E * N /\ V = - s * X * A + s * Y * N /\ Z.gcd U V = Z.gcd A N.

(** What the loop leaves: the gcd and the cofactors of [|a|] and [|b|]. *)
Definition ext_post (A N : Z) (ey : option (bn * bn)) (st : ext_state) : Prop :=
  exists d e, small (ext_u st) (Z.gcd A N) /\ buf (ext_c st) /\ repr (ext_d st) d /\
    Z.abs d <= N /\ Z.abs e <= A /\ d * A + e * N = Z.gcd A N /\
    match ey, ext_ey st with
    | None, None => True
    | Some _, Some (r, _) => repr r e
    | _, _ => False
    end.

(** Whether the second cofactor is kept does not change during the loop. *)
Definition same_ey (ey ey' : option (bn * bn)) : Prop :=
  match ey, ey' with None, None | Some _, Some _ => True | _, _ => False end.

Lemma cof_next D Q X U V R N : 0 <= D -> 0 <= Q -> 0 <= X -> 0 < V -> 0 <= R -> U = V * Q + R ->
  X * U + D * V = N -> (D + Q * X) * V + X * R = N /\ D + Q * X <= N.
Proof.
  intros HD HQ HX HV HR EU EN. assert (E : (D + Q * X) * V + X * R = N) by (subst U; lia).
  split; [exact E|]. assert (0 <= X * R) by (apply Z.mul_nonneg_nonneg; lia).
  assert (0 <= Q * X) by (apply Z.mul_nonneg_nonneg; lia).
  assert ((D + Q * X) * 1 <= (D + Q * X) * V) by (apply Z.mul_le_mono_nonneg_l; lia). lia.
Qed.

Lemma cof_exit A N st U V s D X E Y ey : V = 0 -> same_ey ey (ext_ey st) ->
  small (ext_u st) U -> 0 < U -> buf (ext_c st) -> cof N (ext_d st) (ext_x_1 st) s D X ->
  0 <= E <= A -> match ext_ey st with None => True | Some (e, y_1) => cof A e y_1 (- s) E Y end ->
  U = s * D * A - s * E * N -> Z.gcd U V = Z.gcd A N -> ext_post A N ey st.
Proof.
  intros HV Hs Hu HU Hc (Hd & _ & HD & _ & _ & Hsg) HE Hey EU Eg. rewrite HV, Z.gcd_0_r, Z.abs_eq in Eg by lia.
  exists (s * D), (- s * E). rewrite <- Eg. split; [exact Hu|]. split; [exact Hc|].
  split; [exact Hd|]. split; [destruct Hsg as [-> | ->]; lia|]. split; [destruct Hsg as [-> | ->]; lia|].
  split; [lia|]. unfold same_ey in Hs. destruct ey, (ext_ey st) as [[e y]|]; auto. apply Hey.
Qed.

Lemma div_le_self u v : 0 <= u -> 0 < v -> u / v <= u.
Proof. intros Hu Hv. apply Z.div_le_upper_bound; [exact Hv|]. nia. Qed.

Lemma gcd_ext_step_ok A N ey st : ext_inv A N st -> same_ey ey (ext_ey st) ->
  returns (gcd_ext_step st) (fun o =>
    match o with
    | inl st' => ext_inv A N st' /\ same_ey ey (ext_ey st') /\
        (euclid_rounds (ival (ext_u st')) (ival (ext_v st')) <
         euclid_rounds (ival (ext_u st)) (ival (ext_v st)))%nat
    | inr st' => ext_post A N ey st'
    end).
Proof.
  intros (U & V & s & D & X & E & Y & Hu & Hv & HU & Hc & Hq & Hr & Hco & EN & HA & Hey & EU & EV & Eg) Hs.
  unfold gcd_ext_step. pose proof Hv as (Rv & Kv & HV). rewrite (bn_is_zero_ok (ext_v st) V Rv).
  destruct (V =? 0) eqn:EZ.
  { apply Z.eqb_eq in EZ. destruct HA as (HE & _). apply (cof_exit A N st U V s D X E Y ey); auto. }
  apply Z.eqb_neq in EZ. destruct HA as (HE & HY & HAb & EA).
  pose proof (Z.div_mod U V EZ) as Ediv. pose proof (Z.mod_pos_bound U V ltac:(lia)) as HR.
  assert (HQ : 0 <= U / V) by (apply Z.div_pos; lia).
  assert (HQU : U / V <= U) by (apply div_le_self; lia).
  pose proof Hco as (_ & _ & HD & HX & HN & Hsg).
  destruct (cof_next D (U / V) X U V (U mod V) N) as [EN' LN]; try lia.
  destruct (cof_next E (U / V) Y U V (U mod V) A) as [EA' LA]; try lia.
  pose proof Hu as (Ru & Ku & HUb). pose proof (small_used _ _ Hu) as Hus.
  eapply returns_bind.
  { apply (bn_div_rem_ok (ext_q st) (ext_r st) (ext_u st) (ext_v st) U V); auto. left; lia. }
  cbv beta. intros o (q & r & -> & Rq & Kq & Rr & Kr).
  assert (Sq : small q (U / V)) by (split; [exact Rq|split; [exact Kq|lia]]).
  assert (Sr : small r (U mod V)) by (split; [exact Rr|split; [auto|lia]]).
  eapply returns_bind; [apply (small_copy (ext_u st) (ext_v st) V); eauto with bn|cbv beta; intros u1 Su].
  eapply returns_bind; [apply (small_copy (ext_v st) r (U mod V)); eauto with bn|cbv beta; intros v1 Sv].
  eapply returns_bind.
  { apply (cofactor_step_ok (ext_c st) r (ext_d st) (ext_x_1 st) q N s D X (U / V)); eauto with bn. }
  cbv beta. intros [[[c1 r1] d1] x1] (Hc1 & Hr1 & Hco1).
  assert (Meas : (euclid_rounds (ival u1) (ival v1) < euclid_rounds (ival (ext_u st)) (ival (ext_v st)))%nat).
  { destruct Su as ([_ ->] & _), Sv as ([_ ->] & _), Ru as [_ ->], Rv as [_ ->].
    apply euclid_decreases; lia. }
  assert (G : Z.gcd V (U mod V) = Z.gcd A N).
  { rewrite <- Eg, Z.gcd_comm, Z.gcd_mod, Z.gcd_comm by lia. reflexivity. }
  assert (Inv : forall c r ey', buf c -> buf r ->
    match ey' with None => True | Some (e, y_1) => cof A e y_1 (- - s) Y (E + U / V * Y) end ->
    ext_inv A N (mk_ext c u1 v1 d1 x1 q r ey')).
  { intros c r' ey' Hc' Hr' He'. exists V, (U mod V), (- s), X, (D + U / V * X), Y, (E + U / V * Y).
    cbn [ext_u ext_v ext_c ext_q ext_r ext_d ext_x_1 ext_ey].
    split; [exact Su|]. split; [exact Sv|]. split; [lia|]. split; [exact Hc'|]. split; [eauto with bn|].
    split; [exact Hr'|]. split; [exact Hco1|]. split; [exact EN'|].
    split; [split; [lia|split; [lia|split; [lia|exact EA']]]|]. split; [exact He'|].
    split; [rewrite EV; ring|]. split; [|exact G].
    replace (U mod V) with (U - V * (U / V)) by lia. rewrite EU at 1. rewrite EV at 1. ring. }
  destruct (ext_ey st) as [[e y_1]|].
  - eapply returns_bind.
    { apply (cofactor_step_ok c1 r1 e y_1 q A (- s) E Y (U / V)); eauto with bn. }
    cbv beta. intros [[[c2 r2] e2] y2] (Hc2 & Hr2 & Hco2). cbn [returns ext_u ext_v ext_ey].
    split; [apply Inv; auto|]. split; [destruct ey; exact Hs|exact Meas].
  - cbn [returns ext_u ext_v ext_ey]. split; [apply Inv; auto|]. split; [destruct ey; exact Hs|exact Meas].
Qed.

Definition gcd_ext_post (x y : Z) (e : option bn) (r : bn * bn * option bn) : Prop :=
  let '(c, d, e') := r in
  exists dv ev, small c (Z.gcd x y) /\ repr d dv /\ opt_repr e e' ev /\
    dv * Z.abs x + ev * Z.abs y = Z.gcd x y /\ Z.abs dv <= Z.max 1 (Z.abs y) /\ Z.abs ev <= Z.max 1 (Z.abs x).

Lemma cof_init N d x : repr d 1 -> repr x 0 -> 0 < N < Bp (RLC_BN_SIZE - 1) -> cof N d x 1 1 0.
Proof. intros Hd Hx HN. repeat (split; [first [exact Hd|exact Hx|lia]|]). left; reflexivity. Qed.

Lemma cof_init_e A e y : repr e 0 -> repr y 1 -> 0 < A < Bp (RLC_BN_SIZE - 1) -> cof A e y (- 1) 0 1.
Proof. intros He Hy HA. repeat (split; [first [exact He|exact Hy|lia]|]). right; reflexivity. Qed.

Lemma ext_loop_ok A N c u v d x_1 ey : small u A -> small v N -> 0 < A -> 0 < N -> buf c ->
  repr d 1 -> repr x_1 0 ->
  match ey with None => True | Some (e, y_1) => repr e 0 /\ repr y_1 1 end ->
  returns (loop gcd_fuel gcd_ext_step (mk_ext c u v d x_1 bn_new bn_new ey)) (ext_post A N ey).
Proof.
  intros Su Sv HA HN Hc Hd Hx Hey. pose proof Su as (Ru & _ & HAb). pose proof Sv as (Rv & _ & HNb).
  eapply (loop_returns (fun st => ext_inv A N st /\ same_ey ey (ext_ey st))
            (fun st => euclid_rounds (ival (ext_u st)) (ival (ext_v st)))).
  - intros st [Hi Hs]. eapply returns_mono; [apply (gcd_ext_step_ok A N ey st); auto|].
    intros [st'|st']; [intros (H1 & H2 & H3); auto|auto].
  - split; [|destruct ey as [[? ?]|]; exact I].
    exists A, N, 1, 1, 0, 0, 1. cbn [ext_u ext_v ext_c ext_q ext_r ext_d ext_x_1 ext_ey].
    split; [exact Su|]. split; [exact Sv|]. split; [exact HA|]. split; [exact Hc|].
    split; [exact buf_new|]. split; [exact buf_new|]. split; [apply cof_init; auto; lia|].
    split; [lia|]. split; [repeat split; lia|]. split; [|repeat split; lia].
    destruct ey as [[e y]|]; [|exact I]. destruct Hey. apply cof_init_e; auto; lia.
  - cbn [ext_u ext_v]. apply (euclid_bound u v); apply wf_is; eauto with bn.
Qed.

Lemma bn_gcd_ext_basic_ok c d e a b x y : buf c -> buf d -> opt_buf e -> repr a x -> repr b y ->
  (used a < RLC_BN_SIZE)%nat -> (used b < RLC_BN_SIZE)%nat ->
  returns (bn_gcd_ext_basic c d e a b) (gcd_ext_post x y e).
Proof.
  intros Hc Hd He Ha Hb Hua Hub. unfold bn_gcd_ext_basic.
  rewrite (bn_is_zero_ok a x Ha), (bn_is_zero_ok b y Hb).
  pose proof dig_1 as D1.
  destruct (x =? 0) eqn:Ex.
  { apply Z.eqb_eq in Ex. subst x.
    eapply returns_bind; [apply (small_abs_ok c b y); auto|cbv beta; intros c1 H1].
    eapply returns_bind; [apply (bn_zero_ok d Hd)|cbv beta; intros d1 [H2 _]].
    eapply returns_bind; [apply (out_ok e _ (fun r => repr r 1) He); intros e0 He0;
      eapply returns_mono; [apply bn_set_dig_ok; auto|cbv beta; tauto]|cbv beta; intros e1 H3].
    exists 0, 1. split; [exact H1|]. split; [exact H2|]. split; [exact H3|]. cbn [Z.gcd]. lia. }
  destruct (y =? 0) eqn:Ey.
  { apply Z.eqb_eq in Ey. subst y.
    eapply returns_bind; [apply (small_abs_ok c a x); auto|cbv beta; intros c1 H1].
    eapply returns_bind; [apply (bn_set_dig_ok d 1 Hd D1)|cbv beta; intros d1 [H2 _]].
    eapply returns_bind; [apply (out_ok e _ (fun r => repr r 0) He); intros e0 He0;
      eapply returns_mono; [apply bn_zero_ok; auto|cbv beta; tauto]|cbv beta; intros e1 H3].
    exists 1, 0. rewrite Z.gcd_0_r. split; [exact H1|]. split; [exact H2|]. split; [exact H3|]. lia. }
  apply Z.eqb_neq in Ex, Ey.
  eapply returns_bind; [apply (small_abs_ok bn_new a x); auto using buf_new|cbv beta; intros u Hu].
  eapply returns_bind; [apply (small_abs_ok bn_new b y); auto using buf_new|cbv beta; intros v Hv].
  eapply returns_bind; [apply (bn_zero_ok bn_new buf_new)|cbv beta; intros x1 [Hx1 _]].
  eapply returns_bind; [apply (bn_set_dig_ok bn_new 1 buf_new D1)|cbv beta; intros y1 [Hy1 _]].
  eapply returns_bind; [apply (bn_set_dig_ok d 1 Hd D1)|cbv beta; intros d1 [Hd1 _]].
  apply returns_bind with (P := fun ey => match e, ey with
    | None, None => True | Some _, Some (r, y') => repr r 0 /\ repr y' 1 | _, _ => False end).
  { destruct e as [e|]; [|exact I].
    eapply returns_bind; [apply (bn_zero_ok e He)|cbv beta; intros e1 [He1 _]; split; auto]. }
  intros ey Hey.
  eapply returns_bind.
  { apply (ext_loop_ok (Z.abs x) (Z.abs y) c u v d1 x1 ey); auto; try lia.
    destruct e, ey as [[? ?]|]; tauto. }
  cbv beta. intros st (dv & ev & Hg & Hc' & Hdv & Bd & Be & Ebez & Hst).
  rewrite Z.gcd_abs_l, Z.gcd_abs_r in *.
  eapply returns_bind; [apply (small_copy (ext_c st) (ext_u st) (Z.gcd x y)); auto|cbv beta; intros c2 Hc2].
  exists dv, ev. split; [exact Hc2|]. split; [exact Hdv|].
  split; [|split; [exact Ebez|lia]].
  unfold opt_repr, opt_post. destruct e, ey as [[? ?]|], (ext_ey st) as [[? ?]|]; cbn [option_map fst]; tauto.
Qed.

(** ** Inverses *)

(** The number [bn_mod_inv] leaves in [c]: between 0 and the modulus, the inverse of the
    absolute value of [a]. *)
Definition inverse (x y : Z) (r : bn) : Prop :=
  exists v, repr r v /\ 0 <= v <= y /\ (Z.abs x * v) mod y = 1 mod y.

(** An inverse of the absolute value, for either sign. *)
Lemma inverse_sign x v y : 0 < y -> (Z.abs x * v) mod y = 1 mod y ->
  if 0 <=? x then (x * v) mod y = 1 mod y
  else (x * v) mod y = (- 1) mod y /\ (2 < y -> (x * v) mod y <> 1 mod y).
Proof.
  intros Hy E. destruct (Z.leb_spec 0 x) as [Hx|Hx]; [now rewrite Z.abs_eq in E|].
  assert (E' : (x * v) mod y = (- 1) mod y).
  { rewrite Z.abs_neq in E by lia. replace (x * v) with (- (- x * v)) by lia.
    rewrite <- (Z.sub_0_l (- x * v)), Zminus_mod, E, <- Zminus_mod. reflexivity. }
  split; [exact E'|]. intros H2. rewrite E'. change (-1) with (- (1)). rewrite Z.mod_opp_l_nz by (rewrite ?Z.mod_small; lia).
  rewrite Z.mod_small by lia. lia.
Qed.

Lemma cofactor_mod d e x y : 0 < y -> d * x + e * y = 1 -> (x * d) mod y = 1 mod y.
Proof. intros Hy E. rewrite <- E, (Z.mul_comm d x), Z.mod_add; lia. Qed.

Lemma inverse_reduced c u dv x y : repr c dv -> repr u y -> 0 < y -> Z.abs dv <= y ->
  (forall g, g = 1 -> (Z.abs x * dv) mod y = g mod y) ->
  returns (if sign_eqb (bn_sign c) RLC_NEG then bn_add c c u else Ok c) (fun r => inverse x y r).
Proof.
  intros Hc Hu Hy Hd Hm. specialize (Hm 1 eq_refl). unfold bn_sign. destruct (sign c) eqn:S; cbn [sign_eqb].
  - exists dv. pose proof (sign_POS_ge c dv Hc S). split; [exact Hc|]. split; [lia|exact Hm].
  - pose proof (sign_NEG_le c dv Hc S). pose proof (repr_fits u y Hu) as F. unfold fits in F.
    eapply returns_mono; [apply (bn_add_ok c c u dv y); eauto with bn; unfold fits; lia|].
    cbv beta. intros r Hr. exists (dv + y). split; [exact Hr|]. split; [lia|].
    rewrite Z.mul_add_distr_l, Z.mod_add by lia. exact Hm.
Qed.

Lemma bn_mod_inv_ok c a b x y : buf c -> repr a x -> repr b y -> 0 < y ->
  (used a < RLC_BN_SIZE)%nat -> (used b < RLC_BN_SIZE)%nat ->
  if Z.gcd x y =? 1 then returns (bn_mod_inv c a b) (inverse x y)
  else bn_mod_inv c a b = Throw ERR_NO_VALID.
Proof.
  intros Hc Ha Hb Hy Hua Hub. unfold bn_mod_inv.
  destruct (returns_ex _ _ (bn_copy_ok bn_new b y buf_new Hb)) as (u & -> & Hu & _).
  destruct (returns_ex _ _ (bn_gcd_ext_basic_ok bn_new c None a b x y buf_new Hc I Ha Hb Hua Hub))
    as ([[t d] o] & E & dv & ev & (Ht & Kt & _) & Hd & _ & Ebez & Bd & _).
  cbn [bind]. unfold bn_gcd_ext. rewrite E. cbn [bind].
  rewrite Z.max_r in Bd by lia. rewrite (Z.abs_eq y) in * by lia.
  rewrite (bn_cmp_dig_ok t (Z.gcd x y) 1 Ht Kt dig_1).
  destruct (Z.gcd x y =? 1) eqn:Eg.
  - apply Z.eqb_eq in Eg. rewrite Eg in *. change (cmpZ 1 1) with RLC_EQ. cbn [cmp_eqb negb].
    eapply returns_bind; [|intros r Hr; exact Hr].
    apply (inverse_reduced d u dv x y); auto. intros g ->. apply (cofactor_mod dv ev); auto.
  - apply Z.eqb_neq in Eg. unfold bn_sign.
    assert (Hadd : exists r, (if sign_eqb (sign d) RLC_NEG then bn_add d d u else Ok d) = Ok r).
    { destruct (sign d) eqn:S; cbn [sign_eqb]; [eauto|].
      pose proof (sign_NEG_le d dv Hd S). pose proof (repr_fits u y Hu) as F. unfold fits in F.
      destruct (returns_ex _ _ (bn_add_ok d d u dv y (repr_buf _ _ Hd) Hd Hu ltac:(unfold fits; lia)))
        as (r & -> & _). eauto. }
    destruct Hadd as (r & ->). cbn [bind].
    replace (cmp_eqb (cmpZ (Z.gcd x y) 1) RLC_EQ) with false; [reflexivity|].
    unfold cmpZ. destruct (Z.compare_spec (Z.gcd x y) 1); [contradiction|reflexivity..].
Qed.

(** ** One operand of a single digit *)

Lemma gcd_dig_loop_ok fuel : forall u v, 0 <= u -> 0 <= v -> (euclid_rounds u v < fuel)%nat ->
  gcd_dig_loop fuel u v = Ok (Z.gcd u v).
Proof.
  induction fuel as [|fuel IH]; intros u v Hu Hv Hf; [lia|]. cbn [gcd_dig_loop].
  destruct (v =? 0) eqn:E.
  - apply Z.eqb_eq in E. subst v. rewrite Z.gcd_0_r, Z.abs_eq by lia. reflexivity.
  - apply Z.eqb_neq in E. pose proof (euclid_decreases u v Hu ltac:(lia)).
    pose proof (Z.mod_pos_bound u v ltac:(lia)). rewrite IH by lia.
    now rewrite Z.gcd_comm, Z.gcd_mod, Z.gcd_comm by lia.
Qed.

Lemma bitlen_dig d : dig d -> bitlen d <= 64.
Proof. intros Hd. apply bitlen_spec; [lia|]. unfold dig in Hd. rewrite B_pow2 in Hd. lia. Qed.

Lemma bn_gcd_dig_ok c a x b : buf c -> repr a x -> dig b ->
  returns (bn_gcd_dig c a b) (fun r => repr r (Z.gcd x b) /\ canonical r).
Proof.
  intros Hc Ha Hb. unfold bn_gcd_dig. rewrite (bn_is_zero_ok a x Ha). pose proof Hb as Hb'. unfold dig in Hb'.
  destruct (x =? 0) eqn:Ex.
  { apply Z.eqb_eq in Ex. subst x. cbn [Z.gcd]. rewrite Z.abs_eq by lia. apply bn_set_dig_ok; auto. }
  destruct (b =? 0) eqn:Eb.
  { apply Z.eqb_eq in Eb. subst b. rewrite Z.gcd_0_r. apply bn_abs_ok; auto. }
  apply Z.eqb_neq in Ex, Eb. rewrite (bn_mod_dig_ok a x b Ha ltac:(lia)). cbn [bind].
  pose proof (Z.mod_pos_bound (Z.abs x) b ltac:(lia)) as Hm.
  rewrite gcd_dig_loop_ok; try lia.
  - cbn [bind]. rewrite Z.gcd_comm, Z.gcd_mod, Z.gcd_abs_r, Z.gcd_comm by lia.
    apply bn_set_dig_ok; auto. unfold dig. split; [apply Z.gcd_nonneg|].
    pose proof (Z.gcd_divide_r x b) as Hdv. apply Z.divide_pos_le in Hdv; lia.
  - pose proof (bitlen_dig b Hb). assert (Dm : dig (Z.abs x mod b)) by (unfold dig; lia).
    pose proof (bitlen_dig _ Dm). pose proof BN_SIZE_pos. unfold euclid_rounds, gcd_fuel.
    destruct (b <? Z.abs x mod b); lia.
Qed.

(** ** Least common multiple *)

Lemma lcm_part u v : Z.gcd u v <> 0 -> Z.abs (v * (u / Z.gcd u v)) = Z.lcm u v.
Proof.
  intros Hg. unfold Z.lcm. destruct (Z.gcd_divide_l u v) as [k Hk].
  destruct (Z.gcd_divide_r u v) as [j Hj].
  set (g := Z.gcd u v) in *. clearbody g. subst u v. rewrite !Z.div_mul by exact Hg. f_equal. ring.
Qed.

Lemma abs_set_sign r z : repr r z -> repr (set_sign r RLC_POS) (Z.abs z).
Proof.
  intros [Hw <-]. split; [apply wf_set_sign; exact Hw|].
  unfold ival at 1. rewrite mag_set_sign. cbn [set_sign sign sgn]. rewrite ival_abs by exact Hw. lia.
Qed.

Lemma lcm_step c a b u x y : buf c -> repr a x -> repr b y -> small u (Z.gcd x y) ->
  x <> 0 -> (used a < RLC_BN_SIZE)%nat -> (used a + used b <= RLC_BN_SIZE)%nat ->
  returns (let! v := bn_div bn_new a u in bn_mul c b v) (fun r => exists z, repr r z /\ Z.abs z = Z.lcm x y).
Proof.
  intros Hc Ha Hb (Hu & _ & Hg) Hx Hua Huab.
  assert (Hg0 : Z.gcd x y <> 0) by (intros E; apply Z.gcd_eq_0_l in E; contradiction).
  eapply returns_bind.
  { apply (bn_div_ok bn_new a u x (Z.gcd x y)); auto using buf_new. }
  cbv beta. intros v [Hv _].
  assert (Huv : (used v <= used a)%nat).
  { destruct Ha as [Ha Ex]. apply (used_le v (x / Z.gcd x y) (used a) Hv); [|apply Ha].
    pose proof (mag_bound a Ha). rewrite <- (ival_abs a Ha), Ex in *.
    destruct (Z.gcd_divide_l x y) as [k Hk]. rewrite Hk at 1. rewrite Z.div_mul by exact Hg0.
    assert (Z.abs x = Z.abs k * Z.gcd x y) by (rewrite Hk at 1; rewrite Z.abs_mul; lia). nia. }
  eapply returns_mono; [apply (bn_mul_comba_ok c b v y (x / Z.gcd x y)); auto; lia|].
  cbv beta. intros r [Hr _]. exists (y * (x / Z.gcd x y)). split; [exact Hr|apply lcm_part; exact Hg0].
Qed.

Lemma bn_lcm_ok c a b x y : buf c -> repr a x -> repr b y -> x <> 0 -> y <> 0 ->
  (used a < RLC_BN_SIZE)%nat -> (used b < RLC_BN_SIZE)%nat -> (used a + used b <= RLC_BN_SIZE)%nat ->
  returns (bn_lcm c a b) (fun r => repr r (Z.lcm x y)).
Proof.
  intros Hc Ha Hb Hx Hy Hua Hub Huab. unfold bn_lcm.
  eapply returns_bind; [apply (bn_gcd_basic_ok bn_new a b x y); auto using buf_new|cbv beta; intros u Hu].
  apply returns_bind with (P := fun r => exists z, repr r z /\ Z.abs z = Z.lcm x y).
  - destruct (cmp_eqb (bn_cmp_abs a b) RLC_LT).
    + apply (lcm_step c a b u x y); auto.
    + eapply returns_mono; [apply (lcm_step c b a u y x); auto; [rewrite Z.gcd_comm; exact Hu|lia]|].
      cbv beta. intros r (z & Hr & E). exists z. split; [exact Hr|]. now rewrite E, Z.lcm_comm.
  - intros r (z & Hr & E). cbn [returns]. rewrite <- E. apply abs_set_sign. exact Hr.
Qed.

(** ** Stein *)

Lemma gcd_odd_twice u v : Z.odd v = true -> Z.gcd (2 * u) v = Z.gcd u v.
Proof.
  intros Hv. apply Z.gcd_unique; [apply Z.gcd_nonneg| | |].
  - apply Z.divide_mul_r, Z.gcd_divide_l.
  - apply Z.gcd_divide_r.
  - intros q Hq1 Hq2. apply Z.gcd_greatest; [|exact Hq2].
    apply (Z.gauss q 2 u Hq1). pose proof (Z.gcd_divide_r q 2) as H2. pose proof (Z.gcd_nonneg q 2).
    assert (H3 : Z.gcd q 2 <= 2) by (apply Z.divide_pos_le; [lia|exact H2]).
    assert (H4 : Z.gcd q 2 <> 0) by (intros E; rewrite E in H2; destruct H2; lia).
    assert (H5 : Z.gcd q 2 <> 2); [|lia]. intros E. pose proof (Z.gcd_divide_l q 2) as [k Hk].
    rewrite E in Hk. destruct Hq2 as [j Hj].
    rewrite Hj, Hk, Z.mul_assoc, Z.odd_mul, andb_false_r in Hv. discriminate.
Qed.

Lemma gcd_odd_pow k u v : Z.odd v = true -> Z.gcd (2 ^ Z.of_nat k * u) v = Z.gcd u v.
Proof.
  intros Hv. induction k as [|k IH]; [now rewrite Z.mul_1_l|].
  rewrite Nat2Z.inj_succ, Z.pow_succ_r, <- Z.mul_assoc, gcd_odd_twice by (auto; lia). exact IH.
Qed.

Lemma small_hlv c a x : buf c -> small a x -> returns (bn_hlv c a) (fun r => small r (x / 2)).
Proof.
  intros Hc (Ha & _ & Hx). eapply returns_mono; [apply (bn_hlv_ok c a x Hc Ha)|].
  cbv beta. intros r [Hr Hk]. rewrite Z.quot_div_nonneg in Hr by lia.
  split; [exact Hr|]. split; [exact Hk|]. split; [apply Z.div_pos; lia|].
  pose proof (div_le_self x 2 ltac:(lia) ltac:(lia)). lia.
Qed.

Lemma even_half x : Z.even x = true -> 2 * (x / 2) = x.
Proof. intros H. apply Z.even_spec in H as [k ->]. rewrite (Z.mul_comm 2 k), Z.div_mul; lia. Qed.

(** Halving while even: the odd part. *)
Lemma halve_loop_ok a x : small a x -> 0 < x -> returns (loop gcd_fuel halve_step a) (fun r =>
  exists z k, small r z /\ 0 < z /\ Z.odd z = true /\ x = 2 ^ Z.of_nat k * z).
Proof.
  intros Ha Hx.
  eapply (loop_returns (fun u => exists z k, small u z /\ 0 < z /\ x = 2 ^ Z.of_nat k * z)
            (fun u => Z.to_nat (bitlen (ival u)))).
  - intros u (z & k & Hu & Hz & E). unfold halve_step. pose proof Hu as (Ru & _ & _).
    rewrite (bn_is_even_ok u z Ru). destruct (Z.even z) eqn:Ev.
    + pose proof (even_half z Ev) as E2.
      eapply returns_bind; [apply (small_hlv u u z); eauto with bn|cbv beta; intros v Hv].
      cbn [returns]. split.
      * exists (z / 2), (S k). split; [exact Hv|]. split; [lia|].
        rewrite Nat2Z.inj_succ, Z.pow_succ_r, E by lia. rewrite <- E2 at 1. ring.
      * destruct Ru as [_ ->], Hv as ([_ ->] & _).
        pose proof (bitlen_half (z / 2) z ltac:(lia) ltac:(lia) Hz). pose proof (bitlen_nonneg (z / 2)). lia.
    + cbn [returns]. exists z, k. split; [exact Hu|]. split; [exact Hz|]. split; [|exact E].
      now rewrite <- Z.negb_even, Ev.
  - exists x, 0%nat. split; [exact Ha|]. split; [exact Hx|]. now rewrite Z.mul_1_l.
  - destruct Ha as (Ha & _). pose proof (bitlen_repr a x Ha). destruct Ha as [_ ->].
    unfold gcd_fuel. lia.
Qed.

(** The odd parts of two numbers that are not both even have the same gcd. *)
Lemma gcd_odd_parts j k u v : Z.odd (2 ^ Z.of_nat j * u) || Z.odd (2 ^ Z.of_nat k * v) = true ->
  Z.odd u = true -> Z.odd v = true ->
  Z.gcd (2 ^ Z.of_nat j * u) (2 ^ Z.of_nat k * v) = Z.gcd u v.
Proof.
  intros H Hu Hv. assert (P : forall n w, Z.odd (2 ^ Z.of_nat n * w) = true -> n = 0%nat).
  { intros [|n] w; [auto|]. rewrite Nat2Z.inj_succ, Z.pow_succ_r, <- Z.mul_assoc, Z.odd_mul by lia. discriminate. }
  apply orb_true_iff in H as [H|H]; apply P in H; subst; rewrite Z.mul_1_l.
  - now rewrite Z.gcd_comm, gcd_odd_pow, Z.gcd_comm.
  - now apply gcd_odd_pow.
Qed.

Lemma even_diff u v : Z.odd u = true -> Z.odd v = true -> Z.even (Z.abs (u - v)) = true.
Proof.
  intros Hu Hv. assert (E : Z.even (u - v) = true) by (rewrite Z.even_sub, <- !Z.negb_odd, Hu, Hv; reflexivity).
  destruct (Z.abs_eq_or_opp (u - v)) as [-> | ->]; [exact E|]. rewrite Z.even_opp. exact E.
Qed.

Lemma gcd_diff_half u v : Z.odd u = true -> Z.odd v = true -> Z.gcd (Z.abs (u - v) / 2) v = Z.gcd u v.
Proof.
  intros Hu Hv. rewrite <- (gcd_odd_twice _ v Hv), even_half by (apply even_diff; auto).
  rewrite Z.gcd_abs_l, Z.gcd_comm, Z.gcd_sub_diag_r. apply Z.gcd_comm.
Qed.

Definition stein_inv (g : Z) (s : bn * bn * bn) : Prop :=
  let '(t, u, v) := s in
  exists U V, buf t /\ small u U /\ small v V /\ 0 < V /\ Z.odd U || Z.odd V = true /\ Z.gcd U V = g.

Lemma small_diff c a b x y : buf c -> small a x -> small b y -> returns
  (let! t := bn_sub c a b in let! t := bn_abs t t in bn_hlv t t) (fun r => small r (Z.abs (x - y) / 2)).
Proof.
  intros Hc (Ha & _ & Hx) (Hb & _ & Hy). pose proof (Bp_le (RLC_BN_SIZE - 1) RLC_BN_SIZE ltac:(lia)).
  eapply returns_bind; [apply (bn_sub_ok c a b x y); auto; unfold fits; lia|cbv beta; intros r Hr].
  eapply returns_bind; [apply (bn_abs_ok r r (x - y)); eauto with bn|cbv beta; intros r1 [Hr1 Hk1]].
  apply small_hlv; [eauto with bn|]. split; [exact Hr1|]. split; [exact Hk1|lia].
Qed.

Definition bits2 (s : bn * bn * bn) : nat := Z.to_nat (bitlen (ival (snd (fst s))) + bitlen (ival (snd s))).

Lemma bits_step t M m : 0 <= t -> 2 * t <= M -> 0 < M -> forall M' m', M <= M' -> 0 <= m <= m' ->
  bitlen t + bitlen m < bitlen M' + bitlen m'.
Proof.
  intros Ht HtM HM M' m' HM' Hm. pose proof (bitlen_half t M Ht HtM HM).
  pose proof (bitlen_le M M' ltac:(lia)). pose proof (bitlen_le m m' ltac:(lia)). lia.
Qed.

Lemma odd_part_le x z k : 0 < z -> x = 2 ^ Z.of_nat k * z -> z <= x.
Proof. intros Hz ->. pose proof (Z.pow_pos_nonneg 2 (Z.of_nat k) ltac:(lia) ltac:(lia)). nia. Qed.

Lemma stein_step_ok g s : stein_inv g s -> returns (stein_step s) (fun o =>
  match o with
  | inl s' => stein_inv g s' /\ (bits2 s' < bits2 s)%nat
  | inr r => small r g /\ 0 < g
  end).
Proof.
  destruct s as [[t u] v]. intros (U & V & Ht & Hu & Hv & HV & Hodd & Hg). unfold stein_step.
  pose proof Hu as (Ru & _ & HU). pose proof Hv as (Rv & _ & _). rewrite (bn_is_zero_ok u U Ru).
  destruct (U =? 0) eqn:E.
  { apply Z.eqb_eq in E. subst U. cbn [Z.gcd] in Hg. rewrite Z.abs_eq in Hg by lia. subst g. split; auto. }
  apply Z.eqb_neq in E.
  eapply returns_bind; [apply (halve_loop_ok u U Hu); lia|cbv beta].
  intros u1 (U1 & j & Su & HU1 & Ou & EU).
  eapply returns_bind; [apply (halve_loop_ok v V Hv HV)|cbv beta].
  intros v1 (V1 & k & Sv & HV1 & Ov & EV).
  assert (G1 : Z.gcd U1 V1 = g).
  { rewrite <- Hg, EU, EV. symmetry. apply gcd_odd_parts; auto. rewrite <- EU, <- EV. exact Hodd. }
  pose proof (odd_part_le U U1 j HU1 EU). pose proof (odd_part_le V V1 k HV1 EV).
  destruct (returns_ex _ _ (small_diff t u1 v1 U1 V1 Ht Su Sv)) as (t3 & Et & St).
  destruct (bn_sub t u1 v1) as [t1| | |]; cbn [bind] in *; try discriminate Et.
  destruct (bn_abs t1 t1) as [t2| | |]; cbn [bind] in *; try discriminate Et. rewrite Et. cbn [bind].
  pose proof Su as (Ru1 & _). pose proof Sv as (Rv1 & _).
  rewrite (bn_cmp_ok u1 v1 U1 V1 Ru1 Rv1).
  assert (HT : 0 <= Z.abs (U1 - V1) / 2) by (apply Z.div_pos; lia).
  assert (HT2 : 2 * (Z.abs (U1 - V1) / 2) = Z.abs (U1 - V1)).
  { apply even_half, even_diff; auto. }
  destruct (Z.lt_ge_cases U1 V1) as [Hlt|Hge].
  - rewrite (proj2 (cmpZ_lt_iff U1 V1) Hlt). cbn [cmp_eqb negb].
    eapply returns_bind; [apply (small_copy v1 t3 (Z.abs (U1 - V1) / 2)); eauto with bn|cbv beta; intros v2 Sv2].
    cbn [returns]. split.
    + exists U1, (Z.abs (U1 - V1) / 2). split; [eauto with bn|]. split; [exact Su|]. split; [exact Sv2|].
      split; [lia|]. split; [now rewrite Ou|].
      rewrite <- G1, Z.gcd_comm, <- (Z.gcd_comm V1 U1), <- (gcd_diff_half V1 U1) by auto.
      now rewrite <- Z.abs_opp, Z.opp_sub_distr, Z.add_comm.
    + unfold bits2; cbn [fst snd]. destruct Ru as [_ ->], Rv as [_ ->], Ru1 as [_ ->], Sv2 as ([_ ->] & _).
      pose proof (bits_step (Z.abs (U1 - V1) / 2) V1 U1 ltac:(lia) ltac:(lia) ltac:(lia) V U ltac:(lia) ltac:(lia)).
      pose proof (bitlen_nonneg U1). pose proof (bitlen_nonneg (Z.abs (U1 - V1) / 2)). lia.
  - replace (cmp_eqb (cmpZ U1 V1) RLC_LT) with false
      by (unfold cmpZ; destruct (Z.compare_spec U1 V1); try reflexivity; lia).
    cbn [negb].
    eapply returns_bind; [apply (small_copy u1 t3 (Z.abs (U1 - V1) / 2)); eauto with bn|cbv beta; intros u2 Su2].
    cbn [returns]. split.
    + exists (Z.abs (U1 - V1) / 2), V1. split; [eauto with bn|]. split; [exact Su2|]. split; [exact Sv|].
      split; [lia|]. split; [rewrite Ov; apply orb_true_r|]. rewrite gcd_diff_half; auto.
    + unfold bits2; cbn [fst snd]. destruct Ru as [_ ->], Rv as [_ ->], Rv1 as [_ ->], Su2 as ([_ ->] & _).
      pose proof (bits_step (Z.abs (U1 - V1) / 2) U1 V1 ltac:(lia) ltac:(lia) ltac:(lia) U V ltac:(lia) ltac:(lia)).
      pose proof (bitlen_nonneg V1). pose proof (bitlen_nonneg (Z.abs (U1 - V1) / 2)). lia.
Qed.

(** The common power of two: the pair loop divides both numbers by [2 ^ shift]. *)
Definition pair_inv (x y : Z) (s : bn * bn * Z) : Prop :=
  let '(u, v, sh) := s in
  exists U V k, small u U /\ small v V /\ 0 < U /\ 0 < V /\ sh = Z.of_nat k /\
    x = 2 ^ sh * U /\ y = 2 ^ sh * V.

Lemma pair_loop_ok u v x y : small u x -> small v y -> 0 < x -> 0 < y ->
  returns (loop gcd_fuel stein_pair_step (u, v, 0)) (fun s => let '(u', v', sh) := s in
    exists U V, small u' U /\ small v' V /\ 0 < U /\ 0 < V /\ 0 <= sh /\
      Z.odd U || Z.odd V = true /\ x = 2 ^ sh * U /\ y = 2 ^ sh * V).
Proof.
  intros Hu Hv Hx Hy.
  eapply (loop_returns (pair_inv x y) (fun s => Z.to_nat (bitlen (ival (fst (fst s)))))).
  - intros [[u1 v1] sh] (U & V & k & Su & Sv & HU & HV & Ek & Ex & Ey). unfold stein_pair_step.
    pose proof Su as (Ru & _). pose proof Sv as (Rv & _).
    rewrite (bn_is_even_ok u1 U Ru), (bn_is_even_ok v1 V Rv).
    destruct (Z.even U && Z.even V) eqn:E.
    + apply andb_true_iff in E as [E1 E2]. pose proof (even_half U E1). pose proof (even_half V E2).
      eapply returns_bind; [apply (small_hlv u1 u1 U); eauto with bn|cbv beta; intros u2 Su2].
      eapply returns_bind; [apply (small_hlv v1 v1 V); eauto with bn|cbv beta; intros v2 Sv2].
      cbn [returns fst]. split.
      * exists (U / 2), (V / 2), (S k). split; [exact Su2|]. split; [exact Sv2|].
        split; [lia|]. split; [lia|]. split; [lia|].
        rewrite Z.pow_add_r, Ex, Ey by lia. change (2 ^ 1) with 2. split; nia.
      * destruct Ru as [_ ->], Su2 as ([_ ->] & _).
        pose proof (bitlen_half (U / 2) U ltac:(lia) ltac:(lia) HU). pose proof (bitlen_nonneg (U / 2)). lia.
    + cbn [returns]. exists U, V. split; [exact Su|]. split; [exact Sv|]. split; [exact HU|].
      split; [exact HV|]. split; [lia|]. split; [|auto].
      rewrite <- !Z.negb_even. now destruct (Z.even U), (Z.even V).
  - exists x, y, 0%nat. split; [exact Hu|]. split; [exact Hv|]. repeat (split; [lia|]). lia.
  - cbn [fst]. destruct Hu as (Ru & _). pose proof (bitlen_repr u x Ru). destruct Ru as [_ ->].
    unfold gcd_fuel. lia.
Qed.

(** A left shift whose result has a digit less than the precision. *)
Lemma small_lsh c a x sh : buf c -> small a x -> 0 < x -> 0 <= sh -> x * 2 ^ sh < Bp (RLC_BN_SIZE - 1) ->
  returns (bn_lsh c a sh) (fun r => small r (x * 2 ^ sh)).
Proof.
  intros Hc (Ha & Hk & Hx) H0 Hs Hlt. destruct (RLC_RIP_spec sh Hs) as (Esh & Hd & Hb).
  eapply returns_mono; [apply (bn_lsh_ok c a x sh Hc Ha Hs)|].
  - destruct Ha as [Hw Ex]. assert (Hmag : mag a = x) by (rewrite <- (ival_abs a Hw), Ex; lia).
    set (dd := RLC_RIP_d sh) in *. set (bb := RLC_RIP_b sh) in *.
    assert (HL : Bp (used a - 1) <= x).
    { destruct (Nat.eq_dec (used a) 1) as [->|]; [change (Bp (1 - 1)) with 1; lia|].
      rewrite <- Hmag. apply mag_low; [exact Hw|]. destruct Hw as (_ & ? & _). lia. }
    assert (HP : Bp (Z.to_nat dd) <= 2 ^ sh).
    { rewrite Bp_pow2. apply Z.pow_le_mono_r; lia. }
    assert (HB : Bp (used a - 1 + Z.to_nat dd) <= x * 2 ^ sh).
    { rewrite Bp_add. pose proof (Bp_pos (used a - 1)). pose proof (Bp_pos (Z.to_nat dd)).
      apply Z.mul_le_mono_nonneg; lia. }
    pose proof (Bp_lt_inv (used a - 1 + Z.to_nat dd) (RLC_BN_SIZE - 1) ltac:(lia)).
    destruct Hw as (_ & ? & _). destruct (0 <? bb); lia.
  - cbv beta. intros r [Hr Hkr]. split; [exact Hr|]. split; [auto|].
    pose proof (Z.pow_pos_nonneg 2 sh ltac:(lia) Hs). split; [nia|exact Hlt].
Qed.

Lemma bn_gcd_stein_ok c a b x y : buf c -> repr a x -> repr b y ->
  (used a < RLC_BN_SIZE)%nat -> (used b < RLC_BN_SIZE)%nat ->
  returns (bn_gcd_stein c a b) (fun r => small r (Z.gcd x y)).
Proof.
  intros Hc Ha Hb Hua Hub. unfold bn_gcd_stein.
  rewrite (bn_is_zero_ok a x Ha), (bn_is_zero_ok b y Hb).
  destruct (x =? 0) eqn:Ex.
  { apply Z.eqb_eq in Ex. subst x. apply small_abs_ok; auto. }
  destruct (y =? 0) eqn:Ey.
  { apply Z.eqb_eq in Ey. subst y. rewrite Z.gcd_0_r. apply small_abs_ok; auto. }
  apply Z.eqb_neq in Ex, Ey.
  eapply returns_bind; [apply (small_abs_ok bn_new a x); auto using buf_new|cbv beta; intros u Hu].
  eapply returns_bind; [apply (small_abs_ok bn_new b y); auto using buf_new|cbv beta; intros v Hv].
  eapply returns_bind; [apply (pair_loop_ok u v (Z.abs x) (Z.abs y)); auto; lia|cbv beta].
  intros [[u1 v1] sh] (U & V & Su & Sv & HU & HV & Hsh & Hodd & EU & EV).
  assert (Hpow : 0 < 2 ^ sh) by (apply Z.pow_pos_nonneg; lia).
  assert (EG : Z.gcd x y = Z.gcd U V * 2 ^ sh).
  { rewrite <- (Z.gcd_abs_l x), <- (Z.gcd_abs_r (Z.abs x)), EU, EV, Z.gcd_mul_mono_l, Z.abs_eq by lia. ring. }
  eapply returns_bind.
  { apply (loop_returns (stein_inv (Z.gcd U V)) bits2 (fun r => small r (Z.gcd U V) /\ 0 < Z.gcd U V)).
    - apply stein_step_ok.
    - exists U, V. split; [exact buf_new|]. split; [exact Su|]. split; [exact Sv|]. auto.
    - unfold bits2. cbn [fst snd]. destruct Su as (Ru & _), Sv as (Rv & _).
      pose proof (bitlen_repr _ _ Ru). pose proof (bitlen_repr _ _ Rv).
      destruct Ru as [_ ->], Rv as [_ ->]. unfold gcd_fuel. lia. }
  cbv beta. intros r [Hr Hg]. rewrite EG. apply small_lsh; auto.
  rewrite <- EG. pose proof (small_abs a x Ha Hua).
  pose proof (Z.gcd_divide_l x y) as Hd. apply Z.divide_abs_r in Hd. apply Z.divide_pos_le in Hd; lia.
Qed.

End GcdOk.
