(* ===== verification/Relic.v ===== *)
(** * What the multiple precision module promises

    The theorems of the [bn] layer as built with the portable backend: the
    contract of the low-level routines, the arithmetic of [bn_t], and the
    behaviours its callers have to know.  Every theorem is an instance of the
    lemmas of the component files; the [_witness] lemmas evaluate it on numbers. *)

From Stdlib Require Import ZArith List Lia Bool.
From S2P Require Import Prelude Dv BnLow BnLowEasy BnLowEasyProofs BnLowEasyDiv Bn BnOk BnMul BnMulOk BnConv BnMod BnModOk BnGcd BnGcdOk.
Import ListNotations.
Local Open Scope Z_scope.

(** ** The backend *)

(** C30: the portable backend implements the low-level interface: every routine of
    low/easy (carry chains, shifts, Comba products and squares, Knuth's division,
    Montgomery reduction) computes, on digit vectors of any length, the integer
    operation its contract names, carries and borrows included. *)
Theorem easy_backend_refines_contract : BnLowOk easy_low.
Proof. exact easy_low_ok. Qed.

(** ** Sums *)

(** [bn_add] returns the sum of its operands whenever the sum fits the
    precision, for every combination of signs. *)
Theorem bn_add_spec c a b x y : buf c -> repr a x -> repr b y -> fits (x + y) ->
  returns (bn_add c a b) (fun r => repr r (x + y)).
Proof. apply bn_add_ok. Qed.

Lemma bn_add_spec_witness :
  returns (bn_add bn_new (num (B + 1)) (num (-3))) (fun r => repr r (B + 1 + -3)).
Proof. apply (bn_add_spec bn_new (num (B + 1)) (num (-3)) (B + 1) (-3)); concrete. Defined.

(** a sum that does not fit the precision is reported: [bn_add] throws
    [ERR_NO_PRECI], and never returns a truncated result. *)
Theorem bn_add_overflow_reported c a b x y : buf c -> repr a x -> repr b y -> ~ fits (x + y) ->
  bn_add c a b = Throw ERR_NO_PRECI.
Proof. apply bn_add_overflow. Qed.

Lemma bn_add_overflow_reported_witness :
  bn_add bn_new (num (Bp RLC_BN_SIZE - 1)) (num 1) = Throw ERR_NO_PRECI.
Proof.
  apply (bn_add_overflow_reported bn_new (num (Bp RLC_BN_SIZE - 1)) (num 1) (Bp RLC_BN_SIZE - 1) 1);
    concrete.
Defined.

(** ** Products *)

(** C38: the three multiplications (schoolbook, Comba, Karatsuba at any depth) return
    the product of their operands when the digits of the operands and two digits of
    room for the sums of Karatsuba's method fit the precision. *)
Theorem multiplications_agree level c a b x y : buf c -> repr a x -> repr b y ->
  (used a + used b <= RLC_BN_SIZE - 2)%nat ->
  returns (bn_mul_basic c a b) (fun r => repr r (x * y) /\ canonical r) /\
  returns (bn_mul_comba c a b) (fun r => repr r (x * y) /\ canonical r) /\
  returns (bn_mul_karat_imp c a b level) (fun r => repr r (x * y) /\ canonical r).
Proof.
  intros Hc Ha Hb Hu.
  split; [apply bn_mul_basic_ok; auto; lia|]. split; [apply bn_mul_comba_ok; auto; lia|].
  apply (bn_mul_karat_ok level c a b x y); auto.
Qed.

Lemma multiplications_agree_witness :
  returns (bn_mul_karat_imp bn_new (num (- (B ^ 3 + 2))) (num (B ^ 2 + 9)) 2)
    (fun r => repr r (- (B ^ 3 + 2) * (B ^ 2 + 9)) /\ canonical r).
Proof.
  refine (proj2 (proj2 (multiplications_agree 2 bn_new (num (- (B ^ 3 + 2))) (num (B ^ 2 + 9))
           (- (B ^ 3 + 2)) (B ^ 2 + 9) _ _ _ _))); concrete.
Defined.

(** [bn_div_rem] divides with rounding towards minus infinity: quotient and
    remainder are those of [Z.div] and [Z.modulo], whatever the signs, for a non-zero
    dividend of fewer digits than the precision. *)
Theorem bn_div_rem_floor c d a b x y : buf c -> buf d -> repr a x -> repr b y -> y <> 0 ->
  x <> 0 -> (used a < RLC_BN_SIZE)%nat ->
  returns (bn_div_rem (Some c) (Some d) a b) (fun r => exists q s, r = (Some q, Some s) /\
    repr q (x / y) /\ canonical q /\ repr s (x mod y) /\ (canonical a -> canonical s)).
Proof. intros Hc Hd Ha Hb Hy Hx Hu. apply bn_div_rem_ok; auto. Qed.

Lemma bn_div_rem_floor_witness :
  returns (bn_div_rem (Some bn_new) (Some bn_new) (num (- (B ^ 3 + 1))) (num (B + 5)))
    (fun r => exists q s, r = (Some q, Some s) /\
      repr q (- (B ^ 3 + 1) / (B + 5)) /\ canonical q /\ repr s (- (B ^ 3 + 1) mod (B + 5)) /\
      (canonical (num (- (B ^ 3 + 1))) -> canonical s)).
Proof.
  apply (bn_div_rem_floor bn_new bn_new (num (- (B ^ 3 + 1))) (num (B + 5)) (- (B ^ 3 + 1)) (B + 5));
    concrete.
Defined.

(** ** Modular reduction *)

(** C39: Montgomery reduction.  For an odd modulus the word that [bn_mod_pre_monty]
    computes makes both reductions (the basic and the Comba one) return, for any [x]
    below [y * B^n], the reduced [v] with [v * B^n = x] modulo [y]. *)
Theorem montgomery_reduction c d a m x y : buf c -> buf d -> repr a x -> 0 <= x -> canonical a ->
  repr m y -> 0 < y -> Z.odd y = true ->
  (2 * used m <= RLC_BN_SIZE)%nat -> (used a <= 2 * used m)%nat -> x < y * Bp (used m) ->
  returns (bn_mod_pre_monty d m) (fun u =>
    returns (bn_mod_monty_basic c a m u) (monty_post x y (used m)) /\
    returns (bn_mod_monty_comba c a m u) (monty_post x y (used m))).
Proof.
  intros Hc Hd Ha Hx Hca Hm Hy Ho H1 H2 H3.
  eapply returns_mono; [exact (bn_mod_pre_monty_ok d m y Hd Hm Ho)|]. intros u (u0 & Hu & Hdig & E & Hinv).
  rewrite <- E in Hdig, Hinv.
  split; [now apply bn_mod_monty_basic_ok|now apply bn_mod_monty_comba_ok].
Qed.

Lemma montgomery_reduction_witness :
  returns (bn_mod_pre_monty bn_new (num (B + 3))) (fun u =>
    returns (bn_mod_monty_basic bn_new (num (B ^ 2 + 7)) (num (B + 3)) u)
      (monty_post (B ^ 2 + 7) (B + 3) (used (num (B + 3)))) /\
    returns (bn_mod_monty_comba bn_new (num (B ^ 2 + 7)) (num (B + 3)) u)
      (monty_post (B ^ 2 + 7) (B + 3) (used (num (B + 3))))).
Proof.
  apply (montgomery_reduction bn_new bn_new (num (B ^ 2 + 7)) (num (B + 3)) (B ^ 2 + 7) (B + 3)); concrete.
Defined.

Lemma odd_coprime_Bp y n : Z.odd y = true -> Z.gcd y (Bp n) = 1.
Proof.
  intros Ho. rewrite Bp_pow2. replace (64 * Z.of_nat n) with (Z.of_nat (64 * n)) by lia.
  rewrite Z.gcd_comm, <- (Z.mul_1_r (2 ^ _)), gcd_odd_pow by exact Ho. apply Z.gcd_1_l.
Qed.

Lemma cancel_mod y K v x : 0 < y -> Z.gcd y K = 1 -> 0 <= v < y -> (v * K) mod y = (x * K) mod y -> v = x mod y.
Proof.
  intros Hy G Hv E. assert (D : (y | (v - x) * K)).
  { apply Z.mod_divide; [lia|]. rewrite Z.mul_sub_distr_r, Zminus_mod, E, Z.sub_diag. apply Z.mod_0_l. lia. }
  rewrite Z.mul_comm in D. apply Z.gauss in D; [|exact G]. destruct D as [k D].
  apply Z.mod_unique with (q := - k); [lia|]. lia.
Qed.

(** converting to Montgomery form and back returns the residue. *)
Theorem montgomery_round_trip fuel c d a m x y : buf c -> buf d -> repr a x -> repr m y -> 0 < y ->
  Z.odd y = true -> (Z.to_nat (Z.max 0 (- x) / y) + 1 < fuel)%nat ->
  (used a + used m < RLC_BN_SIZE)%nat -> (2 * used m < RLC_BN_SIZE)%nat ->
  returns (bind (bn_mod_monty_conv fuel c a m) (fun r => bn_mod_monty_back d r m)) (fun r => repr r (x mod y)).
Proof.
  intros Hc Hd Ha Hm Hy Ho Hf H1 H2. eapply returns_bind; [exact (bn_mod_monty_conv_ok fuel c a m x y Hc Ha Hm Hy Hf H1 H2)|].
  intros r [Hr _]. pose proof (Z.mod_pos_bound (x * Bp (used m)) y Hy) as Hv.
  pose proof (Bp_pos (used m)) as HB. pose proof (proj1 Hm) as Wm.
  assert (Hu : (used r <= used m)%nat).
  { apply (used_mono m r); [exact Wm|exact (proj1 Hr)|]. rewrite <- !ival_abs, (proj2 Hr), (proj2 Hm) by (apply Hr || apply Hm).
    pose proof (Z.mod_pos_bound (x * Bp (used m)) y Hy). lia. }
  assert (Hlt : (x * Bp (used m)) mod y < y * Bp (used m)).
  { apply Z.lt_le_trans with (y * 1); [lia|apply Z.mul_le_mono_nonneg_l; lia]. }
  eapply returns_mono;
    [apply (bn_mod_monty_back_ok d r m ((x * Bp (used m)) mod y) y Hd Hr (proj1 Hv) Hm Hy Ho); [lia|lia|exact Hlt]|].
  intros s (v & Hs & _ & Hb & E). replace (x mod y) with v; [exact Hs|].
  rewrite Z.mod_mod in E by lia. apply (cancel_mod y (Bp (used m))); auto using odd_coprime_Bp.
Qed.

Lemma montgomery_round_trip_witness :
  returns (bind (bn_mod_monty_conv 3 bn_new (num (- 5)) (num (B + 3))) (fun r => bn_mod_monty_back bn_new r (num (B + 3))))
    (fun r => repr r (- 5 mod (B + 3))).
Proof. apply (montgomery_round_trip 3 bn_new bn_new (num (- 5)) (num (B + 3)) (- 5) (B + 3)); concrete. Defined.

(** reduction by a pseudo-Mersenne modulus returns the residue. *)
Theorem pmers_reduction c d a m x y : buf c -> buf d -> repr a x -> 0 <= x -> repr m y -> 0 < y ->
  bitlen y < 64 * Z.of_nat RLC_BN_SIZE -> 2 ^ bitlen y - y < Bp 1 -> x < Bp (RLC_BN_SIZE - 1) ->
  returns (bind (bn_mod_pre_pmers d m) (fun u => bn_mod_pmers c a m u)) (fun r => repr r (x mod y)).
Proof.
  intros Hc Hd Ha Hx Hm Hy Hb Hu Hxb. eapply returns_bind; [exact (bn_mod_pre_pmers_ok d m y Hd Hm Hy Hb)|].
  intros u Hr. pose proof (bitlen_bounds y Hy) as (_ & Hl & _).
  assert (U1 : (used u <= 1)%nat) by (apply (used_le u (2 ^ bitlen y - y)); [exact Hr|lia|lia]).
  pose proof (proj1 (proj2 (proj1 Hr))) as U2. assert (S2 : (2 <= RLC_BN_SIZE)%nat) by (vm_compute; lia).
  apply (bn_mod_pmers_ok c a m u x y); auto; [lia|]. now replace (used u) with 1%nat by lia.
Qed.

Lemma pmers_reduction_witness :
  returns (bind (bn_mod_pre_pmers bn_new (num (2 ^ 127 - 1))) (fun u => bn_mod_pmers bn_new (num (B ^ 4 + 11)) (num (2 ^ 127 - 1)) u))
    (fun r => repr r ((B ^ 4 + 11) mod (2 ^ 127 - 1))).
Proof. apply (pmers_reduction bn_new bn_new (num (B ^ 4 + 11)) (num (2 ^ 127 - 1)) (B ^ 4 + 11) (2 ^ 127 - 1)); concrete. Defined.

(** ** Divisors *)

(** Euclid's and Stein's algorithms both return the greatest common divisor, within
    the rounds their loops are given. *)
Theorem gcds_agree c a b x y : buf c -> repr a x -> repr b y ->
  (used a < RLC_BN_SIZE)%nat -> (used b < RLC_BN_SIZE)%nat ->
  returns (bn_gcd_basic c a b) (fun r => repr r (Z.gcd x y)) /\
  returns (bn_gcd_stein c a b) (fun r => repr r (Z.gcd x y)).
Proof.
  intros Hc Ha Hb H1 H2.
  split; (eapply returns_mono; [first [now apply (bn_gcd_basic_ok c a b x y) | now apply (bn_gcd_stein_ok c a b x y)]|]);
    intros r Hr; apply Hr.
Qed.

Lemma gcds_agree_witness :
  returns (bn_gcd_basic bn_new (num (- (6 * B))) (num (4 * B + 4))) (fun r => repr r (Z.gcd (- (6 * B)) (4 * B + 4))) /\
  returns (bn_gcd_stein bn_new (num (- (6 * B))) (num (4 * B + 4))) (fun r => repr r (Z.gcd (- (6 * B)) (4 * B + 4))).
Proof. apply (gcds_agree bn_new (num (- (6 * B))) (num (4 * B + 4)) (- (6 * B)) (4 * B + 4)); concrete. Defined.

(** the extended algorithm returns the greatest common divisor with Bezout
    coefficients of the absolute values, no larger than the operands; the second
    coefficient is optional. *)
Theorem extended_gcd c d e a b x y : buf c -> buf d -> opt_buf e -> repr a x -> repr b y ->
  (used a < RLC_BN_SIZE)%nat -> (used b < RLC_BN_SIZE)%nat ->
  returns (bn_gcd_ext_basic c d e a b) (gcd_ext_post x y e).
Proof. apply bn_gcd_ext_basic_ok. Qed.

Lemma extended_gcd_witness :
  returns (bn_gcd_ext_basic bn_new bn_new (Some bn_new) (num (7 * B + 1)) (num (3 * B)))
    (gcd_ext_post (7 * B + 1) (3 * B) (Some bn_new)).
Proof.
  refine (extended_gcd bn_new bn_new (Some bn_new) (num (7 * B + 1)) (num (3 * B)) (7 * B + 1) (3 * B)
    buf_new buf_new buf_new _ _ _ _); concrete.
Defined.

(** C40: [bn_mod_inv] throws [ERR_NO_VALID] when its operand has a common divisor with the
    modulus, and otherwise returns an inverse of the absolute value of its operand: an
    inverse of the operand when that is not negative.  For a negative operand the product
    of the operand and the result is -1, so that, against the documented contract, the
    result is no inverse unless the modulus is 1 or 2. *)
Theorem inverse_or_error c a b x y : buf c -> repr a x -> repr b y -> 0 < y ->
  (used a < RLC_BN_SIZE)%nat -> (used b < RLC_BN_SIZE)%nat ->
  if Z.gcd x y =? 1 then
    returns (bn_mod_inv c a b) (fun r => exists v, repr r v /\ 0 <= v <= y /\
      if 0 <=? x then (x * v) mod y = 1 mod y
      else (x * v) mod y = (- 1) mod y /\ (2 < y -> (x * v) mod y <> 1 mod y))
  else bn_mod_inv c a b = Throw ERR_NO_VALID.
Proof.
  intros Hc Ha Hb Hy Ua Ub. pose proof (bn_mod_inv_ok c a b x y Hc Ha Hb Hy Ua Ub) as H.
  destruct (Z.gcd x y =? 1); [|exact H]. eapply returns_mono; [exact H|]. intros r (v & Hr & Hv & E).
  exists v. split; [exact Hr|]. split; [exact Hv|]. now apply inverse_sign.
Qed.

(** An inverse, the result 5 for -3 modulo 7, and an operand without an inverse. *)
Lemma inverse_or_error_witness :
  returns (bn_mod_inv bn_new (num 3) (num (B + 1))) (fun r => exists v, repr r v /\ (3 * v) mod (B + 1) = 1) /\
  returns (bn_mod_inv bn_new (num (- 3)) (num 7)) (fun r => exists v, repr r v /\ (- 3 * v) mod 7 = 6) /\
  bn_mod_inv bn_new (num 6) (num (2 * B)) = Throw ERR_NO_VALID.
Proof.
  split; [|split].
  - eapply returns_mono; [refine (inverse_or_error bn_new (num 3) (num (B + 1)) 3 (B + 1) buf_new _ _ _ _ _); concrete|].
    intros r (v & Hr & _ & E). exists v. split; [exact Hr|exact E].
  - eapply returns_mono; [refine (inverse_or_error bn_new (num (- 3)) (num 7) (- 3) 7 buf_new _ _ _ _ _); concrete|].
    intros r (v & Hr & _ & E & _). exists v. split; [exact Hr|exact E].
  - refine (inverse_or_error bn_new (num 6) (num (2 * B)) 6 (2 * B) buf_new _ _ _ _ _); concrete.
Defined.

(** ** Conversions *)

(** a number written in a radix from 2 to 64, into a buffer of the size
    [bn_size_str] asks for or a larger one, reads back as the same number. *)
Theorem string_round_trip c a x r str len : buf c -> repr a x -> 2 <= r <= 64 -> (len <= length str)%nat ->
  returns (bn_size_str a r) (fun l => l <= Z.of_nat len) -> Z.abs x < Bp (RLC_BN_SIZE - 1) ->
  RLC_CEIL (Z.of_nat len * util_bits_dig r) RLC_DIG <= Z.of_nat RLC_BN_SIZE ->
  returns (bind (bn_write_str str len a r) (fun s => bn_read_str c s len r)) (fun b => repr b x).
Proof.
  intros Hc Ha Hr Hl Hs Hx Hfit. eapply returns_bind; [exact (bn_write_str_ok a x r str len Ha Hr Hl Hs)|].
  intros s (_ & n & Hn & Ht). apply (bn_read_str_ok c r x n s len); auto. lia.
Qed.

Lemma string_round_trip_witness :
  returns (bind (bn_write_str (repeat 0 30) 30 (num (- (B + 12345))) 10) (fun s => bn_read_str bn_new s 30 10))
    (fun b => repr b (- (B + 12345))).
Proof.
  apply (string_round_trip bn_new (num (- (B + 12345))) (- (B + 12345)) 10 (repeat 0 30) 30); concrete.
Defined.

(** a number written as big-endian bytes reads back as its absolute value; a buffer
    that is too short is refused with [ERR_NO_BUFFER]. *)
Theorem bytes_round_trip c a x len : buf c -> repr a x -> (len <= 8 * RLC_BN_SIZE)%nat ->
  if Z.abs x <? 256 ^ Z.of_nat len then
    returns (bind (bn_write_bin len a) (fun l => bn_read_bin c l (length l))) (fun b => repr b (Z.abs x))
  else bn_write_bin len a = Throw ERR_NO_BUFFER.
Proof.
  intros Hc Ha Hl. pose proof (bn_write_bin_ok a x len Ha) as W. destruct (_ <? _); [|exact W].
  eapply returns_bind; [exact W|]. intros l (Hv & Hb & HL). rewrite <- Hv.
  eapply returns_mono; [apply (bn_read_bin_ok c l Hc Hb); lia|]. intros b [H _]. exact H.
Qed.

Lemma bytes_round_trip_witness :
  returns (bind (bn_write_bin 9 (num (B + 258))) (fun l => bn_read_bin bn_new l (length l))) (fun b => repr b (B + 258)) /\
  bn_write_bin 8 (num (B + 258)) = Throw ERR_NO_BUFFER.
Proof.
  split; [apply (bytes_round_trip bn_new (num (B + 258)) (B + 258) 9)|apply (bytes_round_trip bn_new (num (B + 258)) (B + 258) 8)]; concrete.
Defined.

(** ** Behaviours to know *)

(** A sum of opposite numbers is a zero with the sign of the first operand, and
    comparisons with a digit read that sign. *)
Lemma negative_zero_sum :
  returns (bn_add bn_new (num (-5)) (num 5)) (fun r => ival r = 0 /\ sign r = RLC_NEG /\ bn_cmp_dig r 0 = RLC_LT).
Proof. vm_compute. auto. Qed.
