(* ===== verification/Radix.v ===== *)
(** * Little-endian lists of digits in any radix

    Bytes of a stream (radix 256) and the 32-bit words of [base_uint] (radix 2^32)
    are lists of digits, least significant first.  [rval] is their value and [rdig]
    the digits of a number; the two are inverse to each other on lists of fixed
    length, and a bit of the value is a bit of a digit. *)

From Stdlib Require Import ZArith List Lia Bool.
From S2P Require Import Prelude.
Import ListNotations.
Local Open Scope Z_scope.

Fixpoint rval (r : Z) (l : list Z) : Z :=
  match l with [] => 0 | d :: l' => d + r * rval r l' end.

Fixpoint rdig (r : Z) (n : nat) (z : Z) : list Z :=
  match n with O => [] | S n' => z mod r :: rdig r n' (z / r) end.

Definition rdigs (r : Z) (l : list Z) : Prop := Forall (fun d => 0 <= d < r) l.

Create HintDb radix.

Lemma length_rdig r n : forall z, length (rdig r n z) = n.
Proof. induction n as [|n IH]; intros z; cbn; [|rewrite IH]; reflexivity. Qed.

Lemma rdigs_rdig r n : forall z, 0 < r -> rdigs r (rdig r n z).
Proof.
  induction n as [|n IH]; intros z Hr; cbn; constructor.
  - apply Z.mod_pos_bound. exact Hr.
  - apply IH. exact Hr.
Qed.

Lemma rdigs_app r l1 l2 : rdigs r l1 -> rdigs r l2 -> rdigs r (l1 ++ l2).
Proof. intros. apply Forall_app. auto. Qed.

Lemma rdigs_rev r l : rdigs r l -> rdigs r (rev l).
Proof. apply Forall_rev. Qed.

Lemma rdigs_firstn r n l : rdigs r l -> rdigs r (firstn n l).
Proof. intros H. unfold rdigs in *. rewrite <- (firstn_skipn n l) in H. now apply Forall_app in H. Qed.

Lemma rdigs_skipn r n l : rdigs r l -> rdigs r (skipn n l).
Proof. intros H. unfold rdigs in *. rewrite <- (firstn_skipn n l) in H. now apply Forall_app in H. Qed.

Lemma rdigs_repeat0 r n : 0 < r -> rdigs r (repeat 0 n).
Proof. intros Hr. apply Forall_forall. intros x Hx. apply repeat_spec in Hx. lia. Qed.

Lemma rdigs_nth r l i : 0 < r -> rdigs r l -> 0 <= nth i l 0 < r.
Proof.
  intros Hr H. destruct (nth_in_or_default i l 0) as [Hi| ->]; [|lia].
  unfold rdigs in H. rewrite Forall_forall in H. apply (H _ Hi).
Qed.

Lemma rdigs_upd r l : forall i x, rdigs r l -> 0 <= x < r -> rdigs r (upd l i x).
Proof.
  induction l as [|d l IH]; intros [|i] x H Hx; cbn [upd]; auto; inversion H; subst; constructor; auto.
  now apply IH.
Qed.

#[export] Hint Resolve rdigs_rdig rdigs_app rdigs_rev rdigs_firstn rdigs_skipn rdigs_repeat0 : radix.

Lemma rval_app r l1 l2 : rval r (l1 ++ l2) = rval r l1 + r ^ Z.of_nat (length l1) * rval r l2.
Proof.
  induction l1 as [|d l1 IH]; cbn [rval app length]; [rewrite Z.pow_0_r; lia|].
  rewrite IH, Nat2Z.inj_succ, Z.pow_succ_r by lia. ring.
Qed.

Lemma rval_bound r l : 0 < r -> rdigs r l -> 0 <= rval r l < r ^ Z.of_nat (length l).
Proof.
  intros Hr H. induction H as [|d l Hd _ IH]; cbn [rval length]; [rewrite Z.pow_0_r; lia|].
  rewrite Nat2Z.inj_succ, Z.pow_succ_r by lia. nia.
Qed.

Lemma rval_repeat0 r n : rval r (repeat 0 n) = 0.
Proof. induction n as [|n IH]; cbn; [|rewrite IH]; lia. Qed.

Lemma rval_rdig r n : forall z, 0 < r -> rval r (rdig r n z) = z mod r ^ Z.of_nat n.
Proof.
  induction n as [|n IH]; intros z Hr; cbn [rval rdig]; [rewrite Z.pow_0_r, Z.mod_1_r; reflexivity|].
  rewrite IH, Nat2Z.inj_succ, Z.pow_succ_r, Z.rem_mul_r by lia. reflexivity.
Qed.

Lemma rdig_rval r l : 0 < r -> rdigs r l -> rdig r (length l) (rval r l) = l.
Proof.
  intros Hr H. induction H as [|d l Hd _ IH]; cbn [rval length rdig]; [reflexivity|].
  rewrite (Z.mul_comm r), Z.mod_add, Z.mod_small, Z.div_add, Z.div_small by lia.
  now rewrite Z.add_0_l, IH.
Qed.

Lemma rval_inj r l1 l2 : 0 < r -> rdigs r l1 -> rdigs r l2 -> length l1 = length l2 ->
  rval r l1 = rval r l2 -> l1 = l2.
Proof.
  intros Hr H1 H2 HL E. rewrite <- (rdig_rval r l1 Hr H1), <- (rdig_rval r l2 Hr H2). congruence.
Qed.

Lemma nth_rval r l : 0 < r -> rdigs r l -> forall i, nth i l 0 = (rval r l / r ^ Z.of_nat i) mod r.
Proof.
  intros Hr H. induction H as [|d l Hd Hl IH]; intros i; cbn [rval].
  - rewrite Z.div_0_l, Z.mod_0_l by (try apply Z.pow_nonzero; lia). destruct i; reflexivity.
  - destruct i as [|i]; cbn [nth].
    + rewrite Z.pow_0_r, Z.div_1_r, (Z.mul_comm r), Z.mod_add, Z.mod_small by lia. reflexivity.
    + assert (0 < r ^ Z.of_nat i) by (apply Z.pow_pos_nonneg; lia).
      rewrite IH, Nat2Z.inj_succ, Z.pow_succ_r, <- Z.div_div, (Z.mul_comm r) by lia.
      rewrite Z.div_add, (Z.div_small d) by lia. reflexivity.
Qed.

(** A bit of the value is a bit of a digit. *)
Lemma testbit_rval w l n : 0 < w -> rdigs (2 ^ w) l -> 0 <= n ->
  Z.testbit (rval (2 ^ w) l) n = Z.testbit (nth (Z.to_nat (n / w)) l 0) (n mod w).
Proof.
  intros Hw H Hn. assert (Hr : 0 < 2 ^ w) by (apply Z.pow_pos_nonneg; lia).
  pose proof (Z.mod_pos_bound n w Hw). pose proof (Z.div_pos n w Hn Hw).
  rewrite (nth_rval (2 ^ w) l Hr H), Z2Nat.id, <- Z.pow_mul_r, Z.mod_pow2_bits_low, Z.div_pow2_bits
    by (try apply Z.mul_nonneg_nonneg; lia).
  f_equal. pose proof (Z.div_mod n w ltac:(lia)). lia.
Qed.

(** Two lists of words whose values agree bit by bit at every word are equal. *)
Lemma rval_bits w l1 l2 : 0 < w -> rdigs (2 ^ w) l1 -> rdigs (2 ^ w) l2 ->
  (forall i, nth i l1 0 = nth i l2 0) -> rval (2 ^ w) l1 = rval (2 ^ w) l2.
Proof.
  intros Hw H1 H2 E. apply Z.bits_inj'. intros n Hn. rewrite !testbit_rval, E by auto. reflexivity.
Qed.

(** The digits of a shorter list followed by zeros. *)
Lemma rval_pad r l n : rval r (l ++ repeat 0 n) = rval r l.
Proof. rewrite rval_app, rval_repeat0. lia. Qed.
