(* ===== verification/Stream.v ===== *)
(** * Serialisation: hnbase/stream/stream.h and stream.cpp

    [CStream] writes objects to a byte stream and reads them back; every message
    and every stored record of the node goes through it.  A stream is the list of
    the bytes still to be read.  [codec A] holds the three overloads of [Serialize]
    for a type: saving, loading (failing with [None] where the C++ code throws) and
    counting the serialised size.  The overloads for containers build a codec from
    the codecs of their elements, as the templates do. *)

From Stdlib Require Import ZArith List Lia Bool Sorted.
From S2P Require Import Prelude Radix.
Import ListNotations.
Local Open Scope Z_scope.

Notation "'let?' x ':=' m 'in' k" := (match m with Some x => k | None => None end)
  (at level 10, x pattern, m at level 100, k at level 200) : relic_scope.

(** A C++ [uint64] value. *)
Definition U64 : Z := 2 ^ 64.

(** [CStream::Read]: all the bytes asked for, or an exception. *)
Definition stream_read (n : nat) (s : list Z) : option (list Z * list Z) :=
  if (length s <? n)%nat then None else Some (firstn n s, skipn n s).

Record codec (A : Type) := mk_codec {
  save : A -> list Z;
  load : list Z -> option (A * list Z);
  ser_size : A -> Z;
  (** the values the C++ type can hold *)
  ok : A -> Prop
}.
Arguments mk_codec {A}.
Arguments save {A}.
Arguments load {A}.
Arguments ser_size {A}.
Arguments ok {A}.

(** What every pair of overloads has to satisfy: reading back what was written
    returns the value and leaves the rest of the stream, the size computed in advance
    is the number of bytes written, and reading does not look beyond what it takes. *)
Class Lawful {A} (c : codec A) : Prop := {
  load_save : forall a rest, ok c a -> load c (save c a ++ rest) = Some (a, rest);
  size_save : forall a, ok c a -> ser_size c a = Z.of_nat (length (save c a));
  save_bytes : forall a, ok c a -> rdigs 256 (save c a);
  load_more : forall s a r t, load c s = Some (a, r) -> load c (s ++ t) = Some (a, r ++ t)
}.

(** A stream cut anywhere inside a value is refused. *)
Lemma load_truncated {A} (c : codec A) {Lc : Lawful c} a s t : ok c a -> save c a = s ++ t -> t <> [] -> load c s = None.
Proof.
  intros Ha E Ht. destruct (load c s) as [[x r]|] eqn:El; [exfalso|reflexivity].
  apply (load_more s x r t) in El. rewrite <- E in El. pose proof (load_save a [] Ha) as L.
  rewrite app_nil_r, El in L. injection L as _ L. apply app_eq_nil in L as [_ L]. contradiction.
Qed.

(** ** CVarInt *)

Definition nDataImmLenStart : Z := 247.

(** [BytesRequired]: while (_i != 0) { ++n; _i >>= 8; } *)
Fixpoint bytes_required (fuel : nat) (_i : Z) : nat :=
  match fuel with
  | O => O
  | S fuel' => if _i =? 0 then O else S (bytes_required fuel' (Z.shiftr _i 8))
  end.

Definition BytesRequired (nValue : Z) : nat := bytes_required 8 nValue.

(** [GetBytes(out, n)]: for (; _i; _i >>= 8) *(b--) = _i & 0xff, from the back of [out]. *)
Fixpoint get_bytes_loop (fuel : nat) (_i : Z) (out : list Z) : list Z :=
  match fuel with
  | O => out
  | S fuel' => if _i =? 0 then out else get_bytes_loop fuel' (Z.shiftr _i 8) (Z.land _i 255 :: out)
  end.

Definition varint_GetBytes (nValue : Z) (n : nat) : list Z :=
  let bs := get_bytes_loop 8 nValue [] in repeat 0 (n - length bs) ++ bs.

Definition GetInt (bt : list Z) : Z :=
  fold_left (fun ret i => Z.lor (Z.shiftl ret 8 mod U64) i) bt 0.

Definition varint_save (nValue : Z) : list Z :=
  if nValue =? 0 then [nDataImmLenStart]
  else if nValue <? nDataImmLenStart then [nValue]
  else
    let n := BytesRequired nValue in
    (nDataImmLenStart + Z.of_nat n) mod 256 :: varint_GetBytes nValue n.

Definition varint_load (s : list Z) : option (Z * list Z) :=
  let? (b, s) := stream_read 1 s in
  let n := nth 0 b 0 in
  if n =? nDataImmLenStart then Some (0, s)
  else if n <? nDataImmLenStart then Some (n, s)
  else
    let fn := (n - nDataImmLenStart) mod 256 in
    if (fn =? 0) || (8 <? fn) then None
    else
      let? (bt, s) := stream_read (Z.to_nat fn) s in
      Some (GetInt bt, s).

Definition varint_size (nValue : Z) : Z :=
  if nValue <? nDataImmLenStart then 1 else 1 + Z.of_nat (BytesRequired nValue).

Definition varint : codec Z :=
  mk_codec varint_save varint_load varint_size (fun v => 0 <= v < U64).

(** ** Fundamental types: [n] bytes of memory, least significant first *)

Definition pod (n : nat) : codec Z :=
  mk_codec (rdig 256 n) (fun s => let? (b, s) := stream_read n s in Some (rval 256 b, s))
    (fun _ => Z.of_nat n) (fun v => 0 <= v < 256 ^ Z.of_nat n).

(** ** Containers *)

(** for (i = 0; i < n; i++) { T data; *this >> data; l.push_back(data); } *)
Fixpoint load_n {A} (c : codec A) (n : nat) (s : list Z) : option (list A * list Z) :=
  match n with
  | O => Some ([], s)
  | S n' =>
      let? (x, s) := load c s in
      let? (l, s) := load_n c n' s in
      Some (x :: l, s)
  end.

Definition sum_sizes {A} (c : codec A) (l : list A) : Z := fold_right (fun x n => ser_size c x + n) 0 l.

(** [std::vector<T>] for a class [T]. *)
Definition vector {A} (c : codec A) : codec (list A) :=
  mk_codec
    (fun t => varint_save (Z.of_nat (length t)) ++ flat_map (save c) t)
    (fun s => let? (n, s) := varint_load s in load_n c (Z.to_nat n) s)
    (fun t => varint_size (Z.of_nat (length t)) + sum_sizes c t)
    (fun t => Forall (ok c) t /\ Z.of_nat (length t) < U64).

(** The largest size a [std::vector] can be resized to, in bytes. *)
Definition PTRDIFF_MAX : Z := 2 ^ 63 - 1.

(** [std::vector<T>] for a fundamental [T] of [k] bytes: the bytes are read at once.
    [length] is a [size_t] product; [resize] throws above the maximal size. *)
Definition vector_pod_load (k : nat) (s : list Z) : option (list Z * list Z) :=
  let? (n, s) := varint_load s in
  if n =? 0 then Some ([], s)
  else
    let len := (Z.of_nat k * n) mod U64 in
    if Z.of_nat (length s) <? len then None
    else if PTRDIFF_MAX <? Z.of_nat k * n then None
    else load_n (pod k) (Z.to_nat n) s.

Definition vector_pod (k : nat) : codec (list Z) :=
  mk_codec
    (fun t => varint_save (Z.of_nat (length t)) ++ flat_map (rdig 256 k) t)
    (vector_pod_load k)
    (fun t => varint_size (Z.of_nat (length t)) + Z.of_nat k * Z.of_nat (length t))
    (fun t => rdigs (256 ^ Z.of_nat k) t /\ Z.of_nat k * Z.of_nat (length t) <= PTRDIFF_MAX).

(** [std::string]: the length, then the characters. *)
Definition string_load (s : list Z) : option (list Z * list Z) :=
  let? (n, s) := varint_load s in
  if PTRDIFF_MAX <? n then None else stream_read (Z.to_nat n) s.

Definition string : codec (list Z) :=
  mk_codec
    (fun t => varint_save (Z.of_nat (length t)) ++ t)
    string_load
    (fun t => varint_size (Z.of_nat (length t)) + Z.of_nat (length t))
    (fun t => rdigs 256 t /\ Z.of_nat (length t) <= PTRDIFF_MAX).

(** [std::array<T, N>] for a class [T]. *)
Definition array {A} (N : nat) (c : codec A) : codec (list A) :=
  mk_codec (flat_map (save c)) (load_n c N) (sum_sizes c) (fun t => Forall (ok c) t /\ length t = N).

(** [std::pair]: the first component, then the second. *)
Definition pair_codec {A C} (c1 : codec A) (c2 : codec C) : codec (A * C) :=
  mk_codec
    (fun t => save c1 (fst t) ++ save c2 (snd t))
    (fun s => let? (x, s) := load c1 s in let? (y, s) := load c2 s in Some ((x, y), s))
    (fun t => ser_size c1 (fst t) + ser_size c2 (snd t))
    (fun t => ok c1 (fst t) /\ ok c2 (snd t)).

Section Ordered.
Context {K : Type} (ltb : K -> K -> bool).

(** [std::set]: the elements in the order of the comparison; [insert] keeps the
    element already there. *)
Fixpoint set_insert (x : K) (l : list K) : list K :=
  match l with
  | [] => [x]
  | y :: l' => if ltb x y then x :: l else if ltb y x then y :: set_insert x l' else l
  end.

(** [std::map]: [insert] keeps the binding already there. *)
Fixpoint map_insert {V} (p : K * V) (l : list (K * V)) : list (K * V) :=
  match l with
  | [] => [p]
  | q :: l' =>
      if ltb (fst p) (fst q) then p :: l
      else if ltb (fst q) (fst p) then q :: map_insert p l' else l
  end.

(** [std::multimap]: [insert] puts the binding after those of the same key. *)
Fixpoint multimap_insert {V} (p : K * V) (l : list (K * V)) : list (K * V) :=
  match l with
  | [] => [p]
  | q :: l' => if ltb (fst p) (fst q) then p :: l else q :: multimap_insert p l'
  end.

(** for (i = 0; i < var.nValue; i++) { K item; *this >> item; t.insert(item); }:
    the container [t] is not cleared first. *)
Fixpoint load_insert {A} (c : codec A) (insert : A -> list A -> list A) (n : nat) (t : list A) (s : list Z)
    : option (list A * list Z) :=
  match n with
  | O => Some (t, s)
  | S n' => let? (x, s) := load c s in load_insert c insert n' (insert x t) s
  end.

Definition container_load {A} (c : codec A) (insert : A -> list A -> list A) (t : list A) (s : list Z)
    : option (list A * list Z) :=
  let? (n, s) := varint_load s in load_insert c insert (Z.to_nat n) t s.

Definition container {A} (c : codec A) (insert : A -> list A -> list A) (sorted : list A -> Prop)
    : codec (list A) :=
  mk_codec
    (fun t => varint_save (Z.of_nat (length t)) ++ flat_map (save c) t)
    (container_load c insert [])
    (fun t => varint_size (Z.of_nat (length t)) + sum_sizes c t)
    (fun t => Forall (ok c) t /\ sorted t /\ Z.of_nat (length t) < U64).

Definition key_lt {V} (p q : K * V) : Prop := ltb (fst p) (fst q) = true.
Definition key_le {V} (p q : K * V) : Prop := ltb (fst q) (fst p) = false.

Definition set_codec (c : codec K) : codec (list K) :=
  container c set_insert (StronglySorted (fun x y => ltb x y = true)).

Definition map_codec {V} (c : codec K) (d : codec V) : codec (list (K * V)) :=
  container (pair_codec c d) map_insert (StronglySorted key_lt).

Definition multimap_codec {V} (c : codec K) (d : codec V) : codec (list (K * V)) :=
  container (pair_codec c d) multimap_insert (StronglySorted key_le).

End Ordered.

(** ** Reading *)

Lemma stream_read_app b rest : stream_read (length b) (b ++ rest) = Some (b, rest).
Proof.
  unfold stream_read. rewrite length_app, (proj2 (Nat.ltb_ge _ _)) by lia.
  now rewrite firstn_app, firstn_all, Nat.sub_diag, app_nil_r, skipn_app, skipn_all, Nat.sub_diag.
Qed.

Lemma stream_read_n n b rest : length b = n -> stream_read n (b ++ rest) = Some (b, rest).
Proof. intros <-. apply stream_read_app. Qed.

Lemma stream_read_more n s b r t : stream_read n s = Some (b, r) -> stream_read n (s ++ t) = Some (b, r ++ t).
Proof.
  unfold stream_read. destruct (Nat.ltb_spec (length s) n) as [|H]; [discriminate|]. intros [= <- <-].
  rewrite length_app, (proj2 (Nat.ltb_ge _ _)) by lia. rewrite firstn_app, skipn_app.
  replace (n - length s)%nat with 0%nat by lia. now rewrite app_nil_r.
Qed.

(** Follows a chain of reads of a longer stream. *)
Ltac read_more lem :=
  match goal with
  | H : match ?m with Some _ => _ | None => None end = Some _ |- _ =>
      destruct m as [[? ?]|] eqn:?; [|discriminate H];
      match goal with E : m = Some _ |- _ => erewrite lem by exact E; clear E end
  end.

(** ** CVarInt *)

Lemma bytes_required_le fuel : forall v, (bytes_required fuel v <= fuel)%nat.
Proof.
  induction fuel as [|fuel IH]; intros v; cbn [bytes_required]; [lia|]. specialize (IH (Z.shiftr v 8)).
  destruct (v =? 0); lia.
Qed.

Lemma get_bytes_ok fuel : forall v out, 0 <= v < 256 ^ Z.of_nat fuel -> exists bs,
  get_bytes_loop fuel v out = rev bs ++ out /\ length bs = bytes_required fuel v /\
  rval 256 bs = v /\ rdigs 256 bs.
Proof.
  induction fuel as [|fuel IH]; intros v out Hv.
  - exists []. cbn. rewrite Z.pow_0_r in Hv. repeat split; [lia|constructor].
  - cbn [get_bytes_loop bytes_required]. destruct (v =? 0) eqn:E.
    + exists []. apply Z.eqb_eq in E. subst v. repeat split; constructor.
    + apply Z.eqb_neq in E. rewrite Nat2Z.inj_succ, Z.pow_succ_r in Hv by lia.
      rewrite Z.shiftr_div_pow2 by lia. change (2 ^ 8) with 256.
      change 255 with (Z.ones 8). rewrite Z.land_ones by lia. change (2 ^ 8) with 256.
      assert (Hd : 0 <= v / 256 < 256 ^ Z.of_nat fuel)
        by (split; [apply Z.div_pos; lia|apply Z.div_lt_upper_bound; lia]).
      destruct (IH (v / 256) (v mod 256 :: out) Hd) as (bs & -> & HL & HV & HB).
      exists (v mod 256 :: bs). pose proof (Z.mod_pos_bound v 256 ltac:(lia)).
      cbn [rev length rval]. rewrite <- app_assoc. repeat split.
      * now rewrite HL.
      * rewrite HV. pose proof (Z.div_mod v 256 ltac:(lia)). lia.
      * constructor; [lia|exact HB].
Qed.

Lemma GetInt_fold bs : forall acc, rdigs 256 bs -> 0 <= acc -> acc * 256 ^ Z.of_nat (length bs) +
  256 ^ Z.of_nat (length bs) <= U64 ->
  fold_left (fun ret i => Z.lor (Z.shiftl ret 8 mod U64) i) bs acc =
  acc * 256 ^ Z.of_nat (length bs) + rval 256 (rev bs).
Proof.
  induction bs as [|b bs IH]; intros acc Hb Ha Hacc; cbn [fold_left length rev]; [cbn; lia|].
  inversion Hb as [|? ? Hb1 Hbs]; subst. cbn [length] in Hacc.
  rewrite Nat2Z.inj_succ, Z.pow_succ_r in * by lia.
  assert (Hp : 0 < 256 ^ Z.of_nat (length bs)) by (apply Z.pow_pos_nonneg; lia).
  rewrite Z.shiftl_mul_pow2 by lia. change (2 ^ 8) with 256.
  assert (Hs : 0 <= acc * 256 < U64) by nia.
  assert (E : Z.lor ((acc * 256) mod U64) b = acc * 256 + b).
  { rewrite Z.mod_small by exact Hs. change 256 with (2 ^ 8) at 1. rewrite <- Z.shiftl_mul_pow2 by lia.
    apply lor_shiftl_add; lia. }
  rewrite E, IH; [|exact Hbs|lia|nia].
  rewrite rval_app, length_rev. cbn [rval]. ring.
Qed.

Lemma GetInt_ok bs : rdigs 256 bs -> (length bs <= 8)%nat -> GetInt bs = rval 256 (rev bs).
Proof.
  intros Hb HL. unfold GetInt. rewrite GetInt_fold; [lia|exact Hb|lia|].
  rewrite Z.mul_0_l, Z.add_0_l. unfold U64. change (2 ^ 64) with (256 ^ 8). apply Z.pow_le_mono_r; lia.
Qed.

Lemma varint_GetBytes_ok v : 0 <= v < U64 -> exists bs,
  varint_GetBytes v (BytesRequired v) = rev bs /\ length bs = BytesRequired v /\
  rval 256 bs = v /\ rdigs 256 bs.
Proof.
  intros Hv. destruct (get_bytes_ok 8 v [] Hv) as (bs & E & HL & HV & HB).
  exists bs. unfold varint_GetBytes. rewrite E, app_nil_r, length_rev. fold (BytesRequired v) in HL.
  rewrite HL, Nat.sub_diag. auto.
Qed.

Lemma BytesRequired_pos v : v <> 0 -> (1 <= BytesRequired v <= 8)%nat.
Proof.
  intros H. pose proof (bytes_required_le 8 v). unfold BytesRequired in *. split; [|exact H0].
  cbn [bytes_required]. rewrite (proj2 (Z.eqb_neq v 0) H). lia.
Qed.

(** Loading after the first byte of a long form. *)
Lemma varint_load_long n b rest : (1 <= n <= 8)%nat -> length b = n -> rdigs 256 b ->
  varint_load ((nDataImmLenStart + Z.of_nat n) mod 256 :: b ++ rest) = Some (rval 256 (rev b), rest).
Proof.
  intros Hn HL Hb. unfold varint_load, nDataImmLenStart.
  change (?x :: b ++ rest) with ([x] ++ b ++ rest). rewrite (stream_read_n 1) by reflexivity. cbn [nth].
  rewrite (Z.mod_small (247 + Z.of_nat n)) by lia.
  rewrite (proj2 (Z.eqb_neq _ _)), (proj2 (Z.ltb_ge _ _)) by lia.
  replace (247 + Z.of_nat n - 247) with (Z.of_nat n) by lia. rewrite (Z.mod_small (Z.of_nat n)) by lia.
  rewrite (proj2 (Z.eqb_neq (Z.of_nat n) 0)), (proj2 (Z.ltb_ge 8 _)) by lia. cbn [orb].
  rewrite Nat2Z.id, (stream_read_n n) by exact HL. rewrite GetInt_ok by (auto; lia). reflexivity.
Qed.

#[export] Instance varint_lawful : Lawful varint.
Proof.
  split; cbn [ok varint load save ser_size].
  - intros v rest Hv. unfold varint_save.
    destruct (Z.eqb_spec v 0) as [->|E]; [reflexivity|]. destruct (Z.ltb_spec v nDataImmLenStart) as [Hs|Hl].
    + unfold varint_load. cbn [app]. change (v :: rest) with ([v] ++ rest).
      rewrite (stream_read_n 1) by reflexivity. cbn [nth]. unfold nDataImmLenStart in *.
      rewrite (proj2 (Z.eqb_neq v 247)), (proj2 (Z.ltb_lt v 247)) by lia. reflexivity.
    + destruct (varint_GetBytes_ok v Hv) as (bs & -> & HL & HV & HB). pose proof (BytesRequired_pos v E).
      cbn [app]. rewrite varint_load_long by (rewrite ?length_rev; auto with radix).
      now rewrite rev_involutive, HV.
  - intros v Hv. unfold varint_save, varint_size, nDataImmLenStart.
    destruct (Z.eqb_spec v 0) as [->|E]; [reflexivity|]. destruct (Z.ltb_spec v 247); [reflexivity|].
    destruct (varint_GetBytes_ok v Hv) as (bs & -> & HL & _). cbn [length]. rewrite length_rev, HL. lia.
  - intros v Hv. unfold varint_save, nDataImmLenStart.
    destruct (Z.eqb_spec v 0) as [->|E]; [constructor; [lia|constructor]|].
    destruct (Z.ltb_spec v 247); [constructor; [lia|constructor]|].
    destruct (varint_GetBytes_ok v Hv) as (bs & -> & _ & _ & HB).
    constructor; [apply Z.mod_pos_bound; lia|apply rdigs_rev; exact HB].
  - intros s a r t H. unfold varint_load in *. read_more stream_read_more.
    destruct (_ =? nDataImmLenStart); [injection H as <- <-; reflexivity|].
    destruct (_ <? nDataImmLenStart); [injection H as <- <-; reflexivity|].
    destruct (_ || _); [discriminate|]. read_more stream_read_more. injection H as <- <-. reflexivity.
Qed.

Lemma varint_load_more s a r t : varint_load s = Some (a, r) -> varint_load (s ++ t) = Some (a, r ++ t).
Proof. apply (load_more (c := varint)). Qed.

Lemma varint_load_save v rest : 0 <= v < U64 -> varint_load (varint_save v ++ rest) = Some (v, rest).
Proof. apply (load_save (c := varint)). Qed.

#[export] Instance pod_lawful n : Lawful (pod n).
Proof.
  split; cbn [ok pod load save ser_size].
  - intros v rest Hv. rewrite (stream_read_n n) by apply length_rdig.
    now rewrite rval_rdig, Z.mod_small by lia.
  - intros v _. now rewrite length_rdig.
  - intros v _. apply rdigs_rdig. lia.
  - intros s a r t H. read_more stream_read_more. now injection H as <- <-.
Qed.

(** ** Containers *)

Lemma load_n_ok {A} (c : codec A) {Lc : Lawful c} l rest : Forall (ok c) l ->
  load_n c (length l) (flat_map (save c) l ++ rest) = Some (l, rest).
Proof.
  induction 1 as [|x l Hx _ IH]; [reflexivity|]. cbn [length load_n flat_map].
  rewrite <- app_assoc, load_save by exact Hx. now rewrite IH.
Qed.

Lemma load_n_more {A} (c : codec A) {Lc : Lawful c} n : forall s l r t,
  load_n c n s = Some (l, r) -> load_n c n (s ++ t) = Some (l, r ++ t).
Proof.
  induction n as [|n IH]; cbn [load_n]; intros s l r t H; [now injection H as <- <-|].
  read_more (load_more (c := c)). read_more IH. now injection H as <- <-.
Qed.

Lemma sum_sizes_ok {A} (c : codec A) {Lc : Lawful c} l : Forall (ok c) l ->
  sum_sizes c l = Z.of_nat (length (flat_map (save c) l)).
Proof.
  induction 1 as [|x l Hx _ IH]; [reflexivity|]. cbn [sum_sizes fold_right flat_map].
  unfold sum_sizes in IH. rewrite IH, length_app, (size_save x Hx). lia.
Qed.

Lemma flat_save_bytes {A} (c : codec A) {Lc : Lawful c} l : Forall (ok c) l ->
  rdigs 256 (flat_map (save c) l).
Proof.
  induction 1 as [|x l Hx _ IH]; cbn [flat_map]; [constructor|].
  apply rdigs_app; [apply save_bytes; exact Hx|exact IH].
Qed.

Lemma varint_size_ok v : 0 <= v < U64 -> varint_size v = Z.of_nat (length (varint_save v)).
Proof. apply (size_save (c := varint)). Qed.

Lemma varint_bytes v : 0 <= v < U64 -> rdigs 256 (varint_save v).
Proof. apply (save_bytes (c := varint)). Qed.

#[export] Instance array_lawful {A} N (c : codec A) {Lc : Lawful c} : Lawful (array N c).
Proof.
  split; cbn [ok array load save ser_size].
  - intros t rest [Ht <-]. apply load_n_ok; auto.
  - intros t [Ht _]. apply sum_sizes_ok; auto.
  - intros t [Ht _]. apply flat_save_bytes; auto.
  - intros s l r t. apply load_n_more, Lc.
Qed.

#[export] Instance pair_lawful {A C} (c1 : codec A) (c2 : codec C) {L1 : Lawful c1} {L2 : Lawful c2} :
  Lawful (pair_codec c1 c2).
Proof.
  split; cbn [ok pair_codec load save ser_size].
  - intros [x y] rest [Hx Hy]. cbn [fst snd] in *. rewrite <- app_assoc.
    rewrite (load_save x) by exact Hx. now rewrite (load_save y) by exact Hy.
  - intros [x y] [Hx Hy]. cbn [fst snd] in *. rewrite length_app, (size_save x Hx), (size_save y Hy). lia.
  - intros [x y] [Hx Hy]. apply rdigs_app; apply save_bytes; auto.
  - intros s a r t H. read_more (load_more (c := c1)). read_more (load_more (c := c2)). now injection H as <- <-.
Qed.

(** The codecs that write a count and then the elements. *)
Lemma counted_lawful {A} (c : codec A) {Lc : Lawful c} (ld : list Z -> option (list A * list Z))
    (okl : list A -> Prop) :
  (forall t, okl t -> Forall (ok c) t /\ Z.of_nat (length t) < U64) ->
  (forall t rest, okl t ->
     ld (varint_save (Z.of_nat (length t)) ++ flat_map (save c) t ++ rest) = Some (t, rest)) ->
  (forall s a r t, ld s = Some (a, r) -> ld (s ++ t) = Some (a, r ++ t)) ->
  Lawful (mk_codec (fun t => varint_save (Z.of_nat (length t)) ++ flat_map (save c) t) ld
            (fun t => varint_size (Z.of_nat (length t)) + sum_sizes c t) okl).
Proof.
  intros Hok Hld Hmore. split; [| | |exact Hmore]; cbn [ok load save ser_size].
  - intros t rest Ht. rewrite <- app_assoc. apply Hld, Ht.
  - intros t Ht. destruct (Hok t Ht) as [Hf Hl].
    rewrite length_app, varint_size_ok, sum_sizes_ok by (auto; lia). lia.
  - intros t Ht. destruct (Hok t Ht) as [Hf Hl].
    apply rdigs_app; [apply varint_bytes; lia|apply flat_save_bytes; auto].
Qed.

#[export] Instance vector_lawful {A} (c : codec A) {Lc : Lawful c} : Lawful (vector c).
Proof.
  apply counted_lawful; [exact Lc|auto| |].
  - intros t rest [Ht Hl]. rewrite varint_load_save by lia. rewrite Nat2Z.id. apply load_n_ok; auto.
  - intros s a r t H. read_more varint_load_more. now apply load_n_more.
Qed.

Lemma flat_rdig_length k l : length (flat_map (rdig 256 k) l) = (k * length l)%nat.
Proof. induction l as [|x l IH]; cbn [flat_map length]; [lia|]. rewrite length_app, length_rdig, IH. lia. Qed.

#[export] Instance vector_pod_lawful k : Lawful (vector_pod (S k)).
Proof.
  assert (M : PTRDIFF_MAX < U64) by reflexivity.
  split; cbn [ok vector_pod load save ser_size].
  - intros t rest [Ht Hl]. unfold vector_pod_load.
    rewrite <- app_assoc, varint_load_save by lia.
    destruct (Z.eqb_spec (Z.of_nat (length t)) 0) as [E|E]; [destruct t; [reflexivity|cbn in E; lia]|].
    rewrite Z.mod_small by lia. rewrite length_app, flat_rdig_length.
    rewrite (proj2 (Z.ltb_ge _ _)), (proj2 (Z.ltb_ge PTRDIFF_MAX _)) by lia.
    rewrite Nat2Z.id. apply (load_n_ok (pod (S k))). exact Ht.
  - intros t [Ht Hl]. rewrite length_app, flat_rdig_length, varint_size_ok by lia. lia.
  - intros t [Ht Hl]. apply rdigs_app; [apply varint_bytes; lia|apply (flat_save_bytes (pod (S k))); exact Ht].
  - intros s a r t H. unfold vector_pod_load in *. read_more varint_load_more.
    destruct (_ =? 0); [now injection H as <- <-|]. rewrite length_app.
    match goal with |- context [if ?x <? ?y then _ else _] => destruct (Z.ltb_spec x y) end;
      match goal with H : context [if ?x <? ?y then _ else _] |- _ => destruct (Z.ltb_spec x y); [discriminate H|] end; [lia|].
    destruct (_ <? _); [discriminate|]. apply (load_n_more (pod (S k))). exact H.
Qed.

#[export] Instance string_lawful : Lawful string.
Proof.
  assert (M : PTRDIFF_MAX < U64) by reflexivity.
  split; cbn [ok string load save ser_size].
  - intros t rest [Ht Hl]. unfold string_load. rewrite <- app_assoc, varint_load_save by lia.
    rewrite (proj2 (Z.ltb_ge _ _)) by lia. rewrite Nat2Z.id. apply stream_read_app.
  - intros t [Ht Hl]. rewrite length_app, varint_size_ok by lia. lia.
  - intros t [Ht Hl]. apply rdigs_app; [apply varint_bytes; lia|exact Ht].
  - intros s a r t H. unfold string_load in *. read_more varint_load_more.
    destruct (_ <? _); [discriminate|]. now apply stream_read_more.
Qed.

(** ** Ordered containers *)

Section OrderedOk.
Context {K : Type} (ltb : K -> K -> bool).
Hypothesis ltb_asym : forall x y, ltb x y = true -> ltb y x = false.

Lemma set_insert_last x l : Forall (fun y => ltb y x = true) l -> set_insert ltb x l = l ++ [x].
Proof.
  induction 1 as [|y l Hy _ IH]; cbn [set_insert app]; [reflexivity|].
  now rewrite (ltb_asym y x Hy), Hy, IH.
Qed.

Lemma map_insert_last {V} (p : K * V) l : Forall (fun q => key_lt ltb q p) l ->
  map_insert ltb p l = l ++ [p].
Proof.
  unfold key_lt. induction 1 as [|y l Hy _ IH]; cbn [map_insert app]; [reflexivity|].
  now rewrite (ltb_asym _ _ Hy), Hy, IH.
Qed.

Lemma multimap_insert_last {V} (p : K * V) l : Forall (fun q => key_le ltb q p) l ->
  multimap_insert ltb p l = l ++ [p].
Proof.
  unfold key_le. induction 1 as [|y l Hy _ IH]; cbn [multimap_insert app]; [reflexivity|].
  now rewrite Hy, IH.
Qed.

(** Loading the elements of a sorted container one by one rebuilds it. *)
Lemma load_insert_ok {A} (c : codec A) {Lc : Lawful c} (R : A -> A -> Prop) insert :
  (forall x l, Forall (fun y => R y x) l -> insert x l = l ++ [x]) ->
  forall l t rest, Forall (ok c) l -> StronglySorted R (t ++ l) ->
  load_insert c insert (length l) t (flat_map (save c) l ++ rest) = Some (t ++ l, rest).
Proof.
  intros Hins. induction l as [|x l IH]; intros t rest Hok Hs; cbn [length load_insert flat_map].
  - now rewrite app_nil_r.
  - inversion Hok as [|? ? Hx Hl]; subst. rewrite <- app_assoc, load_save by exact Hx.
    rewrite Hins.
    + rewrite IH by (try exact Hl; now rewrite <- app_assoc). now rewrite <- app_assoc.
    + clear -Hs. induction t as [|y t IHt]; [constructor|]. inversion Hs as [|? ? Hs' Hy]; subst.
      constructor; [|apply IHt; exact Hs']. rewrite Forall_app in Hy. destruct Hy as [_ Hy]. now inversion Hy.
Qed.

Lemma load_insert_more {A} (c : codec A) {Lc : Lawful c} insert n : forall l s l' r t,
  load_insert c insert n l s = Some (l', r) -> load_insert c insert n l (s ++ t) = Some (l', r ++ t).
Proof.
  induction n as [|n IH]; cbn [load_insert]; intros l s l' r t H; [now injection H as <- <-|].
  read_more (load_more (c := c)). now apply IH.
Qed.

Lemma container_lawful {A} (c : codec A) {Lc : Lawful c} (R : A -> A -> Prop) insert :
  (forall x l, Forall (fun y => R y x) l -> insert x l = l ++ [x]) ->
  Lawful (container c insert (StronglySorted R)).
Proof.
  intros Hins. apply counted_lawful; [exact Lc|tauto| |].
  - intros t rest (Ht & Hs & Hl). unfold container_load. rewrite varint_load_save by lia. rewrite Nat2Z.id.
    apply (load_insert_ok c R insert Hins t []); auto.
  - intros s a r t H. unfold container_load in *. read_more varint_load_more. now apply load_insert_more.
Qed.

#[export] Instance set_lawful (c : codec K) {Lc : Lawful c} : Lawful (set_codec ltb c).
Proof. apply container_lawful; [exact Lc|]. apply set_insert_last. Qed.

#[export] Instance map_lawful {V} (c : codec K) (d : codec V) {Lc : Lawful c} {Ld : Lawful d} :
  Lawful (map_codec ltb c d).
Proof. apply container_lawful; [exact _|]. apply map_insert_last. Qed.

#[export] Instance multimap_lawful {V} (c : codec K) (d : codec V) {Lc : Lawful c} {Ld : Lawful d} :
  Lawful (multimap_codec ltb c d).
Proof. apply container_lawful; [exact _|]. apply multimap_insert_last. Qed.

End OrderedOk.
