(* ===== verification/UInt256.v ===== *)
(** * Fixed-width unsigned integers: crypto/uint256.h

    [base_uint<BITS>] keeps a number in [WIDTH = BITS / 32] words of 32 bits, least
    significant first; hashes, addresses, amounts and prices of the node are values
    of its instances.  A [base_uint] is the list of its words.  Multiplication and
    division of [uint256] go through Boost's [uint256_t], a parameter here. *)

From Stdlib Require Import ZArith List Lia Bool.
From S2P Require Import Prelude Radix Stream.
Import ListNotations.
Local Open Scope Z_scope.

Definition WORD : Z := 2 ^ 32.

(** Conversion to [unsigned int]. *)
Definition word (z : Z) : Z := z mod WORD.

(** A [base_uint] of [W] words. *)
Definition uint (W : nat) (a : list Z) : Prop := length a = W /\ rdigs WORD a.

Definition value (a : list Z) : Z := rval WORD a.

(** ** Operators *)

Definition op_not (a : list Z) : bool := forallb (fun w => w =? 0) a.

Definition op_compl (a : list Z) : list Z := map (fun w => word (Z.lnot w)) a.

(** while (++pn[i] == 0 && i < WIDTH - 1) i++; *)
Fixpoint incr (a : list Z) : list Z :=
  match a with
  | [] => []
  | w :: a' => let w' := word (w + 1) in if w' =? 0 then w' :: incr a' else w' :: a'
  end.

(** while (--pn[i] == -1 && i < WIDTH - 1) i++; *)
Fixpoint decr (a : list Z) : list Z :=
  match a with
  | [] => []
  | w :: a' => let w' := word (w - 1) in if w' =? word (-1) then w' :: decr a' else w' :: a'
  end.

Definition op_neg (a : list Z) : list Z := incr (op_compl a).

(** operator=(int8 ... uint32): pn[0] = b, the other words 0. *)
Definition assign32 (W : nat) (b : Z) : list Z := word b :: repeat 0 (W - 1).

(** operator=(int64), operator=(uint64) and the constructors from 64 bits. *)
Definition assign64 (W : nat) (b : Z) : list Z := word b :: word (Z.shiftr b 32) :: repeat 0 (W - 2).

Definition zip_words (f : Z -> Z -> Z) (a b : list Z) : list Z :=
  map (fun p => f (fst p) (snd p)) (combine a b).

Definition op_xor (a b : list Z) : list Z := zip_words Z.lxor a b.
Definition op_and (a b : list Z) : list Z := zip_words Z.land a b.
Definition op_or (a b : list Z) : list Z := zip_words Z.lor a b.

(** operator^=(uint64), operator|=(uint64) *)
Definition op64 (f : Z -> Z -> Z) (a : list Z) (b : Z) : list Z :=
  upd (upd a 0 (f (nth 0 a 0) (word b))) 1 (f (nth 1 a 0) (word (Z.shiftr b 32))).
Definition op_xor64 := op64 Z.lxor.
Definition op_or64 := op64 Z.lor.

(** One iteration of operator<<=. *)
Definition shl_step (W k : nat) (shift : Z) (a : list Z) (pn : list Z) (i : nat) : list Z :=
  let pn :=
    if (i + k + 1 <? W)%nat && negb (shift =? 0)
    then upd pn (i + k + 1) (Z.lor (nth (i + k + 1) pn 0) (Z.shiftr (nth i a 0) (32 - shift)))
    else pn in
  if (i + k <? W)%nat then upd pn (i + k) (Z.lor (nth (i + k) pn 0) (word (Z.shiftl (nth i a 0) shift)))
  else pn.

Definition op_shl (a : list Z) (shift : Z) : list Z :=
  let W := length a in
  fold_left (shl_step W (Z.to_nat (shift / 32)) (shift mod 32) a) (seq 0 W) (repeat 0 W).

(** One iteration of operator>>=. *)
Definition shr_step (k : nat) (shift : Z) (a : list Z) (pn : list Z) (i : nat) : list Z :=
  let pn :=
    if (k + 1 <=? i)%nat && negb (shift =? 0)
    then upd pn (i - k - 1) (Z.lor (nth (i - k - 1) pn 0) (word (Z.shiftl (nth i a 0) (32 - shift))))
    else pn in
  if (k <=? i)%nat then upd pn (i - k) (Z.lor (nth (i - k) pn 0) (Z.shiftr (nth i a 0) shift))
  else pn.

Definition op_shr (a : list Z) (shift : Z) : list Z :=
  let W := length a in
  fold_left (shr_step (Z.to_nat (shift / 32)) (shift mod 32) a) (seq 0 W) (repeat 0 W).

(** operator+=: uint64 n = carry + pn[i] + b.pn[i] *)
Fixpoint add_loop (a b : list Z) (carry : Z) : list Z :=
  match a, b with
  | x :: a', y :: b' =>
      let n := (carry + x + y) mod U64 in
      Z.land n (Z.ones 32) :: add_loop a' b' (Z.shiftr n 32)
  | _, _ => []
  end.

Definition op_add (a b : list Z) : list Z := add_loop a b 0.
Definition op_sub (a b : list Z) : list Z := op_add a (op_neg b).
Definition op_add64 (a : list Z) (b64 : Z) : list Z := op_add a (assign64 (length a) b64).
Definition op_sub64 (a : list Z) (b64 : Z) : list Z := op_add a (op_neg (assign64 (length a) b64)).

(** The comparisons run from the most significant word; [eq] is the answer for
    equal words throughout. *)
Fixpoint compare_words (lt eq : bool) (a b : list Z) : bool :=
  match a, b with
  | x :: a', y :: b' => if x <? y then lt else if y <? x then negb lt else compare_words lt eq a' b'
  | _, _ => eq
  end.

Definition op_lt (a b : list Z) : bool := compare_words true false (rev a) (rev b).
Definition op_le (a b : list Z) : bool := compare_words true true (rev a) (rev b).
Definition op_gt (a b : list Z) : bool := compare_words false false (rev a) (rev b).
Definition op_ge (a b : list Z) : bool := compare_words false true (rev a) (rev b).

Fixpoint op_eq (a b : list Z) : bool :=
  match a, b with
  | x :: a', y :: b' => if x =? y then op_eq a' b' else false
  | _, _ => true
  end.

(** operator==(a, uint64) *)
Definition op_eq64 (a : list Z) (b : Z) : bool :=
  if negb (nth 0 a 0 =? word b) then false
  else if negb (nth 1 a 0 =? word (Z.shiftr b 32)) then false
  else forallb (fun w => w =? 0) (skipn 2 a).

Definition SetNull (a : list Z) : list Z := repeat 0 (length a).
Definition IsNull (a : list Z) : bool := forallb (fun w => w =? 0) a.

(** ** Words and pairs of words *)

Definition Set32 (a : list Z) (n d : Z) : result (list Z) :=
  if (n <? 0) || (Z.of_nat (length a) <=? n) then Throw runtime_error else Ok (upd a (Z.to_nat n) d).

Definition Get32 (a : list Z) (n : Z) : result Z :=
  if (n <? 0) || (Z.of_nat (length a) <=? n) then Throw runtime_error else Ok (nth (Z.to_nat n) a 0).

(** The guard looks at word [2 * n] only; word [2 * n + 1] is accessed too. *)
Definition Set64 (a : list Z) (n d : Z) : result (list Z) :=
  if (n * 2 <? 0) || (Z.of_nat (length a) <=? n * 2) then Throw runtime_error
  else if Z.of_nat (length a) <=? 2 * n + 1 then Undef
  else Ok (upd (upd a (Z.to_nat (2 * n)) (Z.land d (Z.ones 32))) (Z.to_nat (2 * n + 1)) (word (Z.shiftr d 32))).

Definition Get64 (a : list Z) (n : Z) : result Z :=
  if (n * 2 <? 0) || (Z.of_nat (length a) <=? n * 2) then Throw runtime_error
  else if Z.of_nat (length a) <=? 2 * n + 1 then Undef
  else Ok (Z.lor (nth (Z.to_nat (2 * n)) a 0) (Z.shiftl (nth (Z.to_nat (2 * n + 1)) a 0) 32)).

(** ** Bytes: the words as they lie in memory, least significant byte first *)

Definition bytes_of (a : list Z) : list Z := flat_map (rdig 256 4) a.

Definition words_of (W : nat) (bs : list Z) : list Z :=
  map (fun i => rval 256 (firstn 4 (skipn (4 * i) bs))) (seq 0 W).

Definition SetBytes (a : list Z) (data : list Z) : list Z * nat :=
  if (length data =? 4 * length a)%nat then (words_of (length a) data, length data) else (a, O).

Definition GetBytes (a : list Z) : list Z := bytes_of a.

(** for (i = 0; i < bsize; i++) buf[bsize - i - 1] = p[i] *)
Definition ToBigEndian (a : list Z) : list Z :=
  let p := bytes_of a in map (fun i => nth (length p - i - 1) p 0) (seq 0 (length p)).

(** Drops the leading zero bytes. *)
Fixpoint drop_zeros (l : list Z) : list Z :=
  match l with
  | [] => []
  | b :: l' => if b =? 0 then drop_zeros l' else l
  end.

Definition ToValidBigEndianData (a : list Z) : list Z := drop_zeros (ToBigEndian a).

Definition FromBigEndian (a buf : list Z) : list Z :=
  if (length buf =? 4 * length a)%nat
  then words_of (length a) (map (fun i => nth (length buf - i - 1) buf 0) (seq 0 (length buf)))
  else a.

Definition FromValidBigEndianData (a data : list Z) : list Z :=
  if (4 * length a <=? length data)%nat then FromBigEndian a data
  else FromBigEndian a (repeat 0 (4 * length a - length data) ++ data).

(** reverse(): swaps bytes from both ends. *)
Definition reverse (a : list Z) : list Z :=
  let p := bytes_of a in words_of (length a) (reverse_loop (length p) p 0 (length p - 1)).

Definition GetByteIndex (a : list Z) : Z := fold_left Z.lxor (bytes_of a) 0.
Definition GetInt32Index (a : list Z) : Z := fold_left Z.lxor a 0.

Fixpoint int64_index (n i : nat) (a : list Z) (nIndex : Z) : result Z :=
  match n with
  | O => Ok nIndex
  | S n' => let! d := Get64 a (Z.of_nat i) in int64_index n' (S i) a (Z.lxor nIndex d)
  end.
Definition GetInt64Index (a : list Z) : result Z := int64_index (length a / 2) 0 a 0.

(** Serialize: most significant byte first. *)
Definition base_uint (W : nat) : codec (list Z) :=
  mk_codec
    (fun a => map (fun i => nth (length (bytes_of a) - i - 1) (bytes_of a) 0) (seq 0 (length (bytes_of a))))
    (fun s => let? (us, s) := stream_read (4 * W) s in
       Some (words_of W (map (fun i => nth (4 * W - i - 1) us 0) (seq 0 (4 * W))), s))
    (fun _ => Z.of_nat (4 * W))
    (uint W).

(** ** Hexadecimal text *)

(** The character of a hexadecimal digit ("%x"), and the table [phexdigit]. *)
Definition hexchar (d : Z) : Z := if d <? 10 then 48 + d else 87 + d.

Definition phexdigit (c : Z) : Z :=
  if (48 <=? c) && (c <=? 57) then c - 48
  else if (65 <=? c) && (c <=? 70) then c - 55
  else if (97 <=? c) && (c <=? 102) then c - 87
  else 0.

Definition is_hex (c : Z) : bool := negb (phexdigit c =? 0) || (c =? 48).

Definition isspace (c : Z) : bool := (c =? 32) || ((9 <=? c) && (c <=? 13)).

Fixpoint skip_spaces (s : list Z) : list Z :=
  match s with
  | c :: s' => if isspace c then skip_spaces s' else s
  | [] => []
  end.

(** if (psz[0] == '0' && tolower(psz[1]) == 'x') psz += 2; *)
Definition skip_0x (s : list Z) : list Z :=
  match s with
  | c :: d :: s' => if (c =? 48) && ((d =? 120) || (d =? 88)) then s' else s
  | _ => s
  end.

Definition byte_hex (b : Z) : list Z := [hexchar (b / 16); hexchar (b mod 16)].

(** GetHex(): "0x", then the bytes in memory order. *)
Definition GetHex (a : list Z) : list Z := 48 :: 120 :: flat_map byte_hex (bytes_of a).

(** while (p < pend): at most [n] bytes, two characters each; returns the bytes
    written and the text left. *)
Fixpoint sethex_loop (n : nat) (s : list Z) : list Z * list Z :=
  match n, s with
  | S n', c :: s' =>
      if is_hex c then
        let b := Z.shiftl (phexdigit c) 4 mod 256 in
        match s' with
        | d :: s'' =>
            if is_hex d then
              let '(bs, rest) := sethex_loop n' s'' in (Z.lor b (phexdigit d) :: bs, rest)
            else ([b], s')
        | [] => ([b], s')
        end
      else ([], s)
  | _, _ => ([], s)
  end.

(** SetHex(psz): the number and the length consumed. *)
Definition SetHex (W : nat) (psz : list Z) : list Z * nat :=
  let '(bs, rest) := sethex_loop (4 * W) (skip_0x (skip_spaces psz)) in
  (words_of W (bs ++ repeat 0 (4 * W - length bs)), (length psz - length rest)%nat).

(** GetValueHex(): from the most significant non-zero byte, "%x" first and "%02x" after. *)
Definition GetValueHex (a : list Z) : list Z :=
  48 :: 120 ::
  match drop_zeros (rev (bytes_of a)) with
  | [] => [48]
  | b :: bs => (if b <? 16 then [hexchar b] else byte_hex b) ++ flat_map byte_hex bs
  end.

(** The run of hexadecimal digits at the front. *)
Fixpoint hex_run (s : list Z) : list Z :=
  match s with
  | c :: s' => if is_hex c then c :: hex_run s' else []
  | [] => []
  end.

(** while (psz >= pbegin && p1 < pend): the digits from the last one backwards, two a byte. *)
Fixpoint setvalue_loop (n : nat) (s : list Z) : list Z :=
  match n, s with
  | S n', c :: d :: s' => Z.lor (phexdigit c) (Z.shiftl (phexdigit d) 4 mod 256) :: setvalue_loop n' s'
  | S _, [c] => [phexdigit c]
  | _, _ => []
  end.

Definition SetValueHex (W : nat) (psz : list Z) : list Z * nat :=
  let s := skip_0x (skip_spaces psz) in
  let run := hex_run s in
  let bs := setvalue_loop (4 * W) (rev run) in
  (words_of W (bs ++ repeat 0 (4 * W - length bs)), (length psz - length s + length run)%nat).

(** ** uint256 *)

(** boost::multiprecision::uint256_t: unsigned numbers of 256 bits. *)
Class uint256_t := {
  m_add : Z -> Z -> Z;
  m_mul : Z -> Z -> Z;
  m_div : Z -> Z -> result Z;
  m_shl : Z -> Z -> Z;
  m_shr : Z -> Z -> Z;
  m_and : Z -> Z -> Z
}.

Definition U256 : Z := 2 ^ 256.

(** The documented behaviour of the unchecked type: arithmetic modulo 2^256, division
    rounding down, an exception for a zero divisor. *)
Class uint256_t_ok (M : uint256_t) : Prop := {
  m_add_ok : forall x y, 0 <= x < U256 -> 0 <= y < U256 -> m_add x y = (x + y) mod U256;
  m_mul_ok : forall x y, 0 <= x < U256 -> 0 <= y < U256 -> m_mul x y = (x * y) mod U256;
  m_div_ok : forall x y, 0 <= x < U256 -> 0 < y < U256 -> m_div x y = Ok (x / y);
  m_div_zero : forall x, m_div x 0 = Throw overflow_error;
  m_shl_ok : forall x n, 0 <= x < U256 -> 0 <= n -> m_shl x n = (x * 2 ^ n) mod U256;
  m_shr_ok : forall x n, 0 <= x < U256 -> 0 <= n -> m_shr x n = x / 2 ^ n;
  m_and_ok : forall x y, 0 <= x < U256 -> 0 <= y < U256 -> m_and x y = Z.land x y
}.

Section UInt256.
Context {M : uint256_t}.

(** for (i = 7; i >= 0; i--) { ma += a.Get32(i); if (i > 0) ma <<= 32; } *)
Fixpoint to_m (ws : list Z) (m : Z) : Z :=
  match ws with
  | [] => m
  | w :: ws' => let m := m_add m w in to_m ws' (match ws' with [] => m | _ => m_shl m 32 end)
  end.
Definition GetMuint256 (a : list Z) : Z := to_m (rev a) 0.

(** for (i = 0; i < 8; i++) { c[i] = ma & 0xffffffff; ma >>= 32; } *)
Fixpoint of_m (n : nat) (m : Z) : list Z :=
  match n with
  | O => []
  | S n' => word (m_and m (WORD - 1)) :: of_m n' (m_shr m 32)
  end.
Definition SetMuint256 (m : Z) : list Z := of_m 8 m.

Definition op_mul (a b : list Z) : list Z := SetMuint256 (m_mul (GetMuint256 a) (GetMuint256 b)).

Definition op_div (a b : list Z) : result (list Z) :=
  let! m := m_div (GetMuint256 a) (GetMuint256 b) in Ok (SetMuint256 m).

End UInt256.

(** uint256(b1, b2, b3, n): three variable-length integers over the front of the
    bytes of [n]. *)
Definition uint256_of (b1 b2 b3 : Z) (n : list Z) : list Z :=
  let ss := varint_save b1 ++ varint_save b2 ++ varint_save b3 in
  words_of 8 (ss ++ skipn (length ss) (bytes_of n)).

(** ss >> varB1 >> varB2 >> varB3 *)
Definition load_b123 (h : list Z) : option (Z * Z * Z) :=
  let? (b1, s) := varint_load (bytes_of h) in
  let? (b2, s) := varint_load s in
  let? (b3, _) := varint_load s in
  Some (b1, b2, b3).

Definition GetB1 (h : list Z) : Z :=
  match load_b123 h with Some (b1, _, _) => b1 mod 2 ^ 32 | None => 0 end.
Definition GetB2 (h : list Z) : Z :=
  match load_b123 h with Some (_, b2, _) => b2 mod 2 ^ 32 | None => 0 end.
Definition GetB3 (h : list Z) : Z :=
  match load_b123 h with Some (_, _, b3) => b3 mod 2 ^ 16 | None => 0 end.

(** uint2048(const uint256& b): for (i = 0; i < WIDTH; i++) pn[i] = b.pn[i], with the
    WIDTH of uint2048. *)
Definition uint2048_of_uint256 (b : list Z) : result (list Z) :=
  if (length b <? 64)%nat then Undef else Ok (firstn 64 b).
