(* ===== verification/UInt256Ok.v ===== *)
(** * [base_uint] refines arithmetic modulo 2^BITS

    Every operator of crypto/uint256.h computes, on lists of words, the operation of
    the same name on integers modulo [2^(32 * WIDTH)]; the textual and binary forms
    round-trip; the chain, height and slot written into a block hash are read back. *)

From Stdlib Require Import ZArith List Lia Bool.
From S2P Require Import Prelude Radix Stream UInt256.
Import ListNotations.
Local Open Scope Z_scope.

Lemma WORD_pos : 0 < WORD.
Proof. reflexivity. Qed.

Lemma word_bound z : 0 <= word z < WORD.
Proof. apply Z.mod_pos_bound. exact WORD_pos. Qed.

(** The number of values of a [base_uint] of [W] words. *)
Definition UMAX (W : nat) : Z := WORD ^ Z.of_nat W.

Lemma UMAX_pos W : 0 < UMAX W.
Proof. apply Z.pow_pos_nonneg; [exact WORD_pos|lia]. Qed.

Lemma UMAX_S W : UMAX (S W) = WORD * UMAX W.
Proof. unfold UMAX. rewrite Nat2Z.inj_succ, Z.pow_succ_r; lia. Qed.

Lemma UMAX_pow2 W : UMAX W = 2 ^ (32 * Z.of_nat W).
Proof. unfold UMAX, WORD. rewrite <- Z.pow_mul_r; lia. Qed.

Lemma value_bound W a : uint W a -> 0 <= value a < UMAX W.
Proof. intros [<- H]. apply rval_bound; [exact WORD_pos|exact H]. Qed.

Lemma value_inj W a b : uint W a -> uint W b -> value a = value b -> a = b.
Proof. intros [Ha1 Ha2] [Hb1 Hb2] E. apply (rval_inj WORD); auto using WORD_pos. congruence. Qed.

Lemma uint_cons W w a : uint (S W) (w :: a) -> 0 <= w < WORD /\ uint W a.
Proof. intros [HL H]. injection HL as HL. inversion H; subst. split; [assumption|split; auto]. Qed.

Lemma uint_cons' W w a : 0 <= w < WORD -> uint W a -> uint (S W) (w :: a).
Proof. intros Hw [HL H]. split; [cbn; lia|constructor; auto]. Qed.

Lemma uint_nil : uint 0 [].
Proof. split; [reflexivity|constructor]. Qed.

Lemma uint_0 a : uint 0 a -> a = [].
Proof. intros [H _]. now destruct a. Qed.

#[export] Hint Resolve uint_cons' uint_nil word_bound : radix.

(** ** Sums and differences *)

Lemma mod_cons w v k : 0 <= w < WORD -> 0 < k -> (w + WORD * v) mod (WORD * k) = w + WORD * (v mod k).
Proof.
  intros Hw Hk. pose proof WORD_pos. rewrite Z.rem_mul_r, (Z.mul_comm WORD v) by lia.
  rewrite Z.mod_add, Z.mod_small, Z.div_add, Z.div_small by lia. f_equal.
Qed.

Lemma add_loop_ok W : forall a b c, uint W a -> uint W b -> 0 <= c <= 1 ->
  uint W (add_loop a b c) /\ value (add_loop a b c) = (value a + value b + c) mod UMAX W.
Proof.
  induction W as [|W IH]; intros a b c Ha Hb Hc.
  - apply uint_0 in Ha, Hb. subst. split; [exact uint_nil|]. unfold UMAX. cbn. now rewrite Z.mod_1_r.
  - destruct a as [|x a], b as [|y b]; try (destruct Ha; discriminate); try (destruct Hb; discriminate).
    apply uint_cons in Ha as [Hx Ha], Hb as [Hy Hb]. cbn [add_loop].
    assert (HS : 0 <= c + x + y < U64) by (unfold WORD, U64 in *; lia).
    rewrite (Z.mod_small _ U64) by exact HS. rewrite Z.land_ones, Z.shiftr_div_pow2 by lia.
    fold WORD. set (n := c + x + y) in *.
    assert (Hc' : 0 <= n / WORD <= 1).
    { split; [apply Z.div_pos; [lia|exact WORD_pos]|].
      cut (n / WORD < 2); [lia|]. apply Z.div_lt_upper_bound; [exact WORD_pos|lia]. }
    destruct (IH a b (n / WORD) Ha Hb Hc') as [Hu Hv].
    split; [apply uint_cons'; [apply Z.mod_pos_bound; exact WORD_pos|exact Hu]|].
    unfold value in *. cbn [rval]. rewrite Hv, UMAX_S.
    rewrite <- mod_cons by (try apply UMAX_pos; apply Z.mod_pos_bound; exact WORD_pos).
    f_equal. subst n. pose proof (Z.div_mod (c + x + y) WORD ltac:(discriminate)). lia.
Qed.

Lemma op_add_ok W a b : uint W a -> uint W b ->
  uint W (op_add a b) /\ value (op_add a b) = (value a + value b) mod UMAX W.
Proof.
  intros Ha Hb. destruct (add_loop_ok W a b 0 Ha Hb ltac:(lia)) as [Hu Hv].
  split; [exact Hu|]. unfold op_add. now rewrite Hv, Z.add_0_r.
Qed.

Lemma op_compl_ok W : forall a, uint W a ->
  uint W (op_compl a) /\ value (op_compl a) = UMAX W - 1 - value a.
Proof.
  induction W as [|W IH]; intros a Ha.
  - apply uint_0 in Ha. subst. split; [exact uint_nil|reflexivity].
  - destruct a as [|x a]; [destruct Ha; discriminate|]. apply uint_cons in Ha as [Hx Ha].
    destruct (IH a Ha) as [Hu Hv]. unfold op_compl in *. cbn [map].
    split; [apply uint_cons'; auto with radix|]. unfold value in *. cbn [rval]. rewrite Hv, UMAX_S.
    replace (word (Z.lnot x)) with (WORD - 1 - x); [lia|].
    unfold word. replace (Z.lnot x) with (- x - 1) by (pose proof (Z.add_lnot_diag x); lia). apply Z.mod_unique with (-1); lia.
Qed.

Lemma incr_ok W : forall a, uint W a -> uint W (incr a) /\ value (incr a) = (value a + 1) mod UMAX W.
Proof.
  induction W as [|W IH]; intros a Ha.
  - apply uint_0 in Ha. subst. split; [exact uint_nil|reflexivity].
  - destruct a as [|x a]; [destruct Ha; discriminate|]. apply uint_cons in Ha as [Hx Ha].
    destruct (IH a Ha) as [Hu Hv]. pose proof (value_bound W a Ha) as Hb. unfold value in *.
    cbn [incr]. rewrite UMAX_S. destruct (Z.eq_dec x (WORD - 1)) as [->|Hn].
    + replace (word (WORD - 1 + 1)) with 0 by reflexivity. cbn [Z.eqb rval].
      split; [apply uint_cons'; [split; [lia|exact WORD_pos]|exact Hu]|].
      rewrite Hv, <- mod_cons by first [apply UMAX_pos | split; [lia|exact WORD_pos]]. f_equal. lia.
    + unfold word. rewrite Z.mod_small by lia. rewrite (proj2 (Z.eqb_neq _ _)) by lia. cbn [rval].
      split; [apply uint_cons'; [lia|exact Ha]|].
      replace (x + WORD * rval WORD a + 1) with (x + 1 + WORD * rval WORD a) by lia.
      rewrite mod_cons, (Z.mod_small (rval WORD a)) by (try apply UMAX_pos; lia). reflexivity.
Qed.

Lemma decr_ok W : forall a, uint W a -> uint W (decr a) /\ value (decr a) = (value a - 1) mod UMAX W.
Proof.
  induction W as [|W IH]; intros a Ha.
  - apply uint_0 in Ha. subst. split; [exact uint_nil|reflexivity].
  - destruct a as [|x a]; [destruct Ha; discriminate|]. apply uint_cons in Ha as [Hx Ha].
    destruct (IH a Ha) as [Hu Hv]. pose proof (value_bound W a Ha) as Hb. unfold value in *.
    cbn [decr]. rewrite UMAX_S. change (word (-1)) with (WORD - 1).
    destruct (Z.eq_dec x 0) as [->|Hn].
    + change (word (0 - 1)) with (WORD - 1). rewrite Z.eqb_refl. cbn [rval].
      split; [apply uint_cons'; [pose proof WORD_pos; lia|exact Hu]|].
      rewrite Hv, <- mod_cons by (try apply UMAX_pos; pose proof WORD_pos; lia). f_equal. lia.
    + unfold word. rewrite Z.mod_small by lia. rewrite (proj2 (Z.eqb_neq _ _)) by lia. cbn [rval].
      split; [apply uint_cons'; [lia|exact Ha]|].
      replace (x + WORD * rval WORD a - 1) with (x - 1 + WORD * rval WORD a) by lia.
      rewrite mod_cons, (Z.mod_small (rval WORD a)) by (try apply UMAX_pos; lia). reflexivity.
Qed.

Lemma op_neg_ok W a : uint W a -> uint W (op_neg a) /\ value (op_neg a) = (- value a) mod UMAX W.
Proof.
  intros Ha. destruct (op_compl_ok W a Ha) as [Hc Vc]. destruct (incr_ok W _ Hc) as [Hi Vi].
  split; [exact Hi|]. unfold op_neg. rewrite Vi, Vc. pose proof (UMAX_pos W).
  replace (UMAX W - 1 - value a + 1) with (- value a + 1 * UMAX W) by lia. apply Z.mod_add. lia.
Qed.

Lemma op_sub_ok W a b : uint W a -> uint W b ->
  uint W (op_sub a b) /\ value (op_sub a b) = (value a - value b) mod UMAX W.
Proof.
  intros Ha Hb. destruct (op_neg_ok W b Hb) as [Hn Vn]. destruct (op_add_ok W a _ Ha Hn) as [Hs Vs].
  split; [exact Hs|]. unfold op_sub. rewrite Vs, Vn. pose proof (UMAX_pos W).
  rewrite Z.add_mod_idemp_r by lia. f_equal; lia.
Qed.

Lemma assign64_ok W b : 0 <= b < U64 -> uint (S (S W)) (assign64 (S (S W)) b) /\
  value (assign64 (S (S W)) b) = b.
Proof.
  intros Hb. unfold assign64, value, word. cbn [Nat.sub rval].
  replace (W - 0)%nat with W by lia. rewrite rval_repeat0, Z.shiftr_div_pow2 by lia.
  change (2 ^ 32) with WORD. split.
  - apply uint_cons'; [apply word_bound|]. apply uint_cons'; [apply word_bound|].
    split; [apply repeat_length|apply rdigs_repeat0; exact WORD_pos].
  - rewrite (Z.mod_small (b / WORD)).
    + pose proof (Z.div_mod b WORD ltac:(discriminate)). lia.
    + split; [apply Z.div_pos; [lia|exact WORD_pos]|]. apply Z.div_lt_upper_bound; [exact WORD_pos|exact (proj2 Hb)].
Qed.

(** ** Comparisons *)

Lemma value_snoc a x : value (a ++ [x]) = value a + UMAX (length a) * x.
Proof. unfold value. rewrite rval_app. cbn [rval]. fold (UMAX (length a)). lia. Qed.

Lemma uint_snoc W a x : uint (S W) (a ++ [x]) -> uint W a /\ 0 <= x < WORD.
Proof.
  intros [HL H]. rewrite length_app in HL. cbn in HL. apply Forall_app in H as [H1 H2].
  inversion H2; subst. split; [split; [lia|exact H1]|assumption].
Qed.

Lemma compare_words_ok W lt eq : forall a b, uint W a -> uint W b ->
  compare_words lt eq (rev a) (rev b) =
  if value a <? value b then lt else if value b <? value a then negb lt else eq.
Proof.
  induction W as [|W IH]; intros a b Ha Hb.
  - apply uint_0 in Ha, Hb. subst. reflexivity.
  - destruct a as [|x a] using rev_ind; [destruct Ha; discriminate|]. clear IHa.
    destruct b as [|y b] using rev_ind; [destruct Hb; discriminate|]. clear IHb.
    apply uint_snoc in Ha as [Ha Hx], Hb as [Hb Hy]. rewrite !rev_app_distr. cbn [rev app compare_words].
    rewrite !value_snoc. pose proof (value_bound W a Ha). pose proof (value_bound W b Hb).
    rewrite (proj1 Ha), (proj1 Hb).
    destruct (Z.ltb_spec x y).
    + rewrite (proj2 (Z.ltb_lt _ _)) by nia. reflexivity.
    + destruct (Z.ltb_spec y x).
      * rewrite (proj2 (Z.ltb_ge (value a + _) _)), (proj2 (Z.ltb_lt (value b + _) _)) by nia. reflexivity.
      * assert (x = y) by lia. subst y. rewrite IH by auto.
        destruct (Z.ltb_spec (value a) (value b)).
        -- rewrite (proj2 (Z.ltb_lt _ _)) by lia. reflexivity.
        -- rewrite (proj2 (Z.ltb_ge (value a + _) _)) by lia.
           destruct (Z.ltb_spec (value b) (value a)).
           ++ rewrite (proj2 (Z.ltb_lt _ _)) by lia. reflexivity.
           ++ rewrite (proj2 (Z.ltb_ge _ _)) by lia. reflexivity.
Qed.

Lemma op_eq_ok W : forall a b, uint W a -> uint W b -> op_eq a b = (value a =? value b).
Proof.
  intros a b Ha Hb. destruct (Z.eqb_spec (value a) (value b)) as [E|E].
  - apply (value_inj W) in E; auto. subst b. clear. induction a as [|x a IH]; cbn; [reflexivity|].
    now rewrite Z.eqb_refl.
  - assert (HL : length a = length b) by (destruct Ha, Hb; congruence).
    clear Ha Hb. revert b HL E. induction a as [|x a IH]; intros [|y b] HL E; try discriminate; cbn.
    + now contradiction E.
    + destruct (Z.eqb_spec x y) as [->|]; [|reflexivity]. apply IH; [now injection HL|].
      intros E'. apply E. unfold value in *. cbn [rval]. now rewrite E'.
Qed.

(** The five comparisons decide the order of the values. *)
Lemma comparisons_ok W a b : uint W a -> uint W b ->
  op_lt a b = (value a <? value b) /\ op_le a b = (value a <=? value b) /\
  op_gt a b = (value b <? value a) /\ op_ge a b = (value b <=? value a) /\
  op_eq a b = (value a =? value b).
Proof.
  intros Ha Hb. unfold op_lt, op_le, op_gt, op_ge. rewrite !(compare_words_ok W) by auto.
  rewrite (op_eq_ok W) by auto.
  destruct (Z.ltb_spec (value a) (value b)), (Z.ltb_spec (value b) (value a)),
    (Z.leb_spec (value a) (value b)), (Z.leb_spec (value b) (value a)); repeat split; try lia.
Qed.

(** ** Shifts and bitwise operators *)

Lemma value_bits a n : rdigs WORD a -> 0 <= n ->
  Z.testbit (value a) n = Z.testbit (nth (Z.to_nat (n / 32)) a 0) (n mod 32).
Proof. intros Ha Hn. apply testbit_rval; [lia|exact Ha|exact Hn]. Qed.

Lemma word_bits z b : 0 <= b < 32 -> Z.testbit (word z) b = Z.testbit z b.
Proof. intros Hb. unfold word, WORD. apply Z.mod_pow2_bits_low. lia. Qed.

Lemma bits_high x b : 0 <= x < WORD -> 32 <= b -> Z.testbit x b = false.
Proof.
  intros Hx Hb. destruct (Z.eq_dec x 0) as [->|]; [apply Z.bits_0|]. apply Z.bits_above_log2; [lia|].
  apply Z.log2_lt_pow2; [lia|]. unfold WORD in Hx. pose proof (Z.pow_le_mono_r 2 32 b). lia.
Qed.

Lemma lor_word x y : 0 <= x < WORD -> 0 <= y < WORD -> 0 <= Z.lor x y < WORD.
Proof.
  intros Hx Hy. split; [apply Z.lor_nonneg; lia|].
  destruct (Z.eq_dec (Z.lor x y) 0) as [->|E]; [exact WORD_pos|].
  assert (0 <= Z.lor x y) by (apply Z.lor_nonneg; lia).
  apply Z.log2_lt_pow2; [lia|]. rewrite Z.log2_lor by lia.
  assert (P : forall z, 0 <= z < WORD -> Z.log2 z < 32).
  { intros z Hz. destruct (Z.eq_dec z 0) as [->|]; [reflexivity|]. apply Z.log2_lt_pow2; [lia|exact (proj2 Hz)]. }
  pose proof (P x Hx). pose proof (P y Hy). lia.
Qed.

Lemma shiftr_word x s : 0 <= x < WORD -> 0 <= s -> 0 <= Z.shiftr x s < WORD.
Proof.
  intros Hx Hs. rewrite Z.shiftr_div_pow2 by lia. assert (0 < 2 ^ s) by (apply Z.pow_pos_nonneg; lia).
  split; [apply Z.div_pos; lia|]. apply Z.le_lt_trans with x; [|lia]. apply Z.div_le_upper_bound; nia.
Qed.

(** Word [j] of a left shift by [k] words and [s] bits. *)
Definition shl_word (a : list Z) (k i : nat) (s : Z) (j : nat) : Z :=
  Z.lor (if (k + 1 <=? j)%nat && (j - k - 1 <? i)%nat && negb (s =? 0)
         then Z.shiftr (nth (j - k - 1) a 0) (32 - s) else 0)
        (if (k <=? j)%nat && (j - k <? i)%nat then word (Z.shiftl (nth (j - k) a 0) s) else 0).

Lemma nth_upd l i j x : (i < length l)%nat -> nth j (upd l i x) 0 = if (j =? i)%nat then x else nth j l 0.
Proof.
  intros H. destruct (Nat.eqb_spec j i) as [->|E]; [apply nth_upd_eq; exact H|apply nth_upd_neq; auto].
Qed.

Ltac decide_nat :=
  repeat match goal with
  | |- context [(?x =? ?y)%nat] => destruct (Nat.eqb_spec x y)
  | |- context [(?x <=? ?y)%nat] => destruct (Nat.leb_spec x y)
  | |- context [(?x <? ?y)%nat] => destruct (Nat.ltb_spec x y)
  end; cbn [andb negb]; try lia.

Lemma shl_fold W k s a i : forall j, (j < W)%nat ->
  length (fold_left (shl_step W k s a) (seq 0 i) (repeat 0 W)) = W /\
  nth j (fold_left (shl_step W k s a) (seq 0 i) (repeat 0 W)) 0 = shl_word a k i s j.
Proof.
  induction i as [|i IH]; intros j Hj.
  - cbn [seq fold_left]. rewrite repeat_length, nth_repeat. split; [reflexivity|].
    unfold shl_word. decide_nat; reflexivity.
  - rewrite seq_S, fold_left_app. cbn [fold_left Nat.add].
    set (pn := fold_left _ _ _) in *. assert (HL : length pn = W) by (apply (IH j Hj)).
    assert (Hn : forall j, (j < W)%nat -> nth j pn 0 = shl_word a k i s j) by (intros; apply IH; auto).
    unfold shl_step.
    set (pn1 := if (i + k + 1 <? W)%nat && negb (s =? 0) then _ else pn).
    assert (HL1 : length pn1 = W) by (subst pn1; destruct (_ && _); rewrite ?length_upd; exact HL).
    assert (Hn1 : forall j, (j < W)%nat -> nth j pn1 0 =
      Z.lor (shl_word a k i s j) (if (j =? i + k + 1)%nat && negb (s =? 0) then Z.shiftr (nth i a 0) (32 - s) else 0)).
    { intros m Hm. subst pn1. destruct (Nat.ltb_spec (i + k + 1) W); cbn [andb].
      - destruct (s =? 0); cbn [negb]; rewrite ?andb_false_r, ?andb_true_r.
        + now rewrite Hn, Z.lor_0_r.
        + rewrite nth_upd by lia. destruct (Nat.eqb_spec m (i + k + 1)) as [->|]; rewrite Hn by lia; [reflexivity|now rewrite Z.lor_0_r].
      - destruct (Nat.eqb_spec m (i + k + 1)); [lia|]. cbn [andb]. now rewrite Hn, Z.lor_0_r. }
    split.
    { destruct (i + k <? W)%nat; rewrite ?length_upd; exact HL1. }
    assert (E : nth j (if (i + k <? W)%nat
        then upd pn1 (i + k) (Z.lor (nth (i + k) pn1 0) (word (Z.shiftl (nth i a 0) s))) else pn1) 0 =
      Z.lor (nth j pn1 0) (if (j =? i + k)%nat then word (Z.shiftl (nth i a 0) s) else 0)).
    { destruct (Nat.ltb_spec (i + k) W).
      - rewrite nth_upd by lia. destruct (Nat.eqb_spec j (i + k)) as [->|]; [reflexivity|now rewrite Z.lor_0_r].
      - destruct (Nat.eqb_spec j (i + k)); [lia|]. now rewrite Z.lor_0_r. }
    rewrite E, (Hn1 j Hj). unfold shl_word.
    destruct (Nat.eq_dec j (i + k)) as [->|N1]; [|destruct (Nat.eq_dec j (i + k + 1)) as [->|N2]].
    + replace (i + k - k)%nat with i by lia. decide_nat; destruct (s =? 0); cbn [negb];
        rewrite ?Z.lor_0_r, ?Z.lor_0_l; reflexivity.
    + replace (i + k + 1 - k - 1)%nat with i by lia. decide_nat; destruct (s =? 0); cbn [negb];
        rewrite ?Z.lor_0_r, ?Z.lor_0_l; reflexivity.
    + decide_nat; rewrite ?Z.lor_0_r; reflexivity.
Qed.

(** Word [j] of a right shift by [k] words and [s] bits. *)
Definition shr_word (a : list Z) (k i : nat) (s : Z) (j : nat) : Z :=
  Z.lor (if (j + k <? i)%nat then Z.shiftr (nth (j + k) a 0) s else 0)
        (if (j + k + 1 <? i)%nat && negb (s =? 0) then word (Z.shiftl (nth (j + k + 1) a 0) (32 - s)) else 0).

Lemma shr_fold W k s a i : forall j, (j < W)%nat -> (i <= W)%nat ->
  length (fold_left (shr_step k s a) (seq 0 i) (repeat 0 W)) = W /\
  nth j (fold_left (shr_step k s a) (seq 0 i) (repeat 0 W)) 0 = shr_word a k i s j.
Proof.
  induction i as [|i IH]; intros j Hj Hi.
  - cbn [seq fold_left]. rewrite repeat_length, nth_repeat. split; [reflexivity|].
    unfold shr_word. decide_nat; reflexivity.
  - rewrite seq_S, fold_left_app. cbn [fold_left Nat.add].
    set (pn := fold_left _ _ _) in *. assert (HL : length pn = W) by (apply (IH j Hj); lia).
    assert (Hn : forall j, (j < W)%nat -> nth j pn 0 = shr_word a k i s j) by (intros; apply IH; auto; lia).
    unfold shr_step.
    set (pn1 := if (k + 1 <=? i)%nat && negb (s =? 0) then _ else pn).
    assert (HL1 : length pn1 = W) by (subst pn1; destruct (_ && _); rewrite ?length_upd; exact HL).
    assert (Hn1 : forall j, (j < W)%nat -> nth j pn1 0 =
      Z.lor (shr_word a k i s j)
        (if (j + k + 1 =? i)%nat && negb (s =? 0) then word (Z.shiftl (nth i a 0) (32 - s)) else 0)).
    { intros m Hm. subst pn1. destruct (Nat.leb_spec (k + 1) i); cbn [andb].
      - destruct (s =? 0); cbn [negb]; rewrite ?andb_false_r, ?andb_true_r.
        + now rewrite Hn, Z.lor_0_r.
        + rewrite nth_upd by lia. rewrite !Hn by lia.
          destruct (Nat.eqb_spec m (i - k - 1)) as [Em|Em], (Nat.eqb_spec (m + k + 1) i); try lia;
            [now rewrite Em|now rewrite Z.lor_0_r].
      - destruct (Nat.eqb_spec (m + k + 1) i); [lia|]. cbn [andb]. now rewrite Hn, Z.lor_0_r. }
    split.
    { destruct (k <=? i)%nat; rewrite ?length_upd; exact HL1. }
    assert (E : nth j (if (k <=? i)%nat
        then upd pn1 (i - k) (Z.lor (nth (i - k) pn1 0) (Z.shiftr (nth i a 0) s)) else pn1) 0 =
      Z.lor (nth j pn1 0) (if (j + k =? i)%nat then Z.shiftr (nth i a 0) s else 0)).
    { destruct (Nat.leb_spec k i).
      - rewrite nth_upd by lia.
        destruct (Nat.eqb_spec j (i - k)) as [Ej|Ej], (Nat.eqb_spec (j + k) i); try lia;
          [now rewrite Ej|now rewrite Z.lor_0_r].
      - destruct (Nat.eqb_spec (j + k) i); [lia|]. now rewrite Z.lor_0_r. }
    rewrite E, (Hn1 j Hj). unfold shr_word.
    destruct (Nat.eq_dec (j + k) i) as [N1|N1]; [|destruct (Nat.eq_dec (j + k + 1) i) as [N2|N2]].
    + rewrite N1. decide_nat; destruct (s =? 0); cbn [negb]; rewrite ?Z.lor_0_r, ?Z.lor_0_l; reflexivity.
    + rewrite N2. decide_nat; destruct (s =? 0); cbn [negb]; rewrite ?Z.lor_0_r, ?Z.lor_0_l; reflexivity.
    + decide_nat; rewrite ?Z.lor_0_r; reflexivity.
Qed.

(** A list of [W] words given by a function of the index. *)
Lemma words_ext W l f : length l = W -> (forall j, (j < W)%nat -> nth j l 0 = f j) ->
  (forall j, 0 <= f j < WORD) -> uint W l.
Proof.
  intros HL Hn Hf. split; [exact HL|]. apply Forall_forall. intros x Hx.
  destruct (In_nth l x 0 Hx) as (j & Hj & <-). rewrite Hn by lia. apply Hf.
Qed.

Lemma if_word (c : bool) x : 0 <= x < WORD -> 0 <= (if c then x else 0) < WORD.
Proof. destruct c; [auto|]. intros _. split; [lia|exact WORD_pos]. Qed.

Lemma shl_word_bound a k i s j : rdigs WORD a -> 0 <= s < 32 -> 0 <= shl_word a k i s j < WORD.
Proof.
  intros Ha Hs. apply lor_word; apply if_word; [|apply word_bound].
  apply shiftr_word; [|lia]. apply rdigs_nth; [exact WORD_pos|exact Ha].
Qed.

Lemma shr_word_bound a k i s j : rdigs WORD a -> 0 <= s < 32 -> 0 <= shr_word a k i s j < WORD.
Proof.
  intros Ha Hs. apply lor_word; apply if_word; [|apply word_bound].
  apply shiftr_word; [|lia]. apply rdigs_nth; [exact WORD_pos|exact Ha].
Qed.

(** The bits of a number of [W] words above [32 * W] are zero. *)
Lemma value_bits_high W a n : uint W a -> 32 * Z.of_nat W <= n -> Z.testbit (value a) n = false.
Proof.
  intros [HL Ha] Hn. rewrite value_bits by (auto; lia). rewrite nth_overflow; [apply Z.bits_0|].
  assert (Z.of_nat W <= n / 32) by (apply Z.div_le_lower_bound; lia). lia.
Qed.

Lemma op_shl_ok W a shift : uint W a -> 0 <= shift ->
  uint W (op_shl a shift) /\ value (op_shl a shift) = (value a * 2 ^ shift) mod UMAX W.
Proof.
  intros Ha Hs. pose proof Ha as [HL Hd]. unfold op_shl. rewrite HL.
  set (k := Z.to_nat (shift / 32)). set (s := shift mod 32).
  assert (Hsb : 0 <= s < 32) by (apply Z.mod_pos_bound; lia).
  assert (Hk : Z.of_nat k = shift / 32) by (apply Z2Nat.id, Z.div_pos; lia).
  pose proof (Z.div_mod shift 32 ltac:(lia)) as Esh. fold s in Esh. rewrite <- Hk in Esh.
  set (r := fold_left _ _ _).
  assert (Hn : forall j, (j < W)%nat -> nth j r 0 = shl_word a k W s j) by (intros; apply shl_fold; auto).
  assert (Hr : uint W r).
  { destruct W as [|W]; [apply uint_nil|]. apply (words_ext (S W) r (shl_word a k (S W) s)).
    - apply (shl_fold (S W) k s a (S W) 0). lia.
    - exact Hn.
    - intros; apply shl_word_bound; auto. }
  split; [exact Hr|]. apply Z.bits_inj'. intros n Hn0. rewrite UMAX_pow2.
  destruct (Z.lt_ge_cases n (32 * Z.of_nat W)) as [Hlt|Hge].
  2: { rewrite (value_bits_high W) by auto. now rewrite Z.mod_pow2_bits_high by lia. }
  rewrite Z.mod_pow2_bits_low, <- Z.shiftl_mul_pow2, Z.shiftl_spec by lia.
  rewrite value_bits by (destruct Hr; auto). pose proof (Z.div_mod n 32 ltac:(lia)) as En.
  set (j := Z.to_nat (n / 32)). set (b := n mod 32) in *.
  assert (Hb : 0 <= b < 32) by (apply Z.mod_pos_bound; lia).
  assert (Hj : Z.of_nat j = n / 32) by (apply Z2Nat.id, Z.div_pos; lia).
  assert (HjW : (j < W)%nat) by (assert (n / 32 < Z.of_nat W) by (apply Z.div_lt_upper_bound; lia); lia).
  rewrite Hn by exact HjW. rewrite <- Hj in En. unfold shl_word. rewrite Z.lor_spec.
  assert (Hw : forall i, 0 <= nth i a 0 < WORD) by (intros; apply rdigs_nth; [exact WORD_pos|exact Hd]).
  assert (Split : forall q t, 0 <= t < 32 -> n - shift = 32 * Z.of_nat q + t ->
    Z.testbit (value a) (n - shift) = Z.testbit (nth q a 0) t).
  { intros q t Ht E. rewrite value_bits, E by (auto; lia).
    rewrite (Z.mul_comm 32), Z.div_add_l, (Z.div_small t), Z.add_0_r, Nat2Z.id by lia.
    now rewrite Z.add_comm, Z.mod_add, Z.mod_small by lia. }
  destruct (Z.lt_ge_cases b s) as [Hbs|Hbs].
  - rewrite (proj2 (Z.eqb_neq s 0)) by lia. rewrite andb_true_r.
    replace (Z.testbit (if (k <=? j)%nat && (j - k <? W)%nat then word (Z.shiftl (nth (j - k) a 0) s) else 0) b)
      with false.
    2: { destruct (_ && _); [|now rewrite Z.bits_0]. rewrite word_bits, Z.shiftl_spec, Z.testbit_neg_r by lia. reflexivity. }
    rewrite orb_false_r. decide_nat.
    + rewrite Z.shiftr_spec by lia. rewrite (Split (j - k - 1)%nat (b + (32 - s))) by lia. reflexivity.
    + rewrite Z.bits_0, Z.testbit_neg_r by lia. reflexivity.
  - replace (Z.testbit (if (k + 1 <=? j)%nat && (j - k - 1 <? W)%nat && negb (s =? 0)
       then Z.shiftr (nth (j - k - 1) a 0) (32 - s) else 0) b) with false.
    2: { destruct (_ && _); [|now rewrite Z.bits_0]. rewrite Z.shiftr_spec, bits_high by (auto; lia). reflexivity. }
    cbn [orb]. decide_nat.
    + rewrite word_bits, Z.shiftl_spec by lia. rewrite (Split (j - k)%nat (b - s)) by lia. reflexivity.
    + rewrite Z.bits_0, Z.testbit_neg_r by lia. reflexivity.
Qed.

Lemma op_shr_ok W a shift : uint W a -> 0 <= shift ->
  uint W (op_shr a shift) /\ value (op_shr a shift) = value a / 2 ^ shift.
Proof.
  intros Ha Hs. pose proof Ha as [HL Hd]. unfold op_shr. rewrite HL.
  set (k := Z.to_nat (shift / 32)). set (s := shift mod 32).
  assert (Hsb : 0 <= s < 32) by (apply Z.mod_pos_bound; lia).
  assert (Hk : Z.of_nat k = shift / 32) by (apply Z2Nat.id, Z.div_pos; lia).
  pose proof (Z.div_mod shift 32 ltac:(lia)) as Esh. fold s in Esh. rewrite <- Hk in Esh.
  set (r := fold_left _ _ _).
  assert (Hn : forall j, (j < W)%nat -> nth j r 0 = shr_word a k W s j) by (intros; apply shr_fold; auto).
  assert (Hr : uint W r).
  { destruct W as [|W]; [apply uint_nil|]. apply (words_ext (S W) r (shr_word a k (S W) s)).
    - apply (shr_fold (S W) k s a (S W) 0); lia.
    - exact Hn.
    - intros; apply shr_word_bound; auto. }
  split; [exact Hr|]. apply Z.bits_inj'. intros n Hn0. rewrite Z.div_pow2_bits by lia.
  destruct (Z.lt_ge_cases n (32 * Z.of_nat W)) as [Hlt|Hge].
  2: { rewrite !(value_bits_high W) by (auto; lia). reflexivity. }
  rewrite value_bits by (destruct Hr; auto). pose proof (Z.div_mod n 32 ltac:(lia)) as En.
  set (j := Z.to_nat (n / 32)). set (b := n mod 32) in *.
  assert (Hb : 0 <= b < 32) by (apply Z.mod_pos_bound; lia).
  assert (Hj : Z.of_nat j = n / 32) by (apply Z2Nat.id, Z.div_pos; lia).
  assert (HjW : (j < W)%nat) by (assert (n / 32 < Z.of_nat W) by (apply Z.div_lt_upper_bound; lia); lia).
  rewrite Hn by exact HjW. rewrite <- Hj in En. unfold shr_word. rewrite Z.lor_spec.
  assert (Hw : forall i, 0 <= nth i a 0 < WORD) by (intros; apply rdigs_nth; [exact WORD_pos|exact Hd]).
  assert (Split : forall q t, 0 <= t < 32 -> n + shift = 32 * Z.of_nat q + t ->
    Z.testbit (value a) (n + shift) = if (q <? W)%nat then Z.testbit (nth q a 0) t else false).
  { intros q t Ht E. rewrite value_bits, E by (auto; lia).
    rewrite (Z.mul_comm 32), Z.div_add_l, (Z.div_small t), Z.add_0_r, Nat2Z.id by lia.
    rewrite Z.add_comm, Z.mod_add, Z.mod_small by lia.
    destruct (Nat.ltb_spec q W); [reflexivity|]. rewrite nth_overflow by lia. apply Z.bits_0. }
  destruct (Z.lt_ge_cases (b + s) 32) as [Hbs|Hbs].
  - rewrite (Split (j + k)%nat (b + s)) by lia.
    replace (Z.testbit (if (j + k + 1 <? W)%nat && negb (s =? 0) then word (Z.shiftl (nth (j + k + 1) a 0) (32 - s)) else 0) b)
      with false.
    2: { destruct (_ && _); [|now rewrite Z.bits_0]. rewrite word_bits, Z.shiftl_spec, Z.testbit_neg_r by lia. reflexivity. }
    rewrite orb_false_r. decide_nat; [now rewrite Z.shiftr_spec by lia|apply Z.bits_0].
  - rewrite (Split (j + k + 1)%nat (b + s - 32)) by lia.
    rewrite (proj2 (Z.eqb_neq s 0)) by lia. cbn [negb]. rewrite andb_true_r.
    replace (Z.testbit (if (j + k <? W)%nat then Z.shiftr (nth (j + k) a 0) s else 0) b) with false.
    2: { destruct (_ <? _)%nat; [|now rewrite Z.bits_0]. rewrite Z.shiftr_spec, bits_high by (auto; lia). reflexivity. }
    cbn [orb]. decide_nat; [|apply Z.bits_0]. rewrite word_bits, Z.shiftl_spec by lia. f_equal. lia.
Qed.

(** Bitwise operators act on the values. *)
Lemma zip_words_ok f fb W : (forall x y b, 0 <= b -> Z.testbit (f x y) b = fb (Z.testbit x b) (Z.testbit y b)) ->
  (forall x y, 0 <= x < WORD -> 0 <= y < WORD -> 0 <= f x y < WORD) -> (f 0 0 = 0) ->
  forall a b, uint W a -> uint W b -> uint W (zip_words f a b) /\ value (zip_words f a b) = f (value a) (value b).
Proof.
  intros Hf Hb H0 a b [La Da] [Lb Db].
  assert (Hn : forall j, nth j (zip_words f a b) 0 = f (nth j a 0) (nth j b 0)).
  { intros j. unfold zip_words. rewrite <- H0 at 1.
    change (f 0 0) with ((fun p => f (fst p) (snd p)) (0, 0)). rewrite map_nth, combine_nth by congruence. reflexivity. }
  assert (Hu : uint W (zip_words f a b)).
  { apply (words_ext W _ (fun j => f (nth j a 0) (nth j b 0))); [|intros; apply Hn|].
    - unfold zip_words. rewrite length_map, length_combine. lia.
    - intros j. apply Hb; apply rdigs_nth; auto using WORD_pos. }
  split; [exact Hu|]. apply Z.bits_inj'. intros n Hn0.
  rewrite Hf, !value_bits by (auto; destruct Hu; auto). rewrite Hn, Hf; [reflexivity|].
  apply Z.mod_pos_bound. lia.
Qed.
