(* ===== verification/UInt256Io.v ===== *)
(** * Bytes, text and products of [base_uint]

    The binary and hexadecimal forms of crypto/uint256.h round-trip; products and
    quotients of [uint256] are those of integers modulo 2^256; the three integers
    packed into a block hash are read back. *)

From Stdlib Require Import ZArith List Lia Bool.
From S2P Require Import Prelude Radix Stream UInt256 UInt256Ok.
Import ListNotations.
Local Open Scope Z_scope.

(** ** Bytes *)

Lemma bytes_of_ok W : forall a, uint W a ->
  length (bytes_of a) = (4 * W)%nat /\ rdigs 256 (bytes_of a) /\ rval 256 (bytes_of a) = value a.
Proof.
  induction W as [|W IH]; intros a Ha.
  - apply uint_0 in Ha. subst. split; [reflexivity|split; [constructor|reflexivity]].
  - destruct a as [|w a]; [destruct Ha; discriminate|]. apply uint_cons in Ha as [Hw Ha].
    destruct (IH a Ha) as (HL & Hd & HV). unfold bytes_of in *. cbn [flat_map].
    rewrite length_app, length_rdig, HL. split; [lia|].
    split; [apply rdigs_app; [apply rdigs_rdig; lia|exact Hd]|].
    rewrite rval_app, rval_rdig, length_rdig, HV by lia. unfold value. cbn [rval].
    change (256 ^ Z.of_nat 4) with WORD. rewrite Z.mod_small by exact Hw. reflexivity.
Qed.

Lemma words_of_S W bs : words_of (S W) bs = rval 256 (firstn 4 bs) :: words_of W (skipn 4 bs).
Proof.
  unfold words_of. cbn [seq map]. f_equal. rewrite <- seq_shift, map_map. apply map_ext. intros i.
  rewrite skipn_skipn. replace (4 * S i)%nat with (4 * i + 4)%nat by lia. reflexivity.
Qed.

Lemma words_of_ok W : forall bs, length bs = (4 * W)%nat -> rdigs 256 bs ->
  uint W (words_of W bs) /\ value (words_of W bs) = rval 256 bs.
Proof.
  induction W as [|W IH]; intros bs HL Hd.
  - destruct bs; [|discriminate HL]. split; [exact uint_nil|reflexivity].
  - rewrite words_of_S. destruct (IH (skipn 4 bs)) as [Hu HV]; [rewrite length_skipn; lia|auto with radix|].
    assert (HF : length (firstn 4 bs) = 4%nat) by (rewrite length_firstn; lia).
    pose proof (rval_bound 256 (firstn 4 bs) ltac:(lia) ltac:(auto with radix)) as Hb. rewrite HF in Hb.
    split; [apply uint_cons'; [exact Hb|exact Hu]|].
    unfold value in *. cbn [rval]. rewrite HV. rewrite <- (firstn_skipn 4 bs) at 3. rewrite rval_app, HF. reflexivity.
Qed.

Lemma words_bytes W a : uint W a -> words_of W (bytes_of a) = a.
Proof.
  intros Ha. destruct (bytes_of_ok W a Ha) as (HL & Hd & HV). destruct (words_of_ok W _ HL Hd) as [Hu HV'].
  apply (value_inj W); auto. congruence.
Qed.

Lemma bytes_words W bs : length bs = (4 * W)%nat -> rdigs 256 bs -> bytes_of (words_of W bs) = bs.
Proof.
  intros HL Hd. destruct (words_of_ok W bs HL Hd) as [Hu HV].
  destruct (bytes_of_ok W _ Hu) as (HL' & Hd' & HV'). apply (rval_inj 256); auto; lia.
Qed.

(** The copies with reversed indices reverse the bytes. *)
Lemma map_rev p : map (fun i => nth (length p - i - 1) p 0) (seq 0 (length p)) = rev p.
Proof.
  apply (nth_ext _ _ 0 0); [now rewrite length_map, length_seq, length_rev|].
  intros i Hi. rewrite length_map, length_seq in Hi. rewrite rev_nth by exact Hi.
  rewrite (nth_indep _ 0 (nth (length p - 0 - 1) p 0)) by (rewrite length_map, length_seq; exact Hi).
  rewrite (map_nth (fun i => nth (length p - i - 1) p 0)), seq_nth by exact Hi. f_equal. lia.
Qed.

Lemma ToBigEndian_rev a : ToBigEndian a = rev (bytes_of a).
Proof. apply map_rev. Qed.

Lemma FromBigEndian_rev a buf : length buf = (4 * length a)%nat ->
  FromBigEndian a buf = words_of (length a) (rev buf).
Proof. intros H. unfold FromBigEndian. now rewrite (proj2 (Nat.eqb_eq _ _) H), map_rev. Qed.

Lemma big_endian_round_trip W a b : uint W a -> uint W b -> FromBigEndian a (ToBigEndian b) = b.
Proof.
  intros Ha Hb. destruct (bytes_of_ok W b Hb) as (HL & _). rewrite ToBigEndian_rev, FromBigEndian_rev.
  - rewrite rev_involutive, (proj1 Ha). apply words_bytes; exact Hb.
  - rewrite length_rev, HL, (proj1 Ha). reflexivity.
Qed.

Lemma drop_zeros_split l : exists k, l = repeat 0 k ++ drop_zeros l.
Proof.
  induction l as [|b l [k IH]]; [now exists O|]. cbn [drop_zeros].
  destruct (Z.eqb_spec b 0) as [->|]; [|now exists O]. exists (S k). cbn. now rewrite <- IH.
Qed.

Lemma valid_big_endian_round_trip W a b : uint W a -> uint W b ->
  FromValidBigEndianData a (ToValidBigEndianData b) = b.
Proof.
  intros Ha Hb. unfold FromValidBigEndianData, ToValidBigEndianData.
  destruct (drop_zeros_split (ToBigEndian b)) as [k E]. destruct (bytes_of_ok W b Hb) as (HL & _).
  assert (HT : length (ToBigEndian b) = (4 * W)%nat) by (rewrite ToBigEndian_rev, length_rev; exact HL).
  rewrite (proj1 Ha). set (d := drop_zeros (ToBigEndian b)) in *.
  assert (HK : (k + length d = 4 * W)%nat) by (rewrite <- HT, E at 1; now rewrite length_app, repeat_length).
  destruct (Nat.leb_spec (4 * W) (length d)).
  - assert (k = 0%nat) by lia. subst k. cbn [repeat app] in E. rewrite <- E. apply (big_endian_round_trip W); auto.
  - replace (4 * W - length d)%nat with k by lia. rewrite <- E. apply (big_endian_round_trip W); auto.
Qed.

Lemma reverse_ok W a : uint W a -> uint W (reverse a) /\ bytes_of (reverse a) = rev (bytes_of a) /\
  reverse (reverse a) = a.
Proof.
  intros Ha.
  assert (P : forall a, uint W a -> uint W (reverse a) /\ bytes_of (reverse a) = rev (bytes_of a)).
  { clear a Ha. intros a Ha. destruct (bytes_of_ok W a Ha) as (HL & Hd & _). unfold reverse.
    pose proof (reverse_loop_ok (length (bytes_of a)) [] (bytes_of a) [] ltac:(lia)) as E.
    cbn [app length Nat.add] in E. rewrite !app_nil_r in E. rewrite E, (proj1 Ha).
    assert (HR : length (rev (bytes_of a)) = (4 * W)%nat) by (rewrite length_rev; exact HL).
    split; [apply words_of_ok; auto with radix|apply bytes_words; auto with radix]. }
  destruct (P a Ha) as [Hu Hb]. split; [exact Hu|]. split; [exact Hb|].
  destruct (P _ Hu) as [Hu2 Hb2]. rewrite <- (words_bytes W (reverse (reverse a)) Hu2), Hb2, Hb, rev_involutive.
  apply words_bytes; exact Ha.
Qed.

#[export] Instance base_uint_lawful W : Lawful (base_uint W).
Proof.
  assert (E : forall a, uint W a -> save (base_uint W) a = rev (bytes_of a)) by (intros a _; apply map_rev).
  split.
  - intros a rest Ha. rewrite E by exact Ha. destruct (bytes_of_ok W a Ha) as (HL & _).
    cbn [base_uint load].
    rewrite (stream_read_n (4 * W) (rev (bytes_of a))) by (rewrite length_rev; exact HL).
    replace (4 * W)%nat with (length (rev (bytes_of a))) by (rewrite length_rev; exact HL).
    rewrite map_rev, rev_involutive, words_bytes by exact Ha. reflexivity.
  - intros a Ha. rewrite E by exact Ha. destruct (bytes_of_ok W a Ha) as (HL & _).
    rewrite length_rev, HL. reflexivity.
  - intros a Ha. rewrite E by exact Ha. destruct (bytes_of_ok W a Ha) as (_ & Hd & _). auto with radix.
  - intros s a r t H. cbn [base_uint load] in *. read_more stream_read_more. now injection H as <- <-.
Qed.

(** ** Hexadecimal text *)

Lemma hex_digit d : 0 <= d < 16 -> phexdigit (hexchar d) = d /\ is_hex (hexchar d) = true /\
  isspace (hexchar d) = false.
Proof.
  intros Hd. assert (H : In d (map Z.of_nat (seq 0 16))).
  { apply in_map_iff. exists (Z.to_nat d). split; [lia|apply in_seq; lia]. }
  cbn in H. repeat destruct H as [<-|H]; try contradiction; repeat split; reflexivity.
Qed.

Lemma nibbles b : 0 <= b < 256 -> 0 <= b / 16 < 16 /\ 0 <= b mod 16 < 16 /\
  Z.lor (Z.shiftl (b / 16) 4 mod 256) (b mod 16) = b.
Proof.
  intros Hb. pose proof (Z.mod_pos_bound b 16 ltac:(lia)).
  assert (Hq : 0 <= b / 16 < 16) by (split; [apply Z.div_pos; lia|apply Z.div_lt_upper_bound; lia]).
  split; [exact Hq|]. split; [lia|]. pose proof (Z.div_mod b 16 ltac:(lia)).
  rewrite Z.mod_small by (rewrite Z.shiftl_mul_pow2; lia).
  rewrite lor_shiftl_add by (change (2 ^ 4) with 16; lia). change (2 ^ 4) with 16. lia.
Qed.

Lemma sethex_ok bs : rdigs 256 bs -> forall rest, sethex_loop (length bs) (flat_map byte_hex bs ++ rest) = (bs, rest).
Proof.
  induction 1 as [|b bs Hb _ IH]; intros rest; [cbn; now destruct rest|].
  destruct (nibbles b Hb) as (H1 & H2 & E). destruct (hex_digit _ H1) as (P1 & I1 & _).
  destruct (hex_digit _ H2) as (P2 & I2 & _).
  cbn [flat_map byte_hex app length sethex_loop]. now rewrite I1, I2, IH, P1, P2, E.
Qed.

Lemma GetHex_round_trip W a : uint W a -> SetHex W (GetHex a) = (a, length (GetHex a)).
Proof.
  intros Ha. destruct (bytes_of_ok W a Ha) as (HL & Hd & _). unfold SetHex, GetHex.
  change (skip_0x (skip_spaces (48 :: 120 :: ?l))) with l.
  rewrite <- HL. pose proof (sethex_ok (bytes_of a) Hd []) as E. rewrite app_nil_r in E. rewrite E.
  rewrite Nat.sub_diag. cbn [repeat length]. rewrite app_nil_r, words_bytes by exact Ha. f_equal; lia.
Qed.

(** The digits of a number, most significant first, read from the last one. *)
Definition nibble_text (bs : list Z) : list Z := flat_map (fun b => [hexchar (b mod 16); hexchar (b / 16)]) bs.

Lemma rev_byte_hex bs : rev (flat_map byte_hex bs) = nibble_text (rev bs).
Proof.
  induction bs as [|b bs IH]; [reflexivity|]. cbn [flat_map byte_hex app rev].
  unfold nibble_text in *. rewrite IH, flat_map_app. cbn [flat_map app]. now rewrite <- !app_assoc.
Qed.

Lemma setvalue_pairs bs : rdigs 256 bs -> forall n rest,
  setvalue_loop (length bs + n) (nibble_text bs ++ rest) = bs ++ setvalue_loop n rest.
Proof.
  induction 1 as [|b bs Hb _ IH]; intros n rest; [reflexivity|].
  destruct (nibbles b Hb) as (H1 & H2 & E). destruct (hex_digit _ H1) as (P1 & _).
  destruct (hex_digit _ H2) as (P2 & _).
  cbn [nibble_text flat_map app length Nat.add setvalue_loop]. rewrite P1, P2, Z.lor_comm, E.
  f_equal. apply IH.
Qed.

Lemma hex_run_all s : Forall (fun c => is_hex c = true) s -> hex_run s = s.
Proof. induction 1 as [|c s Hc _ IH]; cbn; [reflexivity|]. now rewrite Hc, IH. Qed.

Lemma byte_hex_all bs : rdigs 256 bs -> Forall (fun c => is_hex c = true) (flat_map byte_hex bs).
Proof.
  induction 1 as [|b bs Hb _ IH]; cbn [flat_map byte_hex app]; [constructor|].
  destruct (nibbles b Hb) as (H1 & H2 & _). constructor; [apply hex_digit; exact H1|].
  constructor; [apply hex_digit; exact H2|exact IH].
Qed.

(** The leading byte is written with one digit when it is below 16. *)
Lemma leading_byte b n : 0 <= b < 256 ->
  let t := if b <? 16 then [hexchar b] else byte_hex b in
  setvalue_loop (S n) (rev t) = [b] /\ Forall (fun c => is_hex c = true) t.
Proof.
  intros Hb. cbv zeta. destruct (Z.ltb_spec b 16).
  - destruct (hex_digit b ltac:(lia)) as (P & I & _). cbn [rev app setvalue_loop]. rewrite P.
    split; [reflexivity|constructor; auto].
  - destruct (nibbles b Hb) as (H1 & H2 & E). destruct (hex_digit _ H1) as (P1 & I1 & _).
    destruct (hex_digit _ H2) as (P2 & I2 & _). cbn [byte_hex rev app setvalue_loop].
    rewrite P1, P2, Z.lor_comm, E. split; [destruct n; reflexivity|].
    constructor; [exact I1|constructor; auto].
Qed.

Lemma GetValueHex_round_trip W a : uint (S W) a -> SetValueHex (S W) (GetValueHex a) = (a, length (GetValueHex a)).
Proof.
  intros Ha. destruct (bytes_of_ok (S W) a Ha) as (HL & Hd & HV). unfold SetValueHex, GetValueHex.
  destruct (drop_zeros_split (rev (bytes_of a))) as [k E].
  set (d := drop_zeros (rev (bytes_of a))) in *.
  assert (Hrd : rdigs 256 (repeat 0 k ++ d)) by (rewrite <- E; auto with radix).
  assert (Hdd : rdigs 256 d) by (apply Forall_app in Hrd; apply Hrd).
  assert (Eb : bytes_of a = rev d ++ repeat 0 k).
  { rewrite <- (rev_involutive (bytes_of a)), E, rev_app_distr, rev_repeat. reflexivity. }
  assert (HK : (length d + k = 4 * S W)%nat) by (rewrite <- HL, Eb, length_app, length_rev, repeat_length; lia).
  destruct d as [|b bs].
  - change (skip_0x (skip_spaces (48 :: 120 :: [48]))) with [48]. cbn [hex_run is_hex rev app length].
    cbn -[words_of Nat.sub repeat]. f_equal. cbn [app] in Eb. cbn [length] in HK.
    rewrite <- (words_bytes (S W) a Ha), Eb. cbn [rev app]. replace k with (S (4 * S W - 1)) by (cbn in HK; lia).
    reflexivity.
  - inversion Hdd as [|? ? Hb Hbs]; subst. set (t := if b <? 16 then [hexchar b] else byte_hex b).
    destruct (leading_byte b k Hb) as [Hlead Ht]. fold t in Hlead, Ht.
    change (skip_0x (skip_spaces (48 :: 120 :: ?l))) with l.
    rewrite hex_run_all by (apply Forall_app; split; [exact Ht|apply byte_hex_all; exact Hbs]).
    rewrite rev_app_distr, rev_byte_hex. cbn [length] in HK.
    assert (ES : setvalue_loop (4 * S W) (nibble_text (rev bs) ++ rev t) = rev bs ++ [b]).
    { replace (4 * S W)%nat with (length (rev bs) + S k)%nat by (rewrite length_rev; lia).
      rewrite setvalue_pairs, Hlead by (auto with radix). reflexivity. }
    cbv zeta. rewrite ES.
    assert (HB : length (rev bs ++ [b]) = S (length bs)) by (rewrite length_app, length_rev; cbn; lia).
    rewrite HB. replace (4 * S W - S (length bs))%nat with k by lia.
    cbn [rev] in Eb. rewrite <- Eb, (words_bytes (S W) a Ha). f_equal. cbn [length]. lia.
Qed.

(** ** Products and quotients of [uint256] *)

Section Products.
Context {M : uint256_t} {MO : uint256_t_ok M}.

Lemma U256_words : U256 = UMAX 8.
Proof. reflexivity. Qed.

Lemma to_m_ok : forall ws m, rdigs WORD ws -> ws <> [] -> 0 <= m ->
  (m + WORD) * UMAX (length ws - 1) <= U256 ->
  to_m ws m = m * UMAX (length ws - 1) + rval WORD (rev ws).
Proof.
  induction ws as [|w ws IH]; intros m Hd Hne Hm HB; [contradiction|].
  inversion Hd as [|? ? Hw Hws]; subst. cbn [length to_m rev] in *.
  replace (S (length ws) - 1)%nat with (length ws) in * by lia.
  pose proof (UMAX_pos (length ws)). pose proof WORD_pos.
  assert (HmU : (m + WORD) * 1 <= (m + WORD) * UMAX (length ws)) by (apply Z.mul_le_mono_nonneg_l; lia).
  rewrite m_add_ok, Z.mod_small by lia.
  destruct ws as [|w2 ws].
  - cbn [to_m rev app rval length]. unfold UMAX. cbn. lia.
  - assert (EU : UMAX (length (w2 :: ws)) = WORD * UMAX (length ws)) by (cbn [length]; apply UMAX_S).
    rewrite EU in *. pose proof (UMAX_pos (length ws)).
    assert (Hs : (m + w + 1) * WORD * UMAX (length ws) <= U256).
    { apply Z.le_trans with ((m + WORD) * (WORD * UMAX (length ws))); [|exact HB].
      rewrite <- Z.mul_assoc. apply Z.mul_le_mono_nonneg_r; [|lia]. apply Z.mul_nonneg_nonneg; lia. }
    assert (Hs1 : (m + w + 1) * WORD * 1 <= (m + w + 1) * WORD * UMAX (length ws)).
    { apply Z.mul_le_mono_nonneg_l; [|lia]. apply Z.mul_nonneg_nonneg; lia. }
    assert (Hmw : (m + w) * 1 <= (m + w) * WORD) by (apply Z.mul_le_mono_nonneg_l; lia).
    rewrite m_shl_ok by lia. change (2 ^ 32) with WORD. rewrite Z.mod_small by lia.
    rewrite IH; [|exact Hws|discriminate|lia|].
    + cbn [length]. replace (S (length ws) - 1)%nat with (length ws) by lia.
      rewrite (rval_app WORD (rev (w2 :: ws))), length_rev. fold (UMAX (length (w2 :: ws))). rewrite EU. cbn [rval]. ring.
    + cbn [length]. replace (S (length ws) - 1)%nat with (length ws) by lia. lia.
Qed.

Lemma GetMuint256_ok a : uint 8 a -> GetMuint256 a = value a.
Proof.
  intros [HL Hd]. unfold GetMuint256. rewrite to_m_ok.
  - now rewrite rev_involutive.
  - auto with radix.
  - intros E. apply (f_equal (@length Z)) in E. rewrite length_rev, HL in E. discriminate.
  - lia.
  - rewrite length_rev, HL. vm_compute. discriminate.
Qed.

Lemma of_m_ok n : forall m, 0 <= m < U256 -> of_m n m = rdig WORD n m.
Proof.
  induction n as [|n IH]; intros m Hm; cbn [of_m rdig]; [reflexivity|].
  rewrite m_and_ok, m_shr_ok by first [lia | split; [discriminate|reflexivity]].
  change (WORD - 1) with (Z.ones 32). rewrite Z.land_ones by lia. change (2 ^ 32) with WORD.
  unfold word. rewrite Z.mod_mod by discriminate. f_equal. apply IH.
  split; [apply Z.div_pos; [lia|exact WORD_pos]|]. apply Z.div_lt_upper_bound; [exact WORD_pos|].
  assert (U256 * 1 <= U256 * WORD) by (apply Z.mul_le_mono_nonneg_l; [discriminate|vm_compute; discriminate]). lia.
Qed.

Lemma SetMuint256_ok m : 0 <= m < U256 -> uint 8 (SetMuint256 m) /\ value (SetMuint256 m) = m.
Proof.
  intros Hm. unfold SetMuint256. rewrite of_m_ok by exact Hm.
  split; [split; [apply length_rdig|apply rdigs_rdig; exact WORD_pos]|].
  unfold value. rewrite rval_rdig by exact WORD_pos. apply Z.mod_small. exact Hm.
Qed.

Lemma op_mul_ok a b : uint 8 a -> uint 8 b ->
  uint 8 (op_mul a b) /\ value (op_mul a b) = (value a * value b) mod U256.
Proof.
  intros Ha Hb. pose proof (value_bound 8 a Ha). pose proof (value_bound 8 b Hb). rewrite <- U256_words in *.
  unfold op_mul. rewrite !GetMuint256_ok, m_mul_ok by auto.
  apply SetMuint256_ok. apply Z.mod_pos_bound. reflexivity.
Qed.

Lemma op_div_ok a b : uint 8 a -> uint 8 b -> value b <> 0 ->
  returns (op_div a b) (fun c => uint 8 c /\ value c = value a / value b).
Proof.
  intros Ha Hb Hz. pose proof (value_bound 8 a Ha). pose proof (value_bound 8 b Hb). rewrite <- U256_words in *.
  unfold op_div. rewrite !GetMuint256_ok, m_div_ok by (auto; lia). cbn [bind returns].
  apply SetMuint256_ok. split; [apply Z.div_pos; lia|].
  apply Z.le_lt_trans with (value a); [|lia]. apply Z.div_le_upper_bound; nia.
Qed.

Lemma op_div_by_zero a b : uint 8 b -> value b = 0 -> op_div a b = Throw overflow_error.
Proof. intros Hb Hz. unfold op_div. rewrite (GetMuint256_ok b Hb), Hz, m_div_zero. reflexivity. Qed.

End Products.

(** Arithmetic modulo 2^256 as the parameter describes it. *)
#[export] Instance reference_uint256_t : uint256_t := {|
  m_add x y := (x + y) mod U256;
  m_mul x y := (x * y) mod U256;
  m_div x y := if y =? 0 then Throw overflow_error else Ok (x / y);
  m_shl x n := (x * 2 ^ n) mod U256;
  m_shr x n := x / 2 ^ n;
  m_and x y := Z.land x y
|}.

#[export] Instance reference_uint256_t_ok : uint256_t_ok reference_uint256_t.
Proof.
  split; try reflexivity. intros x y Hx Hy. cbn [m_div reference_uint256_t].
  now rewrite (proj2 (Z.eqb_neq y 0)) by lia.
Qed.

(** ** Block hashes *)

Lemma varint_save_length v : (1 <= length (varint_save v) <= 9)%nat.
Proof.
  unfold varint_save. destruct (v =? 0); [cbn; lia|]. destruct (v <? _); [cbn; lia|].
  cbn [length]. unfold varint_GetBytes. pose proof (bytes_required_le 8 v) as H. fold (BytesRequired v) in H.
  assert (P : forall f i out, (length (get_bytes_loop f i out) <= f + length out)%nat).
  { induction f as [|f IH]; intros i out; cbn [get_bytes_loop]; [lia|].
    destruct (i =? 0); [lia|]. specialize (IH (Z.shiftr i 8) (Z.land i 255 :: out)). cbn [length] in IH. lia. }
  specialize (P 8%nat v []). cbn [length] in P. rewrite length_app, repeat_length. lia.
Qed.

Lemma uint256_of_bytes b1 b2 b3 n : 0 <= b1 < U64 -> 0 <= b2 < U64 -> 0 <= b3 < U64 -> uint 8 n ->
  let ss := varint_save b1 ++ varint_save b2 ++ varint_save b3 in
  uint 8 (uint256_of b1 b2 b3 n) /\ bytes_of (uint256_of b1 b2 b3 n) = ss ++ skipn (length ss) (bytes_of n).
Proof.
  intros H1 H2 H3 Hn ss. destruct (bytes_of_ok 8 n Hn) as (HL & Hd & _).
  pose proof (varint_save_length b1). pose proof (varint_save_length b2). pose proof (varint_save_length b3).
  assert (HS : (length ss <= 27)%nat) by (subst ss; rewrite !length_app; lia).
  assert (E : length (ss ++ skipn (length ss) (bytes_of n)) = (4 * 8)%nat) by (rewrite length_app, length_skipn; lia).
  assert (D : rdigs 256 (ss ++ skipn (length ss) (bytes_of n))).
  { apply rdigs_app; [|auto with radix]. subst ss. repeat apply rdigs_app; apply varint_bytes; auto. }
  split; [apply words_of_ok; auto|apply bytes_words; auto].
Qed.

Lemma load_b123_ok b1 b2 b3 n : 0 <= b1 < U64 -> 0 <= b2 < U64 -> 0 <= b3 < U64 -> uint 8 n ->
  load_b123 (uint256_of b1 b2 b3 n) = Some (b1, b2, b3).
Proof.
  intros H1 H2 H3 Hn. destruct (uint256_of_bytes b1 b2 b3 n H1 H2 H3 Hn) as [_ E].
  unfold load_b123. rewrite E, <- !app_assoc. now rewrite !varint_load_save.
Qed.
