(* ===== verification/OrdMap.v ===== *)
(** * Ordered maps

    [std::map<K, V, C>] as the list of its bindings in the order of the comparison
    [C]; iteration runs over the list.  [om_set] is assignment through
    [operator[]], [om_add] is [insert] (which keeps a binding already there). *)

From Stdlib Require Import List Bool Sorted Lia.
Import ListNotations.

Section OrdMap.
Context {K V : Type} (ltb : K -> K -> bool).

Fixpoint om_find (k : K) (m : list (K * V)) : option V :=
  match m with
  | [] => None
  | (k', v) :: m' => if ltb k k' then None else if ltb k' k then om_find k m' else Some v
  end.

Fixpoint om_set (k : K) (v : V) (m : list (K * V)) : list (K * V) :=
  match m with
  | [] => [(k, v)]
  | (k', v') :: m' =>
      if ltb k k' then (k, v) :: m
      else if ltb k' k then (k', v') :: om_set k v m' else (k', v) :: m'
  end.

Definition om_add (k : K) (v : V) (m : list (K * V)) : list (K * V) :=
  match om_find k m with Some _ => m | None => om_set k v m end.

Fixpoint om_erase (k : K) (m : list (K * V)) : list (K * V) :=
  match m with
  | [] => []
  | (k', v') :: m' => if ltb k k' then m else if ltb k' k then (k', v') :: om_erase k m' else m'
  end.

Definition om_lt (p q : K * V) : Prop := ltb (fst p) (fst q) = true.

Definition om_sorted (m : list (K * V)) : Prop := StronglySorted om_lt m.

End OrdMap.

(** A comparison that C++ accepts for an ordered map, and whose equivalence is equality. *)
Class StrictOrder {K} (ltb : K -> K -> bool) : Prop := {
  ltb_irrefl : forall x, ltb x x = false;
  ltb_trans : forall x y z, ltb x y = true -> ltb y z = true -> ltb x z = true;
  ltb_total : forall x y, ltb x y = false -> ltb y x = false -> x = y
}.

Section OrdMapOk.
Context {K V : Type} (ltb : K -> K -> bool) {O : StrictOrder ltb}.
Abbreviation find := (om_find ltb).
Abbreviation set := (om_set ltb).
Abbreviation erase := (om_erase ltb).

Lemma ltb_irr x : ltb x x = false.
Proof. apply ltb_irrefl. Qed.

Lemma ltb_asym x y : ltb x y = true -> ltb y x = false.
Proof.
  intros H. destruct (ltb y x) eqn:E; [|reflexivity].
  pose proof (ltb_trans x y x H E). rewrite ltb_irrefl in *. discriminate.
Qed.

Lemma om_sorted_inv k v (m : list (K * V)) : om_sorted ltb ((k, v) :: m) ->
  om_sorted ltb m /\ Forall (fun p => ltb k (fst p) = true) m.
Proof. intros H. inversion H; subst. auto. Qed.

Lemma om_find_below k (m : list (K * V)) : Forall (fun p => ltb k (fst p) = true) m -> find k m = None.
Proof. destruct 1 as [|[k' v'] m Hk _]; cbn in *; [reflexivity|now rewrite Hk]. Qed.

Lemma om_find_set k k' v (m : list (K * V)) : om_sorted ltb m ->
  find k (set k' v m) = if ltb k k' || ltb k' k then find k m else Some v.
Proof.
  induction m as [|[k1 v1] m IH]; intros Hs.
  - cbn. destruct (ltb k k'), (ltb k' k); reflexivity.
  - apply om_sorted_inv in Hs as [Hs Hb]. cbn [om_set].
    destruct (ltb k' k1) eqn:E1.
    + cbn [om_find]. destruct (ltb k k') eqn:E2; cbn [orb].
      * rewrite (ltb_trans _ _ _ E2 E1). reflexivity.
      * destruct (ltb k' k); reflexivity.
    + destruct (ltb k1 k') eqn:E2; cbn [om_find].
      * rewrite IH by exact Hs. destruct (ltb k k1) eqn:E3.
        { rewrite (ltb_trans _ _ _ E3 E2). reflexivity. }
        destruct (ltb k1 k) eqn:E4; [reflexivity|].
        pose proof (ltb_total k k1 E3 E4). subst k1. now rewrite E2.
      * pose proof (ltb_total k' k1 E1 E2). subst k1.
        destruct (ltb k k') eqn:E3; [reflexivity|]. destruct (ltb k' k) eqn:E4; reflexivity.
Qed.

Lemma om_find_set_eq k v (m : list (K * V)) : om_sorted ltb m -> find k (set k v m) = Some v.
Proof. intros Hs. rewrite om_find_set by exact Hs. now rewrite ltb_irr. Qed.

Lemma om_find_set_ne k k' v (m : list (K * V)) : om_sorted ltb m -> k <> k' -> find k (set k' v m) = find k m.
Proof.
  intros Hs Hn. rewrite om_find_set by exact Hs. destruct (ltb k k') eqn:E1; [reflexivity|].
  destruct (ltb k' k) eqn:E2; [reflexivity|]. now pose proof (ltb_total k k' E1 E2).
Qed.

Lemma om_set_forall k v (m : list (K * V)) (P : K * V -> Prop) : P (k, v) -> Forall P m ->
  (forall v', P (k, v') -> P (k, v)) -> Forall P (set k v m).
Proof.
  intros Hk Hm HP. induction Hm as [|[k1 v1] m H1 Hm IH]; cbn [om_set]; [auto|].
  destruct (ltb k k1) eqn:E1; [auto|]. destruct (ltb k1 k) eqn:E2; [auto|].
  pose proof (ltb_total k k1 E1 E2). subst k1. auto.
Qed.

Lemma om_set_sorted k v (m : list (K * V)) : om_sorted ltb m -> om_sorted ltb (set k v m).
Proof.
  induction m as [|[k1 v1] m IH]; intros Hs; [repeat constructor|].
  pose proof Hs as Hs0. apply om_sorted_inv in Hs as [Hs Hb]. cbn [om_set].
  destruct (ltb k k1) eqn:E1.
  - constructor; [exact Hs0|]. constructor; [exact E1|]. eapply Forall_impl; [|exact Hb].
    intros [k2 v2] H2. unfold om_lt. cbn [fst] in *. exact (ltb_trans _ _ _ E1 H2).
  - destruct (ltb k1 k) eqn:E2.
    + constructor; [apply IH; exact Hs|]. apply om_set_forall; [exact E2|exact Hb|auto].
    + constructor; [exact Hs|exact Hb].
Qed.

Lemma om_erase_incl k (m : list (K * V)) : incl (erase k m) m.
Proof.
  induction m as [|[k1 v1] m IH]; cbn [om_erase]; [easy|].
  destruct (ltb k k1); [easy|]. destruct (ltb k1 k); [|apply incl_tl, incl_refl].
  apply incl_cons; [now left|apply incl_tl, IH].
Qed.

Lemma om_erase_sorted k (m : list (K * V)) : om_sorted ltb m -> om_sorted ltb (erase k m).
Proof.
  induction m as [|[k1 v1] m IH]; intros Hs; [constructor|].
  pose proof Hs as Hs0. apply om_sorted_inv in Hs as [Hs Hb]. cbn [om_erase].
  destruct (ltb k k1); [exact Hs0|]. destruct (ltb k1 k); [|exact Hs].
  constructor; [apply IH; exact Hs|]. apply incl_Forall with m; [apply om_erase_incl|exact Hb].
Qed.

Lemma om_find_erase_eq k (m : list (K * V)) : om_sorted ltb m -> find k (erase k m) = None.
Proof.
  induction m as [|[k1 v1] m IH]; intros Hs; [reflexivity|].
  apply om_sorted_inv in Hs as [Hs Hb]. cbn [om_erase].
  destruct (ltb k k1) eqn:E1; [cbn; now rewrite E1|].
  destruct (ltb k1 k) eqn:E2; [cbn; rewrite E1, E2; auto|].
  pose proof (ltb_total k k1 E1 E2). subst k1. apply om_find_below. exact Hb.
Qed.

Lemma om_find_erase_ne k k' (m : list (K * V)) : om_sorted ltb m -> k <> k' -> find k (erase k' m) = find k m.
Proof.
  intros Hs Hn. induction m as [|[k1 v1] m IH]; [reflexivity|].
  apply om_sorted_inv in Hs as [Hs Hb]. cbn [om_erase om_find].
  destruct (ltb k' k1) eqn:E1; [reflexivity|]. destruct (ltb k1 k') eqn:E2.
  - cbn [om_find]. rewrite IH by exact Hs. reflexivity.
  - pose proof (ltb_total k' k1 E1 E2). subst k1.
    destruct (ltb k k') eqn:E3.
    + apply om_find_below. eapply Forall_impl; [|exact Hb]. intros [k2 v2] H2. cbn [fst] in *.
      exact (ltb_trans _ _ _ E3 H2).
    + destruct (ltb k' k) eqn:E4; [reflexivity|]. now pose proof (ltb_total k k' E3 E4).
Qed.

Lemma om_find_in k v (m : list (K * V)) : find k m = Some v -> In (k, v) m.
Proof.
  induction m as [|[k1 v1] m IH]; cbn [om_find]; [discriminate|].
  destruct (ltb k k1) eqn:E1; [discriminate|]. destruct (ltb k1 k) eqn:E2; [intros H; right; auto|].
  intros [= ->]. pose proof (ltb_total k k1 E1 E2). subst. now left.
Qed.

Lemma om_in_find k v (m : list (K * V)) : om_sorted ltb m -> In (k, v) m -> find k m = Some v.
Proof.
  induction m as [|[k1 v1] m IH]; intros Hs H; [contradiction|].
  apply om_sorted_inv in Hs as [Hs Hb]. cbn [om_find]. destruct H as [[= -> ->]|H].
  - now rewrite ltb_irr.
  - rewrite Forall_forall in Hb. specialize (Hb _ H). cbn [fst] in Hb.
    rewrite (ltb_asym _ _ Hb), Hb. auto.
Qed.

End OrdMapOk.
