(* ===== verification/BlockHash.v ===== *)
(** * Block hashes and their orders: common/block.h and common/block.cpp

    A block hash starts with the chain identifier, the height and the slot of its
    block, as variable-length integers ([uint256_of]); the accessors read them back
    and two comparisons order blocks by them.  A hash is the value of its 256 bits. *)

From Stdlib Require Import ZArith List Lia Bool.
From S2P Require Import Prelude Radix Stream UInt256 UInt256Ok UInt256Io OrdMap.
Import ListNotations.
Local Open Scope Z_scope.

(** The words of a 256-bit value. *)
Definition words256 (h : Z) : list Z := rdig WORD 8 h.

Definition GetBlockChainIdByHash (h : Z) : Z := GetB1 (words256 h).
Definition GetBlockHeightByHash (h : Z) : Z := GetB2 (words256 h).
Definition GetBlockSlotByHash (h : Z) : Z := GetB3 (words256 h).

Definition CreateBlockHash (nChainId nHeight nSlot hash : Z) : Z :=
  value (uint256_of nChainId nHeight nSlot (words256 hash)).

(** true: a < b, false: a >= b *)
Definition BlockHashCompare (a b : Z) : bool :=
  let nChainIdA := GetBlockChainIdByHash a in
  let nChainIdB := GetBlockChainIdByHash b in
  if nChainIdA <? nChainIdB then true
  else if nChainIdA =? nChainIdB then
    let nHeightA := GetBlockHeightByHash a in
    let nHeightB := GetBlockHeightByHash b in
    if nHeightA <? nHeightB then true
    else if nHeightA =? nHeightB then
      let nSlotA := GetBlockSlotByHash a in
      let nSlotB := GetBlockSlotByHash b in
      if nSlotA <? nSlotB then true
      else (nSlotA =? nSlotB) && (a <? b)
    else false
  else false.

(** struct CustomBlockHashCompare: height, slot, chain, hash. *)
Definition CustomBlockHashCompare (a b : Z) : bool :=
  let nHeightA := GetBlockHeightByHash a in
  let nHeightB := GetBlockHeightByHash b in
  if nHeightA <? nHeightB then true
  else if nHeightA =? nHeightB then
    let nSlotA := GetBlockSlotByHash a in
    let nSlotB := GetBlockSlotByHash b in
    if nSlotA <? nSlotB then true
    else if nSlotA =? nSlotB then
      let nChainIdA := GetBlockChainIdByHash a in
      let nChainIdB := GetBlockChainIdByHash b in
      if nChainIdA <? nChainIdB then true
      else (nChainIdA =? nChainIdB) && (a <? b)
    else false
  else false.

(** ** Lexicographic comparisons *)

(** Compare by [f], then by [tie]. *)
Definition lexb {K} (f : K -> Z) (tie : K -> K -> bool) (a b : K) : bool :=
  if f a <? f b then true else if f a =? f b then tie a b else false.

Section Lex.
Context {K : Type}.

(** The comparisons whose incomparable elements agree on [R]. *)
Record order_on (R : K -> K -> Prop) (ltb : K -> K -> bool) : Prop := {
  oo_irrefl : forall x, ltb x x = false;
  oo_trans : forall x y z, ltb x y = true -> ltb y z = true -> ltb x z = true;
  oo_total : forall x y, ltb x y = false -> ltb y x = false -> R x y
}.

Lemma lexb_order f tie R : order_on R tie -> order_on (fun x y => f x = f y /\ R x y) (lexb f tie).
Proof.
  intros [Hi Ht Htot]. split; unfold lexb.
  - intros x. now rewrite Z.ltb_irrefl, Z.eqb_refl.
  - intros x y z. destruct (Z.ltb_spec (f x) (f y)), (Z.ltb_spec (f y) (f z)); intros H1 H2;
      destruct (Z.ltb_spec (f x) (f z)); try reflexivity;
      destruct (Z.eqb_spec (f x) (f y)), (Z.eqb_spec (f y) (f z)), (Z.eqb_spec (f x) (f z));
      try lia; try discriminate; eauto.
  - intros x y. destruct (Z.ltb_spec (f x) (f y)), (Z.ltb_spec (f y) (f x)),
      (Z.eqb_spec (f x) (f y)), (Z.eqb_spec (f y) (f x)); intros H1 H2; try discriminate; try lia; auto.
Qed.

Lemma ltb_order f : order_on (fun x y => f x = f y) (fun x y : K => f x <? f y).
Proof.
  split.
  - intros x. apply Z.ltb_irrefl.
  - intros x y z H1 H2. rewrite Z.ltb_lt in *. lia.
  - intros x y H1 H2. rewrite Z.ltb_ge in *. lia.
Qed.

Lemma order_strict R ltb : order_on R ltb -> (forall x y, R x y -> x = y) -> StrictOrder ltb.
Proof. intros [Hi Ht Htot] HR. split; auto. Qed.

Lemma order_ext R ltb ltb' : (forall x y, ltb x y = ltb' x y) -> order_on R ltb' -> order_on R ltb.
Proof. intros E [Hi Ht Htot]. split; intros *; rewrite ?E; eauto. Qed.

End Lex.

(** Two nested tests of the same conditions. *)
Ltac same_ifs :=
  unfold andb; cbv beta zeta;
  repeat match goal with |- context [if ?b then _ else _] => destruct b end; reflexivity.

#[export] Instance BlockHashCompare_strict : StrictOrder BlockHashCompare.
Proof.
  eapply order_strict; [eapply order_ext; [|apply (lexb_order GetBlockChainIdByHash),
    (lexb_order GetBlockHeightByHash), (lexb_order GetBlockSlotByHash), (ltb_order (fun h : Z => h))]|cbv beta; tauto].
  intros x y. unfold BlockHashCompare, lexb. same_ifs.
Qed.

#[export] Instance CustomBlockHashCompare_strict : StrictOrder CustomBlockHashCompare.
Proof.
  eapply order_strict; [eapply order_ext; [|apply (lexb_order GetBlockHeightByHash),
    (lexb_order GetBlockSlotByHash), (lexb_order GetBlockChainIdByHash), (ltb_order (fun h : Z => h))]|cbv beta; tauto].
  intros x y. unfold CustomBlockHashCompare, lexb. same_ifs.
Qed.

(** ** Packing *)

Lemma words256_ok h : 0 <= h < U256 -> uint 8 (words256 h) /\ value (words256 h) = h.
Proof.
  intros Hh. unfold words256, value. split.
  - split; [apply length_rdig|apply rdigs_rdig; exact WORD_pos].
  - rewrite rval_rdig by exact WORD_pos. apply Z.mod_small. exact Hh.
Qed.

Lemma words256_value a : uint 8 a -> words256 (value a) = a.
Proof. intros [HL Hd]. unfold words256, value. rewrite <- HL. apply rdig_rval; [exact WORD_pos|exact Hd]. Qed.

Lemma create_block_hash c h s n : 0 <= c < 2 ^ 32 -> 0 <= h < 2 ^ 32 -> 0 <= s < 2 ^ 16 -> 0 <= n < U256 ->
  0 <= CreateBlockHash c h s n < U256 /\ GetBlockChainIdByHash (CreateBlockHash c h s n) = c /\
  GetBlockHeightByHash (CreateBlockHash c h s n) = h /\ GetBlockSlotByHash (CreateBlockHash c h s n) = s.
Proof.
  intros Hc Hh Hs Hn. destruct (words256_ok n Hn) as [Hw _].
  assert (P : 2 ^ 32 < U64 /\ 2 ^ 16 < U64) by (split; reflexivity).
  destruct (uint256_of_bytes c h s (words256 n)) as [Hu _]; try lia; [exact Hw|].
  unfold GetBlockChainIdByHash, GetBlockHeightByHash, GetBlockSlotByHash, CreateBlockHash, GetB1, GetB2, GetB3.
  rewrite words256_value by exact Hu. rewrite load_b123_ok by (auto; lia).
  split; [apply (value_bound 8); exact Hu|]. now rewrite !Z.mod_small by lia.
Qed.
