(* ===== verification/MatchDex.v ===== *)
(** * The exchange's order book: storage/matchdex.h and storage/matchdex.cpp

    [CCoinDexPair] keeps the open orders of a pair of coins in two maps, sell orders
    by rising price and buy orders by falling price, each then by the height and slot
    of its block; [MatchOrder] pairs them off.  Amounts and prices are [uint256]
    values: products and sums wrap around modulo 2^256.  [CMatchDex] holds the pairs
    of all coins. *)

From Stdlib Require Import ZArith List Lia Bool String.
From stdpp Require Import base gmap.
From S2P Require Import UInt256 OrdMap BlockHash.
Import ListNotations.
Local Open Scope Z_scope.

(** ** Arithmetic of [uint256] values *)

Definition u_add (a b : Z) : Z := (a + b) mod U256.
Definition u_sub (a b : Z) : Z := (a - b) mod U256.
Definition u_mul (a b : Z) : Z := (a * b) mod U256.
Definition u_div (a b : Z) : Z := a / b.

(** ** CMatchTools *)

Definition CalcPeerPrice (nSelfPrice nPriceAnchor : Z) : Z :=
  if nSelfPrice =? 0 then 0 else u_div (u_mul nPriceAnchor nPriceAnchor) nSelfPrice.

Definition CalcCompletePrice (nBuyPrice nSellPrice nPrevCompletePrice : Z) : Z :=
  if nPrevCompletePrice <=? nSellPrice then nSellPrice
  else if nPrevCompletePrice <=? nBuyPrice then nPrevCompletePrice
  else nBuyPrice.

Definition CalcBuyAmount (nSellAmount nCompletePrice nSellPriceAnchor : Z) : Z :=
  if nSellPriceAnchor =? 0 then 0 else u_div (u_mul nSellAmount nCompletePrice) nSellPriceAnchor.

Definition CalcSellAmount (nBuyAmount nCompletePrice nSellPriceAnchor : Z) : Z :=
  if nCompletePrice =? 0 then 0 else u_div (u_mul nBuyAmount nSellPriceAnchor) nCompletePrice.

(** ** Orders *)

Record CDexOrderKey := mk_key { nPrice : Z; nHeight : Z; nSlot : Z; hashOrderRandom : Z }.

Definition GetHeightSlotStatic (h s : Z) : Z := Z.lor (Z.shiftl h 32) s.
Definition GetHeightByHsStatic (hs : Z) : Z := Z.shiftr hs 32 mod 2 ^ 32.
Definition GetSlotByHsStatic (hs : Z) : Z := Z.land hs (Z.ones 16).
Definition GetHeightSlotValue (k : CDexOrderKey) : Z := GetHeightSlotStatic (nHeight k) (nSlot k).

Record CDexOrderValue := mk_value {
  destOrder : string; nOrderNumber : Z; nOrderAmount : Z; nCompleteAmount : Z;
  nCompleteCount : Z; nOrderAtChainId : Z; hashOrderAtBlock : Z
}.

Definition GetSurplusAmount (v : CDexOrderValue) : Z :=
  if nCompleteAmount v <? nOrderAmount v then u_sub (nOrderAmount v) (nCompleteAmount v) else 0.

Definition CustomCompareSellOrder (a b : CDexOrderKey) : bool :=
  if nPrice a <? nPrice b then true
  else if nPrice a =? nPrice b then
    if nHeight a <? nHeight b then true
    else if nHeight a =? nHeight b then
      if nSlot a <? nSlot b then true
      else if nSlot a =? nSlot b then hashOrderRandom a <? hashOrderRandom b else false
    else false
  else false.

Definition CustomCompareBuyOrder (a b : CDexOrderKey) : bool :=
  if nPrice b <? nPrice a then true
  else if nPrice b =? nPrice a then
    if nHeight a <? nHeight b then true
    else if nHeight a =? nHeight b then
      if nSlot a <? nSlot b then true
      else if nSlot a =? nSlot b then hashOrderRandom a <? hashOrderRandom b else false
    else false
  else false.

Inductive order_type := CDP_ORDER_TYPE_SELL | CDP_ORDER_TYPE_BUY.

Definition orders : Type := list (CDexOrderKey * CDexOrderValue).

(** ** CCoinDexPair *)

Record CCoinDexPair := mk_pair {
  strCoinSymbolSell : string; strCoinSymbolBuy : string;
  nSellChainId : Z; nBuyChainId : Z;
  nSellPriceAnchor : Z; nPrevCompletePrice : Z; nMatchHeightSlot : Z;
  mapSellOrder : orders; mapBuyOrder : orders;
  mapDexOrderIndex : gmap Z (CDexOrderKey * order_type)
}.

Definition set_orders (p : CCoinDexPair) (sells buys : orders) (index : gmap Z (CDexOrderKey * order_type)) :=
  mk_pair (strCoinSymbolSell p) (strCoinSymbolBuy p) (nSellChainId p) (nBuyChainId p) (nSellPriceAnchor p)
    (nPrevCompletePrice p) (nMatchHeightSlot p) sells buys index.

Definition SetPrevCompletePrice (p : CCoinDexPair) (nPrevPrice : Z) : CCoinDexPair :=
  mk_pair (strCoinSymbolSell p) (strCoinSymbolBuy p) (nSellChainId p) (nBuyChainId p) (nSellPriceAnchor p)
    nPrevPrice (nMatchHeightSlot p) (mapSellOrder p) (mapBuyOrder p) (mapDexOrderIndex p).

(** if (nHeightSlot > nMatchHeightSlot) nMatchHeightSlot = nHeightSlot; *)
Definition raise_height_slot (p : CCoinDexPair) (hash : Z) : CCoinDexPair :=
  let nHeightSlot := GetHeightSlotStatic (GetBlockHeightByHash hash) (GetBlockSlotByHash hash) in
  if nMatchHeightSlot p <? nHeightSlot then
    mk_pair (strCoinSymbolSell p) (strCoinSymbolBuy p) (nSellChainId p) (nBuyChainId p) (nSellPriceAnchor p)
      (nPrevCompletePrice p) nHeightSlot (mapSellOrder p) (mapBuyOrder p) (mapDexOrderIndex p)
  else p.

(** AddOrder; [None] where it returns false. *)
Definition AddOrder (p : CCoinDexPair) (hashDexOrder : Z) (strCoinSymbolOwner : string)
    (keyOrder : CDexOrderKey) (v : CDexOrderValue) : option CCoinDexPair :=
  let placed :=
    if String.eqb strCoinSymbolOwner (strCoinSymbolSell p) then
      Some (om_set CustomCompareSellOrder keyOrder v (mapSellOrder p), mapBuyOrder p, CDP_ORDER_TYPE_SELL)
    else if String.eqb strCoinSymbolOwner (strCoinSymbolBuy p) then
      Some (mapSellOrder p, om_set CustomCompareBuyOrder keyOrder v (mapBuyOrder p), CDP_ORDER_TYPE_BUY)
    else None in
  match placed with
  | None => None
  | Some (sells, buys, nOrderType) =>
      let p := set_orders p sells buys (<[hashDexOrder := (keyOrder, nOrderType)]> (mapDexOrderIndex p)) in
      Some (if negb (nSellChainId p =? 0) && (nSellChainId p =? nBuyChainId p) && negb (hashOrderAtBlock v =? 0)
            then raise_height_slot p (hashOrderAtBlock v) else p)
  end.

Definition set_complete (v : CDexOrderValue) (amount count : Z) : CDexOrderValue :=
  mk_value (destOrder v) (nOrderNumber v) (nOrderAmount v) amount count (nOrderAtChainId v) (hashOrderAtBlock v).

(** The branch of UpdateCompleteOrder for one of the two maps. *)
Definition complete_in (ltb : CDexOrderKey -> CDexOrderKey -> bool) (m : orders) (k : CDexOrderKey)
    (amount count : Z) : option (orders * bool) :=
  match om_find ltb k m with
  | None => None
  | Some v =>
      let v := set_complete v amount count in
      if GetSurplusAmount v =? 0 then Some (om_erase ltb k m, true) else Some (om_set ltb k v m, false)
  end.

Definition UpdateCompleteOrder (p : CCoinDexPair) (hashDexOrder nComplete nCount : Z) : CCoinDexPair * bool :=
  match mapDexOrderIndex p !! hashDexOrder with
  | None => (p, false)
  | Some (keyOrder, CDP_ORDER_TYPE_SELL) =>
      match complete_in CustomCompareSellOrder (mapSellOrder p) keyOrder nComplete nCount with
      | None => (p, false)
      | Some (m, gone) =>
          (set_orders p m (mapBuyOrder p)
             (if gone then delete hashDexOrder (mapDexOrderIndex p) else mapDexOrderIndex p), true)
      end
  | Some (keyOrder, CDP_ORDER_TYPE_BUY) =>
      match complete_in CustomCompareBuyOrder (mapBuyOrder p) keyOrder nComplete nCount with
      | None => (p, false)
      | Some (m, gone) =>
          (set_orders p (mapSellOrder p) m
             (if gone then delete hashDexOrder (mapDexOrderIndex p) else mapDexOrderIndex p), true)
      end
  end.

Definition UpdatePeerCoinPairLastBlock (p : CCoinDexPair) (hashLastProveBlock : Z) : CCoinDexPair :=
  if hashLastProveBlock =? 0 then p else raise_height_slot p hashLastProveBlock.

(** ** MatchOrder *)

Record CMatchOrderRecord := mk_record {
  destSellOrder : string; nSellOrderNumber : Z; nSellCompleteAmount : Z; nSellCompletePrice : Z;
  nSellOrderAtChainId : Z;
  destBuyOrder : string; nBuyOrderNumber : Z; nBuyCompleteAmount : Z; nBuyCompletePrice : Z;
  nBuyOrderAtChainId : Z;
  nCompletePrice : Z
}.

Definition amounts : Type := list (CDexOrderKey * Z).

(** What [funcMatch] captures: the amounts completed so far, the last price and the
    records. *)
Record match_state := mk_state {
  mapSellCompleteAmount : amounts; mapBuyCompleteAmount : amounts;
  prevPrice : Z; vMatchOrderRecord : list CMatchOrderRecord
}.

(** auto mt = m.find(k); if (mt == m.end()) mt = m.insert(make_pair(k, init)).first; *)
Definition amount_of (ltb : CDexOrderKey -> CDexOrderKey -> bool) (m : amounts) (k : CDexOrderKey) (init : Z) : Z :=
  match om_find ltb k m with Some x => x | None => init end.

(** The amounts exchanged by a sell order with [nCalcSell] left and a buy order with
    [nCalcBuy] left. *)
Definition trade (anchor price nCalcSell nCalcBuy : Z) : Z * Z :=
  let nBuy := CalcBuyAmount nCalcSell price anchor in
  if nCalcBuy <? nBuy then (CalcSellAmount nCalcBuy price anchor, nCalcBuy) else (nCalcSell, nBuy).

(** The loop over the buy orders for the sell order [(ks, vs)] with [nCalcSell] left. *)
Fixpoint match_buys (anchor nEnd : Z) (ks : CDexOrderKey) (vs : CDexOrderValue) (buys : orders)
    (st : match_state) (nCalcSell : Z) : match_state * Z :=
  match buys with
  | [] => (st, nCalcSell)
  | (kb, vb) :: buys' =>
      if negb (nEnd =? 0) && (nEnd <? GetHeightSlotValue kb) then match_buys anchor nEnd ks vs buys' st nCalcSell
      else
        let nBuyComp := amount_of CustomCompareBuyOrder (mapBuyCompleteAmount st) kb (nCompleteAmount vb) in
        let buyComp := om_set CustomCompareBuyOrder kb nBuyComp (mapBuyCompleteAmount st) in
        let st := mk_state (mapSellCompleteAmount st) buyComp (prevPrice st) (vMatchOrderRecord st) in
        if nBuyComp <? nOrderAmount vb then
          let nCalcBuy := u_sub (nOrderAmount vb) nBuyComp in
          if nPrice kb <? nPrice ks then (st, nCalcSell)
          else
            let price := CalcCompletePrice (nPrice kb) (nPrice ks) (prevPrice st) in
            let '(nSell, nBuy) := trade anchor price nCalcSell nCalcBuy in
            let rec := mk_record (destOrder vs) (nOrderNumber vs) nSell (nPrice ks) (nOrderAtChainId vs)
                         (destOrder vb) (nOrderNumber vb) nBuy (nPrice kb) (nOrderAtChainId vb) price in
            let nCalcSell := u_sub nCalcSell nSell in
            let nSellComp := amount_of CustomCompareSellOrder (mapSellCompleteAmount st) ks 0 in
            let st := mk_state
                        (om_set CustomCompareSellOrder ks (u_add nSellComp nSell) (mapSellCompleteAmount st))
                        (om_set CustomCompareBuyOrder kb (u_add nBuyComp nBuy) buyComp)
                        price (vMatchOrderRecord st ++ [rec]) in
            if nCalcSell =? 0 then (st, nCalcSell) else match_buys anchor nEnd ks vs buys' st nCalcSell
        else match_buys anchor nEnd ks vs buys' st nCalcSell
  end.

(** The loop over the sell orders. *)
Fixpoint match_sells (anchor nEnd : Z) (sells buys : orders) (st : match_state) : match_state :=
  match sells with
  | [] => st
  | (ks, vs) :: sells' =>
      if negb (nEnd =? 0) && (nEnd <? GetHeightSlotValue ks) then match_sells anchor nEnd sells' buys st
      else
        let nSellComp := amount_of CustomCompareSellOrder (mapSellCompleteAmount st) ks (nCompleteAmount vs) in
        let st := mk_state (om_set CustomCompareSellOrder ks nSellComp (mapSellCompleteAmount st))
                    (mapBuyCompleteAmount st) (prevPrice st) (vMatchOrderRecord st) in
        if nSellComp <? nOrderAmount vs then
          let '(st, nCalcSell) := match_buys anchor nEnd ks vs buys st (u_sub (nOrderAmount vs) nSellComp) in
          if nCalcSell =? 0 then match_sells anchor nEnd sells' buys st else st
        else match_sells anchor nEnd sells' buys st
  end.

Definition funcMatch (p : CCoinDexPair) (nMatchEndHeightSlot : Z) (st : match_state) : match_state :=
  match_sells (nSellPriceAnchor p) nMatchEndHeightSlot (mapSellOrder p) (mapBuyOrder p) st.

(** The height slots of the open orders that may be matched, as [std::set<uint64>]. *)
Definition open_slots (p : CCoinDexPair) (m : orders) (slots : list (Z * unit)) : list (Z * unit) :=
  fold_left (fun slots kv =>
    let nHeightSlot := GetHeightSlotValue (fst kv) in
    if negb (nMatchHeightSlot p =? 0) && (nMatchHeightSlot p <? nHeightSlot) then slots
    else if nCompleteAmount (snd kv) <? nOrderAmount (snd kv) then om_set Z.ltb nHeightSlot () slots
    else slots) m slots.

Definition setMatchHeightSlot (p : CCoinDexPair) : list (Z * unit) :=
  open_slots p (mapBuyOrder p) (open_slots p (mapSellOrder p) []).

Definition run_match (p : CCoinDexPair) : match_state :=
  fold_left (fun st slot => funcMatch p (fst slot) st) (setMatchHeightSlot p)
    (mk_state [] [] (nPrevCompletePrice p) []).

(** The pair with its new last price, and the records. *)
Definition MatchOrder (p : CCoinDexPair) : CCoinDexPair * list CMatchOrderRecord :=
  let st := run_match p in (SetPrevCompletePrice p (prevPrice st), vMatchOrderRecord st).

(** ** CMatchDex *)

(** The body of an order, as far as this component reads it. *)
Record CDexOrderBody := mk_body {
  strCoinSymbolOwner : string; strCoinSymbolPeer : string;
  body_nOrderAmount : Z; body_nOrderPrice : Z;
  nCompleteOrderAmount : Z; nCompleteOrderCount : Z; nCoinAtChainIdPeer : Z
}.

Record CMatchDex := mk_dex {
  mapCoinDex : gmap Z CCoinDexPair;
  mapChainIdLinkCoinDexPair : gmap Z (gset Z)
}.

(** 1 token of 18 decimals. *)
Definition COIN : Z := 10 ^ 18.

Section CMatchDex.
(** Functions of [CDexOrderHeader], whose code is not in the repository. *)
Variable GetCoinPairHashStatic : string -> string -> Z.
Variable GetOrderRandomHashStatic : Z -> Z -> Z.
Variable GetSellCoinSymbol GetBuyCoinSymbol : string -> string -> string.

Definition AddMatchDexOrder (d : CMatchDex) (hashDexOrder : Z) (dest : string) (nNumber : Z) (o : CDexOrderBody)
    (nAtChainId hashAtBlock nPrevPrice : Z) : CMatchDex * bool :=
  let owner := strCoinSymbolOwner o in
  let peer := strCoinSymbolPeer o in
  let hashCoinPair := GetCoinPairHashStatic owner peer in
  let pair :=
    match mapCoinDex d !! hashCoinPair with
    | None =>
        let '(nSell, nBuy) :=
          if String.eqb (GetSellCoinSymbol owner peer) owner then (nAtChainId, nCoinAtChainIdPeer o)
          else (nCoinAtChainIdPeer o, nAtChainId) in
        mk_pair (GetSellCoinSymbol owner peer) (GetBuyCoinSymbol owner peer) nSell nBuy COIN nPrevPrice 0 [] [] ∅
    | Some p => if nPrevPrice =? 0 then p else SetPrevCompletePrice p nPrevPrice
    end in
  let added :=
    if nCompleteOrderAmount o <? body_nOrderAmount o then
      AddOrder pair hashDexOrder owner
        (mk_key (body_nOrderPrice o) (GetBlockHeightByHash hashAtBlock) (GetBlockSlotByHash hashAtBlock)
           (GetOrderRandomHashStatic hashAtBlock hashDexOrder))
        (mk_value dest nNumber (body_nOrderAmount o) (nCompleteOrderAmount o) (nCompleteOrderCount o)
           nAtChainId hashAtBlock)
    else Some pair in
  match added with
  | None => (mk_dex (<[hashCoinPair := pair]> (mapCoinDex d)) (mapChainIdLinkCoinDexPair d), false)
  | Some p =>
      (mk_dex (<[hashCoinPair := p]> (mapCoinDex d))
         (<[nAtChainId := {[hashCoinPair]} ∪ default ∅ (mapChainIdLinkCoinDexPair d !! nAtChainId)]>
            (mapChainIdLinkCoinDexPair d)), true)
  end.

End CMatchDex.

Definition UpdateMatchCompleteOrder (d : CMatchDex) (hashCoinPair hashDexOrder nComplete nCount : Z)
    : CMatchDex * bool :=
  match mapCoinDex d !! hashCoinPair with
  | None => (d, false)
  | Some p =>
      let '(p, ok) := UpdateCompleteOrder p hashDexOrder nComplete nCount in
      (mk_dex (<[hashCoinPair := p]> (mapCoinDex d)) (mapChainIdLinkCoinDexPair d), ok)
  end.

Definition UpdatePeerProveLastBlock (d : CMatchDex) (nPeerChainId hashLastProveBlock : Z) : CMatchDex :=
  match mapChainIdLinkCoinDexPair d !! nPeerChainId with
  | None => d
  | Some pairs =>
      mk_dex (fold_left (fun m h => match m !! h with
                                    | None => m
                                    | Some p => <[h := UpdatePeerCoinPairLastBlock p hashLastProveBlock]> m
                                    end) (elements pairs) (mapCoinDex d))
        (mapChainIdLinkCoinDexPair d)
  end.

Definition UpdateCompletePrice (d : CMatchDex) (hashCoinPair nPrice : Z) : CMatchDex :=
  match mapCoinDex d !! hashCoinPair with
  | None => d
  | Some p => mk_dex (<[hashCoinPair := SetPrevCompletePrice p nPrice]> (mapCoinDex d)) (mapChainIdLinkCoinDexPair d)
  end.
