(* ===== verification/MatchDexOk.v ===== *)
(** * Correctness of order matching

    The comparisons of the order book are strict total orders; a trade respects both
    orders' prices and amounts; a matching pass never completes more than an order
    offers, accounts for every amount in its records, and leaves no pair of open
    orders whose prices cross. *)

From Stdlib Require Import ZArith List Lia Bool String Sorted.
From S2P Require Import Prelude UInt256 OrdMap BlockHash MatchDex.
Import ListNotations.
Local Open Scope Z_scope.

(** ** Keys *)

Lemma key_ext a b : nPrice a = nPrice b -> nHeight a = nHeight b -> nSlot a = nSlot b ->
  hashOrderRandom a = hashOrderRandom b -> a = b.
Proof. destruct a, b; cbn; congruence. Qed.

Definition key_dec (a b : CDexOrderKey) : {a = b} + {a <> b}.
Proof. decide equality; apply Z.eq_dec. Defined.

#[export] Instance sell_order_strict : StrictOrder CustomCompareSellOrder.
Proof.
  eapply order_strict; [eapply order_ext; [|apply (lexb_order nPrice), (lexb_order nHeight),
    (lexb_order nSlot), (ltb_order hashOrderRandom)]|cbv beta; intros x y (?&?&?&?); now apply key_ext].
  intros x y. unfold CustomCompareSellOrder, lexb. same_ifs.
Qed.

#[export] Instance buy_order_strict : StrictOrder CustomCompareBuyOrder.
Proof.
  eapply order_strict; [eapply order_ext; [|apply (lexb_order (fun k => - nPrice k)), (lexb_order nHeight),
    (lexb_order nSlot), (ltb_order hashOrderRandom)]|cbv beta; intros x y (?&?&?&?); apply key_ext; lia].
  intros x y. unfold CustomCompareBuyOrder, lexb.
  replace (- nPrice x <? - nPrice y) with (nPrice y <? nPrice x) by (destruct (Z.ltb_spec (nPrice y) (nPrice x)), (Z.ltb_spec (- nPrice x) (- nPrice y)); lia).
  replace (- nPrice x =? - nPrice y) with (nPrice y =? nPrice x) by (destruct (Z.eqb_spec (nPrice y) (nPrice x)), (Z.eqb_spec (- nPrice x) (- nPrice y)); lia).
  same_ifs.
Qed.

#[export] Instance Z_ltb_strict : StrictOrder Z.ltb.
Proof. apply (order_strict (fun x y => x = y)); [apply (ltb_order (fun z : Z => z))|auto]. Qed.

Lemma sell_order_price a b : CustomCompareSellOrder a b = true -> nPrice a <= nPrice b.
Proof.
  unfold CustomCompareSellOrder. destruct (Z.ltb_spec (nPrice a) (nPrice b)); [lia|].
  destruct (Z.eqb_spec (nPrice a) (nPrice b)); [lia|discriminate].
Qed.

Lemma buy_order_price a b : CustomCompareBuyOrder a b = true -> nPrice b <= nPrice a.
Proof.
  unfold CustomCompareBuyOrder. destruct (Z.ltb_spec (nPrice b) (nPrice a)); [lia|].
  destruct (Z.eqb_spec (nPrice b) (nPrice a)); [lia|discriminate].
Qed.

Lemma height_slot h s : 0 <= h < 2 ^ 32 -> 0 <= s < 2 ^ 16 ->
  GetHeightByHsStatic (GetHeightSlotStatic h s) = h /\ GetSlotByHsStatic (GetHeightSlotStatic h s) = s /\
  GetHeightSlotStatic h s = h * 2 ^ 32 + s.
Proof.
  intros Hh Hs. unfold GetHeightByHsStatic, GetSlotByHsStatic, GetHeightSlotStatic.
  assert (P : 2 ^ 16 < 2 ^ 32) by reflexivity.
  rewrite lor_shiftl_add by lia. rewrite Z.shiftr_div_pow2, Z.land_ones by lia.
  rewrite Z.div_add_l, (Z.div_small s), Z.add_0_r, Z.mod_small by lia.
  replace (h * 2 ^ 32 + s) with (s + h * 2 ^ 16 * 2 ^ 16) at 1 by (change (2 ^ 32) with (2 ^ 16 * 2 ^ 16); ring).
  now rewrite Z.mod_add, Z.mod_small by lia.
Qed.

(** ** One trade *)

Lemma complete_price buy sell prev : sell <= buy -> sell <= CalcCompletePrice buy sell prev <= buy.
Proof.
  intros H. unfold CalcCompletePrice.
  destruct (Z.leb_spec prev sell); [lia|]. destruct (Z.leb_spec prev buy); lia.
Qed.

(** What a record may say: the price lies between the two orders' prices, and one amount
    is the other at that price, rounded down. *)
Definition fair (anchor price sell buy : Z) : Prop :=
  buy = sell * price / anchor \/ (0 < price /\ sell = buy * anchor / price /\ buy * anchor <= (sell + 1) * price).

Lemma trade_ok anchor price s b : 0 < anchor -> 0 <= price -> 0 <= s -> 0 <= b ->
  s * price < U256 -> b * anchor < U256 ->
  let '(sell, buy) := trade anchor price s b in
  0 <= sell <= s /\ 0 <= buy <= b /\ (sell = s \/ buy = b) /\ fair anchor price sell buy.
Proof.
  intros Ha Hp Hs Hb H1 H2. unfold trade, CalcBuyAmount, CalcSellAmount, u_div, u_mul.
  rewrite (proj2 (Z.eqb_neq anchor 0)) by lia.
  assert (Hsp : 0 <= s * price) by (apply Z.mul_nonneg_nonneg; lia).
  assert (Hba : 0 <= b * anchor) by (apply Z.mul_nonneg_nonneg; lia).
  rewrite (Z.mod_small (s * price)), (Z.mod_small (b * anchor)) by lia.
  assert (Hq : 0 <= s * price / anchor) by (apply Z.div_pos; lia).
  destruct (Z.ltb_spec b (s * price / anchor)) as [Hlt|Hge].
  - assert (Hle : (b + 1) * anchor <= s * price).
    { pose proof (Z.mul_div_le (s * price) anchor Ha).
      apply Z.le_trans with (anchor * (s * price / anchor)); [|lia]. rewrite Z.mul_comm.
      apply Z.mul_le_mono_nonneg_l; lia. }
    assert (Hp0 : 0 < price) by (destruct (Z.eq_dec price 0) as [->|]; [rewrite Z.mul_0_r in Hle; lia|lia]).
    rewrite (proj2 (Z.eqb_neq price 0)) by lia.
    split; [split; [apply Z.div_pos; lia|apply Z.div_le_upper_bound; lia]|].
    split; [lia|]. split; [auto|]. right. split; [exact Hp0|]. split; [reflexivity|].
    pose proof (Z.mul_succ_div_gt (b * anchor) price Hp0). lia.
  - split; [lia|]. split; [lia|]. split; [auto|]. left. reflexivity.
Qed.

(** ** Passes *)

Definition eligible (nEnd : Z) (k : CDexOrderKey) : bool := negb (negb (nEnd =? 0) && (nEnd <? GetHeightSlotValue k)).

Section Passes.
Variables (anchor A P : Z) (sells buys : orders).

(** The bounds under which no product wraps around. *)
Definition order_ok (kv : CDexOrderKey * CDexOrderValue) : Prop :=
  0 <= nPrice (fst kv) <= P /\ 0 <= nOrderAmount (snd kv) <= A /\ 0 <= nCompleteAmount (snd kv).

Hypothesis anchor_pos : 0 < anchor.
Hypothesis A_word : A < U256.
Hypothesis A_P : A * P < U256.
Hypothesis A_anchor : A * anchor < U256.
Hypothesis sells_sorted : om_sorted CustomCompareSellOrder sells.
Hypothesis buys_sorted : om_sorted CustomCompareBuyOrder buys.
Hypothesis sells_ok : Forall order_ok sells.
Hypothesis buys_ok : Forall order_ok buys.

(** The amount of an order completed so far. *)
Definition sell_done (st : match_state) (kv : CDexOrderKey * CDexOrderValue) : Z :=
  amount_of CustomCompareSellOrder (mapSellCompleteAmount st) (fst kv) (nCompleteAmount (snd kv)).
Definition buy_done (st : match_state) (kv : CDexOrderKey * CDexOrderValue) : Z :=
  amount_of CustomCompareBuyOrder (mapBuyCompleteAmount st) (fst kv) (nCompleteAmount (snd kv)).

Definition within (done : CDexOrderKey * CDexOrderValue -> Z) (kv : CDexOrderKey * CDexOrderValue) : Prop :=
  nCompleteAmount (snd kv) <= done kv <= Z.max (nCompleteAmount (snd kv)) (nOrderAmount (snd kv)).

Definition total (f : CDexOrderKey * CDexOrderValue -> Z) (l : orders) : Z := fold_right (fun kv n => f kv + n) 0 l.

Definition record_ok (r : CMatchOrderRecord) : Prop :=
  nSellCompletePrice r <= nCompletePrice r <= nBuyCompletePrice r /\
  0 <= nSellCompleteAmount r /\ 0 <= nBuyCompleteAmount r /\
  fair anchor (nCompletePrice r) (nSellCompleteAmount r) (nBuyCompleteAmount r).

Definition sum_records (f : CMatchOrderRecord -> Z) (l : list CMatchOrderRecord) : Z :=
  fold_right (fun r n => f r + n) 0 l.

Record match_inv (st : match_state) : Prop := {
  mi_sell_sorted : om_sorted CustomCompareSellOrder (mapSellCompleteAmount st);
  mi_buy_sorted : om_sorted CustomCompareBuyOrder (mapBuyCompleteAmount st);
  mi_sells : Forall (within (sell_done st)) sells;
  mi_buys : Forall (within (buy_done st)) buys;
  mi_records : Forall record_ok (vMatchOrderRecord st);
  mi_sold : total (fun kv => sell_done st kv - nCompleteAmount (snd kv)) sells =
            sum_records nSellCompleteAmount (vMatchOrderRecord st);
  mi_bought : total (fun kv => buy_done st kv - nCompleteAmount (snd kv)) buys =
              sum_records nBuyCompleteAmount (vMatchOrderRecord st)
}.

(** Completed amounts only grow. *)
Definition grows (st st' : match_state) : Prop :=
  (forall kv, In kv sells -> sell_done st kv <= sell_done st' kv) /\
  (forall kv, In kv buys -> buy_done st kv <= buy_done st' kv).

Lemma grows_refl st : grows st st.
Proof. split; intros; lia. Qed.

Lemma grows_trans st1 st2 st3 : grows st1 st2 -> grows st2 st3 -> grows st1 st3.
Proof.
  intros [S1 B1] [S2 B2]. split; intros kv H.
  - specialize (S1 kv H). specialize (S2 kv H). lia.
  - specialize (B1 kv H). specialize (B2 kv H). lia.
Qed.

(** *** Completed amounts after an assignment *)

Lemma sorted_same_key (ltb : CDexOrderKey -> CDexOrderKey -> bool) {O : StrictOrder ltb} (m : orders) kv kv' :
  om_sorted ltb m -> In kv m -> In kv' m -> fst kv = fst kv' -> kv = kv'.
Proof.
  destruct kv as [k v], kv' as [k' v']. cbn. intros Hs H H' ->.
  apply (om_in_find ltb) in H, H'; auto. congruence.
Qed.

Lemma amount_of_set_eq (ltb : CDexOrderKey -> CDexOrderKey -> bool) {O : StrictOrder ltb} (m : amounts) k x init :
  om_sorted ltb m -> amount_of ltb (om_set ltb k x m) k init = x.
Proof. intros Hs. unfold amount_of. now rewrite om_find_set_eq. Qed.

Lemma amount_of_set_ne (ltb : CDexOrderKey -> CDexOrderKey -> bool) {O : StrictOrder ltb} (m : amounts) k x k' init :
  om_sorted ltb m -> k' <> k -> amount_of ltb (om_set ltb k x m) k' init = amount_of ltb m k' init.
Proof. intros Hs H. unfold amount_of. now rewrite om_find_set_ne. Qed.

Lemma total_ext f g l : (forall kv, In kv l -> f kv = g kv) -> total f l = total g l.
Proof.
  induction l as [|kv l IH]; intros H; cbn; [reflexivity|].
  rewrite H by (now left). f_equal. apply IH. intros; apply H. now right.
Qed.

(** Changing one term of a sum over a map. *)
Lemma total_update (ltb : CDexOrderKey -> CDexOrderKey -> bool) {O : StrictOrder ltb} f g l kv0 d :
  om_sorted ltb l -> In kv0 l -> f kv0 = g kv0 + d ->
  (forall kv, In kv l -> fst kv <> fst kv0 -> f kv = g kv) -> total f l = total g l + d.
Proof.
  intros Hs Hin H0 Hne. induction l as [|kv l IH]; [contradiction|]. cbn [total fold_right].
  pose proof Hs as Hs0. inversion Hs as [|? ? Hs' Hlt]; subst. fold (total f l) (total g l).
  destruct Hin as [->|Hin].
  - rewrite H0, (total_ext f g l); [lia|]. intros kv Hkv. apply Hne; [now right|].
    rewrite Forall_forall in Hlt. specialize (Hlt kv Hkv). unfold om_lt in Hlt.
    intros E. rewrite E, (ltb_irr ltb) in Hlt. discriminate.
  - rewrite IH; auto; [|intros; apply Hne; auto; now right].
    rewrite Hne; [lia|now left|]. rewrite Forall_forall in Hlt. specialize (Hlt kv0 Hin). unfold om_lt in Hlt.
    intros E. rewrite E, (ltb_irr ltb) in Hlt. discriminate.
Qed.

(** *** Steps of a pass *)

Lemma sum_records_app f l r : sum_records f (l ++ [r]) = sum_records f l + f r.
Proof. unfold sum_records. induction l as [|x l IH]; cbn [app fold_right]; lia. Qed.

(** A state with the same completed amounts and records. *)
Lemma inv_same st st' : match_inv st ->
  om_sorted CustomCompareSellOrder (mapSellCompleteAmount st') ->
  om_sorted CustomCompareBuyOrder (mapBuyCompleteAmount st') ->
  (forall kv, In kv sells -> sell_done st' kv = sell_done st kv) ->
  (forall kv, In kv buys -> buy_done st' kv = buy_done st kv) ->
  vMatchOrderRecord st' = vMatchOrderRecord st -> match_inv st' /\ grows st st'.
Proof.
  intros [I1 I2 I3 I4 I5 I6 I7] S1 S2 ES EB ER. rewrite Forall_forall in I3, I4.
  split; [|split; intros kv H; [rewrite ES by exact H|rewrite EB by exact H]; lia].
  split; auto; try (rewrite ER; auto).
  - apply Forall_forall. intros kv H. unfold within. rewrite ES by exact H. now apply I3.
  - apply Forall_forall. intros kv H. unfold within. rewrite EB by exact H. now apply I4.
  - rewrite <- I6. apply total_ext. intros kv H. now rewrite ES.
  - rewrite <- I7. apply total_ext. intros kv H. now rewrite EB.
Qed.

(** A trade of [r] between the sell order [s] and the buy order [b]. *)
Lemma inv_trade st st' s b r : match_inv st -> In s sells -> In b buys ->
  om_sorted CustomCompareSellOrder (mapSellCompleteAmount st') ->
  om_sorted CustomCompareBuyOrder (mapBuyCompleteAmount st') ->
  sell_done st' s = sell_done st s + nSellCompleteAmount r ->
  buy_done st' b = buy_done st b + nBuyCompleteAmount r ->
  (forall kv, In kv sells -> fst kv <> fst s -> sell_done st' kv = sell_done st kv) ->
  (forall kv, In kv buys -> fst kv <> fst b -> buy_done st' kv = buy_done st kv) ->
  sell_done st' s <= nOrderAmount (snd s) -> buy_done st' b <= nOrderAmount (snd b) ->
  record_ok r -> vMatchOrderRecord st' = vMatchOrderRecord st ++ [r] -> match_inv st' /\ grows st st'.
Proof.
  intros [I1 I2 I3 I4 I5 I6 I7] Hs Hb S1 S2 Es Eb ES EB Ls Lb Hr ER.
  pose proof Hr as (_ & R1 & R2 & _). rewrite Forall_forall in I3, I4.
  assert (DS : forall kv, In kv sells -> sell_done st' kv = sell_done st kv \/ kv = s).
  { intros kv H. destruct (key_dec (fst kv) (fst s)) as [E|N]; [|auto].
    right. eapply (sorted_same_key CustomCompareSellOrder); eauto. }
  assert (DB : forall kv, In kv buys -> buy_done st' kv = buy_done st kv \/ kv = b).
  { intros kv H. destruct (key_dec (fst kv) (fst b)) as [E|N]; [|auto].
    right. eapply (sorted_same_key CustomCompareBuyOrder); eauto. }
  split; [split; auto|split].
  - apply Forall_forall. intros kv H. specialize (I3 kv H). unfold within in *. destruct (DS kv H) as [E| ->]; lia.
  - apply Forall_forall. intros kv H. specialize (I4 kv H). unfold within in *. destruct (DB kv H) as [E| ->]; lia.
  - rewrite ER. apply Forall_app. auto.
  - rewrite ER, sum_records_app, <- I6. eapply (total_update CustomCompareSellOrder); eauto; [lia|].
    intros kv H N. now rewrite ES.
  - rewrite ER, sum_records_app, <- I7. eapply (total_update CustomCompareBuyOrder); eauto; [lia|].
    intros kv H N. now rewrite EB.
  - intros kv H. destruct (DS kv H) as [E| ->]; lia.
  - intros kv H. destruct (DB kv H) as [E| ->]; lia.
Qed.

Lemma touch_buy_ok st kb vb : match_inv st -> In (kb, vb) buys ->
  let st' := mk_state (mapSellCompleteAmount st)
    (om_set CustomCompareBuyOrder kb (buy_done st (kb, vb)) (mapBuyCompleteAmount st)) (prevPrice st) (vMatchOrderRecord st) in
  match_inv st' /\ grows st st' /\ buy_done st' (kb, vb) = buy_done st (kb, vb).
Proof.
  intros I Hb st'. pose proof (mi_buy_sorted st I) as Sb.
  assert (E : buy_done st' (kb, vb) = buy_done st (kb, vb)).
  { unfold buy_done at 1. cbn. apply amount_of_set_eq; [typeclasses eauto|exact Sb]. }
  assert (EB : forall kv, In kv buys -> buy_done st' kv = buy_done st kv).
  { intros kv H. destruct (key_dec (fst kv) kb) as [K|N].
    - replace kv with (kb, vb); [exact E|]. symmetry. eapply (sorted_same_key CustomCompareBuyOrder); eauto.
    - unfold buy_done. cbn. apply amount_of_set_ne; [typeclasses eauto|assumption|exact N]. }
  assert (R : match_inv st' /\ grows st st').
  { apply inv_same; auto; [apply (mi_sell_sorted st I)|]. cbn. apply om_set_sorted; auto. typeclasses eauto. }
  destruct R. auto.
Qed.

Lemma touch_sell_ok st ks vs : match_inv st -> In (ks, vs) sells ->
  let st' := mk_state (om_set CustomCompareSellOrder ks (sell_done st (ks, vs)) (mapSellCompleteAmount st))
    (mapBuyCompleteAmount st) (prevPrice st) (vMatchOrderRecord st) in
  match_inv st' /\ grows st st' /\ om_find CustomCompareSellOrder ks (mapSellCompleteAmount st') = Some (sell_done st (ks, vs)).
Proof.
  intros I Hb st'. pose proof (mi_sell_sorted st I) as Sb.
  assert (EB : forall kv, In kv sells -> sell_done st' kv = sell_done st kv).
  { intros kv H. destruct (key_dec (fst kv) ks) as [K|N].
    - replace kv with (ks, vs) by (symmetry; eapply (sorted_same_key CustomCompareSellOrder); eauto).
      unfold sell_done at 1. cbn. apply amount_of_set_eq; [typeclasses eauto|exact Sb].
    - unfold sell_done. cbn. apply amount_of_set_ne; [typeclasses eauto|assumption|exact N]. }
  assert (R : match_inv st' /\ grows st st').
  { apply inv_same; auto; [|apply (mi_buy_sorted st I)]. cbn. apply om_set_sorted; auto. typeclasses eauto. }
  destruct R. repeat split; auto; try apply H0; try apply H. cbn. apply om_find_set_eq; auto. typeclasses eauto.
Qed.

Lemma in_ok l kv : Forall order_ok l -> In kv l -> order_ok kv.
Proof. rewrite Forall_forall. auto. Qed.

Lemma mul_bound a b x y : 0 <= a <= x -> 0 <= b <= y -> a * b <= x * y.
Proof. intros. apply Z.mul_le_mono_nonneg; lia. Qed.

(** The trade of one round keeps the invariant, fills one of the two orders and
    accounts for what is left. *)
Lemma trade_step_ok st ks vs kb vb c price n m :
  match_inv st -> In (ks, vs) sells -> In (kb, vb) buys ->
  om_find CustomCompareSellOrder ks (mapSellCompleteAmount st) = Some (nOrderAmount vs - c) ->
  0 < c -> buy_done st (kb, vb) < nOrderAmount vb -> nPrice ks <= nPrice kb ->
  price = CalcCompletePrice (nPrice kb) (nPrice ks) (prevPrice st) ->
  trade anchor price c (u_sub (nOrderAmount vb) (buy_done st (kb, vb))) = (n, m) ->
  let st' := mk_state
    (om_set CustomCompareSellOrder ks (u_add (amount_of CustomCompareSellOrder (mapSellCompleteAmount st) ks 0) n)
       (mapSellCompleteAmount st))
    (om_set CustomCompareBuyOrder kb (u_add (buy_done st (kb, vb)) m) (mapBuyCompleteAmount st)) price
    (vMatchOrderRecord st ++ [mk_record (destOrder vs) (nOrderNumber vs) n (nPrice ks) (nOrderAtChainId vs)
       (destOrder vb) (nOrderNumber vb) m (nPrice kb) (nOrderAtChainId vb) price]) in
  match_inv st' /\ grows st st' /\ u_sub c n = c - n /\ 0 <= c - n /\
  om_find CustomCompareSellOrder ks (mapSellCompleteAmount st') = Some (nOrderAmount vs - (c - n)) /\
  (c - n = 0 \/ buy_done st' (kb, vb) = nOrderAmount vb).
Proof.
  intros I Hs Hb F Hc Hd Hp Ep Et st'.
  pose proof (in_ok _ _ sells_ok Hs) as (Ps & As & Cs). pose proof (in_ok _ _ buys_ok Hb) as (Pb & Ab & Cb).
  pose proof (mi_sell_sorted st I) as Ss. pose proof (mi_buy_sorted st I) as Sb.
  assert (Ds : sell_done st (ks, vs) = nOrderAmount vs - c) by (unfold sell_done, amount_of; cbn; now rewrite F).
  pose proof (proj1 (Forall_forall _ _) (mi_sells st I) _ Hs) as Ws.
  pose proof (proj1 (Forall_forall _ _) (mi_buys st I) _ Hb) as Wb. unfold within in Ws, Wb. rewrite Ds in Ws. cbn [fst snd] in *.
  assert (Hprice : nPrice ks <= price <= nPrice kb) by (subst price; now apply complete_price).
  unfold u_sub in Et. rewrite Z.mod_small in Et by lia.
  pose proof (trade_ok anchor price c (nOrderAmount vb - buy_done st (kb, vb))) as T. rewrite Et in T.
  destruct T as (Tn & Tm & Tor & Tf); try lia.
  { pose proof (mul_bound c price A P). lia. }
  { pose proof (mul_bound (nOrderAmount vb - buy_done st (kb, vb)) anchor A anchor). lia. }
  assert (Es : sell_done st' (ks, vs) = sell_done st (ks, vs) + n).
  { unfold sell_done at 1. cbn. rewrite (amount_of_set_eq CustomCompareSellOrder) by exact Ss.
    unfold amount_of, u_add. rewrite F, Z.mod_small by lia. lia. }
  assert (Eb : buy_done st' (kb, vb) = buy_done st (kb, vb) + m).
  { unfold buy_done at 1. cbn. rewrite (amount_of_set_eq CustomCompareBuyOrder) by exact Sb.
    unfold u_add. rewrite Z.mod_small by lia. lia. }
  assert (R : match_inv st' /\ grows st st').
  { eapply (inv_trade st st' (ks, vs) (kb, vb)); cbn [vMatchOrderRecord st']; try reflexivity; auto; cbn [fst snd]; try lia.
    - cbn. apply om_set_sorted; auto. typeclasses eauto.
    - cbn. apply om_set_sorted; auto. typeclasses eauto.
    - intros kv _ N. unfold sell_done. cbn. apply amount_of_set_ne; [typeclasses eauto|assumption|exact N].
    - intros kv _ N. unfold buy_done. cbn. apply amount_of_set_ne; [typeclasses eauto|assumption|exact N].
    - split; [exact Hprice|]. cbn. repeat split; auto; lia. }
  destruct R as [R1 R2]. split; [exact R1|]. split; [exact R2|].
  unfold u_sub, u_add. rewrite Z.mod_small by lia. split; [reflexivity|]. split; [lia|]. split.
  - cbn. rewrite om_find_set_eq by (auto; typeclasses eauto). unfold amount_of, u_add. rewrite F, Z.mod_small by lia.
    f_equal; lia.
  - lia.
Qed.

(** *** The loops *)

Definition sell_filled (st : match_state) (kv : CDexOrderKey * CDexOrderValue) : Prop :=
  nOrderAmount (snd kv) <= sell_done st kv.
Definition buy_filled (st : match_state) (kv : CDexOrderKey * CDexOrderValue) : Prop :=
  nOrderAmount (snd kv) <= buy_done st kv.

Lemma filled_grows st st' : grows st st' ->
  (forall kv, In kv sells -> sell_filled st kv -> sell_filled st' kv) /\
  (forall kv, In kv buys -> buy_filled st kv -> buy_filled st' kv).
Proof.
  unfold sell_filled, buy_filled. intros [G1 G2].
  split; intros kv H L; [specialize (G1 kv H)|specialize (G2 kv H)]; lia.
Qed.

(** Buy orders come in the order of falling prices. *)
Lemma buys_fall kb vb bs : om_sorted CustomCompareBuyOrder ((kb, vb) :: bs) ->
  forall kv : CDexOrderKey * CDexOrderValue, In kv ((kb, vb) :: bs) -> nPrice (fst kv) <= nPrice kb.
Proof.
  intros H kv [<-|Hin]; [cbn; lia|]. apply om_sorted_inv in H as [_ H]. rewrite Forall_forall in H.
  apply buy_order_price. exact (H kv Hin).
Qed.

Lemma sells_rise ks vs ss : om_sorted CustomCompareSellOrder ((ks, vs) :: ss) ->
  forall kv : CDexOrderKey * CDexOrderValue, In kv ((ks, vs) :: ss) -> nPrice ks <= nPrice (fst kv).
Proof.
  intros H kv [<-|Hin]; [cbn; lia|]. apply om_sorted_inv in H as [_ H]. rewrite Forall_forall in H.
  apply sell_order_price. exact (H kv Hin).
Qed.

Definition buys_post nEnd ks vs (bs : orders) st (out : match_state * Z) : Prop :=
  let '(st', c') := out in
  match_inv st' /\ grows st st' /\ 0 <= c' /\
  om_find CustomCompareSellOrder ks (mapSellCompleteAmount st') = Some (nOrderAmount vs - c') /\
  (c' <> 0 -> forall kv, In kv bs -> eligible nEnd (fst kv) = true -> nPrice ks <= nPrice (fst kv) -> buy_filled st' kv).

(** A pass over [bs] after a step over [kb] that filled it, or found it closed to the pass. *)
Lemma buys_post_cons nEnd ks vs kb vb bs st st1 out :
  In (kb, vb) buys -> grows st st1 ->
  (eligible nEnd kb = true -> nPrice ks <= nPrice kb -> buy_filled st1 (kb, vb)) ->
  buys_post nEnd ks vs bs st1 out -> buys_post nEnd ks vs ((kb, vb) :: bs) st out.
Proof.
  destruct out as [st' c']. cbn. intros Hb G Hf (I & G' & Hc & F & H).
  split; [exact I|]. split; [eapply grows_trans; eauto|]. split; [exact Hc|]. split; [exact F|].
  intros Hc' kv [<-|Hin] He Hp; [|auto]. apply (filled_grows st1 st' G'); auto.
Qed.

Lemma match_buys_ok nEnd ks vs bs : In (ks, vs) sells -> forall st c,
  om_sorted CustomCompareBuyOrder bs -> incl bs buys -> match_inv st -> 0 < c ->
  om_find CustomCompareSellOrder ks (mapSellCompleteAmount st) = Some (nOrderAmount vs - c) ->
  buys_post nEnd ks vs bs st (match_buys anchor nEnd ks vs bs st c).
Proof.
  intros Hs. induction bs as [|[kb vb] bs IH]; intros st c Sb Hin I Hc F; cbn [match_buys].
  { cbn. split; [exact I|]. split; [apply grows_refl|]. split; [lia|]. split; [exact F|]. intros _ kv []. }
  pose proof (buys_fall kb vb bs Sb) as Hfall. apply om_sorted_inv in Sb as [Sb _].
  assert (Hb : In (kb, vb) buys) by (apply Hin; now left).
  assert (Hin' : incl bs buys) by (intros x Hx; apply Hin; now right).
  destruct (negb (nEnd =? 0) && (nEnd <? GetHeightSlotValue kb)) eqn:Ee.
  { eapply buys_post_cons; eauto using grows_refl. unfold eligible. rewrite Ee. discriminate. }
  change (amount_of CustomCompareBuyOrder (mapBuyCompleteAmount st) kb (nCompleteAmount vb)) with (buy_done st (kb, vb)).
  destruct (touch_buy_ok st kb vb I Hb) as (I1 & G1 & E1).
  set (st1 := mk_state _ (om_set CustomCompareBuyOrder kb _ _) _ _) in *.
  change (om_set CustomCompareBuyOrder kb (buy_done st (kb, vb)) (mapBuyCompleteAmount st)) with (mapBuyCompleteAmount st1).
  assert (F1 : om_find CustomCompareSellOrder ks (mapSellCompleteAmount st1) = Some (nOrderAmount vs - c)) by exact F.
  destruct (Z.ltb_spec (buy_done st (kb, vb)) (nOrderAmount vb)) as [Hd|Hd].
  - destruct (Z.ltb_spec (nPrice kb) (nPrice ks)) as [Hp|Hp].
    { split; [exact I1|]. split; [exact G1|]. split; [lia|]. split; [exact F1|].
      intros _ kv Hkv _ Hle. specialize (Hfall kv Hkv). lia. }
    destruct (trade anchor _ c _) as [n m] eqn:Et. rewrite <- E1 in Et, Hd |- *.
    destruct (trade_step_ok st1 ks vs kb vb c _ n m I1 Hs Hb F1 Hc Hd Hp eq_refl Et) as (I2 & G2 & Eu & Hn & F2 & Hor).
    rewrite Eu. set (st2 := mk_state _ _ _ (_ ++ _)) in *.
    destruct (Z.eqb_spec (c - n) 0) as [E0|N0].
    + split; [exact I2|]. split; [eapply grows_trans; eauto|]. split; [lia|]. split; [exact F2|]. lia.
    + apply (buys_post_cons nEnd ks vs kb vb bs st st2); auto; [eapply grows_trans; eauto| |apply IH; auto; lia].
      intros _ _. unfold buy_filled. destruct Hor as [?|E]; [lia|]. rewrite E. cbn. lia.
  - apply (buys_post_cons nEnd ks vs kb vb bs st st1); auto. intros _ _. unfold buy_filled. cbn [snd]. lia.
Qed.

(** No open pair of eligible orders crosses. *)
Definition no_cross (nEnd : Z) (ss : orders) (st : match_state) : Prop :=
  forall s b, In s ss -> In b buys -> eligible nEnd (fst s) = true -> eligible nEnd (fst b) = true ->
    sell_filled st s \/ buy_filled st b \/ nPrice (fst b) < nPrice (fst s).

Lemma no_cross_cons nEnd s ss st : no_cross nEnd ss st -> (eligible nEnd (fst s) = true -> sell_filled st s) ->
  no_cross nEnd (s :: ss) st.
Proof. intros H Hs s' b [<-|Hin] Hb He Hb'; auto. Qed.

Lemma match_sells_ok nEnd ss : forall st, om_sorted CustomCompareSellOrder ss -> incl ss sells -> match_inv st ->
  let st' := match_sells anchor nEnd ss buys st in match_inv st' /\ grows st st' /\ no_cross nEnd ss st'.
Proof.
  induction ss as [|[ks vs] ss IH]; intros st Ss Hin I; cbn [match_sells].
  { split; [exact I|]. split; [apply grows_refl|]. intros s b []. }
  pose proof (sells_rise ks vs ss Ss) as Hrise. apply om_sorted_inv in Ss as [Ss _].
  assert (Hs : In (ks, vs) sells) by (apply Hin; now left).
  assert (Hin' : incl ss sells) by (intros x Hx; apply Hin; now right).
  destruct (negb (nEnd =? 0) && (nEnd <? GetHeightSlotValue ks)) eqn:Ee.
  { destruct (IH st) as (I' & G' & N'); auto. split; [exact I'|]. split; [exact G'|].
    apply no_cross_cons; [exact N'|]. unfold eligible. cbn. rewrite Ee. discriminate. }
  change (amount_of CustomCompareSellOrder (mapSellCompleteAmount st) ks (nCompleteAmount vs)) with (sell_done st (ks, vs)).
  destruct (touch_sell_ok st ks vs I Hs) as (I1 & G1 & F1).
  set (st1 := mk_state (om_set CustomCompareSellOrder ks _ _) _ _ _) in *.
  assert (Next : forall st2, match_inv st2 -> grows st st2 -> sell_filled st2 (ks, vs) ->
    let st' := match_sells anchor nEnd ss buys st2 in match_inv st' /\ grows st st' /\ no_cross nEnd ((ks, vs) :: ss) st').
  { intros st2 I2 G2 Fl. destruct (IH st2) as (I' & G' & N'); auto. split; [exact I'|].
    split; [eapply grows_trans; eauto|]. apply no_cross_cons; [exact N'|]. intros _.
    now apply (filled_grows st2 _ G'). }
  pose proof (in_ok _ _ sells_ok Hs) as (_ & As & Cs).
  pose proof (proj1 (Forall_forall _ _) (mi_sells st I) _ Hs) as Ws. unfold within in Ws. cbn [fst snd] in *.
  destruct (Z.ltb_spec (sell_done st (ks, vs)) (nOrderAmount vs)) as [Hd|Hd].
  - unfold u_sub. rewrite Z.mod_small by lia.
    pose proof (match_buys_ok nEnd ks vs buys Hs st1 (nOrderAmount vs - sell_done st (ks, vs)) buys_sorted (incl_refl _) I1) as M.
    destruct (match_buys _ _ _ _ _ _ _) as [st2 c'] eqn:Em.
    destruct M as (I2 & G2 & Hc & F2 & Hall); [lia|rewrite F1; f_equal; lia|].
    assert (D2 : sell_done st2 (ks, vs) = nOrderAmount vs - c') by (unfold sell_done, amount_of; cbn; now rewrite F2).
    destruct (Z.eqb_spec c' 0) as [E0|N0].
    + apply Next; auto; [eapply grows_trans; eauto|]. unfold sell_filled. cbn [snd]. lia.
    + split; [exact I2|]. split; [eapply grows_trans; eauto|]. intros s b Hss Hb _ Heb.
      destruct (Z.le_gt_cases (nPrice ks) (nPrice (fst b))) as [Hle|Hgt]; [right; left; auto|].
      right; right. specialize (Hrise s Hss). lia.
  - apply Next; auto. unfold sell_filled. cbn [snd].
    assert (sell_done st1 (ks, vs) = sell_done st (ks, vs)) by (unfold sell_done at 1, amount_of; cbn [fst snd]; now rewrite F1).
    lia.
Qed.

(** *** All the passes of MatchOrder *)

Lemma total_zero f l : (forall kv, f kv = 0) -> total f l = 0.
Proof. intros H. unfold total. induction l as [|kv l IH]; cbn [fold_right]; rewrite ?H; lia. Qed.

Lemma initial_inv prev : match_inv (mk_state [] [] prev []).
Proof.
  split; cbn; try constructor; auto.
  - apply Forall_forall. intros kv H. unfold within, sell_done, amount_of. cbn. lia.
  - apply Forall_forall. intros kv H. unfold within, buy_done, amount_of. cbn. lia.
  - apply total_zero. intros kv. unfold sell_done, amount_of. cbn. lia.
  - apply total_zero. intros kv. unfold buy_done, amount_of. cbn. lia.
Qed.

Lemma passes_ok slots : forall st, match_inv st ->
  let st' := fold_left (fun st (slot : Z * unit) => match_sells anchor (fst slot) sells buys st) slots st in
  match_inv st' /\ grows st st' /\ (forall pre L, slots = pre ++ [L] -> no_cross (fst L) sells st').
Proof.
  induction slots as [|L slots IH] using rev_ind; intros st I; cbn zeta.
  { split; [exact I|]. split; [apply grows_refl|]. intros [|? ?] L E; discriminate. }
  rewrite fold_left_app. cbn [fold_left]. destruct (IH st I) as (I1 & G1 & _).
  destruct (match_sells_ok (fst L) sells _ sells_sorted (incl_refl _) I1) as (I2 & G2 & N2).
  split; [exact I2|]. split; [eapply grows_trans; eauto|]. intros pre L' E. apply app_inj_tail in E as [_ <-]. exact N2.
Qed.
End Passes.


(** ** The slots a match goes through *)

(** The orders up to the height slot that both chains have proved. *)
Definition matchable (p : CCoinDexPair) (k : CDexOrderKey) : bool :=
  negb (negb (nMatchHeightSlot p =? 0) && (nMatchHeightSlot p <? GetHeightSlotValue k)).

Lemma open_slots_ok p m : forall slots, om_sorted Z.ltb slots ->
  om_sorted Z.ltb (open_slots p m slots) /\
  (forall s, om_find Z.ltb s slots = Some tt -> om_find Z.ltb s (open_slots p m slots) = Some tt) /\
  (forall kv, In kv m -> matchable p (fst kv) = true -> nCompleteAmount (snd kv) < nOrderAmount (snd kv) ->
     om_find Z.ltb (GetHeightSlotValue (fst kv)) (open_slots p m slots) = Some tt).
Proof.
  unfold open_slots. induction m as [|kv m IH]; intros slots S; cbn [fold_left].
  { repeat split; auto. intros kv []. }
  match goal with |- context [fold_left _ m ?x] => set (slots1 := x) end.
  assert (S1 : om_sorted Z.ltb slots1 /\ (forall s, om_find Z.ltb s slots = Some tt -> om_find Z.ltb s slots1 = Some tt) /\
    (matchable p (fst kv) = true -> nCompleteAmount (snd kv) < nOrderAmount (snd kv) ->
     om_find Z.ltb (GetHeightSlotValue (fst kv)) slots1 = Some tt)).
  { unfold slots1, matchable. destruct (_ && _); [repeat split; auto; discriminate|].
    destruct (Z.ltb_spec (nCompleteAmount (snd kv)) (nOrderAmount (snd kv))); [|repeat split; auto; lia].
    repeat split; [apply om_set_sorted; auto; typeclasses eauto| |intros; apply om_find_set_eq; [typeclasses eauto|exact S]].
    intros s E. rewrite om_find_set by (exact S || typeclasses eauto). now destruct (_ || _). }
  destruct S1 as (S1 & K1 & N1). destruct (IH slots1 S1) as (S2 & K2 & N2).
  split; [exact S2|]. split; [intros s E; auto|]. intros kv' [<-|Hin] Hm Ho; auto.
Qed.

Lemma sorted_last (l : list (Z * unit)) L : om_sorted Z.ltb (l ++ [L]) -> forall s, In s (l ++ [L]) -> fst s <= fst L.
Proof.
  induction l as [|x l IH]; cbn [app]; intros H s Hin.
  - destruct Hin as [<-|[]]. lia.
  - inversion H as [|? ? H' Hlt]; subst. destruct Hin as [<-|Hin]; [|auto].
    rewrite Forall_forall in Hlt. specialize (Hlt L (in_or_app l [L] L (or_intror (or_introl eq_refl)))).
    unfold om_lt in Hlt. lia.
Qed.

(** The invariant of a pair of coins, and the bounds on its orders. *)
Record pair_ok (A P : Z) (p : CCoinDexPair) : Prop := {
  po_anchor : 0 < nSellPriceAnchor p;
  po_A : A < U256; po_AP : A * P < U256; po_anchored : A * nSellPriceAnchor p < U256;
  po_sells : om_sorted CustomCompareSellOrder (mapSellOrder p);
  po_buys : om_sorted CustomCompareBuyOrder (mapBuyOrder p);
  po_sells_ok : Forall (order_ok A P) (mapSellOrder p);
  po_buys_ok : Forall (order_ok A P) (mapBuyOrder p)
}.

Lemma run_match_ok A P p : pair_ok A P p ->
  let st := run_match p in
  match_inv (nSellPriceAnchor p) (mapSellOrder p) (mapBuyOrder p) st /\
  (forall s b, In s (mapSellOrder p) -> In b (mapBuyOrder p) -> matchable p (fst s) = true -> matchable p (fst b) = true ->
     sell_filled st s \/ buy_filled st b \/ nPrice (fst b) < nPrice (fst s)).
Proof.
  intros [H1 H2 H3 H4 H5 H6 H7 H8]. cbn zeta.
  pose proof (passes_ok (nSellPriceAnchor p) A P (mapSellOrder p) (mapBuyOrder p) H1 H2 H3 H4 H5 H6 H7 H8
    (setMatchHeightSlot p) _ (initial_inv (nSellPriceAnchor p) (mapSellOrder p) (mapBuyOrder p) (nPrevCompletePrice p))) as (I & G & N).
  change (fold_left _ _ _) with (run_match p) in I, G, N. split; [exact I|].
  destruct (open_slots_ok p (mapSellOrder p) []) as (S1 & _ & N1); [constructor|].
  destruct (open_slots_ok p (mapBuyOrder p) _ S1) as (S2 & K2 & N2). fold (setMatchHeightSlot p) in S2, K2, N2.
  intros s b Hs Hb Ms Mb.
  destruct (Z.lt_ge_cases (nCompleteAmount (snd s)) (nOrderAmount (snd s))) as [Os|Os].
  2:{ left. destruct G as [G _]. specialize (G s Hs). unfold sell_done at 1, amount_of in G. cbn in G. unfold sell_filled. lia. }
  destruct (Z.lt_ge_cases (nCompleteAmount (snd b)) (nOrderAmount (snd b))) as [Ob|Ob].
  2:{ right; left. destruct G as [_ G]. specialize (G b Hb). unfold buy_done at 1, amount_of in G. cbn in G. unfold buy_filled. lia. }
  pose proof (om_find_in _ _ _ _ (K2 _ (N1 s Hs Ms Os))) as Is. pose proof (om_find_in _ _ _ _ (N2 b Hb Mb Ob)) as Ib.
  destruct (exists_last (l := setMatchHeightSlot p)) as (pre & L & E); [intros E; rewrite E in Is; contradiction|].
  specialize (N pre L E). rewrite E in S2, Is, Ib.
  apply (sorted_last _ _ S2) in Is, Ib. cbn [fst] in Is, Ib.
  apply N; auto; unfold eligible; destruct (Z.ltb_spec (fst L) (GetHeightSlotValue (fst s))), (Z.ltb_spec (fst L) (GetHeightSlotValue (fst b)));
    rewrite ?andb_false_r; try lia; reflexivity.
Qed.

Lemma total_nonneg f l : (forall kv, In kv l -> 0 <= f kv) -> 0 <= total f l.
Proof.
  unfold total. induction l as [|x l IH]; intros Hf; cbn [fold_right]; [lia|].
  apply Z.add_nonneg_nonneg; [apply Hf; now left|apply IH; intros; apply Hf; now right].
Qed.

Lemma total_none f l : (forall kv, In kv l -> 0 <= f kv) -> total f l = 0 -> forall kv, In kv l -> f kv = 0.
Proof.
  induction l as [|x l IH]; intros Hf H kv Hin; [contradiction|]. cbn [total fold_right] in H. fold (total f l) in H.
  pose proof (Hf x (or_introl eq_refl)). pose proof (total_nonneg f l (fun z Hz => Hf z (or_intror Hz))).
  destruct Hin as [<-|Hin]; [lia|]. apply IH; auto; [intros; apply Hf; now right|lia].
Qed.

(** Two open orders that cross are not left alone. *)
Lemma run_match_progress A P p s b : pair_ok A P p ->
  In s (mapSellOrder p) -> In b (mapBuyOrder p) -> matchable p (fst s) = true -> matchable p (fst b) = true ->
  nCompleteAmount (snd s) < nOrderAmount (snd s) -> nCompleteAmount (snd b) < nOrderAmount (snd b) ->
  nPrice (fst s) <= nPrice (fst b) -> vMatchOrderRecord (run_match p) <> [].
Proof.
  intros H Hs Hb Ms Mb Os Ob Hp E. destruct (run_match_ok A P p H) as [[I1 I2 I3 I4 I5 I6 I7] N].
  rewrite E in I6, I7. rewrite Forall_forall in I3, I4.
  pose proof (total_none _ _ (fun kv Hkv => proj2 (Z.le_0_sub _ _) (proj1 (I3 kv Hkv))) I6 s Hs) as Zs.
  pose proof (total_none _ _ (fun kv Hkv => proj2 (Z.le_0_sub _ _) (proj1 (I4 kv Hkv))) I7 b Hb) as Zb.
  cbv beta in Zs, Zb. unfold sell_filled, buy_filled in N. specialize (N s b Hs Hb Ms Mb). lia.
Qed.
