(* ===== verification/MatchDexBook.v ===== *)
(** * The order book as a finite map

    [mapSellOrder], [mapBuyOrder] and [mapDexOrderIndex] of a pair of coins together
    represent one map from order hashes to open orders.  [order_at] reads that map;
    [book_ok] says that the three containers agree.  AddOrder and UpdateCompleteOrder
    keep them in agreement, and act on the represented map as an insertion and as an
    update that removes a completed order. *)

From Stdlib Require Import ZArith List Lia Bool String.
From stdpp Require Import base gmap.
From S2P Require Import UInt256 OrdMap BlockHash MatchDex MatchDexOk.
Import ListNotations.
Local Open Scope Z_scope.

Definition order : Type := order_type * CDexOrderKey * CDexOrderValue.

#[export] Instance order_type_eq_dec : EqDecision order_type.
Proof. solve_decision. Defined.
#[export] Instance key_eq_dec : EqDecision CDexOrderKey := key_dec.

Definition side (p : CCoinDexPair) (t : order_type) (k : CDexOrderKey) : option CDexOrderValue :=
  match t with
  | CDP_ORDER_TYPE_SELL => om_find CustomCompareSellOrder k (mapSellOrder p)
  | CDP_ORDER_TYPE_BUY => om_find CustomCompareBuyOrder k (mapBuyOrder p)
  end.

(** The open order with hash [h]. *)
Definition order_at (p : CCoinDexPair) (h : Z) : option order :=
  '(k, t) ← mapDexOrderIndex p !! h; v ← side p t k; Some (t, k, v).

Definition open_value (v : CDexOrderValue) : Prop := 0 <= nCompleteAmount v < nOrderAmount v /\ nOrderAmount v < U256.

Record book_ok (p : CCoinDexPair) : Prop := {
  bk_sells : om_sorted CustomCompareSellOrder (mapSellOrder p);
  bk_buys : om_sorted CustomCompareBuyOrder (mapBuyOrder p);
  bk_indexed : forall h k t, mapDexOrderIndex p !! h = Some (k, t) -> exists v, side p t k = Some v;
  bk_hashed : forall t k v, side p t k = Some v -> open_value v /\ exists h, mapDexOrderIndex p !! h = Some (k, t);
  bk_unique : forall h h' e, mapDexOrderIndex p !! h = Some e -> mapDexOrderIndex p !! h' = Some e -> h = h'
}.

Lemma order_at_some p h t k v : order_at p h = Some (t, k, v) <->
  mapDexOrderIndex p !! h = Some (k, t) /\ side p t k = Some v.
Proof.
  unfold order_at. destruct (mapDexOrderIndex p !! h) as [[k' t']|]; cbn.
  - destruct (side p t' k') as [v'|] eqn:E'; cbn; split.
    + now intros [= -> -> ->].
    + intros [[= -> ->] ?]. congruence.
    + discriminate.
    + intros [[= -> ->] ?]. congruence.
  - split; [discriminate|now intros [? _]].
Qed.

Lemma order_at_ext p p' h : mapDexOrderIndex p !! h = mapDexOrderIndex p' !! h ->
  (forall k t, mapDexOrderIndex p' !! h = Some (k, t) -> side p t k = side p' t k) -> order_at p h = order_at p' h.
Proof.
  unfold order_at. intros E H. rewrite E. destruct (mapDexOrderIndex p' !! h) as [[k t]|]; cbn; [|done].
  now rewrite (H k t).
Qed.

(** ** Placing an order on one side *)

Definition set_side (p : CCoinDexPair) (t : order_type) (k : CDexOrderKey) (v : CDexOrderValue) index : CCoinDexPair :=
  match t with
  | CDP_ORDER_TYPE_SELL => set_orders p (om_set CustomCompareSellOrder k v (mapSellOrder p)) (mapBuyOrder p) index
  | CDP_ORDER_TYPE_BUY => set_orders p (mapSellOrder p) (om_set CustomCompareBuyOrder k v (mapBuyOrder p)) index
  end.

Definition erase_side (p : CCoinDexPair) (t : order_type) (k : CDexOrderKey) index : CCoinDexPair :=
  match t with
  | CDP_ORDER_TYPE_SELL => set_orders p (om_erase CustomCompareSellOrder k (mapSellOrder p)) (mapBuyOrder p) index
  | CDP_ORDER_TYPE_BUY => set_orders p (mapSellOrder p) (om_erase CustomCompareBuyOrder k (mapBuyOrder p)) index
  end.

Definition sides_sorted (p : CCoinDexPair) : Prop :=
  om_sorted CustomCompareSellOrder (mapSellOrder p) /\ om_sorted CustomCompareBuyOrder (mapBuyOrder p).

Lemma set_side_sorted p t k v i : sides_sorted p -> sides_sorted (set_side p t k v i).
Proof. intros [S1 S2]. destruct t; split; cbn; auto; apply om_set_sorted; auto; typeclasses eauto. Qed.

Lemma erase_side_sorted p t k i : sides_sorted p -> sides_sorted (erase_side p t k i).
Proof. intros [S1 S2]. destruct t; split; cbn; auto; apply om_erase_sorted; auto; typeclasses eauto. Qed.

Lemma side_set p t k v i t' k' : sides_sorted p ->
  side (set_side p t k v i) t' k' = if decide ((t', k') = (t, k)) then Some v else side p t' k'.
Proof.
  intros [S1 S2]. case_decide as E.
  - injection E as -> ->. destruct t; cbn; apply om_find_set_eq; auto; typeclasses eauto.
  - destruct t, t'; cbn; try reflexivity; apply om_find_set_ne; auto; try typeclasses eauto; congruence.
Qed.

Lemma side_erase p t k i t' k' : sides_sorted p ->
  side (erase_side p t k i) t' k' = if decide ((t', k') = (t, k)) then None else side p t' k'.
Proof.
  intros [S1 S2]. case_decide as E.
  - injection E as -> ->. destruct t; cbn; apply om_find_erase_eq; auto; typeclasses eauto.
  - destruct t, t'; cbn; try reflexivity; apply om_find_erase_ne; auto; try typeclasses eauto; congruence.
Qed.

Lemma index_set_side p t k v i : mapDexOrderIndex (set_side p t k v i) = i.
Proof. now destruct t. Qed.

Lemma index_erase_side p t k i : mapDexOrderIndex (erase_side p t k i) = i.
Proof. now destruct t. Qed.

(** What the caller of AddOrder provides: a new order, or a new state of the order the
    hash already has. *)
Definition placeable (p : CCoinDexPair) (h : Z) (t : order_type) (k : CDexOrderKey) : Prop :=
  (mapDexOrderIndex p !! h = None /\ side p t k = None) \/ mapDexOrderIndex p !! h = Some (k, t).

Lemma set_side_book p h t k v : book_ok p -> placeable p h t k -> open_value v ->
  let p' := set_side p t k v (<[h := (k, t)]> (mapDexOrderIndex p)) in
  book_ok p' /\ order_at p' h = Some (t, k, v) /\ forall h', h' <> h -> order_at p' h' = order_at p h'.
Proof.
  intros [S1 S2 HI HH HU] Fit Ov p'. assert (S : sides_sorted p) by (split; auto).
  assert (Ne : forall h', h' <> h -> mapDexOrderIndex p !! h' <> Some (k, t)).
  { intros h' N E. destruct Fit as [[_ F]|F]; [|now apply N, (HU h' h (k, t))].
    destruct (HI h' k t E) as [v' E']. congruence. }
  destruct (set_side_sorted p t k v (<[h := (k, t)]> (mapDexOrderIndex p)) S) as [S1' S2'].
  split; [split; auto|split].
  - intros h' k' t'. unfold p'. rewrite index_set_side, side_set by exact S. destruct (decide (h' = h)) as [->|N].
    + rewrite lookup_insert_eq. intros [= <- <-]. rewrite decide_True by done. eauto.
    + rewrite lookup_insert_ne by done. intros E. case_decide; eauto.
  - intros t' k' v'. unfold p'. rewrite index_set_side, side_set by exact S. case_decide as E.
    + injection E as -> ->. intros [= <-]. split; [exact Ov|]. exists h. apply lookup_insert_eq.
    + intros E'. destruct (HH t' k' v' E') as [O [h' Eh]]. split; [exact O|]. exists h'.
      rewrite lookup_insert_ne; [done|]. intros <-.
      destruct Fit as [[F _]|F]; rewrite F in Eh; [discriminate|]. injection Eh as -> ->. now apply E.
  - intros h1 h2 e. unfold p'. rewrite index_set_side.
    destruct (decide (h1 = h)) as [->|N1], (decide (h2 = h)) as [->|N2]; rewrite ?lookup_insert_eq, ?lookup_insert_ne by done; auto.
    + intros [= <-] E2. now apply Ne in E2.
    + intros E1 [= <-]. now apply Ne in E1.
    + apply HU.
  - apply order_at_some. unfold p'. rewrite index_set_side, side_set, lookup_insert_eq, decide_True by done. auto.
  - intros h' N. apply order_at_ext; unfold p'; [now rewrite index_set_side, lookup_insert_ne by done|].
    intros k' t' E. rewrite side_set by exact S. rewrite decide_False; [done|]. intros [= -> ->]. now apply (Ne h' N).
Qed.

Lemma erase_side_book p h t k : book_ok p -> mapDexOrderIndex p !! h = Some (k, t) ->
  let p' := erase_side p t k (delete h (mapDexOrderIndex p)) in
  book_ok p' /\ order_at p' h = None /\ forall h', h' <> h -> order_at p' h' = order_at p h'.
Proof.
  intros [S1 S2 HI HH HU] Eh p'. assert (S : sides_sorted p) by (split; auto).
  assert (Ne : forall h', h' <> h -> mapDexOrderIndex p !! h' <> Some (k, t)) by (intros h' N E; eauto).
  destruct (erase_side_sorted p t k (delete h (mapDexOrderIndex p)) S) as [S1' S2'].
  split; [split; auto|split].
  - intros h' k' t'. unfold p'. rewrite index_erase_side, side_erase by exact S.
    rewrite lookup_delete_Some. intros [N E]. rewrite decide_False; [eauto|]. intros [= -> ->]. now apply (Ne h').
  - intros t' k' v'. unfold p'. rewrite index_erase_side, side_erase by exact S. case_decide as E; [discriminate|].
    intros E'. destruct (HH t' k' v' E') as [O [h' Eh']]. split; [exact O|]. exists h'.
    rewrite lookup_delete_ne; [done|]. intros <-. rewrite Eh' in Eh. injection Eh as -> ->. now apply E.
  - intros h1 h2 e. unfold p'. rewrite index_erase_side, !lookup_delete_Some. intros [_ E1] [_ E2]. eauto.
  - unfold order_at, p'. now rewrite index_erase_side, lookup_delete_eq.
  - intros h' N. apply order_at_ext; unfold p'; [now rewrite index_erase_side, lookup_delete_ne by done|].
    intros k' t' E. rewrite side_erase by exact S. rewrite decide_False; [done|]. intros [= -> ->]. now apply (Ne h' N).
Qed.

(** ** AddOrder *)

(** The fields other than the orders do not matter to the book. *)
Definition same_book (p p' : CCoinDexPair) : Prop :=
  mapSellOrder p' = mapSellOrder p /\ mapBuyOrder p' = mapBuyOrder p /\ mapDexOrderIndex p' = mapDexOrderIndex p.

Lemma same_book_ok p p' : same_book p p' -> (book_ok p -> book_ok p') /\ forall h, order_at p' h = order_at p h.
Proof.
  intros (E1 & E2 & E3).
  assert (Es : forall t k, side p' t k = side p t k) by (intros [] k; cbn; congruence).
  split.
  - intros [S1 S2 HI HH HU]. split; rewrite ?E1, ?E2, ?E3; auto.
    + intros h k t E. rewrite Es. eauto.
    + intros t k v. rewrite Es. auto.
  - intros h. unfold order_at. rewrite E3. destruct (mapDexOrderIndex p !! h) as [[k t]|]; cbn; [|done]. now rewrite Es.
Qed.

Lemma raise_height_slot_same p hash : same_book p (raise_height_slot p hash).
Proof. unfold raise_height_slot. destruct (_ <? _); repeat split. Qed.

Lemma SetPrevCompletePrice_same p x : same_book p (SetPrevCompletePrice p x).
Proof. repeat split. Qed.

(** The side on which the owner of [owner] trades. *)
Definition side_of (p : CCoinDexPair) (owner : string) : option order_type :=
  if String.eqb owner (strCoinSymbolSell p) then Some CDP_ORDER_TYPE_SELL
  else if String.eqb owner (strCoinSymbolBuy p) then Some CDP_ORDER_TYPE_BUY else None.

Lemma AddOrder_side p h owner k v : exists q, forall t, side_of p owner = Some t ->
  AddOrder p h owner k v = Some q /\ same_book (set_side p t k v (<[h := (k, t)]> (mapDexOrderIndex p))) q.
Proof.
  unfold AddOrder, side_of. destruct (String.eqb owner (strCoinSymbolSell p)), (String.eqb owner (strCoinSymbolBuy p));
    eexists; intros t [= <-]; (split; [reflexivity|]); (destruct (_ && _); [apply raise_height_slot_same|repeat split]).
  Unshelve. exact p.
Qed.

Lemma AddOrder_ok p h owner k v t : book_ok p -> side_of p owner = Some t -> placeable p h t k -> open_value v ->
  exists p', AddOrder p h owner k v = Some p' /\ book_ok p' /\
    order_at p' h = Some (t, k, v) /\ forall h', h' <> h -> order_at p' h' = order_at p h'.
Proof.
  intros B Hside Fit Ov. destruct (AddOrder_side p h owner k v) as [q H]. destruct (H t Hside) as [E Sb].
  destruct (set_side_book p h t k v B Fit Ov) as (B1 & A1 & A2). destruct (same_book_ok _ _ Sb) as [B2 A].
  exists q. split; [exact E|]. split; [auto|]. split; [now rewrite A|]. intros h' N. rewrite A. auto.
Qed.

Lemma AddOrder_unknown_coin p h owner k v : side_of p owner = None -> AddOrder p h owner k v = None.
Proof. unfold AddOrder, side_of. now destruct (String.eqb owner (strCoinSymbolSell p)), (String.eqb owner (strCoinSymbolBuy p)). Qed.

(** ** UpdateCompleteOrder *)

Lemma surplus_zero v : 0 <= nCompleteAmount v -> 0 <= nOrderAmount v < U256 ->
  (GetSurplusAmount v =? 0) = (nOrderAmount v <=? nCompleteAmount v).
Proof.
  intros Hc Ho. unfold GetSurplusAmount. destruct (Z.ltb_spec (nCompleteAmount v) (nOrderAmount v)).
  - unfold u_sub. rewrite Z.mod_small by lia. destruct (Z.eqb_spec (nOrderAmount v - nCompleteAmount v) 0), (Z.leb_spec (nOrderAmount v) (nCompleteAmount v)); lia.
  - cbn. symmetry. apply Z.leb_le. lia.
Qed.

Lemma complete_side p h nComplete nCount t k v : mapDexOrderIndex p !! h = Some (k, t) -> side p t k = Some v ->
  UpdateCompleteOrder p h nComplete nCount =
  (if GetSurplusAmount (set_complete v nComplete nCount) =? 0 then erase_side p t k (delete h (mapDexOrderIndex p))
   else set_side p t k (set_complete v nComplete nCount) (mapDexOrderIndex p), true).
Proof.
  intros Ei Es. unfold UpdateCompleteOrder, complete_in. rewrite Ei.
  destruct t; cbn [side] in Es; rewrite Es; destruct (_ =? 0); reflexivity.
Qed.

Lemma UpdateCompleteOrder_ok p h nComplete nCount : book_ok p -> 0 <= nComplete ->
  let '(p', ok) := UpdateCompleteOrder p h nComplete nCount in
  book_ok p' /\ (forall h', h' <> h -> order_at p' h' = order_at p h') /\
  match order_at p h with
  | None => ok = false /\ order_at p' h = None
  | Some (t, k, v) =>
      ok = true /\
      order_at p' h = if nOrderAmount v <=? nComplete then None else Some (t, k, set_complete v nComplete nCount)
  end.
Proof.
  intros B Hc. pose proof B as [S1 S2 HI HH HU].
  destruct (mapDexOrderIndex p !! h) as [[k t]|] eqn:Ei.
  - destruct (HI h k t Ei) as [v Es]. destruct (HH t k v Es) as [Ov _]. unfold open_value in Ov.
    rewrite (complete_side p h nComplete nCount t k v Ei Es), surplus_zero by (cbn; lia).
    rewrite (proj2 (order_at_some p h t k v)) by auto. cbn [nOrderAmount nCompleteAmount set_complete].
    destruct (Z.leb_spec (nOrderAmount v) nComplete) as [Le|Lt].
    + destruct (erase_side_book p h t k B Ei) as (B1 & A1 & A2). auto.
    + replace (set_side p t k (set_complete v nComplete nCount) (mapDexOrderIndex p))
        with (set_side p t k (set_complete v nComplete nCount) (<[h := (k, t)]> (mapDexOrderIndex p))) by (now rewrite insert_id).
      destruct (set_side_book p h t k (set_complete v nComplete nCount) B) as (B1 & A1 & A2); [now right|unfold open_value; cbn; lia|].
      auto.
  - assert (En : order_at p h = None) by (unfold order_at; now rewrite Ei).
    unfold UpdateCompleteOrder. rewrite Ei, En. auto.
Qed.
