(* ===== verification/Data.v ===== *)
(** * What the node's data layer promises

    Serialised values read back and truncated ones are refused; [base_uint] is
    arithmetic modulo 2^(32W) with the order of the integers; the textual and binary
    forms of a number read back; a block hash carries its chain, height and slot. *)

From Stdlib Require Import ZArith List Lia Bool.
From S2P Require Import Prelude Radix Stream UInt256 UInt256Ok UInt256Io OrdMap BlockHash.
Import ListNotations.
Local Open Scope Z_scope.

(** ** Streams *)

(** C10: every container of lawful elements is lawful again: what [CStream] writes for a
    vector, an array, a pair, a set, a map or a multimap reads back as the same value and
    leaves the rest of the stream, its size is the one computed in advance, and reading
    it does not depend on the bytes that follow. *)
Theorem containers_lawful {K V} (ltb : K -> K -> bool) (c : codec K) (d : codec V) N :
  (forall x y, ltb x y = true -> ltb y x = false) -> Lawful c -> Lawful d ->
  Lawful (vector c) /\ Lawful (array N c) /\ Lawful (pair_codec c d) /\
  Lawful (set_codec ltb c) /\ Lawful (map_codec ltb c d) /\ Lawful (multimap_codec ltb c d).
Proof.
  intros Ha Hc Hd. split; [exact _|]. split; [exact _|]. split; [exact _|].
  split; [now apply set_lawful|]. split; [now apply map_lawful|now apply multimap_lawful].
Qed.

(** std::map<uint64, std::string> *)
Lemma containers_lawful_witness :
  load (map_codec Z.ltb varint string) (save (map_codec Z.ltb varint string) [(5, [104; 105]); (300, [])]) =
  Some ([(5, [104; 105]); (300, [])], []).
Proof.
  destruct (containers_lawful Z.ltb varint string 0) as (_ & _ & _ & _ & [L _ _ _] & _).
  - intros x y H. apply Z.ltb_ge. apply Z.ltb_lt in H. lia.
  - exact _.
  - exact _.
  - specialize (L [(5, [104; 105]); (300, [])] []). rewrite app_nil_r in L. apply L. cbn.
    repeat first [split | constructor]; cbn; try (vm_compute; discriminate); try reflexivity; try lia.
Defined.

(** a variable length integer takes one byte below 247 and up to nine bytes above,
    and reads back for every 64-bit value. *)
Theorem varint_round_trip v rest : 0 <= v < U64 ->
  varint_load (varint_save v ++ rest) = Some (v, rest) /\
  varint_size v = Z.of_nat (length (varint_save v)) /\ (1 <= length (varint_save v) <= 9)%nat /\
  (v < 247 -> length (varint_save v) = 1%nat).
Proof.
  intros Hv. split; [now apply varint_load_save|]. split; [now apply varint_size_ok|].
  split; [apply varint_save_length|]. intros H. unfold varint_save, nDataImmLenStart.
  destruct (v =? 0); [reflexivity|]. now rewrite (proj2 (Z.ltb_lt v 247) H).
Qed.

Lemma varint_round_trip_witness : varint_load (varint_save (2 ^ 64 - 1) ++ [9]) = Some (2 ^ 64 - 1, [9]).
Proof. apply (varint_round_trip (2 ^ 64 - 1) [9]). split; [discriminate|reflexivity]. Defined.

(** ** base_uint *)

(** C11: the operators of [base_uint] keep the representation and are the ring operations
    modulo 2^(32W): sum, difference, negation, increment and decrement. *)
Theorem base_uint_ring W a b : uint W a -> uint W b ->
  (uint W (op_add a b) /\ value (op_add a b) = (value a + value b) mod UMAX W) /\
  (uint W (op_sub a b) /\ value (op_sub a b) = (value a - value b) mod UMAX W) /\
  (uint W (op_neg a) /\ value (op_neg a) = (- value a) mod UMAX W) /\
  (uint W (incr a) /\ value (incr a) = (value a + 1) mod UMAX W) /\
  (uint W (decr a) /\ value (decr a) = (value a - 1) mod UMAX W).
Proof.
  intros Ha Hb. split; [now apply op_add_ok|]. split; [now apply op_sub_ok|]. split; [now apply op_neg_ok|].
  split; [now apply incr_ok|now apply decr_ok].
Qed.

Lemma base_uint_ring_witness : value (op_sub [3; 0; 7] [5; 0; 7]) = (- 2) mod UMAX 3.
Proof.
  refine (proj2 (proj1 (proj2 (base_uint_ring 3 [3; 0; 7] [5; 0; 7] _ _)))); (split; [reflexivity|]); repeat constructor; discriminate.
Defined.

(** shifts of [base_uint] by any amount, beyond the width included, are
    multiplication modulo 2^(32W) and division by a power of two. *)
Theorem base_uint_shifts W a n : uint W a -> 0 <= n ->
  (uint W (op_shl a n) /\ value (op_shl a n) = (value a * 2 ^ n) mod UMAX W) /\
  (uint W (op_shr a n) /\ value (op_shr a n) = value a / 2 ^ n).
Proof. intros Ha Hn. split; [now apply op_shl_ok|now apply op_shr_ok]. Qed.

Lemma base_uint_shifts_witness : value (op_shl [1; 2; 3] 40) = (value [1; 2; 3] * 2 ^ 40) mod UMAX 3.
Proof.
  refine (proj2 (proj1 (base_uint_shifts 3 [1; 2; 3] 40 _ _))); [|discriminate].
  split; [reflexivity|]. repeat constructor; discriminate.
Defined.

(** the comparison operators, which scan the words from the most significant one,
    decide the order of the numbers. *)
Theorem base_uint_order W a b : uint W a -> uint W b ->
  op_lt a b = (value a <? value b) /\ op_le a b = (value a <=? value b) /\
  op_gt a b = (value b <? value a) /\ op_ge a b = (value b <=? value a) /\
  op_eq a b = (value a =? value b).
Proof. apply comparisons_ok. Qed.

Lemma base_uint_order_witness : op_lt [9; 1; 0] [3; 2; 0] = (value [9; 1; 0] <? value [3; 2; 0]).
Proof. apply (base_uint_order 3); (split; [reflexivity|]); repeat constructor; discriminate. Defined.

(** on top of a 256-bit integer type with the documented arithmetic of Boost's
    [uint256_t], the product of two [uint256] is their product modulo 2^256 and the
    quotient their quotient; division by zero throws [std::overflow_error]. *)
Theorem uint256_products (M : uint256_t) a b : uint256_t_ok M -> uint 8 a -> uint 8 b ->
  (uint 8 (op_mul a b) /\ value (op_mul a b) = (value a * value b) mod U256) /\
  (if value b =? 0 then op_div a b = Throw overflow_error
   else returns (op_div a b) (fun c => uint 8 c /\ value c = value a / value b)).
Proof.
  intros HM Ha Hb. split; [now apply op_mul_ok|].
  destruct (Z.eqb_spec (value b) 0) as [E|N]; [now apply op_div_by_zero|now apply op_div_ok].
Qed.

Lemma uint256_products_witness :
  value (op_mul (M := reference_uint256_t) [0; 7; 0; 0; 0; 0; 0; 0] [5; 0; 0; 0; 0; 0; 0; 1]) =
  (value [0; 7; 0; 0; 0; 0; 0; 0] * value [5; 0; 0; 0; 0; 0; 0; 1]) mod U256.
Proof.
  refine (proj2 (proj1 (uint256_products reference_uint256_t [0; 7; 0; 0; 0; 0; 0; 0] [5; 0; 0; 0; 0; 0; 0; 1] reference_uint256_t_ok _ _)));
    (split; [reflexivity|]); repeat constructor; discriminate.
Defined.

(** the forms of a number read back: fixed width and shortest hexadecimal text, and
    fixed width and shortest big-endian bytes; [reverse] is an involution on the bytes. *)
Theorem base_uint_round_trips W a b : uint (S W) a -> uint (S W) b ->
  SetHex (S W) (GetHex a) = (a, length (GetHex a)) /\
  SetValueHex (S W) (GetValueHex a) = (a, length (GetValueHex a)) /\
  FromBigEndian b (ToBigEndian a) = a /\ FromValidBigEndianData b (ToValidBigEndianData a) = a /\
  reverse (reverse a) = a.
Proof.
  intros Ha Hb. split; [now apply GetHex_round_trip|]. split; [now apply GetValueHex_round_trip|].
  split; [now apply (big_endian_round_trip (S W))|]. split; [now apply (valid_big_endian_round_trip (S W))|].
  now apply (reverse_ok (S W)).
Qed.

Lemma base_uint_round_trips_witness : SetValueHex 2 (GetValueHex [4660; 10]) = ([4660; 10], length (GetValueHex [4660; 10])).
Proof. apply (base_uint_round_trips 1 [4660; 10] [0; 0]); (split; [reflexivity|]); repeat constructor; discriminate. Defined.

(** The [uint2048] constructor from a [uint256] copies 64 words of the 8 there are. *)
Lemma uint2048_constructor_out_of_bounds b : uint 8 b -> uint2048_of_uint256 b = Undef.
Proof. intros [HL _]. unfold uint2048_of_uint256. now rewrite HL. Qed.

(** The guard of [Get64] lets the last half of an odd number of words through: index 2 of
    a [uint160] reads past its five words. *)
Lemma Get64_out_of_bounds a : uint 5 a -> Get64 a 2 = Undef /\ Set64 a 2 0 = Undef.
Proof. intros [HL _]. unfold Get64, Set64. rewrite HL. auto. Qed.

(** ** Block hashes *)

(** the hash given to a block carries the chain, height and slot it was made for. *)
Theorem block_hash_fields c h s n : 0 <= c < 2 ^ 32 -> 0 <= h < 2 ^ 32 -> 0 <= s < 2 ^ 16 -> 0 <= n < U256 ->
  0 <= CreateBlockHash c h s n < U256 /\ GetBlockChainIdByHash (CreateBlockHash c h s n) = c /\
  GetBlockHeightByHash (CreateBlockHash c h s n) = h /\ GetBlockSlotByHash (CreateBlockHash c h s n) = s.
Proof. apply create_block_hash. Qed.

Lemma block_hash_fields_witness : GetBlockHeightByHash (CreateBlockHash 201 123456 7 (2 ^ 255 + 99)) = 123456.
Proof. apply (block_hash_fields 201 123456 7 (2 ^ 255 + 99)); split; first [discriminate | reflexivity]. Defined.

(** Three variable length integers packed at the front of a [uint256] are read back. *)
Theorem packed_integers b1 b2 b3 n : 0 <= b1 < U64 -> 0 <= b2 < U64 -> 0 <= b3 < U64 -> uint 8 n ->
  uint 8 (uint256_of b1 b2 b3 n) /\ load_b123 (uint256_of b1 b2 b3 n) = Some (b1, b2, b3).
Proof. intros H1 H2 H3 Hn. split; [now apply uint256_of_bytes|now apply load_b123_ok]. Qed.

Lemma packed_integers_witness : load_b123 (uint256_of 7 300 (2 ^ 40) [1; 2; 3; 4; 5; 6; 7; 8]) = Some (7, 300, 2 ^ 40).
Proof.
  apply (packed_integers 7 300 (2 ^ 40) [1; 2; 3; 4; 5; 6; 7; 8]); try (split; first [discriminate | reflexivity]).
  split; [reflexivity|]. repeat constructor; discriminate.
Defined.
