(* ===== verification/Exchange.v ===== *)
(** * What the exchange promises

    The order book of a pair of coins: its comparisons, one trade, a whole match and the
    operations that add and complete orders. *)

From Stdlib Require Import ZArith List Lia Bool String.
From stdpp Require Import base gmap.
From S2P Require Import Prelude UInt256 OrdMap BlockHash MatchDex MatchDexOk MatchDexBook.
Import ListNotations.
Local Open Scope Z_scope.

(** ** Order of the book *)

(** C32: the comparisons of the two sides are strict total orders on keys, as [std::map]
    requires, and they give priority to the better price, then to the earlier block:
    lower prices first for sell orders, higher prices first for buy orders. *)
Theorem order_priority : OrdMap.StrictOrder CustomCompareSellOrder /\ OrdMap.StrictOrder CustomCompareBuyOrder /\
  (forall a b, CustomCompareSellOrder a b = true -> nPrice a <= nPrice b) /\
  (forall a b, CustomCompareBuyOrder a b = true -> nPrice b <= nPrice a) /\
  (forall a b, nPrice a = nPrice b -> nHeight a < nHeight b ->
     CustomCompareSellOrder a b = true /\ CustomCompareBuyOrder a b = true).
Proof.
  split; [exact _|]. split; [exact _|]. split; [exact sell_order_price|]. split; [exact buy_order_price|].
  intros a b E H. unfold CustomCompareSellOrder, CustomCompareBuyOrder.
  rewrite E, Z.ltb_irrefl, Z.eqb_refl, (proj2 (Z.ltb_lt _ _) H). auto.
Qed.

(** The comparisons of block hashes are strict total orders too. *)
Theorem block_order_strict : OrdMap.StrictOrder BlockHashCompare /\ OrdMap.StrictOrder CustomBlockHashCompare.
Proof. split; exact _. Qed.

(** a height and a slot packed into 64 bits read back, and the packed values are
    ordered by height, then by slot. *)
Theorem height_slot_round_trip h s h' s' : 0 <= h < 2 ^ 32 -> 0 <= s < 2 ^ 16 -> 0 <= h' < 2 ^ 32 -> 0 <= s' < 2 ^ 16 ->
  GetHeightByHsStatic (GetHeightSlotStatic h s) = h /\ GetSlotByHsStatic (GetHeightSlotStatic h s) = s /\
  (GetHeightSlotStatic h s < GetHeightSlotStatic h' s' <-> h < h' \/ (h = h' /\ s < s')).
Proof.
  intros H1 H2 H3 H4. destruct (height_slot h s H1 H2) as (E1 & E2 & E3). destruct (height_slot h' s' H3 H4) as (_ & _ & E3').
  split; [exact E1|]. split; [exact E2|]. rewrite E3, E3'. change (2 ^ 32) with 4294967296 in *. change (2 ^ 16) with 65536 in *. lia.
Qed.

Lemma height_slot_round_trip_witness : GetHeightByHsStatic (GetHeightSlotStatic 123456 9) = 123456.
Proof. apply (height_slot_round_trip 123456 9 0 0); split; first [discriminate | reflexivity]. Defined.

(** ** Matching *)

(** one trade takes no more than either order has left, exhausts one of them, settles
    at a price between the two orders' prices, and exchanges the amounts at that price. *)
Theorem trade_is_fair anchor sell buy prev s b : 0 < anchor -> 0 <= sell <= buy -> 0 <= s -> 0 <= b ->
  s * buy < U256 -> b * anchor < U256 ->
  let price := CalcCompletePrice buy sell prev in
  sell <= price <= buy /\
  let '(n, m) := trade anchor price s b in
  0 <= n <= s /\ 0 <= m <= b /\ (n = s \/ m = b) /\ fair anchor price n m.
Proof.
  intros Ha Hp Hs Hb H1 H2 price. pose proof (complete_price buy sell prev ltac:(lia)) as Hprice. split; [exact Hprice|].
  apply trade_ok; auto; [unfold price; lia|]. pose proof (mul_bound s price s buy). unfold price in *. lia.
Qed.

Lemma trade_is_fair_witness :
  let '(n, m) := trade COIN (CalcCompletePrice (3 * COIN) (2 * COIN) (5 * COIN)) 10 12 in 0 <= n <= 10 /\ 0 <= m <= 12.
Proof.
  pose proof (trade_is_fair COIN (2 * COIN) (3 * COIN) (5 * COIN) 10 12
    ltac:(vm_compute; reflexivity) ltac:(split; vm_compute; discriminate) ltac:(lia) ltac:(lia)
    ltac:(vm_compute; reflexivity) ltac:(vm_compute; reflexivity)) as T.
  cbv zeta in T. destruct (trade _ _ 10 12) as [n m]. destruct T as (_ & Hn & Hm & _). auto.
Defined.

(** A book of two sell orders and one buy order. *)
Definition example_value (number amount : Z) : CDexOrderValue := mk_value "owner" number amount 0 0 201 0.
Definition example_pair : CCoinDexPair :=
  mk_pair "AAA" "BBB" 201 201 COIN (2 * COIN) 0
    [(mk_key (2 * COIN) 10 0 1, example_value 1 100); (mk_key (3 * COIN) 9 0 2, example_value 2 50)]
    [(mk_key (4 * COIN) 11 0 3, example_value 3 320)] ∅.

Lemma example_pair_ok : pair_ok 1000 (10 * COIN) example_pair.
Proof.
  split; [vm_compute; reflexivity..| | | |].
  - constructor; [repeat constructor|]. repeat constructor; vm_compute; reflexivity.
  - repeat constructor.
  - repeat (constructor; [split; [|split]; cbn [fst snd]; vm_compute; intuition discriminate|]). constructor.
  - repeat (constructor; [split; [|split]; cbn [fst snd]; vm_compute; intuition discriminate|]). constructor.
Qed.

(** C2: a match never completes more than an order offers, never takes back what was
    completed, and its records account for every amount: the sums of the sell and of
    the buy amounts of the records are what the orders of that side completed. *)
Theorem match_accounts A P p : pair_ok A P p ->
  let st := run_match p in
  let records := snd (MatchOrder p) in
  Forall (within (sell_done st)) (mapSellOrder p) /\ Forall (within (buy_done st)) (mapBuyOrder p) /\
  total (fun kv => sell_done st kv - nCompleteAmount (snd kv)) (mapSellOrder p) = sum_records nSellCompleteAmount records /\
  total (fun kv => buy_done st kv - nCompleteAmount (snd kv)) (mapBuyOrder p) = sum_records nBuyCompleteAmount records.
Proof. intros H. destruct (run_match_ok A P p H) as [[I1 I2 I3 I4 I5 I6 I7] _]. auto. Qed.

Lemma match_accounts_witness :
  total (fun kv => sell_done (run_match example_pair) kv - nCompleteAmount (snd kv)) (mapSellOrder example_pair) =
  sum_records nSellCompleteAmount (snd (MatchOrder example_pair)).
Proof. exact (proj1 (proj2 (proj2 (match_accounts 1000 (10 * COIN) example_pair example_pair_ok)))). Defined.

(** C31: every record of a match settles between the prices of its two orders, and one
    amount is the other at the settled price, rounded down. *)
Theorem match_records_fair A P p : pair_ok A P p -> Forall (record_ok (nSellPriceAnchor p)) (snd (MatchOrder p)).
Proof. intros H. destruct (run_match_ok A P p H) as [[I1 I2 I3 I4 I5 I6 I7] _]. exact I5. Qed.

Lemma match_records_fair_witness :
  snd (MatchOrder example_pair) <> [] /\ Forall (record_ok COIN) (snd (MatchOrder example_pair)).
Proof. split; [vm_compute; discriminate|]. exact (match_records_fair 1000 (10 * COIN) example_pair example_pair_ok). Defined.

(** C1: after a match no two open orders cross: of any sell and any buy order up to the
    proved height slot, one is completed or the buyer offers less than the seller asks. *)
Theorem match_leaves_no_cross A P p s b : pair_ok A P p ->
  In s (mapSellOrder p) -> In b (mapBuyOrder p) -> matchable p (fst s) = true -> matchable p (fst b) = true ->
  let st := run_match p in sell_filled st s \/ buy_filled st b \/ nPrice (fst b) < nPrice (fst s).
Proof. intros H. destruct (run_match_ok A P p H) as [_ N]. auto. Qed.

Lemma match_leaves_no_cross_witness :
  let s := (mk_key (2 * COIN) 10 0 1, example_value 1 100) in
  let b := (mk_key (4 * COIN) 11 0 3, example_value 3 320) in
  let st := run_match example_pair in sell_filled st s \/ buy_filled st b \/ nPrice (fst b) < nPrice (fst s).
Proof.
  apply (match_leaves_no_cross 1000 (10 * COIN) example_pair); [exact example_pair_ok|now left|now left|reflexivity|reflexivity].
Defined.

(** C29: a match makes progress: when two open orders up to the proved height slot cross,
    it produces at least one record. *)
Theorem match_makes_progress A P p s b : pair_ok A P p ->
  In s (mapSellOrder p) -> In b (mapBuyOrder p) -> matchable p (fst s) = true -> matchable p (fst b) = true ->
  nCompleteAmount (snd s) < nOrderAmount (snd s) -> nCompleteAmount (snd b) < nOrderAmount (snd b) ->
  nPrice (fst s) <= nPrice (fst b) -> snd (MatchOrder p) <> [].
Proof.
  intros H Hs Hb Ms Mb Os Ob Hp. exact (run_match_progress A P p s b H Hs Hb Ms Mb Os Ob Hp).
Qed.

Lemma match_makes_progress_witness : snd (MatchOrder example_pair) <> [].
Proof.
  apply (match_makes_progress 1000 (10 * COIN) example_pair (mk_key (2 * COIN) 10 0 1, example_value 1 100)
    (mk_key (4 * COIN) 11 0 3, example_value 3 320)); try (vm_compute; first [reflexivity | discriminate]);
    [exact example_pair_ok|now left|now left].
Defined.

(** ** The book as a map from hashes to open orders *)

(** C3: adding an open order under a new hash, or again under its own hash, succeeds for
    an owner of one of the two coins, keeps the two maps and the index in agreement, and
    is an insertion into the map from hashes to open orders; any other owner is refused. *)
Theorem add_order_refines p h owner k v : book_ok p -> open_value v ->
  match side_of p owner with
  | Some t => placeable p h t k ->
      exists p', AddOrder p h owner k v = Some p' /\ book_ok p' /\
        order_at p' h = Some (t, k, v) /\ forall h', h' <> h -> order_at p' h' = order_at p h'
  | None => AddOrder p h owner k v = None
  end.
Proof.
  intros B Ov. destruct (side_of p owner) eqn:E; [|now apply AddOrder_unknown_coin].
  intros Fit. now apply AddOrder_ok.
Qed.

Definition empty_pair : CCoinDexPair := mk_pair "AAA" "BBB" 201 201 COIN 0 0 [] [] ∅.

Lemma empty_book : book_ok empty_pair.
Proof.
  split; [constructor|constructor|..].
  - intros h k t. cbn. rewrite lookup_empty. discriminate.
  - intros [] k v; discriminate.
  - intros h h' e. cbn. rewrite lookup_empty. discriminate.
Qed.

Lemma add_order_refines_witness :
  exists p', AddOrder empty_pair 77 "BBB" (mk_key 5 1 2 3) (example_value 1 100) = Some p' /\
    order_at p' 77 = Some (CDP_ORDER_TYPE_BUY, mk_key 5 1 2 3, example_value 1 100).
Proof.
  destruct (add_order_refines empty_pair 77 "BBB" (mk_key 5 1 2 3) (example_value 1 100) empty_book) as (p' & E & _ & A & _).
  - split; [cbn; lia|vm_compute; reflexivity].
  - left. split; reflexivity.
  - exists p'. auto.
Defined.

(** C4: recording a completed amount updates the order of that hash, and removes it from
    the map and from the index once nothing is left; other orders are untouched, and an
    unknown hash changes nothing and is reported. *)
Theorem complete_order_refines p h nComplete nCount : book_ok p -> 0 <= nComplete ->
  let '(p', ok) := UpdateCompleteOrder p h nComplete nCount in
  book_ok p' /\ (forall h', h' <> h -> order_at p' h' = order_at p h') /\
  match order_at p h with
  | None => ok = false /\ order_at p' h = None
  | Some (t, k, v) =>
      ok = true /\
      order_at p' h = if nOrderAmount v <=? nComplete then None else Some (t, k, set_complete v nComplete nCount)
  end.
Proof. apply UpdateCompleteOrder_ok. Qed.

Lemma complete_order_refines_witness : snd (UpdateCompleteOrder empty_pair 5 1 1) = false.
Proof.
  pose proof (complete_order_refines empty_pair 5 1 1 empty_book ltac:(lia)) as H.
  destruct (UpdateCompleteOrder empty_pair 5 1 1) as [p' ok]. apply H.
Defined.
