(* ===== verification/Merkle.v ===== *)
(** * Merkle trees: hnbase/structure/merkletree.h

    [CMerkleTree] keeps the tree as one vector, the leaves first and then one layer
    after the other; a node without a sibling is paired with itself.  The hash of two
    nodes is a parameter: [CryptoHash] calls a hash library.  A proof built for a leaf
    leads to the root; any proof that leads to the root starts from the node at the place
    its directions give, or exhibits a collision between a pair hashed to check it and a
    pair hashed to build the tree. *)

From Stdlib Require Import ZArith List Lia Bool PeanoNat.
Import ListNotations.
Local Open Scope nat_scope.

Inductive prove_dir := PD_LEFT | PD_RIGHT.

Definition MERKLE_PROVE_DATA : Type := list (prove_dir * Z).

Section Merkle.
Variable CryptoHash : Z -> Z -> Z.

(** The inner loop of BuildMerkleTree, which pushes the parents of one layer. *)
Definition push_layer (nLayerHeadIndex nSize : nat) (vMerkleTree : list Z) : list Z :=
  fold_left (fun t k =>
    let i := 2 * k in
    let i2 := Nat.min (i + 1) (nSize - 1) in
    t ++ [CryptoHash (nth (nLayerHeadIndex + i) t 0%Z) (nth (nLayerHeadIndex + i2) t 0%Z)])
  (seq 0 ((nSize + 1) / 2)) vMerkleTree.

(** for (nSize = vMerkleTree.size(); nSize > 1; nSize = (nSize + 1) / 2) *)
Fixpoint build_loop (fuel nLayerHeadIndex nSize : nat) (vMerkleTree : list Z) : list Z :=
  match fuel with
  | O => vMerkleTree
  | S fuel' =>
      if nSize <=? 1 then vMerkleTree
      else build_loop fuel' (nLayerHeadIndex + nSize) ((nSize + 1) / 2) (push_layer nLayerHeadIndex nSize vMerkleTree)
  end.

(** The tree and its root; zero for no leaves. *)
Definition BuildMerkleTree (vMerkleTree : list Z) : list Z * Z :=
  let t := build_loop (length vMerkleTree) 0 (length vMerkleTree) vMerkleTree in (t, last t 0%Z).

Definition CalcMerkleTreeRoot (vLeafHash : list Z) : Z := snd (BuildMerkleTree vLeafHash).

(** The loop of BuildMerkleProve; [None] where it returns false. *)
Fixpoint prove_loop (fuel nIndex nLayerHeadIndex nSize : nat) (vMerkleTree : list Z) (vMerkleProve : MERKLE_PROVE_DATA)
    : option MERKLE_PROVE_DATA :=
  match fuel with
  | O => Some vMerkleProve
  | S fuel' =>
      if nSize <=? 1 then Some vMerkleProve
      else if length vMerkleTree <? nLayerHeadIndex + nSize then None
      else
        let step :=
          if nIndex mod 2 =? 0 then
            if nSize - 1 <=? nIndex then (PD_RIGHT, nth (nLayerHeadIndex + nIndex) vMerkleTree 0%Z)
            else (PD_RIGHT, nth (nLayerHeadIndex + nIndex + 1) vMerkleTree 0%Z)
          else (PD_LEFT, nth (nLayerHeadIndex + nIndex - 1) vMerkleTree 0%Z) in
        prove_loop fuel' (nIndex / 2) (nLayerHeadIndex + nSize) ((nSize + 1) / 2) vMerkleTree (vMerkleProve ++ [step])
  end.

Definition BuildMerkleProve (nLeafIndex : nat) (vMerkleTree : list Z) (nLeafCount : nat) : option MERKLE_PROVE_DATA :=
  if nLeafCount <=? nLeafIndex then None else prove_loop nLeafCount nLeafIndex 0 nLeafCount vMerkleTree [].

(** The first leaf equal to [hashLeaf]. *)
Fixpoint find_leaf (hashLeaf : Z) (l : list Z) (i : nat) : option nat :=
  match l with
  | [] => None
  | x :: l' => if (x =? hashLeaf)%Z then Some i else find_leaf hashLeaf l' (S i)
  end.

Definition BuildMerkleProveByHash (hashLeaf : Z) (vMerkleTree : list Z) (nLeafCount : nat) : option MERKLE_PROVE_DATA :=
  if length vMerkleTree <? nLeafCount then None
  else match find_leaf hashLeaf (firstn nLeafCount vMerkleTree) 0 with
       | None => None
       | Some i => BuildMerkleProve i vMerkleTree nLeafCount
       end.

Definition GetMerkleRootByProve (vMerkleProve : MERKLE_PROVE_DATA) (hashVerify : Z) : Z :=
  fold_left (fun hashNode vd =>
    match fst vd with
    | PD_LEFT => CryptoHash (snd vd) hashNode
    | PD_RIGHT => CryptoHash hashNode (snd vd)
    end) vMerkleProve hashVerify.

Definition VerifyMerkleProve (hashMerkleRoot : Z) (vMerkleProve : MERKLE_PROVE_DATA) (hashVerify : Z) : bool :=
  (hashMerkleRoot =? GetMerkleRootByProve vMerkleProve hashVerify)%Z.

(** ** The layers *)

(** The parents of a layer. *)
Fixpoint parents (l : list Z) : list Z :=
  match l with
  | [] => []
  | [a] => [CryptoHash a a]
  | a :: b :: l' => CryptoHash a b :: parents l'
  end.

(** A layer and all the layers above it. *)
Fixpoint layers (fuel : nat) (l : list Z) : list Z :=
  match fuel with
  | O => l
  | S fuel' => if length l <=? 1 then l else l ++ layers fuel' (parents l)
  end.

Lemma list_pair_ind (P : list Z -> Prop) : P [] -> (forall a, P [a]) -> (forall a b l, P l -> P (a :: b :: l)) -> forall l, P l.
Proof.
  intros H0 H1 H2. assert (forall n l, length l <= n -> P l) as H.
  { induction n as [|n IH]; intros [|a [|b l]] Hl; cbn in Hl; auto; try lia. apply H2, IH. lia. }
  intros l. exact (H (length l) l (Nat.le_refl _)).
Qed.

Lemma half_SS n : (S (S n) + 1) / 2 = S ((n + 1) / 2).
Proof. replace (S (S n) + 1) with (n + 1 + 1 * 2) by lia. rewrite Nat.div_add by lia. lia. Qed.

Lemma parents_length l : length (parents l) = (length l + 1) / 2.
Proof. induction l as [|a|a b l IH] using list_pair_ind; [reflexivity..|]. cbn [parents length]. now rewrite half_SS, IH. Qed.

Lemma parents_nth l : forall k, k < length (parents l) ->
  nth k (parents l) 0%Z = CryptoHash (nth (2 * k) l 0%Z) (nth (Nat.min (2 * k + 1) (length l - 1)) l 0%Z).
Proof.
  induction l as [|a|a b l IH] using list_pair_ind; intros k Hk; cbn [parents length] in *; [lia|now replace k with 0 by lia|].
  destruct k as [|k]; [reflexivity|]. cbn [nth]. rewrite IH by lia. rewrite parents_length in Hk.
  assert (0 < length l).
  { destruct l; [|cbn; lia]. change ((length (@nil Z) + 1) / 2) with 0 in Hk. lia. }
  replace (2 * S k) with (S (S (2 * k))) by lia.
  replace (Nat.min (S (S (2 * k)) + 1) (S (S (length l)) - 1)) with (S (S (Nat.min (2 * k + 1) (length l - 1)))) by lia.
  reflexivity.
Qed.

Lemma push_layer_ok pre l : push_layer (length pre) (length l) (pre ++ l) = pre ++ l ++ parents l.
Proof.
  assert (H : forall k, k <= length (parents l) ->
    fold_left (fun t k => t ++ [CryptoHash (nth (length pre + 2 * k) t 0%Z)
                                  (nth (length pre + Nat.min (2 * k + 1) (length l - 1)) t 0%Z)])
      (seq 0 k) (pre ++ l) = pre ++ l ++ firstn k (parents l)).
  { induction k as [|k IH]; intros Hk; [now rewrite app_nil_r|].
    rewrite seq_S, fold_left_app, IH by lia. cbn [fold_left]. rewrite Nat.add_0_l.
    pose proof (parents_length l) as PL.
    assert (2 * k < length l) by (pose proof (Nat.Div0.mul_div_le (length l + 1) 2); lia).
    rewrite !(app_nth2 pre) by lia. rewrite !Nat.add_sub_swap, !Nat.sub_diag by lia. cbn [Nat.add].
    rewrite !(app_nth1 l) by lia. rewrite <- parents_nth by lia. rewrite <- !app_assoc. do 2 f_equal.
    rewrite <- (firstn_skipn k (parents l)) at 2 3. rewrite app_nth2; rewrite length_firstn, Nat.min_l by lia; [|lia].
    rewrite Nat.sub_diag. destruct (skipn k (parents l)) as [|x r] eqn:E.
    - apply (f_equal (@length Z)) in E. rewrite length_skipn in E. cbn in E. lia.
    - rewrite firstn_app, length_firstn, Nat.min_l by lia. rewrite firstn_firstn, Nat.min_r by lia.
      replace (S k - k) with 1 by lia. reflexivity. }
  unfold push_layer. rewrite <- parents_length. rewrite H by lia. now rewrite firstn_all.
Qed.

Lemma build_loop_ok fuel : forall pre l, build_loop fuel (length pre) (length l) (pre ++ l) = pre ++ layers fuel l.
Proof.
  induction fuel as [|fuel IH]; intros pre l; cbn [build_loop layers]; [reflexivity|].
  destruct (length l <=? 1); [reflexivity|].
  rewrite push_layer_ok, <- parents_length. rewrite (app_assoc pre l), <- length_app, IH. now rewrite app_assoc.
Qed.

Lemma BuildMerkleTree_layers l : fst (BuildMerkleTree l) = layers (length l) l.
Proof. exact (build_loop_ok (length l) [] l). Qed.

Lemma half_lt n : 1 < n -> (n + 1) / 2 < n.
Proof. intros H. apply Nat.Div0.div_lt_upper_bound; lia. Qed.

Lemma layers_last fuel l : 1 < length l ->
  last (layers (S fuel) l) 0%Z = last (layers fuel (parents l)) 0%Z.
Proof.
  intros H1. cbn [layers]. rewrite (proj2 (Nat.leb_gt _ _) H1).
  assert (N : layers fuel (parents l) <> []).
  { pose proof (parents_length l) as PL. assert (length (parents l) <> 0).
    { rewrite PL. pose proof (Nat.div_le_lower_bound (length l + 1) 2 1). lia. }
    intros E. assert (F : forall f x, length (layers f x) >= length x).
    { induction f as [|f IHf]; intros x; cbn [layers]; [lia|]. destruct (length x <=? 1); [lia|]. rewrite length_app. lia. }
    specialize (F fuel (parents l)). rewrite E in F. cbn in F. lia. }
  destruct (exists_last N) as (x & a & ->). now rewrite app_assoc, !last_last.
Qed.

(** ** Proofs of inclusion *)

(** One step of a proof leads from a node to its parent. *)
Lemma step_ok l idx : idx < length l -> 1 < length l ->
  let step := if idx mod 2 =? 0 then if length l - 1 <=? idx then (PD_RIGHT, nth idx l 0%Z) else (PD_RIGHT, nth (idx + 1) l 0%Z)
              else (PD_LEFT, nth (idx - 1) l 0%Z) in
  GetMerkleRootByProve [step] (nth idx l 0%Z) = nth (idx / 2) (parents l) 0%Z /\ idx / 2 < length (parents l).
Proof.
  intros Hi Hl. pose proof (Nat.div_mod_eq idx 2) as D. pose proof (Nat.mod_upper_bound idx 2 ltac:(lia)) as M.
  assert (B : idx / 2 < length (parents l)).
  { rewrite parents_length. apply Nat.Div0.div_lt_upper_bound. pose proof (Nat.div_mod_eq (length l + 1) 2) as D'.
    pose proof (Nat.mod_upper_bound (length l + 1) 2 ltac:(lia)). lia. }
  split; [|exact B]. rewrite parents_nth by exact B.
  destruct (Nat.eqb_spec (idx mod 2) 0) as [E|E]; cbn [GetMerkleRootByProve fold_left fst snd].
  - replace (2 * (idx / 2)) with idx by lia. destruct (Nat.leb_spec (length l - 1) idx); cbn [fst snd]; f_equal; f_equal; lia.
  - replace (2 * (idx / 2)) with (idx - 1) by lia. f_equal. f_equal. lia.
Qed.

Lemma layers_split fuel l : 1 < length l -> layers (S fuel) l = l ++ layers fuel (parents l).
Proof. intros H. cbn [layers]. now rewrite (proj2 (Nat.leb_gt _ _) H). Qed.

Lemma layers_small fuel l : length l <= 1 -> layers fuel l = l.
Proof. intros H. destruct fuel; cbn [layers]; [reflexivity|]. now rewrite (proj2 (Nat.leb_le _ _) H). Qed.

Lemma nth_mid (pre l r : list Z) k : k < length l -> nth (length pre + k) (pre ++ l ++ r) 0%Z = nth k l 0%Z.
Proof. intros H. rewrite app_nth2_plus. now rewrite app_nth1. Qed.

Lemma prove_loop_ok fuel : forall pre l idx acc, length l <= fuel -> idx < length l ->
  exists p, prove_loop fuel idx (length pre) (length l) (pre ++ layers fuel l) acc = Some (acc ++ p) /\
    GetMerkleRootByProve p (nth idx l 0%Z) = last (layers fuel l) 0%Z.
Proof.
  induction fuel as [|fuel IH]; intros pre l idx acc Hf Hi; [lia|]. cbn [prove_loop].
  destruct (Nat.leb_spec (length l) 1) as [H1|H1].
  - exists []. rewrite app_nil_r, layers_small by lia. split; [reflexivity|].
    destruct l as [|a [|b l]]; cbn in Hi, H1; try lia. now replace idx with 0 by lia.
  - rewrite layers_split, !length_app by lia. rewrite (proj2 (Nat.ltb_ge _ _)) by lia.
    destruct (step_ok l idx Hi H1) as [Hs Hb].
    match type of Hs with GetMerkleRootByProve [?s] _ = _ => set (step := s) in * end.
    match goal with |- context [prove_loop fuel _ _ _ _ (acc ++ [?s])] => replace s with step end.
    2:{ unfold step. pose proof (Nat.div_mod_eq idx 2). destruct (Nat.eqb_spec (idx mod 2) 0).
        - destruct (Nat.leb_spec (length l - 1) idx).
          + now rewrite nth_mid.
          + now rewrite <- Nat.add_assoc, nth_mid by lia.
        - replace (length pre + idx - 1) with (length pre + (idx - 1)) by lia. now rewrite nth_mid by lia. }
    rewrite <- parents_length, (app_assoc pre l), <- length_app.
    destruct (IH (pre ++ l) (parents l) (idx / 2) (acc ++ [step])) as (p & E & R); [rewrite parents_length; pose proof (half_lt _ H1); lia|exact Hb|].
    exists (step :: p). split; [rewrite E, <- app_assoc; reflexivity|].
    rewrite <- layers_split, layers_last by exact H1.
    change (step :: p) with ([step] ++ p). unfold GetMerkleRootByProve in *. now rewrite fold_left_app, Hs.
Qed.

Lemma BuildMerkleProve_ok l i : i < length l -> exists p,
  BuildMerkleProve i (fst (BuildMerkleTree l)) (length l) = Some p /\
  VerifyMerkleProve (CalcMerkleTreeRoot l) p (nth i l 0%Z) = true.
Proof.
  intros Hi. rewrite BuildMerkleTree_layers. destruct (prove_loop_ok (length l) [] l i [] (Nat.le_refl _) Hi) as (p & E & R).
  exists p. split; [unfold BuildMerkleProve; rewrite (proj2 (Nat.leb_gt _ _) Hi); exact E|].
  unfold VerifyMerkleProve, CalcMerkleTreeRoot. rewrite R. apply Z.eqb_eq.
  change (snd (BuildMerkleTree l)) with (last (fst (BuildMerkleTree l)) 0%Z). now rewrite BuildMerkleTree_layers.
Qed.

Lemma find_leaf_ok h l : forall i, match find_leaf h l i with
  | Some j => i <= j < i + length l /\ nth (j - i) l 0%Z = h
  | None => ~ In h l
  end.
Proof.
  induction l as [|x l IH]; intros i; cbn [find_leaf length]; [easy|].
  destruct (Z.eqb_spec x h) as [->|N]; [split; [lia|now rewrite Nat.sub_diag]|].
  specialize (IH (S i)). destruct (find_leaf h l (S i)) as [j|].
  - destruct IH as [B E]. split; [lia|]. replace (j - i) with (S (j - S i)) by lia. exact E.
  - intros [E|E]; auto.
Qed.

Lemma BuildMerkleProve_range i l n p : BuildMerkleProve i l n = Some p -> i < n.
Proof. unfold BuildMerkleProve. destruct (Nat.leb_spec n i); [discriminate|auto]. Qed.

(** The leaves are the front of the tree. *)
Lemma layers_prefix fuel l : exists r, layers fuel l = l ++ r.
Proof.
  destruct fuel as [|fuel]; [exists []; symmetry; apply app_nil_r|]. destruct (Nat.le_gt_cases (length l) 1) as [L|L].
  - exists []. now rewrite layers_small, app_nil_r.
  - eexists. now apply layers_split.
Qed.

Lemma BuildMerkleProveByHash_ok h l :
  match BuildMerkleProveByHash h (fst (BuildMerkleTree l)) (length l) with
  | Some p => VerifyMerkleProve (CalcMerkleTreeRoot l) p h = true
  | None => ~ In h l
  end.
Proof.
  unfold BuildMerkleProveByHash. rewrite BuildMerkleTree_layers. destruct (layers_prefix (length l) l) as [r E].
  assert (L : length l <= length (layers (length l) l)) by (rewrite E, length_app; lia).
  assert (F0 : firstn (length l) (layers (length l) l) = l) by (rewrite E, firstn_app, Nat.sub_diag, firstn_O, app_nil_r; apply firstn_all).
  rewrite (proj2 (Nat.ltb_ge _ _) L), F0.
  pose proof (find_leaf_ok h l 0) as F. destruct (find_leaf h l 0) as [j|]; [|exact F]. destruct F as [B F].
  rewrite Nat.sub_0_r in F. destruct (BuildMerkleProve_ok l j ltac:(lia)) as (p & Ep & V).
  rewrite BuildMerkleTree_layers in Ep. rewrite Ep. now rewrite <- F.
Qed.

(** ** What a proof that verifies proves *)

(** The layer [k] steps above the leaves, and the number of layers above them. *)
Fixpoint level (k : nat) (l : list Z) : list Z :=
  match k with
  | O => l
  | S k' => level k' (parents l)
  end.

Fixpoint height_loop (fuel n : nat) : nat :=
  match fuel with
  | O => O
  | S fuel' => if n <=? 1 then O else S (height_loop fuel' ((n + 1) / 2))
  end.

Definition height (n : nat) : nat := height_loop n n.

(** The place in a layer of [n] nodes that the directions of a proof lead to. *)
Fixpoint place (q : MERKLE_PROVE_DATA) (n : nat) : nat :=
  match q with
  | [] => 0
  | (d, _) :: q' =>
      let j := place q' ((n + 1) / 2) in
      match d with PD_RIGHT => 2 * j | PD_LEFT => Nat.min (2 * j + 1) (n - 1) end
  end.

(** The pairs hashed to check a proof for [x], and those hashed to build the tree. *)
Fixpoint proof_pairs (q : MERKLE_PROVE_DATA) (x : Z) : list (Z * Z) :=
  match q with
  | [] => []
  | (d, a) :: q' =>
      let (l, r) := match d with PD_LEFT => (a, x) | PD_RIGHT => (x, a) end in
      (l, r) :: proof_pairs q' (CryptoHash l r)
  end.

Fixpoint layer_pairs (l : list Z) : list (Z * Z) :=
  match l with
  | [] => []
  | [a] => [(a, a)]
  | a :: b :: l' => (a, b) :: layer_pairs l'
  end.

Fixpoint tree_pairs (k : nat) (l : list Z) : list (Z * Z) :=
  match k with
  | O => []
  | S k' => layer_pairs l ++ tree_pairs k' (parents l)
  end.

(** A pair of the proof and another pair of the tree that have the same hash. *)
Definition collides (p t : list (Z * Z)) : Prop :=
  exists ab cd, In ab p /\ In cd t /\ ab <> cd /\ CryptoHash (fst ab) (snd ab) = CryptoHash (fst cd) (snd cd).

Lemma layer_pairs_nth l : forall j, j < length (parents l) ->
  In (nth (2 * j) l 0%Z, nth (Nat.min (2 * j + 1) (length l - 1)) l 0%Z) (layer_pairs l).
Proof.
  induction l as [|a|a b l IH] using list_pair_ind; intros j Hj; cbn [parents length] in Hj; [lia|replace j with 0 by lia; now left|].
  destruct j as [|j]; [now left|]. cbn [layer_pairs]. right. specialize (IH j ltac:(lia)).
  assert (0 < length l) by (destruct l; [cbn in Hj; lia|cbn; lia]).
  replace (2 * S j) with (S (S (2 * j))) by lia. cbn [length].
  replace (Nat.min (S (S (2 * j)) + 1) (S (S (length l)) - 1)) with (S (S (Nat.min (2 * j + 1) (length l - 1)))) by lia.
  exact IH.
Qed.

Lemma verify_cons d a q x : GetMerkleRootByProve ((d, a) :: q) x =
  GetMerkleRootByProve q (match d with PD_LEFT => CryptoHash a x | PD_RIGHT => CryptoHash x a end).
Proof. reflexivity. Qed.

(** A proof of [length q] steps that leads to a layer of one node starts from the node at
    its place, or exhibits a collision. *)
Lemma proof_binds q : forall x l, length (level (length q) l) = 1 ->
  GetMerkleRootByProve q x = nth 0 (level (length q) l) 0%Z ->
  (place q (length l) < length l /\ x = nth (place q (length l)) l 0%Z) \/ collides (proof_pairs q x) (tree_pairs (length q) l).
Proof.
  induction q as [|[d a] q IH]; intros x l H1 E.
  - left. cbn [place length level] in *. split; [lia|exact E].
  - cbn [length level] in H1, E. rewrite verify_cons in E. destruct (IH _ _ H1 E) as [[Hj Hx]|(ab & cd & I1 & I2 & N & Eq)].
    + rewrite parents_length in Hj, Hx. set (j := place q ((length l + 1) / 2)) in *.
      assert (Hj' : j < length (parents l)) by (rewrite parents_length; exact Hj).
      rewrite parents_nth in Hx by exact Hj'. pose proof (layer_pairs_nth l j Hj') as Hin.
      pose proof (Nat.Div0.mul_div_le (length l + 1) 2) as Hd.
      cbn [place proof_pairs tree_pairs length]. fold j.
      set (c := nth (2 * j) l 0%Z) in *. set (c' := nth (Nat.min (2 * j + 1) (length l - 1)) l 0%Z) in *.
      destruct d.
      * destruct (Z.eq_dec x c') as [->|Ne]; [left; split; [lia|reflexivity]|].
        right. exists (a, x), (c, c'). split; [now left|]. split; [apply in_or_app; now left|]. split; [congruence|exact Hx].
      * destruct (Z.eq_dec x c) as [->|Ne]; [left; split; [lia|reflexivity]|].
        right. exists (x, a), (c, c'). split; [now left|]. split; [apply in_or_app; now left|]. split; [congruence|exact Hx].
    + right. exists ab, cd. cbn [proof_pairs tree_pairs length]. destruct d;
        (split; [right; exact I1|]; split; [apply in_or_app; now right|auto]).
Qed.

Lemma level_level i j l : level (i + j) l = level j (level i l).
Proof. revert l. induction i as [|i IH]; intros l; cbn [Nat.add level]; [reflexivity|apply IH]. Qed.

Lemma half_le n fuel : n <= S fuel -> 1 < n -> (n + 1) / 2 <= fuel.
Proof. intros H1 H2. pose proof (half_lt n H2). lia. Qed.

Lemma parents_nonempty l : 0 < length l -> 0 < length (parents l).
Proof. destruct l as [|a [|b l]]; cbn [parents length]; lia. Qed.

Lemma level_height fuel : forall l, 0 < length l <= fuel ->
  length (level (height_loop fuel (length l)) l) = 1 /\
  last (layers fuel l) 0%Z = nth 0 (level (height_loop fuel (length l)) l) 0%Z.
Proof.
  induction fuel as [|fuel IH]; intros l Hl; [lia|]. cbn [height_loop]. destruct (Nat.leb_spec (length l) 1) as [H1|H1].
  - rewrite layers_small by exact H1. destruct l as [|a [|b l]]; cbn in *; [lia|auto|lia].
  - cbn [level]. rewrite layers_last by exact H1. rewrite <- parents_length. apply IH.
    split; [apply parents_nonempty; lia|rewrite parents_length; now apply half_le].
Qed.

Lemma root_level l : 0 < length l -> length (level (height (length l)) l) = 1 /\
  CalcMerkleTreeRoot l = nth 0 (level (height (length l)) l) 0%Z.
Proof.
  intros Hl. unfold height. destruct (level_height (length l) l ltac:(lia)) as [H1 H2]. split; [exact H1|].
  rewrite <- H2, <- BuildMerkleTree_layers. reflexivity.
Qed.

Lemma VerifyMerkleProve_binds l q x : 0 < length l -> length q <= height (length l) ->
  VerifyMerkleProve (CalcMerkleTreeRoot l) q x = true ->
  let layer := level (height (length l) - length q) l in
  x = nth (place q (length layer)) layer 0%Z \/ collides (proof_pairs q x) (tree_pairs (length q) layer).
Proof.
  intros Hl Hq Hv layer. destruct (root_level l Hl) as [H1 H2]. apply Z.eqb_eq in Hv.
  assert (E : level (height (length l)) l = level (length q) layer)
    by (unfold layer; rewrite <- level_level; f_equal; lia).
  rewrite E in H1, H2. destruct (proof_binds q x layer H1) as [[_ Hx]|C]; [congruence|now left|now right].
Qed.

(** The proof of a leaf has as many steps as there are layers, and leads to its place. *)
Lemma prove_loop_place fuel : forall n idx base t acc p, n <= fuel -> idx < n ->
  prove_loop fuel idx base n t acc = Some p ->
  exists q, p = acc ++ q /\ length q = height_loop fuel n /\ place q n = idx.
Proof.
  induction fuel as [|fuel IH]; intros n idx base t acc p Hf Hi Hp; [lia|]. cbn [prove_loop height_loop] in *.
  destruct (Nat.leb_spec n 1) as [H1|H1].
  - injection Hp as <-. exists []. rewrite app_nil_r. cbn. split; [reflexivity|]. split; [reflexivity|lia].
  - destruct (length t <? base + n); [discriminate|]. pose proof (Nat.div_mod_eq idx 2) as D.
    pose proof (Nat.mod_upper_bound idx 2 ltac:(lia)) as M. pose proof (Nat.div_mod_eq (n + 1) 2) as D'.
    pose proof (Nat.mod_upper_bound (n + 1) 2 ltac:(lia)) as M'.
    apply IH in Hp; [|now apply half_le|apply Nat.Div0.div_lt_upper_bound; lia].
    destruct Hp as (q & -> & L & P). rewrite <- app_assoc. eexists. split; [reflexivity|]. cbn [app length].
    split; [now rewrite L|]. cbn [app place]. destruct (Nat.eqb_spec (idx mod 2) 0).
    + destruct (n - 1 <=? idx); cbn [place]; rewrite P; lia.
    + cbn [place]. rewrite P. lia.
Qed.

Lemma BuildMerkleProve_place i l p : BuildMerkleProve i (fst (BuildMerkleTree l)) (length l) = Some p ->
  length p = height (length l) /\ place p (length l) = i.
Proof.
  intros Hp. pose proof (BuildMerkleProve_range _ _ _ _ Hp) as Hi. unfold BuildMerkleProve in Hp.
  rewrite (proj2 (Nat.leb_gt _ _) Hi) in Hp. destruct (prove_loop_place _ _ _ _ _ _ _ (Nat.le_refl _) Hi Hp) as (q & -> & L & P).
  auto.
Qed.

(** A node without a sibling is paired with itself, so a tree does not tell whether its
    last leaf of an odd number is repeated. *)
Lemma root_repeats_last_leaf a b c : CalcMerkleTreeRoot [a; b; c] = CalcMerkleTreeRoot [a; b; c; c].
Proof. reflexivity. Qed.

End Merkle.
