(* ===== verification/Base32.v ===== *)
(** * Base32 addresses with a checksum: crypto/crc24q.cpp and crypto/base32.cpp

    A 32-byte value is written as 56 characters: its bytes, then the 24 bits of its
    CRC-24Q.  Bytes and characters are integers from 0 to 255. *)

From Stdlib Require Import ZArith List Lia Bool.
From S2P Require Import Prelude Radix.
Import ListNotations.
Local Open Scope Z_scope.

(** ** crc24q *)

Definition crc24q_table : list Z :=
  [0x00000000; 0x01864cfb; 0x028ad50d; 0x030c99f6; 0x0493e6e1; 0x0515aa1a; 0x061933ec; 0x079f7f17;
   0x08a18139; 0x0927cdc2; 0x0a2b5434; 0x0bad18cf; 0x0c3267d8; 0x0db42b23; 0x0eb8b2d5; 0x0f3efe2e;
   0x10c54e89; 0x11430272; 0x124f9b84; 0x13c9d77f; 0x1456a868; 0x15d0e493; 0x16dc7d65; 0x175a319e;
   0x1864cfb0; 0x19e2834b; 0x1aee1abd; 0x1b685646; 0x1cf72951; 0x1d7165aa; 0x1e7dfc5c; 0x1ffbb0a7;
   0x200cd1e9; 0x218a9d12; 0x228604e4; 0x2300481f; 0x249f3708; 0x25197bf3; 0x2615e205; 0x2793aefe;
   0x28ad50d0; 0x292b1c2b; 0x2a2785dd; 0x2ba1c926; 0x2c3eb631; 0x2db8faca; 0x2eb4633c; 0x2f322fc7;
   0x30c99f60; 0x314fd39b; 0x32434a6d; 0x33c50696; 0x345a7981; 0x35dc357a; 0x36d0ac8c; 0x3756e077;
   0x38681e59; 0x39ee52a2; 0x3ae2cb54; 0x3b6487af; 0x3cfbf8b8; 0x3d7db443; 0x3e712db5; 0x3ff7614e;
   0x4019a3d2; 0x419fef29; 0x429376df; 0x43153a24; 0x448a4533; 0x450c09c8; 0x4600903e; 0x4786dcc5;
   0x48b822eb; 0x493e6e10; 0x4a32f7e6; 0x4bb4bb1d; 0x4c2bc40a; 0x4dad88f1; 0x4ea11107; 0x4f275dfc;
   0x50dced5b; 0x515aa1a0; 0x52563856; 0x53d074ad; 0x544f0bba; 0x55c94741; 0x56c5deb7; 0x5743924c;
   0x587d6c62; 0x59fb2099; 0x5af7b96f; 0x5b71f594; 0x5cee8a83; 0x5d68c678; 0x5e645f8e; 0x5fe21375;
   0x6015723b; 0x61933ec0; 0x629fa736; 0x6319ebcd; 0x648694da; 0x6500d821; 0x660c41d7; 0x678a0d2c;
   0x68b4f302; 0x6932bff9; 0x6a3e260f; 0x6bb86af4; 0x6c2715e3; 0x6da15918; 0x6eadc0ee; 0x6f2b8c15;
   0x70d03cb2; 0x71567049; 0x725ae9bf; 0x73dca544; 0x7443da53; 0x75c596a8; 0x76c90f5e; 0x774f43a5;
   0x7871bd8b; 0x79f7f170; 0x7afb6886; 0x7b7d247d; 0x7ce25b6a; 0x7d641791; 0x7e688e67; 0x7feec29c;
   0x803347a4; 0x81b50b5f; 0x82b992a9; 0x833fde52; 0x84a0a145; 0x8526edbe; 0x862a7448; 0x87ac38b3;
   0x8892c69d; 0x89148a66; 0x8a181390; 0x8b9e5f6b; 0x8c01207c; 0x8d876c87; 0x8e8bf571; 0x8f0db98a;
   0x90f6092d; 0x917045d6; 0x927cdc20; 0x93fa90db; 0x9465efcc; 0x95e3a337; 0x96ef3ac1; 0x9769763a;
   0x98578814; 0x99d1c4ef; 0x9add5d19; 0x9b5b11e2; 0x9cc46ef5; 0x9d42220e; 0x9e4ebbf8; 0x9fc8f703;
   0xa03f964d; 0xa1b9dab6; 0xa2b54340; 0xa3330fbb; 0xa4ac70ac; 0xa52a3c57; 0xa626a5a1; 0xa7a0e95a;
   0xa89e1774; 0xa9185b8f; 0xaa14c279; 0xab928e82; 0xac0df195; 0xad8bbd6e; 0xae872498; 0xaf016863;
   0xb0fad8c4; 0xb17c943f; 0xb2700dc9; 0xb3f64132; 0xb4693e25; 0xb5ef72de; 0xb6e3eb28; 0xb765a7d3;
   0xb85b59fd; 0xb9dd1506; 0xbad18cf0; 0xbb57c00b; 0xbcc8bf1c; 0xbd4ef3e7; 0xbe426a11; 0xbfc426ea;
   0xc02ae476; 0xc1aca88d; 0xc2a0317b; 0xc3267d80; 0xc4b90297; 0xc53f4e6c; 0xc633d79a; 0xc7b59b61;
   0xc88b654f; 0xc90d29b4; 0xca01b042; 0xcb87fcb9; 0xcc1883ae; 0xcd9ecf55; 0xce9256a3; 0xcf141a58;
   0xd0efaaff; 0xd169e604; 0xd2657ff2; 0xd3e33309; 0xd47c4c1e; 0xd5fa00e5; 0xd6f69913; 0xd770d5e8;
   0xd84e2bc6; 0xd9c8673d; 0xdac4fecb; 0xdb42b230; 0xdcddcd27; 0xdd5b81dc; 0xde57182a; 0xdfd154d1;
   0xe026359f; 0xe1a07964; 0xe2ace092; 0xe32aac69; 0xe4b5d37e; 0xe5339f85; 0xe63f0673; 0xe7b94a88;
   0xe887b4a6; 0xe901f85d; 0xea0d61ab; 0xeb8b2d50; 0xec145247; 0xed921ebc; 0xee9e874a; 0xef18cbb1;
   0xf0e37b16; 0xf16537ed; 0xf269ae1b; 0xf3efe2e0; 0xf4709df7; 0xf5f6d10c; 0xf6fa48fa; 0xf77c0401;
   0xf842fa2f; 0xf9c4b6d4; 0xfac82f22; 0xfb4e63d9; 0xfcd11cce; 0xfd575035; 0xfe5bc9c3; 0xffdd8538].

(** The loop body, on a 32-bit [crc]. *)
Definition crc_step (crc data : Z) : Z :=
  Z.lxor (Z.shiftl crc 8 mod 2 ^ 32) (nth (Z.to_nat (Z.lxor data (Z.land 255 (Z.shiftr crc 16)))) crc24q_table 0).

Definition crc24q (data : list Z) : Z := Z.land (fold_left crc_step data 0) 0x00ffffff.

(** ** Encoding *)

Definition alphabet : list Z :=
  [48; 49; 50; 51; 52; 53; 54; 55; 56; 57; 97; 98; 99; 100; 101; 102; 103; 104; 106; 107; 109; 110; 112; 113; 114; 115;
   116; 118; 119; 120; 121; 122].

(** The eight 5-bit indexes of five bytes. *)
Definition encode_indexes (md5 : list Z) : list Z :=
  let b i := nth i md5 0 in
  [Z.land (Z.shiftr (b 0%nat) 3) 0x1F;
   Z.lor (Z.land (Z.shiftl (b 0%nat) 2) 0x1C) (Z.land (Z.shiftr (b 1%nat) 6) 0x03);
   Z.land (Z.shiftr (b 1%nat) 1) 0x1F;
   Z.lor (Z.land (Z.shiftl (b 1%nat) 4) 0x10) (Z.land (Z.shiftr (b 2%nat) 4) 0x0F);
   Z.lor (Z.land (Z.shiftl (b 2%nat) 1) 0x1E) (Z.land (Z.shiftr (b 3%nat) 7) 0x01);
   Z.land (Z.shiftr (b 3%nat) 2) 0x1F;
   Z.lor (Z.land (Z.shiftl (b 3%nat) 3) 0x18) (Z.land (Z.shiftr (b 4%nat) 5) 0x07);
   Z.land (b 4%nat) 0x1F].

Definition Base32Encode5Bytes (md5 : list Z) : list Z :=
  map (fun i => nth (Z.to_nat i) alphabet 0) (encode_indexes md5).

Definition Base32Encode (md32 : list Z) : list Z :=
  let crc := crc24q md32 in
  flat_map (fun i => Base32Encode5Bytes (firstn 5 (skipn (5 * i) md32))) (seq 0 6) ++
  Base32Encode5Bytes [nth 30 md32 0; nth 31 md32 0; Z.shiftr crc 16 mod 256; Z.shiftr crc 8 mod 256; crc mod 256].

(** ** Decoding *)

Definition digit : list Z :=
  [(-1); (-1); (-1); (-1); (-1); (-1); (-1); (-1); (-1); (-1); (-1); (-1); (-1); (-1); (-1); (-1);
   (-1); (-1); (-1); (-1); (-1); (-1); (-1); (-1); (-1); (-1); (-1); (-1); (-1); (-1); (-1); (-1);
   (-1); (-1); (-1); (-1); (-1); (-1); (-1); (-1); (-1); (-1); (-1); (-1); (-1); (-1); (-1); (-1);
   0; 1; 2; 3; 4; 5; 6; 7; 8; 9; (-1); (-1); (-1); (-1); (-1); (-1);
   (-1); 10; 11; 12; 13; 14; 15; 16; 17; (-1); 18; 19; (-1); 20; 21; (-1);
   22; 23; 24; 25; 26; (-1); 27; 28; 29; 30; 31; (-1); (-1); (-1); (-1); (-1);
   (-1); 10; 11; 12; 13; 14; 15; 16; 17; (-1); 18; 19; (-1); 20; 21; (-1);
   22; 23; 24; 25; 26; (-1); 27; 28; 29; 30; 31; (-1); (-1); (-1); (-1); (-1);
   (-1); (-1); (-1); (-1); (-1); (-1); (-1); (-1); (-1); (-1); (-1); (-1); (-1); (-1); (-1); (-1);
   (-1); (-1); (-1); (-1); (-1); (-1); (-1); (-1); (-1); (-1); (-1); (-1); (-1); (-1); (-1); (-1);
   (-1); (-1); (-1); (-1); (-1); (-1); (-1); (-1); (-1); (-1); (-1); (-1); (-1); (-1); (-1); (-1);
   (-1); (-1); (-1); (-1); (-1); (-1); (-1); (-1); (-1); (-1); (-1); (-1); (-1); (-1); (-1); (-1);
   (-1); (-1); (-1); (-1); (-1); (-1); (-1); (-1); (-1); (-1); (-1); (-1); (-1); (-1); (-1); (-1);
   (-1); (-1); (-1); (-1); (-1); (-1); (-1); (-1); (-1); (-1); (-1); (-1); (-1); (-1); (-1); (-1);
   (-1); (-1); (-1); (-1); (-1); (-1); (-1); (-1); (-1); (-1); (-1); (-1); (-1); (-1); (-1); (-1);
   (-1); (-1); (-1); (-1); (-1); (-1); (-1); (-1); (-1); (-1); (-1); (-1); (-1); (-1); (-1); (-1)].

(** digit[*psz]: a [char] above 127 is a negative index. *)
Definition digit_at (c : Z) : result Z := if 127 <? c then Undef else Ok (nth (Z.to_nat c) digit 0).

Fixpoint digits_at (cs : list Z) : result (list Z) :=
  match cs with
  | [] => Ok []
  | c :: cs' => let! d := digit_at c in let! ds := digits_at cs' in Ok (d :: ds)
  end.

(** The five bytes of eight indexes. *)
Definition decode_bytes (idx : list Z) : list Z :=
  let x i := nth i idx 0 in
  map (fun b => b mod 256)
    [Z.lor (Z.land (Z.shiftl (x 0%nat) 3) 0xF8) (Z.land (Z.shiftr (x 1%nat) 2) 0x07);
     Z.lor (Z.lor (Z.land (Z.shiftl (x 1%nat) 6) 0xC0) (Z.land (Z.shiftl (x 2%nat) 1) 0x3E)) (Z.land (Z.shiftr (x 3%nat) 4) 0x01);
     Z.lor (Z.land (Z.shiftl (x 3%nat) 4) 0xF0) (Z.land (Z.shiftr (x 4%nat) 1) 0x0F);
     Z.lor (Z.lor (Z.land (Z.shiftl (x 4%nat) 7) 0x80) (Z.land (Z.shiftl (x 5%nat) 2) 0x7C)) (Z.land (Z.shiftr (x 6%nat) 3) 0x03);
     Z.lor (Z.land (Z.shiftl (x 6%nat) 5) 0xE0) (Z.land (x 7%nat) 0x1F)].

(** The bytes, and whether the characters are accepted. *)
Definition Base32Decode5Bytes (psz : list Z) : result (list Z * bool) :=
  let! idx := digits_at psz in
  let sum := fold_left Z.land idx 0 in
  Ok (decode_bytes idx, Z.shiftr sum 7 =? 0).

(** for (i = 0; i < 7; i++): [None] where a group is refused. *)
Fixpoint decode_groups (n : nat) (s : list Z) : result (option (list Z)) :=
  match n with
  | O => Ok (Some [])
  | S n' =>
      let! (md5, ok) := Base32Decode5Bytes (firstn 8 s) in
      if ok then
        let! rest := decode_groups n' (skipn 8 s) in
        Ok (option_map (app md5) rest)
      else Ok None
  end.

Definition Base32Decode (strBase32 : list Z) : result (option (list Z)) :=
  if negb (length strBase32 =? 56)%nat then Ok None
  else
    let! data := decode_groups 7 strBase32 in
    match data with
    | None => Ok None
    | Some data => if crc24q data =? 0 then Ok (Some (firstn 32 data)) else Ok None
    end.

(** ** Checks over all bytes *)

Definition all_bytes : list Z := map Z.of_nat (seq 0 256).

Lemma in_all_bytes b : 0 <= b < 256 -> In b all_bytes.
Proof. intros H. apply in_map_iff. exists (Z.to_nat b). split; [lia|apply in_seq; lia]. Qed.

Lemma check1 (P : Z -> bool) : forallb P all_bytes = true -> forall b, 0 <= b < 256 -> P b = true.
Proof. intros H b Hb. rewrite forallb_forall in H. apply H, in_all_bytes, Hb. Qed.

Lemma check2 (P : Z -> Z -> bool) : forallb (fun a => forallb (P a) all_bytes) all_bytes = true ->
  forall a b, 0 <= a < 256 -> 0 <= b < 256 -> P a b = true.
Proof. intros H a b Ha Hb. apply (check1 (P a)); [|exact Hb]. now apply (check1 (fun a => forallb (P a) all_bytes)). Qed.

(** ** The checksum *)

Lemma crc24q_spec data : crc24q data = fold_left crc_step data 0 mod 2 ^ 24.
Proof. unfold crc24q. change 0x00ffffff with (Z.ones 24). apply Z.land_ones. lia. Qed.

(** The state modulo 2^24 after a step. *)
Lemma mod_lxor a b k : 0 <= k -> Z.lxor a b mod 2 ^ k = Z.lxor (a mod 2 ^ k) (b mod 2 ^ k).
Proof.
  intros Hk. rewrite <- !Z.land_ones by exact Hk. apply Z.bits_inj'. intros n Hn.
  rewrite Z.land_spec, !Z.lxor_spec, !Z.land_spec. destruct (Z.testbit (Z.ones k) n); rewrite ?andb_true_r, ?andb_false_r; reflexivity.
Qed.

Lemma mid_byte c : Z.land 255 (Z.shiftr c 16) = c / 2 ^ 16 mod 256.
Proof. rewrite Z.land_comm, Z.shiftr_div_pow2 by lia. change 255 with (Z.ones 8). now rewrite Z.land_ones by lia. Qed.

Definition tab (i : Z) : Z := nth (Z.to_nat i) crc24q_table 0 mod 2 ^ 24.

Lemma crc_step_mod c d : crc_step c d mod 2 ^ 24 = Z.lxor (c mod 2 ^ 16 * 256) (tab (Z.lxor d (c / 2 ^ 16 mod 256))).
Proof.
  unfold crc_step, tab. rewrite mod_lxor, mid_byte by lia. f_equal.
  rewrite Z.shiftl_mul_pow2 by lia. change (2 ^ 32) with (2 ^ 8 * 2 ^ 24). rewrite Z.mul_comm.
  change (2 ^ 8 * 2 ^ 24) with (2 ^ 24 * 2 ^ 8). rewrite Z.mod_mod_divide by now exists (2 ^ 8).
  change (2 ^ 24) with (2 ^ 8 * 2 ^ 16). rewrite Z.mul_mod_distr_l by lia. change (2 ^ 8) with 256. ring.
Qed.

(** A state of three bytes, whatever is above them. *)
Definition st (c2 c1 c0 : Z) : Z := c2 * 65536 + c1 * 256 + c0.

Lemma crc_step_st c c2 c1 c0 d : 0 <= c2 < 256 -> 0 <= c1 < 256 -> 0 <= c0 < 256 -> c mod 2 ^ 24 = st c2 c1 c0 ->
  crc_step c d mod 2 ^ 24 = Z.lxor (st c1 c0 0) (tab (Z.lxor d c2)).
Proof.
  intros H2 H1 H0 E. rewrite crc_step_mod. unfold st in *. change (2 ^ 24) with 16777216 in E. change (2 ^ 16) with 65536.
  replace (c mod 65536) with (c1 * 256 + c0) by (Z.to_euclidean_division_equations; lia).
  replace (c / 65536 mod 256) with c2 by (Z.to_euclidean_division_equations; lia).
  f_equal. ring.
Qed.

Lemma st_bytes c : exists c2 c1 c0, 0 <= c2 < 256 /\ 0 <= c1 < 256 /\ 0 <= c0 < 256 /\ c mod 2 ^ 24 = st c2 c1 c0 /\
  Z.shiftr (c mod 2 ^ 24) 16 mod 256 = c2 /\ Z.shiftr (c mod 2 ^ 24) 8 mod 256 = c1 /\ c mod 2 ^ 24 mod 256 = c0.
Proof.
  rewrite !Z.shiftr_div_pow2 by lia. change (2 ^ 24) with 16777216. change (2 ^ 16) with 65536. change (2 ^ 8) with 256.
  exists (c mod 16777216 / 65536 mod 256), (c mod 16777216 / 256 mod 256), (c mod 16777216 mod 256).
  unfold st. repeat split; Z.to_euclidean_division_equations; lia.
Qed.

Lemma crc_step_same c c2 c1 c0 : 0 <= c2 < 256 -> 0 <= c1 < 256 -> 0 <= c0 < 256 -> c mod 2 ^ 24 = st c2 c1 c0 ->
  crc_step c c2 mod 2 ^ 24 = st c1 c0 0.
Proof.
  intros H2 H1 H0 E. rewrite (crc_step_st c c2 c1 c0) by assumption. rewrite Z.lxor_nilpotent. apply Z.lxor_0_r.
Qed.

(** The checksum of a message followed by its checksum is zero. *)
Lemma crc24q_append data : let crc := crc24q data in
  crc24q (data ++ [Z.shiftr crc 16 mod 256; Z.shiftr crc 8 mod 256; crc mod 256]) = 0.
Proof.
  cbv zeta. rewrite !crc24q_spec, fold_left_app. set (c := fold_left crc_step data 0).
  destruct (st_bytes c) as (c2 & c1 & c0 & H2 & H1 & H0 & E & -> & -> & ->). cbn [fold_left].
  pose proof (crc_step_same c c2 c1 c0 H2 H1 H0 E) as E1.
  pose proof (crc_step_same _ c1 c0 0 H1 H0 ltac:(lia) E1) as E2.
  now rewrite (crc_step_same _ c0 0 0 H0 ltac:(lia) ltac:(lia) E2).
Qed.

(** *** A changed byte changes the checksum *)

Lemma lxor_byte a b : 0 <= a < 256 -> 0 <= b < 256 -> 0 <= Z.lxor a b < 256.
Proof.
  intros Ha Hb. pose proof (check2 (fun a b => (0 <=? Z.lxor a b) && (Z.lxor a b <? 256)) ltac:(vm_compute; reflexivity) a b Ha Hb) as H.
  cbv beta in H. lia.
Qed.

Lemma tab_low i j : 0 <= i < 256 -> 0 <= j < 256 -> tab i mod 256 = tab j mod 256 -> i = j.
Proof.
  intros Hi Hj E. pose proof (check2 (fun i j => (i =? j) || negb (tab i mod 256 =? tab j mod 256)) ltac:(vm_compute; reflexivity) i j Hi Hj) as H.
  cbv beta in H. rewrite E, Z.eqb_refl, orb_false_r in H. lia.
Qed.

Lemma tab_bound i : 0 <= tab i < 2 ^ 24.
Proof. apply Z.mod_pos_bound. lia. Qed.

Lemma lxor_cancel a b c : Z.lxor a c = Z.lxor b c -> a = b.
Proof. intros H. apply (f_equal (fun x => Z.lxor x c)) in H. now rewrite !Z.lxor_assoc, Z.lxor_nilpotent, !Z.lxor_0_r in H. Qed.

(** The state and the byte read are determined by the next state and the other one. *)
Lemma crc_step_inj c c' d d' : 0 <= d < 256 -> 0 <= d' < 256 -> crc_step c d mod 2 ^ 24 = crc_step c' d' mod 2 ^ 24 ->
  (d = d' -> c mod 2 ^ 24 = c' mod 2 ^ 24) /\ (c mod 2 ^ 24 = c' mod 2 ^ 24 -> d = d').
Proof.
  intros Hd Hd' E. destruct (st_bytes c) as (c2 & c1 & c0 & H2 & H1 & H0 & Ec & _).
  destruct (st_bytes c') as (e2 & e1 & e0 & G2 & G1 & G0 & Ee & _).
  rewrite (crc_step_st c c2 c1 c0), (crc_step_st c' e2 e1 e0) in E by assumption.
  assert (I : Z.lxor d c2 = Z.lxor d' e2).
  { apply tab_low; [now apply lxor_byte|now apply lxor_byte|].
    apply (f_equal (fun x => x mod 2 ^ 8)) in E. rewrite !mod_lxor in E by lia.
    replace (st c1 c0 0 mod 2 ^ 8) with 0 in E by (unfold st; change (2 ^ 8) with 256; Z.to_euclidean_division_equations; lia).
    replace (st e1 e0 0 mod 2 ^ 8) with 0 in E by (unfold st; change (2 ^ 8) with 256; Z.to_euclidean_division_equations; lia).
    now rewrite !Z.lxor_0_l in E. }
  rewrite I in E. apply lxor_cancel in E. rewrite Ec, Ee. unfold st in *. split; intros H.
  - subst d'. rewrite !(Z.lxor_comm d) in I. apply lxor_cancel in I. lia.
  - assert (c2 = e2) by lia. subst e2. now apply lxor_cancel in I.
Qed.

Lemma crc_fold_inj l : rdigs 256 l -> forall c c', fold_left crc_step l c mod 2 ^ 24 = fold_left crc_step l c' mod 2 ^ 24 ->
  c mod 2 ^ 24 = c' mod 2 ^ 24.
Proof.
  induction 1 as [|d l Hd _ IH]; intros c c' E; [exact E|]. cbn [fold_left] in E. apply IH in E.
  now apply (crc_step_inj c c' d d Hd Hd E).
Qed.

Lemma crc24q_one_byte l1 d d' l2 : rdigs 256 l2 -> 0 <= d < 256 -> 0 <= d' < 256 ->
  crc24q (l1 ++ d :: l2) = crc24q (l1 ++ d' :: l2) -> d = d'.
Proof.
  intros H2 Hd Hd' E. rewrite !crc24q_spec, !fold_left_app in E. cbn [fold_left] in E. apply crc_fold_inj in E; [|exact H2].
  now apply (crc_step_inj _ _ d d' Hd Hd' E).
Qed.

(** ** Round trip *)

(** The characters of indexes below 32 are accepted and give the indexes back. *)
Lemma digit_alphabet i : 0 <= i < 32 -> digit_at (nth (Z.to_nat i) alphabet 0) = Ok i.
Proof.
  intros H. assert (Hi : In (Z.to_nat i) (seq 0 32)) by (apply in_seq; lia).
  assert (C : forallb (fun k => match digit_at (nth k alphabet 0) with Ok j => j =? Z.of_nat k | _ => false end) (seq 0 32) = true)
    by (vm_compute; reflexivity).
  rewrite forallb_forall in C. specialize (C _ Hi). cbv beta in C.
  destruct (digit_at _) as [j| | |]; try discriminate C. apply Z.eqb_eq in C. f_equal. lia.
Qed.

Lemma digits_alphabet l : Forall (fun i => 0 <= i < 32) l -> digits_at (map (fun i => nth (Z.to_nat i) alphabet 0) l) = Ok l.
Proof. induction 1 as [|i l Hi _ IH]; [reflexivity|]. cbn [map digits_at]. now rewrite digit_alphabet, IH by exact Hi. Qed.

Lemma land5 x y : 0 <= Z.lor (Z.land x 31) (Z.land y 31) < 32.
Proof.
  rewrite <- Z.land_lor_distr_l. change 31 with (Z.ones 5). rewrite Z.land_ones by lia. apply Z.mod_pos_bound. lia.
Qed.

Lemma encode_indexes_bound md5 : rdigs 256 md5 -> length md5 = 5%nat -> Forall (fun i => 0 <= i < 32) (encode_indexes md5).
Proof.
  destruct md5 as [|a [|b [|c [|d [|e [|]]]]]]; try discriminate. intros H _.
  repeat (apply Forall_cons_iff in H as [? H]).
  pose proof (check1 (fun b => (Z.land (Z.shiftr b 3) 31 <? 32) && (0 <=? Z.land (Z.shiftr b 3) 31) &&
    (Z.land (Z.shiftr b 1) 31 <? 32) && (0 <=? Z.land (Z.shiftr b 1) 31) && (Z.land (Z.shiftr b 2) 31 <? 32) &&
    (0 <=? Z.land (Z.shiftr b 2) 31) && (Z.land b 31 <? 32) && (0 <=? Z.land b 31)) ltac:(vm_compute; reflexivity)) as C1.
  pose proof (check2 (fun a b => let p x := (0 <=? x) && (x <? 32) in
    p (Z.lor (Z.land (Z.shiftl a 2) 28) (Z.land (Z.shiftr b 6) 3)) && p (Z.lor (Z.land (Z.shiftl a 4) 16) (Z.land (Z.shiftr b 4) 15)) &&
    p (Z.lor (Z.land (Z.shiftl a 1) 30) (Z.land (Z.shiftr b 7) 1)) && p (Z.lor (Z.land (Z.shiftl a 3) 24) (Z.land (Z.shiftr b 5) 7)))
    ltac:(vm_compute; reflexivity)) as C2.
  cbv beta zeta in C1, C2. unfold encode_indexes. cbn [nth].
  pose proof (C1 a). pose proof (C1 b). pose proof (C1 d). pose proof (C1 e).
  pose proof (C2 a b). pose proof (C2 b c). pose proof (C2 c d). pose proof (C2 d e).
  repeat constructor; lia.
Qed.

(** What each byte keeps of itself on the way through the indexes. *)
Lemma high_bits_back a b : 0 <= a < 256 -> 0 <= b < 256 ->
  Z.land (Z.shiftr (Z.lor (Z.land (Z.shiftl a 2) 28) (Z.land (Z.shiftr b 6) 3)) 2) 7 = Z.land a 7 /\
  Z.land (Z.shiftl (Z.lor (Z.land (Z.shiftl a 2) 28) (Z.land (Z.shiftr b 6) 3)) 6) 192 = Z.land b 192 /\
  Z.land (Z.shiftr (Z.lor (Z.land (Z.shiftl a 4) 16) (Z.land (Z.shiftr b 4) 15)) 4) 1 = Z.land a 1 /\
  Z.land (Z.shiftl (Z.lor (Z.land (Z.shiftl a 4) 16) (Z.land (Z.shiftr b 4) 15)) 4) 240 = Z.land b 240 /\
  Z.land (Z.shiftr (Z.lor (Z.land (Z.shiftl a 1) 30) (Z.land (Z.shiftr b 7) 1)) 1) 15 = Z.land a 15 /\
  Z.land (Z.shiftl (Z.lor (Z.land (Z.shiftl a 1) 30) (Z.land (Z.shiftr b 7) 1)) 7) 128 = Z.land b 128 /\
  Z.land (Z.shiftr (Z.lor (Z.land (Z.shiftl a 3) 24) (Z.land (Z.shiftr b 5) 7)) 3) 3 = Z.land a 3 /\
  Z.land (Z.shiftl (Z.lor (Z.land (Z.shiftl a 3) 24) (Z.land (Z.shiftr b 5) 7)) 5) 224 = Z.land b 224.
Proof.
  intros Ha Hb.
  pose proof (check2 (fun a b =>
    (Z.land (Z.shiftr (Z.lor (Z.land (Z.shiftl a 2) 28) (Z.land (Z.shiftr b 6) 3)) 2) 7 =? Z.land a 7) &&
    (Z.land (Z.shiftl (Z.lor (Z.land (Z.shiftl a 2) 28) (Z.land (Z.shiftr b 6) 3)) 6) 192 =? Z.land b 192) &&
    (Z.land (Z.shiftr (Z.lor (Z.land (Z.shiftl a 4) 16) (Z.land (Z.shiftr b 4) 15)) 4) 1 =? Z.land a 1) &&
    (Z.land (Z.shiftl (Z.lor (Z.land (Z.shiftl a 4) 16) (Z.land (Z.shiftr b 4) 15)) 4) 240 =? Z.land b 240) &&
    (Z.land (Z.shiftr (Z.lor (Z.land (Z.shiftl a 1) 30) (Z.land (Z.shiftr b 7) 1)) 1) 15 =? Z.land a 15) &&
    (Z.land (Z.shiftl (Z.lor (Z.land (Z.shiftl a 1) 30) (Z.land (Z.shiftr b 7) 1)) 7) 128 =? Z.land b 128) &&
    (Z.land (Z.shiftr (Z.lor (Z.land (Z.shiftl a 3) 24) (Z.land (Z.shiftr b 5) 7)) 3) 3 =? Z.land a 3) &&
    (Z.land (Z.shiftl (Z.lor (Z.land (Z.shiftl a 3) 24) (Z.land (Z.shiftr b 5) 7)) 5) 224 =? Z.land b 224))
    ltac:(vm_compute; reflexivity) a b Ha Hb) as H. cbv beta in H.
  repeat (apply andb_prop in H as [H ?]). repeat split; now apply Z.eqb_eq.
Qed.

Lemma bits_own b : 0 <= b < 256 ->
  Z.lor (Z.land (Z.shiftl (Z.land (Z.shiftr b 3) 31) 3) 248) (Z.land b 7) mod 256 = b /\
  Z.lor (Z.lor (Z.land b 192) (Z.land (Z.shiftl (Z.land (Z.shiftr b 1) 31) 1) 62)) (Z.land b 1) mod 256 = b /\
  Z.lor (Z.land b 240) (Z.land b 15) mod 256 = b /\
  Z.lor (Z.lor (Z.land b 128) (Z.land (Z.shiftl (Z.land (Z.shiftr b 2) 31) 2) 124)) (Z.land b 3) mod 256 = b /\
  Z.lor (Z.land b 224) (Z.land (Z.land b 31) 31) mod 256 = b.
Proof.
  intros Hb. pose proof (check1 (fun b =>
    (Z.lor (Z.land (Z.shiftl (Z.land (Z.shiftr b 3) 31) 3) 248) (Z.land b 7) mod 256 =? b) &&
    (Z.lor (Z.lor (Z.land b 192) (Z.land (Z.shiftl (Z.land (Z.shiftr b 1) 31) 1) 62)) (Z.land b 1) mod 256 =? b) &&
    (Z.lor (Z.land b 240) (Z.land b 15) mod 256 =? b) &&
    (Z.lor (Z.lor (Z.land b 128) (Z.land (Z.shiftl (Z.land (Z.shiftr b 2) 31) 2) 124)) (Z.land b 3) mod 256 =? b) &&
    (Z.lor (Z.land b 224) (Z.land (Z.land b 31) 31) mod 256 =? b)) ltac:(vm_compute; reflexivity) b Hb) as H. cbv beta in H.
  repeat (apply andb_prop in H as [H ?]). repeat split; now apply Z.eqb_eq.
Qed.

Lemma decode_encode md5 : rdigs 256 md5 -> length md5 = 5%nat -> decode_bytes (encode_indexes md5) = md5.
Proof.
  destruct md5 as [|a [|b [|c [|d [|e [|]]]]]]; try discriminate. intros H _.
  repeat (apply Forall_cons_iff in H as [? H]). unfold decode_bytes, encode_indexes. cbn [nth map].
  destruct (high_bits_back a b) as (A1 & A2 & _); auto. destruct (high_bits_back b c) as (_ & _ & B1 & B2 & _); auto.
  destruct (high_bits_back c d) as (_ & _ & _ & _ & C1 & C2 & _); auto. destruct (high_bits_back d e) as (_ & _ & _ & _ & _ & _ & D1 & D2); auto.
  rewrite A1, A2, B1, B2, C1, C2, D1, D2.
  destruct (bits_own a) as (-> & _); auto. destruct (bits_own b) as (_ & -> & _); auto. destruct (bits_own c) as (_ & _ & -> & _); auto.
  destruct (bits_own d) as (_ & _ & _ & -> & _); auto. destruct (bits_own e) as (_ & _ & _ & _ & ->); auto.
Qed.

Lemma decode5_ok md5 : rdigs 256 md5 -> length md5 = 5%nat -> Base32Decode5Bytes (Base32Encode5Bytes md5) = Ok (md5, true).
Proof.
  intros H HL. unfold Base32Decode5Bytes, Base32Encode5Bytes. rewrite digits_alphabet by now apply encode_indexes_bound.
  cbn [bind]. rewrite decode_encode by assumption. reflexivity.
Qed.

Lemma encode5_length md5 : length (Base32Encode5Bytes md5) = 8%nat.
Proof. reflexivity. Qed.

Lemma decode_groups_ok l : Forall (fun g => rdigs 256 g /\ length g = 5%nat) l ->
  decode_groups (length l) (flat_map Base32Encode5Bytes l) = Ok (Some (concat l)).
Proof.
  induction 1 as [|g l [Hg HL] _ IH]; [reflexivity|]. cbn [length decode_groups flat_map concat].
  rewrite firstn_app, skipn_app, encode5_length, Nat.sub_diag, firstn_O, skipn_O, app_nil_r.
  rewrite (firstn_all2 (n := 8) (Base32Encode5Bytes g)) by (rewrite encode5_length; lia).
  rewrite (skipn_all2 (n := 8) (Base32Encode5Bytes g)) by (rewrite encode5_length; lia).
  rewrite decode5_ok by assumption. cbn [bind app]. now rewrite IH.
Qed.

(** The seven groups of the encoding of 32 bytes. *)
Definition groups (md32 : list Z) : list (list Z) :=
  map (fun i => firstn 5 (skipn (5 * i) md32)) (seq 0 6) ++
  [[nth 30 md32 0; nth 31 md32 0; Z.shiftr (crc24q md32) 16 mod 256; Z.shiftr (crc24q md32) 8 mod 256; crc24q md32 mod 256]].

Lemma Base32Encode_groups md32 : Base32Encode md32 = flat_map Base32Encode5Bytes (groups md32).
Proof. reflexivity. Qed.

Lemma groups_ok md32 : rdigs 256 md32 -> length md32 = 32%nat ->
  Forall (fun g => rdigs 256 g /\ length g = 5%nat) (groups md32) /\
  concat (groups md32) =
    md32 ++ [Z.shiftr (crc24q md32) 16 mod 256; Z.shiftr (crc24q md32) 8 mod 256; crc24q md32 mod 256].
Proof.
  intros H HL. split.
  - apply Forall_app. split.
    + apply Forall_map, Forall_forall. intros i Hi. apply in_seq in Hi. split; [auto with radix|].
      rewrite length_firstn, length_skipn, HL. lia.
    + constructor; [|constructor]. split; [|reflexivity].
      repeat (apply Forall_cons; [first [apply rdigs_nth; [lia|exact H] | apply Z.mod_pos_bound; lia]|]). constructor.
  - do 32 (destruct md32 as [|? md32]; [discriminate HL|]). destruct md32; [|discriminate HL]. reflexivity.
Qed.

Lemma Base32_round_trip md32 : rdigs 256 md32 -> length md32 = 32%nat -> Base32Decode (Base32Encode md32) = Ok (Some md32).
Proof.
  intros H HL. destruct (groups_ok md32 H HL) as [HG HC]. unfold Base32Decode.
  assert (L56 : length (Base32Encode md32) = 56%nat) by reflexivity. rewrite L56. cbn [Nat.eqb negb].
  rewrite Base32Encode_groups. change 7%nat with (length (groups md32)). rewrite decode_groups_ok, HC by exact HG. cbn [bind].
  rewrite (crc24q_append md32). cbn [Z.eqb]. rewrite firstn_app, HL, Nat.sub_diag, firstn_O, app_nil_r.
  rewrite <- HL at 1. now rewrite firstn_all.
Qed.

(** The test of the characters: [sum] starts at zero and is only ever masked, so every
    group of characters below 128 is accepted. *)
Lemma land_fold l : fold_left Z.land l 0 = 0.
Proof. induction l as [|x l IH]; cbn [fold_left]; [reflexivity|]. now rewrite Z.land_0_l. Qed.

Lemma decode5_accepts psz md5 ok : Base32Decode5Bytes psz = Ok (md5, ok) -> ok = true.
Proof.
  unfold Base32Decode5Bytes. destruct (digits_at psz) as [idx| | |]; cbn [bind]; try discriminate.
  intros E. injection E as _ E. rewrite land_fold in E. now subst.
Qed.

(** A corrupted byte is refused by the checksum. *)
Lemma crc_refuses l1 d d' l2 : rdigs 256 l2 -> 0 <= d < 256 -> 0 <= d' < 256 -> d <> d' ->
  crc24q (l1 ++ d :: l2) = 0 -> crc24q (l1 ++ d' :: l2) <> 0.
Proof. intros H2 Hd Hd' N E E'. apply N, (crc24q_one_byte l1 d d' l2 H2 Hd Hd'). congruence. Qed.
