(* ===== verification/Bitmap.v ===== *)
(** * Bitmaps: hnbase/bitmap/bitmap.h and bitmap.cpp

    [CBitmap] records which of a number of nodes have signed; votes and aggregate
    signatures carry one.  [Undef] is an access beyond the bytes of the bitmap. *)

From Stdlib Require Import ZArith List Lia Bool.
From S2P Require Import Prelude Radix Stream.
Import ListNotations.
Local Open Scope Z_scope.

Record CBitmap := mk_bitmap { varBits : Z; btBitmap : list Z }.

Definition U32 : Z := 2 ^ 32.

(** The bytes that hold [nBits] bits. *)
Definition byte_count (nBits : Z) : Z := nBits / 8 + (if 0 <? nBits mod 8 then 1 else 0).

Definition Initialize (nBitsIn : Z) : CBitmap * bool :=
  if nBitsIn =? 0 then (mk_bitmap 0 [], false)
  else (mk_bitmap nBitsIn (repeat 0 (Z.to_nat (byte_count nBitsIn))), true).

Definition Clear : CBitmap := mk_bitmap 0 [].

(** The constructor with bytes: the bytes there are room for. *)
Definition bitmap_of_bytes (nBitsIn : Z) (btBitmapIn : list Z) : CBitmap :=
  let b := fst (Initialize nBitsIn) in
  let n := Nat.min (length (btBitmap b)) (length btBitmapIn) in
  mk_bitmap (varBits b) (firstn n btBitmapIn ++ skipn n (btBitmap b)).

(** The bit [0x01 << (nBitPos % 8)] of the byte [nBitPos / 8]. *)
Definition byte_pos (nBitPos : Z) : nat := Z.to_nat (nBitPos / 8).
Definition bit_mask (nBitPos : Z) : Z := Z.shiftl 1 (nBitPos mod 8).

Definition GetBit (b : CBitmap) (nBitPos : Z) : result bool :=
  if nBitPos <? varBits b then
    if (byte_pos nBitPos <? length (btBitmap b))%nat
    then Ok (negb (Z.land (nth (byte_pos nBitPos) (btBitmap b) 0) (bit_mask nBitPos) =? 0))
    else Undef
  else Ok false.

Definition SetBit (b : CBitmap) (nBitPos : Z) : result CBitmap :=
  if nBitPos <? varBits b then
    if (byte_pos nBitPos <? length (btBitmap b))%nat
    then Ok (mk_bitmap (varBits b)
               (upd (btBitmap b) (byte_pos nBitPos) (Z.lor (nth (byte_pos nBitPos) (btBitmap b) 0) (bit_mask nBitPos))))
    else Undef
  else Ok b.

Definition UnsetBit (b : CBitmap) (nBitPos : Z) : result CBitmap :=
  if nBitPos <? varBits b then
    if (byte_pos nBitPos <? length (btBitmap b))%nat
    then Ok (mk_bitmap (varBits b)
               (upd (btBitmap b) (byte_pos nBitPos) (Z.land (nth (byte_pos nBitPos) (btBitmap b) 0) (Z.lnot (bit_mask nBitPos)))))
    else Undef
  else Ok b.

Definition HasValidBit (b : CBitmap) : bool := existsb (fun x => negb (x =? 0)) (btBitmap b).

Definition bitmap_IsNull (b : CBitmap) : bool := (varBits b =? 0) || negb (HasValidBit b).

Definition GetMaxBits (b : CBitmap) : Z := varBits b mod U32.

(** for (j = 0; j < 8; j++) { if (b & 0x01) vIndexList.push_back(i * 8 + j); b >>= 1; } *)
Fixpoint byte_indexes (fuel : nat) (i : Z) (b : Z) : list Z :=
  match fuel with
  | O => []
  | S fuel' =>
      (if Z.land b 1 =? 0 then [] else [i]) ++ byte_indexes fuel' (i + 1) (Z.shiftr b 1)
  end.

Fixpoint index_list (i : Z) (l : list Z) : list Z :=
  match l with
  | [] => []
  | b :: l' => (if b =? 0 then [] else byte_indexes 8 (i * 8) b) ++ index_list (i + 1) l'
  end.

Definition GetIndexList (b : CBitmap) : list Z := index_list 0 (btBitmap b).

Definition GetValidBits (b : CBitmap) : Z := Z.of_nat (length (GetIndexList b)) mod U32.

(** [operator&=], [operator|=] and [operator^=]: the bytes both bitmaps have. *)
Fixpoint zip_bytes (f : Z -> Z -> Z) (a b : list Z) : list Z :=
  match a, b with
  | x :: a', y :: b' => f x y :: zip_bytes f a' b'
  | _, _ => a
  end.

Definition bitmap_and (a b : CBitmap) : CBitmap := mk_bitmap (varBits a) (zip_bytes Z.land (btBitmap a) (btBitmap b)).
Definition bitmap_or (a b : CBitmap) : CBitmap := mk_bitmap (varBits a) (zip_bytes Z.lor (btBitmap a) (btBitmap b)).
Definition bitmap_xor (a b : CBitmap) : CBitmap := mk_bitmap (varBits a) (zip_bytes Z.lxor (btBitmap a) (btBitmap b)).

Definition bitmap_eq (a b : CBitmap) : bool :=
  (varBits a =? varBits b) && (if list_eq_dec Z.eq_dec (btBitmap a) (btBitmap b) then true else false).

(** Serialize, and the conversions that go through it. *)
Definition bitmap_GetBytes (b : CBitmap) : list Z := varint_save (varBits b) ++ save (vector_pod 1) (btBitmap b).

(** ImportBytes: the bitmap afterwards, and whether the bytes were accepted; the vector
    is cleared before its own length is read. *)
Definition ImportBytes (b : CBitmap) (bt : list Z) : CBitmap * bool :=
  match varint_load bt with
  | None => (b, false)
  | Some (n, s) =>
      match vector_pod_load 1 s with
      | None => (mk_bitmap n [], false)
      | Some (v, _) => (mk_bitmap n v, true)
      end
  end.

(** ** The invariant of a bitmap made by [Initialize] *)

(** A bit of the bytes. *)
Definition bit (l : list Z) (i : Z) : bool := Z.testbit (nth (byte_pos i) l 0) (i mod 8).

Record bitmap_ok (b : CBitmap) : Prop := {
  bo_bits : 0 <= varBits b < U32;
  bo_bytes : rdigs 256 (btBitmap b);
  bo_length : length (btBitmap b) = Z.to_nat (byte_count (varBits b));
  bo_clean : forall i, varBits b <= i -> bit (btBitmap b) i = false
}.

Lemma byte_count_bound n i : 0 <= i < n -> (byte_pos i < Z.to_nat (byte_count n))%nat.
Proof.
  intros H. unfold byte_pos, byte_count. apply Z2Nat.inj_lt; [apply Z.div_pos; lia|destruct (0 <? n mod 8); Z.to_euclidean_division_equations; lia|].
  destruct (Z.ltb_spec 0 (n mod 8)); Z.to_euclidean_division_equations; lia.
Qed.

Lemma land_bit_mask x k : 0 <= k -> negb (Z.land x (Z.shiftl 1 k) =? 0) = Z.testbit x k.
Proof.
  intros Hk. rewrite Z.shiftl_mul_pow2, Z.mul_1_l by exact Hk.
  destruct (Z.testbit x k) eqn:E.
  - destruct (Z.eqb_spec (Z.land x (2 ^ k)) 0) as [E0|]; [|reflexivity].
    apply (f_equal (fun z => Z.testbit z k)) in E0. rewrite Z.land_spec, Z.pow2_bits_true, E, Z.bits_0 in E0 by exact Hk. discriminate.
  - destruct (Z.eqb_spec (Z.land x (2 ^ k)) 0) as [|N]; [reflexivity|]. exfalso. apply N. apply Z.bits_inj'. intros n Hn.
    rewrite Z.land_spec, Z.bits_0. destruct (Z.eq_dec n k) as [->|Nk]; [now rewrite E|].
    rewrite Z.pow2_bits_false by auto. apply andb_false_r.
Qed.

Lemma mod8 i : 0 <= i mod 8 < 8.
Proof. apply Z.mod_pos_bound. lia. Qed.

Lemma GetBit_ok b i : bitmap_ok b -> 0 <= i -> GetBit b i = Ok (bit (btBitmap b) i).
Proof.
  intros [H1 H2 H3 H4] Hi. unfold GetBit. destruct (Z.ltb_spec i (varBits b)) as [L|L]; [|now rewrite H4].
  rewrite (proj2 (Nat.ltb_lt _ _)) by (rewrite H3; apply byte_count_bound; lia).
  unfold bit_mask, bit. now rewrite land_bit_mask by apply mod8.
Qed.

Lemma same_bit i j : 0 <= i -> 0 <= j -> (i = j <-> byte_pos i = byte_pos j /\ i mod 8 = j mod 8).
Proof.
  intros Hi Hj. split; [now intros ->|]. unfold byte_pos. intros [E M].
  apply Z2Nat.inj in E; [|apply Z.div_pos; lia|apply Z.div_pos; lia].
  rewrite (Z.div_mod i 8), (Z.div_mod j 8) by lia. congruence.
Qed.

(** A byte of the bitmap replaced by one with one bit changed. *)
Lemma bit_upd l i x j : (byte_pos i < length l)%nat -> 0 <= i -> 0 <= j ->
  (forall k, 0 <= k -> k <> i mod 8 -> Z.testbit x k = Z.testbit (nth (byte_pos i) l 0) k) ->
  bit (upd l (byte_pos i) x) j = if i =? j then Z.testbit x (i mod 8) else bit l j.
Proof.
  intros HL Hi Hj Hx. unfold bit. destruct (Z.eqb_spec i j) as [<-|N].
  - now rewrite nth_upd_eq.
  - destruct (Nat.eq_dec (byte_pos i) (byte_pos j)) as [E|E].
    + rewrite <- E, nth_upd_eq by exact HL. apply Hx; [apply mod8|]. intros M. apply N. apply same_bit; auto.
    + now rewrite nth_upd_neq.
Qed.

Lemma testbit_byte x k : 0 <= x < 256 -> 8 <= k -> Z.testbit x k = false.
Proof.
  intros Hx Hk. destruct (Z.eq_dec x 0) as [->|]; [apply Z.bits_0|]. apply Z.bits_above_log2; [lia|].
  apply Z.log2_lt_pow2; [lia|]. pose proof (Z.pow_le_mono_r 2 8 k). lia.
Qed.

Lemma byte_of_bits x : 0 <= x -> (forall k, 8 <= k -> Z.testbit x k = false) -> 0 <= x < 256.
Proof.
  intros Hx H. split; [exact Hx|]. destruct (Z.eq_dec x 0) as [->|N]; [lia|].
  change 256 with (2 ^ 8). apply Z.log2_lt_pow2; [lia|]. destruct (Z.lt_ge_cases (Z.log2 x) 8) as [|G]; [assumption|].
  specialize (H _ G). rewrite Z.bit_log2 in H by lia. discriminate.
Qed.

Lemma SetBit_ok b i : bitmap_ok b -> 0 <= i < varBits b -> returns (SetBit b i) (fun b' =>
  bitmap_ok b' /\ varBits b' = varBits b /\ forall j, 0 <= j -> bit (btBitmap b') j = (i =? j) || bit (btBitmap b) j).
Proof.
  intros [H1 H2 H3 H4] Hi. unfold SetBit. rewrite (proj2 (Z.ltb_lt _ _)) by lia.
  assert (HL : (byte_pos i < length (btBitmap b))%nat) by (rewrite H3; apply byte_count_bound; lia).
  rewrite (proj2 (Nat.ltb_lt _ _) HL). cbn [returns]. pose proof (mod8 i) as M8.
  set (x := Z.lor (nth (byte_pos i) (btBitmap b) 0) (bit_mask i)).
  assert (Hx : forall k, 0 <= k -> Z.testbit x k = Z.testbit (nth (byte_pos i) (btBitmap b) 0) k || (i mod 8 =? k)).
  { intros k Hk. unfold x, bit_mask. rewrite Z.lor_spec, Z.shiftl_mul_pow2, Z.mul_1_l, Z.pow2_bits_eqb by lia. reflexivity. }
  pose proof (rdigs_nth 256 (btBitmap b) (byte_pos i) ltac:(lia) H2) as Hb.
  assert (Hbit : forall j, 0 <= j -> bit (upd (btBitmap b) (byte_pos i) x) j = (i =? j) || bit (btBitmap b) j).
  { intros j Hj. rewrite bit_upd; [|exact HL|lia|exact Hj|].
    - destruct (i =? j); [|reflexivity]. rewrite Hx, Z.eqb_refl by lia. apply orb_true_r.
    - intros k Hk N. rewrite Hx by lia. destruct (Z.eqb_spec (i mod 8) k); [lia|apply orb_false_r]. }
  repeat split; cbn [varBits btBitmap]; auto; try lia.
  - apply rdigs_upd; [exact H2|]. apply byte_of_bits.
    + apply Z.lor_nonneg. split; [lia|]. apply Z.shiftl_nonneg. lia.
    + intros k Hk. rewrite Hx, testbit_byte by lia. apply Z.eqb_neq. lia.
  - now rewrite length_upd.
  - intros j Hj. rewrite Hbit, H4 by lia. destruct (Z.eqb_spec i j); [lia|reflexivity].
Qed.

Lemma Initialize_ok n : 0 <= n < U32 -> let '(b, ok) := Initialize n in
  bitmap_ok b /\ ok = negb (n =? 0) /\ varBits b = n /\ forall i, bit (btBitmap b) i = false.
Proof.
  intros Hn. assert (Z0 : forall k i, bit (repeat 0 k) i = false).
  { intros k i. unfold bit. rewrite nth_repeat. apply Z.bits_0. }
  unfold Initialize. destruct (Z.eqb_spec n 0) as [->|N]; cbn [negb].
  - repeat split; cbn; try lia; try constructor; intros; apply (Z0 0%nat).
  - repeat split; cbn [varBits btBitmap]; auto; try lia.
    + apply rdigs_repeat0. lia.
    + apply repeat_length.
Qed.

Lemma UnsetBit_ok b i : bitmap_ok b -> 0 <= i < varBits b -> returns (UnsetBit b i) (fun b' =>
  bitmap_ok b' /\ varBits b' = varBits b /\ forall j, 0 <= j -> bit (btBitmap b') j = negb (i =? j) && bit (btBitmap b) j).
Proof.
  intros [H1 H2 H3 H4] Hi. unfold UnsetBit. rewrite (proj2 (Z.ltb_lt _ _)) by lia.
  assert (HL : (byte_pos i < length (btBitmap b))%nat) by (rewrite H3; apply byte_count_bound; lia).
  rewrite (proj2 (Nat.ltb_lt _ _) HL). cbn [returns]. pose proof (mod8 i) as M8.
  set (x := Z.land (nth (byte_pos i) (btBitmap b) 0) (Z.lnot (bit_mask i))).
  assert (Hx : forall k, 0 <= k -> Z.testbit x k = Z.testbit (nth (byte_pos i) (btBitmap b) 0) k && negb (i mod 8 =? k)).
  { intros k Hk. unfold x, bit_mask. rewrite Z.land_spec, Z.lnot_spec, Z.shiftl_mul_pow2, Z.mul_1_l, Z.pow2_bits_eqb by lia. reflexivity. }
  pose proof (rdigs_nth 256 (btBitmap b) (byte_pos i) ltac:(lia) H2) as Hb.
  assert (Hbit : forall j, 0 <= j -> bit (upd (btBitmap b) (byte_pos i) x) j = negb (i =? j) && bit (btBitmap b) j).
  { intros j Hj. rewrite bit_upd; [|exact HL|lia|exact Hj|].
    - destruct (i =? j); [|reflexivity]. rewrite Hx, Z.eqb_refl by lia. apply andb_false_r.
    - intros k Hk N. rewrite Hx by lia. destruct (Z.eqb_spec (i mod 8) k); [lia|apply andb_true_r]. }
  repeat split; cbn [varBits btBitmap]; auto; try lia.
  - apply rdigs_upd; [exact H2|]. apply byte_of_bits.
    + apply Z.land_nonneg. left. lia.
    + intros k Hk. rewrite Hx, testbit_byte by lia. reflexivity.
  - now rewrite length_upd.
  - intros j Hj. rewrite Hbit, H4 by lia. apply andb_false_r.
Qed.

(** ** The list of set bits *)

Lemma land_1 b : (Z.land b 1 =? 0) = negb (Z.testbit b 0).
Proof. pose proof (land_bit_mask b 0 ltac:(lia)) as H. change (Z.shiftl 1 0) with 1 in H. rewrite <- H. now destruct (_ =? 0). Qed.

Lemma in_byte_indexes fuel : forall i b j, In j (byte_indexes fuel i b) <->
  i <= j < i + Z.of_nat fuel /\ Z.testbit b (j - i) = true.
Proof.
  induction fuel as [|fuel IH]; intros i b j; cbn [byte_indexes]; [cbn; lia|].
  rewrite in_app_iff, IH, land_1.
  assert (Hd : In j (if negb (Z.testbit b 0) then [] else [i]) <-> j = i /\ Z.testbit b 0 = true).
  { destruct (Z.testbit b 0); cbn; intuition congruence. }
  rewrite Hd. destruct (Z.lt_trichotomy j i) as [L|[->|G]].
  - lia.
  - rewrite Z.sub_diag. intuition lia.
  - rewrite Z.shiftr_spec by lia. replace (j - (i + 1) + 1) with (j - i) by lia. intuition lia.
Qed.

Lemma byte_indexes_sorted fuel : forall i b, NoDup (byte_indexes fuel i b).
Proof.
  induction fuel as [|fuel IH]; intros i b; cbn [byte_indexes]; [constructor|].
  destruct (Z.land b 1 =? 0); cbn [app]; [apply IH|]. constructor; [|apply IH]. rewrite in_byte_indexes. lia.
Qed.

Lemma bit_cons b l i : 0 <= i -> bit (b :: l) (i + 8) = bit l i /\ (i < 8 -> bit (b :: l) i = Z.testbit b i).
Proof.
  intros Hi. unfold bit, byte_pos. split.
  - replace ((i + 8) / 8) with (i / 8 + 1) by (Z.to_euclidean_division_equations; lia).
    replace ((i + 8) mod 8) with (i mod 8) by (Z.to_euclidean_division_equations; lia).
    rewrite Z2Nat.inj_add by (try lia; apply Z.div_pos; lia). change (Z.to_nat 1) with 1%nat. rewrite Nat.add_comm. reflexivity.
  - intros H. now rewrite Z.div_small, Z.mod_small by lia.
Qed.

Lemma in_index_list l : forall i j, In j (index_list i l) <->
  i * 8 <= j < (i + Z.of_nat (length l)) * 8 /\ bit l (j - i * 8) = true.
Proof.
  induction l as [|b l IH]; intros i j; cbn [index_list length]; [cbn; lia|].
  assert (Hd : In j (if b =? 0 then [] else byte_indexes 8 (i * 8) b) <-> i * 8 <= j < i * 8 + 8 /\ Z.testbit b (j - i * 8) = true).
  { destruct (Z.eqb_spec b 0) as [->|]; [|apply in_byte_indexes]. rewrite Z.bits_0. cbn. intuition discriminate. }
  rewrite in_app_iff, IH, Hd. destruct (Z.lt_ge_cases j (i * 8 + 8)) as [L|G].
  - destruct (Z.lt_ge_cases j (i * 8)); [lia|]. rewrite (proj2 (bit_cons b l (j - i * 8) ltac:(lia))) by lia. intuition lia.
  - replace (j - i * 8) with (j - (i + 1) * 8 + 8) by lia. rewrite (proj1 (bit_cons b l (j - (i + 1) * 8) ltac:(lia))). intuition lia.
Qed.

Lemma NoDup_app_disjoint (l1 l2 : list Z) : NoDup l1 -> NoDup l2 -> (forall x, In x l1 -> ~ In x l2) -> NoDup (l1 ++ l2).
Proof.
  induction 1 as [|x l1 Hx H1 IH]; intros H2 Hd; cbn [app]; [exact H2|]. constructor.
  - rewrite in_app_iff. intros [H|H]; [auto|]. apply (Hd x); [now left|exact H].
  - apply IH; [exact H2|]. intros y Hy. apply Hd. now right.
Qed.

Lemma index_list_NoDup l : forall i, NoDup (index_list i l).
Proof.
  induction l as [|b l IH]; intros i; cbn [index_list]; [constructor|].
  apply NoDup_app_disjoint; [|apply IH|].
  - destruct (b =? 0); [constructor|apply byte_indexes_sorted].
  - intros x Hx H. apply in_index_list in H. destruct (b =? 0); [contradiction|]. apply in_byte_indexes in Hx. lia.
Qed.

(** The list of indexes of a bitmap: the set bits, each once. *)
Lemma GetIndexList_ok b : bitmap_ok b -> NoDup (GetIndexList b) /\
  forall i, In i (GetIndexList b) <-> 0 <= i < varBits b /\ GetBit b i = Ok true.
Proof.
  intros H. split; [apply index_list_NoDup|]. intros i. unfold GetIndexList. rewrite in_index_list, Z.mul_0_l, Z.sub_0_r, Z.add_0_l.
  destruct H as [H1 H2 H3 H4] eqn:EH. split.
  - intros [B T]. destruct (Z.lt_ge_cases i (varBits b)) as [L|G]; [|rewrite H4 in T by exact G; discriminate].
    split; [lia|]. rewrite GetBit_ok by (exact H || lia). now rewrite T.
  - intros [B T]. rewrite GetBit_ok in T by (exact H || lia). injection T as T. split; [|exact T]. split; [lia|].
    pose proof (byte_count_bound (varBits b) i B) as BC. rewrite <- H3 in BC. unfold byte_pos in BC.
    assert (i / 8 < Z.of_nat (length (btBitmap b))) by (pose proof (Z.div_pos i 8); lia).
    Z.to_euclidean_division_equations. lia.
Qed.

(** ** A bitmap as the set of its indexes *)

Lemma in_indexes b i : bitmap_ok b -> In i (GetIndexList b) <-> 0 <= i < varBits b /\ bit (btBitmap b) i = true.
Proof.
  intros H. rewrite (proj2 (GetIndexList_ok b H)). split; intros [B T]; (split; [exact B|]).
  - rewrite GetBit_ok in T by (exact H || lia). congruence.
  - rewrite GetBit_ok by (exact H || lia). congruence.
Qed.

Lemma Initialize_empty n : 0 <= n < U32 -> bitmap_ok (fst (Initialize n)) /\ GetIndexList (fst (Initialize n)) = [].
Proof.
  intros Hn. pose proof (Initialize_ok n Hn) as H. destruct (Initialize n) as [b ok]. cbn [fst]. destruct H as (H & _ & _ & Z0).
  split; [exact H|]. destruct (GetIndexList b) as [|i l] eqn:E; [reflexivity|].
  assert (I : In i (GetIndexList b)) by (rewrite E; now left). apply in_indexes in I; [|exact H]. rewrite Z0 in I. easy.
Qed.

Lemma SetBit_list b i : bitmap_ok b -> 0 <= i < varBits b -> returns (SetBit b i) (fun b' => bitmap_ok b' /\ varBits b' = varBits b /\
  forall j, In j (GetIndexList b') <-> j = i \/ In j (GetIndexList b)).
Proof.
  intros H Hi. eapply returns_mono; [now apply SetBit_ok|]. intros b' (H' & V & E). split; [exact H'|]. split; [exact V|].
  intros j. rewrite !in_indexes, V by assumption. destruct (Z.lt_ge_cases j 0) as [L|L]; [lia|].
  rewrite E, orb_true_iff, Z.eqb_eq by exact L. intuition lia.
Qed.

Lemma UnsetBit_list b i : bitmap_ok b -> 0 <= i < varBits b -> returns (UnsetBit b i) (fun b' => bitmap_ok b' /\ varBits b' = varBits b /\
  forall j, In j (GetIndexList b') <-> j <> i /\ In j (GetIndexList b)).
Proof.
  intros H Hi. eapply returns_mono; [now apply UnsetBit_ok|]. intros b' (H' & V & E). split; [exact H'|]. split; [exact V|].
  intros j. rewrite !in_indexes, V by assumption. destruct (Z.lt_ge_cases j 0) as [L|L]; [lia|].
  rewrite E, andb_true_iff, negb_true_iff, Z.eqb_neq by exact L. intuition lia.
Qed.

Lemma GetBit_list b j : bitmap_ok b -> 0 <= j -> GetBit b j = Ok (existsb (Z.eqb j) (GetIndexList b)).
Proof.
  intros H Hj. rewrite GetBit_ok by assumption. f_equal. apply eq_true_iff_eq. rewrite existsb_exists. split.
  - intros T. exists j. split; [|apply Z.eqb_refl]. apply in_indexes; [exact H|]. split; [|exact T]. split; [exact Hj|].
    destruct (Z.lt_ge_cases j (varBits b)) as [|G]; [assumption|]. rewrite (bo_clean b H j G) in T. discriminate.
  - intros (i & I & E). apply Z.eqb_eq in E as <-. now apply in_indexes in I.
Qed.

(** The invariant of a given bitmap: the bits of the last bytes are examined. *)
Lemma bitmap_ok_check b : 0 <= varBits b < U32 -> rdigs 256 (btBitmap b) ->
  Nat.eqb (length (btBitmap b)) (Z.to_nat (byte_count (varBits b))) = true ->
  forallb (fun i => (i <? varBits b) || negb (bit (btBitmap b) i)) (map Z.of_nat (seq 0 (8 * length (btBitmap b)))) = true -> bitmap_ok b.
Proof.
  intros H1 H2 H3 H4. split; auto; [now apply Nat.eqb_eq|]. intros i Hi.
  destruct (Nat.lt_ge_cases (byte_pos i) (length (btBitmap b))) as [L|L].
  - rewrite forallb_forall in H4. specialize (H4 i). rewrite (proj2 (Z.ltb_ge _ _) Hi) in H4. apply negb_true_iff, H4.
    apply in_map_iff. exists (Z.to_nat i). split; [lia|]. apply in_seq. unfold byte_pos in L.
    assert (i / 8 < Z.of_nat (length (btBitmap b))) by (pose proof (Z.div_pos i 8); lia). Z.to_euclidean_division_equations. lia.
  - unfold bit. rewrite nth_overflow by exact L. apply Z.bits_0.
Qed.

(** ** Bytes *)

Lemma bitmap_bytes_round_trip b b' : bitmap_ok b -> ImportBytes b' (bitmap_GetBytes b) = (b, true).
Proof.
  intros [H1 H2 H3 H4]. unfold ImportBytes, bitmap_GetBytes.
  assert (V : 0 <= varBits b < U64) by (unfold U32, U64 in *; lia).
  rewrite varint_load_save by exact V. pose proof (load_save (c := vector_pod 1) (btBitmap b) []) as L. rewrite app_nil_r in L.
  cbn [load vector_pod] in L. rewrite L; [destruct b; reflexivity|]. split; [exact H2|].
  rewrite H3, Z.mul_1_l, Z2Nat.id; unfold byte_count, PTRDIFF_MAX, U32 in *; destruct (0 <? varBits b mod 8);
    Z.to_euclidean_division_equations; lia.
Qed.

(** A bitmap read from bytes may announce more bits than it has bytes: reading one of
    them goes beyond the vector. *)
Lemma imported_bitmap_out_of_bounds b : exists bt b',
  ImportBytes b bt = (b', true) /\ GetBit b' 0 = Undef /\ SetBit b' 0 = Undef.
Proof. exists [8; 247], (mk_bitmap 8 []). repeat split. Qed.
