(* ===== verification/Vote.v ===== *)
(** * Votes on a block: consensus/consblockvote.h, consblockvote.cpp and conscommon.h

    [CConsBlock] collects the signatures of the candidate nodes for one block: a map from
    public keys to the position of the node, the signatures received, and a bitmap of the
    nodes that have signed.  The clock is an argument of the operations that read it. *)

From Stdlib Require Import ZArith List Lia Bool.
From stdpp Require Import base gmap list.
From S2P Require Import Prelude Radix Stream Bitmap.
Import ListNotations.
Local Open Scope Z_scope.

(** ** CNetNode *)

Record CNetNode := mk_net_node { fSubscribe : bool; nPeerVersion : Z; nPrevBitmapReqTime : Z }.

Definition net_node_new : CNetNode := mk_net_node false 0 0.
Definition Subscribe (n : CNetNode) : CNetNode := mk_net_node true (nPeerVersion n) (nPrevBitmapReqTime n).
Definition SetPeerVersion (n : CNetNode) (v : Z) : CNetNode := mk_net_node (fSubscribe n) v (nPrevBitmapReqTime n).
Definition SetPrevBitmapReqTime (n : CNetNode) (now : Z) : CNetNode := mk_net_node (fSubscribe n) (nPeerVersion n) now.

(** The two readings of the clock. *)
Definition CheckPrevBitmapReqTime (n : CNetNode) (nTimeLen now now' : Z) : CNetNode * bool :=
  if fSubscribe n && (nTimeLen <=? now - nPrevBitmapReqTime n) then (SetPrevBitmapReqTime n now', true) else (n, false).

(** ** CNodePubkey *)

Inductive E_STATUS := ES_INIT | ES_WAITING | ES_COMPLETED.

Record CNodePubkey := mk_node { nIndex : Z; pubkey : Z; eStatus : E_STATUS; tmStatusTime : Z }.

Definition node_new (nIndexIn pubkeyIn now : Z) : CNodePubkey := mk_node nIndexIn pubkeyIn ES_INIT now.
Definition InitStatus (n : CNodePubkey) (now : Z) : CNodePubkey := mk_node (nIndex n) (pubkey n) ES_INIT now.
Definition SetStatus (n : CNodePubkey) (eStatusIn : E_STATUS) (now : Z) : CNodePubkey := mk_node (nIndex n) (pubkey n) eStatusIn now.
Definition CheckStatus (n : CNodePubkey) (now : Z) : CNodePubkey :=
  match eStatus n with
  | ES_WAITING => if 100 <=? now - tmStatusTime n then InitStatus n now else n
  | _ => n
  end.

(** ** CConsBlock *)

Record CConsBlock := mk_cons_block {
  hashBlock : Z; nBlockEpoch : Z; nVoteBeginTime : Z; nBeginTimeMillis : Z; nAddTime : Z;
  mapCandidateNodeIndex : gmap Z Z;
  vPreVoteCandidateNodePubkey : list CNodePubkey;
  vCommitVoteCandidateNodePubkey : list CNodePubkey;
  mapPreVoteSig : gmap Z (list Z);
  mapCommitVoteSig : gmap Z (list Z);
  bmBlockPreVoteBitmap : CBitmap;
  bmBlockCommitVoteBitmap : CBitmap
}.

Definition cons_block_new (hash epoch begin now add : Z) : CConsBlock :=
  mk_cons_block hash epoch begin now add ∅ [] [] ∅ ∅ Clear Clear.

Definition set_candidates (b : CConsBlock) index nodes bitmap : CConsBlock :=
  mk_cons_block (hashBlock b) (nBlockEpoch b) (nVoteBeginTime b) (nBeginTimeMillis b) (nAddTime b) index nodes nodes (mapPreVoteSig b) (mapCommitVoteSig b)
    bitmap bitmap.

(** The loop over the candidates; [None] for a key that occurs twice. *)
Fixpoint add_nodes (now i : Z) (keys : list Z) (index : gmap Z Z) (nodes : list CNodePubkey)
    : option (gmap Z Z * list CNodePubkey) :=
  match keys with
  | [] => Some (index, nodes)
  | k :: keys' =>
      match index !! k with
      | Some _ => None
      | None => add_nodes now (i + 1) keys' (<[k := i]> index) (nodes ++ [node_new i k now])
      end
  end.

(** The number of candidates is narrowed to 32 bits. *)
Definition SetCandidateNodeList (b : CConsBlock) (keys : list Z) (now : Z) : CConsBlock * bool :=
  match keys with
  | [] => (b, false)
  | _ =>
      let n := Z.of_nat (length keys) mod U32 in
      match add_nodes now 0 (firstn (Z.to_nat n) keys) ∅ [] with
      | None => (set_candidates b ∅ [] Clear, false)
      | Some (index, nodes) => (set_candidates b index nodes (fst (Initialize n)), true)
      end
  end.

Definition IsExistCandidateNodePubkey (b : CConsBlock) (k : Z) : bool := bool_decide (is_Some (mapCandidateNodeIndex b !! k)).
Definition ExistPreVoteSign (b : CConsBlock) (k : Z) : bool := bool_decide (is_Some (mapPreVoteSig b !! k)).
Definition ExistCommitVoteSign (b : CConsBlock) (k : Z) : bool := bool_decide (is_Some (mapCommitVoteSig b !! k)).

(** AddPreVoteSign, which always returns true. *)
Definition AddPreVoteSign (b : CConsBlock) (k : Z) (btSig : list Z) (now : Z) : result CConsBlock :=
  match mapPreVoteSig b !! k with
  | Some _ => Ok b
  | None =>
      match mapCandidateNodeIndex b !! k with
      | Some i =>
          if i <? Z.of_nat (length (vPreVoteCandidateNodePubkey b)) then
            let! bm := SetBit (bmBlockPreVoteBitmap b) i in
            Ok (mk_cons_block (hashBlock b) (nBlockEpoch b) (nVoteBeginTime b) (nBeginTimeMillis b) (nAddTime b) (mapCandidateNodeIndex b)
                  (alter (fun n => SetStatus n ES_COMPLETED now) (Z.to_nat i) (vPreVoteCandidateNodePubkey b))
                  (vCommitVoteCandidateNodePubkey b) (<[k := btSig]> (mapPreVoteSig b)) (mapCommitVoteSig b)
                  bm (bmBlockCommitVoteBitmap b))
          else Ok b
      | None => Ok b
      end
  end.

(** ** CElectionVoteMaxRandom *)

Record CElectionVoteMaxRandom := mk_random {
  hashRandom : Z; btHashBitmap : list Z; btHashAggSig : list Z; btVoteBitmap : list Z; btVoteAggSig : list Z
}.

Definition random_SetNull : CElectionVoteMaxRandom := mk_random 0 [] [] [] [].
Definition SetRandomData (h : Z) (hb hs vb vs : list Z) : CElectionVoteMaxRandom := mk_random h hb hs vb vs.
Definition GetHashSignCount (r : CElectionVoteMaxRandom) : Z :=
  if hashRandom r =? 0 then 0 else GetValidBits (fst (ImportBytes Clear (btHashBitmap r))).

(** ** CConsBlockVote *)

Definition AddConsKey (mapConsKey : gmap Z (Z * Z)) (prikey pubkey : Z) : gmap Z (Z * Z) :=
  match mapConsKey !! prikey with Some _ => mapConsKey | None => <[prikey := (prikey, pubkey)]> mapConsKey end.

(** ** The invariant of a vote

    [keys] are the candidates in the order of their positions. *)
Record vote_ok (keys : list Z) (b : CConsBlock) : Prop := {
  vo_index : forall k i, mapCandidateNodeIndex b !! k = Some i <-> 0 <= i /\ keys !! Z.to_nat i = Some k;
  vo_nodes : length (vPreVoteCandidateNodePubkey b) = length keys;
  vo_bitmap : bitmap_ok (bmBlockPreVoteBitmap b);
  vo_bits : varBits (bmBlockPreVoteBitmap b) = Z.of_nat (length keys);
  vo_signers : forall k, is_Some (mapPreVoteSig b !! k) -> k ∈ keys;
  vo_signed : forall i k, keys !! i = Some k ->
    bit (btBitmap (bmBlockPreVoteBitmap b)) (Z.of_nat i) = true <-> is_Some (mapPreVoteSig b !! k);
  vo_status : forall i k n, keys !! i = Some k -> vPreVoteCandidateNodePubkey b !! i = Some n ->
    pubkey n = k /\ nIndex n = Z.of_nat i /\ (is_Some (mapPreVoteSig b !! k) -> eStatus n = ES_COMPLETED)
}.

(** The index and the nodes built from a list without repetition. *)
Lemma add_nodes_ok now keys : forall done index nodes, NoDup (done ++ keys) ->
  (forall k i, index !! k = Some i <-> 0 <= i /\ done !! Z.to_nat i = Some k) ->
  nodes = imap (fun i k => node_new (Z.of_nat i) k now) done ->
  exists index', add_nodes now (Z.of_nat (length done)) keys index nodes =
    Some (index', imap (fun i k => node_new (Z.of_nat i) k now) (done ++ keys)) /\
    forall k i, index' !! k = Some i <-> 0 <= i /\ (done ++ keys) !! Z.to_nat i = Some k.
Proof.
  induction keys as [|k keys IH]; intros done index nodes ND HI ->; cbn [add_nodes].
  { rewrite app_nil_r. eauto. }
  destruct (index !! k) as [i|] eqn:E.
  { apply HI in E as [_ E]. apply NoDup_app in ND as (_ & ND & _). exfalso. apply (ND k); [eapply list_elem_of_lookup_2; exact E|apply list_elem_of_here]. }
  destruct (IH (done ++ [k]) (<[k := Z.of_nat (length done)]> index)
              (imap (fun i k => node_new (Z.of_nat i) k now) done ++ [node_new (Z.of_nat (length done)) k now])) as (index' & E' & HI').
  - now rewrite <- app_assoc.
  - intros k' i. destruct (decide (k' = k)) as [->|N].
    + rewrite lookup_insert_eq. split.
      * intros [= <-]. split; [lia|]. rewrite Nat2Z.id, lookup_app_r by lia. now rewrite Nat.sub_diag.
      * intros [Hi E1]. f_equal. apply lookup_app_Some in E1 as [E1|[L E1]]; [|apply list_lookup_singleton_Some in E1 as [E1 _]; lia].
        assert (index !! k = Some i) by (apply HI; auto). congruence.
    + rewrite lookup_insert_ne by done. rewrite HI. split; intros [Hi E1]; (split; [exact Hi|]).
      * now apply lookup_app_l_Some.
      * apply lookup_app_Some in E1 as [E1|[L E1]]; [exact E1|]. apply list_lookup_singleton_Some in E1 as [_ E1]. congruence.
  - rewrite imap_app. f_equal. cbn. now rewrite Nat.add_0_r.
  - exists index'. rewrite <- app_assoc in E', HI'. rewrite length_app, Nat2Z.inj_add in E'. auto.
Qed.

Lemma add_nodes_dup now keys : forall i index nodes, ~ NoDup keys \/ (exists k, k ∈ keys /\ is_Some (index !! k)) ->
  add_nodes now i keys index nodes = None.
Proof.
  induction keys as [|k keys IH]; intros i index nodes H; cbn [add_nodes].
  { destruct H as [H|(k & H & _)]; [destruct H; constructor|inversion H]. }
  destruct (index !! k) eqn:E; [reflexivity|]. apply IH.
  destruct H as [H|(k' & Hin & Hs)].
  - destruct (decide (k ∈ keys)) as [Hin|Hn]; [right; exists k; rewrite lookup_insert_eq; eauto|].
    left. intros ND. apply H. now constructor.
  - apply elem_of_cons in Hin as [->|Hin]; [rewrite E in Hs; now destruct Hs|].
    right. exists k'. split; [exact Hin|]. destruct (decide (k' = k)) as [->|N]; [rewrite lookup_insert_eq; eauto|].
    now rewrite lookup_insert_ne.
Qed.

Lemma all_keys {A} (keys : list A) : Z.of_nat (length keys) < U32 ->
  Z.of_nat (length keys) mod U32 = Z.of_nat (length keys) /\ firstn (Z.to_nat (Z.of_nat (length keys) mod U32)) keys = keys.
Proof.
  intros H. assert (E : Z.of_nat (length keys) mod U32 = Z.of_nat (length keys)) by (apply Z.mod_small; lia).
  rewrite E, Nat2Z.id. split; [reflexivity|apply firstn_all].
Qed.

Lemma SetCandidateNodeList_ok b keys now : mapPreVoteSig b = ∅ -> keys <> [] -> NoDup keys -> Z.of_nat (length keys) < U32 ->
  exists b', SetCandidateNodeList b keys now = (b', true) /\ mapPreVoteSig b' = ∅ /\ vote_ok keys b'.
Proof.
  intros Hs Hne ND Hl. destruct (all_keys keys Hl) as [E1 E2].
  destruct (add_nodes_ok now keys [] ∅ []) as (index & Ea & HI); [exact ND| |reflexivity|].
  { intros k i. rewrite lookup_empty. split; [discriminate|]. now intros [_ E]. }
  cbn [length app] in Ea, HI. change (Z.of_nat 0) with 0 in Ea. unfold SetCandidateNodeList. destruct keys as [|k0 keys0] eqn:Ek; [contradiction|]. rewrite <- Ek in *.
  rewrite E2, Ea, E1. eexists. split; [reflexivity|]. split; [exact Hs|].
  pose proof (Initialize_ok (Z.of_nat (length keys)) ltac:(lia)) as HB. destruct (Initialize _) as [bm ok].
  destruct HB as (HB & _ & Hv & H0). split; cbn; auto.
  - now rewrite length_imap.
  - intros k. rewrite Hs, lookup_empty. now intros [? ?].
  - intros i k _. rewrite H0, Hs, lookup_empty. split; [discriminate|now intros [? ?]].
  - intros i k n E E'. rewrite list_lookup_imap, E in E'. injection E' as <-. cbn. repeat split.
    rewrite Hs, lookup_empty. now intros [? ?].
Qed.

Lemma SetCandidateNodeList_dup b keys now : ~ NoDup keys -> Z.of_nat (length keys) < U32 ->
  SetCandidateNodeList b keys now = (set_candidates b ∅ [] Clear, false).
Proof.
  intros ND Hl. destruct (all_keys keys Hl) as [E1 E2]. unfold SetCandidateNodeList.
  destruct keys as [|k0 keys0] eqn:Ek; [destruct ND; constructor|]. rewrite <- Ek in *.
  rewrite E2, add_nodes_dup by auto. reflexivity.
Qed.

(** A signature: kept for a candidate that has not signed, ignored otherwise. *)
Lemma AddPreVoteSign_ok keys b k sg now : NoDup keys -> vote_ok keys b -> returns (AddPreVoteSign b k sg now) (fun b' =>
  vote_ok keys b' /\
  mapPreVoteSig b' = (if decide (k ∈ keys /\ mapPreVoteSig b !! k = None) then <[k := sg]> (mapPreVoteSig b) else mapPreVoteSig b)).
Proof.
  intros ND [H1 H2 H3 H4 H5 H6 H7]. unfold AddPreVoteSign.
  destruct (mapPreVoteSig b !! k) eqn:E; cbn [returns].
  { rewrite decide_False by (intros [_ E']; discriminate E'). split; [split; auto|reflexivity]. }
  destruct (mapCandidateNodeIndex b !! k) as [i|] eqn:Ei; cbn [returns].
  2:{ rewrite decide_False; [split; [split; auto|reflexivity]|]. intros [Hin _].
      apply list_elem_of_lookup_1 in Hin as [i Hi].
      assert (mapCandidateNodeIndex b !! k = Some (Z.of_nat i)) by (apply H1; rewrite Nat2Z.id; split; [lia|exact Hi]). congruence. }
  apply H1 in Ei as [Hi Ek]. pose proof (lookup_lt_Some _ _ _ Ek) as Hl. rewrite (proj2 (Z.ltb_lt _ _)) by lia.
  eapply returns_bind; [apply (SetBit_ok _ i H3); lia|]. intros bm (B1 & B2 & B3). cbn [returns].
  rewrite decide_True by (split; [eapply list_elem_of_lookup_2; exact Ek|reflexivity]). split; [|reflexivity].
  assert (Same : forall j k', keys !! j = Some k' -> (i =? Z.of_nat j) = bool_decide (k' = k)).
  { intros j k' Ej. apply eq_true_iff_eq. rewrite Z.eqb_eq, bool_decide_eq_true. split.
    - intros ->. rewrite Nat2Z.id in Ek. congruence.
    - intros ->. rewrite (NoDup_lookup _ _ _ _ ND Ej Ek). lia. }
  split; cbn; auto; try congruence.
  - now rewrite length_alter.
  - intros k' [s Hs]. destruct (decide (k' = k)) as [->|N]; [eapply list_elem_of_lookup_2; exact Ek|].
    rewrite lookup_insert_ne in Hs by done. eauto.
  - intros j k' Ej. rewrite B3, (Same _ _ Ej), orb_true_iff, (H6 _ _ Ej), bool_decide_eq_true by lia.
    destruct (decide (k' = k)) as [->|N]; [rewrite lookup_insert_eq; split; eauto|rewrite lookup_insert_ne by done; tauto].
  - intros j k' n Ej En. pose proof (Same _ _ Ej) as S. rewrite list_lookup_alter in En. destruct (decide (Z.to_nat i = j)) as [<-|N].
    + destruct (vPreVoteCandidateNodePubkey b !! Z.to_nat i) as [n0|] eqn:E0; [|discriminate].
      injection En as <-. destruct (H7 _ _ _ Ej E0) as (P1 & P2 & _). cbn. auto.
    + destruct (H7 _ _ _ Ej En) as (P1 & P2 & P3). repeat split; auto.
      rewrite lookup_insert_ne; [exact P3|]. intros <-. rewrite bool_decide_eq_true_2 in S by reflexivity. lia.
Qed.

(** The keys at the indexes of a bitmap. *)
Definition keys_at (keys : list Z) (l : list Z) : list Z := (fun i => default 0 (keys !! Z.to_nat i)) <$> l.

Lemma keys_at_NoDup keys l : NoDup keys -> NoDup l -> (forall i, i ∈ l -> 0 <= i < Z.of_nat (length keys)) -> NoDup (keys_at keys l).
Proof.
  intros NK NL HL. apply NoDup_fmap_2_strong; [|exact NL]. intros i j Hi Hj E.
  apply HL in Hi, Hj. destruct (lookup_lt_is_Some_2 keys (Z.to_nat i)) as [x Ex]; [lia|].
  destruct (lookup_lt_is_Some_2 keys (Z.to_nat j)) as [y Ey]; [lia|]. rewrite Ex, Ey in E. cbn in E. subst y.
  pose proof (NoDup_lookup _ _ _ _ NK Ex Ey). lia.
Qed.

(** The number of bits of the bitmap is the number of signatures. *)
Lemma valid_bits keys b : NoDup keys -> vote_ok keys b ->
  GetValidBits (bmBlockPreVoteBitmap b) = Z.of_nat (size (mapPreVoteSig b)).
Proof.
  intros ND H. pose proof (GetIndexList_ok _ (vo_bitmap _ _ H)) as [NI HI]. destruct H as [H1 H2 H3 H4 H5 H6 H7].
  apply NoDup_ListNoDup in NI. setoid_rewrite <- list_elem_of_In in HI. set (l := GetIndexList _) in *.
  assert (Hl : forall i, i ∈ l <-> 0 <= i < Z.of_nat (length keys) /\ bit (btBitmap (bmBlockPreVoteBitmap b)) i = true).
  { intros i. rewrite HI, H4. split; intros [B1 B2]; (split; [exact B1|]); [rewrite GetBit_ok in B2 by (auto; lia); congruence|].
    rewrite GetBit_ok by (auto; lia). congruence. }
  assert (P : keys_at keys l ≡ₚ elements (dom (mapPreVoteSig b))).
  { apply NoDup_Permutation; [apply keys_at_NoDup; [exact ND|exact NI|intros i Hi; now apply Hl]|apply NoDup_elements|].
    intros k. unfold keys_at. rewrite list_elem_of_fmap, elem_of_elements, elem_of_dom. split.
    - intros (i & -> & Hi). apply Hl in Hi as [B T]. destruct (lookup_lt_is_Some_2 keys (Z.to_nat i)) as [x Ex]; [lia|].
      rewrite Ex. cbn. apply (H6 _ _ Ex). now rewrite Z2Nat.id by lia.
    - intros Hk. destruct (list_elem_of_lookup_1 _ _ (H5 _ Hk)) as [i Ei]. exists (Z.of_nat i). rewrite Nat2Z.id, Ei. split; [reflexivity|].
      apply Hl. pose proof (lookup_lt_Some _ _ _ Ei). split; [lia|]. now apply (H6 _ _ Ei). }
  assert (E : length l = size (mapPreVoteSig b)).
  { rewrite <- size_dom. unfold size at 1, set_size. cbn. rewrite <- P. unfold keys_at. now rewrite length_fmap. }
  unfold GetValidBits. fold l. rewrite E. apply Z.mod_small. split; [lia|].
  assert (size (mapPreVoteSig b) <= length keys)%nat; [|destruct H3 as [B _ _ _]; lia].
  rewrite <- E. rewrite <- (length_fmap (fun i => default 0 (keys !! Z.to_nat i)) l). fold (keys_at keys l). rewrite P.
  apply submseteq_length, NoDup_submseteq; [apply NoDup_elements|]. intros k. rewrite elem_of_elements, elem_of_dom. apply H5.
Qed.

(** The bit at the position of a candidate. *)
Lemma vote_bit keys b i k : vote_ok keys b -> keys !! i = Some k ->
  GetBit (bmBlockPreVoteBitmap b) (Z.of_nat i) = Ok (ExistPreVoteSign b k).
Proof.
  intros H Hk. rewrite GetBit_ok; [|apply H|lia]. f_equal. unfold ExistPreVoteSign.
  apply eq_true_iff_eq. rewrite bool_decide_eq_true. now apply (vo_signed keys b H).
Qed.

(** ** A sequence of votes *)

Fixpoint add_votes (b : CConsBlock) (votes : list (Z * list Z * Z)) : result CConsBlock :=
  match votes with
  | [] => Ok b
  | (k, sg, now) :: votes' => let! b' := AddPreVoteSign b k sg now in add_votes b' votes'
  end.

(** The first signature of a node. *)
Fixpoint first_vote (k : Z) (votes : list (Z * list Z * Z)) : option (list Z) :=
  match votes with
  | [] => None
  | (k', sg, _) :: votes' => if decide (k' = k) then Some sg else first_vote k votes'
  end.

(** The signatures after the votes: those there were, then the first one of every
    candidate. *)
Lemma add_votes_ok keys votes : NoDup keys -> forall b, vote_ok keys b -> returns (add_votes b votes) (fun b' =>
  vote_ok keys b' /\
  forall k, mapPreVoteSig b' !! k =
    match mapPreVoteSig b !! k with
    | Some sg => Some sg
    | None => if decide (k ∈ keys) then first_vote k votes else None
    end).
Proof.
  intros ND. induction votes as [|[[k sg] now] votes IH]; intros b H; cbn [add_votes returns].
  { split; [exact H|]. intros k. destruct (mapPreVoteSig b !! k); [reflexivity|]. now destruct (decide (k ∈ keys)). }
  eapply returns_bind; [apply (AddPreVoteSign_ok keys b k sg now ND H)|]. intros b1 [H1 E1].
  eapply returns_mono; [apply IH, H1|]. intros b2 [H2 E2]. split; [exact H2|]. intros k'. rewrite E2, E1. clear E1 E2 IH.
  cbn [first_vote]. destruct (decide (k ∈ keys /\ mapPreVoteSig b !! k = None)) as [[Hin Hn]|N].
  - destruct (decide (k = k')) as [<-|Nk]; [|now rewrite lookup_insert_ne].
    rewrite lookup_insert_eq, Hn. now rewrite decide_True.
  - destruct (decide (k = k')) as [<-|Nk]; [|reflexivity]. destruct (mapPreVoteSig b !! k); [reflexivity|].
    destruct (decide (k ∈ keys)); [tauto|reflexivity].
Qed.
