(* ===== verification/Node.v ===== *)
(** * What the node promises about transaction proofs, addresses and votes

    Merkle proofs lead to the root and whatever leads there is in the tree or exhibits a collision; text in
    Base32 reads back and its checksum detects a changed byte; a bitmap is the set of its
    bits; the votes on a block are counted once per candidate. *)

From Stdlib Require Import ZArith List Lia Bool.
From stdpp Require Import base gmap list.
From S2P Require Import Prelude Radix Stream Merkle Base32 Bitmap Vote.
Import ListNotations.
Local Open Scope Z_scope.

(** ** Merkle proofs *)

(** C35: every leaf of a tree has a proof, by its position and by its hash, and the proof
    verifies against the root of the leaves; a hash that is not a leaf has none. *)
Theorem merkle_proofs_complete (CryptoHash : Z -> Z -> Z) (leaves : list Z) :
  (forall i, (i < length leaves)%nat -> exists p,
     BuildMerkleProve i (fst (BuildMerkleTree CryptoHash leaves)) (length leaves) = Some p /\
     VerifyMerkleProve CryptoHash (CalcMerkleTreeRoot CryptoHash leaves) p (nth i leaves 0) = true) /\
  (forall h, match BuildMerkleProveByHash h (fst (BuildMerkleTree CryptoHash leaves)) (length leaves) with
     | Some p => VerifyMerkleProve CryptoHash (CalcMerkleTreeRoot CryptoHash leaves) p h = true
     | None => ~ List.In h leaves
     end).
Proof.
  split; [intros i Hi; now apply BuildMerkleProve_ok|]. intros h. apply BuildMerkleProveByHash_ok.
Qed.

(** C34: a proof cannot be forged: whatever verifies against the root with at most as many
    steps as the tree has layers above the leaves is the node at the place its directions
    give, in the layer that many steps below the root, unless one of the pairs hashed to
    check it and a different pair hashed to build the tree have the same hash.  The proof
    of leaf [i] has all the steps and leads to place [i]; a shorter proof is one of an
    inner node, which nothing in VerifyMerkleProve rules out. *)
Theorem merkle_proofs_sound (CryptoHash : Z -> Z -> Z) (leaves : list Z) :
  (forall q x, (0 < length leaves)%nat -> (length q <= height (length leaves))%nat ->
     VerifyMerkleProve CryptoHash (CalcMerkleTreeRoot CryptoHash leaves) q x = true ->
     let layer := level CryptoHash (height (length leaves) - length q) leaves in
     x = nth (place q (length layer)) layer 0 \/
     collides CryptoHash (proof_pairs CryptoHash q x) (tree_pairs CryptoHash (length q) layer)) /\
  (forall i p, BuildMerkleProve i (fst (BuildMerkleTree CryptoHash leaves)) (length leaves) = Some p ->
     length p = height (length leaves) /\ place p (length leaves) = i).
Proof. split; [intros q x; apply VerifyMerkleProve_binds|intros i p; apply BuildMerkleProve_place]. Qed.

(** Under the sum as a hash, a proof for 4 at the place of the leaf 3 exhibits a collision;
    the node 8 = 3 + 5 has a proof one step shorter. *)
Lemma merkle_proofs_sound_witness : let H := fun a b => (a + b) mod 100 in
  collides H (proof_pairs H [(PD_RIGHT, 4); (PD_RIGHT, 14)] 4) (tree_pairs H 2 [3; 5; 7]) /\
  8 = nth (place [(PD_RIGHT, 14)] 2) (level H 1 [3; 5; 7]) 0.
Proof.
  intros H. split.
  - destruct (proj1 (merkle_proofs_sound H [3; 5; 7]) [(PD_RIGHT, 4); (PD_RIGHT, 14)] 4) as [E|C];
      [repeat constructor|apply le_n|reflexivity|discriminate E|exact C].
  - destruct (proj1 (merkle_proofs_sound H [3; 5; 7]) [(PD_RIGHT, 14)] 8) as [E|(ab & cd & I1 & I2 & N & E)];
      [repeat constructor|do 2 constructor|reflexivity|exact E|].
    destruct I1 as [<-|[]]. destruct I2 as [<-|[]]. now contradiction N.
Defined.

(** ** Base32 with a checksum *)

(** 32 bytes written in Base32 with their checksum read back. *)
Theorem base32_round_trip md32 : rdigs 256 md32 -> length md32 = 32%nat ->
  length (Base32Encode md32) = 56%nat /\ Base32Decode (Base32Encode md32) = Ok (Some md32).
Proof. intros H HL. split; [reflexivity|now apply Base32_round_trip]. Qed.

Lemma base32_round_trip_witness : Base32Decode (Base32Encode (repeat 200 32)) = Ok (Some (repeat 200 32)).
Proof. refine (proj2 (base32_round_trip (repeat 200 32) _ _)); [|reflexivity]. repeat constructor; lia. Defined.

(** C37: the checksum of a message followed by its own checksum is zero, and no message
    that differs in one byte has the same checksum. *)
Theorem crc24q_detects l1 d d' l2 : rdigs 256 l2 -> 0 <= d < 256 -> 0 <= d' < 256 -> d <> d' ->
  (let crc := crc24q (l1 ++ d :: l2) in
   crc24q ((l1 ++ d :: l2) ++ [Z.shiftr crc 16 mod 256; Z.shiftr crc 8 mod 256; crc mod 256]) = 0) /\
  crc24q (l1 ++ d' :: l2) <> crc24q (l1 ++ d :: l2).
Proof.
  intros H2 Hd Hd' N. split; [apply crc24q_append|]. intros E. apply N. symmetry. now apply (crc24q_one_byte l1 d' d l2).
Qed.

Lemma crc24q_detects_witness : crc24q ([1; 2] ++ 4 :: [5]) <> crc24q ([1; 2] ++ 3 :: [5]).
Proof. refine (proj2 (crc24q_detects [1; 2] 3 4 [5] _ _ _ _)); try lia. repeat constructor; lia. Defined.

(** ** Bitmaps *)

(** C36: a bitmap of [n] bits is a subset of the numbers below [n]: it starts empty, setting
    and clearing a bit add and remove one number, bits beyond the last are never reported,
    the list of indexes enumerates the subset without repetition, and the bitmap read back
    from its bytes is the same. *)
Theorem bitmap_is_set b i : bitmap_ok b -> 0 <= i < varBits b ->
  (bitmap_ok (fst (Initialize (varBits b))) /\ GetIndexList (fst (Initialize (varBits b))) = []) /\
  returns (SetBit b i) (fun b' => bitmap_ok b' /\ varBits b' = varBits b /\
    forall j, List.In j (GetIndexList b') <-> j = i \/ List.In j (GetIndexList b)) /\
  returns (UnsetBit b i) (fun b' => bitmap_ok b' /\ varBits b' = varBits b /\
    forall j, List.In j (GetIndexList b') <-> j <> i /\ List.In j (GetIndexList b)) /\
  (forall j, 0 <= j -> GetBit b j = Ok (existsb (Z.eqb j) (GetIndexList b))) /\
  List.NoDup (GetIndexList b) /\ (forall j, List.In j (GetIndexList b) -> 0 <= j < varBits b) /\
  (forall b', ImportBytes b' (bitmap_GetBytes b) = (b, true)).
Proof.
  intros H Hi. split; [|split; [|split; [|split; [|split; [|split]]]]].
  - apply Initialize_empty, H.
  - exact (SetBit_list b i H Hi).
  - exact (UnsetBit_list b i H Hi).
  - exact (fun j => GetBit_list b j H).
  - exact (proj1 (GetIndexList_ok b H)).
  - intros j Hj. now apply (in_indexes b j H) in Hj.
  - intros b'. now apply bitmap_bytes_round_trip.
Qed.

Lemma bitmap_is_set_witness : GetBit (mk_bitmap 11 [130; 4]) 7 = Ok (existsb (Z.eqb 7) [1; 7; 10]).
Proof.
  refine (proj1 (proj2 (proj2 (proj2 (bitmap_is_set (mk_bitmap 11 [130; 4]) 3 _ _)))) 7 _); [|cbn; lia|lia].
  apply bitmap_ok_check; [unfold U32; cbn; lia|repeat constructor; lia|vm_compute; reflexivity|vm_compute; reflexivity].
Defined.

(** ** Votes *)

(** C33: a block's vote.  Once the candidates are set, any sequence of signatures is
    accepted without going out of bounds; the first signature of every candidate is kept,
    those of other nodes are dropped, and the bitmap has exactly one bit per kept
    signature, at the position of the candidate. *)
Theorem votes_counted_once b keys now votes :
  mapPreVoteSig b = ∅ -> keys <> [] -> NoDup keys -> Z.of_nat (length keys) < U32 ->
  returns (let '(b1, ok) := SetCandidateNodeList b keys now in add_votes b1 votes) (fun b' =>
    (forall k, mapPreVoteSig b' !! k = if decide (k ∈ keys) then first_vote k votes else None) /\
    (forall i k, keys !! i = Some k -> GetBit (bmBlockPreVoteBitmap b') (Z.of_nat i) = Ok (ExistPreVoteSign b' k)) /\
    GetValidBits (bmBlockPreVoteBitmap b') = Z.of_nat (size (mapPreVoteSig b'))).
Proof.
  intros Hs Hne ND Hl. destruct (SetCandidateNodeList_ok b keys now Hs Hne ND Hl) as (b1 & -> & H0 & H1).
  eapply returns_mono; [apply (add_votes_ok keys votes ND b1 H1)|]. intros b' [H2 E]. split; [|split].
  - intros k. now rewrite E, H0, lookup_empty.
  - intros i k Hk. now apply (vote_bit keys).
  - now apply (valid_bits keys).
Qed.

Lemma votes_counted_once_witness :
  returns (let '(b1, ok) := SetCandidateNodeList (cons_block_new 1 2 3 4 5) [10; 20; 30] 6 in
           add_votes b1 [(20, [1], 7); (99, [2], 8); (20, [3], 9)]) (fun b' =>
    mapPreVoteSig b' !! 20 = Some [1] /\ mapPreVoteSig b' !! 99 = None).
Proof.
  refine (returns_mono _ _ _ (votes_counted_once (cons_block_new 1 2 3 4 5) [10; 20; 30] 6 [(20, [1], 7); (99, [2], 8); (20, [3], 9)] _ _ _ _) _).
  - reflexivity.
  - discriminate.
  - apply (bool_decide_unpack _). vm_compute. exact I.
  - vm_compute. reflexivity.
  - intros b' (H & _). rewrite !H. split; reflexivity.
Defined.
