(* ===== verification/Base25519.v ===== *)
(** * 256-bit numbers of curve25519: crypto/curve25519/base25519.cpp

    A number is a buffer of 32 bytes, four 64-bit words in the classes that use it.  With
    [DEFINED_INT128] the routines view the buffer as two 128-bit words, without it as four
    64-bit or eight 32-bit words; [int128] says which branch is compiled, and every
    theorem holds for both.  [cast] is the little-endian reinterpretation of a buffer.  The
    routines that write products term by term are evaluators of the tables the source
    writes out. *)

From Stdlib Require Import ZArith List Lia Bool Permutation.
From S2P Require Import Prelude Radix.
Import ListNotations.
Local Open Scope Z_scope.

(** [n] words of [w'] bits over the bytes of the words of [w] bits [l]. *)
Definition cast (w : Z) (w' : Z) (n : nat) (l : list Z) : list Z := rdig (2 ^ w') n (rval (2 ^ w) l).

(** [(int)x] of a [w]-bit word. *)
Definition signed (w x : Z) : Z := if 2 ^ (w - 1) <=? x then x - 2 ^ w else x.

Definition Zero16 : list Z := repeat 0 2.
Definition Zero32 : list Z := repeat 0 4.
Definition Zero64 : list Z := repeat 0 8.

(** Copy32 of a buffer, and of a 64-bit number. *)
Definition Copy32 (src : list Z) : list Z := [nth 0 src 0; nth 1 src 0; nth 2 src 0; nth 3 src 0].
Definition Copy32_u64 (u64 : Z) : list Z := [u64; 0; 0; 0].

Definition IsZero32 (p : list Z) : bool := Z.lor (Z.lor (Z.lor (nth 0 p 0) (nth 1 p 0)) (nth 2 p 0)) (nth 3 p 0) =? 0.
Definition IsOne32 (p : list Z) : bool :=
  Z.lor (Z.lor (Z.lor ((nth 0 p 0 - 1) mod 2 ^ 64) (nth 1 p 0)) (nth 2 p 0)) (nth 3 p 0) =? 0.
Definition IsEven (n : list Z) : bool := Z.land (nth 0 (cast 64 8 32 n) 0) 1 =? 0.

(** ** Loops over the words *)

(** sum = p1[i] + p2[i] + carry, and the carry from comparing it with p1[i] *)
Fixpoint add_words (r : Z) (p1 p2 : list Z) (carry : Z) : list Z * Z :=
  match p1, p2 with
  | a :: p1', b :: p2' =>
      let sum := (a + b + carry) mod r in
      let carry := if negb (carry =? 0) then (if a <? sum then 0 else 1) else (if a <=? sum then 0 else 1) in
      let '(po, c) := add_words r p1' p2' carry in (sum :: po, c)
  | _, _ => ([], carry)
  end.

Fixpoint sub_words (r : Z) (p1 p2 : list Z) (borrow : Z) : list Z * Z :=
  match p1, p2 with
  | a :: p1', b :: p2' =>
      let diff := (a - b - borrow) mod r in
      let borrow := if negb (borrow =? 0) then (if b <? a then 0 else 1) else (if b <=? a then 0 else 1) in
      let '(po, c) := sub_words r p1' p2' borrow in (diff :: po, c)
  | _, _ => ([], borrow)
  end.

(** Comparison from the most significant word, given first. *)
Fixpoint compare_top (l r : list Z) : Z :=
  match l, r with
  | a :: l', b :: r' => if b <? a then 1 else if a <? b then -1 else compare_top l' r'
  | _, _ => 0
  end.

(** p[i] = (p[i] >> 1) | (p[i + 1] << (w - 1)), the last word by [top] *)
Fixpoint half_words (w : Z) (top : Z -> Z) (p : list Z) : list Z :=
  match p with
  | [] => []
  | [a] => [top a]
  | a :: (b :: _) as p' => Z.lor (Z.shiftr a 1) (Z.shiftl b (w - 1) mod 2 ^ w) :: half_words w top p'
  end.

(** ** Products term by term *)

(** [P i] is the [i]-th half of the array of products, [W k] the whole [k]-th product. *)
Inductive term := P (i : nat) | W (k : nat).

(** product[k] = (wide)p1[i] * p2[j] *)
Definition products (p1 p2 : list Z) (ij : list (nat * nat)) : list Z :=
  map (fun '(i, j) => nth i p1 0 * nth j p2 0) ij.

(** The [i]-th word of radix [r] of the array of products. *)
Definition half_at (r : Z) (product : list Z) (i : nat) : Z :=
  let x := nth (Nat.div2 i) product 0 in if Nat.even i then x mod r else x / r.

Definition eval_term (r : Z) (product : list Z) (t : term) : Z :=
  match t with P i => half_at r product i | W k => nth k product 0 end.

(** A sum in the wide type. *)
Definition column (r : Z) (product : list Z) (ts : list term) : Z :=
  fold_left (fun s t => (s + eval_term r product t) mod r ^ 2) ts 0.

(** *(wide* )&po[i] += s, and with =. *)
Definition add_window (r : Z) (po : list Z) (i : nat) (s : Z) : list Z :=
  let x := (nth i po 0 + r * nth (S i) po 0 + s) mod r ^ 2 in upd (upd po i (x mod r)) (S i) (x / r).
Definition set_window (r : Z) (po : list Z) (i : nat) (s : Z) : list Z := upd (upd po i (s mod r)) (S i) (s / r).

Fixpoint add_windows (r : Z) (product : list Z) (i : nat) (cols : list (list term)) (po : list Z) : list Z :=
  match cols with
  | [] => po
  | c :: cols' => add_windows r product (S i) cols' (add_window r po i (column r product c))
  end.

(** po[0] = p[0]; the window at 1 is assigned and the others are added. *)
Definition window_product (r : Z) (p1 p2 : list Z) (ij : list (nat * nat)) (cols : list (list term)) (size : nat) : list Z :=
  let product := products p1 p2 ij in
  match cols with
  | c0 :: c1 :: cols' =>
      let po := upd (repeat 0 size) 0 (column r product c0) in
      add_windows r product 2 cols' (set_window r po 1 (column r product c1))
  | _ => repeat 0 size
  end.

(** *** The tables of the source *)

Local Open Scope nat_scope.

Definition Mul32_int128_products : list (nat * nat) :=
  [(0, 0); (0, 1); (1, 0); (0, 2); (1, 1); (2, 0); (0, 3); (1, 2); (2, 1); (3, 0); (1, 3); (2, 2); (3, 1);
   (2, 3); (3, 2); (3, 3)].

Definition Mul32_int128_columns : list (list term) :=
  [[P 0]; [P 1; P 2; P 4]; [P 3; P 5; P 6; P 8; P 10]; [P 7; P 9; P 11; P 12; P 14; P 16; P 18];
   [P 13; P 15; P 17; P 19; P 20; P 22; P 24]; [P 21; P 23; P 25; P 26; P 28]; [P 27; P 29; P 30]; [P 31]].

Definition Mul32_plain_products : list (nat * nat) :=
  [(0, 0); (0, 1); (1, 0); (0, 2); (1, 1); (2, 0); (0, 3); (1, 2); (2, 1); (3, 0); (0, 4); (1, 3); (2, 2);
   (3, 1); (4, 0); (0, 5); (1, 4); (2, 3); (3, 2); (4, 1); (5, 0); (0, 6); (1, 5); (2, 4); (3, 3); (4, 2);
   (5, 1); (6, 0); (0, 7); (1, 6); (2, 5); (3, 4); (4, 3); (5, 2); (6, 1); (7, 0); (1, 7); (2, 6); (3, 5);
   (4, 4); (5, 3); (6, 2); (7, 1); (2, 7); (3, 6); (4, 5); (5, 4); (6, 3); (7, 2); (3, 7); (4, 6); (5, 5);
   (6, 4); (7, 3); (4, 7); (5, 6); (6, 5); (7, 4); (5, 7); (6, 6); (7, 5); (6, 7); (7, 6); (7, 7)].

Definition Mul32_plain_columns : list (list term) :=
  [[P 0]; [P 1; P 2; P 4]; [P 3; P 5; P 6; P 8; P 10]; [P 7; P 9; P 11; P 12; P 14; P 16; P 18];
   [P 13; P 15; P 17; P 19; P 20; P 22; P 24; P 26; P 28];
   [P 21; P 23; P 25; P 27; P 29; P 30; P 32; P 34; P 36; P 38; P 40];
   [P 31; P 33; P 35; P 37; P 39; P 41; P 42; P 44; P 46; P 48; P 50; P 52; P 54];
   [P 43; P 45; P 47; P 49; P 51; P 53; P 55; P 56; P 58; P 60; P 62; P 64; P 66; P 68; P 70];
   [P 57; P 59; P 61; P 63; P 65; P 67; P 69; P 71; P 72; P 74; P 76; P 78; P 80; P 82; P 84];
   [P 73; P 75; P 77; P 79; P 81; P 83; P 85; P 86; P 88; P 90; P 92; P 94; P 96];
   [P 87; P 89; P 91; P 93; P 95; P 97; P 98; P 100; P 102; P 104; P 106];
   [P 99; P 101; P 103; P 105; P 107; P 108; P 110; P 112; P 114];
   [P 109; P 111; P 113; P 115; P 116; P 118; P 120]; [P 117; P 119; P 121; P 122; P 124];
   [P 123; P 125; P 126]; [P 127]].

Definition Multiply8_8_plain_products : list (nat * nat) :=
  [(0, 0); (0, 1); (1, 0); (1, 1)].

Definition Multiply8_8_plain_columns : list (list term) :=
  [[P 0]; [P 1; P 2; P 4]; [P 3; P 5; W 3]].

Definition Multiply16_8_int128_products : list (nat * nat) :=
  [(0, 0); (1, 0)].

Definition Multiply16_8_int128_columns : list (list term) :=
  [[P 0]; [P 1; W 1]].

Definition Multiply16_8_plain_products : list (nat * nat) :=
  [(0, 0); (0, 1); (1, 0); (1, 1); (2, 0); (2, 1); (3, 0); (3, 1)].

Definition Multiply16_8_plain_columns : list (list term) :=
  [[P 0]; [P 1; P 2; P 4]; [P 3; P 5; P 6; P 8]; [P 7; P 9; P 10; P 12]; [P 11; P 13; W 7]].

Definition Multiply32_32_int128_products : list (nat * nat) :=
  [(0, 0); (0, 1); (1, 0); (0, 2); (1, 1); (2, 0); (0, 3); (1, 2); (2, 1); (3, 0); (1, 3); (2, 2); (3, 1);
   (2, 3); (3, 2); (3, 3)].

Definition Multiply32_32_int128_columns : list (list term) :=
  [[P 0]; [P 1; P 2; P 4]; [P 3; P 5; P 6; P 8; P 10]; [P 7; P 9; P 11; P 12; P 14; P 16; P 18];
   [P 13; P 15; P 17; P 19; P 20; P 22; P 24]; [P 21; P 23; P 25; P 26; P 28]; [P 27; P 29; W 15]].

Definition Multiply32_32_plain_products : list (nat * nat) :=
  [(0, 0); (0, 1); (1, 0); (0, 2); (1, 1); (2, 0); (0, 3); (1, 2); (2, 1); (3, 0); (0, 4); (1, 3); (2, 2);
   (3, 1); (4, 0); (0, 5); (1, 4); (2, 3); (3, 2); (4, 1); (5, 0); (0, 6); (1, 5); (2, 4); (3, 3); (4, 2);
   (5, 1); (6, 0); (0, 7); (1, 6); (2, 5); (3, 4); (4, 3); (5, 2); (6, 1); (7, 0); (1, 7); (2, 6); (3, 5);
   (4, 4); (5, 3); (6, 2); (7, 1); (2, 7); (3, 6); (4, 5); (5, 4); (6, 3); (7, 2); (3, 7); (4, 6); (5, 5);
   (6, 4); (7, 3); (4, 7); (5, 6); (6, 5); (7, 4); (5, 7); (6, 6); (7, 5); (6, 7); (7, 6); (7, 7)].

Definition Multiply32_32_plain_columns : list (list term) :=
  [[P 0]; [P 1; P 2; P 4]; [P 3; P 5; P 6; P 8; P 10]; [P 7; P 9; P 11; P 12; P 14; P 16; P 18];
   [P 13; P 15; P 17; P 19; P 20; P 22; P 24; P 26; P 28];
   [P 21; P 23; P 25; P 27; P 29; P 30; P 32; P 34; P 36; P 38; P 40];
   [P 31; P 33; P 35; P 37; P 39; P 41; P 42; P 44; P 46; P 48; P 50; P 52; P 54];
   [P 43; P 45; P 47; P 49; P 51; P 53; P 55; P 56; P 58; P 60; P 62; P 64; P 66; P 68; P 70];
   [P 57; P 59; P 61; P 63; P 65; P 67; P 69; P 71; P 72; P 74; P 76; P 78; P 80; P 82; P 84];
   [P 73; P 75; P 77; P 79; P 81; P 83; P 85; P 86; P 88; P 90; P 92; P 94; P 96];
   [P 87; P 89; P 91; P 93; P 95; P 97; P 98; P 100; P 102; P 104; P 106];
   [P 99; P 101; P 103; P 105; P 107; P 108; P 110; P 112; P 114];
   [P 109; P 111; P 113; P 115; P 116; P 118; P 120]; [P 117; P 119; P 121; P 122; P 124];
   [P 123; P 125; W 63]].

Local Close Scope nat_scope.

(** ** The routines *)

Section Routines.

Variable int128 : bool.

Definition limb_bits : Z := if int128 then 128 else 64.
Definition limb_count : nat := if int128 then 2 else 4.

(** A buffer as the words of the loops, and back. *)
Definition to_limbs (l : list Z) : list Z := cast 64 limb_bits limb_count l.
Definition of_limbs (l : list Z) : list Z := cast limb_bits 64 4 l.

Definition Compare32 (lhs rhs : list Z) : Z := compare_top (rev (to_limbs lhs)) (rev (to_limbs rhs)).

Definition signed_top (l : list Z) : list Z := match l with [] => [] | a :: l' => signed limb_bits a :: l' end.
Definition CompareSigned32 (lhs rhs : list Z) : Z :=
  compare_top (signed_top (rev (to_limbs lhs))) (signed_top (rev (to_limbs rhs))).

Definition Add32 (n1 n2 : list Z) : list Z * Z :=
  let '(po, carry) := add_words (2 ^ limb_bits) (to_limbs n1) (to_limbs n2) 0 in (of_limbs po, carry).

Definition Sub32 (n1 n2 : list Z) : list Z * Z :=
  let '(po, borrow) := sub_words (2 ^ limb_bits) (to_limbs n1) (to_limbs n2) 0 in (of_limbs po, borrow).

(** [output] is left as it is when [n] is between 0 and [prime]. *)
Definition ReduceSigned32 (output n prime : list Z) : list Z :=
  if negb (Z.land (nth 31 (cast 64 8 32 n) 0) 128 =? 0) then fst (Add32 n prime)
  else if 0 <=? Compare32 n prime then fst (Sub32 n prime) else output.

Definition Half32 (n : list Z) : list Z := of_limbs (half_words limb_bits (fun a => Z.shiftr a 1) (to_limbs n)).
Definition HalfSigned32 (n : list Z) : list Z :=
  of_limbs (half_words limb_bits (fun a => Z.shiftr (signed limb_bits a) 1 mod 2 ^ limb_bits) (to_limbs n)).

(** (hi << b) | (lo >> (w - b)) on words of [w] bits *)
Definition shl2 (w b hi lo : Z) : Z := Z.lor (Z.shiftl hi b mod 2 ^ w) (Z.shiftr lo (w - b)).

Definition ShiftLeft32_int128 (p : list Z) (b : Z) : list Z :=
  let p0 := nth 0 p 0 in let p1 := nth 1 p 0 in
  if b <? 128 then [Z.shiftl p0 b mod 2 ^ 128; shl2 128 b p1 p0]
  else if b =? 128 then [0; p0]
  else [0; Z.shiftl p0 (b - 128) mod 2 ^ 128].

Definition ShiftLeft32_plain (p : list Z) (b : Z) : list Z :=
  let p0 := nth 0 p 0 in let p1 := nth 1 p 0 in let p2 := nth 2 p 0 in let p3 := nth 3 p 0 in
  let left := b mod 64 in
  let shl x := Z.shiftl x left mod 2 ^ 64 in
  if b <? 64 then [shl p0; shl2 64 left p1 p0; shl2 64 left p2 p1; shl2 64 left p3 p2]
  else if b =? 64 then [0; p0; p1; p2]
  else if b <? 128 then [0; shl p0; shl2 64 left p1 p0; shl2 64 left p2 p1]
  else if b =? 128 then [0; 0; p0; p1]
  else if b <? 192 then [0; 0; shl p0; shl2 64 left p1 p0]
  else if b =? 192 then [0; 0; 0; p0]
  else [0; 0; 0; shl p0].

Definition ShiftLeft32 (n : list Z) (b : Z) : list Z :=
  if b =? 0 then Copy32 n
  else if 256 <=? b then Zero32
  else of_limbs (if int128 then ShiftLeft32_int128 (to_limbs n) b else ShiftLeft32_plain (to_limbs n) b).

(** The products work on 64-bit words, or on 32-bit words without 128-bit integers. *)
Definition half_bits : Z := if int128 then 64 else 32.
Definition half_limbs (n : nat) (l : list Z) : list Z := cast 64 half_bits (if int128 then n else 2 * n) l.

(** Mul32: the columns, in words of twice the width. *)
Definition Mul32 (n1 n2 : list Z) : list Z :=
  let '(ij, cols) := if int128 then (Mul32_int128_products, Mul32_int128_columns) else (Mul32_plain_products, Mul32_plain_columns) in
  map (column (2 ^ half_bits) (products (half_limbs 4 n1) (half_limbs 4 n2) ij)) cols.

Definition run_product (n1 n2 : nat) (p1 p2 : list Z) (ij : list (nat * nat)) (cols : list (list term)) (size : nat) : list Z :=
  cast half_bits 64 size
    (window_product (2 ^ half_bits) (half_limbs n1 p1) (half_limbs n2 p2) ij cols (if int128 then size else 2 * size)).

Definition Multiply8_8 (p1 p2 : list Z) : list Z :=
  if int128 then rdig (2 ^ 64) 2 (nth 0 p1 0 * nth 0 p2 0)
  else run_product 1 1 p1 p2 Multiply8_8_plain_products Multiply8_8_plain_columns 2.

Definition Multiply16_8 (p1 p2 : list Z) : list Z :=
  if int128 then run_product 2 1 p1 p2 Multiply16_8_int128_products Multiply16_8_int128_columns 4
  else run_product 2 1 p1 p2 Multiply16_8_plain_products Multiply16_8_plain_columns 4.

Definition Multiply32_32 (p1 p2 : list Z) : list Z :=
  if int128 then run_product 4 4 p1 p2 Multiply32_32_int128_products Multiply32_32_int128_columns 8
  else run_product 4 4 p1 p2 Multiply32_32_plain_products Multiply32_32_plain_columns 8.

End Routines.
