(* ===== verification/Base25519Ok.v ===== *)
(** * The 256-bit routines compute on numbers

    Every routine of base25519.cpp, in both branches of the conditional compilation,
    returns the words of the number its comment in base25519.h announces. *)

From Stdlib Require Import ZArith List Lia Bool Permutation.
From S2P Require Import Prelude Radix Base25519.
Import ListNotations.
Local Open Scope Z_scope.

(** The number a buffer of 64-bit words holds, and the buffers of 32 bytes. *)
Definition num (l : list Z) : Z := rval (2 ^ 64) l.
Definition u256 (l : list Z) : Prop := length l = 4%nat /\ rdigs (2 ^ 64) l.

Lemma num_bound l : u256 l -> 0 <= num l < 2 ^ 256.
Proof. intros [L H]. pose proof (rval_bound (2 ^ 64) l ltac:(lia) H) as B. rewrite L in B. exact B. Qed.

Lemma num_inj a b : u256 a -> u256 b -> num a = num b -> a = b.
Proof. intros [La Ha] [Lb Hb] E. apply (rval_inj (2 ^ 64)); auto; [lia|congruence]. Qed.

(** ** Reinterpretation *)

Lemma pow2_pos w : 0 <= w -> 0 < 2 ^ w.
Proof. intros H. apply Z.pow_pos_nonneg; lia. Qed.

Lemma cast_ok w w' n l : 0 <= w -> 0 <= w' -> rdigs (2 ^ w) l -> w * Z.of_nat (length l) <= w' * Z.of_nat n ->
  length (cast w w' n l) = n /\ rdigs (2 ^ w') (cast w w' n l) /\ rval (2 ^ w') (cast w w' n l) = rval (2 ^ w) l.
Proof.
  intros Hw Hw' H HL. unfold cast. split; [apply length_rdig|]. split; [apply rdigs_rdig, pow2_pos, Hw'|].
  rewrite rval_rdig by now apply pow2_pos. apply Z.mod_small.
  pose proof (rval_bound (2 ^ w) l (pow2_pos _ Hw) H) as B. rewrite <- !Z.pow_mul_r in * by lia.
  pose proof (Z.pow_le_mono_r 2 _ _ ltac:(lia) HL). lia.
Qed.

Lemma to_limbs_ok d l : u256 l ->
  length (to_limbs d l) = limb_count d /\ rdigs (2 ^ limb_bits d) (to_limbs d l) /\ rval (2 ^ limb_bits d) (to_limbs d l) = num l.
Proof. intros [L H]. apply cast_ok; auto; try lia; rewrite ?L; destruct d; cbn; lia. Qed.

Lemma of_limbs_ok d l : length l = limb_count d -> rdigs (2 ^ limb_bits d) l ->
  u256 (of_limbs d l) /\ num (of_limbs d l) = rval (2 ^ limb_bits d) l.
Proof.
  intros L H. destruct (cast_ok (limb_bits d) 64 4 l) as (L' & H' & E); auto; try lia; try (rewrite L); try (destruct d; cbn; lia).
  repeat split; auto.
Qed.

Lemma limb_pow d : (2 ^ limb_bits d) ^ Z.of_nat (limb_count d) = 2 ^ 256.
Proof. destruct d; reflexivity. Qed.

Lemma limb_pos d : 1 < 2 ^ limb_bits d.
Proof. destruct d; reflexivity. Qed.

(** ** Addition and subtraction *)

Lemma add_words_ok r p1 : 1 < r -> forall p2 c, length p1 = length p2 -> rdigs r p1 -> rdigs r p2 -> 0 <= c <= 1 ->
  let '(po, c') := add_words r p1 p2 c in
  length po = length p1 /\ rdigs r po /\ 0 <= c' <= 1 /\ rval r po + r ^ Z.of_nat (length p1) * c' = rval r p1 + rval r p2 + c.
Proof.
  intros Hr. induction p1 as [|a p1 IH]; intros [|b p2] c HL H1 H2 Hc; try discriminate HL; cbn [add_words].
  { cbn [length rval]. repeat split; try constructor; try lia. }
  apply Forall_cons_iff in H1 as [Ha H1], H2 as [Hb H2].
  set (sum := (a + b + c) mod r). set (c1 := if negb (c =? 0) then _ else _).
  assert (HS : sum + r * c1 = a + b + c /\ 0 <= c1 <= 1 /\ 0 <= sum < r).
  { subst c1 sum. destruct (Z.lt_ge_cases (a + b + c) r) as [L|G].
    - rewrite Z.mod_small by lia. destruct (Z.eqb_spec c 0); cbn [negb].
      + rewrite (proj2 (Z.leb_le _ _)) by lia. lia.
      + rewrite (proj2 (Z.ltb_lt _ _)) by lia. lia.
    - replace ((a + b + c) mod r) with (a + b + c - r) by (apply (Z.mod_unique_pos _ _ 1); lia).
      destruct (Z.eqb_spec c 0); cbn [negb].
      + rewrite (proj2 (Z.leb_gt _ _)) by lia. lia.
      + rewrite (proj2 (Z.ltb_ge _ _)) by lia. lia. }
  destruct HS as (HS & Hc1 & Hs). injection HL as HL. specialize (IH p2 c1 HL H1 H2 Hc1).
  destruct (add_words r p1 p2 c1) as [po c']. destruct IH as (L & D & B & E).
  cbn [length rval]. rewrite Nat2Z.inj_succ, Z.pow_succ_r by lia.
  repeat split; [congruence|constructor; [lia|exact D]|lia|lia|]. nia.
Qed.

Lemma sub_words_ok r p1 : 1 < r -> forall p2 c, length p1 = length p2 -> rdigs r p1 -> rdigs r p2 -> 0 <= c <= 1 ->
  let '(po, c') := sub_words r p1 p2 c in
  length po = length p1 /\ rdigs r po /\ 0 <= c' <= 1 /\ rval r po - r ^ Z.of_nat (length p1) * c' = rval r p1 - rval r p2 - c.
Proof.
  intros Hr. induction p1 as [|a p1 IH]; intros [|b p2] c HL H1 H2 Hc; try discriminate HL; cbn [sub_words].
  { cbn [length rval]. repeat split; try constructor; try lia. }
  apply Forall_cons_iff in H1 as [Ha H1], H2 as [Hb H2].
  set (diff := (a - b - c) mod r). set (c1 := if negb (c =? 0) then _ else _).
  assert (HS : diff - r * c1 = a - b - c /\ 0 <= c1 <= 1 /\ 0 <= diff < r).
  { subst c1 diff. destruct (Z.lt_ge_cases (a - b - c) 0) as [L|G].
    - replace ((a - b - c) mod r) with (a - b - c + r) by (apply (Z.mod_unique_pos _ _ (-1)); lia).
      destruct (Z.eqb_spec c 0); cbn [negb].
      + rewrite (proj2 (Z.leb_gt _ _)) by lia. lia.
      + rewrite (proj2 (Z.ltb_ge _ _)) by lia. lia.
    - rewrite Z.mod_small by lia. destruct (Z.eqb_spec c 0); cbn [negb].
      + rewrite (proj2 (Z.leb_le _ _)) by lia. lia.
      + rewrite (proj2 (Z.ltb_lt _ _)) by lia. lia. }
  destruct HS as (HS & Hc1 & Hs). injection HL as HL. specialize (IH p2 c1 HL H1 H2 Hc1).
  destruct (sub_words r p1 p2 c1) as [po c']. destruct IH as (L & D & B & E).
  cbn [length rval]. rewrite Nat2Z.inj_succ, Z.pow_succ_r by lia.
  repeat split; [congruence|constructor; [lia|exact D]|lia|lia|]. nia.
Qed.

Lemma Add32_ok d a b : u256 a -> u256 b -> let '(o, c) := Add32 d a b in
  u256 o /\ 0 <= c <= 1 /\ num o + 2 ^ 256 * c = num a + num b.
Proof.
  intros Ha Hb. unfold Add32. destruct (to_limbs_ok d a Ha) as (La & Da & <-), (to_limbs_ok d b Hb) as (Lb & Db & <-).
  pose proof (add_words_ok _ (to_limbs d a) (limb_pos d) (to_limbs d b) 0 ltac:(congruence) Da Db ltac:(lia)) as H.
  destruct (add_words _ _ _ _) as [po c]. destruct H as (L & D & B & E). rewrite La in L, E. rewrite limb_pow in E.
  destruct (of_limbs_ok d po L D) as [U ->]. repeat split; try apply U; lia.
Qed.

Lemma Sub32_ok d a b : u256 a -> u256 b -> let '(o, c) := Sub32 d a b in
  u256 o /\ 0 <= c <= 1 /\ num o - 2 ^ 256 * c = num a - num b.
Proof.
  intros Ha Hb. unfold Sub32. destruct (to_limbs_ok d a Ha) as (La & Da & <-), (to_limbs_ok d b Hb) as (Lb & Db & <-).
  pose proof (sub_words_ok _ (to_limbs d a) (limb_pos d) (to_limbs d b) 0 ltac:(congruence) Da Db ltac:(lia)) as H.
  destruct (sub_words _ _ _ _) as [po c]. destruct H as (L & D & B & E). rewrite La in L, E. rewrite limb_pow in E.
  destruct (of_limbs_ok d po L D) as [U ->]. repeat split; try apply U; lia.
Qed.

(** The two forms used most: no carry out, and the value modulo 2^256. *)
Lemma Add32_num d a b : u256 a -> u256 b -> u256 (fst (Add32 d a b)) /\ num (fst (Add32 d a b)) = (num a + num b) mod 2 ^ 256.
Proof.
  intros Ha Hb. pose proof (Add32_ok d a b Ha Hb) as H. destruct (Add32 d a b) as [o c]. destruct H as (U & B & E). split; [exact U|].
  cbn [fst]. apply (Z.mod_unique_pos _ _ c); [now apply num_bound|lia].
Qed.

Lemma Sub32_num d a b : u256 a -> u256 b -> u256 (fst (Sub32 d a b)) /\ num (fst (Sub32 d a b)) = (num a - num b) mod 2 ^ 256.
Proof.
  intros Ha Hb. pose proof (Sub32_ok d a b Ha Hb) as H. destruct (Sub32 d a b) as [o c]. destruct H as (U & B & E). split; [exact U|].
  cbn [fst]. apply (Z.mod_unique_pos _ _ (- c)); [now apply num_bound|lia].
Qed.

(** ** Comparison *)

Lemma compare_top_ok r l1 : 1 < r -> forall l2, length l1 = length l2 -> rdigs r l1 -> rdigs r l2 ->
  compare_top (rev l1) (rev l2) = match rval r l1 ?= rval r l2 with Eq => 0 | Lt => -1 | Gt => 1 end.
Proof.
  intros Hr. induction l1 as [|a l1 IH] using rev_ind; intros l2 HL H1 H2.
  { destruct l2; [reflexivity|discriminate HL]. }
  destruct l2 as [|b l2 _] using rev_ind; [rewrite length_app in HL; cbn in HL; lia|].
  rewrite !length_app in HL; cbn [length] in HL. rewrite !rev_app_distr. cbn [rev app compare_top].
  apply Forall_app in H1 as [H1 Ha], H2 as [H2 Hb]. apply Forall_cons_iff in Ha as [Ha _], Hb as [Hb _].
  assert (HL' : length l1 = length l2) by lia. specialize (IH l2 HL' H1 H2).
  rewrite !rval_app, <- HL'. cbn [rval]. set (M := r ^ Z.of_nat (length l1)) in *.
  pose proof (rval_bound r l1 ltac:(lia) H1) as B1. pose proof (rval_bound r l2 ltac:(lia) H2) as B2. rewrite <- HL' in B2. fold M in B1, B2.
  destruct (Z.ltb_spec b a) as [L|L].
  - replace (_ ?= _) with Gt; [reflexivity|]. symmetry. apply Z.compare_gt_iff. nia.
  - destruct (Z.ltb_spec a b) as [L'|L'].
    + replace (_ ?= _) with Lt; [reflexivity|]. symmetry. apply Z.compare_lt_iff. nia.
    + assert (a = b) by lia. subst b. rewrite IH, !(Z.add_comm _ (M * _)), Z.add_compare_mono_l. reflexivity.
Qed.

Lemma Compare32_ok d a b : u256 a -> u256 b ->
  Compare32 d a b = match num a ?= num b with Eq => 0 | Lt => -1 | Gt => 1 end.
Proof.
  intros Ha Hb. destruct (to_limbs_ok d a Ha) as (La & Da & <-), (to_limbs_ok d b Hb) as (Lb & Db & <-).
  apply compare_top_ok; auto; [apply limb_pos|congruence].
Qed.

Lemma Compare32_ge d a b : u256 a -> u256 b -> (0 <=? Compare32 d a b) = (num b <=? num a).
Proof.
  intros Ha Hb. rewrite Compare32_ok by assumption. unfold Z.leb. rewrite (Z.compare_antisym (num a) (num b)).
  now destruct (num a ?= num b).
Qed.

Lemma Compare32_lt d a b : u256 a -> u256 b -> (Compare32 d a b <? 0) = (num a <? num b).
Proof. intros Ha Hb. rewrite Compare32_ok by assumption. unfold Z.ltb. now destruct (num a ?= num b). Qed.

Lemma Compare32_eq d a b : u256 a -> u256 b -> (Compare32 d a b =? 0) = (num a =? num b).
Proof. intros Ha Hb. rewrite Compare32_ok, (Z.eqb_compare (num a)) by assumption. now destruct (num a ?= num b). Qed.

(** ** Products term by term *)

Section Terms.

Variables (r : Z) (product : list Z).
Hypothesis Hr : 1 < r.

Definition sum_terms (ts : list term) : Z := fold_right (fun t s => eval_term r product t + s) 0 ts.

Lemma column_sum ts : column r product ts = sum_terms ts mod r ^ 2.
Proof.
  unfold column. assert (M : 0 < r ^ 2) by (apply Z.pow_pos_nonneg; lia).
  assert (G : forall l s, fold_left (fun s t => (s + eval_term r product t) mod r ^ 2) l s mod r ^ 2 = (s + sum_terms l) mod r ^ 2).
  { induction l as [|t l IH]; intros s; cbn [fold_left sum_terms fold_right]; [now rewrite Z.add_0_r|].
    rewrite IH, Zplus_mod_idemp_l. f_equal. unfold sum_terms. ring. }
  destruct ts as [|t ts] using rev_ind; [reflexivity|]. specialize (G (ts ++ [t]) 0). rewrite Z.add_0_l in G. rewrite <- G.
  rewrite fold_left_app. cbn [fold_left]. now rewrite Zmod_mod.
Qed.

(** The columns as digits, most of them too large. *)
Fixpoint cols_val (cols : list (list term)) : Z :=
  match cols with [] => 0 | c :: cols' => sum_terms c + r * cols_val cols' end.

(** A window is added above the digits that are final. *)
Lemma add_window_ok done x m s : 0 <= x < r -> 0 <= s -> x + s < r ^ 2 ->
  add_window r (done ++ x :: repeat 0 (S m)) (length done) s = (done ++ [(x + s) mod r]) ++ (x + s) / r :: repeat 0 m.
Proof.
  intros Hx Hs HB. unfold add_window.
  rewrite app_nth2, Nat.sub_diag by lia. cbn [nth repeat].
  replace (nth (S (length done)) (done ++ x :: 0 :: repeat 0 m) 0) with 0.
  2:{ rewrite app_nth2 by lia. replace (S (length done) - length done)%nat with 1%nat by lia. reflexivity. }
  rewrite Z.mul_0_r, Z.add_0_r, (Z.mod_small (x + s)) by lia.
  rewrite upd_middle. change (done ++ (x + s) mod r :: 0 :: repeat 0 m) with (done ++ [(x + s) mod r] ++ 0 :: repeat 0 m).
  rewrite app_assoc. replace (S (length done)) with (length (done ++ [(x + s) mod r])) by (rewrite length_app; cbn; lia).
  apply upd_middle.
Qed.

Lemma add_windows_ok cols : forall done x m, 0 <= x < r ->
  (length cols = m)%nat -> Forall (fun c => 0 <= sum_terms c) cols ->
  Forall (fun c => sum_terms c + r <= r ^ 2) (removelast cols) ->
  x + cols_val cols < r ^ Z.of_nat (S m) -> rdigs r done ->
  let po := add_windows r product (length done) cols (done ++ x :: repeat 0 m) in
  length po = (length done + S m)%nat /\ rdigs r po /\ rval r po = rval r done + r ^ Z.of_nat (length done) * (x + cols_val cols).
Proof.
  induction cols as [|c cols IH]; intros done x m Hx HL Hp Hb HT HD; cbn [add_windows cols_val length] in *.
  - subst m. cbn [repeat]. rewrite length_app, rval_app. cbn [length rval]. split; [lia|]. split; [|ring].
    apply rdigs_app; [exact HD|]. constructor; [lia|constructor].
  - destruct m as [|m]; [lia|]. apply Forall_cons_iff in Hp as [Hc Hp].
    assert (HV : 0 <= cols_val cols).
    { clear -Hp Hr. induction Hp as [|c' l H _ IH]; cbn [cols_val]; [lia|nia]. }
    assert (HX : x + sum_terms c < r ^ 2).
    { destruct cols as [|c' cols]; [cbn in HL; replace m with 0%nat in HT by lia; cbn [cols_val] in HT;
        change (Z.of_nat 2) with 2 in HT; lia|]. cbn [removelast] in Hb. apply Forall_cons_iff in Hb as [Hb _]. lia. }
    assert (HC : column r product c = sum_terms c) by (rewrite column_sum; apply Z.mod_small; lia).
    rewrite HC, add_window_ok by lia.
    pose proof (Z.mod_pos_bound (x + sum_terms c) r ltac:(lia)) as M. pose proof (Z.div_mod (x + sum_terms c) r ltac:(lia)) as DM.
    assert (HQ : 0 <= (x + sum_terms c) / r < r).
    { split; [apply Z.div_pos; lia|]. apply Z.div_lt_upper_bound; [lia|]. rewrite <- Z.pow_2_r. exact HX. }
    specialize (IH (done ++ [(x + sum_terms c) mod r]) ((x + sum_terms c) / r) m HQ ltac:(lia) Hp).
    replace (length (done ++ [(x + sum_terms c) mod r])) with (S (length done)) in IH by (rewrite length_app; cbn; lia).
    destruct IH as (L & D & E).
    + destruct cols; [constructor|]. cbn [removelast] in Hb. now apply Forall_cons_iff in Hb.
    + rewrite Nat2Z.inj_succ, Z.pow_succ_r in HT by lia. nia.
    + apply rdigs_app; [exact HD|repeat constructor; lia].
    + split; [lia|]. split; [exact D|]. rewrite E, rval_app. cbn [rval]. rewrite Nat2Z.inj_succ, Z.pow_succ_r by lia. nia.
Qed.

End Terms.

(** *** The tables are checked by counting

    Every half of every product occurs once, in the column of its weight. *)

(** The halves a column adds, with their weights. *)
Definition term_weights (i : nat) (t : term) : list (nat * nat) :=
  match t with P k => [(i, k)] | W k => [(i, (2 * k)%nat); (S i, S (2 * k))] end.
Fixpoint col_weights (i : nat) (cols : list (list term)) : list (nat * nat) :=
  match cols with [] => [] | c :: cols' => flat_map (term_weights i) c ++ col_weights (S i) cols' end.

(** The halves of the products [ij], with their weights. *)
Fixpoint product_weights (k : nat) (ij : list (nat * nat)) : list (nat * nat) :=
  match ij with [] => [] | (i, j) :: ij' => (i + j, 2 * k)%nat :: (S (i + j), S (2 * k)) :: product_weights (S k) ij' end.

Definition pair_dec (x y : nat * nat) : {x = y} + {x <> y}.
Proof. decide equality; apply Nat.eq_dec. Defined.

Definition same_bag (l1 l2 : list (nat * nat)) : bool :=
  forallb (fun x => Nat.eqb (count_occ pair_dec l1 x) (count_occ pair_dec l2 x)) (l1 ++ l2).

Lemma same_bag_ok l1 l2 : same_bag l1 l2 = true -> Permutation l1 l2.
Proof.
  intros H. apply (Permutation_count_occ pair_dec). intros x. unfold same_bag in H. rewrite forallb_forall in H.
  destruct (in_dec pair_dec x (l1 ++ l2)) as [I|N]; [now apply Nat.eqb_eq, H|].
  rewrite in_app_iff in N. rewrite (proj1 (count_occ_not_In pair_dec l1 x)), (proj1 (count_occ_not_In pair_dec l2 x)); tauto.
Qed.

Definition table_ok (m n : nat) (ij : list (nat * nat)) (cols : list (list term)) : bool :=
  same_bag ij (list_prod (seq 0 m) (seq 0 n)) && same_bag (col_weights 0 cols) (product_weights 0 ij).

(** A sum over weights. *)
Definition wsum (r : Z) (p : list Z) (l : list (nat * nat)) : Z :=
  fold_right (fun x s => r ^ Z.of_nat (fst x) * nth (snd x) p 0 + s) 0 l.

Lemma wsum_app r p l1 l2 : wsum r p (l1 ++ l2) = wsum r p l1 + wsum r p l2.
Proof. induction l1 as [|x l1 IH]; cbn [app wsum fold_right]; [reflexivity|]. unfold wsum in IH. rewrite IH. unfold wsum. ring. Qed.

Lemma wsum_perm r p l1 l2 : Permutation l1 l2 -> wsum r p l1 = wsum r p l2.
Proof. induction 1; cbn [wsum fold_right]; try congruence; unfold wsum in *; lia. Qed.

(** The array of products as words of radix [r]. *)
Definition halves (r : Z) (product : list Z) : list Z := flat_map (fun x => [x mod r; x / r]) product.

Lemma nth_halves r product k : nth (2 * k) (halves r product) 0 = nth k product 0 mod r /\
  nth (S (2 * k)) (halves r product) 0 = nth k product 0 / r.
Proof.
  revert k. induction product as [|x l IH]; intros k.
  - rewrite Zmod_0_l, Zdiv_0_l || idtac. now destruct k.
  - destruct k as [|k]; [easy|]. destruct (IH k) as [E1 E2]. split.
    + replace (2 * S k)%nat with (S (S (2 * k))) by lia. exact E1.
    + replace (2 * S k)%nat with (S (S (2 * k))) by lia. exact E2.
Qed.

Lemma half_at_ok r product i : half_at r product i = nth i (halves r product) 0.
Proof.
  unfold half_at. destruct (Nat.Even_or_Odd i) as [[k ->]|[k ->]]; destruct (nth_halves r product k) as [E1 E2].
  - rewrite Nat.even_mul, Nat.div2_double. cbn [Nat.even orb]. now rewrite E1.
  - rewrite Nat.even_add, Nat.even_mul, Nat.add_1_r, Nat.div2_succ_double. cbn [Nat.even orb eqb Bool.eqb]. now rewrite E2.
Qed.

Lemma term_weights_val r product i t : 1 < r ->
  r ^ Z.of_nat i * eval_term r product t = wsum r (halves r product) (term_weights i t).
Proof.
  intros Hr. destruct t as [k|k]; cbn [eval_term term_weights wsum fold_right fst snd]; [rewrite half_at_ok; ring|].
  destruct (nth_halves r product k) as [-> ->]. rewrite Nat2Z.inj_succ, Z.pow_succ_r by lia.
  rewrite (Z.div_mod (nth k product 0) r) at 1 by lia. ring.
Qed.

Lemma col_weights_val r product cols : 1 < r -> forall i,
  r ^ Z.of_nat i * cols_val r product cols = wsum r (halves r product) (col_weights i cols).
Proof.
  intros Hr. induction cols as [|c cols IH]; intros i; cbn [cols_val col_weights]; [now rewrite Z.mul_0_r|].
  rewrite wsum_app, <- IH, Nat2Z.inj_succ, Z.pow_succ_r by lia.
  replace (wsum r (halves r product) (flat_map (term_weights i) c)) with (r ^ Z.of_nat i * sum_terms r product c); [ring|].
  induction c as [|t c IHc]; cbn [sum_terms fold_right flat_map]; [now rewrite Z.mul_0_r|].
  rewrite wsum_app, <- IHc, <- term_weights_val by exact Hr. unfold sum_terms. ring.
Qed.

(** The sum of the products. *)
Definition psum (r : Z) (p1 p2 : list Z) (ij : list (nat * nat)) : Z :=
  fold_right (fun x s => r ^ Z.of_nat (fst x + snd x) * (nth (fst x) p1 0 * nth (snd x) p2 0) + s) 0 ij.

Lemma psum_app r p1 p2 l1 l2 : psum r p1 p2 (l1 ++ l2) = psum r p1 p2 l1 + psum r p1 p2 l2.
Proof. induction l1 as [|x l1 IH]; cbn [app psum fold_right]; [reflexivity|]. unfold psum in IH. rewrite IH. unfold psum. ring. Qed.

Lemma psum_perm r p1 p2 l1 l2 : Permutation l1 l2 -> psum r p1 p2 l1 = psum r p1 p2 l2.
Proof. induction 1; cbn [psum fold_right]; try congruence; unfold psum in *; lia. Qed.

Lemma products_app p1 p2 l1 l2 : products p1 p2 (l1 ++ l2) = products p1 p2 l1 ++ products p1 p2 l2.
Proof. apply map_app. Qed.

Lemma product_weights_val r p1 p2 ij : 1 < r -> forall pre,
  wsum r (halves r (products p1 p2 (pre ++ ij))) (product_weights (length pre) ij) = psum r p1 p2 ij.
Proof.
  intros Hr. induction ij as [|[i j] ij IH]; intros pre; cbn [product_weights wsum psum fold_right fst snd]; [reflexivity|].
  specialize (IH (pre ++ [(i, j)])). rewrite <- app_assoc in IH. cbn [app] in IH.
  replace (length (pre ++ [(i, j)])) with (S (length pre)) in IH by (rewrite length_app; cbn; lia).
  unfold wsum in IH at 1. unfold psum in IH at 1. rewrite IH.
  destruct (nth_halves r (products p1 p2 (pre ++ (i, j) :: ij)) (length pre)) as [-> ->].
  rewrite products_app. replace (length pre) with (length (products p1 p2 pre)) by apply length_map.
  rewrite app_nth2, Nat.sub_diag by lia. cbn [products map nth].
  rewrite Nat2Z.inj_succ, Z.pow_succ_r by lia. rewrite (Z.div_mod (nth i p1 0 * nth j p2 0) r) at 3 by lia. ring.
Qed.

(** All products. *)
Lemma rval_sum r l : forall k, fold_right (fun i s => r ^ Z.of_nat i * nth (i - k) l 0 + s) 0 (seq k (length l)) = r ^ Z.of_nat k * rval r l.
Proof.
  induction l as [|x l IH]; intros k; cbn [length seq fold_right rval]; [ring|].
  rewrite Nat.sub_diag. cbn [nth].
  replace (fold_right _ 0 (seq (S k) (length l))) with (r ^ Z.of_nat (S k) * rval r l).
  - rewrite Nat2Z.inj_succ, Z.pow_succ_r by lia. ring.
  - rewrite <- IH. assert (G : forall n, (forall i, In i n -> (k < i)%nat) ->
      fold_right (fun i s => r ^ Z.of_nat i * nth (i - S k) l 0 + s) 0 n = fold_right (fun i s => r ^ Z.of_nat i * nth (i - k) (x :: l) 0 + s) 0 n).
    { induction n as [|i n IHn]; intros Hn; cbn [fold_right]; [reflexivity|]. rewrite IHn by (intros; apply Hn; now right).
      f_equal. f_equal. assert (k < i)%nat by (apply Hn; now left). replace (i - k)%nat with (S (i - S k)) by lia. reflexivity. }
    apply G. intros i Hi. apply in_seq in Hi. lia.
Qed.

Lemma rval_sum0 r l : fold_right (fun i s => r ^ Z.of_nat i * nth i l 0 + s) 0 (seq 0 (length l)) = rval r l.
Proof.
  pose proof (rval_sum r l 0) as H. rewrite Z.pow_0_r, Z.mul_1_l in H. rewrite <- H.
  clear H. induction (seq 0 (length l)) as [|i n IH]; cbn [fold_right]; [reflexivity|]. rewrite IH. now rewrite (Nat.sub_0_r i).
Qed.

Lemma psum_all r p1 p2 : psum r p1 p2 (list_prod (seq 0 (length p1)) (seq 0 (length p2))) = rval r p1 * rval r p2.
Proof.
  rewrite <- (rval_sum0 r p1). induction (seq 0 (length p1)) as [|i l IH]; cbn [list_prod fold_right]; [reflexivity|].
  rewrite psum_app, IH, Z.mul_add_distr_r. f_equal. clear IH. rewrite <- (rval_sum0 r p2).
  induction (seq 0 (length p2)) as [|j l' IH']; cbn [map psum fold_right fst snd]; [ring|].
  unfold psum in IH'. rewrite IH', (Nat2Z.inj_add i j), (Z.pow_add_r r (Z.of_nat i) (Z.of_nat j)) by lia. ring.
Qed.

Lemma table_val r m n ij cols p1 p2 : 1 < r -> table_ok m n ij cols = true -> length p1 = m -> length p2 = n ->
  cols_val r (products p1 p2 ij) cols = rval r p1 * rval r p2.
Proof.
  intros Hr HT <- <-. apply andb_true_iff in HT as [T1 T2]. apply same_bag_ok in T1, T2.
  pose proof (col_weights_val r (products p1 p2 ij) cols Hr 0) as E. rewrite Z.pow_0_r, Z.mul_1_l in E.
  pose proof (product_weights_val r p1 p2 ij Hr []) as E'. cbn [app length] in E'.
  rewrite E, (wsum_perm _ _ _ _ T2), E', (psum_perm _ _ _ _ _ T1). apply psum_all.
Qed.

(** The columns before the last add few halves, and the first is the lowest half. *)
Definition small_column (c : list term) : bool :=
  forallb (fun t => match t with P _ => true | W _ => false end) c && (length c <? 32)%nat.
Definition window_table_ok (m n : nat) (ij : list (nat * nat)) (cols : list (list term)) : bool :=
  table_ok m n ij cols && forallb small_column (removelast cols) && Nat.eqb (S (length cols)) (m + n) &&
  match cols with [P 0] :: _ :: _ => true | _ => false end.

Lemma products_bound r p1 p2 ij k : 1 < r -> rdigs r p1 -> rdigs r p2 -> 0 <= nth k (products p1 p2 ij) 0 < r ^ 2.
Proof.
  intros Hr H1 H2. unfold products. destruct (nth_in_or_default k (map (fun '(i, j) => nth i p1 0 * nth j p2 0) ij) 0) as [I| ->];
    [|split; [lia|apply Z.pow_pos_nonneg; lia]].
  apply in_map_iff in I as ([i j] & <- & _).
  pose proof (rdigs_nth r p1 i ltac:(lia) H1). pose proof (rdigs_nth r p2 j ltac:(lia) H2). rewrite Z.pow_2_r. nia.
Qed.

Lemma eval_term_bound r p1 p2 ij t : 1 < r -> rdigs r p1 -> rdigs r p2 ->
  0 <= eval_term r (products p1 p2 ij) t /\ (match t with P _ => True | W _ => False end -> eval_term r (products p1 p2 ij) t < r).
Proof.
  intros Hr H1 H2. destruct t as [i|k]; cbn [eval_term]; [rewrite half_at_ok|split; [exact (proj1 (products_bound r p1 p2 ij k Hr H1 H2))|contradiction]].
  destruct (Nat.Even_or_Odd i) as [[k ->]|[k ->]]; [|rewrite Nat.add_1_r];
    destruct (nth_halves r (products p1 p2 ij) k) as [E1 E2]; rewrite ?E1, ?E2;
    pose proof (products_bound r p1 p2 ij k Hr H1 H2) as B; rewrite Z.pow_2_r in B.
  - pose proof (Z.mod_pos_bound (nth k (products p1 p2 ij) 0) r ltac:(lia)). lia.
  - split; [apply Z.div_pos; lia|]. intros _. apply Z.div_lt_upper_bound; lia.
Qed.

Lemma sum_terms_nonneg r p1 p2 ij c : 1 < r -> rdigs r p1 -> rdigs r p2 -> 0 <= sum_terms r (products p1 p2 ij) c.
Proof.
  intros Hr H1 H2. induction c as [|t c IH]; cbn [sum_terms fold_right]; [lia|].
  pose proof (proj1 (eval_term_bound r p1 p2 ij t Hr H1 H2)). unfold sum_terms in IH. lia.
Qed.

Lemma small_column_sum r p1 p2 ij c : 64 <= r -> rdigs r p1 -> rdigs r p2 -> small_column c = true ->
  sum_terms r (products p1 p2 ij) c < 32 * r.
Proof.
  intros Hr H1 H2 HC. apply andb_true_iff in HC as [HP HL]. apply Nat.ltb_lt in HL.
  assert (G : sum_terms r (products p1 p2 ij) c <= Z.of_nat (length c) * r).
  { clear HL. induction c as [|t c IH]; cbn [sum_terms fold_right forallb length] in *; [lia|].
    apply andb_true_iff in HP as [Ht HP]. specialize (IH HP).
    pose proof (proj2 (eval_term_bound r p1 p2 ij t ltac:(lia) H1 H2)) as B. unfold sum_terms in IH. destruct t; [specialize (B I); lia|discriminate]. }
  nia.
Qed.

Lemma small_column_bound r p1 p2 ij c : 64 <= r -> rdigs r p1 -> rdigs r p2 -> small_column c = true ->
  sum_terms r (products p1 p2 ij) c + r <= r ^ 2.
Proof. intros Hr H1 H2 HC. pose proof (small_column_sum r p1 p2 ij c Hr H1 H2 HC). rewrite Z.pow_2_r. nia. Qed.

Lemma set_window_zero r po i s : 1 < r -> nth i po 0 = 0 -> nth (S i) po 0 = 0 -> 0 <= s < r ^ 2 ->
  set_window r po i s = add_window r po i s.
Proof. intros Hr E1 E2 Hs. unfold set_window, add_window. rewrite E1, E2. replace (0 + r * 0 + s) with s by lia. now rewrite (Z.mod_small s (r ^ 2) Hs). Qed.

Lemma window_product_ok r m n ij cols p1 p2 : 64 <= r -> window_table_ok m n ij cols = true ->
  length p1 = m -> length p2 = n -> rdigs r p1 -> rdigs r p2 ->
  let po := window_product r p1 p2 ij cols (m + n) in
  length po = (m + n)%nat /\ rdigs r po /\ rval r po = rval r p1 * rval r p2.
Proof.
  intros Hr HT L1 L2 H1 H2. apply andb_true_iff in HT as [HT H0]. apply andb_true_iff in HT as [HT HN].
  apply andb_true_iff in HT as [HT HS]. apply Nat.eqb_eq in HN.
  pose proof (table_val r m n ij cols p1 p2 ltac:(lia) HT L1 L2) as HV.
  destruct cols as [|c0 [|c1 cols]]; try discriminate H0; [destruct c0 as [|[[|]|] [|]]; discriminate H0|].
  assert (E0 : c0 = [P 0]) by (destruct c0 as [|[[|]|] [|]]; try discriminate H0; reflexivity). subst c0. cbn [length] in HN.
  set (product := products p1 p2 ij) in *. unfold window_product. fold product.
  assert (Hm : exists k, (m + n = S (S k))%nat /\ length (c1 :: cols) = k) by (exists (S (length cols)); cbn; lia).
  destruct Hm as (k & Ek & Lk). rewrite Ek. cbn [repeat upd].
  assert (S0 : sum_terms r product [P 0] = nth 0 product 0 mod r).
  { cbn [sum_terms fold_right eval_term]. rewrite Z.add_0_r. reflexivity. }
  pose proof (Z.mod_pos_bound (nth 0 product 0) r ltac:(lia)) as B0.
  assert (C0 : column r product [P 0] = nth 0 product 0 mod r).
  { rewrite column_sum, S0 by lia. apply Z.mod_small. rewrite Z.pow_2_r. nia. }
  rewrite C0. assert (B1 : 0 <= column r product c1 < r ^ 2) by (rewrite column_sum by lia; apply Z.mod_pos_bound, Z.pow_pos_nonneg; lia).
  destruct k as [|k]; [discriminate Lk|]. rewrite set_window_zero by (lia || reflexivity).
  pose proof (add_windows_ok r product ltac:(lia) (c1 :: cols) [nth 0 product 0 mod r] 0 (S k) ltac:(lia) Lk) as G.
  cbn [app length] in G. change (repeat 0 (S k)) with (0 :: repeat 0 k) in *.
  change (add_windows r product 2 cols (add_window r (nth 0 product 0 mod r :: 0 :: 0 :: repeat 0 k) 1 (column r product c1)))
    with (add_windows r product 1 (c1 :: cols) (nth 0 product 0 mod r :: 0 :: 0 :: repeat 0 k)).
  destruct G as (L & D & E).
  - apply Forall_forall. intros c _. apply sum_terms_nonneg; auto; lia.
  - apply Forall_forall. intros c Hc. apply small_column_bound; auto. rewrite forallb_forall in HS. apply HS.
    cbn [removelast] in *. now right.
  - cbn [cols_val] in HV. rewrite S0 in HV. pose proof (rval_bound r p1 ltac:(lia) H1) as V1. pose proof (rval_bound r p2 ltac:(lia) H2) as V2.
    rewrite L1 in V1. rewrite L2 in V2. assert (V : rval r p1 * rval r p2 < r ^ Z.of_nat (m + n)).
    { rewrite Nat2Z.inj_add, Z.pow_add_r by lia. nia. }
    rewrite <- HV, Ek, Nat2Z.inj_succ, Z.pow_succ_r in V by lia. cbn [cols_val] in *. nia.
  - constructor; [lia|constructor].
  - split; [lia|]. split; [exact D|]. rewrite E, <- HV. cbn [cols_val rval length]. rewrite S0. change (Z.of_nat 1) with 1. ring.
Qed.

(** *** The routines that multiply *)

(** Buffers of [k] 64-bit words. *)
Definition buf (k : nat) (l : list Z) : Prop := length l = k /\ rdigs (2 ^ 64) l.

Lemma half_limbs_ok d n l : buf n l ->
  length (half_limbs d n l) = (if d then n else 2 * n)%nat /\ rdigs (2 ^ half_bits d) (half_limbs d n l) /\
  rval (2 ^ half_bits d) (half_limbs d n l) = num l.
Proof. intros [L H]. apply cast_ok; auto; try (destruct d; cbn; lia). rewrite L. destruct d; cbn [half_bits]; lia. Qed.

Lemma half_radix d : 64 <= 2 ^ half_bits d.
Proof. destruct d; cbn; lia. Qed.

(** Words beyond the windows are not touched. *)
Lemma upd_app_l l t i x : (i < length l)%nat -> upd (l ++ t) i x = upd l i x ++ t.
Proof.
  revert i. induction l as [|y l IH]; intros [|i] Hi; cbn [length app upd] in *; try lia; [reflexivity|].
  now rewrite IH by lia.
Qed.

Lemma add_window_app r po t i s : (S i < length po)%nat -> add_window r (po ++ t) i s = add_window r po i s ++ t.
Proof. intros Hi. unfold add_window. rewrite !app_nth1 by lia. rewrite upd_app_l by lia. apply upd_app_l. now rewrite length_upd. Qed.

Lemma length_add_window r po i s : length (add_window r po i s) = length po.
Proof. unfold add_window. now rewrite !length_upd. Qed.

Lemma add_windows_app r product cols : forall i po t, (i + length cols < length po)%nat ->
  add_windows r product i cols (po ++ t) = add_windows r product i cols po ++ t.
Proof.
  induction cols as [|c cols IH]; intros i po t Hi; cbn [add_windows length] in *; [reflexivity|].
  rewrite add_window_app by lia. apply IH. rewrite length_add_window. lia.
Qed.

Lemma window_product_app r p1 p2 ij cols n e : (S (length cols) <= n)%nat -> (2 <= length cols)%nat ->
  window_product r p1 p2 ij cols (n + e) = window_product r p1 p2 ij cols n ++ repeat 0 e.
Proof.
  intros Hn Hc. unfold window_product. destruct cols as [|c0 [|c1 cols]]; cbn [length] in *; try lia.
  destruct n as [|[|[|n]]]; try lia. rewrite repeat_app. rewrite upd_app_l by (rewrite repeat_length; lia).
  assert (L : length (upd (repeat 0 (S (S (S n)))) 0 (column r (products p1 p2 ij) c0)) = S (S (S n))) by now rewrite length_upd, repeat_length.
  unfold set_window at 1. rewrite !upd_app_l by (rewrite ?length_upd, ?repeat_length; lia).
  rewrite add_windows_app; [reflexivity|]. rewrite !length_upd, repeat_length. lia.
Qed.

Lemma run_product_ok (d : bool) n1 n2 e p1 p2 ij cols :
  window_table_ok (if d then n1 else 2 * n1)%nat (if d then n2 else 2 * n2)%nat ij cols = true -> buf n1 p1 -> buf n2 p2 ->
  buf (n1 + n2 + e) (run_product d n1 n2 p1 p2 ij cols (n1 + n2 + e)) /\
  num (run_product d n1 n2 p1 p2 ij cols (n1 + n2 + e)) = num p1 * num p2.
Proof.
  intros HT H1 H2. destruct (half_limbs_ok d n1 p1 H1) as (L1 & D1 & E1), (half_limbs_ok d n2 p2 H2) as (L2 & D2 & E2).
  destruct (window_product_ok _ _ _ ij cols _ _ (half_radix d) HT L1 L2 D1 D2) as (L & D & E). rewrite E1, E2 in E.
  assert (C : (2 <= length cols)%nat /\ S (length cols) = ((if d then n1 else 2 * n1) + (if d then n2 else 2 * n2))%nat).
  { apply andb_true_iff in HT as [HT H0]. apply andb_true_iff in HT as [_ HN]. apply Nat.eqb_eq in HN. split; [|exact HN].
    destruct cols as [|[|[[|]|] [|]] [|]]; try discriminate H0; cbn; lia. }
  destruct C as [C1 C2]. unfold run_product.
  replace (if d then (n1 + n2 + e)%nat else (2 * (n1 + n2 + e))%nat)
    with ((if d then n1 else 2 * n1) + (if d then n2 else 2 * n2) + (if d then e else 2 * e))%nat by (destruct d; lia).
  rewrite window_product_app by lia.
  destruct (cast_ok (half_bits d) 64 (n1 + n2 + e) (window_product (2 ^ half_bits d) (half_limbs d n1 p1) (half_limbs d n2 p2) ij cols
              ((if d then n1 else 2 * n1) + (if d then n2 else 2 * n2)) ++ repeat 0 (if d then e else 2 * e)%nat)) as (L' & D' & E').
  - destruct d; cbn; lia.
  - lia.
  - apply rdigs_app; [exact D|]. apply rdigs_repeat0. pose proof (half_radix d). lia.
  - rewrite length_app, repeat_length, L. destruct d; cbn [half_bits]; lia.
  - split; [now split|]. unfold num. rewrite E', rval_pad. exact E.
Qed.

Lemma num_1 x : num [x] = x.
Proof. unfold num. cbn [rval]. lia. Qed.

Lemma buf_1 x : 0 <= x < 2 ^ 64 -> buf 1 [x].
Proof. intros H. split; [reflexivity|repeat constructor; lia]. Qed.

Lemma Multiply8_8_ok d a b : 0 <= a < 2 ^ 64 -> 0 <= b < 2 ^ 64 ->
  buf 2 (Multiply8_8 d [a] [b]) /\ num (Multiply8_8 d [a] [b]) = a * b.
Proof.
  intros Ha Hb. unfold Multiply8_8. destruct d.
  - cbn [nth]. split; [split; [apply length_rdig|apply rdigs_rdig; lia]|]. unfold num. rewrite rval_rdig by lia.
    apply Z.mod_small. change ((2 ^ 64) ^ Z.of_nat 2) with (2 ^ 64 * 2 ^ 64). nia.
  - pose proof (run_product_ok false 1 1 0 [a] [b] Multiply8_8_plain_products Multiply8_8_plain_columns ltac:(vm_compute; reflexivity) (buf_1 a Ha) (buf_1 b Hb)) as H.
    rewrite !num_1 in H. exact H.
Qed.

Lemma Multiply16_8_ok d p1 b : buf 2 p1 -> 0 <= b < 2 ^ 64 ->
  u256 (Multiply16_8 d p1 [b]) /\ num (Multiply16_8 d p1 [b]) = num p1 * b.
Proof.
  intros H1 Hb. unfold Multiply16_8. destruct d;
    [pose proof (run_product_ok true 2 1 1 p1 [b] Multiply16_8_int128_products Multiply16_8_int128_columns ltac:(vm_compute; reflexivity) H1 (buf_1 b Hb)) as H
    |pose proof (run_product_ok false 2 1 1 p1 [b] Multiply16_8_plain_products Multiply16_8_plain_columns ltac:(vm_compute; reflexivity) H1 (buf_1 b Hb)) as H];
    rewrite num_1 in H; exact H.
Qed.

Lemma Multiply32_32_ok d p1 p2 : u256 p1 -> u256 p2 ->
  buf 8 (Multiply32_32 d p1 p2) /\ num (Multiply32_32 d p1 p2) = num p1 * num p2.
Proof.
  intros H1 H2. unfold Multiply32_32. destruct d;
    [exact (run_product_ok true 4 4 0 p1 p2 Multiply32_32_int128_products Multiply32_32_int128_columns ltac:(vm_compute; reflexivity) H1 H2)
    |exact (run_product_ok false 4 4 0 p1 p2 Multiply32_32_plain_products Multiply32_32_plain_columns ltac:(vm_compute; reflexivity) H1 H2)].
Qed.

(** Mul32 leaves the carries in the columns. *)
Lemma Mul32_ok d p1 p2 : u256 p1 -> u256 p2 ->
  length (Mul32 d p1 p2) = (if d then 8 else 16)%nat /\
  Forall (fun c => 0 <= c < 32 * 2 ^ half_bits d) (Mul32 d p1 p2) /\
  rval (2 ^ half_bits d) (Mul32 d p1 p2) = num p1 * num p2.
Proof.
  intros H1 H2. destruct (half_limbs_ok d 4 p1 H1) as (L1 & D1 & <-), (half_limbs_ok d 4 p2 H2) as (L2 & D2 & <-).
  unfold Mul32. set (r := 2 ^ half_bits d) in *. pose proof (half_radix d) as R. fold r in R.
  set (ij := if d then Mul32_int128_products else Mul32_plain_products).
  set (cols := if d then Mul32_int128_columns else Mul32_plain_columns).
  replace (let '(ij, cols) := _ in _) with (map (column r (products (half_limbs d 4 p1) (half_limbs d 4 p2) ij)) cols) by now destruct d.
  assert (T : table_ok (if d then 4 else 2 * 4)%nat (if d then 4 else 2 * 4)%nat ij cols = true /\ forallb small_column cols = true /\
              length cols = (if d then 8 else 16)%nat) by (destruct d; vm_compute; auto).
  destruct T as (T1 & T2 & T3). rewrite forallb_forall in T2.
  assert (C : forall c, In c cols -> column r (products (half_limbs d 4 p1) (half_limbs d 4 p2) ij) c =
              sum_terms r (products (half_limbs d 4 p1) (half_limbs d 4 p2) ij) c).
  { intros c Hc. rewrite column_sum by lia. apply Z.mod_small. split; [apply sum_terms_nonneg; auto; lia|].
    pose proof (small_column_bound r _ _ ij c R D1 D2 (T2 c Hc)). lia. }
  rewrite length_map. split; [exact T3|]. split.
  - apply Forall_forall. intros x Hx. apply in_map_iff in Hx as (c & <- & Hc). rewrite C by exact Hc.
    split; [apply sum_terms_nonneg; auto; lia|]. apply small_column_sum; auto.
  - rewrite <- (table_val r _ _ ij cols _ _ ltac:(lia) T1 L1 L2). clear -C.
    induction cols as [|c cols IH]; cbn [map rval cols_val]; [reflexivity|]. rewrite C, IH by (intros; try apply C; cbn; auto). reflexivity.
Qed.

(** ** Tests, halves and shifts *)

Lemma buffer_bytes l : u256 l -> length (cast 64 8 32 l) = 32%nat /\ rdigs (2 ^ 8) (cast 64 8 32 l) /\ rval (2 ^ 8) (cast 64 8 32 l) = num l.
Proof. intros [L H]. apply cast_ok; auto; rewrite ?L; lia. Qed.

Lemma u256_words l : u256 l -> exists a b c d, l = [a; b; c; d] /\
  0 <= a < 2 ^ 64 /\ 0 <= b < 2 ^ 64 /\ 0 <= c < 2 ^ 64 /\ 0 <= d < 2 ^ 64.
Proof.
  intros [L H]. destruct l as [|a [|b [|c [|d [|]]]]]; try discriminate L. exists a, b, c, d.
  unfold rdigs in H. rewrite !Forall_cons_iff in H. tauto.
Qed.

Lemma lor4_zero a b c d : 0 <= a -> 0 <= b -> 0 <= c -> 0 <= d ->
  (Z.lor (Z.lor (Z.lor a b) c) d =? 0) = (a =? 0) && (b =? 0) && (c =? 0) && (d =? 0).
Proof. intros. apply eq_true_iff_eq. rewrite !andb_true_iff, !Z.eqb_eq, !Z.lor_eq_0_iff. tauto. Qed.

Lemma IsZero32_ok l : u256 l -> IsZero32 l = (num l =? 0).
Proof.
  intros H. destruct (u256_words l H) as (a & b & c & d & -> & Ha & Hb & Hc & Hd).
  unfold IsZero32, num. cbn [nth rval]. rewrite lor4_zero by lia. apply eq_true_iff_eq. rewrite !andb_true_iff, !Z.eqb_eq. lia.
Qed.

Lemma IsOne32_ok l : u256 l -> IsOne32 l = (num l =? 1).
Proof.
  intros H. destruct (u256_words l H) as (a & b & c & d & -> & Ha & Hb & Hc & Hd).
  unfold IsOne32, num. cbn [nth rval]. pose proof (Z.mod_pos_bound (a - 1) (2 ^ 64) ltac:(lia)). rewrite lor4_zero by lia.
  assert (E : ((a - 1) mod 2 ^ 64 =? 0) = (a =? 1)).
  { apply eq_true_iff_eq. rewrite !Z.eqb_eq. destruct (Z.eq_dec a 0) as [->|N]; [vm_compute; intuition discriminate|]. rewrite Z.mod_small; lia. }
  rewrite E. apply eq_true_iff_eq. rewrite !andb_true_iff, !Z.eqb_eq. lia.
Qed.

Lemma IsEven_ok l : u256 l -> IsEven l = Z.even (num l).
Proof.
  intros H. destruct (buffer_bytes l H) as (L & D & E). unfold IsEven. rewrite (nth_rval (2 ^ 8) _ ltac:(lia) D 0), E.
  rewrite Z.pow_0_r, Z.div_1_r. change 1 with (Z.ones 1). rewrite Z.land_ones by lia. change (2 ^ 1) with 2.
  rewrite Z.mod_mod_divide by (exists (2 ^ 7); reflexivity). rewrite Zmod_even. now destruct (Z.even (num l)).
Qed.

(** The sign of a buffer. *)
Definition snum (l : list Z) : Z := signed 256 (num l).

Lemma sign_byte l : u256 l -> negb (Z.land (nth 31 (cast 64 8 32 l) 0) 128 =? 0) = (2 ^ 255 <=? num l).
Proof.
  intros H. destruct (buffer_bytes l H) as (L & D & E). pose proof (num_bound l H) as B.
  rewrite (nth_rval (2 ^ 8) _ ltac:(lia) D 31), E. change ((2 ^ 8) ^ Z.of_nat 31) with (2 ^ 248).
  assert (Q : 0 <= num l / 2 ^ 248 < 2 ^ 8) by (split; [apply Z.div_pos; lia|apply Z.div_lt_upper_bound; lia]).
  rewrite (Z.mod_small (num l / 2 ^ 248)) by exact Q.
  assert (T : Z.testbit (num l / 2 ^ 248) 7 = (2 ^ 255 <=? num l)).
  { rewrite <- Z.shiftr_div_pow2, Z.shiftr_spec by lia. change (7 + 248) with 255.
    apply eq_true_iff_eq. rewrite Z.testbit_true, Z.leb_le by lia.
    destruct (Z.lt_ge_cases (num l) (2 ^ 255)) as [L1|L1].
    - rewrite Z.div_small by lia. split; [discriminate|lia].
    - replace (num l / 2 ^ 255) with 1 by (apply (Z.div_unique _ _ _ (num l - 2 ^ 255)); lia). split; [lia|reflexivity]. }
  rewrite <- T. set (x := num l / 2 ^ 248) in *. clearbody x. rewrite (Z.land_comm x 128). change 128 with (2 ^ 7).
  destruct (Z.testbit x 7) eqn:X.
  - apply negb_true_iff, Z.eqb_neq. intros Z0. apply (f_equal (fun z => Z.testbit z 7)) in Z0.
    rewrite Z.land_spec, X, Z.pow2_bits_true, Z.bits_0 in Z0 by lia. discriminate.
  - apply negb_false_iff, Z.eqb_eq. apply Z.bits_inj'. intros k Hk. rewrite Z.land_spec, Z.bits_0.
    destruct (Z.eq_dec k 7) as [->|N]; [rewrite X; apply andb_false_r|]. now rewrite Z.pow2_bits_false by lia.
Qed.

Lemma ReduceSigned32_ok d o n p : u256 o -> u256 n -> u256 p ->
  u256 (ReduceSigned32 d o n p) /\
  num (ReduceSigned32 d o n p) = if 2 ^ 255 <=? num n then (num n + num p) mod 2 ^ 256 else if num p <=? num n then num n - num p else num o.
Proof.
  intros Ho Hn Hp. unfold ReduceSigned32. rewrite sign_byte, Compare32_ge by assumption.
  destruct (2 ^ 255 <=? num n); [now apply Add32_num|]. destruct (Z.leb_spec (num p) (num n)) as [L|L]; [|now split].
  destruct (Sub32_num d n p Hn Hp) as [U E]. split; [exact U|]. rewrite E. apply Z.mod_small.
  pose proof (num_bound n Hn). pose proof (num_bound p Hp). lia.
Qed.

(** The limbs of a buffer: the low ones and the top one, which carries the sign. *)
Lemma limbs_top d l : u256 l -> exists low a, to_limbs d l = low ++ [a] /\ length low = Nat.pred (limb_count d) /\
  rdigs (2 ^ limb_bits d) low /\ 0 <= a < 2 ^ limb_bits d /\
  num l = rval (2 ^ limb_bits d) low + (2 ^ limb_bits d) ^ Z.of_nat (length low) * a /\
  snum l = rval (2 ^ limb_bits d) low + (2 ^ limb_bits d) ^ Z.of_nat (length low) * signed (limb_bits d) a.
Proof.
  intros H. destruct (to_limbs_ok d l H) as (L & D & E).
  destruct (to_limbs d l) as [|a low _] using rev_ind; [destruct d; discriminate L|]. exists low, a.
  rewrite length_app in L. cbn [length] in L. apply Forall_app in D as [D Da]. apply Forall_cons_iff in Da as [Da _].
  rewrite rval_app in E. cbn [rval] in E. assert (L' : length low = Nat.pred (limb_count d)) by (destruct d; cbn in *; lia).
  repeat split; auto; try apply Da; [lia|]. unfold snum, signed. rewrite <- E.
  pose proof (rval_bound (2 ^ limb_bits d) low ltac:(destruct d; cbn; lia) D) as B. rewrite L' in *. set (x := rval _ low) in *. clearbody x.
  destruct d; cbn [limb_bits limb_count Nat.pred] in *.
  - change ((2 ^ 128) ^ Z.of_nat 1) with (2 ^ 128) in *. change (128 - 1) with 127. change (256 - 1) with 255.
    destruct (Z.leb_spec (2 ^ 127) a), (Z.leb_spec (2 ^ 255) (x + 2 ^ 128 * (a + 2 ^ 128 * 0))); lia.
  - change ((2 ^ 64) ^ Z.of_nat 3) with (2 ^ 192) in *. change (64 - 1) with 63. change (256 - 1) with 255.
    destruct (Z.leb_spec (2 ^ 63) a), (Z.leb_spec (2 ^ 255) (x + 2 ^ 192 * (a + 2 ^ 64 * 0))); lia.
Qed.

Lemma compare_top_signed r l1 l2 x y : 1 < r -> length l1 = length l2 -> rdigs r l1 -> rdigs r l2 ->
  compare_top (x :: rev l1) (y :: rev l2) =
  match rval r l1 + r ^ Z.of_nat (length l1) * x ?= rval r l2 + r ^ Z.of_nat (length l1) * y with Eq => 0 | Lt => -1 | Gt => 1 end.
Proof.
  intros Hr HL H1 H2. cbn [compare_top]. rewrite (compare_top_ok r l1 Hr l2 HL H1 H2).
  pose proof (rval_bound r l1 ltac:(lia) H1) as B1. pose proof (rval_bound r l2 ltac:(lia) H2) as B2. rewrite <- HL in B2.
  set (M := r ^ Z.of_nat (length l1)) in *. destruct (Z.ltb_spec y x) as [L|L].
  - replace (_ ?= _) with Gt; [reflexivity|]. symmetry. apply Z.compare_gt_iff. nia.
  - destruct (Z.ltb_spec x y) as [L'|L'].
    + replace (_ ?= _) with Lt; [reflexivity|]. symmetry. apply Z.compare_lt_iff. nia.
    + assert (x = y) by lia. subst y. now rewrite !(Z.add_comm _ (M * x)), Z.add_compare_mono_l.
Qed.

Lemma CompareSigned32_ok d a b : u256 a -> u256 b ->
  CompareSigned32 d a b = match snum a ?= snum b with Eq => 0 | Lt => -1 | Gt => 1 end.
Proof.
  intros Ha Hb. destruct (limbs_top d a Ha) as (la & xa & Ea & La & Da & Ba & _ & ->), (limbs_top d b Hb) as (lb & xb & Eb & Lb & Db & Bb & _ & ->).
  unfold CompareSigned32. rewrite Ea, Eb, !rev_app_distr. cbn [rev app signed_top].
  rewrite (compare_top_signed (2 ^ limb_bits d)), La, Lb; auto; [apply limb_pos|congruence].
Qed.

(** Halving: the last limb is halved by [top]. *)
Lemma half_words_ok w top p a : 1 <= w -> rdigs (2 ^ w) (p ++ [a]) -> 0 <= top a < 2 ^ w ->
  length (half_words w top (p ++ [a])) = S (length p) /\ rdigs (2 ^ w) (half_words w top (p ++ [a])) /\
  rval (2 ^ w) (half_words w top (p ++ [a])) =
  rval (2 ^ w) (p ++ [a]) / 2 + (2 ^ w) ^ Z.of_nat (length p) * (top a - a / 2).
Proof.
  intros Hw. assert (W2 : 2 ^ w = 2 * 2 ^ (w - 1)) by (rewrite <- Z.pow_succ_r by lia; f_equal; lia).
  pose proof (pow2_pos (w - 1) ltac:(lia)) as PP.
  induction p as [|x p IH]; intros H Ht.
  - cbn [app half_words length rval]. repeat split; [repeat constructor; lia|]. rewrite Z.pow_0_r, Z.mul_0_r, !Z.add_0_r. lia.
  - cbn [app] in *. apply Forall_cons_iff in H as [Hx H]. specialize (IH H Ht). destruct IH as (L & D & E).
    destruct (p ++ [a]) as [|b p'] eqn:Ep; [destruct p; discriminate Ep|].
    change (half_words w top (x :: b :: p')) with (Z.lor (Z.shiftr x 1) (Z.shiftl b (w - 1) mod 2 ^ w) :: half_words w top (b :: p')).
    assert (Hb : 0 <= b < 2 ^ w) by now apply Forall_cons_iff in H.
    assert (EL : Z.lor (Z.shiftr x 1) (Z.shiftl b (w - 1) mod 2 ^ w) = x / 2 + 2 ^ (w - 1) * (b mod 2)).
    { rewrite Z.lor_comm, Z.shiftr_div_pow2, Z.pow_1_r by lia.
      replace (Z.shiftl b (w - 1) mod 2 ^ w) with (Z.shiftl (b mod 2) (w - 1)).
      - rewrite lor_shiftl_add; [lia|lia|]. split; [apply Z.div_pos; lia|apply Z.div_lt_upper_bound; lia].
      - rewrite !Z.shiftl_mul_pow2 by lia. rewrite W2. now rewrite Z.mul_mod_distr_r by lia. }
    rewrite EL. pose proof (Z.mod_pos_bound b 2 ltac:(lia)) as M2. pose proof (Z.div_mod x 2 ltac:(lia)) as DX. pose proof (Z.mod_pos_bound x 2 ltac:(lia)) as MX.
    cbn [length]. split; [now rewrite L|]. split.
    + constructor; [|exact D]. nia.
    + cbn [rval] in *. rewrite E, Nat2Z.inj_succ, Z.pow_succ_r by lia.
      set (V := b + 2 ^ w * rval (2 ^ w) p') in *. assert (EV : V mod 2 = b mod 2).
      { unfold V. generalize (rval (2 ^ w) p'). intros R. rewrite W2.
        replace (b + 2 * 2 ^ (w - 1) * R) with (b + (2 ^ (w - 1) * R) * 2) by ring. apply Z_mod_plus_full. }
      clearbody V. set (M := (2 ^ w) ^ Z.of_nat (length p)) in *. clearbody M.
      replace ((x + 2 ^ w * V) / 2) with (x / 2 + 2 ^ (w - 1) * V).
      * pose proof (Z.div_mod V 2 ltac:(lia)) as DV. rewrite EV in DV. rewrite W2. set (q := V / 2) in *. clearbody q. rewrite DV at 1. ring.
      * replace (x + 2 ^ w * V) with (x + (2 ^ (w - 1) * V) * 2) by (rewrite W2; ring). rewrite Z.div_add by lia. ring.
Qed.

Lemma limb_split d : (2 ^ limb_bits d) ^ Z.of_nat (Nat.pred (limb_count d)) * 2 ^ limb_bits d = 2 ^ 256.
Proof. destruct d; reflexivity. Qed.

Lemma halve_limbs d top l : u256 l -> (forall a, 0 <= a < 2 ^ limb_bits d -> 0 <= top a < 2 ^ limb_bits d) ->
  exists low a, u256 (of_limbs d (half_words (limb_bits d) top (to_limbs d l))) /\
  num l = low + (2 ^ limb_bits d) ^ Z.of_nat (Nat.pred (limb_count d)) * a /\
  snum l = low + (2 ^ limb_bits d) ^ Z.of_nat (Nat.pred (limb_count d)) * signed (limb_bits d) a /\ 0 <= a < 2 ^ limb_bits d /\
  num (of_limbs d (half_words (limb_bits d) top (to_limbs d l))) =
  num l / 2 + (2 ^ limb_bits d) ^ Z.of_nat (Nat.pred (limb_count d)) * (top a - a / 2).
Proof.
  intros H HT. destruct (limbs_top d l H) as (low & a & El & Ll & Dl & Ba & En & Es).
  destruct (half_words_ok (limb_bits d) top low a) as (L & D & E).
  - destruct d; cbn; lia.
  - apply rdigs_app; [exact Dl|]. constructor; [exact Ba|constructor].
  - now apply HT.
  - rewrite El. destruct (of_limbs_ok d _ ltac:(rewrite L, Ll; destruct d; reflexivity) D) as [U V]. exists (rval (2 ^ limb_bits d) low), a.
    rewrite Ll in *. repeat split; try apply U; try apply Ba; auto. rewrite V, E, En. repeat f_equal. rewrite rval_app, Ll. cbn [rval]. ring.
Qed.

Lemma Half32_ok d l : u256 l -> u256 (Half32 d l) /\ num (Half32 d l) = num l / 2.
Proof.
  intros H. destruct (halve_limbs d (fun a => Z.shiftr a 1) l H) as (low & a & U & _ & _ & _ & E).
  - intros a Ha. rewrite Z.shiftr_div_pow2, Z.pow_1_r by lia. split; [apply Z.div_pos; lia|apply Z.div_lt_upper_bound; lia].
  - split; [exact U|]. unfold Half32. rewrite E, Z.shiftr_div_pow2, Z.pow_1_r by lia. ring.
Qed.

Lemma HalfSigned32_ok d l : u256 l -> u256 (HalfSigned32 d l) /\ num (HalfSigned32 d l) = (snum l / 2) mod 2 ^ 256.
Proof.
  intros H. destruct (halve_limbs d (fun a => Z.shiftr (signed (limb_bits d) a) 1 mod 2 ^ limb_bits d) l H) as (low & a & U & En & Es & Ba & E).
  - intros a Ha. apply Z.mod_pos_bound. pose proof (limb_pos d). lia.
  - split; [exact U|]. unfold HalfSigned32. rewrite E. pose proof (num_bound l H) as Bn.
    rewrite Z.shiftr_div_pow2, Z.pow_1_r by lia. pose proof (limb_split d) as LS. pose proof (limb_pos d) as LP.
    assert (Ev : exists m, 2 ^ limb_bits d = 2 * m /\ 2 ^ (limb_bits d - 1) = m) by (destruct d; eexists; split; reflexivity).
    destruct Ev as (m & Em & Em'). unfold signed in *. rewrite Em' in *. rewrite Em in *.
    set (M := (2 * m) ^ Z.of_nat (Nat.pred (limb_count d))) in *. assert (PM : 0 < M) by (apply Z.pow_pos_nonneg; lia). clearbody M. clear E U.
    destruct (Z.leb_spec m a) as [G|G].
    + replace ((a - 2 * m) / 2) with (a / 2 - m) by (replace (a - 2 * m) with (a + (- m) * 2) by ring; rewrite Z.div_add; lia).
      assert (A2 : 0 <= a / 2 < m) by (split; [apply Z.div_pos; lia|apply Z.div_lt_upper_bound; lia]).
      set (a2 := a / 2) in *. clearbody a2.
      replace ((a2 - m) mod (2 * m)) with (a2 + m) by (apply (Z.mod_unique_pos _ _ (-1)); lia).
      replace (snum l) with (num l + (- (M * m)) * 2) by lia. rewrite Z.div_add by lia.
      apply (Z.mod_unique_pos _ _ (-1)); [|lia]. assert (0 <= num l / 2 < M * m) by (split; [apply Z.div_pos; lia|apply Z.div_lt_upper_bound; lia]). nia.
    + rewrite (Z.mod_small (a / 2)) by (split; [apply Z.div_pos; lia|apply Z.div_lt_upper_bound; lia]).
      replace (snum l) with (num l) by lia. rewrite (Z.mod_small (num l / 2)); [ring|]. split; [apply Z.div_pos; lia|apply Z.div_lt_upper_bound; lia].
Qed.

(** ShiftLeft32 is a multiplication by a power of two. *)
Lemma shl2_ok w b hi lo : 0 <= b <= w -> 0 <= hi < 2 ^ w -> 0 <= lo < 2 ^ w ->
  shl2 w b hi lo = (hi mod 2 ^ (w - b)) * 2 ^ b + lo / 2 ^ (w - b).
Proof.
  intros Hb Hh Hl. unfold shl2. assert (W : 2 ^ w = 2 ^ (w - b) * 2 ^ b) by (rewrite <- Z.pow_add_r by lia; f_equal; lia).
  pose proof (pow2_pos b ltac:(lia)). pose proof (pow2_pos (w - b) ltac:(lia)).
  rewrite Z.shiftr_div_pow2 by lia. replace (Z.shiftl hi b mod 2 ^ w) with (Z.shiftl (hi mod 2 ^ (w - b)) b).
  - apply lor_shiftl_add; [lia|]. split; [apply Z.div_pos; lia|]. apply Z.div_lt_upper_bound; lia.
  - rewrite !Z.shiftl_mul_pow2, W by lia. now rewrite Z.mul_mod_distr_r by lia.
Qed.

Lemma shl1_ok w b x : 0 <= b <= w -> Z.shiftl x b mod 2 ^ w = (x mod 2 ^ (w - b)) * 2 ^ b.
Proof.
  intros Hb. assert (W : 2 ^ w = 2 ^ (w - b) * 2 ^ b) by (rewrite <- Z.pow_add_r by lia; f_equal; lia).
  pose proof (pow2_pos b ltac:(lia)). pose proof (pow2_pos (w - b) ltac:(lia)). rewrite Z.shiftl_mul_pow2, W by lia. now rewrite Z.mul_mod_distr_r by lia.
Qed.

(** A shift by less than a word, word by word. *)
Fixpoint shl_words (w b prev : Z) (l : list Z) : list Z :=
  match l with [] => [] | x :: l' => shl2 w b x prev :: shl_words w b x l' end.

Lemma shl_words_ok w b l : 0 <= b <= w -> forall prev, 0 <= prev < 2 ^ w -> rdigs (2 ^ w) l ->
  length (shl_words w b prev l) = length l /\ rdigs (2 ^ w) (shl_words w b prev l) /\
  rval (2 ^ w) (shl_words w b prev l) + (2 ^ w) ^ Z.of_nat (length l) * (last l prev / 2 ^ (w - b)) =
  2 ^ b * rval (2 ^ w) l + prev / 2 ^ (w - b).
Proof.
  intros Hb. assert (W : 2 ^ w = 2 ^ (w - b) * 2 ^ b) by (rewrite <- Z.pow_add_r by lia; f_equal; lia).
  pose proof (pow2_pos b ltac:(lia)) as PA. pose proof (pow2_pos (w - b) ltac:(lia)) as PC.
  induction l as [|x l IH]; intros prev Hp H; cbn [shl_words length rval].
  { repeat split; [constructor|]. cbn [last]. rewrite Z.pow_0_r. ring. }
  apply Forall_cons_iff in H as [Hx H]. destruct (IH x Hx H) as (L & D & E). rewrite (shl2_ok w b x prev) by lia.
  pose proof (Z.div_mod x (2 ^ (w - b)) ltac:(lia)) as DM. pose proof (Z.mod_pos_bound x (2 ^ (w - b)) ltac:(lia)) as MB.
  assert (QB : 0 <= prev / 2 ^ (w - b) < 2 ^ b) by (split; [apply Z.div_pos; lia|apply Z.div_lt_upper_bound; lia]).
  split; [now rewrite L|]. split; [constructor; [nia|exact D]|].
  replace (last (x :: l) prev) with (last l x) by (destruct l; [reflexivity|cbn [last]; clear; revert z; induction l; intros; cbn [last]; auto]).
  rewrite Nat2Z.inj_succ, Z.pow_succ_r by lia. set (T := last l x / 2 ^ (w - b)) in *. set (M := (2 ^ w) ^ Z.of_nat (length l)) in *.
  set (V := rval (2 ^ w) l) in *. set (U := rval (2 ^ w) (shl_words w b x l)) in *. clearbody T M V U.
  set (x1 := x / 2 ^ (w - b)) in *. set (x0 := x mod 2 ^ (w - b)) in *. clearbody x1 x0.
  replace (x0 * 2 ^ b + prev / 2 ^ (w - b) + 2 ^ w * U + 2 ^ w * M * T) with (x0 * 2 ^ b + prev / 2 ^ (w - b) + 2 ^ w * (U + M * T)) by ring.
  rewrite E, DM, W. ring.
Qed.

(** A shift by [k] words and [b] bits. *)
Lemma shift_words_ok w b k l : 0 <= b <= w -> rdigs (2 ^ w) l -> (k <= length l)%nat ->
  let o := repeat 0 k ++ shl_words w b 0 (firstn (length l - k) l) in
  length o = length l /\ rdigs (2 ^ w) o /\
  rval (2 ^ w) o = (2 ^ (w * Z.of_nat k + b) * rval (2 ^ w) l) mod (2 ^ w) ^ Z.of_nat (length l).
Proof.
  intros Hb H Hk o. pose proof (pow2_pos w ltac:(lia)) as PW.
  destruct (shl_words_ok w b (firstn (length l - k) l) Hb 0 ltac:(lia) (rdigs_firstn _ _ _ H)) as (L & D & E).
  rewrite firstn_length_le in L, E by lia.
  assert (LO : length o = length l) by (unfold o; rewrite length_app, repeat_length, L; lia).
  assert (DO : rdigs (2 ^ w) o) by (apply rdigs_app; [now apply rdigs_repeat0|exact D]).
  split; [exact LO|]. split; [exact DO|].
  pose proof (rval_bound _ _ PW DO) as B. rewrite LO in B. revert B. unfold o at 1 2 3. rewrite rval_app, rval_repeat0, repeat_length, Z.add_0_l. intros B.
  rewrite Z.div_0_l, Z.add_0_r in E by (pose proof (pow2_pos (w - b)); lia).
  rewrite <- (firstn_skipn (length l - k) l) at 3. rewrite rval_app, firstn_length_le by lia.
  set (F := rval (2 ^ w) (firstn (length l - k) l)) in *. set (K := rval (2 ^ w) (skipn (length l - k) l)) in *.
  set (V := rval (2 ^ w) (shl_words w b 0 (firstn (length l - k) l))) in *. set (T := last _ _ / _) in *. clearbody F K V T.
  assert (NN : (2 ^ w) ^ Z.of_nat (length l) = (2 ^ w) ^ Z.of_nat k * (2 ^ w) ^ Z.of_nat (length l - k)) by (rewrite <- Z.pow_add_r by lia; f_equal; lia).
  apply (Z.mod_unique_pos _ _ (T + 2 ^ b * K)); [exact B|].
  rewrite NN, Z.pow_add_r, Z.pow_mul_r by nia. set (R := (2 ^ w) ^ Z.of_nat k). set (S := (2 ^ w) ^ Z.of_nat (length l - k)) in *.
  replace V with (2 ^ b * F - S * T) by lia. ring.
Qed.

Lemma shl2_low w b x : shl2 w b x 0 = Z.shiftl x b mod 2 ^ w.
Proof. unfold shl2. now rewrite Z.shiftr_0_l, Z.lor_0_r. Qed.

Lemma shl_words_0 w l : 0 <= w -> forall prev, 0 <= prev < 2 ^ w -> rdigs (2 ^ w) l -> shl_words w 0 prev l = l.
Proof.
  intros Hw. induction l as [|x l IH]; intros prev Hp H; cbn [shl_words]; [reflexivity|]. apply Forall_cons_iff in H as [Hx H].
  rewrite IH, shl2_ok by (auto; lia). rewrite Z.sub_0_r, Z.pow_0_r, (Z.div_small prev), Z.mod_small by lia. f_equal. lia.
Qed.

Lemma shift_case d l k b sh : u256 l -> (k <= limb_count d)%nat -> 0 <= b <= limb_bits d ->
  sh = repeat 0 k ++ shl_words (limb_bits d) b 0 (firstn (limb_count d - k) (to_limbs d l)) ->
  u256 (of_limbs d sh) /\ num (of_limbs d sh) = (num l * 2 ^ (limb_bits d * Z.of_nat k + b)) mod 2 ^ 256.
Proof.
  intros H Hk Hb ->. destruct (to_limbs_ok d l H) as (L & D & E).
  destruct (shift_words_ok (limb_bits d) b k (to_limbs d l) Hb D ltac:(lia)) as (L' & D' & E'). rewrite L in *.
  destruct (of_limbs_ok d _ L' D') as [U V]. split; [exact U|]. rewrite V, E', limb_pow, E. f_equal. ring.
Qed.

(** The limbs of a buffer, one by one. *)
Lemma limbs_int128 l : u256 l -> exists p0 p1, to_limbs true l = [p0; p1] /\ rdigs (2 ^ 128) [p0; p1].
Proof.
  intros H. destruct (to_limbs_ok true l H) as (L & D & _). destruct (to_limbs true l) as [|p0 [|p1 [|]]]; try discriminate L. eauto.
Qed.

Lemma limbs_plain l : u256 l -> exists p0 p1 p2 p3, to_limbs false l = [p0; p1; p2; p3] /\ rdigs (2 ^ 64) [p0; p1; p2; p3].
Proof.
  intros H. destruct (to_limbs_ok false l H) as (L & D & _).
  destruct (to_limbs false l) as [|p0 [|p1 [|p2 [|p3 [|]]]]]; try discriminate L. do 4 eexists. eauto.
Qed.

Lemma shift_int128 l b : u256 l -> 0 < b < 256 -> exists k b', (k <= 2)%nat /\ 0 <= b' <= 128 /\ 128 * Z.of_nat k + b' = b /\
  ShiftLeft32_int128 (to_limbs true l) b = repeat 0 k ++ shl_words 128 b' 0 (firstn (2 - k) (to_limbs true l)).
Proof.
  intros H Hb. destruct (limbs_int128 l H) as (p0 & p1 & E & D). rewrite E. unfold ShiftLeft32_int128. cbn [nth].
  destruct (Z.ltb_spec b 128); [|destruct (Z.eqb_spec b 128)].
  - exists 0%nat, b. repeat split; try lia. cbn [repeat app Nat.sub firstn shl_words]. now rewrite shl2_low.
  - exists 1%nat, 0. repeat split; try lia. cbn [repeat app Nat.sub firstn]. rewrite shl_words_0; auto; try lia. apply Forall_cons_iff in D as [D _]. repeat constructor; lia.
  - exists 1%nat, (b - 128). repeat split; try lia. cbn [repeat app Nat.sub firstn shl_words]. now rewrite shl2_low.
Qed.

Lemma shift_plain l b : u256 l -> 0 < b < 256 -> exists k b', (k <= 4)%nat /\ 0 <= b' <= 64 /\ 64 * Z.of_nat k + b' = b /\
  ShiftLeft32_plain (to_limbs false l) b = repeat 0 k ++ shl_words 64 b' 0 (firstn (4 - k) (to_limbs false l)).
Proof.
  intros H Hb. destruct (limbs_plain l H) as (p0 & p1 & p2 & p3 & E & D). rewrite E. unfold ShiftLeft32_plain. cbn [nth].
  pose proof (Z.mod_pos_bound b 64 ltac:(lia)) as MB. pose proof (Z.div_mod b 64 ltac:(lia)) as DM.
  assert (DW : forall l', incl l' [p0; p1; p2; p3] -> rdigs (2 ^ 64) l') by (intros l' I; eapply incl_Forall; eauto).
  destruct (Z.ltb_spec b 64); [|destruct (Z.eqb_spec b 64); [|destruct (Z.ltb_spec b 128); [|destruct (Z.eqb_spec b 128);
    [|destruct (Z.ltb_spec b 192); [|destruct (Z.eqb_spec b 192)]]]]].
  - exists 0%nat, (b mod 64). repeat split; try lia. cbn [repeat app Nat.sub firstn shl_words]. now rewrite shl2_low.
  - exists 1%nat, 0. repeat split; try lia. cbn [repeat app Nat.sub firstn]. rewrite shl_words_0; try lia; [reflexivity|]. apply DW. intros x; cbn; tauto.
  - exists 1%nat, (b mod 64). repeat split; try lia. cbn [repeat app Nat.sub firstn shl_words]. now rewrite shl2_low.
  - exists 2%nat, 0. repeat split; try lia. cbn [repeat app Nat.sub firstn]. rewrite shl_words_0; try lia; [reflexivity|]. apply DW. intros x; cbn; tauto.
  - exists 2%nat, (b mod 64). repeat split; try lia. cbn [repeat app Nat.sub firstn shl_words]. now rewrite shl2_low.
  - exists 3%nat, 0. repeat split; try lia. cbn [repeat app Nat.sub firstn]. rewrite shl_words_0; try lia; [reflexivity|]. apply DW. intros x; cbn; tauto.
  - exists 3%nat, (b mod 64). repeat split; try lia. cbn [repeat app Nat.sub firstn shl_words]. now rewrite shl2_low.
Qed.

Lemma ShiftLeft32_ok d l b : u256 l -> 0 <= b -> u256 (ShiftLeft32 d l b) /\ num (ShiftLeft32 d l b) = (num l * 2 ^ b) mod 2 ^ 256.
Proof.
  intros H Hb. unfold ShiftLeft32. destruct (Z.eqb_spec b 0) as [->|N].
  { destruct (u256_words l H) as (x0 & x1 & x2 & x3 & E & _). replace (Copy32 l) with l by (rewrite E; reflexivity).
    split; [exact H|]. rewrite Z.pow_0_r, Z.mul_1_r. symmetry. apply Z.mod_small, num_bound, H. }
  destruct (Z.leb_spec 256 b) as [G|G].
  { split; [split; [reflexivity|apply rdigs_repeat0; lia]|]. unfold num at 1, Zero32. rewrite rval_repeat0. symmetry.
    replace b with (b - 256 + 256) by lia. rewrite Z.pow_add_r, Z.mul_assoc by lia. apply Z_mod_mult. }
  destruct d.
  - destruct (shift_int128 l b H ltac:(lia)) as (k & b' & Hk & Hb' & <- & E). apply (shift_case true); auto.
  - destruct (shift_plain l b H ltac:(lia)) as (k & b' & Hk & Hb' & <- & E). apply (shift_case false); auto.
Qed.
