(* ===== verification/Sc25519.v ===== *)
(** * Scalars of curve25519: crypto/curve25519/sc25519.cpp

    [CSC25519] is a number modulo the prime 2^252 + 27742317777372353535851937790883648493
    in four 64-bit words.  [int128] chooses the branch of the conditional compilation, as in
    [Base25519].  A buffer of bytes is given by the words over it. *)

From Stdlib Require Import ZArith List Lia Bool.
From S2P Require Import Prelude Radix Base25519.
Import ListNotations.
Local Open Scope Z_scope.

Definition prime : list Z := [0x5812631a5cf5d3ed; 0x14def9dea2f79cd6; 0; 0x1000000000000000].

(** 2^252 % prime = -27742317777372353535851937790883648493 *)
Definition reminder : list Z := [0x5812631a5cf5d3ed; 0x14def9dea2f79cd6].

(** p - n*reminder, n = [0, 15] *)
Definition reminders : list (list Z) := [
  [0; 0; 0; 0];
  [0x0000000000000000; 0x0000000000000000; 0x0000000000000000; 0x1000000000000000];
  [0xa7ed9ce5a30a2c13; 0xeb2106215d086329; 0xffffffffffffffff; 0x0fffffffffffffff];
  [0x4fdb39cb46145826; 0xd6420c42ba10c653; 0xffffffffffffffff; 0x0fffffffffffffff];
  [0xf7c8d6b0e91e8439; 0xc16312641719297c; 0xffffffffffffffff; 0x0fffffffffffffff];
  [0x9fb673968c28b04c; 0xac84188574218ca6; 0xffffffffffffffff; 0x0fffffffffffffff];
  [0x47a4107c2f32dc5f; 0x97a51ea6d129efd0; 0xffffffffffffffff; 0x0fffffffffffffff];
  [0xef91ad61d23d0872; 0x82c624c82e3252f9; 0xffffffffffffffff; 0x0fffffffffffffff];
  [0x977f4a4775473485; 0x6de72ae98b3ab623; 0xffffffffffffffff; 0x0fffffffffffffff];
  [0x3f6ce72d18516098; 0x5908310ae843194d; 0xffffffffffffffff; 0x0fffffffffffffff];
  [0xe75a8412bb5b8cab; 0x4429372c454b7c76; 0xffffffffffffffff; 0x0fffffffffffffff];
  [0x8f4820f85e65b8be; 0x2f4a3d4da253dfa0; 0xffffffffffffffff; 0x0fffffffffffffff];
  [0x3735bdde016fe4d1; 0x1a6b436eff5c42ca; 0xffffffffffffffff; 0x0fffffffffffffff];
  [0xdf235ac3a47a10e4; 0x058c49905c64a5f3; 0xffffffffffffffff; 0x0fffffffffffffff];
  [0x8710f7a947843cf7; 0xf0ad4fb1b96d091d; 0xfffffffffffffffe; 0x0fffffffffffffff];
  [0x2efe948eea8e690a; 0xdbce55d316756c47; 0xfffffffffffffffe; 0x0fffffffffffffff]].

(** mu = 2^506 / prime *)
Definition mu : list Z := [0x9fb673968c28b04c; 0xac84188574218ca6; 0xffffffffffffffff; 0x3fffffffffffffff].

(** value[i] &= mask, value[i] |= mask, and ((uint8_t* )value)[i] &= mask *)
Definition and_word (l : list Z) (i : nat) (mask : Z) : list Z := upd l i (Z.land (nth i l 0) mask).
Definition or_word (l : list Z) (i : nat) (mask : Z) : list Z := upd l i (Z.lor (nth i l 0) mask).
Definition and_byte (l : list Z) (i : nat) (mask : Z) : list Z :=
  let p := cast 64 8 (8 * length l) l in cast 8 64 (length l) (upd p i (Z.land (nth i p 0) mask)).

Section Scalars.

Variable int128 : bool.

Definition sc_Reduce (value : list Z) : list Z :=
  if 0 <=? Compare32 int128 value prime then fst (Sub32 int128 value prime) else value.

Definition sc_Reduce_carry (value : list Z) (carry : Z) : list Z :=
  if carry =? 0 then
    if 0 <=? Compare32 int128 value prime then
      let t := Z.shiftr (nth 31 (cast 64 8 32 value) 0) 4 in
      if t =? 1 then fst (Sub32 int128 value prime)
      else
        let value := and_byte value 31 0x0f in
        let value := fst (Add32 int128 value (nth (Z.to_nat t) reminders [])) in
        if 0 <=? Compare32 int128 value prime then fst (Sub32 int128 value prime) else value
    else value
  else
    let c := (Z.shiftl carry 4 mod 2 ^ 32 + Z.shiftr (nth 3 value 0) 60) mod 2 ^ 64 in
    let product := Multiply16_8 int128 reminder [c] in
    let product := fst (Sub32 int128 prime product) in
    let value := and_word value 3 0x0fffffffffffffff in
    sc_Reduce (fst (Add32 int128 product value)).

(** q1 = m / 2^252 *)
Definition barrett_q1 (m : list Z) : list Z :=
  or_word (ShiftLeft32 int128 (skipn 4 m) 4) 0 (Z.shiftr (nth 3 m 0) 60).

(** q3 = q2 / 2^254 *)
Definition barrett_q3 (q2 : list Z) : list Z :=
  let w i := nth i q2 0 in
  [shl2 64 2 (w 4%nat) (w 3%nat); shl2 64 2 (w 5%nat) (w 4%nat); shl2 64 2 (w 6%nat) (w 5%nat); shl2 64 2 (w 7%nat) (w 6%nat)].

(** The products of the words of [q3] and [prime], as 32-bit words. *)
Definition barrett_mul (q3 : list Z) (i j : nat) : list Z :=
  cast 64 32 4 (Multiply8_8 int128 [nth i q3 0] [nth j prime 0]).
Definition barrett_tmp (q3 : list Z) : list (list Z) :=
  [barrett_mul q3 0 0; barrett_mul q3 0 1; barrett_mul q3 1 0; barrett_mul q3 0 2; barrett_mul q3 1 1;
   barrett_mul q3 2 0; barrett_mul q3 0 3; barrett_mul q3 1 2; barrett_mul q3 2 1; barrett_mul q3 3 0].
Definition entry (tmp : list (list Z)) (k i : nat) : Z := nth i (nth k tmp []) 0.

(** r2 = q3 * prime % 2^256, from the products *)
Definition barrett_r2 (tmp : list (list Z)) : list Z :=
  let p := upd (upd (repeat 0 8) 0 (entry tmp 0 0)) 1 (entry tmp 0 1) in
  let p := add_window (2 ^ 32) p 2 (entry tmp 0 2 + entry tmp 1 0 + entry tmp 2 0) in
  let p := add_window (2 ^ 32) p 3 (entry tmp 0 3 + entry tmp 1 1 + entry tmp 2 1) in
  let p := add_window (2 ^ 32) p 4 (entry tmp 1 2 + entry tmp 2 2 + entry tmp 3 0 + entry tmp 4 0 + entry tmp 5 0) in
  let p := add_window (2 ^ 32) p 5 (entry tmp 1 3 + entry tmp 2 3 + entry tmp 3 1 + entry tmp 4 1 + entry tmp 5 1) in
  let p := add_window (2 ^ 32) p 6 (entry tmp 3 2 + entry tmp 4 2 + entry tmp 5 2 + entry tmp 6 0 + entry tmp 7 0 + entry tmp 8 0 + entry tmp 9 0) in
  let p := upd p 7 ((nth 7 p 0 + (entry tmp 3 3 + entry tmp 4 3 + entry tmp 5 3 + entry tmp 6 1 + entry tmp 7 1 + entry tmp 8 1 + entry tmp 9 1)) mod 2 ^ 32) in
  cast 32 64 4 p.

Definition BarrettReduce (m : list Z) : list Z :=
  let r1 := and_word (Copy32 m) 3 0x3fffffffffffffff in
  let q2 := Multiply32_32 int128 (barrett_q1 m) mu in
  let r2 := and_word (barrett_r2 (barrett_tmp (barrett_q3 q2))) 3 0x3fffffffffffffff in
  let r1 := if Compare32 int128 r1 r2 <? 0 then or_word r1 3 0x4000000000000000 else r1 in
  sc_Reduce_carry (fst (Sub32 int128 r1 r2)) 0.

(** The constructors and Unpack. *)
Definition sc_new : list Z := Zero32.
Definition sc_of_u64 (u64 : Z) : list Z := Copy32_u64 u64.
Definition sc_of_bytes (md32 : list Z) : list Z := sc_Reduce_carry (Copy32 md32) 0.
Definition sc_of_list (list : list Z) : Datatypes.list Z := firstn 4 list ++ repeat 0 (4 - length list).
Definition sc_Unpack (md32 : list Z) : list Z := sc_Reduce_carry (Copy32 md32) 0.
Definition sc_Pack (value : list Z) : list Z := Copy32 value.

(** Reduce64: the 64 bytes of [m] as eight words. *)
Definition Reduce64 (m : list Z) : list Z :=
  if negb (Z.land (nth 63 (cast 64 8 64 m) 0) 0xFC =? 0)
  then BarrettReduce (Copy32 m ++ sc_Pack (sc_Unpack (skipn 4 m)))
  else BarrettReduce m.

Definition sc_Negative (value : list Z) : list Z := fst (Sub32 int128 prime value).

Definition sc_add (value b : list Z) : list Z := sc_Reduce (fst (Add32 int128 value b)).

Definition sc_sub (value b : list Z) : list Z :=
  let '(value, borrow) := Sub32 int128 value b in if 0 <? borrow then fst (Add32 int128 value prime) else value.

Definition sc_neg (b : list Z) : list Z := sc_sub sc_new b.

Definition sc_mul (value b : list Z) : list Z := BarrettReduce (Multiply32_32 int128 value b).

(** The words of [value * b] with the carry out of the last one; with 128-bit integers the
    words have 64 bits, otherwise 32. *)
Fixpoint mul_words (w : Z) (value : list Z) (b carry : Z) : list Z * Z :=
  match value with
  | [] => ([], carry)
  | x :: value' =>
      let m := x * b + carry in
      let '(l, c) := mul_words w value' b (m / 2 ^ w mod 2 ^ 32) in (m mod 2 ^ w :: l, c)
  end.

Definition sc_mul_u32 (value : list Z) (b : Z) : list Z :=
  let w := if int128 then 64 else 32 in
  let '(l, carry) := mul_words w (cast 64 w (if int128 then 4 else 8) value) b 0 in
  sc_Reduce_carry (cast w 64 4 l) carry.

Definition sc_eq (value b : list Z) : bool := Compare32 int128 value b =? 0.

End Scalars.
