(* ===== verification/Sc25519Ok.v ===== *)
(** * Scalars compute modulo the prime

    The reductions return the residue of their operand, within the operand sizes the code
    uses them on, and the operators of [CSC25519] are those of the integers modulo
    2^252 + 27742317777372353535851937790883648493. *)

From Stdlib Require Import ZArith List Lia Bool.
From S2P Require Import Prelude Radix Base25519 Base25519Ok Sc25519.
Import ListNotations.
Local Open Scope Z_scope.

Definition ell : Z := 2 ^ 252 + 27742317777372353535851937790883648493.

Lemma num_prime : num prime = ell.
Proof. reflexivity. Qed.

Lemma u256_prime : u256 prime.
Proof. split; [reflexivity|repeat constructor; lia]. Qed.

(** A scalar, and one that is fully reduced. *)
Definition weak (v : list Z) : Prop := u256 v /\ num v <= ell.
Definition canonical (v : list Z) : Prop := u256 v /\ num v < ell.

Lemma canonical_weak v : canonical v -> weak v.
Proof. intros [U H]. split; [exact U|lia]. Qed.

Create HintDb scalars.
#[export] Hint Resolve u256_prime canonical_weak num_bound : scalars.

Lemma canonical_num v : canonical v -> num v mod ell = num v.
Proof. intros [U H]. apply Z.mod_small. pose proof (num_bound v U). lia. Qed.

Lemma canonical_inj a b : canonical a -> canonical b -> num a mod ell = num b mod ell -> a = b.
Proof. intros Ha Hb E. rewrite !canonical_num in E by assumption. apply num_inj; auto; [apply Ha|apply Hb]. Qed.

(** ** One subtraction *)

Lemma sub_prime d v : u256 v -> ell <= num v -> u256 (fst (Sub32 d v prime)) /\ num (fst (Sub32 d v prime)) = num v - ell.
Proof.
  intros U H. destruct (Sub32_num d v prime U u256_prime) as [U' E]. split; [exact U'|]. rewrite E, num_prime. apply Z.mod_small.
  pose proof (num_bound v U). unfold ell in *. lia.
Qed.

Lemma sc_Reduce_ok d v : u256 v -> num v <= 2 * ell ->
  weak (sc_Reduce d v) /\ num (sc_Reduce d v) mod ell = num v mod ell /\ (num v < 2 * ell -> canonical (sc_Reduce d v)).
Proof.
  intros U H. unfold sc_Reduce. rewrite Compare32_ge, num_prime by auto with scalars. destruct (Z.leb_spec ell (num v)) as [G|G].
  - destruct (sub_prime d v U G) as [U' E]. unfold weak, canonical. rewrite E. repeat split; try apply U'; try lia.
    replace (num v - ell) with (num v + (-1) * ell) by ring. apply Z_mod_plus_full.
  - repeat split; try apply U; lia.
Qed.

(** ** Masks *)

Lemma land_low x k : 0 <= k -> Z.land x (2 ^ k - 1) = x mod 2 ^ k.
Proof. intros H. replace (2 ^ k - 1) with (Z.ones k) by (rewrite Z.ones_equiv; lia). now apply Z.land_ones. Qed.

Lemma top_word a b c e : num [a; b; c; e] = a + 2 ^ 64 * b + 2 ^ 128 * c + 2 ^ 192 * e.
Proof. unfold num. cbn [rval]. ring. Qed.

Lemma num_divide a b c e k : 0 <= k <= 64 -> u256 [a; b; c; e] ->
  num [a; b; c; e mod 2 ^ k] = num [a; b; c; e] mod 2 ^ (192 + k) /\ e / 2 ^ k = num [a; b; c; e] / 2 ^ (192 + k).
Proof.
  intros Hk [_ H]. unfold rdigs in H. rewrite !Forall_cons_iff in H. destruct H as (Ha & Hb & Hc & He & _).
  rewrite !top_word, Z.pow_add_r by lia. set (x := a + 2 ^ 64 * b + 2 ^ 128 * c).
  assert (Hx : 0 <= x < 2 ^ 192) by (unfold x; lia). clearbody x. pose proof (pow2_pos k ltac:(lia)) as PK.
  pose proof (Z.div_mod e (2 ^ k) ltac:(lia)) as DM. pose proof (Z.mod_pos_bound e (2 ^ k) ltac:(lia)) as MB.
  set (q := e / 2 ^ k) in *. set (r := e mod 2 ^ k) in *. set (P := 2 ^ k) in *. clearbody q r P.
  split; [apply (Z.mod_unique_pos _ _ q)|apply (Z.div_unique_pos _ _ _ (x + 2 ^ 192 * r))]; nia.
Qed.

Lemma and_word_3 v k : 0 <= k <= 64 -> u256 v ->
  u256 (and_word v 3 (2 ^ k - 1)) /\ num (and_word v 3 (2 ^ k - 1)) = num v mod 2 ^ (192 + k).
Proof.
  intros Hk U. destruct (u256_words v U) as (a & b & c & e & -> & Ha & Hb & Hc & He). unfold and_word. cbn [nth upd].
  rewrite land_low by lia. destruct (num_divide a b c e k Hk U) as [E _]. split; [|exact E].
  split; [reflexivity|]. pose proof (Z.mod_pos_bound e (2 ^ k) ltac:(apply pow2_pos; lia)). pose proof (Z.pow_le_mono_r 2 k 64 ltac:(lia) ltac:(lia)).
  repeat constructor; lia.
Qed.

Lemma shiftr_word_3 v k : 0 <= k <= 64 -> u256 v -> Z.shiftr (nth 3 v 0) k = num v / 2 ^ (192 + k).
Proof.
  intros Hk U. destruct (u256_words v U) as (a & b & c & e & -> & _). cbn [nth]. rewrite Z.shiftr_div_pow2 by lia. now apply num_divide.
Qed.

(** The top byte of a buffer. *)
Lemma top_byte v : u256 v -> exists low b, cast 64 8 32 v = low ++ [b] /\ length low = 31%nat /\ rdigs (2 ^ 8) low /\ 0 <= b < 2 ^ 8 /\
  num v = rval (2 ^ 8) low + 2 ^ 248 * b /\ 0 <= rval (2 ^ 8) low < 2 ^ 248.
Proof.
  intros U. destruct (buffer_bytes v U) as (L & D & E). destruct (cast 64 8 32 v) as [|b low _] using rev_ind; [discriminate L|].
  exists low, b. rewrite length_app in L. cbn [length] in L. apply Forall_app in D as [D Db]. apply Forall_cons_iff in Db as [Db _].
  rewrite rval_app in E. cbn [rval] in E. assert (L' : length low = 31%nat) by lia. rewrite L' in E. change ((2 ^ 8) ^ Z.of_nat 31) with (2 ^ 248) in E.
  pose proof (rval_bound (2 ^ 8) low ltac:(lia) D) as B. rewrite L' in B. change ((2 ^ 8) ^ Z.of_nat 31) with (2 ^ 248) in B.
  repeat split; auto; try apply Db; try apply B; lia.
Qed.

Lemma and_top_byte v : u256 v -> u256 (and_byte v 31 0x0f) /\ num (and_byte v 31 0x0f) = num v mod 2 ^ 252.
Proof.
  intros U. destruct (top_byte v U) as (low & b & E & L & D & Hb & En & B). pose proof U as [LU _]. unfold and_byte. rewrite LU. change (8 * 4)%nat with 32%nat.
  rewrite E. rewrite app_nth2 by lia. rewrite L, Nat.sub_diag. cbn [nth].
  replace 31%nat with (length low) by exact L. rewrite upd_middle. change 15 with (2 ^ 4 - 1). rewrite land_low by lia.
  pose proof (Z.mod_pos_bound b (2 ^ 4) ltac:(lia)) as MB. pose proof (Z.div_mod b (2 ^ 4) ltac:(lia)) as DM.
  destruct (cast_ok 8 64 4 (low ++ [b mod 2 ^ 4])) as (L' & D' & E'); try lia.
  - apply rdigs_app; [exact D|]. repeat constructor; lia.
  - rewrite length_app, L. cbn [length]. lia.
  - split; [now split|]. unfold num at 1. rewrite E', rval_app, L. cbn [rval]. change ((2 ^ 8) ^ Z.of_nat 31) with (2 ^ 248).
    rewrite En. apply (Z.mod_unique_pos _ _ (b / 2 ^ 4)); lia.
Qed.

Lemma top_nibble v : u256 v -> Z.shiftr (nth 31 (cast 64 8 32 v) 0) 4 = num v / 2 ^ 252.
Proof.
  intros U. destruct (top_byte v U) as (low & b & E & L & D & Hb & En & B). rewrite E, app_nth2 by lia. rewrite L, Nat.sub_diag. cbn [nth].
  rewrite Z.shiftr_div_pow2 by lia. pose proof (Z.mod_pos_bound b (2 ^ 4) ltac:(lia)). pose proof (Z.div_mod b (2 ^ 4) ltac:(lia)).
  apply (Z.div_unique_pos _ _ _ (rval (2 ^ 8) low + 2 ^ 248 * (b mod 2 ^ 4))); lia.
Qed.

(** The table of multiples of 2^252. *)
Lemma reminders_ok t : 2 <= t < 16 -> u256 (nth (Z.to_nat t) reminders []) /\
  num (nth (Z.to_nat t) reminders []) = ell - t * (ell - 2 ^ 252).
Proof.
  intros Ht. assert (C : t = 2 \/ t = 3 \/ t = 4 \/ t = 5 \/ t = 6 \/ t = 7 \/ t = 8 \/ t = 9 \/ t = 10 \/ t = 11 \/ t = 12 \/ t = 13 \/ t = 14 \/ t = 15) by lia.
  repeat (destruct C as [->|C]); [..|subst t]; (split; [split; [reflexivity|repeat constructor; lia]|reflexivity]).
Qed.

(** A 256-bit number is reduced completely. *)
Lemma sc_Reduce_0_ok d v : u256 v -> canonical (sc_Reduce_carry d v 0) /\ num (sc_Reduce_carry d v 0) = num v mod ell.
Proof.
  intros U. pose proof (num_bound v U) as B. unfold sc_Reduce_carry. cbn [Z.eqb]. rewrite Compare32_ge, num_prime by auto with scalars.
  destruct (Z.leb_spec ell (num v)) as [G|G]; [|split; [now split|]; symmetry; apply Z.mod_small; lia].
  rewrite top_nibble by exact U. pose proof (Z.div_mod (num v) (2 ^ 252) ltac:(lia)) as DM.
  pose proof (Z.mod_pos_bound (num v) (2 ^ 252) ltac:(lia)) as MB. set (t := num v / 2 ^ 252) in *.
  assert (Ht : 1 <= t < 16) by (unfold ell in G; lia). destruct (Z.eqb_spec t 1) as [E1|N1].
  - destruct (sub_prime d v U G) as [U' E]. assert (num v < 2 * ell) by (unfold ell; lia).
    split; [split; [exact U'|lia]|]. rewrite E. apply (Z.mod_unique_pos _ _ 1); lia.
  - destruct (and_top_byte v U) as [Ua Ea], (reminders_ok t ltac:(lia)) as [Ur Er].
    destruct (Add32_num d _ _ Ua Ur) as [Us Es]. rewrite Ea, Er in Es.
    set (s := fst (Add32 d _ _)) in *. rewrite Z.mod_small in Es by (unfold ell; lia).
    rewrite Compare32_ge, num_prime by auto with scalars.
    assert (Q : num v = ell * (t - 1) + num s) by (rewrite Es; unfold ell in *; lia).
    destruct (Z.leb_spec ell (num s)) as [G'|G'].
    + destruct (sub_prime d s Us G') as [U' E]. split; [split; [exact U'|unfold ell in *; lia]|].
      apply (Z.mod_unique_pos _ _ t); unfold ell in *; lia.
    + pose proof (num_bound s Us). split; [now split|]. apply (Z.mod_unique_pos _ _ (t - 1)); lia.
Qed.

(** A carry out of the buffer. *)
Lemma sc_Reduce_carry_ok d v carry : u256 v -> 0 <= carry < 2 ^ 28 ->
  canonical (sc_Reduce_carry d v carry) /\ num (sc_Reduce_carry d v carry) = (num v + 2 ^ 256 * carry) mod ell.
Proof.
  intros U Hc. destruct (Z.eq_dec carry 0) as [->|N].
  { rewrite Z.mul_0_r, Z.add_0_r. now apply sc_Reduce_0_ok. }
  unfold sc_Reduce_carry. rewrite (proj2 (Z.eqb_neq _ _) N). pose proof (num_bound v U) as B.
  rewrite (shiftr_word_3 v 60) by (lia || exact U). change (192 + 60) with 252.
  pose proof (Z.div_mod (num v) (2 ^ 252) ltac:(lia)) as DM. pose proof (Z.mod_pos_bound (num v) (2 ^ 252) ltac:(lia)) as MB.
  set (t := num v / 2 ^ 252) in *. assert (Ht : 0 <= t < 16) by lia.
  replace ((Z.shiftl carry 4 mod 2 ^ 32 + t) mod 2 ^ 64) with (16 * carry + t).
  2:{ rewrite Z.shiftl_mul_pow2 by lia. rewrite (Z.mod_small (carry * 2 ^ 4)) by lia. rewrite Z.mod_small; lia. }
  set (c := 16 * carry + t). assert (Hcc : 0 <= c < 2 ^ 32) by lia.
  assert (Ur : buf 2 reminder) by (split; [reflexivity|repeat constructor; lia]).
  destruct (Multiply16_8_ok d reminder c Ur ltac:(lia)) as [Up Ep]. change (num reminder) with (ell - 2 ^ 252) in Ep.
  destruct (Sub32_num d prime _ u256_prime Up) as [Us Es]. rewrite num_prime, Ep, Z.mod_small in Es by (unfold ell; lia).
  change 0x0fffffffffffffff with (2 ^ 60 - 1). destruct (and_word_3 v 60 ltac:(lia) U) as [Ua Ea]. change (192 + 60) with 252 in Ea.
  destruct (Add32_num d _ _ Us Ua) as [Uo Eo]. rewrite Es, Ea, Z.mod_small in Eo by (unfold ell; lia).
  set (o := fst (Add32 d _ _)) in *. destruct (sc_Reduce_ok d o Uo ltac:(unfold ell in *; lia)) as (_ & E & C).
  assert (Hcan : canonical (sc_Reduce d o)) by (apply C; unfold ell in *; lia). split; [exact Hcan|].
  rewrite <- (canonical_num _ Hcan), E, Eo.
  replace (num v + 2 ^ 256 * carry) with (ell - (ell - 2 ^ 252) * c + num v mod 2 ^ 252 + (c - 1) * ell) by (unfold ell in *; lia).
  symmetry. apply Z_mod_plus_full.
Qed.

(** ** Barrett reduction *)

Lemma barrett_q1_ok d m : buf 8 m -> num m < 2 ^ 508 -> u256 (barrett_q1 d m) /\ num (barrett_q1 d m) = num m / 2 ^ 252.
Proof.
  intros [L H] HB. destruct m as [|m0 [|m1 [|m2 [|m3 h]]]]; try discriminate L. cbn [skipn nth] in *.
  assert (Uh : u256 h) by (split; [cbn in L; lia|unfold rdigs in *; rewrite !Forall_cons_iff in H; tauto]).
  assert (Hw : 0 <= m0 < 2 ^ 64 /\ 0 <= m1 < 2 ^ 64 /\ 0 <= m2 < 2 ^ 64 /\ 0 <= m3 < 2 ^ 64) by (unfold rdigs in H; rewrite !Forall_cons_iff in H; tauto).
  assert (En : num (m0 :: m1 :: m2 :: m3 :: h) = m0 + 2 ^ 64 * m1 + 2 ^ 128 * m2 + 2 ^ 192 * m3 + 2 ^ 256 * num h) by (unfold num; cbn [rval]; ring).
  rewrite En in *. pose proof (num_bound h Uh) as Bh. unfold barrett_q1. cbn [skipn nth].
  destruct (ShiftLeft32_ok d h 4 Uh ltac:(lia)) as [Us Es]. rewrite Z.mod_small in Es by lia.
  destruct (u256_words _ Us) as (a & b & c & e & E & Ha & Hb & Hc & He). rewrite E in *. unfold or_word. cbn [nth upd].
  rewrite top_word in Es. rewrite Z.shiftr_div_pow2 by lia.
  assert (Q : 0 <= m3 / 2 ^ 60 < 2 ^ 4) by (split; [apply Z.div_pos; lia|apply Z.div_lt_upper_bound; lia]).
  assert (A16 : a = (num h - 2 ^ 60 * b - 2 ^ 124 * c - 2 ^ 188 * e) * 2 ^ 4) by lia.
  assert (EL : Z.lor a (m3 / 2 ^ 60) = a + m3 / 2 ^ 60).
  { rewrite A16 at 1. rewrite <- Z.shiftl_mul_pow2 by lia. rewrite lor_shiftl_add by lia. lia. }
  rewrite EL. split; [split; [reflexivity|repeat constructor; lia]|]. rewrite top_word.
  pose proof (Z.div_mod m3 (2 ^ 60) ltac:(lia)). pose proof (Z.mod_pos_bound m3 (2 ^ 60) ltac:(lia)).
  apply (Z.div_unique_pos _ _ _ (m0 + 2 ^ 64 * m1 + 2 ^ 128 * m2 + 2 ^ 192 * (m3 mod 2 ^ 60))); lia.
Qed.

Lemma barrett_q3_ok q2 : buf 8 q2 -> num q2 < 2 ^ 510 -> u256 (barrett_q3 q2) /\ num (barrett_q3 q2) = num q2 / 2 ^ 254.
Proof.
  intros [L H] HB. destruct q2 as [|w0 [|w1 [|w2 [|w3 [|w4 [|w5 [|w6 [|w7 [|]]]]]]]]]; try discriminate L.
  unfold rdigs in H. rewrite !Forall_cons_iff in H. destruct H as (H0 & H1 & H2 & H3 & H4 & H5 & H6 & H7 & _).
  change (barrett_q3 _) with (shl_words 64 2 w3 [w4; w5; w6; w7]).
  destruct (shl_words_ok 64 2 [w4; w5; w6; w7] ltac:(lia) w3 H3) as (L' & D' & E'); [repeat constructor; lia|].
  split; [now split|]. cbn [length last] in E'. change ((2 ^ 64) ^ Z.of_nat 4) with (2 ^ 256) in E'. change (64 - 2) with 62 in E'. change (2 ^ 2) with 4 in E'.
  fold (num [w4; w5; w6; w7]) in E'. fold (num (shl_words 64 2 w3 [w4; w5; w6; w7])) in E'. rewrite top_word in E'.
  assert (En : num [w0; w1; w2; w3; w4; w5; w6; w7] = w0 + 2 ^ 64 * w1 + 2 ^ 128 * w2 + 2 ^ 192 * w3 + 2 ^ 256 * (w4 + 2 ^ 64 * w5 + 2 ^ 128 * w6 + 2 ^ 192 * w7))
    by (unfold num; cbn [rval]; ring). rewrite En in *.
  assert (Z7 : w7 / 2 ^ 62 = 0) by (apply Z.div_small; lia). rewrite Z7 in E'.
  pose proof (Z.div_mod w3 (2 ^ 62) ltac:(lia)). pose proof (Z.mod_pos_bound w3 (2 ^ 62) ltac:(lia)).
  apply (Z.div_unique_pos _ _ _ (w0 + 2 ^ 64 * w1 + 2 ^ 128 * w2 + 2 ^ 192 * (w3 mod 2 ^ 62))); lia.
Qed.

(** The 32-bit words of a product of two words. *)
Lemma barrett_mul_ok d q3 i j : u256 q3 -> exists a b c e, barrett_mul d q3 i j = [a; b; c; e] /\
  0 <= a < 2 ^ 32 /\ 0 <= b < 2 ^ 32 /\ 0 <= c < 2 ^ 32 /\ 0 <= e < 2 ^ 32 /\
  nth i q3 0 * nth j prime 0 = a + 2 ^ 32 * b + 2 ^ 64 * c + 2 ^ 96 * e.
Proof.
  intros [_ H]. pose proof (rdigs_nth (2 ^ 64) q3 i ltac:(lia) H) as Hi. pose proof (rdigs_nth (2 ^ 64) prime j ltac:(lia) (proj2 u256_prime)) as Hj.
  destruct (Multiply8_8_ok d _ _ Hi Hj) as [[L D] E]. destruct (cast_ok 64 32 4 _ ltac:(lia) ltac:(lia) D) as (L' & D' & E'); [rewrite L; lia|].
  unfold barrett_mul. destruct (cast 64 32 4 _) as [|a [|b [|c [|e [|]]]]]; try discriminate L'. exists a, b, c, e.
  unfold rdigs in D'. rewrite !Forall_cons_iff in D'. repeat split; try apply D'. rewrite <- E. unfold num. rewrite <- E'. cbn [rval]. ring.
Qed.

(** One more digit of the sum. *)
Lemma sc_next_digit s x : 0 <= x < 2 ^ 32 -> 0 <= s < 7 * 2 ^ 32 -> exists d x', x + s = d + 2 ^ 32 * x' /\ 0 <= d < 2 ^ 32 /\ 0 <= x' < 2 ^ 32 /\
  forall done m, add_window (2 ^ 32) (done ++ x :: repeat 0 (S m)) (length done) s = (done ++ [d]) ++ x' :: repeat 0 m.
Proof.
  intros Hx Hs. exists ((x + s) mod 2 ^ 32), ((x + s) / 2 ^ 32). pose proof (Z.div_mod (x + s) (2 ^ 32) ltac:(lia)).
  pose proof (Z.mod_pos_bound (x + s) (2 ^ 32) ltac:(lia)). repeat split; try lia. intros done m. apply add_window_ok; lia.
Qed.

(** The digits of the sums of the columns: exact up to 2^256. *)
Lemma columns_sum t0 t1 s2 s3 s4 s5 s6 s7 : 0 <= t0 < 2 ^ 32 -> 0 <= t1 < 2 ^ 32 ->
  0 <= s2 < 7 * 2 ^ 32 -> 0 <= s3 < 7 * 2 ^ 32 -> 0 <= s4 < 7 * 2 ^ 32 -> 0 <= s5 < 7 * 2 ^ 32 -> 0 <= s6 < 7 * 2 ^ 32 ->
  let p := upd (upd (repeat 0 8) 0 t0) 1 t1 in
  let p := add_window (2 ^ 32) p 2 s2 in
  let p := add_window (2 ^ 32) p 3 s3 in
  let p := add_window (2 ^ 32) p 4 s4 in
  let p := add_window (2 ^ 32) p 5 s5 in
  let p := add_window (2 ^ 32) p 6 s6 in
  let p := upd p 7 ((nth 7 p 0 + s7) mod 2 ^ 32) in
  length p = 8%nat /\ rdigs (2 ^ 32) p /\
  rval (2 ^ 32) p = (t0 + 2 ^ 32 * t1 + 2 ^ 64 * s2 + 2 ^ 96 * s3 + 2 ^ 128 * s4 + 2 ^ 160 * s5 + 2 ^ 192 * s6 + 2 ^ 224 * s7) mod 2 ^ 256.
Proof.
  intros H0 H1 H2 H3 H4 H5 H6. cbv zeta.
  change (upd (upd (repeat 0 8) 0 t0) 1 t1) with ([t0; t1] ++ 0 :: repeat 0 5).
  destruct (sc_next_digit s2 0 ltac:(lia) H2) as (d2 & x2 & E2 & D2 & X2 & A2).
  destruct (sc_next_digit s3 x2 X2 H3) as (d3 & x3 & E3 & D3 & X3 & A3).
  destruct (sc_next_digit s4 x3 X3 H4) as (d4 & x4 & E4 & D4 & X4 & A4).
  destruct (sc_next_digit s5 x4 X4 H5) as (d5 & x5 & E5 & D5 & X5 & A5).
  destruct (sc_next_digit s6 x5 X5 H6) as (d6 & x6 & E6 & D6 & X6 & A6).
  pose proof (A2 [t0; t1] 4%nat) as B2. pose proof (A3 [t0; t1; d2] 3%nat) as B3. pose proof (A4 [t0; t1; d2; d3] 2%nat) as B4.
  pose proof (A5 [t0; t1; d2; d3; d4] 1%nat) as B5. pose proof (A6 [t0; t1; d2; d3; d4; d5] 0%nat) as B6.
  cbn [app repeat length] in B2, B3, B4, B5, B6 |- *. rewrite B2, B3, B4, B5, B6. clear A2 A3 A4 A5 A6 B2 B3 B4 B5 B6.
  cbn [upd nth length]. pose proof (Z.mod_pos_bound (x6 + s7) (2 ^ 32) ltac:(lia)) as D7. pose proof (Z.div_mod (x6 + s7) (2 ^ 32) ltac:(lia)) as E7.
  set (d7 := (x6 + s7) mod 2 ^ 32) in *. set (x7 := (x6 + s7) / 2 ^ 32) in *. clearbody d7 x7.
  split; [reflexivity|]. split; [repeat constructor; lia|]. cbn [rval].
  apply (Z.mod_unique_pos _ _ x7); lia.
Qed.

Lemma barrett_r2_ok d q3 : u256 q3 ->
  u256 (barrett_r2 (barrett_tmp d q3)) /\ num (barrett_r2 (barrett_tmp d q3)) = (num q3 * ell) mod 2 ^ 256.
Proof.
  intros U. unfold barrett_r2, barrett_tmp. unfold entry. cbn [nth].
  destruct (barrett_mul_ok d q3 0 0 U) as (a0 & a1 & a2 & a3 & -> & A0 & A1 & A2 & A3 & EA).
  destruct (barrett_mul_ok d q3 0 1 U) as (b0 & b1 & b2 & b3 & -> & B0 & B1 & B2 & B3 & EB).
  destruct (barrett_mul_ok d q3 1 0 U) as (c0 & c1 & c2 & c3 & -> & C0 & C1 & C2 & C3 & EC).
  destruct (barrett_mul_ok d q3 0 2 U) as (e0 & e1 & e2 & e3 & -> & E0 & E1 & E2 & E3 & EE).
  destruct (barrett_mul_ok d q3 1 1 U) as (f0 & f1 & f2 & f3 & -> & F0 & F1 & F2 & F3 & EF).
  destruct (barrett_mul_ok d q3 2 0 U) as (g0 & g1 & g2 & g3 & -> & G0 & G1 & G2 & G3 & EG).
  destruct (barrett_mul_ok d q3 0 3 U) as (h0 & h1 & h2 & h3 & -> & H0 & H1 & H2 & H3 & EH).
  destruct (barrett_mul_ok d q3 1 2 U) as (i0 & i1 & i2 & i3 & -> & I0 & I1 & I2 & I3 & EI).
  destruct (barrett_mul_ok d q3 2 1 U) as (j0 & j1 & j2 & j3 & -> & J0 & J1 & J2 & J3 & EJ).
  destruct (barrett_mul_ok d q3 3 0 U) as (k0 & k1 & k2 & k3 & -> & K0 & K1 & K2 & K3 & EK).
  cbn [nth].
  match goal with |- context [add_window _ _ 2 ?s2] => match goal with |- context [add_window _ _ 3 ?s3] =>
  match goal with |- context [add_window _ _ 4 ?s4] => match goal with |- context [add_window _ _ 5 ?s5] =>
  match goal with |- context [add_window _ _ 6 ?s6] => match goal with |- context [(nth 7 _ 0 + ?s7) mod _] =>
    destruct (columns_sum a0 a1 s2 s3 s4 s5 s6 s7) as (L & D & E); try lia end end end end end end.
  match goal with |- context [cast 32 64 4 ?p] => set (p' := p) in * end. clearbody p'.
  destruct (cast_ok 32 64 4 p' ltac:(lia) ltac:(lia) D) as (L' & D' & E'); [rewrite L; lia|].
  split; [now split|]. unfold num at 1. rewrite E', E.
  destruct (u256_words q3 U) as (w0 & w1 & w2 & w3 & -> & _). rewrite top_word. cbn [nth] in *. unfold prime in *. cbn [nth] in *.
  rewrite <- num_prime. unfold prime. rewrite top_word. set (p0 := 0x5812631a5cf5d3ed) in *. set (p1 := 0x14def9dea2f79cd6) in *. set (p3 := 0x1000000000000000) in *.
  clearbody p0 p1 p3. clear -EA EB EC EE EF EG EH EI EJ EK.
  match goal with |- ?x mod _ = ?y mod _ => assert (Q : exists z, y = x + z * 2 ^ 256) end.
  - exists ((h2 + 2 ^ 32 * h3) + (i2 + 2 ^ 32 * i3) + (j2 + 2 ^ 32 * j3) + (k2 + 2 ^ 32 * k3) + w1 * p3 + w2 * 0 + w3 * p1 + 2 ^ 64 * (w2 * p3 + w3 * 0) + 2 ^ 128 * (w3 * p3)).
    transitivity (w0 * p0 + 2 ^ 64 * (w0 * p1 + w1 * p0) + 2 ^ 128 * (w0 * 0 + w1 * p1 + w2 * p0) + 2 ^ 192 * (w0 * p3 + w1 * 0 + w2 * p1 + w3 * p0)
      + 2 ^ 256 * (w1 * p3 + w2 * 0 + w3 * p1) + 2 ^ 320 * (w2 * p3 + w3 * 0) + 2 ^ 384 * (w3 * p3)); [ring|].
    rewrite EA, EB, EC, EE, EF, EG, EH, EI, EJ, EK. ring.
  - destruct Q as [z ->]. symmetry. apply Z_mod_plus_full.
Qed.

Lemma or_top v : u256 v -> num v < 2 ^ 254 -> u256 (or_word v 3 0x4000000000000000) /\ num (or_word v 3 0x4000000000000000) = num v + 2 ^ 254.
Proof.
  intros U H. destruct (u256_words v U) as (a & b & c & e & -> & Ha & Hb & Hc & He). rewrite top_word in H. unfold or_word. cbn [nth upd].
  change 0x4000000000000000 with (Z.shiftl 1 62). rewrite Z.lor_comm, lor_shiftl_add by lia.
  split; [split; [reflexivity|repeat constructor; lia]|]. rewrite !top_word. lia.
Qed.

(** The estimate of the quotient is at most three too small. *)
Lemma barrett_bound m : 0 <= m < 2 ^ 508 -> let q3 := (m / 2 ^ 252 * num mu) / 2 ^ 254 in 0 <= m - q3 * ell < 2 ^ 254.
Proof.
  intros Hm q3. pose proof (Z.div_mod m (2 ^ 252) ltac:(lia)) as D1. pose proof (Z.mod_pos_bound m (2 ^ 252) ltac:(lia)) as M1.
  assert (Q1 : 0 <= m / 2 ^ 252 < 2 ^ 256) by lia.
  pose proof (Z.div_mod (m / 2 ^ 252 * num mu) (2 ^ 254) ltac:(lia)) as D2. pose proof (Z.mod_pos_bound (m / 2 ^ 252 * num mu) (2 ^ 254) ltac:(lia)) as M2.
  fold q3 in D2. set (q1 := m / 2 ^ 252) in *. set (r1 := m mod 2 ^ 252) in *. set (r2 := (q1 * num mu) mod 2 ^ 254) in *. clearbody q1 r1 r2 q3.
  change (num mu) with 0x3fffffffffffffffffffffffffffffffac84188574218ca69fb673968c28b04c in *. unfold ell. lia.
Qed.

Lemma Copy32_ok k m : buf (4 + k) m -> u256 (Copy32 m) /\ num m = num (Copy32 m) + 2 ^ 256 * num (skipn 4 m) /\ rdigs (2 ^ 64) (skipn 4 m).
Proof.
  intros [L H]. destruct m as [|a [|b [|c [|e h]]]]; try discriminate L. unfold Copy32. cbn [nth skipn].
  unfold rdigs in H. rewrite !Forall_cons_iff in H. destruct H as (Ha & Hb & Hc & He & Hh).
  split; [split; [reflexivity|repeat constructor; lia]|]. split; [|exact Hh]. unfold num. cbn [rval]. ring.
Qed.

Lemma BarrettReduce_ok d m : buf 8 m -> num m < 2 ^ 508 ->
  canonical (BarrettReduce d m) /\ num (BarrettReduce d m) = num m mod ell.
Proof.
  intros Hm HB. assert (P0 : 0 <= num m) by (apply (rval_bound (2 ^ 64)); [lia|apply Hm]).
  destruct (Copy32_ok 4 m Hm) as (Uc & Ec & Hh). change 0x3fffffffffffffff with (2 ^ 62 - 1).
  destruct (and_word_3 _ 62 ltac:(lia) Uc) as [U1 E1]. change (192 + 62) with 254 in E1.
  assert (E1' : num (and_word (Copy32 m) 3 (2 ^ 62 - 1)) = num m mod 2 ^ 254).
  { rewrite E1, Ec. replace (2 ^ 256 * num (skipn 4 m)) with (4 * num (skipn 4 m) * 2 ^ 254) by ring. symmetry. apply Z_mod_plus_full. }
  destruct (barrett_q1_ok d m Hm HB) as [Uq1 Eq1]. assert (Um : u256 mu) by (split; [reflexivity|repeat constructor; lia]).
  destruct (Multiply32_32_ok d _ _ Uq1 Um) as [Uq2 Eq2]. rewrite Eq1 in Eq2. pose proof (barrett_bound (num m) ltac:(lia)) as BB. cbv zeta in BB.
  rewrite <- Eq2 in BB. assert (Hq2 : num (Multiply32_32 d (barrett_q1 d m) mu) < 2 ^ 510).
  { rewrite Eq2. assert (num m / 2 ^ 252 < 2 ^ 256) by (apply Z.div_lt_upper_bound; lia). change (num mu) with 0x3fffffffffffffffffffffffffffffffac84188574218ca69fb673968c28b04c. lia. }
  destruct (barrett_q3_ok _ Uq2 Hq2) as [Uq3 Eq3]. rewrite <- Eq3 in BB. destruct (barrett_r2_ok d _ Uq3) as [Ur2 Er2].
  destruct (and_word_3 _ 62 ltac:(lia) Ur2) as [U2 E2]. change (192 + 62) with 254 in E2. rewrite Er2 in E2. rewrite Z.mod_mod_divide in E2 by (exists 4; reflexivity).
  unfold BarrettReduce. set (r1 := and_word (Copy32 m) 3 _) in *. set (q3 := barrett_q3 _) in *. set (r2 := and_word (barrett_r2 _) 3 _) in *.
  rewrite Compare32_lt by assumption. set (r1' := if num r1 <? num r2 then _ else _).
  pose proof (Z.mod_pos_bound (num m) (2 ^ 254) ltac:(lia)) as B1. pose proof (Z.mod_pos_bound (num q3 * ell) (2 ^ 254) ltac:(lia)) as B2.
  assert (HS : u256 r1' /\ num r1' = if num r1 <? num r2 then num r1 + 2 ^ 254 else num r1).
  { subst r1'. destruct (Z.ltb_spec (num r1) (num r2)); [apply or_top; [exact U1|lia]|now split]. }
  destruct HS as [U1' E1''].
  destruct (Sub32_num d r1' r2 U1' U2) as [Us Es]. destruct (sc_Reduce_0_ok d _ Us) as [C E]. split; [exact C|]. rewrite E.
  assert (V : num (fst (Sub32 d r1' r2)) = num m - num q3 * ell).
  { rewrite Es, E1''. pose proof (Z.div_mod (num m) (2 ^ 254) ltac:(lia)) as D1. pose proof (Z.div_mod (num q3 * ell) (2 ^ 254) ltac:(lia)) as D2.
    set (a := num m / 2 ^ 254) in *. set (b := num q3 * ell / 2 ^ 254) in *. rewrite E1', E2 in *.
    set (x := num m mod 2 ^ 254) in *. set (y := (num q3 * ell) mod 2 ^ 254) in *. clearbody a b x y.
    destruct (Z.ltb_spec x y); rewrite Z.mod_small; lia. }
  rewrite V. replace (num m - num q3 * ell) with (num m + (- num q3) * ell) by ring. apply Z_mod_plus_full.
Qed.

(** ** The operators *)

Lemma sc_of_bytes_ok d v : u256 v -> canonical (sc_of_bytes d v) /\ num (sc_of_bytes d v) = num v mod ell.
Proof.
  intros U. unfold sc_of_bytes. destruct (u256_words v U) as (a & b & c & e & E & _). replace (Copy32 v) with v by (rewrite E; reflexivity).
  now apply sc_Reduce_0_ok.
Qed.

Lemma sc_of_u64_ok x : 0 <= x < 2 ^ 64 -> canonical (sc_of_u64 x) /\ num (sc_of_u64 x) = x.
Proof. intros H. unfold sc_of_u64, Copy32_u64, canonical. rewrite top_word. repeat split; [repeat constructor; lia|unfold ell; lia|lia]. Qed.

Lemma sc_new_ok : canonical sc_new /\ num sc_new = 0.
Proof. split; [split; [split; [reflexivity|repeat constructor; lia]|reflexivity]|reflexivity]. Qed.

Lemma sc_add_ok d a b : weak a -> weak b ->
  weak (sc_add d a b) /\ num (sc_add d a b) mod ell = (num a + num b) mod ell /\ (canonical a -> canonical (sc_add d a b)).
Proof.
  intros [Ua Ha] [Ub Hb]. pose proof (num_bound a Ua). pose proof (num_bound b Ub).
  destruct (Add32_num d a b Ua Ub) as [U E]. rewrite Z.mod_small in E by (unfold ell in *; lia).
  destruct (sc_Reduce_ok d _ U ltac:(lia)) as (W & M & C). rewrite E in M. split; [exact W|]. split; [exact M|]. intros [_ Ca]. apply C. lia.
Qed.

Lemma sc_sub_ok d a b : weak a -> weak b ->
  weak (sc_sub d a b) /\ num (sc_sub d a b) mod ell = (num a - num b) mod ell /\ (canonical a -> canonical (sc_sub d a b)).
Proof.
  intros [Ua Ha] [Ub Hb]. pose proof (num_bound a Ua). pose proof (num_bound b Ub). unfold sc_sub.
  pose proof (Sub32_ok d a b Ua Ub) as S. destruct (Sub32 d a b) as [o c]. destruct S as (U & Bc & E).
  pose proof (num_bound o U). destruct (Z.ltb_spec 0 c) as [L|L].
  - assert (c = 1) by lia. subst c. destruct (Add32_num d o prime U u256_prime) as [U' E']. rewrite num_prime in E'.
    assert (V : num (fst (Add32 d o prime)) = num a - num b + ell).
    { rewrite E'. symmetry. apply (Z.mod_unique_pos _ _ 1); unfold ell in *; lia. }
    unfold weak, canonical. rewrite V. repeat split; try apply U'; try lia. replace (num a - num b + ell) with (num a - num b + 1 * ell) by ring. apply Z_mod_plus_full.
  - assert (c = 0) by lia. subst c. unfold weak, canonical. replace (num o) with (num a - num b) by lia. repeat split; try apply U; lia.
Qed.

Lemma sc_Negative_ok d a : weak a -> weak (sc_Negative d a) /\ num (sc_Negative d a) = ell - num a.
Proof.
  intros [Ua Ha]. pose proof (num_bound a Ua). destruct (Sub32_num d prime a u256_prime Ua) as [U E]. unfold weak, sc_Negative.
  rewrite E, num_prime. rewrite Z.mod_small by (unfold ell in *; lia). repeat split; try apply U; lia.
Qed.

Lemma sc_mul_ok d a b : weak a -> weak b -> canonical (sc_mul d a b) /\ num (sc_mul d a b) = (num a * num b) mod ell.
Proof.
  intros [Ua Ha] [Ub Hb]. pose proof (num_bound a Ua). pose proof (num_bound b Ub).
  destruct (Multiply32_32_ok d a b Ua Ub) as [U E]. unfold sc_mul. rewrite <- E. apply BarrettReduce_ok; [exact U|]. rewrite E.
  apply Z.le_lt_trans with (ell * ell); [apply Z.mul_le_mono_nonneg; lia|reflexivity].
Qed.

Lemma mul_words_ok w b l : 32 <= w -> 0 <= b < 2 ^ 32 -> forall c, 0 <= c < 2 ^ 32 -> rdigs (2 ^ w) l ->
  let '(o, c') := mul_words w l b c in
  length o = length l /\ rdigs (2 ^ w) o /\ 0 <= c' < 2 ^ 32 /\ rval (2 ^ w) o + (2 ^ w) ^ Z.of_nat (length l) * c' = rval (2 ^ w) l * b + c.
Proof.
  intros Hw Hb. pose proof (Z.pow_le_mono_r 2 32 w ltac:(lia) Hw) as PW. induction l as [|x l IH]; intros c Hc H; cbn [mul_words length rval].
  { repeat split; try constructor; lia. }
  apply Forall_cons_iff in H as [Hx H]. pose proof (Z.div_mod (x * b + c) (2 ^ w) ltac:(lia)) as DM. pose proof (Z.mod_pos_bound (x * b + c) (2 ^ w) ltac:(lia)) as MB.
  assert (Q : 0 <= (x * b + c) / 2 ^ w < 2 ^ 32) by (split; [apply Z.div_pos; nia|apply Z.div_lt_upper_bound; nia]).
  rewrite (Z.mod_small ((x * b + c) / 2 ^ w)) by exact Q. specialize (IH _ Q H). destruct (mul_words w l b ((x * b + c) / 2 ^ w)) as [o c'].
  destruct IH as (L & D & B & E). cbn [length rval]. rewrite Nat2Z.inj_succ, Z.pow_succ_r by lia.
  split; [now rewrite L|]. split; [constructor; [lia|exact D]|]. split; [exact B|]. set (M := (2 ^ w) ^ Z.of_nat (length l)) in *. clearbody M. nia.
Qed.

Lemma sc_mul_u32_ok d a b : weak a -> 0 <= b < 2 ^ 32 -> canonical (sc_mul_u32 d a b) /\ num (sc_mul_u32 d a b) = (num a * b) mod ell.
Proof.
  intros [Ua Ha] Hb. pose proof (num_bound a Ua) as Ba. unfold sc_mul_u32. set (w := if d then 64 else 32). set (n := if d then 4%nat else 8%nat).
  assert (Hw : w * Z.of_nat n = 256 /\ 32 <= w /\ (2 ^ w) ^ Z.of_nat n = 2 ^ 256) by (destruct d; repeat split; cbn; lia).
  destruct Hw as (Hw1 & Hw2 & Hw3). destruct (cast_ok 64 w n a ltac:(lia) ltac:(lia) (proj2 Ua)) as (L & D & E); [rewrite (proj1 Ua); lia|].
  pose proof (mul_words_ok w b (cast 64 w n a) Hw2 Hb 0 ltac:(lia) D) as M. destruct (mul_words w (cast 64 w n a) b 0) as [o c].
  destruct M as (L' & D' & B' & E'). rewrite L, Hw3 in E'. rewrite L in L'. fold (num a) in E. rewrite E, Z.add_0_r in E'.
  destruct (cast_ok w 64 4 o ltac:(lia) ltac:(lia) D') as (L'' & D'' & E''); [rewrite L'; lia|].
  assert (U : u256 (cast w 64 4 o)) by now split. rewrite <- E'. fold (num (cast w 64 4 o)) in E''. rewrite <- E''. pose proof (num_bound _ U).
  apply sc_Reduce_carry_ok; [exact U|]. split; [lia|]. assert (num a * b <= ell * (2 ^ 32 - 1)) by (apply Z.mul_le_mono_nonneg; lia). unfold ell in *. lia.
Qed.

Lemma sc_eq_ok d a b : u256 a -> u256 b -> sc_eq d a b = (num a =? num b).
Proof. apply Compare32_eq. Qed.

(** ** 512-bit numbers *)

Lemma byte_high b : 0 <= b < 256 -> negb (Z.land b 0xFC =? 0) = (4 <=? b).
Proof.
  assert (C : forallb (fun b => Bool.eqb (negb (Z.land b 0xFC =? 0)) (4 <=? b)) (map Z.of_nat (seq 0 256)) = true) by (vm_compute; reflexivity).
  intros H. rewrite forallb_forall in C. apply eqb_prop, C, in_map_iff. exists (Z.to_nat b). split; [lia|]. apply in_seq. lia.
Qed.

Lemma high_byte m : buf 8 m -> negb (Z.land (nth 63 (cast 64 8 64 m) 0) 0xFC =? 0) = (2 ^ 506 <=? num m).
Proof.
  intros [L H]. destruct (cast_ok 64 8 64 m ltac:(lia) ltac:(lia) H) as (L' & D & E); [rewrite L; lia|]. fold (num m) in E.
  pose proof (rval_bound (2 ^ 64) m ltac:(lia) H) as B. rewrite L in B. change ((2 ^ 64) ^ Z.of_nat 8) with (2 ^ 512) in B. fold (num m) in B.
  rewrite (nth_rval (2 ^ 8) _ ltac:(lia) D 63), E. change ((2 ^ 8) ^ Z.of_nat 63) with (2 ^ 504).
  assert (Q : 0 <= num m / 2 ^ 504 < 256) by (split; [apply Z.div_pos; lia|apply Z.div_lt_upper_bound; lia]).
  rewrite (Z.mod_small _ (2 ^ 8)) by exact Q. rewrite byte_high by exact Q. apply eq_true_iff_eq. rewrite !Z.leb_le. split; intros G.
  - pose proof (Z.mul_div_le (num m) (2 ^ 504) ltac:(lia)). lia.
  - apply Z.div_le_lower_bound; lia.
Qed.

Lemma Reduce64_ok d m : buf 8 m -> num m < 2 ^ 506 \/ num (skipn 4 m) mod ell < 2 ^ 252 ->
  canonical (Reduce64 d m) /\ num (Reduce64 d m) = num m mod ell.
Proof.
  intros Hm HB. unfold Reduce64. rewrite high_byte by exact Hm. destruct (Z.leb_spec (2 ^ 506) (num m)) as [G|G].
  2:{ apply BarrettReduce_ok; [exact Hm|lia]. }
  destruct HB as [HB|HB]; [lia|]. destruct (Copy32_ok 4 m Hm) as (Uc & Ec & Hh). pose proof Hm as [L _].
  assert (Uh : u256 (skipn 4 m)) by (split; [rewrite length_skipn, L; reflexivity|exact Hh]).
  destruct (sc_of_bytes_ok d _ Uh) as [[Us Cs] Es]. change (sc_Unpack d (skipn 4 m)) with (sc_of_bytes d (skipn 4 m)).
  set (s := sc_of_bytes d (skipn 4 m)) in *. replace (sc_Pack s) with s by (destruct (u256_words s Us) as (? & ? & ? & ? & -> & _); reflexivity).
  assert (En : num (Copy32 m ++ s) = num (Copy32 m) + 2 ^ 256 * num s) by (unfold num; rewrite rval_app; reflexivity).
  pose proof (num_bound _ Uc). destruct (BarrettReduce_ok d (Copy32 m ++ s)) as [C E].
  - split; [rewrite length_app, (proj1 Us); reflexivity|]. apply rdigs_app; [apply Uc|apply Us].
  - rewrite En. lia.
  - split; [exact C|]. rewrite E, En, Ec, Es. rewrite Z.add_mod, (Z.add_mod _ (2 ^ 256 * num (skipn 4 m))) by (unfold ell; lia). f_equal. f_equal. now rewrite Z.mul_mod_idemp_r by (unfold ell; lia).
Qed.

(** When the high half reduces to 2^252 or more it does not fit the estimate: the words
    of 2^508 are reduced to a wrong number. *)
Lemma Reduce64_wrong d : let m := [0; 0; 0; 0; 0; 0; 0; 2 ^ 60] in num m = 2 ^ 508 /\ num (Reduce64 d m) <> num m mod ell.
Proof. destruct d; split; vm_compute; congruence. Qed.
