(* ===== verification/ScTable.v ===== *)
(** * Powers of the natural numbers: the table of crypto/curve25519/sc25519.cpp

    [naturalPowTable] holds x^1 to x^26 for x from 1 to 51, as words of a scalar, in the
    order of the source. *)

From Stdlib Require Import ZArith List.
Import ListNotations.
Local Open Scope Z_scope.

(** 1^1 ... 5^26 *)
Definition powers_1_5 : list (list (list Z)) := [
  [[0x1; 0x0; 0x0; 0x0];
   [0x1; 0x0; 0x0; 0x0];
   [0x1; 0x0; 0x0; 0x0];
   [0x1; 0x0; 0x0; 0x0];
   [0x1; 0x0; 0x0; 0x0];
   [0x1; 0x0; 0x0; 0x0];
   [0x1; 0x0; 0x0; 0x0];
   [0x1; 0x0; 0x0; 0x0];
   [0x1; 0x0; 0x0; 0x0];
   [0x1; 0x0; 0x0; 0x0];
   [0x1; 0x0; 0x0; 0x0];
   [0x1; 0x0; 0x0; 0x0];
   [0x1; 0x0; 0x0; 0x0];
   [0x1; 0x0; 0x0; 0x0];
   [0x1; 0x0; 0x0; 0x0];
   [0x1; 0x0; 0x0; 0x0];
   [0x1; 0x0; 0x0; 0x0];
   [0x1; 0x0; 0x0; 0x0];
   [0x1; 0x0; 0x0; 0x0];
   [0x1; 0x0; 0x0; 0x0];
   [0x1; 0x0; 0x0; 0x0];
   [0x1; 0x0; 0x0; 0x0];
   [0x1; 0x0; 0x0; 0x0];
   [0x1; 0x0; 0x0; 0x0];
   [0x1; 0x0; 0x0; 0x0];
   [0x1; 0x0; 0x0; 0x0]];
  [[0x2; 0x0; 0x0; 0x0];
   [0x4; 0x0; 0x0; 0x0];
   [0x8; 0x0; 0x0; 0x0];
   [0x10; 0x0; 0x0; 0x0];
   [0x20; 0x0; 0x0; 0x0];
   [0x40; 0x0; 0x0; 0x0];
   [0x80; 0x0; 0x0; 0x0];
   [0x100; 0x0; 0x0; 0x0];
   [0x200; 0x0; 0x0; 0x0];
   [0x400; 0x0; 0x0; 0x0];
   [0x800; 0x0; 0x0; 0x0];
   [0x1000; 0x0; 0x0; 0x0];
   [0x2000; 0x0; 0x0; 0x0];
   [0x4000; 0x0; 0x0; 0x0];
   [0x8000; 0x0; 0x0; 0x0];
   [0x10000; 0x0; 0x0; 0x0];
   [0x20000; 0x0; 0x0; 0x0];
   [0x40000; 0x0; 0x0; 0x0];
   [0x80000; 0x0; 0x0; 0x0];
   [0x100000; 0x0; 0x0; 0x0];
   [0x200000; 0x0; 0x0; 0x0];
   [0x400000; 0x0; 0x0; 0x0];
   [0x800000; 0x0; 0x0; 0x0];
   [0x1000000; 0x0; 0x0; 0x0];
   [0x2000000; 0x0; 0x0; 0x0];
   [0x4000000; 0x0; 0x0; 0x0]];
  [[0x3; 0x0; 0x0; 0x0];
   [0x9; 0x0; 0x0; 0x0];
   [0x1b; 0x0; 0x0; 0x0];
   [0x51; 0x0; 0x0; 0x0];
   [0xf3; 0x0; 0x0; 0x0];
   [0x2d9; 0x0; 0x0; 0x0];
   [0x88b; 0x0; 0x0; 0x0];
   [0x19a1; 0x0; 0x0; 0x0];
   [0x4ce3; 0x0; 0x0; 0x0];
   [0xe6a9; 0x0; 0x0; 0x0];
   [0x2b3fb; 0x0; 0x0; 0x0];
   [0x81bf1; 0x0; 0x0; 0x0];
   [0x1853d3; 0x0; 0x0; 0x0];
   [0x48fb79; 0x0; 0x0; 0x0];
   [0xdaf26b; 0x0; 0x0; 0x0];
   [0x290d741; 0x0; 0x0; 0x0];
   [0x7b285c3; 0x0; 0x0; 0x0];
   [0x17179149; 0x0; 0x0; 0x0];
   [0x4546b3db; 0x0; 0x0; 0x0];
   [0xcfd41b91; 0x0; 0x0; 0x0];
   [0x26f7c52b3; 0x0; 0x0; 0x0];
   [0x74e74f819; 0x0; 0x0; 0x0];
   [0x15eb5ee84b; 0x0; 0x0; 0x0];
   [0x41c21cb8e1; 0x0; 0x0; 0x0];
   [0xc546562aa3; 0x0; 0x0; 0x0];
   [0x24fd3027fe9; 0x0; 0x0; 0x0]];
  [[0x4; 0x0; 0x0; 0x0];
   [0x10; 0x0; 0x0; 0x0];
   [0x40; 0x0; 0x0; 0x0];
   [0x100; 0x0; 0x0; 0x0];
   [0x400; 0x0; 0x0; 0x0];
   [0x1000; 0x0; 0x0; 0x0];
   [0x4000; 0x0; 0x0; 0x0];
   [0x10000; 0x0; 0x0; 0x0];
   [0x40000; 0x0; 0x0; 0x0];
   [0x100000; 0x0; 0x0; 0x0];
   [0x400000; 0x0; 0x0; 0x0];
   [0x1000000; 0x0; 0x0; 0x0];
   [0x4000000; 0x0; 0x0; 0x0];
   [0x10000000; 0x0; 0x0; 0x0];
   [0x40000000; 0x0; 0x0; 0x0];
   [0x100000000; 0x0; 0x0; 0x0];
   [0x400000000; 0x0; 0x0; 0x0];
   [0x1000000000; 0x0; 0x0; 0x0];
   [0x4000000000; 0x0; 0x0; 0x0];
   [0x10000000000; 0x0; 0x0; 0x0];
   [0x40000000000; 0x0; 0x0; 0x0];
   [0x100000000000; 0x0; 0x0; 0x0];
   [0x400000000000; 0x0; 0x0; 0x0];
   [0x1000000000000; 0x0; 0x0; 0x0];
   [0x4000000000000; 0x0; 0x0; 0x0];
   [0x10000000000000; 0x0; 0x0; 0x0]];
  [[0x5; 0x0; 0x0; 0x0];
   [0x19; 0x0; 0x0; 0x0];
   [0x7d; 0x0; 0x0; 0x0];
   [0x271; 0x0; 0x0; 0x0];
   [0xc35; 0x0; 0x0; 0x0];
   [0x3d09; 0x0; 0x0; 0x0];
   [0x1312d; 0x0; 0x0; 0x0];
   [0x5f5e1; 0x0; 0x0; 0x0];
   [0x1dcd65; 0x0; 0x0; 0x0];
   [0x9502f9; 0x0; 0x0; 0x0];
   [0x2e90edd; 0x0; 0x0; 0x0];
   [0xe8d4a51; 0x0; 0x0; 0x0];
   [0x48c27395; 0x0; 0x0; 0x0];
   [0x16bcc41e9; 0x0; 0x0; 0x0];
   [0x71afd498d; 0x0; 0x0; 0x0];
   [0x2386f26fc1; 0x0; 0x0; 0x0];
   [0xb1a2bc2ec5; 0x0; 0x0; 0x0];
   [0x3782dace9d9; 0x0; 0x0; 0x0];
   [0x1158e460913d; 0x0; 0x0; 0x0];
   [0x56bc75e2d631; 0x0; 0x0; 0x0];
   [0x1b1ae4d6e2ef5; 0x0; 0x0; 0x0];
   [0x878678326eac9; 0x0; 0x0; 0x0];
   [0x2a5a058fc295ed; 0x0; 0x0; 0x0];
   [0xd3c21bcecceda1; 0x0; 0x0; 0x0];
   [0x422ca8b0a00a425; 0x0; 0x0; 0x0];
   [0x14adf4b7320334b9; 0x0; 0x0; 0x0]]].

(** 6^1 ... 10^26 *)
Definition powers_6_10 : list (list (list Z)) := [
  [[0x6; 0x0; 0x0; 0x0];
   [0x24; 0x0; 0x0; 0x0];
   [0xd8; 0x0; 0x0; 0x0];
   [0x510; 0x0; 0x0; 0x0];
   [0x1e60; 0x0; 0x0; 0x0];
   [0xb640; 0x0; 0x0; 0x0];
   [0x44580; 0x0; 0x0; 0x0];
   [0x19a100; 0x0; 0x0; 0x0];
   [0x99c600; 0x0; 0x0; 0x0];
   [0x39aa400; 0x0; 0x0; 0x0];
   [0x159fd800; 0x0; 0x0; 0x0];
   [0x81bf1000; 0x0; 0x0; 0x0];
   [0x30a7a6000; 0x0; 0x0; 0x0];
   [0x123ede4000; 0x0; 0x0; 0x0];
   [0x6d79358000; 0x0; 0x0; 0x0];
   [0x290d7410000; 0x0; 0x0; 0x0];
   [0xf650b860000; 0x0; 0x0; 0x0];
   [0x5c5e45240000; 0x0; 0x0; 0x0];
   [0x22a359ed80000; 0x0; 0x0; 0x0];
   [0xcfd41b9100000; 0x0; 0x0; 0x0];
   [0x4def8a56600000; 0x0; 0x0; 0x0];
   [0x1d39d3e06400000; 0x0; 0x0; 0x0];
   [0xaf5af7425800000; 0x0; 0x0; 0x0];
   [0x41c21cb8e1000000; 0x0; 0x0; 0x0];
   [0x8a8cac5546000000; 0x1; 0x0; 0x0];
   [0x3f4c09ffa4000000; 0x9; 0x0; 0x0]];
  [[0x7; 0x0; 0x0; 0x0];
   [0x31; 0x0; 0x0; 0x0];
   [0x157; 0x0; 0x0; 0x0];
   [0x961; 0x0; 0x0; 0x0];
   [0x41a7; 0x0; 0x0; 0x0];
   [0x1cb91; 0x0; 0x0; 0x0];
   [0xc90f7; 0x0; 0x0; 0x0];
   [0x57f6c1; 0x0; 0x0; 0x0];
   [0x267bf47; 0x0; 0x0; 0x0];
   [0x10d63af1; 0x0; 0x0; 0x0];
   [0x75db9c97; 0x0; 0x0; 0x0];
   [0x339014821; 0x0; 0x0; 0x0];
   [0x168f08f8e7; 0x0; 0x0; 0x0];
   [0x9de93ece51; 0x0; 0x0; 0x0];
   [0x45160b7a437; 0x0; 0x0; 0x0];
   [0x1e39a5057d81; 0x0; 0x0; 0x0];
   [0xd39383266e87; 0x0; 0x0; 0x0];
   [0x5c908960d05b1; 0x0; 0x0; 0x0];
   [0x287f3c1a5b27d7; 0x0; 0x0; 0x0];
   [0x11b7aa4b87e16e1; 0x0; 0x0; 0x0];
   [0x7c05a810b72a027; 0x0; 0x0; 0x0];
   [0x3642798750226111; 0x0; 0x0; 0x0];
   [0x7bd152b330f0a777; 0x1; 0x0; 0x0];
   [0x62b942e656949441; 0xa; 0x0; 0x0];
   [0xb310d44c5e100dc7; 0x48; 0x0; 0x0];
   [0xe575ce1692706071; 0x1fc; 0x0; 0x0]];
  [[0x8; 0x0; 0x0; 0x0];
   [0x40; 0x0; 0x0; 0x0];
   [0x200; 0x0; 0x0; 0x0];
   [0x1000; 0x0; 0x0; 0x0];
   [0x8000; 0x0; 0x0; 0x0];
   [0x40000; 0x0; 0x0; 0x0];
   [0x200000; 0x0; 0x0; 0x0];
   [0x1000000; 0x0; 0x0; 0x0];
   [0x8000000; 0x0; 0x0; 0x0];
   [0x40000000; 0x0; 0x0; 0x0];
   [0x200000000; 0x0; 0x0; 0x0];
   [0x1000000000; 0x0; 0x0; 0x0];
   [0x8000000000; 0x0; 0x0; 0x0];
   [0x40000000000; 0x0; 0x0; 0x0];
   [0x200000000000; 0x0; 0x0; 0x0];
   [0x1000000000000; 0x0; 0x0; 0x0];
   [0x8000000000000; 0x0; 0x0; 0x0];
   [0x40000000000000; 0x0; 0x0; 0x0];
   [0x200000000000000; 0x0; 0x0; 0x0];
   [0x1000000000000000; 0x0; 0x0; 0x0];
   [0x8000000000000000; 0x0; 0x0; 0x0];
   [0x0; 0x4; 0x0; 0x0];
   [0x0; 0x20; 0x0; 0x0];
   [0x0; 0x100; 0x0; 0x0];
   [0x0; 0x800; 0x0; 0x0];
   [0x0; 0x4000; 0x0; 0x0]];
  [[0x9; 0x0; 0x0; 0x0];
   [0x51; 0x0; 0x0; 0x0];
   [0x2d9; 0x0; 0x0; 0x0];
   [0x19a1; 0x0; 0x0; 0x0];
   [0xe6a9; 0x0; 0x0; 0x0];
   [0x81bf1; 0x0; 0x0; 0x0];
   [0x48fb79; 0x0; 0x0; 0x0];
   [0x290d741; 0x0; 0x0; 0x0];
   [0x17179149; 0x0; 0x0; 0x0];
   [0xcfd41b91; 0x0; 0x0; 0x0];
   [0x74e74f819; 0x0; 0x0; 0x0];
   [0x41c21cb8e1; 0x0; 0x0; 0x0];
   [0x24fd3027fe9; 0x0; 0x0; 0x0];
   [0x14ce6b167f31; 0x0; 0x0; 0x0];
   [0xbb41c3ca78b9; 0x0; 0x0; 0x0];
   [0x6954fe21e3e81; 0x0; 0x0; 0x0];
   [0x3b3fcef3103289; 0x0; 0x0; 0x0];
   [0x2153e468b91c6d1; 0x0; 0x0; 0x0];
   [0x12bf307ae81ffd59; 0x0; 0x0; 0x0];
   [0xa8b8b452291fe821; 0x0; 0x0; 0x0];
   [0xee7e56e3721f2929; 0x5; 0x0; 0x0];
   [0x62710dff03187271; 0x35; 0x0; 0x0];
   [0x75f97df71bdc05f9; 0x1e0; 0x0; 0x0];
   [0x25c56daffabc35c1; 0x10e4; 0x0; 0x0];
   [0x53f0db2fd09de3c9; 0x9805; 0x0; 0x0];
   [0xf377b4ae558d0211; 0x5582f; 0x0; 0x0]];
  [[0xa; 0x0; 0x0; 0x0];
   [0x64; 0x0; 0x0; 0x0];
   [0x3e8; 0x0; 0x0; 0x0];
   [0x2710; 0x0; 0x0; 0x0];
   [0x186a0; 0x0; 0x0; 0x0];
   [0xf4240; 0x0; 0x0; 0x0];
   [0x989680; 0x0; 0x0; 0x0];
   [0x5f5e100; 0x0; 0x0; 0x0];
   [0x3b9aca00; 0x0; 0x0; 0x0];
   [0x2540be400; 0x0; 0x0; 0x0];
   [0x174876e800; 0x0; 0x0; 0x0];
   [0xe8d4a51000; 0x0; 0x0; 0x0];
   [0x9184e72a000; 0x0; 0x0; 0x0];
   [0x5af3107a4000; 0x0; 0x0; 0x0];
   [0x38d7ea4c68000; 0x0; 0x0; 0x0];
   [0x2386f26fc10000; 0x0; 0x0; 0x0];
   [0x16345785d8a0000; 0x0; 0x0; 0x0];
   [0xde0b6b3a7640000; 0x0; 0x0; 0x0];
   [0x8ac7230489e80000; 0x0; 0x0; 0x0];
   [0x6bc75e2d63100000; 0x5; 0x0; 0x0];
   [0x35c9adc5dea00000; 0x36; 0x0; 0x0];
   [0x19e0c9bab2400000; 0x21e; 0x0; 0x0];
   [0x2c7e14af6800000; 0x152d; 0x0; 0x0];
   [0x1bcecceda1000000; 0xd3c2; 0x0; 0x0];
   [0x161401484a000000; 0x84595; 0x0; 0x0];
   [0xdcc80cd2e4000000; 0x52b7d2; 0x0; 0x0]]].

(** 11^1 ... 15^26 *)
Definition powers_11_15 : list (list (list Z)) := [
  [[0xb; 0x0; 0x0; 0x0];
   [0x79; 0x0; 0x0; 0x0];
   [0x533; 0x0; 0x0; 0x0];
   [0x3931; 0x0; 0x0; 0x0];
   [0x2751b; 0x0; 0x0; 0x0];
   [0x1b0829; 0x0; 0x0; 0x0];
   [0x12959c3; 0x0; 0x0; 0x0];
   [0xcc6db61; 0x0; 0x0; 0x0];
   [0x8c8b6d2b; 0x0; 0x0; 0x0];
   [0x609fdb0d9; 0x0; 0x0; 0x0];
   [0x426de69953; 0x0; 0x0; 0x0];
   [0x2dab8e89691; 0x0; 0x0; 0x0];
   [0x1f65f1fe783b; 0x0; 0x0; 0x0];
   [0x1596165ef2a89; 0x0; 0x0; 0x0];
   [0xed72f6146d3e3; 0x0; 0x0; 0x0];
   [0xa33f092e0b1ac1; 0x0; 0x0; 0x0];
   [0x703b564fa7a264b; 0x0; 0x0; 0x0];
   [0x4d28cb56c33fa539; 0x0; 0x0; 0x0];
   [0x50c0bcba63bc1973; 0x3; 0x0; 0x0];
   [0x78481c02491517f1; 0x24; 0x0; 0x0];
   [0x2b19341923e8075b; 0x191; 0x0; 0x0];
   [0xda153d148af850e9; 0x113c; 0x0; 0x0];
   [0x5ee99fe1f8ab7a03; 0xbd9d; 0x0; 0x0];
   [0x1409deb5af5e3e21; 0x825c3; 0x0; 0x0];
   [0xdc6c91ce890cab6b; 0x599f61; 0x0; 0x0];
   [0x78aa43dfe38b5d99; 0x3d9d934; 0x0; 0x0]];
  [[0xc; 0x0; 0x0; 0x0];
   [0x90; 0x0; 0x0; 0x0];
   [0x6c0; 0x0; 0x0; 0x0];
   [0x5100; 0x0; 0x0; 0x0];
   [0x3cc00; 0x0; 0x0; 0x0];
   [0x2d9000; 0x0; 0x0; 0x0];
   [0x222c000; 0x0; 0x0; 0x0];
   [0x19a10000; 0x0; 0x0; 0x0];
   [0x1338c0000; 0x0; 0x0; 0x0];
   [0xe6a900000; 0x0; 0x0; 0x0];
   [0xacfec00000; 0x0; 0x0; 0x0];
   [0x81bf1000000; 0x0; 0x0; 0x0];
   [0x614f4c000000; 0x0; 0x0; 0x0];
   [0x48fb790000000; 0x0; 0x0; 0x0];
   [0x36bc9ac0000000; 0x0; 0x0; 0x0];
   [0x290d74100000000; 0x0; 0x0; 0x0];
   [0x1eca170c00000000; 0x0; 0x0; 0x0];
   [0x7179149000000000; 0x1; 0x0; 0x0];
   [0x51acf6c000000000; 0x11; 0x0; 0x0];
   [0xd41b910000000000; 0xcf; 0x0; 0x0];
   [0xf14acc0000000000; 0x9bd; 0x0; 0x0];
   [0x4f81900000000000; 0x74e7; 0x0; 0x0];
   [0xba12c00000000000; 0x57ad7; 0x0; 0x0];
   [0xb8e1000000000000; 0x41c21c; 0x0; 0x0];
   [0xaa8c000000000000; 0x3151958; 0x0; 0x0];
   [0xfe90000000000000; 0x24fd3027; 0x0; 0x0]];
  [[0xd; 0x0; 0x0; 0x0];
   [0xa9; 0x0; 0x0; 0x0];
   [0x895; 0x0; 0x0; 0x0];
   [0x6f91; 0x0; 0x0; 0x0];
   [0x5aa5d; 0x0; 0x0; 0x0];
   [0x49a6b9; 0x0; 0x0; 0x0];
   [0x3bd7765; 0x0; 0x0; 0x0];
   [0x309f1021; 0x0; 0x0; 0x0];
   [0x27813d1ad; 0x0; 0x0; 0x0];
   [0x201901a5c9; 0x0; 0x0; 0x0];
   [0x1a145156b35; 0x0; 0x0; 0x0];
   [0x1530821671b1; 0x0; 0x0; 0x0];
   [0x113769b23c5fd; 0x0; 0x0; 0x0];
   [0xdfd05e0d10dd9; 0x0; 0x0; 0x0];
   [0xb5d94c6a9db405; 0x0; 0x0; 0x0];
   [0x93c08e16a022441; 0x0; 0x0; 0x0];
   [0x780c7372621bd74d; 0x0; 0x0; 0x0];
   [0x18a1dccefb69eee9; 0x6; 0x0; 0x0];
   [0x40383682c46121d5; 0x4f; 0x0; 0x0];
   [0x42dac4a3f8eeb7d1; 0x406; 0x0; 0x0];
   [0x651bfc53a41f559d; 0x3451; 0x0; 0x0];
   [0x226bd03f559758f9; 0x2a822; 0x0; 0x0];
   [0xbf79933758af84a5; 0x2289bb; 0x0; 0x0];
   [0xb92c79cf80e9bc61; 0x1c0fe88; 0x0; 0x0];
   [0x67422f898bde90ed; 0x16ccecf1; 0x0; 0x0];
   [0x3e5c69fc1a4d5c09; 0x128680842; 0x0; 0x0]];
  [[0xe; 0x0; 0x0; 0x0];
   [0xc4; 0x0; 0x0; 0x0];
   [0xab8; 0x0; 0x0; 0x0];
   [0x9610; 0x0; 0x0; 0x0];
   [0x834e0; 0x0; 0x0; 0x0];
   [0x72e440; 0x0; 0x0; 0x0];
   [0x6487b80; 0x0; 0x0; 0x0];
   [0x57f6c100; 0x0; 0x0; 0x0];
   [0x4cf7e8e00; 0x0; 0x0; 0x0];
   [0x4358ebc400; 0x0; 0x0; 0x0];
   [0x3aedce4b800; 0x0; 0x0; 0x0];
   [0x339014821000; 0x0; 0x0; 0x0];
   [0x2d1e11f1ce000; 0x0; 0x0; 0x0];
   [0x277a4fb3944000; 0x0; 0x0; 0x0];
   [0x228b05bd21b8000; 0x0; 0x0; 0x0];
   [0x1e39a5057d810000; 0x0; 0x0; 0x0];
   [0xa727064cdd0e0000; 0x1; 0x0; 0x0];
   [0x2422583416c40000; 0x17; 0x0; 0x0];
   [0xf9e0d2d93eb80000; 0x143; 0x0; 0x0];
   [0xaa4b87e16e100000; 0x11b7; 0x0; 0x0];
   [0x50216e5404e00000; 0xf80b; 0x0; 0x0];
   [0x61d4089844400000; 0xd909e; 0x0; 0x0];
   [0x59987853bb800000; 0xbde8a9; 0x0; 0x0];
   [0xe656949441000000; 0xa62b942; 0x0; 0x0];
   [0x98bc201b8e000000; 0x916621a8; 0x0; 0x0];
   [0x5a49c181c4000000; 0x7f395d738; 0x0; 0x0]];
  [[0xf; 0x0; 0x0; 0x0];
   [0xe1; 0x0; 0x0; 0x0];
   [0xd2f; 0x0; 0x0; 0x0];
   [0xc5c1; 0x0; 0x0; 0x0];
   [0xb964f; 0x0; 0x0; 0x0];
   [0xadcea1; 0x0; 0x0; 0x0];
   [0xa2f1b6f; 0x0; 0x0; 0x0];
   [0x98c29b81; 0x0; 0x0; 0x0];
   [0x8f3671c8f; 0x0; 0x0; 0x0];
   [0x86430aac61; 0x0; 0x0; 0x0];
   [0x7ddeda019af; 0x0; 0x0; 0x0];
   [0x7600ec618141; 0x0; 0x0; 0x0];
   [0x6ea0dd9b692cf; 0x0; 0x0; 0x0];
   [0x67b6cfc1b29a21; 0x0; 0x0; 0x0];
   [0x613b62c597707ef; 0x0; 0x0; 0x0];
   [0x5b27ac993df97701; 0x0; 0x0; 0x0];
   [0x57531cfaa19df90f; 0x5; 0x0; 0x0];
   [0x1ddeb2af784197e1; 0x50; 0x0; 0x0];
   [0xc00c78480bd7e62f; 0x4b1; 0x0; 0x0];
   [0x40bb0c38b1a67cc1; 0x466a; 0x0; 0x0];
   [0xcaf5b75268c14f4f; 0x42039; 0x0; 0x0];
   [0xe465bdd42353a5a1; 0x3de362; 0x0; 0x0];
   [0x61f61f6e11e6b46f; 0x3a052cb; 0x0; 0x0];
   [0xbd6bd7730c849281; 0x3664d9ea; 0x0; 0x0];
   [0x19519fbdbbc4958f; 0x32fe8c4c1; 0x0; 0x0];
   [0x7bc85c1e0084c361; 0x2fcea38750; 0x0; 0x0]]].

(** 16^1 ... 20^26 *)
Definition powers_16_20 : list (list (list Z)) := [
  [[0x10; 0x0; 0x0; 0x0];
   [0x100; 0x0; 0x0; 0x0];
   [0x1000; 0x0; 0x0; 0x0];
   [0x10000; 0x0; 0x0; 0x0];
   [0x100000; 0x0; 0x0; 0x0];
   [0x1000000; 0x0; 0x0; 0x0];
   [0x10000000; 0x0; 0x0; 0x0];
   [0x100000000; 0x0; 0x0; 0x0];
   [0x1000000000; 0x0; 0x0; 0x0];
   [0x10000000000; 0x0; 0x0; 0x0];
   [0x100000000000; 0x0; 0x0; 0x0];
   [0x1000000000000; 0x0; 0x0; 0x0];
   [0x10000000000000; 0x0; 0x0; 0x0];
   [0x100000000000000; 0x0; 0x0; 0x0];
   [0x1000000000000000; 0x0; 0x0; 0x0];
   [0x0; 0x1; 0x0; 0x0];
   [0x0; 0x10; 0x0; 0x0];
   [0x0; 0x100; 0x0; 0x0];
   [0x0; 0x1000; 0x0; 0x0];
   [0x0; 0x10000; 0x0; 0x0];
   [0x0; 0x100000; 0x0; 0x0];
   [0x0; 0x1000000; 0x0; 0x0];
   [0x0; 0x10000000; 0x0; 0x0];
   [0x0; 0x100000000; 0x0; 0x0];
   [0x0; 0x1000000000; 0x0; 0x0];
   [0x0; 0x10000000000; 0x0; 0x0]];
  [[0x11; 0x0; 0x0; 0x0];
   [0x121; 0x0; 0x0; 0x0];
   [0x1331; 0x0; 0x0; 0x0];
   [0x14641; 0x0; 0x0; 0x0];
   [0x15aa51; 0x0; 0x0; 0x0];
   [0x1704f61; 0x0; 0x0; 0x0];
   [0x18754571; 0x0; 0x0; 0x0];
   [0x19fc99c81; 0x0; 0x0; 0x0];
   [0x1b9c636491; 0x0; 0x0; 0x0];
   [0x1d56299ada1; 0x0; 0x0; 0x0];
   [0x1f2b8c3487b1; 0x0; 0x0; 0x0];
   [0x211e44f7d02c1; 0x0; 0x0; 0x0];
   [0x233029474d2ed1; 0x0; 0x0; 0x0];
   [0x25632bdbc201be1; 0x0; 0x0; 0x0];
   [0x27b95e997e21d9f1; 0x0; 0x0; 0x0];
   [0xa34f4831603f7901; 0x2; 0x0; 0x0];
   [0xd843cb4764370911; 0x2c; 0x0; 0x0];
   [0x5c807fbda7a79a21; 0x2fa; 0x0; 0x0];
   [0x24887b9822213c31; 0x32a0; 0x0; 0x0];
   [0x6d10351a4434ff41; 0x35ca2; 0x0; 0x0];
   [0x3e1386be8784f351; 0x3926c9; 0x0; 0x0];
   [0x1f4bf2a6ffd42861; 0x3cb935d; 0x0; 0x0];
   [0x140b1d16fd16ae71; 0x4084c92f; 0x0; 0x0];
   [0x54bcee86ce819581; 0x448d15c20; 0x0; 0x0];
   [0xa08bd6f3b69aed91; 0x48d5e71e25; 0x0; 0x0];
   [0xa949462f2049c6a1; 0x4d63459007f; 0x0; 0x0]];
  [[0x12; 0x0; 0x0; 0x0];
   [0x144; 0x0; 0x0; 0x0];
   [0x16c8; 0x0; 0x0; 0x0];
   [0x19a10; 0x0; 0x0; 0x0];
   [0x1cd520; 0x0; 0x0; 0x0];
   [0x206fc40; 0x0; 0x0; 0x0];
   [0x247dbc80; 0x0; 0x0; 0x0];
   [0x290d74100; 0x0; 0x0; 0x0];
   [0x2e2f229200; 0x0; 0x0; 0x0];
   [0x33f506e4400; 0x0; 0x0; 0x0];
   [0x3a73a7c0c800; 0x0; 0x0; 0x0];
   [0x41c21cb8e1000; 0x0; 0x0; 0x0];
   [0x49fa604ffd2000; 0x0; 0x0; 0x0];
   [0x5339ac59fcc4000; 0x0; 0x0; 0x0];
   [0x5da0e1e53c5c8000; 0x0; 0x0; 0x0];
   [0x954fe21e3e810000; 0x6; 0x0; 0x0];
   [0x7f9de62065120000; 0x76; 0x0; 0x0];
   [0xf91a2e471b440000; 0x854; 0x0; 0x0];
   [0x83d740ffeac80000; 0x95f9; 0x0; 0x0];
   [0x452291fe82100000; 0xa8b8b; 0x0; 0x0];
   [0xdc6e43e525200000; 0xbdcfca; 0x0; 0x0];
   [0x7fc0c61c9c400000; 0xd589c43; 0x0; 0x0];
   [0xfb8dee02fc800000; 0xf03afcbe; 0x0; 0x0];
   [0xaffabc35c1000000; 0x10e425c56d; 0x0; 0x0];
   [0x5fa13bc792000000; 0x1300aa7e1b6; 0x0; 0x0];
   [0xb956340844000000; 0x1560bfcdded2; 0x0; 0x0]];
  [[0x13; 0x0; 0x0; 0x0];
   [0x169; 0x0; 0x0; 0x0];
   [0x1acb; 0x0; 0x0; 0x0];
   [0x1fd11; 0x0; 0x0; 0x0];
   [0x25c843; 0x0; 0x0; 0x0];
   [0x2cddcf9; 0x0; 0x0; 0x0];
   [0x3547667b; 0x0; 0x0; 0x0];
   [0x3f44c9b21; 0x0; 0x0; 0x0];
   [0x4b21af8373; 0x0; 0x0; 0x0];
   [0x5938006c189; 0x0; 0x0; 0x0];
   [0x69f280805d2b; 0x0; 0x0; 0x0];
   [0x7dcff8986ea31; 0x0; 0x0; 0x0];
   [0x9566f7350361a3; 0x0; 0x0; 0x0];
   [0xb16a458ef403f19; 0x0; 0x0; 0x0];
   [0xd2ae3299c1c4aedb; 0x0; 0x0; 0x0];
   [0xa2edc1696198fa41; 0xf; 0x0; 0x0];
   [0x17a55ad23e5a92d3; 0x129; 0x0; 0x0];
   [0xc145bd9aa0b8e5a9; 0x160c; 0x0; 0x0];
   [0x582d1279edb90b8b; 0x1a2f2; 0x0; 0x0];
   [0x8b585f0ca4bbdb51; 0x1f17fc; 0x0; 0x0];
   [0x578f0df039f14703; 0x24ec7be; 0x0; 0x0];
   [0x7f9e08d44ce84539; 0x2bd8d320; 0x0; 0x0];
   [0x78baa7c1b53d233b; 0x34117ab69; 0x0; 0x0];
   [0xf5da736073899d61; 0x3dd4c1b8d3; 0x0; 0x0];
   [0x3f3690289336ae33; 0x496ca60b7bb; 0x0; 0x0];
   [0xb10cb302ed0eedc9; 0x5731052da2e5; 0x0; 0x0]];
  [[0x14; 0x0; 0x0; 0x0];
   [0x190; 0x0; 0x0; 0x0];
   [0x1f40; 0x0; 0x0; 0x0];
   [0x27100; 0x0; 0x0; 0x0];
   [0x30d400; 0x0; 0x0; 0x0];
   [0x3d09000; 0x0; 0x0; 0x0];
   [0x4c4b4000; 0x0; 0x0; 0x0];
   [0x5f5e10000; 0x0; 0x0; 0x0];
   [0x7735940000; 0x0; 0x0; 0x0];
   [0x9502f900000; 0x0; 0x0; 0x0];
   [0xba43b7400000; 0x0; 0x0; 0x0];
   [0xe8d4a51000000; 0x0; 0x0; 0x0];
   [0x12309ce54000000; 0x0; 0x0; 0x0];
   [0x16bcc41e90000000; 0x0; 0x0; 0x0];
   [0xc6bf526340000000; 0x1; 0x0; 0x0];
   [0x86f26fc100000000; 0x23; 0x0; 0x0];
   [0x8af0bb1400000000; 0x2c6; 0x0; 0x0];
   [0xdace9d9000000000; 0x3782; 0x0; 0x0];
   [0x18244f4000000000; 0x45639; 0x0; 0x0];
   [0xe2d6310000000000; 0x56bc75; 0x0; 0x0];
   [0xb8bbd40000000000; 0x6c6b935; 0x0; 0x0];
   [0x6eac900000000000; 0x87867832; 0x0; 0x0];
   [0xa57b400000000000; 0xa968163f0; 0x0; 0x0];
   [0xeda1000000000000; 0xd3c21bcecc; 0x0; 0x0];
   [0x9094000000000000; 0x108b2a2c2802; 0x0; 0x0];
   [0x4b90000000000000; 0x14adf4b732033; 0x0; 0x0]]].

(** 21^1 ... 25^26 *)
Definition powers_21_25 : list (list (list Z)) := [
  [[0x15; 0x0; 0x0; 0x0];
   [0x1b9; 0x0; 0x0; 0x0];
   [0x242d; 0x0; 0x0; 0x0];
   [0x2f7b1; 0x0; 0x0; 0x0];
   [0x3e5185; 0x0; 0x0; 0x0];
   [0x51cafe9; 0x0; 0x0; 0x0];
   [0x6b5a6e1d; 0x0; 0x0; 0x0];
   [0x8ce6b0861; 0x0; 0x0; 0x0];
   [0xb8eec7aff5; 0x0; 0x0; 0x0];
   [0xf2b96616f19; 0x0; 0x0; 0x0];
   [0x13e9355fe1d0d; 0x0; 0x0; 0x0];
   [0x1a22160dd86211; 0x0; 0x0; 0x0];
   [0x224cbcf22c00b65; 0x0; 0x0; 0x0];
   [0x2d04b7fdd9c0ef49; 0x0; 0x0; 0x0];
   [0xb16317d2dcd3a0fd; 0x3; 0x0; 0x0];
   [0x8d20f44c1d5c34c1; 0x4d; 0x0; 0x0];
   [0x93b40a3e689053d5; 0x65c; 0x0; 0x0];
   [0x1dc4d71e93d6e079; 0x8598; 0x0; 0x0];
   [0x7125a58220a069ed; 0xaf57a; 0x0; 0x0];
   [0x481693acad28b071; 0xe6230b; 0x0; 0x0];
   [0xe9da1d2a34567945; 0x12e0dfec; 0x0; 0x0];
   [0x2ee464764b17f2a9; 0x18c725e6f; 0x0; 0x0];
   [0xd8bc3db428f6e7dd; 0x208561bf1e; 0x0; 0x0];
   [0xc7710fc75c410521; 0x2aaf104ad87; 0x0; 0x0];
   [0x5c464b5a91556bb5; 0x3805c5623c23; 0x0; 0x0];
   [0x91c42e6dec01d5d9; 0x49879310eeee6; 0x0; 0x0]];
  [[0x16; 0x0; 0x0; 0x0];
   [0x1e4; 0x0; 0x0; 0x0];
   [0x2998; 0x0; 0x0; 0x0];
   [0x39310; 0x0; 0x0; 0x0];
   [0x4ea360; 0x0; 0x0; 0x0];
   [0x6c20a40; 0x0; 0x0; 0x0];
   [0x94ace180; 0x0; 0x0; 0x0];
   [0xcc6db6100; 0x0; 0x0; 0x0];
   [0x11916da5600; 0x0; 0x0; 0x0];
   [0x1827f6c36400; 0x0; 0x0; 0x0];
   [0x2136f34ca9800; 0x0; 0x0; 0x0];
   [0x2dab8e89691000; 0x0; 0x0; 0x0];
   [0x3ecbe3fcf076000; 0x0; 0x0; 0x0];
   [0x5658597bcaa24000; 0x0; 0x0; 0x0];
   [0x6b97b0a369f18000; 0x7; 0x0; 0x0];
   [0x3f092e0b1ac10000; 0xa3; 0x0; 0x0];
   [0x6ac9f4f44c960000; 0xe07; 0x0; 0x0];
   [0x2d5b0cfe94e40000; 0x134a3; 0x0; 0x0];
   [0xe5d31de0cb980000; 0x1a8605; 0x0; 0x0];
   [0xc02491517f100000; 0x2478481; 0x0; 0x0];
   [0x83247d00eb600000; 0x32256326; 0x0; 0x0];
   [0x4522be143a400000; 0x44f36854f; 0x0; 0x0];
   [0xf0fc55bd01800000; 0x5eceaf74cf; 0x0; 0x0];
   [0xb5af5e3e21000000; 0x825c31409de; 0x0; 0x0];
   [0x9d121956d6000000; 0xb33ec3b8d923; 0x0; 0x0];
   [0x7f8e2d7664000000; 0xf6764d1e2a90f; 0x0; 0x0]];
  [[0x17; 0x0; 0x0; 0x0];
   [0x211; 0x0; 0x0; 0x0];
   [0x2f87; 0x0; 0x0; 0x0];
   [0x44521; 0x0; 0x0; 0x0];
   [0x6235f7; 0x0; 0x0; 0x0];
   [0x8d2d931; 0x0; 0x0; 0x0];
   [0xcaf18367; 0x0; 0x0; 0x0];
   [0x123bb2ce41; 0x0; 0x0; 0x0];
   [0x1a35d1087d7; 0x0; 0x0; 0x0];
   [0x25ad5c7c3451; 0x0; 0x0; 0x0];
   [0x362934f28b347; 0x0; 0x0; 0x0];
   [0x4ddb3c1ca81b61; 0x0; 0x0; 0x0];
   [0x6feb266931a75b7; 0x0; 0x0; 0x0];
   [0xa0e2073737609371; 0x0; 0x0; 0x0];
   [0x744ea5f5f9ad3f27; 0xe; 0x0; 0x0];
   [0x7310e9196e90ac81; 0x14c; 0x0; 0x0];
   [0x5684f148eeff7f97; 0x1dde; 0x0; 0x0];
   [0xc5f1ad8d78f47691; 0x2aef9; 0x0; 0x0];
   [0xc8b697b5ddf6a707; 0x3db870; 0x0; 0x0];
   [0x867a156f12901a1; 0x58b9222; 0x0; 0x0];
   [0xc14f7ecfaaaf2577; 0x7f8a210e; 0x0; 0x0];
   [0x5e2464a855bc5db1; 0xb7568f853; 0x0; 0x0];
   [0x75450b1fb3ec6ae7; 0x1078c6e4f7d; 0x0; 0x0];
   [0x8933ffd92a3d9ac1; 0x17ad9de92445; 0x0; 0x0];
   [0x53abfc82cb88e757; 0x220992ff2423f; 0x0; 0x0];
   [0x8473afc0494cc8d1; 0x30edc34ec3f3b0; 0x0; 0x0]];
  [[0x18; 0x0; 0x0; 0x0];
   [0x240; 0x0; 0x0; 0x0];
   [0x3600; 0x0; 0x0; 0x0];
   [0x51000; 0x0; 0x0; 0x0];
   [0x798000; 0x0; 0x0; 0x0];
   [0xb640000; 0x0; 0x0; 0x0];
   [0x111600000; 0x0; 0x0; 0x0];
   [0x19a1000000; 0x0; 0x0; 0x0];
   [0x26718000000; 0x0; 0x0; 0x0];
   [0x39aa40000000; 0x0; 0x0; 0x0];
   [0x567f600000000; 0x0; 0x0; 0x0];
   [0x81bf1000000000; 0x0; 0x0; 0x0];
   [0xc29e98000000000; 0x0; 0x0; 0x0];
   [0x23ede40000000000; 0x1; 0x0; 0x0];
   [0x5e4d600000000000; 0x1b; 0x0; 0x0];
   [0xd741000000000000; 0x290; 0x0; 0x0];
   [0x2e18000000000000; 0x3d94; 0x0; 0x0];
   [0x5240000000000000; 0x5c5e4; 0x0; 0x0];
   [0xb600000000000000; 0x8a8d67; 0x0; 0x0];
   [0x1000000000000000; 0xcfd41b9; 0x0; 0x0];
   [0x8000000000000000; 0x137be2959; 0x0; 0x0];
   [0x0; 0x1d39d3e064; 0x0; 0x0];
   [0x0; 0x2bd6bdd0960; 0x0; 0x0];
   [0x0; 0x41c21cb8e100; 0x0; 0x0];
   [0x0; 0x62a32b1551800; 0x0; 0x0];
   [0x0; 0x93f4c09ffa4000; 0x0; 0x0]];
  [[0x19; 0x0; 0x0; 0x0];
   [0x271; 0x0; 0x0; 0x0];
   [0x3d09; 0x0; 0x0; 0x0];
   [0x5f5e1; 0x0; 0x0; 0x0];
   [0x9502f9; 0x0; 0x0; 0x0];
   [0xe8d4a51; 0x0; 0x0; 0x0];
   [0x16bcc41e9; 0x0; 0x0; 0x0];
   [0x2386f26fc1; 0x0; 0x0; 0x0];
   [0x3782dace9d9; 0x0; 0x0; 0x0];
   [0x56bc75e2d631; 0x0; 0x0; 0x0];
   [0x878678326eac9; 0x0; 0x0; 0x0];
   [0xd3c21bcecceda1; 0x0; 0x0; 0x0];
   [0x14adf4b7320334b9; 0x0; 0x0; 0x0];
   [0x4fce5e3e2502611; 0x2; 0x0; 0x0];
   [0x7cb2734119d3b7a9; 0x32; 0x0; 0x0];
   [0x2d6d415b85acef81; 0x4ee; 0x0; 0x0];
   [0x6fab61f00de36399; 0x7b42; 0x0; 0x0];
   [0xe7bc90715b34b9f1; 0xc097c; 0x0; 0x0];
   [0xa16a1b11e8262889; 0x12ced32; 0x0; 0x0];
   [0xc35ca4bfabb9f561; 0x1d6329f1; 0x0; 0x0];
   [0x140c16b7c528f679; 0x2deaf189c; 0x0; 0x0];
   [0xf52e37f2410011d1; 0x47bf19673d; 0x0; 0x0];
   [0xf18376a85901bd69; 0x701a97b150c; 0x0; 0x0];
   [0x95d69670b12b7f41; 0xaf298d050e43; 0x0; 0x0];
   [0xa1f4b1014d3f6d59; 0x111b0ec57e6499; 0x0; 0x0];
   [0xd0e549208b31adb1; 0x1aba4714957d300; 0x0; 0x0]]].

(** 26^1 ... 30^26 *)
Definition powers_26_30 : list (list (list Z)) := [
  [[0x1a; 0x0; 0x0; 0x0];
   [0x2a4; 0x0; 0x0; 0x0];
   [0x44a8; 0x0; 0x0; 0x0];
   [0x6f910; 0x0; 0x0; 0x0];
   [0xb54ba0; 0x0; 0x0; 0x0];
   [0x1269ae40; 0x0; 0x0; 0x0];
   [0x1debbb280; 0x0; 0x0; 0x0];
   [0x309f102100; 0x0; 0x0; 0x0];
   [0x4f027a35a00; 0x0; 0x0; 0x0];
   [0x806406972400; 0x0; 0x0; 0x0];
   [0xd0a28ab59a800; 0x0; 0x0; 0x0];
   [0x1530821671b1000; 0x0; 0x0; 0x0];
   [0x226ed36478bfa000; 0x0; 0x0; 0x0];
   [0x7f41783443764000; 0x3; 0x0; 0x0];
   [0xeca6354eda028000; 0x5a; 0x0; 0x0];
   [0x8e16a0224410000; 0x93c; 0x0; 0x0];
   [0xe6e4c437ae9a0000; 0xf018; 0x0; 0x0];
   [0x733beda7bba40000; 0x186287; 0x0; 0x0];
   [0xb41623090ea80000; 0x27a01c1; 0x0; 0x0];
   [0x4a3f8eeb7d100000; 0x40642dac; 0x0; 0x0];
   [0x8a7483eab3a00000; 0x68a2ca37f; 0x0; 0x0];
   [0xfd565d63e400000; 0xaa08889af4; 0x0; 0x0];
   [0x9bac57c252800000; 0x1144dddfbcc9; 0x0; 0x0];
   [0xcf80e9bc61000000; 0x1c0fe88b92c79; 0x0; 0x0];
   [0x1317bd21da000000; 0x2d99d9e2ce845f; 0x0; 0x0];
   [0xf069357024000000; 0x4a1a02108f971a7; 0x0; 0x0]];
  [[0x1b; 0x0; 0x0; 0x0];
   [0x2d9; 0x0; 0x0; 0x0];
   [0x4ce3; 0x0; 0x0; 0x0];
   [0x81bf1; 0x0; 0x0; 0x0];
   [0xdaf26b; 0x0; 0x0; 0x0];
   [0x17179149; 0x0; 0x0; 0x0];
   [0x26f7c52b3; 0x0; 0x0; 0x0];
   [0x41c21cb8e1; 0x0; 0x0; 0x0];
   [0x6ef79077fbb; 0x0; 0x0; 0x0];
   [0xbb41c3ca78b9; 0x0; 0x0; 0x0];
   [0x13bfefa65abb83; 0x0; 0x0; 0x0];
   [0x2153e468b91c6d1; 0x0; 0x0; 0x0];
   [0x383d9170b85ff80b; 0x0; 0x0; 0x0];
   [0xee7e56e3721f2929; 0x5; 0x0; 0x0];
   [0x275329fd09495753; 0xa0; 0x0; 0x0];
   [0x25c56daffabc35c1; 0x10e4; 0x0; 0x0];
   [0xfbd2918f71d9ab5b; 0x1c80f; 0x0; 0x0];
   [0x8f355a2101f51299; 0x3019af; 0x0; 0x0];
   [0x1aa0817b34d8f623; 0x512b584; 0x0; 0x0];
   [0xceeda7fe92e1f5b1; 0x88f924ee; 0x0; 0x0];
   [0xd310b7d97dd4e9ab; 0xe7246e52f; 0x0; 0x0];
   [0x42c363f04574a509; 0x1860d7a2c0b; 0x0; 0x0];
   [0xa9b8a57534d67f3; 0x29236be2a530; 0x0; 0x0];
   [0x1e679735c929f6a1; 0x456bc60e76c11; 0x0; 0x0];
   [0x34ecf2ac376d02fb; 0x7525de386865ce; 0x0; 0x0];
   [0x94fd9829d87f5079; 0xc5afe6ff302bcbf; 0x0; 0x0]];
  [[0x1c; 0x0; 0x0; 0x0];
   [0x310; 0x0; 0x0; 0x0];
   [0x55c0; 0x0; 0x0; 0x0];
   [0x96100; 0x0; 0x0; 0x0];
   [0x1069c00; 0x0; 0x0; 0x0];
   [0x1cb91000; 0x0; 0x0; 0x0];
   [0x3243dc000; 0x0; 0x0; 0x0];
   [0x57f6c10000; 0x0; 0x0; 0x0];
   [0x99efd1c0000; 0x0; 0x0; 0x0];
   [0x10d63af100000; 0x0; 0x0; 0x0];
   [0x1d76e725c00000; 0x0; 0x0; 0x0];
   [0x339014821000000; 0x0; 0x0; 0x0];
   [0x5a3c23e39c000000; 0x0; 0x0; 0x0];
   [0xde93ece510000000; 0x9; 0x0; 0x0];
   [0x582de90dc0000000; 0x114; 0x0; 0x0];
   [0xa5057d8100000000; 0x1e39; 0x0; 0x0];
   [0xc99ba1c00000000; 0x34e4e; 0x0; 0x0];
   [0x60d05b1000000000; 0x5c9089; 0x0; 0x0];
   [0x96c9f5c000000000; 0xa1fcf06; 0x0; 0x0];
   [0x7e16e10000000000; 0x11b7aa4b8; 0x0; 0x0];
   [0xca809c0000000000; 0x1f016a042d; 0x0; 0x0];
   [0x2611100000000000; 0x36427987502; 0x0; 0x0];
   [0x29ddc00000000000; 0x5ef454accc3c; 0x0; 0x0];
   [0x9441000000000000; 0xa62b942e65694; 0x0; 0x0];
   [0x371c000000000000; 0x122cc4351317840; 0x0; 0x0];
   [0x710000000000000; 0x1fce575ce1692706; 0x0; 0x0]];
  [[0x1d; 0x0; 0x0; 0x0];
   [0x349; 0x0; 0x0; 0x0];
   [0x5f45; 0x0; 0x0; 0x0];
   [0xacad1; 0x0; 0x0; 0x0];
   [0x138f9ad; 0x0; 0x0; 0x0];
   [0x23744899; 0x0; 0x0; 0x0];
   [0x4042c3955; 0x0; 0x0; 0x0];
   [0x7479027ea1; 0x0; 0x0; 0x0];
   [0xd31b548583d; 0x0; 0x0; 0x0];
   [0x17ea18931fee9; 0x0; 0x0; 0x0];
   [0x2b584c8aa9e065; 0x0; 0x0; 0x0];
   [0x4e900abb53e6b71; 0x0; 0x0; 0x0];
   [0x8e65137388122bcd; 0x0; 0x0; 0x0];
   [0x217334166a0ef639; 0x10; 0x0; 0x0];
   [0xca0ce68a03b1e475; 0x1d3; 0x0; 0x0];
   [0xe3761da26b26e141; 0x34fd; 0x0; 0x0];
   [0xc4615b662367845d; 0x600c2; 0x0; 0x0];
   [0x3f075a9202b9fe89; 0xae1610; 0x0; 0x0];
   [0x23d5428a4f11d585; 0x13b87fd7; 0x0; 0x0];
   [0xf2889aaf5053011; 0x23be67b5f; 0x0; 0x0];
   [0xb797985dc19671ed; 0x40c91bf9c4; 0x0; 0x0];
   [0xcc2c429eee0ae7d9; 0x756c82b4b48; 0x0; 0x0];
   [0x21038c00f73c4395; 0xd4d4ace7873f; 0x0; 0x0];
   [0xbd66dc1c01d3a7e1; 0x181c17963a5226; 0x0; 0x0];
   [0x74a6ef2c34fa047d; 0x2bb2eac049b4e63; 0x0; 0x0];
   [0x36e9180200528229; 0x4f34497c8597e144; 0x0; 0x0]];
  [[0x1e; 0x0; 0x0; 0x0];
   [0x384; 0x0; 0x0; 0x0];
   [0x6978; 0x0; 0x0; 0x0];
   [0xc5c10; 0x0; 0x0; 0x0];
   [0x172c9e0; 0x0; 0x0; 0x0];
   [0x2b73a840; 0x0; 0x0; 0x0];
   [0x5178db780; 0x0; 0x0; 0x0];
   [0x98c29b8100; 0x0; 0x0; 0x0];
   [0x11e6ce391e00; 0x0; 0x0; 0x0];
   [0x2190c2ab18400; 0x0; 0x0; 0x0];
   [0x3eef6d00cd7800; 0x0; 0x0; 0x0];
   [0x7600ec618141000; 0x0; 0x0; 0x0];
   [0xdd41bb36d259e000; 0x0; 0x0; 0x0];
   [0xedb3f06ca6884000; 0x19; 0x0; 0x0];
   [0xdb162cbb83f78000; 0x309; 0x0; 0x0];
   [0xac993df977010000; 0x5b27; 0x0; 0x0];
   [0x39f5433bf21e0000; 0xaaea6; 0x0; 0x0];
   [0xcabde1065f840000; 0x140777a; 0x0; 0x0];
   [0xc2405ebf31780000; 0x258e0063; 0x0; 0x0];
   [0xc38b1a67cc100000; 0x466a40bb0; 0x0; 0x0];
   [0xea4d1829e9e00000; 0x8407395eb6; 0x0; 0x0];
   [0x7508d4e968400000; 0xf78d8b9196f; 0x0; 0x0];
   [0xb708f35a37800000; 0x1d02965b0fb0f; 0x0; 0x0];
   [0x730c849281000000; 0x3664d9eabd6bd7; 0x0; 0x0];
   [0x7b77892b1e000000; 0x65fd1898232a33f; 0x0; 0x0];
   [0x7802130d84000000; 0xbf3a8e1d41ef2170; 0x0; 0x0]]].

(** 31^1 ... 35^26 *)
Definition powers_31_35 : list (list (list Z)) := [
  [[0x1f; 0x0; 0x0; 0x0];
   [0x3c1; 0x0; 0x0; 0x0];
   [0x745f; 0x0; 0x0; 0x0];
   [0xe1781; 0x0; 0x0; 0x0];
   [0x1b4d89f; 0x0; 0x0; 0x0];
   [0x34e63b41; 0x0; 0x0; 0x0];
   [0x667e12cdf; 0x0; 0x0; 0x0];
   [0xc694446f01; 0x0; 0x0; 0x0];
   [0x180bf449711f; 0x0; 0x0; 0x0];
   [0x2e97294e4b2c1; 0x0; 0x0; 0x0];
   [0x5a44e007b1a55f; 0x0; 0x0; 0x0];
   [0xaee5720ee830681; 0x0; 0x0; 0x0];
   [0x52dc8cfce1ddc99f; 0x1; 0x0; 0x0];
   [0x8b5129f59db6a41; 0x29; 0x0; 0x0];
   [0xded414be191dddf; 0x4f8; 0x0; 0x0];
   [0xafbae83050a9de01; 0x9a09; 0x0; 0x0];
   [0x47a21dd9c491e21f; 0x12a72c; 0x0; 0x0];
   [0xaca19d5ecdaa61c1; 0x2423e5c; 0x0; 0x0];
   [0xe7920e7ae7a1d65f; 0x46058d38; 0x0; 0x0];
   [0xaafc0e20c98f581; 0x87aac19e4; 0x0; 0x0];
   [0x4b485b5f8685ba9f; 0x106dad7229d; 0x0; 0x0];
   [0x1dc310914a319941; 0x1fd4800d310c; 0x0; 0x0];
   [0x9a9f0197fc018edf; 0x3dabb8198f077; 0x0; 0x0];
   [0xb941316784304d01; 0x777cb4b1851e7b; 0x0; 0x0];
   [0x6ee4fb8901d9531f; 0xe7819e17f1eb0fb; 0x0; 0x0];
   [0x6dba7597395110c1; 0xc08b224e64b76e72; 0x1; 0x0]];
  [[0x20; 0x0; 0x0; 0x0];
   [0x400; 0x0; 0x0; 0x0];
   [0x8000; 0x0; 0x0; 0x0];
   [0x100000; 0x0; 0x0; 0x0];
   [0x2000000; 0x0; 0x0; 0x0];
   [0x40000000; 0x0; 0x0; 0x0];
   [0x800000000; 0x0; 0x0; 0x0];
   [0x10000000000; 0x0; 0x0; 0x0];
   [0x200000000000; 0x0; 0x0; 0x0];
   [0x4000000000000; 0x0; 0x0; 0x0];
   [0x80000000000000; 0x0; 0x0; 0x0];
   [0x1000000000000000; 0x0; 0x0; 0x0];
   [0x0; 0x2; 0x0; 0x0];
   [0x0; 0x40; 0x0; 0x0];
   [0x0; 0x800; 0x0; 0x0];
   [0x0; 0x10000; 0x0; 0x0];
   [0x0; 0x200000; 0x0; 0x0];
   [0x0; 0x4000000; 0x0; 0x0];
   [0x0; 0x80000000; 0x0; 0x0];
   [0x0; 0x1000000000; 0x0; 0x0];
   [0x0; 0x20000000000; 0x0; 0x0];
   [0x0; 0x400000000000; 0x0; 0x0];
   [0x0; 0x8000000000000; 0x0; 0x0];
   [0x0; 0x100000000000000; 0x0; 0x0];
   [0x0; 0x2000000000000000; 0x0; 0x0];
   [0x0; 0x0; 0x4; 0x0]];
  [[0x21; 0x0; 0x0; 0x0];
   [0x441; 0x0; 0x0; 0x0];
   [0x8c61; 0x0; 0x0; 0x0];
   [0x121881; 0x0; 0x0; 0x0];
   [0x25528a1; 0x0; 0x0; 0x0];
   [0x4cfa3cc1; 0x0; 0x0; 0x0];
   [0x9ec41d4e1; 0x0; 0x0; 0x0];
   [0x147747c7101; 0x0; 0x0; 0x0];
   [0x2a36040a9121; 0x0; 0x0; 0x0];
   [0x570f6855cb541; 0x0; 0x0; 0x0];
   [0xb38fc730f35d61; 0x0; 0x0; 0x0];
   [0x172588ad4f5f0981; 0x0; 0x0; 0x0];
   [0xfbd69e573b4039a1; 0x2; 0x0; 0x0];
   [0x76aa693ea3476dc1; 0x62; 0x0; 0x0];
   [0x4bf791130c3525e1; 0xcb1; 0x0; 0x0];
   [0xcae9b37492d9e201; 0x1a2da; 0x0; 0x0];
   [0x28202206ee162221; 0x35fe34; 0x0; 0x0];
   [0x2c2462e4b0da6641; 0x6f5c4b9; 0x0; 0x0];
   [0xb0b0bf7acc272e61; 0xe5ae5bde; 0x0; 0x0];
   [0xc6c8aed4510cfa81; 0x1d9b79d7b4; 0x0; 0x0];
   [0x9fde895e72ac4aa1; 0x3d10ab4ce4d; 0x0; 0x0];
   [0x9bafb52cc8359ec1; 0x7df2614e9801; 0x0; 0x0];
   [0x11a65ac5cee976e1; 0x103c3e8b219835; 0x0; 0x0];
   [0x4671b37fac185301; 0x217c40fef549ed7; 0x0; 0x0];
   [0x14a823752f22b321; 0x4510460dd9e879c0; 0x0; 0x0];
   [0xa9ac921b13791741; 0xe71907c916f7b1c2; 0x8; 0x0]];
  [[0x22; 0x0; 0x0; 0x0];
   [0x484; 0x0; 0x0; 0x0];
   [0x9988; 0x0; 0x0; 0x0];
   [0x146410; 0x0; 0x0; 0x0];
   [0x2b54a20; 0x0; 0x0; 0x0];
   [0x5c13d840; 0x0; 0x0; 0x0];
   [0xc3aa2b880; 0x0; 0x0; 0x0];
   [0x19fc99c8100; 0x0; 0x0; 0x0];
   [0x3738c6c92200; 0x0; 0x0; 0x0];
   [0x7558a66b68400; 0x0; 0x0; 0x0];
   [0xf95c61a43d8800; 0x0; 0x0; 0x0];
   [0x211e44f7d02c1000; 0x0; 0x0; 0x0];
   [0x660528e9a5da2000; 0x4; 0x0; 0x0];
   [0x8caf6f0806f84000; 0x95; 0x0; 0x0];
   [0xaf4cbf10ecf88000; 0x13dc; 0x0; 0x0];
   [0x4831603f79010000; 0x2a34f; 0x0; 0x0];
   [0x968ec86e12220000; 0x59b087; 0x0; 0x0];
   [0xfef69e9e68840000; 0xbe97201; 0x0; 0x0];
   [0xdcc11109e1880000; 0x195012443; 0x0; 0x0];
   [0x51a4434ff4100000; 0x35ca26d103; 0x0; 0x0];
   [0xd7d0f09e6a200000; 0x724d927c270; 0x0; 0x0];
   [0xa9bff50a18400000; 0xf2e4d747d2fc; 0x0; 0x0];
   [0x8b7e8b5738800000; 0x204264978a058e; 0x0; 0x0];
   [0x86ce819581000000; 0x448d15c2054bcee; 0x0; 0x0];
   [0xe76d35db22000000; 0x91abce3c4b4117ad; 0x0; 0x0];
   [0xbc81271a84000000; 0x58d16401fea52518; 0x13; 0x0]];
  [[0x23; 0x0; 0x0; 0x0];
   [0x4c9; 0x0; 0x0; 0x0];
   [0xa77b; 0x0; 0x0; 0x0];
   [0x16e5d1; 0x0; 0x0; 0x0];
   [0x3216b93; 0x0; 0x0; 0x0];
   [0x6d91b519; 0x0; 0x0; 0x0];
   [0xefaebc26b; 0x0; 0x0; 0x0];
   [0x20c4e3b94a1; 0x0; 0x0; 0x0];
   [0x47aeb2255203; 0x0; 0x0; 0x0];
   [0x9cce25b1a3669; 0x0; 0x0; 0x0];
   [0x15702f27495705b; 0x0; 0x0; 0x0];
   [0x2ee56725f06e5c71; 0x0; 0x0; 0x0];
   [0x695d1a2fdf16a373; 0x6; 0x0; 0x0];
   [0x67ba948b801858b9; 0xe0; 0x0; 0x0];
   [0x2e824f128354214b; 0x1eae; 0x0; 0x0];
   [0x5bd0cf87f4808d41; 0x431d0; 0x0; 0x0];
   [0x8d8c5f966d934fe3; 0x92cf7c; 0x0; 0x0];
   [0x5a311190fb23ec09; 0x14125e07; 0x0; 0x0];
   [0x54b566d255e9453b; 0x2be82db01; 0x0; 0x0];
   [0x94cd0ec1bee47711; 0x600be3f12e; 0x0; 0x0];
   [0x5809047d193c4753; 0xd21a029f95e; 0x0; 0x0];
   [0x93b9d1a733dc059; 0x1cb98e5bd17e6; 0x0; 0x0];
   [0x43267a9dc1714c2b; 0x3ed5e768da4473; 0x0; 0x0];
   [0x2e42c391727d69e1; 0x8973ea355d75bc2; 0x0; 0x0];
   [0x5320bce2a72579c3; 0x2cad9054bc718b8c; 0x1; 0x0];
   [0x5d79d2fcda1fa5a9; 0x1bbabb95c386142f; 0x29; 0x0]]].

(** 36^1 ... 40^26 *)
Definition powers_36_40 : list (list (list Z)) := [
  [[0x24; 0x0; 0x0; 0x0];
   [0x510; 0x0; 0x0; 0x0];
   [0xb640; 0x0; 0x0; 0x0];
   [0x19a100; 0x0; 0x0; 0x0];
   [0x39aa400; 0x0; 0x0; 0x0];
   [0x81bf1000; 0x0; 0x0; 0x0];
   [0x123ede4000; 0x0; 0x0; 0x0];
   [0x290d7410000; 0x0; 0x0; 0x0];
   [0x5c5e45240000; 0x0; 0x0; 0x0];
   [0xcfd41b9100000; 0x0; 0x0; 0x0];
   [0x1d39d3e06400000; 0x0; 0x0; 0x0];
   [0x41c21cb8e1000000; 0x0; 0x0; 0x0];
   [0x3f4c09ffa4000000; 0x9; 0x0; 0x0];
   [0xe6b167f310000000; 0x14c; 0x0; 0x0];
   [0x70f29e2e40000000; 0x2ed0; 0x0; 0x0];
   [0xe21e3e8100000000; 0x6954f; 0x0; 0x0];
   [0xcc40ca2400000000; 0xecff3b; 0x0; 0x0];
   [0xb91c6d1000000000; 0x2153e468; 0x0; 0x0];
   [0x7ff564000000000; 0x4afcc1eba; 0x0; 0x0];
   [0x1fe8210000000000; 0xa8b8b45229; 0x0; 0x0];
   [0x7ca4a40000000000; 0x17b9f95b8dc8; 0x0; 0x0];
   [0x8727100000000000; 0x3562710dff031; 0x0; 0x0];
   [0x17e400000000000; 0x781d7e5f7dc6f7; 0x0; 0x0];
   [0x35c1000000000000; 0x10e425c56daffabc; 0x0; 0x0];
   [0x8f24000000000000; 0x60154fc36cbf4277; 0x2; 0x0];
   [0x2110000000000000; 0x82ff377b4ae558d0; 0x55; 0x0]];
  [[0x25; 0x0; 0x0; 0x0];
   [0x559; 0x0; 0x0; 0x0];
   [0xc5dd; 0x0; 0x0; 0x0];
   [0x1c98f1; 0x0; 0x0; 0x0];
   [0x4221ad5; 0x0; 0x0; 0x0];
   [0x98ede0c9; 0x0; 0x0; 0x0];
   [0x161a617d0d; 0x0; 0x0; 0x0];
   [0x331d01712e1; 0x0; 0x0; 0x0];
   [0x76331355ba85; 0x0; 0x0; 0x0];
   [0x111561cb63f539; 0x0; 0x0; 0x0];
   [0x27817226572713d; 0x0; 0x0; 0x0];
   [0x5b5b57f8a98a5dd1; 0x0; 0x0; 0x0];
   [0x3433b6f080ff8f35; 0xd; 0x0; 0x0];
   [0x8b7970c2a4efb2a9; 0x1e8; 0x0; 0x0];
   [0x288d4c21d6a4d26d; 0x469c; 0x0; 0x0];
   [0xdc6c00e405d269c1; 0xa3491; 0x0; 0x0];
   [0xdb9c20f4d76948e5; 0x1799914; 0x0; 0x0];
   [0xbd90c36322378919; 0x36932003; 0x0; 0x0];
   [0x65ec3d53f206d09d; 0x7e343a08a; 0x0; 0x0];
   [0xbb24dd21fafc26b1; 0x123d8c63400; 0x0; 0x0];
   [0xc53f5e946719795; 0x2a2e54a5841b; 0x0; 0x0];
   [0xc8228ab72e6ae889; 0x618b23bec17e8; 0x0; 0x0];
   [0xecfe0c79b5739bcd; 0xe191c2a91f74a4; 0x0; 0x0];
   [0x40b7cd9739b584a1; 0x209a1122718bdbd6; 0x0; 0x0];
   [0x5a90b6db573c2b45; 0xb64479fa6936c5f7; 0x4; 0x0];
   [0x16ea6db39bb240f9; 0x57e5a13134ea9cc0; 0xae; 0x0]];
  [[0x26; 0x0; 0x0; 0x0];
   [0x5a4; 0x0; 0x0; 0x0];
   [0xd658; 0x0; 0x0; 0x0];
   [0x1fd110; 0x0; 0x0; 0x0];
   [0x4b90860; 0x0; 0x0; 0x0];
   [0xb3773e40; 0x0; 0x0; 0x0];
   [0x1aa3b33d80; 0x0; 0x0; 0x0];
   [0x3f44c9b2100; 0x0; 0x0; 0x0];
   [0x96435f06e600; 0x0; 0x0; 0x0];
   [0x164e001b062400; 0x0; 0x0; 0x0];
   [0x34f940402e95800; 0x0; 0x0; 0x0];
   [0x7dcff8986ea31000; 0x0; 0x0; 0x0];
   [0xacdee6a06c346000; 0x12; 0x0; 0x0];
   [0xa9163bd00fc64000; 0x2c5; 0x0; 0x0];
   [0x194ce0e2576d8000; 0x6957; 0x0; 0x0];
   [0xc1696198fa410000; 0xfa2ed; 0x0; 0x0];
   [0xb5a47cb525a60000; 0x2522f4a; 0x0; 0x0];
   [0xf66a82e396a40000; 0x58330516; 0x0; 0x0];
   [0x93cf6dc85c580000; 0xd1792c168; 0x0; 0x0];
   [0xf0ca4bbdb5100000; 0x1f17fc8b585; 0x0; 0x0];
   [0xbe073e28e0600000; 0x49d8f7caf1e1; 0x0; 0x0];
   [0x35133a114e400000; 0xaf634c81fe782; 0x0; 0x0];
   [0xe0da9e919d800000; 0x1a08bd5b4bc5d53; 0x0; 0x0];
   [0x6073899d61000000; 0x3dd4c1b8d3f5da73; 0x0; 0x0];
   [0x51266d5c66000000; 0x2d94c16f767e6d20; 0x9; 0x0];
   [0xbb43bb724000000; 0xc414b68b96c432cc; 0x15c; 0x0]];
  [[0x27; 0x0; 0x0; 0x0];
   [0x5f1; 0x0; 0x0; 0x0];
   [0xe7b7; 0x0; 0x0; 0x0];
   [0x234ce1; 0x0; 0x0; 0x0];
   [0x560b647; 0x0; 0x0; 0x0];
   [0xd1bbc4d1; 0x0; 0x0; 0x0];
   [0x1ff39afbd7; 0x0; 0x0; 0x0];
   [0x4de1c9c5dc1; 0x0; 0x0; 0x0];
   [0xbdd65bd24867; 0x0; 0x0; 0x0];
   [0x1ceba7fd0907b1; 0x0; 0x0; 0x0];
   [0x467e6978c602bf7; 0x0; 0x0; 0x0];
   [0xabd4211662a6b2a1; 0x0; 0x0; 0x0];
   [0x2d510a6907653687; 0x1a; 0x0; 0x0];
   [0xe7589600206b4e91; 0x3fc; 0x0; 0x0];
   [0x3e7eda04f058f817; 0x9b87; 0x0; 0x0];
   [0x855336c09d8dcb81; 0x17b19a; 0x0; 0x0];
   [0x4fad5758009a00a7; 0x39c0e8a; 0x0; 0x0];
   [0x23684e6817761971; 0x8cc63712; 0x0; 0x0];
   [0x64e3f1db92fde037; 0x15723263c3; 0x0; 0x0];
   [0x5eb9d87364ad2861; 0x34465ad32c4; 0x0; 0x0];
   [0x6e4ff994566126c7; 0x7f6b7d62bbea; 0x0; 0x0];
   [0xce2f059928cce851; 0x1369601a0aa0b6; 0x0; 0x0];
   [0x6929da5537376457; 0x2f50da3f79e7bd9; 0x0; 0x0];
   [0x56042fb69704941; 0x735513fab924de1f; 0x0; 0x0];
   [0xd1aa344d101b28e7; 0x91f60b32349dd6b9; 0x11; 0x0];
   [0xf0edf7bd74233b31; 0x3c7bb4a6040bb64e; 0x2ad; 0x0]];
  [[0x28; 0x0; 0x0; 0x0];
   [0x640; 0x0; 0x0; 0x0];
   [0xfa00; 0x0; 0x0; 0x0];
   [0x271000; 0x0; 0x0; 0x0];
   [0x61a8000; 0x0; 0x0; 0x0];
   [0xf4240000; 0x0; 0x0; 0x0];
   [0x2625a00000; 0x0; 0x0; 0x0];
   [0x5f5e1000000; 0x0; 0x0; 0x0];
   [0xee6b28000000; 0x0; 0x0; 0x0];
   [0x2540be40000000; 0x0; 0x0; 0x0];
   [0x5d21dba00000000; 0x0; 0x0; 0x0];
   [0xe8d4a51000000000; 0x0; 0x0; 0x0];
   [0x6139ca8000000000; 0x24; 0x0; 0x0];
   [0x3107a40000000000; 0x5af; 0x0; 0x0];
   [0xa931a00000000000; 0xe35f; 0x0; 0x0];
   [0x6fc1000000000000; 0x2386f2; 0x0; 0x0];
   [0x7628000000000000; 0x58d15e1; 0x0; 0x0];
   [0x7640000000000000; 0xde0b6b3a; 0x0; 0x0];
   [0x7a00000000000000; 0x22b1c8c122; 0x0; 0x0];
   [0x1000000000000000; 0x56bc75e2d63; 0x0; 0x0];
   [0x8000000000000000; 0xd8d726b7177a; 0x0; 0x0];
   [0x0; 0x21e19e0c9bab24; 0x0; 0x0];
   [0x0; 0x54b40b1f852bda0; 0x0; 0x0];
   [0x0; 0xd3c21bcecceda100; 0x0; 0x0];
   [0x0; 0x1654585005212800; 0x21; 0x0];
   [0x0; 0x7d2dcc80cd2e4000; 0x52b; 0x0]]].

(** 41^1 ... 45^26 *)
Definition powers_41_45 : list (list (list Z)) := [
  [[0x29; 0x0; 0x0; 0x0];
   [0x691; 0x0; 0x0; 0x0];
   [0x10d39; 0x0; 0x0; 0x0];
   [0x2b1e21; 0x0; 0x0; 0x0];
   [0x6e7d349; 0x0; 0x0; 0x0];
   [0x11b20d6b1; 0x0; 0x0; 0x0];
   [0x2d58426259; 0x0; 0x0; 0x0];
   [0x74322a1c041; 0x0; 0x0; 0x0];
   [0x129c08be7ca69; 0x0; 0x0; 0x0];
   [0x2fafd6681f6ad1; 0x0; 0x0; 0x0];
   [0x7a32956ad081b79; 0x0; 0x0; 0x0];
   [0x39219ee1b64c6661; 0x1; 0x0; 0x0];
   [0x26627226323c6589; 0x32; 0x0; 0x0];
   [0x25c4481e0bac42f1; 0x808; 0x0; 0x0];
   [0xc6f8ccfde96b899; 0x1494e; 0x0; 0x0];
   [0xfddd8d4aa6239081; 0x34bd7f; 0x0; 0x0];
   [0xa87ba0f49bb224a9; 0x872597f; 0x0; 0x0];
   [0xfbccc72cef87df11; 0x15a505571; 0x0; 0x0];
   [0x53cbe6325cc2b9b9; 0x3776ddaf41; 0x0; 0x0];
   [0x6ba7de10db2fbea1; 0x8e209811176; 0x0; 0x0];
   [0x3de290b31aa587c9; 0x16c3385abcbf7; 0x0; 0x0];
   [0xe9492caf4482bf31; 0x3a54406883aa98; 0x0; 0x0];
   [0x5cb82811f8f09ed9; 0x9577e50bd16527d; 0x0; 0x0];
   [0xd97e6ae0de8970c1; 0x7f033aee48933613; 0x1; 0x0];
   [0xd53f1e03a4030ee9; 0x578470299f93a92d; 0x3d; 0x0];
   [0x271bce95447d6351; 0x435f6aa8ea61857; 0x9d3; 0x0]];
  [[0x2a; 0x0; 0x0; 0x0];
   [0x6e4; 0x0; 0x0; 0x0];
   [0x12168; 0x0; 0x0; 0x0];
   [0x2f7b10; 0x0; 0x0; 0x0];
   [0x7ca30a0; 0x0; 0x0; 0x0];
   [0x1472bfa40; 0x0; 0x0; 0x0];
   [0x35ad370e80; 0x0; 0x0; 0x0];
   [0x8ce6b086100; 0x0; 0x0; 0x0];
   [0x171dd8f5fea00; 0x0; 0x0; 0x0];
   [0x3cae5985bc6400; 0x0; 0x0; 0x0];
   [0x9f49aaff0e86800; 0x0; 0x0; 0x0];
   [0xa22160dd86211000; 0x1; 0x0; 0x0];
   [0x9979e458016ca000; 0x44; 0x0; 0x0];
   [0x2dff76703bd24000; 0xb41; 0x0; 0x0];
   [0x8be96e69d07e8000; 0x1d8b1; 0x0; 0x0];
   [0xf44c1d5c34c10000; 0x4d8d20; 0x0; 0x0];
   [0x147cd120a7aa0000; 0xcb92768; 0x0; 0x0];
   [0x5c7a4f5b81e40000; 0x216607713; 0x0; 0x0];
   [0x2c1105034f680000; 0x57abd3892d; 0x0; 0x0];
   [0x3acad28b07100000; 0xe6230b48169; 0x0; 0x0];
   [0xa5468acf28a00000; 0x25c1bfd9d3b43; 0x0; 0x0];
   [0x1d92c5fcaa400000; 0x631c979bcbb919; 0x0; 0x0];
   [0xda147b73ee800000; 0x1042b0df8f6c5e1e; 0x0; 0x0];
   [0xc75c410521000000; 0xaaf104ad87c7710f; 0x2; 0x0];
   [0xb522aad76a000000; 0xb8ac47846b88c96; 0x70; 0x0];
   [0xb7b0075764000000; 0xe4c43bbb9a4710b9; 0x1261; 0x0]];
  [[0x2b; 0x0; 0x0; 0x0];
   [0x739; 0x0; 0x0; 0x0];
   [0x13693; 0x0; 0x0; 0x0];
   [0x342ab1; 0x0; 0x0; 0x0];
   [0x8c32bbb; 0x0; 0x0; 0x0];
   [0x178c85869; 0x0; 0x0; 0x0];
   [0x3f49a6d9a3; 0x0; 0x0; 0x0];
   [0xaa15f068e61; 0x0; 0x0; 0x0];
   [0x1c91af619ea4b; 0x0; 0x0; 0x0];
   [0x4cc787565a5a99; 0x0; 0x0; 0x0];
   [0xce583bb812d37b3; 0x0; 0x0; 0x0];
   [0x2a8d207eb2985b11; 0x2; 0x0; 0x0];
   [0x25b47547ff974bdb; 0x5d; 0x0; 0x0];
   [0x554fb317ee69bdc9; 0xfa5; 0x0; 0x0];
   [0x546315050bc2e0c3; 0x2a0c5; 0x0; 0x0];
   [0x2ca487d8f9bbc0c1; 0x710125; 0x0; 0x0];
   [0x7fa2d171f289606b; 0x12fb313e; 0x0; 0x0];
   [0x70592e23bd1331f9; 0x33031457f; 0x0; 0x0];
   [0xdefac000c23964d3; 0x891846ac67; 0x0; 0x0];
   [0x741e40209fa3ef71; 0x170713def572; 0x0; 0x0];
   [0x8114c57ad08937fb; 0x3de3056733a39; 0x0; 0x0];
   [0xae7d2ba1070c6729; 0xa6521e855ac7a8; 0x0; 0x0];
   [0x4f06540c2f1553e3; 0x1befcb20663f8955; 0x0; 0x0];
   [0x46101e0be8951721; 0xb1471e712cac1154; 0x4; 0x0];
   [0xc4b50c00110ae28b; 0xc6f21d0280e6e927; 0xc9; 0x0];
   [0xa690402dcd40d59; 0x6aaadf6ba6c929ae; 0x21e4; 0x0]];
  [[0x2c; 0x0; 0x0; 0x0];
   [0x790; 0x0; 0x0; 0x0];
   [0x14cc0; 0x0; 0x0; 0x0];
   [0x393100; 0x0; 0x0; 0x0];
   [0x9d46c00; 0x0; 0x0; 0x0];
   [0x1b0829000; 0x0; 0x0; 0x0];
   [0x4a5670c000; 0x0; 0x0; 0x0];
   [0xcc6db610000; 0x0; 0x0; 0x0];
   [0x2322db4ac0000; 0x0; 0x0; 0x0];
   [0x609fdb0d900000; 0x0; 0x0; 0x0];
   [0x109b79a654c00000; 0x0; 0x0; 0x0];
   [0xdab8e89691000000; 0x2; 0x0; 0x0];
   [0x97c7f9e0ec000000; 0x7d; 0x0; 0x0];
   [0x165ef2a890000000; 0x1596; 0x0; 0x0];
   [0xd851b4f8c0000000; 0x3b5cb; 0x0; 0x0];
   [0x2e0b1ac100000000; 0xa33f09; 0x0; 0x0];
   [0xe9e8992c00000000; 0x1c0ed593; 0x0; 0x0];
   [0x33fa539000000000; 0x4d28cb56c; 0x0; 0x0];
   [0xef065cc000000000; 0xd4302f2e98; 0x0; 0x0];
   [0x1517f10000000000; 0x2478481c0249; 0x0; 0x0];
   [0xa01d6c0000000000; 0x644ac64d0648f; 0x0; 0x0];
   [0x850e900000000000; 0x113cda153d148af; 0x0; 0x0];
   [0xde80c00000000000; 0x2f6757ba67f87e2a; 0x0; 0x0];
   [0x3e21000000000000; 0x25c31409deb5af5e; 0x8; 0x0];
   [0xadac000000000000; 0x7d8771b2473a2432; 0x166; 0x0];
   [0xd990000000000000; 0x93478aa43dfe38b5; 0x3d9d; 0x0]];
  [[0x2d; 0x0; 0x0; 0x0];
   [0x7e9; 0x0; 0x0; 0x0];
   [0x163f5; 0x0; 0x0; 0x0];
   [0x3e9211; 0x0; 0x0; 0x0];
   [0xaffacfd; 0x0; 0x0; 0x0];
   [0x1eef16879; 0x0; 0x0; 0x0];
   [0x57006f5d45; 0x0; 0x0; 0x0];
   [0xf4b13936521; 0x0; 0x0; 0x0];
   [0x2b03270e8c6cd; 0x0; 0x0; 0x0];
   [0x78f8ddd8eaf209; 0x0; 0x0; 0x0];
   [0x1543beff214c8b95; 0x0; 0x0; 0x0];
   [0xbce892d8da748931; 0x3; 0x0; 0x0];
   [0x34e1d01e667c1d9d; 0xa8; 0x0; 0x0];
   [0x4bb1955803d13499; 0x1d91; 0x0; 0x0];
   [0x4e374078abc63ee5; 0x5328a; 0x0; 0x0];
   [0xbfb6553631d90e41; 0xe9e24f; 0x0; 0x0];
   [0xb30cfa86c327816d; 0x291cc804; 0x0; 0x0];
   [0x794809b04df1c029; 0x73a0f28d3; 0x0; 0x0];
   [0x51a9b3fdb37ec735; 0x14534aa2d2c; 0x0; 0x0];
   [0x5ad4a3988d490451; 0x392a41e9f0ca; 0x0; 0x0];
   [0xf760c1d0d5d5c23d; 0xa0c6d961f5391; 0x0; 0x0];
   [0x7c0211b5969324b9; 0x1c42f436381b0a8; 0x0; 0x0];
   [0xcc5d1ceb77dd7485; 0x4f7c4ed87dcc0d9d; 0x0; 0x0];
   [0xec5e156411ed7b61; 0xf8d9dc0e1cde64bc; 0xd; 0x0];
   [0x8c89c29726beb00d; 0xbe4bae7b1317b535; 0x274; 0x0];
   [0xb4373491cf84f249; 0x734daba25b2ada69; 0x6e85; 0x0]]].

(** 46^1 ... 50^26 *)
Definition powers_46_50 : list (list (list Z)) := [
  [[0x2e; 0x0; 0x0; 0x0];
   [0x844; 0x0; 0x0; 0x0];
   [0x17c38; 0x0; 0x0; 0x0];
   [0x445210; 0x0; 0x0; 0x0];
   [0xc46bee0; 0x0; 0x0; 0x0];
   [0x234b64c40; 0x0; 0x0; 0x0];
   [0x6578c1b380; 0x0; 0x0; 0x0];
   [0x123bb2ce4100; 0x0; 0x0; 0x0];
   [0x346ba210fae00; 0x0; 0x0; 0x0];
   [0x96b571f0d14400; 0x0; 0x0; 0x0];
   [0x1b149a79459a3800; 0x0; 0x0; 0x0];
   [0xddb3c1ca81b61000; 0x4; 0x0; 0x0];
   [0xd64cd2634eb6e000; 0xdf; 0x0; 0x0];
   [0x81cdcdd824dc4000; 0x2838; 0x0; 0x0];
   [0x52fafcd69f938000; 0x73a27; 0x0; 0x0];
   [0xe9196e90ac810000; 0x14c7310; 0x0; 0x0];
   [0xe291ddfeff2e0000; 0x3bbcad09; 0x0; 0x0];
   [0xb635e3d1da440000; 0xabbe717c6; 0x0; 0x0];
   [0xbdaeefb538380000; 0x1edc38645b4; 0x0; 0x0];
   [0x156f12901a100000; 0x58b92220867a; 0x0; 0x0];
   [0xd9f555e4aee00000; 0xff14421d829ef; 0x0; 0x0];
   [0x2a156f176c400000; 0x2dd5a3e14d78919; 0x0; 0x0];
   [0x8fd9f63573800000; 0x83c63727bebaa285; 0x0; 0x0];
   [0xd92a3d9ac1000000; 0xad9de924458933ff; 0x17; 0x0];
   [0x59711ceae000000; 0x325fe4847ea757f9; 0x441; 0x0];
   [0x125332344000000; 0xd3b0fcec211cebf; 0xc3b7; 0x0]];
  [[0x2f; 0x0; 0x0; 0x0];
   [0x8a1; 0x0; 0x0; 0x0];
   [0x1958f; 0x0; 0x0; 0x0];
   [0x4a7541; 0x0; 0x0; 0x0];
   [0xdab86ef; 0x0; 0x0; 0x0];
   [0x2827dc5e1; 0x0; 0x0; 0x0];
   [0x75f517544f; 0x0; 0x0; 0x0];
   [0x15a7ff487a81; 0x0; 0x0; 0x0];
   [0x3f9d7de4e7daf; 0x0; 0x0; 0x0];
   [0xbadea1d0691321; 0x0; 0x0; 0x0];
   [0x224edfb5434a830f; 0x0; 0x0; 0x0];
   [0x4c7b12475aae0fc1; 0x6; 0x0; 0x0];
   [0xa985b19a5f4e46f; 0x128; 0x0; 0x0];
   [0xf1f8b9b577f5f061; 0x3659; 0x0; 0x0];
   [0x6caa1851062721cf; 0x9fa83; 0x0; 0x0];
   [0xf33a76e0212f3501; 0x1d4fe20; 0x0; 0x0];
   [0xa7bbd32617aabb2f; 0x561aa80c; 0x0; 0x0];
   [0xcb7bc3fe58585da1; 0xfcee4da52; 0x0; 0x0];
   [0x5bb8fbb23839308f; 0x2e6fc041533; 0x0; 0x0];
   [0xd6f635b8527fea41; 0x886844bfe46d; 0x0; 0x0];
   [0x7733dcd7257c01ef; 0x190b249f3af02a; 0x0; 0x0];
   [0xe2858b7fe1c45ae1; 0x4990bb93bd217cb; 0x0; 0x0];
   [0x96849c7a730caf4f; 0xd8192701fb925e6e; 0x0; 0x0];
   [0xa258ba7b1f542f81; 0xac9e295d2fdf564d; 0x27; 0x0];
   [0xce4a3c9ac074b8af; 0xb109981bca00d840; 0x748; 0x0];
   [0xdfa12069556de821; 0x80c2ed1a1627b3e5; 0x15658; 0x0]];
  [[0x30; 0x0; 0x0; 0x0];
   [0x900; 0x0; 0x0; 0x0];
   [0x1b000; 0x0; 0x0; 0x0];
   [0x510000; 0x0; 0x0; 0x0];
   [0xf300000; 0x0; 0x0; 0x0];
   [0x2d9000000; 0x0; 0x0; 0x0];
   [0x88b0000000; 0x0; 0x0; 0x0];
   [0x19a100000000; 0x0; 0x0; 0x0];
   [0x4ce3000000000; 0x0; 0x0; 0x0];
   [0xe6a90000000000; 0x0; 0x0; 0x0];
   [0x2b3fb00000000000; 0x0; 0x0; 0x0];
   [0x1bf1000000000000; 0x8; 0x0; 0x0];
   [0x3d30000000000000; 0x185; 0x0; 0x0];
   [0x7900000000000000; 0x48fb; 0x0; 0x0];
   [0xb000000000000000; 0xdaf26; 0x0; 0x0];
   [0x0; 0x290d741; 0x0; 0x0];
   [0x0; 0x7b285c30; 0x0; 0x0];
   [0x0; 0x1717914900; 0x0; 0x0];
   [0x0; 0x4546b3db000; 0x0; 0x0];
   [0x0; 0xcfd41b910000; 0x0; 0x0];
   [0x0; 0x26f7c52b300000; 0x0; 0x0];
   [0x0; 0x74e74f819000000; 0x0; 0x0];
   [0x0; 0x5eb5ee84b0000000; 0x1; 0x0];
   [0x0; 0xc21cb8e100000000; 0x41; 0x0];
   [0x0; 0x6562aa3000000000; 0xc54; 0x0];
   [0x0; 0x27fe90000000000; 0x24fd3; 0x0]];
  [[0x31; 0x0; 0x0; 0x0];
   [0x961; 0x0; 0x0; 0x0];
   [0x1cb91; 0x0; 0x0; 0x0];
   [0x57f6c1; 0x0; 0x0; 0x0];
   [0x10d63af1; 0x0; 0x0; 0x0];
   [0x339014821; 0x0; 0x0; 0x0];
   [0x9de93ece51; 0x0; 0x0; 0x0];
   [0x1e39a5057d81; 0x0; 0x0; 0x0];
   [0x5c908960d05b1; 0x0; 0x0; 0x0];
   [0x11b7aa4b87e16e1; 0x0; 0x0; 0x0];
   [0x3642798750226111; 0x0; 0x0; 0x0];
   [0x62b942e656949441; 0xa; 0x0; 0x0];
   [0xe575ce1692706071; 0x1fc; 0x0; 0x0];
   [0xeb8c7252078275a1; 0x6167; 0x0; 0x0];
   [0x15e1e1b36ff883d1; 0x12a4e4; 0x0; 0x0];
   [0x303c33586e913b01; 0x3918fa8; 0x0; 0x0];
   [0x3b85d3ed29cc4b31; 0xaedc7f31; 0x0; 0x0];
   [0x649d9065001a6461; 0x217834586c; 0x0; 0x0];
   [0x4228a355050d3691; 0x6680204ecbf; 0x0; 0x0];
   [0xa9c74345f78771c1; 0x139e862f1509b; 0x0; 0x0];
   [0x7f23e06460ecc5f1; 0x3c157af0306dcb; 0x0; 0x0];
   [0x55ddf3368d51e321; 0xb801c87f94503f3; 0x0; 0x0];
   [0x6f7b8d710cac7951; 0x33857606b635c193; 0x2; 0x0];
   [0x56a612a36d033881; 0xdc8b9748e04a0d38; 0x6b; 0x0];
   [0x95c99147dd9dd0b1; 0x36b7f4f2ee2c87c8; 0x14a5; 0x0];
   [0xab94cec16b34f1e1; 0x7935e27f9685fd64; 0x3f39f; 0x0]];
  [[0x32; 0x0; 0x0; 0x0];
   [0x9c4; 0x0; 0x0; 0x0];
   [0x1e848; 0x0; 0x0; 0x0];
   [0x5f5e10; 0x0; 0x0; 0x0];
   [0x12a05f20; 0x0; 0x0; 0x0];
   [0x3a3529440; 0x0; 0x0; 0x0];
   [0xb5e620f480; 0x0; 0x0; 0x0];
   [0x2386f26fc100; 0x0; 0x0; 0x0];
   [0x6f05b59d3b200; 0x0; 0x0; 0x0];
   [0x15af1d78b58c400; 0x0; 0x0; 0x0];
   [0x43c33c1937564800; 0x0; 0x0; 0x0];
   [0x3c21bcecceda1000; 0xd; 0x0; 0x0];
   [0xbe96e64066972000; 0x295; 0x0; 0x0];
   [0x3978f89409844000; 0x813f; 0x0; 0x0];
   [0x39a08ce9dbd48000; 0x193e59; 0x0; 0x0];
   [0x415b85acef810000; 0x4ee2d6d; 0x0; 0x0];
   [0xc3e01bc6c7320000; 0xf684df56; 0x0; 0x0];
   [0x41c56cd2e7c40000; 0x3025f39ef2; 0x0; 0x0];
   [0xd88f413144480000; 0x96769950b50; 0x0; 0x0];
   [0x4bfabb9f56100000; 0x1d6329f1c35ca; 0x0; 0x0];
   [0xd6f8a51ecf200000; 0x5bd5e313828182; 0x0; 0x0];
   [0xfc90400474400000; 0x11efc659cf7d4b8d; 0x0; 0x0];
   [0x542c80deb4800000; 0x80d4bd8a8678c1bb; 0x3; 0x0];
   [0x70b12b7f41000000; 0x298d050e4395d696; 0xaf; 0x0];
   [0x29a7edab2000000; 0x1d8afcc93343e962; 0x2236; 0x0];
   [0x822cc6b6c4000000; 0xc5255f4c03439524; 0x6ae91; 0x0]]].

(** 51^1 ... 51^26 *)
Definition powers_51_51 : list (list (list Z)) := [
  [[0x33; 0x0; 0x0; 0x0];
   [0xa29; 0x0; 0x0; 0x0];
   [0x2062b; 0x0; 0x0; 0x0];
   [0x673a91; 0x0; 0x0; 0x0];
   [0x1490aae3; 0x0; 0x0; 0x0];
   [0x418d20b39; 0x0; 0x0; 0x0];
   [0xd0f1d83c5b; 0x0; 0x0; 0x0];
   [0x29a02e140621; 0x0; 0x0; 0x0];
   [0x84ae92dfd3893; 0x0; 0x0; 0x0];
   [0x1a6ec7429724549; 0x0; 0x0; 0x0];
   [0x54411b2441c3cd8b; 0x0; 0x0; 0x0];
   [0xc8f868391a01f2b1; 0x10; 0x0; 0x0];
   [0x97cc3602e635943; 0x358; 0x0; 0x0];
   [0xe3daec293dcac859; 0xaa89; 0x0; 0x0];
   [0x649d0c374f65e9bb; 0x21f978; 0x0; 0x0];
   [0xb496f04d14d9041; 0x6c4b2fc; 0x0; 0x0];
   [0x3fa11df5b273bcf3; 0x1592fa836; 0x0; 0x0];
   [0xad18f7f28d0ea469; 0x44c47e82ce; 0x0; 0x0];
   [0x7bf9655219eac0eb; 0xdb325340f2c; 0x0; 0x0];
   [0xb2af2f5b29c46ed1; 0x2bab0695f05dc; 0x0; 0x0];
   [0x98e66f29522213a3; 0x8b3124fdee2af7; 0x0; 0x0];
   [0x75e8253b5cc9e979; 0x1bbaca5e96728f53; 0x0; 0x0];
   [0x7d3f6ad37c39831b; 0x863650d7f8d28da0; 0x5; 0x0];
   [0xf3a24821bf751e61; 0xbcd21b0691f236f8; 0x119; 0x0];
   [0x89545eb924550d53; 0x9ddb624f1340f398; 0x3820; 0x0];
   [0x5bcedee23cf1a789; 0x72b495c0d5f08763; 0xb2e7f; 0x0]]].

Definition naturalPowTable : list (list (list Z)) :=
  powers_1_5 ++ powers_6_10 ++ powers_11_15 ++ powers_16_20 ++ powers_21_25 ++ powers_26_30 ++ powers_31_35 ++ powers_36_40 ++ powers_41_45 ++ powers_46_50 ++ powers_51_51.
