(* ===== verification/Interp.v ===== *)
(** * Reconstruction of a shared secret: mpvss/mpinterpolation.cpp

    A share is an argument and the value of a polynomial there; [MPLagrange] and [MPNewton]
    return the value at zero.  The inverses of the differences come from a table, and a
    difference outside the table is [Undef].  The values are buffers of 32 bytes, given by
    their words. *)

From Stdlib Require Import ZArith List Lia Bool.
From S2P Require Import Prelude Radix Base25519 Sc25519.
Import ListNotations.
Local Open Scope Z_scope.

(** [-1/50, 1/50] mod 2^252+27742317777372353535851937790883648493 *)
Definition SCInverse : list (list Z) := [
  [0x1a17ca2895da543a; 0xe5096a6aa2744012; 0xae147ae147ae147a; 0x2e147ae147ae147];
  [0xd6c1048e38e29734; 0x703b6f3c1d4691b; 0xfac687d6343eb1a2; 0xd6343eb1a1f58d0];
  [0x8e8e2c645252d35c; 0x656be09b9d9ede3a; 0x5555555555555555; 0xc55555555555555];
  [0xed7c29d21ba8e31c; 0x624022dde9bf9fad; 0xe4c415c9882b9310; 0x882b9310572620a];
  [0x683b4fb698af7860; 0x8017863313c72aac; 0xbd37a6f4de9bd37a; 0xcde9bd37a6f4de9];
  [0xa34117ad84d07dfd; 0x26865663f298f3a7; 0xc16c16c16c16c16c; 0xc16c16c16c16c16];
  [0x5374c8120dbfc4d1; 0x5d90b4396c6e5ad6; 0x45d1745d1745d174; 0x5d1745d1745d17];
  [0x61bd53ee3c7fb44e; 0xcf9dcac28a50b45; 0x82fa0be82fa0be83; 0xe82fa0be82fa0be];
  [0x952a433f04647874; 0xfa450432a0281211; 0xcf3cf3cf3cf3cf3c; 0x4f3cf3cf3cf3cf3];
  [0x9a59a82eec1dfaa0; 0xf60eb453588e963f; 0x1f3831f3831f3831; 0x1f3831f3831f383];
  [0xcca6ee3fe9cbd33f; 0xa8bb41f49c8d1e81; 0x9999999999999999; 0xb99999999999999];
  [0x58034cdd58e3eaf6; 0xe2ecf1c57fb64a19; 0x2df2df2df2df2df2; 0x2df2df2df2df2df];
  [0x9ce4a4bb271a74e5; 0x1c4d969773cae1f6; 0x79435e50d79435e5; 0xb5e50d79435e50d];
  [0x46be53ec5e4655b0; 0x2785790fa89a5fef; 0xacf914c1bacf914c; 0x914c1bacf914c1b];
  [0xf60cc4d24ec72881; 0x2af02d854681495b; 0x71c71c71c71c71c7; 0xb1c71c71c71c71c];
  [0x1b0a8c283d0c0fb3; 0x9f3f015beec4a6fc; 0xf8af8af8af8af8af; 0xf8af8af8af8af8a];
  [0x72263ac7ddb7bf61; 0x1844410f6603d440; 0xf0f0f0f0f0f0f0f; 0x70f0f0f0f0f0f0f];
  [0x6f4660181255066c; 0x7cc0f04c909323c8; 0x7c1f07c1f07c1f0; 0x7c1f07c1f07c1f];
  [0x7dc2df7c1e86691d; 0x342d70ac976b081; 0x0; 0x280000000000000];
  [0x72e45a0b4d3a8476; 0xee73e2ad70a7324c; 0xbdef7bdef7bdef7b; 0xbdef7bdef7bdef7];
  [0x48d871f718bdd305; 0x2f5a04a69a699f10; 0x2222222222222222; 0xa22222222222222];
  [0xacf858ead3f4130; 0x20c4c698645b07a4; 0x9611a7b9611a7b96; 0xb9611a7b9611a7b];
  [0x5fbf64de8696b4ae; 0x7767864bf03c1b1a; 0xb6db6db6db6db6db; 0x76db6db6db6db6d];
  [0x62af6f06d5bafe0e; 0xd600eb729c074e96; 0x97b425ed097b425e; 0x425ed097b425ed0];
  [0x404f34c0555e071; 0x54636aa83f916f26; 0xc4ec4ec4ec4ec4ec; 0x44ec4ec4ec4ec4e];
  [0x342f94512bb4a874; 0xca12d4d544e88024; 0x5c28f5c28f5c28f5; 0x5c28f5c28f5c28f];
  [0xc509f5ae47afd2cb; 0xb5f8c75898461f9e; 0xaaaaaaaaaaaaaaaa; 0x8aaaaaaaaaaaaaa];
  [0x78643c52d4691cd3; 0xeb5012878496b882; 0x7a6f4de9bd37a6f4; 0x9bd37a6f4de9bd3];
  [0xa6e990241b7f89a2; 0xbb216872d8dcb5ac; 0x8ba2e8ba2e8ba2e8; 0xba2e8ba2e8ba2e];
  [0x2a54867e08c8f0e8; 0xf48a086540502423; 0x9e79e79e79e79e79; 0x9e79e79e79e79e7];
  [0x413b796576a1d291; 0x3c978a0a9622a02d; 0x3333333333333333; 0x733333333333333];
  [0xe1b6e65bf13f15dd; 0x23bc3350449e2716; 0xf286bca1af286bca; 0x6bca1af286bca1a];
  [0x9407268a40987d15; 0x4101612bea0af5e1; 0xe38e38e38e38e38e; 0x638e38e38e38e38];
  [0xe44c758fbb6f7ec2; 0x3088821ecc07a880; 0x1e1e1e1e1e1e1e1e; 0xe1e1e1e1e1e1e1e];
  [0xfb85bef83d0cd23a; 0x685ae1592ed6102; 0x0; 0x500000000000000];
  [0x399e80d3d485d21d; 0x49d50f6e91dba14a; 0x4444444444444444; 0x444444444444444];
  [0xbf7ec9bd0d2d695c; 0xeecf0c97e0783634; 0x6db6db6db6db6db6; 0xedb6db6db6db6db];
  [0x809e6980aabc0e2; 0xa8c6d5507f22de4c; 0x89d89d89d89d89d8; 0x89d89d89d89d89d];
  [0x320188423269d1a9; 0x571294d28d94a267; 0x5555555555555555; 0x155555555555555];
  [0x4dd3204836ff1344; 0x7642d0e5b1b96b59; 0x1745d1745d1745d1; 0x1745d1745d1745d];
  [0x8276f2caed43a522; 0x792f14152c45405a; 0x6666666666666666; 0xe66666666666666];
  [0x280e4d148130fa2a; 0x8202c257d415ebc3; 0xc71c71c71c71c71c; 0xc71c71c71c71c71];
  [0xf70b7df07a19a474; 0xd0b5c2b25dac205; 0x0; 0xa00000000000000];
  [0x26eb305fbd64fecb; 0xc8bf1f511df8cf93; 0xdb6db6db6db6db6d; 0xdb6db6db6db6db6];
  [0x6403108464d3a352; 0xae2529a51b2944ce; 0xaaaaaaaaaaaaaaaa; 0x2aaaaaaaaaaaaaa];
  [0xacdb827b7d917657; 0xdd7f2e4bb592e3de; 0xcccccccccccccccc; 0xccccccccccccccc];
  [0x960498c6973d74fb; 0x537be77a8bde735; 0x0; 0x400000000000000];
  [0xc8062108c9a746a4; 0x5c4a534a3652899c; 0x5555555555555555; 0x555555555555555];
  [0x2c09318d2e7ae9f6; 0xa6f7cef517bce6b; 0x0; 0x800000000000000];
  [0x5812631a5cf5d3ec; 0x14def9dea2f79cd6; 0x0; 0x1000000000000000];
  [0x0; 0x0; 0x0; 0x0];
  [0x1; 0x0; 0x0; 0x0];
  [0x2c09318d2e7ae9f7; 0xa6f7cef517bce6b; 0x0; 0x800000000000000];
  [0x900c4211934e8d49; 0xb894a6946ca51339; 0xaaaaaaaaaaaaaaaa; 0xaaaaaaaaaaaaaaa];
  [0xc20dca53c5b85ef2; 0xfa73b66fa39b5a0; 0x0; 0xc00000000000000];
  [0xab36e09edf645d96; 0x375fcb92ed64b8f7; 0x3333333333333333; 0x333333333333333];
  [0xf40f5295f822309b; 0x66b9d03987ce5807; 0x5555555555555555; 0xd55555555555555];
  [0x312732ba9f90d522; 0x4c1fda8d84fecd43; 0x2492492492492492; 0x249249249249249];
  [0x6106e529e2dc2f79; 0x7d39db37d1cdad0; 0x0; 0x600000000000000];
  [0x30041605dbc4d9c3; 0x92dc3786cee1b113; 0x38e38e38e38e38e3; 0x38e38e38e38e38e];
  [0xd59b704f6fb22ecb; 0x9bafe5c976b25c7b; 0x9999999999999999; 0x199999999999999];
  [0xa3f42d225f6c0a9; 0x9e9c28f8f13e317d; 0xe8ba2e8ba2e8ba2e; 0xe8ba2e8ba2e8ba2];
  [0x2610dad82a8c0244; 0xbdcc650c1562fa6f; 0xaaaaaaaaaaaaaaaa; 0xeaaaaaaaaaaaaaa];
  [0x50087c82524a130b; 0x6c18248e23d4be8a; 0x7627627627627627; 0x762762762762762];
  [0x9893995d4fc86a91; 0x260fed46c27f66a1; 0x9249249249249249; 0x124924924924924];
  [0x1e73e246887001d0; 0xcb09ea70111bfb8c; 0xbbbbbbbbbbbbbbbb; 0xbbbbbbbbbbbbbbb];
  [0x5c8ca4221fe901b3; 0xe594bc9100a3bd3; 0x0; 0xb00000000000000];
  [0x73c5ed8aa186552b; 0xe45677bfd6eff455; 0xe1e1e1e1e1e1e1e1; 0x1e1e1e1e1e1e1e1];
  [0xc40b3c901c5d56d8; 0xd3dd98b2b8eca6f4; 0x1c71c71c71c71c71; 0x9c71c71c71c71c7];
  [0x765b7cbe6bb6be10; 0xf122c68e5e5975bf; 0xd79435e50d79435; 0x9435e50d79435e5];
  [0x16d6e9b4e654015c; 0xd8476fd40cd4fca9; 0xcccccccccccccccc; 0x8cccccccccccccc];
  [0x2dbddc9c542ce305; 0x2054f17962a778b3; 0x6186186186186186; 0x618618618618618];
  [0xb128d2f641764a4b; 0x59bd916bca1ae729; 0x745d1745d1745d17; 0xf45d1745d1745d1];
  [0xdfae26c7888cb71a; 0x298ee7571e60e453; 0x8590b21642c8590b; 0x642c8590b21642c];
  [0x93086d6c15460122; 0x5ee632860ab17d37; 0x5555555555555555; 0x755555555555555];
  [0x23e2cec931412b79; 0x4acc25095e0f1cb2; 0xa3d70a3d70a3d70a; 0xa3d70a3d70a3d70];
  [0x540d6fce579ff37c; 0xc07b8f3663662db0; 0x3b13b13b13b13b13; 0xbb13b13b13b13b1];
  [0xf562f413873ad5df; 0x3ede0e6c06f04e3f; 0x684bda12f684bda1; 0xbda12f684bda12f];
  [0xf852fe3bd65f1f3f; 0x9d777392b2bb81bb; 0x4924924924924924; 0x892492492492492];
  [0x4d42dd8bafb692bd; 0xf41a33463e9c9532; 0x69ee58469ee58469; 0x469ee58469ee584];
  [0xf39f123443800e8; 0xe584f538088dfdc6; 0xdddddddddddddddd; 0x5dddddddddddddd];
  [0xe52e090f0fbb4f77; 0x266b173132506a89; 0x4210842108421084; 0x421084210842108];
  [0xda4f839e3e6f6ad0; 0x119c22d3d980ec54; 0x0; 0xd80000000000000];
  [0xe8cc03024aa0cd81; 0x981e09921264790d; 0xf83e0f83e0f83e0f; 0xf83e0f83e0f83e0];
  [0xe5ec28527f3e148c; 0xfc9ab8cf3cf3c895; 0xf0f0f0f0f0f0f0f0; 0x8f0f0f0f0f0f0f0];
  [0x3d07d6f21fe9c43a; 0x759ff882b432f5da; 0x750750750750750; 0x75075075075075];
  [0x62059e480e2eab6c; 0xe9eecc595c76537a; 0x8e38e38e38e38e38; 0x4e38e38e38e38e3];
  [0x11540f2dfeaf7e3d; 0xed5980cefa5d3ce7; 0x5306eb3e45306eb3; 0x6eb3e45306eb3e4];
  [0xbb2dbe5f35db5f08; 0xf89163472f2cbadf; 0x86bca1af286bca1a; 0x4a1af286bca1af2];
  [0xf163d0411e8f7; 0x31f20819234152bd; 0xd20d20d20d20d20d; 0xd20d20d20d20d20];
  [0x8b6b74da732a00ae; 0x6c23b7ea066a7e54; 0x6666666666666666; 0x466666666666666];
  [0xbdb8baeb70d7d94d; 0x1ed0458b4a690696; 0xe0c7ce0c7ce0c7ce; 0xe0c7ce0c7ce0c7c];
  [0xc2e81fdb58915b79; 0x1a99f5ac02cf8ac4; 0x30c30c30c30c30c3; 0xb0c30c30c30c30c];
  [0xf6550f2c20761f9f; 0x7e51d327a529190; 0x7d05f417d05f417d; 0x17d05f417d05f41];
  [0x49d9b084f360f1c; 0xb74e45a536894200; 0xba2e8ba2e8ba2e8b; 0xfa2e8ba2e8ba2e8];
  [0xb4d14b6cd82555f0; 0xee58a37ab05ea92e; 0x3e93e93e93e93e93; 0x3e93e93e93e93e9];
  [0xefd71363c4465b8d; 0x94c773ab8f307229; 0x42c8590b21642c85; 0x321642c8590b216];
  [0x6a963948414cf0d1; 0xb29ed700b937fd28; 0x1b3bea3677d46cef; 0x77d46cefa8d9df5];
  [0xc98436b60aa30091; 0xaf7319430558be9b; 0xaaaaaaaaaaaaaaaa; 0x3aaaaaaaaaaaaaa];
  [0x81515e8c24133cb9; 0xddb42eae12333ba; 0x5397829cbc14e5e; 0x29cbc14e5e0a72f];
  [0x3dfa98f1c71b7fb3; 0x2fd58f7400835cc4; 0x51eb851eb851eb85; 0xd1eb851eb851eb8]].

(** *(SCInverseZero + a - b) *)
Definition inverse_at (a b : Z) : result (list Z) :=
  let k := 50 + a - b in
  if (0 <=? k) && (k <? 101) then Ok (nth (Z.to_nat k) SCInverse []) else Undef.

Section Interpolation.

Variable int128 : bool.

Definition share : Type := Z * list Z.

(** The product over [j]; [vShare] starts at position [j]. *)
Fixpoint lagrange_basis (i j : nat) (xi : Z) (vShare : list share) (l : list Z) : result (list Z) :=
  match vShare with
  | [] => Ok l
  | (xj, _) :: vShare' =>
      if Nat.eqb i j then lagrange_basis i (S j) xi vShare' l
      else let! inverse := inverse_at xj xi in
           lagrange_basis i (S j) xi vShare' (sc_mul int128 l (sc_mul_u32 int128 inverse xj))
  end.

(** The sum over [i]; [rest] starts at position [i]. *)
Fixpoint lagrange_sum (vShare : list share) (i : nat) (rest : list share) (s0 : list Z) : result (list Z) :=
  match rest with
  | [] => Ok s0
  | (xi, yi) :: rest' =>
      let! l := lagrange_basis i 0 xi vShare (sc_of_u64 1) in
      lagrange_sum vShare (S i) rest' (sc_add int128 s0 (sc_mul int128 l (sc_of_bytes int128 yi)))
  end.

Definition MPLagrange (vShare : list share) : result (list Z) := lagrange_sum vShare 0 vShare sc_new.

(** The row of divided differences that ends at position [i]; [n] entries are left. *)
Fixpoint newton_row (n j i : nat) (vShare : list share) (prev vDiff : list (list Z)) : result (list (list Z)) :=
  match n with
  | O => Ok vDiff
  | S n' =>
      let coeff := sc_sub int128 (nth j vDiff []) (nth j prev []) in
      let! inverse := inverse_at (fst (nth i vShare (0, []))) (fst (nth (i - j - 1) vShare (0, []))) in
      newton_row n' (S j) i vShare prev (vDiff ++ [sc_mul int128 coeff inverse])
  end.

Fixpoint newton_loop (vShare : list share) (i : nat) (rest : list share) (vDiffSet : list (list (list Z))) (basis s0 : list Z) : result (list Z) :=
  match rest with
  | [] => Ok s0
  | (xi, yi) :: rest' =>
      let! vDiff := newton_row i 0 i vShare (nth (i - 1) vDiffSet []) [sc_of_bytes int128 yi] in
      let s0 := sc_add int128 s0 (sc_mul int128 basis (last vDiff [])) in
      let basis := sc_Negative int128 (sc_mul_u32 int128 basis xi) in
      newton_loop vShare (S i) rest' (vDiffSet ++ [vDiff]) basis s0
  end.

Definition MPNewton (vShare : list share) : result (list Z) := newton_loop vShare 0 vShare [] (sc_of_u64 1) sc_new.

End Interpolation.
