(* ===== verification/Poly.v ===== *)
(** * Polynomials: quotients, divided differences and interpolation at zero

    A polynomial is the list of its coefficients, lowest first.  Divided differences are
    values of iterated quotients, so that they are integers whatever the points are, and
    the two interpolation formulas hold modulo any number for which the differences of
    the points have inverses. *)

From Stdlib Require Import ZArith List Lia Permutation Morphisms.
Import ListNotations.
Local Open Scope Z_scope.

Fixpoint peval (c : list Z) (x : Z) : Z := match c with [] => 0 | a :: c' => a + x * peval c' x end.

(** (f(x) - f(a)) / (x - a) *)
Fixpoint quot (c : list Z) (a : Z) : list Z := match c with [] => [] | _ :: g => match g with [] => [] | _ => peval g a :: quot g a end end.

Lemma quot_cons c0 g a x : peval (quot (c0 :: g) a) x = peval g a + x * peval (quot g a) x.
Proof. destruct g; cbn; lia. Qed.

Lemma quot_ok c a x : peval (quot c a) x * (x - a) = peval c x - peval c a.
Proof. induction c as [|c0 g IH]; [cbn; lia|]. rewrite quot_cons. cbn [peval]. nia. Qed.

Lemma quot_sym c a b : peval (quot c a) b = peval (quot c b) a.
Proof.
  induction c as [|c0 g IH]; [reflexivity|]. rewrite !quot_cons. pose proof (quot_ok g a b). rewrite <- IH. nia.
Qed.

Lemma length_quot c a : length (quot c a) = Nat.pred (length c).
Proof. induction c as [|c0 [|c1 g] IH]; [reflexivity..|]. change (quot (c0 :: c1 :: g) a) with (peval (c1 :: g) a :: quot (c1 :: g) a). cbn [length] in *. now rewrite IH. Qed.

Lemma quot_long c0 h a : h <> [] -> quot (c0 :: h) a = peval h a :: quot h a.
Proof. now destruct h. Qed.

Lemma quot_comm c a b : quot (quot c a) b = quot (quot c b) a.
Proof.
  induction c as [|c0 h IH]; [reflexivity|]. destruct h as [|c1 [|c2 g]]; [reflexivity..|].
  assert (N : forall x, quot (c1 :: c2 :: g) x <> []) by (intros x E; apply (f_equal (@length Z)) in E; rewrite length_quot in E; discriminate E).
  rewrite !(quot_long c0) by discriminate. rewrite !quot_long by apply N. now rewrite IH, quot_sym.
Qed.

(** ** Divided differences

    [dd c M y] is the divided difference at the points of [M] and [y]. *)
Definition dd (c M : list Z) (y : Z) : Z := peval (fold_left quot M c) y.

Lemma fold_quot_perm M M' : Permutation M M' -> forall c, fold_left quot M c = fold_left quot M' c.
Proof. induction 1; intros c; cbn [fold_left]; auto; [now rewrite quot_comm|]. now rewrite IHPermutation1. Qed.

Lemma dd_snoc c M a y : dd c (M ++ [a]) y = peval (quot (fold_left quot M c) a) y.
Proof. unfold dd. now rewrite fold_left_app. Qed.

Lemma dd_rec c M a y : (y - a) * dd c (M ++ [a]) y = dd c M y - dd c M a.
Proof. rewrite dd_snoc, Z.mul_comm. apply quot_ok. Qed.

(** The points can be exchanged. *)
Lemma dd_perm c M y M' y' : Permutation (y :: M) (y' :: M') -> dd c M y = dd c M' y'.
Proof.
  intros H. destruct (Z.eq_dec y y') as [<-|N].
  - apply Permutation_cons_inv in H. unfold dd. now rewrite (fold_quot_perm _ _ H).
  - assert (I : In y' M) by (destruct (Permutation_in y' (Permutation_sym H) ltac:(now left)); [contradiction|assumption]).
    apply in_split in I as (A & B & ->). assert (P1 : Permutation (A ++ y' :: B) ((A ++ B) ++ [y'])) by (rewrite <- app_assoc; apply Permutation_app_head, Permutation_cons_append).
    assert (P2 : Permutation M' ((A ++ B) ++ [y])).
    { apply (Permutation_cons_inv (a := y')). rewrite <- H. rewrite P1, <- Permutation_cons_append. rewrite perm_swap. apply perm_skip. apply Permutation_cons_append. }
    unfold dd. rewrite (fold_quot_perm _ _ P1), (fold_quot_perm _ _ P2). rewrite !fold_left_app. apply quot_sym.
Qed.

Lemma length_fold_quot M : forall c, length (fold_left quot M c) = (length c - length M)%nat.
Proof. induction M as [|a M IH]; intros c; cbn [fold_left length]; [lia|]. rewrite IH, length_quot. lia. Qed.

Lemma dd_high c M y : (length c <= length M)%nat -> dd c M y = 0.
Proof. intros H. unfold dd. destruct (fold_left quot M c) as [|a l] eqn:E; [reflexivity|]. apply (f_equal (@length Z)) in E. rewrite length_fold_quot in E. cbn in E. lia. Qed.

(** Newton's formula at zero, the points in reverse order. *)
Fixpoint newton (c : list Z) (M : list Z) : Z :=
  match M with [] => 0 | x :: M' => newton c M' + fold_right (fun x p => - x * p) 1 M' * dd c M' x end.

Lemma newton_value c M : peval c 0 = newton c M + fold_right (fun x p => - x * p) 1 M * dd c M 0.
Proof.
  induction M as [|x M IH]; cbn [newton fold_right]; [unfold dd; cbn [fold_left]; ring|].
  rewrite IH. rewrite (dd_perm c (x :: M) 0 (M ++ [x]) 0) by apply perm_skip, Permutation_cons_append.
  pose proof (dd_rec c M x 0). nia.
Qed.

Lemma newton_ok c M : (length c <= length M)%nat -> newton c M = peval c 0.
Proof. intros H. rewrite (newton_value c M), dd_high by exact H. ring. Qed.

(** ** Congruence *)

Definition cong (n a b : Z) : Prop := a mod n = b mod n.

#[export] Instance cong_equiv n : RelationClasses.Equivalence (cong n).
Proof. split; unfold cong; congruence. Qed.

#[export] Instance cong_add n : Proper (cong n ==> cong n ==> cong n) Z.add.
Proof. intros a a' Ha b b' Hb. unfold cong in *. rewrite Zplus_mod, Ha, Hb, <- Zplus_mod. reflexivity. Qed.

#[export] Instance cong_sub n : Proper (cong n ==> cong n ==> cong n) Z.sub.
Proof. intros a a' Ha b b' Hb. unfold cong in *. rewrite Zminus_mod, Ha, Hb, <- Zminus_mod. reflexivity. Qed.

#[export] Instance cong_mul n : Proper (cong n ==> cong n ==> cong n) Z.mul.
Proof. intros a a' Ha b b' Hb. unfold cong in *. rewrite Zmult_mod, Ha, Hb, <- Zmult_mod. reflexivity. Qed.

#[export] Instance cong_opp n : Proper (cong n ==> cong n) Z.opp.
Proof. intros a a' Ha. rewrite <- !Z.sub_0_l. now rewrite Ha. Qed.

Lemma cong_mod n a : cong n (a mod n) a.
Proof. unfold cong. apply Zmod_mod. Qed.

(** A factor with an inverse can be cancelled. *)
Lemma cong_cancel n i d a b : cong n (i * d) 1 -> cong n (d * a) (d * b) -> cong n a b.
Proof.
  intros Hi H. transitivity (i * d * a); [rewrite Hi, Z.mul_1_l; reflexivity|]. rewrite <- Z.mul_assoc, H, Z.mul_assoc, Hi, Z.mul_1_l. reflexivity.
Qed.

(** ** Lagrange's formula at zero

    [w y x] is the factor of the point [y] in the weight of the point [x]. *)
Section Lagrange.

Variables (n : Z) (inv : Z -> Z).

Definition w (y x : Z) : Z := inv (y - x) * y.
Definition weights (l : list Z) (x : Z) : Z := fold_right (fun y p => w y x * p) 1 l.

Fixpoint lagrange (l : list Z) (g : Z -> Z) : Z :=
  match l with [] => 0 | x :: l' => g x * weights l' x + lagrange l' (fun z => g z * w x z) end.

(** The differences of the points have their inverses. *)
Fixpoint apart (l : list Z) : Prop :=
  match l with
  | [] => True
  | x :: l' => Forall (fun y => cong n (inv (y - x) * (y - x)) 1 /\ cong n (inv (x - y) * (x - y)) 1) l' /\ apart l'
  end.

Lemma lagrange_ext l : forall g h, (forall x, In x l -> cong n (g x) (h x)) -> cong n (lagrange l g) (lagrange l h).
Proof.
  induction l as [|x l IH]; intros g h H; cbn [lagrange]; [reflexivity|]. rewrite (H x (or_introl eq_refl)).
  rewrite (IH (fun z => g z * w x z) (fun z => h z * w x z)); [reflexivity|]. intros z Hz. now rewrite (H z (or_intror Hz)).
Qed.

Lemma lagrange_add l : forall g h, lagrange l (fun x => g x + h x) = lagrange l g + lagrange l h.
Proof.
  induction l as [|x l IH]; intros g h; cbn [lagrange]; [reflexivity|].
  assert (E : forall l g h, (forall x, g x = h x) -> lagrange l g = lagrange l h).
  { clear. induction l as [|x l IH]; intros g h H; cbn [lagrange]; [reflexivity|]. rewrite H. f_equal. apply IH. intros z. now rewrite H. }
  rewrite (E l _ (fun z => g z * w x z + h z * w x z)) by (intros; ring). rewrite IH. ring.
Qed.

Lemma lagrange_scale l : forall k g, cong n (lagrange l (fun x => k * g x)) (k * lagrange l g).
Proof.
  induction l as [|x l IH]; intros k g; cbn [lagrange]; [now rewrite Z.mul_0_r|].
  rewrite (lagrange_ext l _ (fun z => k * (g z * w x z))); [|intros z _; now rewrite Z.mul_assoc]. rewrite IH.
  replace (k * g x * weights l x + k * lagrange l (fun z => g z * w x z)) with (k * (g x * weights l x + lagrange l (fun z => g z * w x z))) by ring. reflexivity.
Qed.

Lemma weights_perm x l l' : Permutation l l' -> weights l x = weights l' x.
Proof. induction 1; unfold weights in *; cbn [fold_right]; try congruence; ring. Qed.

Lemma lagrange_perm l l' : Permutation l l' -> forall g, cong n (lagrange l g) (lagrange l' g).
Proof.
  induction 1 as [|x l l' H IH|x y l|l l' l'' H1 IH1 H2 IH2]; intros g; cbn [lagrange].
  - reflexivity.
  - rewrite (weights_perm x _ _ H), IH. reflexivity.
  - cbn [weights fold_right]. fold (weights l x) (weights l y).
    rewrite (lagrange_ext l (fun z => g z * w y z * w x z) (fun z => g z * w x z * w y z)).
    + apply f_equal2; [ring|reflexivity].
    + intros z _. now rewrite <- !Z.mul_assoc, (Z.mul_comm (w y z)).
  - now rewrite IH1, IH2.
Qed.

(** A factor that vanishes at a point removes it. *)
Lemma lagrange_remove x l h : Forall (fun y => cong n (inv (x - y) * (x - y)) 1) l ->
  cong n (lagrange (x :: l) (fun z => (z - x) * h z)) (- x * lagrange l h).
Proof.
  intros H. cbn [lagrange]. rewrite Z.sub_diag, !Z.mul_0_l, Z.add_0_l. rewrite <- lagrange_scale. apply lagrange_ext.
  intros z Hz. rewrite Forall_forall in H. specialize (H z Hz). unfold w.
  transitivity (- x * h z * (inv (x - z) * (x - z))); [apply f_equal2; [ring|reflexivity]|]. rewrite H. apply f_equal2; [ring|reflexivity].
Qed.

Lemma lagrange_one k : forall l, length l = S k -> apart l -> cong n (lagrange l (fun _ => 1)) 1.
Proof.
  induction k as [|k IH]; intros [|x [|y l]] HL HA; try discriminate HL; [cbn [lagrange weights fold_right]; apply f_equal2; [ring|reflexivity]|].
  cbn [apart] in HA. destruct HA as (Hx & Hy & HA). apply Forall_cons_iff in Hx as [Hxy Hx]. injection HL as HL.
  apply (cong_cancel n (inv (y - x)) (y - x)); [apply Hxy|].
  rewrite <- lagrange_scale. rewrite (lagrange_ext _ _ (fun z => (z - x) * 1 + - 1 * ((z - y) * 1))); [|intros; apply f_equal2; [ring|reflexivity]].
  rewrite lagrange_add, lagrange_scale.
  rewrite lagrange_remove; [|constructor; [apply Hxy|eapply Forall_impl; [|exact Hx]; cbn; tauto]].
  rewrite (lagrange_perm (x :: y :: l) (y :: x :: l) (perm_swap _ _ _)).
  rewrite lagrange_remove; [|constructor; [apply Hxy|eapply Forall_impl; [|exact Hy]; cbn; tauto]].
  rewrite (IH (y :: l)), (IH (x :: l)); [|cbn; congruence|split; assumption|cbn; congruence|split; assumption]. apply f_equal2; [ring|reflexivity].
Qed.

Lemma lagrange_ok l : forall c, (length c <= length l)%nat -> apart l -> cong n (lagrange l (peval c)) (peval c 0).
Proof.
  induction l as [|x l IH]; intros c HL HA.
  { destruct c; [reflexivity|cbn in HL; lia]. }
  rewrite (lagrange_ext _ _ (fun z => peval c x * 1 + (z - x) * peval (quot c x) z)).
  2:{ intros z _. pose proof (quot_ok c x z). apply f_equal2; [lia|reflexivity]. }
  rewrite lagrange_add, lagrange_scale, (lagrange_one (length l)) by (auto; reflexivity).
  rewrite lagrange_remove by (eapply Forall_impl; [|apply HA]; cbn; tauto).
  rewrite IH; [|rewrite length_quot; cbn in HL; lia|apply HA]. pose proof (quot_ok c x 0). apply f_equal2; [lia|reflexivity].
Qed.

End Lagrange.
