(* ===== verification/InterpOk.v ===== *)
(** * Both interpolations return the secret

    For shares of a polynomial with at most as many coefficients as there are shares, at
    different arguments no further apart than the table reaches, [MPLagrange] and
    [MPNewton] return the constant coefficient. *)

From Stdlib Require Import ZArith List Lia Bool Permutation Morphisms.
From S2P Require Import Prelude Radix Base25519 Base25519Ok Sc25519 Sc25519Ok Interp Poly.
Import ListNotations.
Local Open Scope Z_scope.

(** ** Scalars that represent integers *)

Definition rep (v : list Z) (z : Z) : Prop := weak v /\ cong ell (num v) z.

Create HintDb rep.

Lemma rep_cong v z z' : rep v z -> cong ell z z' -> rep v z'.
Proof. intros [W E] H. split; [exact W|]. now rewrite E. Qed.

Lemma rep_add d a b x y : rep a x -> rep b y -> rep (sc_add d a b) (x + y).
Proof. intros [Wa Ea] [Wb Eb]. destruct (sc_add_ok d a b Wa Wb) as (W & E & _). split; [exact W|]. unfold cong at 1. rewrite E. fold (cong ell (num a + num b) (x + y)). now rewrite Ea, Eb. Qed.

Lemma rep_sub d a b x y : rep a x -> rep b y -> rep (sc_sub d a b) (x - y).
Proof. intros [Wa Ea] [Wb Eb]. destruct (sc_sub_ok d a b Wa Wb) as (W & E & _). split; [exact W|]. unfold cong at 1. rewrite E. fold (cong ell (num a - num b) (x - y)). now rewrite Ea, Eb. Qed.

Lemma rep_mul d a b x y : rep a x -> rep b y -> rep (sc_mul d a b) (x * y).
Proof. intros [Wa Ea] [Wb Eb]. destruct (sc_mul_ok d a b Wa Wb) as [C E]. split; [now apply canonical_weak|]. rewrite E, cong_mod. now rewrite Ea, Eb. Qed.

Lemma rep_mul_u32 d a x y : rep a x -> 0 <= y < 2 ^ 32 -> rep (sc_mul_u32 d a y) (x * y).
Proof. intros [Wa Ea] Hy. destruct (sc_mul_u32_ok d a y Wa Hy) as [C E]. split; [now apply canonical_weak|]. rewrite E, cong_mod. now rewrite Ea. Qed.

Lemma rep_neg d a x : rep a x -> rep (sc_Negative d a) (- x).
Proof.
  intros [Wa Ea]. destruct (sc_Negative_ok d a Wa) as [W E]. split; [exact W|]. rewrite E, <- Ea. unfold cong.
  replace (ell - num a) with (- num a + 1 * ell) by ring. apply Z_mod_plus_full.
Qed.

Lemma rep_u64 x : 0 <= x < 2 ^ 64 -> rep (sc_of_u64 x) x.
Proof. intros H. destruct (sc_of_u64_ok x H) as [C E]. split; [now apply canonical_weak|]. now rewrite E. Qed.

Lemma rep_bytes d v : u256 v -> rep (sc_of_bytes d v) (num v).
Proof. intros H. destruct (sc_of_bytes_ok d v H) as [C E]. split; [now apply canonical_weak|]. rewrite E. apply cong_mod. Qed.

Lemma rep_new : rep sc_new 0.
Proof. destruct sc_new_ok as [C E]. split; [now apply canonical_weak|]. now rewrite E. Qed.

#[export] Hint Resolve rep_add rep_sub rep_mul rep_mul_u32 rep_neg rep_bytes rep_new : rep.

Lemma rep_canonical v z : canonical v -> rep v z -> num v = z mod ell.
Proof. intros C [_ E]. rewrite <- (canonical_num v C). exact E. Qed.

(** ** The table of inverses *)

Definition inv (d : Z) : Z := num (nth (Z.to_nat (50 + d)) SCInverse []).

Definition scalar_check (v : list Z) : bool :=
  Nat.eqb (length v) 4 && forallb (fun x => (0 <=? x) && (x <? 2 ^ 64)) v && (num v <? ell).

Lemma scalar_check_ok v : scalar_check v = true -> canonical v.
Proof.
  intros H. apply andb_true_iff in H as [H H3]. apply andb_true_iff in H as [H1 H2]. apply Nat.eqb_eq in H1. apply Z.ltb_lt in H3.
  split; [|exact H3]. split; [exact H1|]. apply Forall_forall. intros x Hx. rewrite forallb_forall in H2. specialize (H2 x Hx).
  apply andb_true_iff in H2 as [A B]. apply Z.leb_le in A. apply Z.ltb_lt in B. lia.
Qed.

Lemma inverse_table d : -50 <= d <= 50 -> canonical (nth (Z.to_nat (50 + d)) SCInverse []) /\ (d <> 0 -> cong ell (inv d * d) 1).
Proof.
  assert (C : forallb (fun k => let d := Z.of_nat k - 50 in scalar_check (nth k SCInverse []) &&
    ((d =? 0) || ((num (nth k SCInverse []) * d) mod ell =? 1))) (seq 0 101) = true) by (vm_compute; reflexivity).
  intros H. rewrite forallb_forall in C. specialize (C (Z.to_nat (50 + d)) ltac:(apply in_seq; lia)). cbv zeta in C.
  apply andb_true_iff in C as [C1 C2]. split; [now apply scalar_check_ok|]. intros N. rewrite Z2Nat.id in C2 by lia. replace (50 + d - 50) with d in C2 by ring.
  apply orb_true_iff in C2 as [C2|C2]; apply Z.eqb_eq in C2; [contradiction|]. unfold cong, inv. rewrite C2. reflexivity.
Qed.

Lemma inverse_at_ok a b : -50 <= a - b <= 50 -> exists v, inverse_at a b = Ok v /\ rep v (inv (a - b)).
Proof.
  intros H. unfold inverse_at. rewrite (proj2 (Z.leb_le _ _)), (proj2 (Z.ltb_lt _ _)) by lia. cbn [andb].
  replace (50 + a - b) with (50 + (a - b)) by ring. eexists. split; [reflexivity|]. split; [apply canonical_weak, inverse_table; exact H|reflexivity].
Qed.

(** ** Shares of a polynomial *)

Definition points (vShare : list share) : list Z := map fst vShare.

Definition arg_ok (x : Z) : Prop := 0 <= x < 2 ^ 32.

(** Different arguments within the reach of the table. *)
Definition spread (l : list Z) : Prop :=
  NoDup l /\ Forall arg_ok l /\ (forall x y, In x l -> In y l -> -50 <= x - y <= 50).

(** [vShare] are points of the polynomial [c]. *)
Definition on_poly (c : list Z) (vShare : list share) : Prop :=
  Forall (fun s => u256 (snd s) /\ cong ell (num (snd s)) (peval c (fst s))) vShare.

Lemma spread_apart l : spread l -> apart ell inv l.
Proof.
  intros (ND & _ & H). induction ND as [|x l Hx ND IH]; cbn [apart]; [exact I|]. split.
  - apply Forall_forall. intros y Hy. assert (x <> y) by (intros ->; contradiction).
    pose proof (H x y (or_introl eq_refl) (or_intror Hy)). split; (apply inverse_table; [|lia]); lia.
  - apply IH. intros a b Ha Hb. apply H; now right.
Qed.

(** *** Lists by position *)

Lemma skipn_next {A} i (l : list A) a r : skipn i l = a :: r -> skipn (S i) l = r.
Proof. intros H. change (S i) with (1 + i)%nat. now rewrite <- skipn_skipn, H. Qed.

Lemma last_nth {A} (l : list A) a : last l a = nth (length l - 1) l a.
Proof.
  induction l as [|x [|y l] IH]; [reflexivity..|]. change (last (x :: y :: l) a) with (last (y :: l) a). rewrite IH. cbn [length nth Nat.sub]. now rewrite Nat.sub_0_r.
Qed.

(** *** Lagrange *)

Section Loops.

Variable d : bool.

Lemma weights_app l1 l2 x : weights inv (l1 ++ l2) x = weights inv l1 x * weights inv l2 x.
Proof. unfold weights. induction l1 as [|y l1 IH]; cbn [app fold_right]; [now destruct (fold_right _ _ l2)|]. rewrite IH. ring. Qed.

Definition reachable (xi : Z) (l : list Z) : Prop := Forall (fun x => arg_ok x /\ -50 <= x - xi <= 50) l.

Lemma basis_after vShare : forall i j xi l z, (i < j)%nat -> reachable xi (points vShare) -> rep l z ->
  returns (lagrange_basis d i j xi vShare l) (fun l' => rep l' (z * weights inv (points vShare) xi)).
Proof.
  induction vShare as [|[xj yj] vs IH]; intros i j xi l z Hij HR Hl; cbn [lagrange_basis points map weights fold_right returns].
  { eapply rep_cong; [exact Hl|]. now rewrite Z.mul_1_r. }
  rewrite (proj2 (Nat.eqb_neq _ _)) by lia. apply Forall_cons_iff in HR as [[Ha Hx] HR]. cbn [fst] in *.
  destruct (inverse_at_ok xj xi Hx) as (v & -> & Hv). cbn [bind].
  eapply returns_mono; [apply IH; [lia|exact HR|apply rep_mul; [exact Hl|apply rep_mul_u32; [exact Hv|exact Ha]]]|].
  intros l' H. eapply rep_cong; [exact H|]. unfold weights, points, w. apply f_equal2; [ring|reflexivity].
Qed.

Lemma basis_at pre : forall s post i j xi l z, (j + length pre = i)%nat -> reachable xi (points pre) -> reachable xi (points post) -> rep l z ->
  returns (lagrange_basis d i j xi (pre ++ s :: post) l) (fun l' => rep l' (z * weights inv (points pre ++ points post) xi)).
Proof.
  induction pre as [|[xj yj] pre IH]; intros s post i j xi l z Hij HP HR Hl; cbn [app lagrange_basis length] in *.
  - destruct s as [xs ys]. rewrite (proj2 (Nat.eqb_eq _ _)) by lia. apply basis_after; auto. lia.
  - rewrite (proj2 (Nat.eqb_neq _ _)) by lia. apply Forall_cons_iff in HP as [[Ha Hx] HP]. cbn [fst] in *.
    destruct (inverse_at_ok xj xi Hx) as (v & -> & Hv). cbn [bind].
    eapply returns_mono; [apply IH; [lia|exact HP|exact HR|apply rep_mul; [exact Hl|apply rep_mul_u32; [exact Hv|exact Ha]]]|].
    intros l' H. eapply rep_cong; [exact H|]. cbn [points map app weights fold_right fst]. unfold weights, points, w. apply f_equal2; [ring|reflexivity].
Qed.

Lemma reachable_in l l' x : spread l -> In x l -> incl l' l -> reachable x l'.
Proof. intros (_ & HA & HN) Hx Hi. apply Forall_forall. intros y Hy. rewrite Forall_forall in HA. split; [apply HA|apply HN]; auto. Qed.

Lemma lagrange_sum_ok c rest : forall pre s0 z, spread (points (pre ++ rest)) -> on_poly c rest -> canonical s0 -> rep s0 z ->
  returns (lagrange_sum d (pre ++ rest) (length pre) rest s0) (fun s =>
    canonical s /\ rep s (z + lagrange inv (points rest) (fun x => peval c x * weights inv (points pre) x))).
Proof.
  induction rest as [|[xi yi] rest IH]; intros pre s0 z HS HP HC Hs; cbn [lagrange_sum points map lagrange returns].
  { split; [exact HC|]. eapply rep_cong; [exact Hs|]. now rewrite Z.add_0_r. }
  apply Forall_cons_iff in HP as [[Hu Hy] HP]. cbn [fst snd] in *.
  assert (Hin : In xi (points (pre ++ (xi, yi) :: rest))) by (unfold points; rewrite map_app; apply in_app_iff; right; now left).
  eapply returns_bind.
  { apply (basis_at pre (xi, yi) rest (length pre) 0 xi (sc_of_u64 1) 1); [lia| | |apply rep_u64; lia];
      (apply (reachable_in _ _ _ HS Hin)); unfold points; rewrite map_app; intros x Hx; apply in_app_iff; [now left|right; now right]. }
  intros l Hl. set (t := sc_mul d l (sc_of_bytes d yi)).
  assert (Ht : rep t (1 * weights inv (points pre ++ points rest) xi * num yi)) by (unfold t; auto with rep).
  assert (Ct : canonical (sc_add d s0 t)) by (apply sc_add_ok; [apply Hs|apply Ht|exact HC]).
  specialize (IH (pre ++ [(xi, yi)]) (sc_add d s0 t) (z + 1 * weights inv (points pre ++ points rest) xi * num yi)).
  rewrite <- app_assoc in IH. cbn [app] in IH. rewrite length_app, Nat.add_1_r in IH.
  eapply returns_mono; [apply IH; auto with rep|]. intros s [C R]. split; [exact C|]. eapply rep_cong; [exact R|].
  rewrite <- Z.add_assoc. apply cong_add; [reflexivity|]. apply cong_add.
  - rewrite Hy, weights_app. change (map fst rest) with (points rest). apply f_equal2; [ring|reflexivity].
  - apply lagrange_ext. intros x _. unfold points. rewrite map_app, weights_app. cbn [map fst].
    replace (weights inv [xi] x) with (w inv xi x) by apply eq_sym, Z.mul_1_r. now rewrite Z.mul_assoc.
Qed.

Lemma MPLagrange_ok c vShare : (length c <= length vShare)%nat -> spread (points vShare) -> on_poly c vShare ->
  returns (MPLagrange d vShare) (fun s => canonical s /\ num s = peval c 0 mod ell).
Proof.
  intros HL HS HP. unfold MPLagrange. destruct sc_new_ok as [C0 _].
  eapply returns_mono; [exact (lagrange_sum_ok c vShare [] sc_new 0 HS HP C0 rep_new)|].
  intros s [C R]. split; [exact C|]. apply rep_canonical; [exact C|]. eapply rep_cong; [exact R|]. rewrite Z.add_0_l.
  rewrite (lagrange_ext ell inv _ _ (peval c)); [|intros x _; cbn [points map weights fold_right]; apply f_equal2; [ring|reflexivity]].
  apply lagrange_ok; [unfold points; now rewrite length_map|now apply spread_apart].
Qed.

(** *** Newton *)

Section Newton.

Variables (c : list Z) (vShare : list share).
Hypothesis vShare_spread : spread (points vShare).

Lemma length_points : length (points vShare) = length vShare.
Proof. apply length_map. Qed.

Definition x_at (i : nat) : Z := nth i (points vShare) 0.

(** The [m] points before position [i], the nearest first. *)
Definition nodes (i m : nat) : list Z := map (fun k => x_at (i - 1 - k)) (seq 0 m).

Lemma nodes_snoc i m : nodes i (S m) = nodes i m ++ [x_at (i - 1 - m)].
Proof. unfold nodes. now rewrite seq_S, map_app. Qed.

Lemma nodes_cons i m : nodes (S i) (S m) = x_at i :: nodes i m.
Proof.
  unfold nodes. cbn [seq map]. replace (S i - 1 - 0)%nat with i by lia. f_equal.
  rewrite <- seq_shift, map_map. apply map_ext. intros k. f_equal. lia.
Qed.

Lemma x_at_fst i : fst (nth i vShare (0, [])) = x_at i.
Proof. unfold x_at, points. symmetry. exact (map_nth fst vShare (0, []) i). Qed.

Lemma x_at_apart i k : (i < length vShare)%nat -> (k < length vShare)%nat -> i <> k ->
  -50 <= x_at i - x_at k <= 50 /\ cong ell (inv (x_at i - x_at k) * (x_at i - x_at k)) 1.
Proof.
  intros Hi Hk N. destruct vShare_spread as (ND & _ & HN). rewrite <- length_points in Hi, Hk.
  assert (B : -50 <= x_at i - x_at k <= 50) by (apply HN; now apply nth_In).
  split; [exact B|]. apply inverse_table; [exact B|]. intros E. apply N. apply (proj1 (NoDup_nth _ 0) ND i k Hi Hk). unfold x_at in E. lia.
Qed.

(** [v] holds divided differences that end at position [i]. *)
Definition row_ok (i : nat) (v : list (list Z)) : Prop :=
  forall j, (j < length v)%nat -> rep (nth j v []) (dd c (nodes i j) (x_at i)).

Lemma row_step i j a b v : (j < i)%nat -> (i < length vShare)%nat ->
  rep a (dd c (nodes i j) (x_at i)) -> rep b (dd c (nodes (i - 1) j) (x_at (i - 1))) -> rep v (inv (x_at i - x_at (i - 1 - j))) ->
  rep (sc_mul d (sc_sub d a b) v) (dd c (nodes i (S j)) (x_at i)).
Proof.
  intros Hj Hi Ha Hb Hv. destruct (x_at_apart i (i - 1 - j) Hi ltac:(lia) ltac:(lia)) as [_ HI].
  eapply rep_cong; [apply rep_mul; [apply rep_sub; [exact Ha|exact Hb]|exact Hv]|].
  rewrite (dd_perm c (nodes (i - 1) j) (x_at (i - 1)) (nodes i j) (x_at (i - 1 - j))).
  - rewrite nodes_snoc, <- dd_rec. set (q := dd c _ _). set (e := x_at i - _) in *.
    transitivity (inv e * e * q); [apply f_equal2; [ring|reflexivity]|]. now rewrite HI, Z.mul_1_l.
  - rewrite <- nodes_cons. replace (S (i - 1)) with i by lia. rewrite nodes_snoc. symmetry. apply Permutation_cons_append.
Qed.

Lemma newton_row_ok i prev : (i < length vShare)%nat -> length prev = i -> row_ok (i - 1) prev ->
  forall n j v, (n + j = i)%nat -> length v = S j -> row_ok i v ->
  returns (newton_row d n j i vShare prev v) (fun v' => length v' = S i /\ row_ok i v').
Proof.
  intros Hi Hp HP. induction n as [|n IH]; intros j v Hn HL HR; cbn [newton_row returns]; [split; [lia|exact HR]|].
  rewrite !x_at_fst. replace (i - j - 1)%nat with (i - 1 - j)%nat by lia.
  destruct (inverse_at_ok (x_at i) (x_at (i - 1 - j))) as (w & -> & Hw); [apply x_at_apart; lia|]. cbn [bind].
  apply IH; [lia|rewrite length_app; cbn; lia|]. intros k Hk. rewrite length_app in Hk. cbn [length] in Hk.
  destruct (Nat.eq_dec k (S j)) as [->|N]; [|rewrite app_nth1 by lia; apply HR; lia].
  rewrite app_nth2, HL, Nat.sub_diag by lia. cbn [nth]. apply row_step; [lia|exact Hi|apply HR; lia|apply HP; lia|exact Hw].
Qed.

Lemma newton_loop_ok rest : forall i vDiffSet basis s0, (i + length rest = length vShare)%nat -> skipn i vShare = rest ->
  on_poly c rest -> length vDiffSet = i -> (forall k, (k < i)%nat -> length (nth k vDiffSet []) = S k /\ row_ok k (nth k vDiffSet [])) ->
  rep basis (fold_right (fun x p => - x * p) 1 (nodes i i)) -> canonical s0 -> rep s0 (newton c (nodes i i)) ->
  returns (newton_loop d vShare i rest vDiffSet basis s0) (fun s => canonical s /\ rep s (newton c (nodes (length vShare) (length vShare)))).
Proof.
  induction rest as [|[xi yi] rest IH]; intros i set basis s0 HL HS HP HD HR HB HC H0; cbn [newton_loop returns length] in *.
  { rewrite Nat.add_0_r in HL. rewrite <- HL. now split. }
  apply Forall_cons_iff in HP as [[Hu Hy] HP]. cbn [fst snd] in *.
  assert (Ex : x_at i = xi).
  { rewrite <- x_at_fst, <- (Nat.add_0_r i), <- nth_skipn, HS. reflexivity. }
  assert (HA : arg_ok xi).
  { destruct vShare_spread as (_ & HA & _). rewrite Forall_forall in HA. apply HA. rewrite <- Ex. apply nth_In. rewrite length_points. lia. }
  assert (HPr : length (nth (i - 1) set []) = i /\ row_ok (i - 1) (nth (i - 1) set [])).
  { destruct i as [|i]; [destruct set; [|discriminate HD]; split; [reflexivity|intros j Hj; cbn in Hj; lia]|].
    replace (S i - 1)%nat with i by lia. apply HR. lia. }
  eapply returns_bind; [apply (newton_row_ok i (nth (i - 1) set [])); [lia|apply HPr|apply HPr|lia|reflexivity|]|].
  { intros j Hj. cbn [length] in Hj. replace j with 0%nat by lia. cbn [nth]. eapply rep_cong; [apply rep_bytes, Hu|]. now rewrite Hy, Ex. }
  intros v [HLv HRv]. rewrite (last_nth v), HLv. replace (S i - 1)%nat with i by lia.
  assert (HI : rep (nth i v []) (dd c (nodes i i) (x_at i))) by (apply HRv; lia). set (s1 := sc_add d s0 _).
  apply IH; [lia|now apply skipn_next with (xi, yi)|exact HP|rewrite length_app; cbn; lia| | | |].
  - intros k Hk. destruct (Nat.eq_dec k i) as [->|N]; [rewrite app_nth2, HD, Nat.sub_diag by lia; now split|]. rewrite app_nth1 by lia. apply HR. lia.
  - rewrite nodes_cons. cbn [fold_right]. rewrite Ex. eapply rep_cong; [apply rep_neg, rep_mul_u32; [exact HB|exact HA]|]. apply f_equal2; [ring|reflexivity].
  - apply sc_add_ok; [apply H0|eapply rep_mul; [exact HB|exact HI]|exact HC].
  - rewrite nodes_cons. cbn [newton]. apply rep_add; [exact H0|]. now apply rep_mul.
Qed.

Lemma length_nodes i m : length (nodes i m) = m.
Proof. unfold nodes. now rewrite length_map, length_seq. Qed.

Lemma MPNewton_ok : (length c <= length vShare)%nat -> on_poly c vShare ->
  returns (MPNewton d vShare) (fun s => canonical s /\ num s = peval c 0 mod ell).
Proof.
  intros HL HP. unfold MPNewton. destruct sc_new_ok as [C0 _].
  eapply returns_mono; [apply (newton_loop_ok vShare 0 [] (sc_of_u64 1) sc_new); [reflexivity|reflexivity|exact HP|reflexivity|intros k Hk; inversion Hk|apply (rep_u64 1); lia|exact C0|exact rep_new]|].
  intros s [C R]. split; [exact C|]. apply rep_canonical; [exact C|]. now rewrite newton_ok in R by now rewrite length_nodes.
Qed.

End Newton.

End Loops.
