(* ===== verification/Parallel.v ===== *)
(** * The parallel computer: mpvss/parallel.h

    [ParallelComputer] runs a task for every index below [nTotal] on at most
    [nParallelNum] threads, which take the next index from an atomic counter.  The
    threads are interleaved at every access to shared data: the counter, the flag
    [fContinue] and the output; an access under the mutex is one step.  A task that
    throws is [None]. *)

From Stdlib Require Import ZArith Lia Bool.
From stdpp Require Import base list tactics.
From S2P Require Import Prelude.

(** ** The threads *)

Inductive thread (B : Type) : Type :=
| Loop                                (** before fetch_add *)
| Fetched (nIndex : nat)              (** before the test of the loop *)
| Call (nIndex : nat)                 (** before the call of fnTrans *)
| Store (nIndex : nat) (result : B)   (** before fnOutput *)
| Stop                                (** before fContinue = false *)
| Finished (ret : bool).

Arguments Loop {B}.
Arguments Fetched {B} _.
Arguments Call {B} _.
Arguments Store {B} _ _.
Arguments Stop {B}.
Arguments Finished {B} _.

Record computation (B : Type) : Type := mk_computation {
  nCurrent : nat; fContinue : bool; output : list B; vFuture : list (thread B) }.

Arguments mk_computation {B} _ _ _ _.
Arguments nCurrent {B} _.
Arguments fContinue {B} _.
Arguments output {B} _.
Arguments vFuture {B} _.

Definition set_thread {B} (k : nat) (t : thread B) (c : computation B) : computation B :=
  mk_computation (nCurrent c) (fContinue c) (output c) (<[k := t]> (vFuture c)).

Definition fetch_add {B} (c : computation B) : computation B :=
  mk_computation (S (nCurrent c)) (fContinue c) (output c) (vFuture c).

Definition store {B} (i : nat) (b : B) (c : computation B) : computation B :=
  mk_computation (nCurrent c) (fContinue c) (<[i := b]> (output c)) (vFuture c).

Definition stop {B} (c : computation B) : computation B :=
  mk_computation (nCurrent c) false (output c) (vFuture c).

(** The constructor: a number of threads of 0 asks the system, which may answer 0. *)
Definition computer_new (nNum hardware_concurrency : Z) : Z :=
  if (nNum =? 0)%Z then (hardware_concurrency mod 256)%Z else nNum.

(** nTotal is a uint32_t: lists of fewer than 2^32 elements. *)
Definition nThreads (nTotal : nat) (nParallelNum : Z) : nat := Nat.min nTotal (Z.to_nat nParallelNum).

Definition start {B} (nTotal : nat) (nParallelNum : Z) (out : list B) : computation B :=
  mk_computation 0 true out (replicate (nThreads nTotal nParallelNum) Loop).

(** ret &= f.get() *)
Definition joined {B} (c : computation B) : bool :=
  forallb (fun t => match t with Finished r => r | _ => false end) (vFuture c).

Definition finished {B} (c : computation B) : Prop := Forall (fun t => exists r, t = Finished r) (vFuture c).

(** One step of the thread [k] in the three loops. *)

Definition transform_step {B} (nTotal : nat) (fnTrans : nat -> option B) (k : nat) (c : computation B) : option (computation B) :=
  match vFuture c !! k with
  | Some Loop => Some (set_thread k (Fetched (nCurrent c)) (fetch_add c))
  | Some (Fetched i) => Some (set_thread k (if Nat.ltb i nTotal then Call i else Finished true) c)
  | Some (Call i) => Some (set_thread k (match fnTrans i with Some b => Store i b | None => Finished false end) c)
  | Some (Store i b) => Some (set_thread k Loop (store i b c))
  | _ => None
  end.

(** The effect of a call is on the data of its index only. *)
Definition execute_step {B} (nTotal : nat) (fnTrans : nat -> option B) (k : nat) (c : computation B) : option (computation B) :=
  match vFuture c !! k with
  | Some Loop => Some (set_thread k (Fetched (nCurrent c)) (fetch_add c))
  | Some (Fetched i) => Some (set_thread k (if Nat.ltb i nTotal then Call i else Finished true) c)
  | Some (Call i) => Some (match fnTrans i with Some b => set_thread k Loop (store i b c) | None => set_thread k (Finished false) c end)
  | _ => None
  end.

(** fContinue is a plain bool the threads share: its reads and writes are steps here,
    while C++ leaves concurrent ones undefined.  The answer does not depend on it. *)
Definition until_step (nTotal : nat) (fnTrans : nat -> option bool) (k : nat) (c : computation bool) : option (computation bool) :=
  match vFuture c !! k with
  | Some Loop => Some (set_thread k (Fetched (nCurrent c)) (fetch_add c))
  | Some (Fetched i) => Some (set_thread k (if Nat.ltb i nTotal && fContinue c then Call i else Finished true) c)
  | Some (Call i) => Some (set_thread k (match fnTrans i with Some true => Loop | Some false => Stop | None => Finished false end) c)
  | Some Stop => Some (set_thread k (Finished false) (stop c))
  | _ => None
  end.

(** ** Interleavings *)

Section Runs.

Context {B : Type} (step : nat -> computation B -> option (computation B)).

Inductive steps : nat -> computation B -> computation B -> Prop :=
| steps_refl c : steps 0 c c
| steps_next n k c c' c'' : steps n c c' -> step k c' = Some c'' -> steps (S n) c c''.

(** The threads that can move, and the run in which [choose] picks one of them at every
    step. *)
Definition enabled (c : computation B) : list nat :=
  filter (fun k => is_Some (step k c)) (seq 0 (length (vFuture c))).

Fixpoint run (fuel : nat) (choose : nat -> nat) (c : computation B) : computation B :=
  match fuel with
  | O => c
  | S fuel' =>
      match enabled c with
      | [] => c
      | k :: ks => run fuel' (fun n => choose (S n)) (default c (step (nth (choose 0%nat mod S (length ks)) (k :: ks) k) c))
      end
  end.

Lemma steps_inv (P : computation B -> Prop) n c c' : P c -> (forall k c c', P c -> step k c = Some c' -> P c') -> steps n c c' -> P c'.
Proof. intros H0 HS. induction 1 as [|n k c c' c'' H IH E]; eauto. Qed.

(** A run is no longer than a measure that every step decreases. *)
Lemma steps_bounded (m : computation B -> nat) n c c' : (forall k c c', step k c = Some c' -> (m c' < m c)%nat) -> steps n c c' -> (n + m c' <= m c)%nat.
Proof. intros H. induction 1 as [|n k c c' c'' HS IH E]; [lia|]. apply H in E. lia. Qed.

Lemma steps_first n k c c' c'' : step k c = Some c' -> steps n c' c'' -> steps (S n) c c''.
Proof. intros E H. induction H; [eapply steps_next; [apply steps_refl|exact E]|]. eapply steps_next; eauto. Qed.

Lemma enabled_move c k : k ∈ enabled c -> exists c', step k c = Some c'.
Proof. intros H. apply list_elem_of_filter in H as [[c' E] _]. now exists c'. Qed.

Lemma run_steps fuel : forall choose c, exists n, steps n c (run fuel choose c).
Proof.
  induction fuel as [|fuel IH]; intros choose c; cbn [run]; [exists 0%nat; constructor|].
  destruct (enabled c) as [|k ks] eqn:E; [exists 0%nat; constructor|].
  set (j := nth _ _ k). assert (Hj : j ∈ enabled c).
  { rewrite E. apply list_elem_of_In. unfold j. apply nth_In. apply (Nat.mod_upper_bound _ (S (length ks))). discriminate. }
  destruct (enabled_move c j Hj) as [c' Ec]. rewrite Ec. change (default c (Some c')) with c'.
  destruct (IH (fun n => choose (S n)) c') as [n H]. exists (S n). eapply steps_first; eauto.
Qed.

(** With a measure as fuel the run ends where no thread can move. *)
Lemma run_ends (m : computation B -> nat) : (forall k c c', step k c = Some c' -> (m c' < m c)%nat) ->
  forall fuel choose c, (m c <= fuel)%nat -> enabled (run fuel choose c) = [].
Proof.
  intros Hm. induction fuel as [|fuel IH]; intros choose c HF; cbn [run].
  - destruct (enabled c) as [|k ks] eqn:E; [reflexivity|]. destruct (enabled_move c k) as [c' Ec]; [rewrite E; left|]. apply Hm in Ec. lia.
  - destruct (enabled c) as [|k ks] eqn:E; [exact E|]. set (j := nth _ _ k). assert (Hj : j ∈ enabled c).
    { rewrite E. apply list_elem_of_In. unfold j. apply nth_In. apply (Nat.mod_upper_bound _ (S (length ks))). discriminate. }
    destruct (enabled_move c j Hj) as [c' Ec]. rewrite Ec. change (default c (Some c')) with c'. apply IH. apply Hm in Ec. lia.
Qed.

End Runs.

(** ** The interface

    What the callers see.  [Transform] and [Execute] return the final output, with the
    value returned; a task that throws leaves its output as it was. *)
Class ParallelComputer : Type := {
  Transform : forall {A B : Type}, (A -> option B) -> list A -> list B -> list B * bool;
  Execute : forall {A B : Type}, (A -> option B) -> list A -> list B -> list B * bool;
  ExecuteUntil : forall {A : Type}, (A -> option bool) -> list A -> bool }.

(** An output of [f] on [l] over [out]. *)
Definition output_of {A B} (f : A -> option B) (l : list A) (out : list B) (r : list B * bool) : Prop :=
  length (fst r) = length l /\
  (forall i, fst r !! i = out !! i \/ exists a b, l !! i = Some a /\ f a = Some b /\ fst r !! i = Some b) /\
  snd r = forallb (fun a => match f a with Some _ => true | None => false end) l /\
  (snd r = true -> Forall2 (fun a b => f a = Some b) l (fst r)).

Class ParallelComputer_ok (P : ParallelComputer) : Prop := {
  Transform_ok : forall A B (f : A -> option B) l out, length out = length l -> output_of f l out (Transform f l out);
  Execute_ok : forall A B (f : A -> option B) l out, length out = length l -> output_of f l out (Execute f l out);
  ExecuteUntil_ok : forall A (f : A -> option bool) l,
    ExecuteUntil f l = forallb (fun a => match f a with Some b => b | None => false end) l }.

(** The computer that runs the loops on [n] threads, scheduled by [choose]. *)
Definition task {A B} (f : A -> option B) (l : list A) (i : nat) : option B := l !! i ≫= f.

Definition fuel_for (nTotal : nat) (n : Z) : nat := 5 * nTotal + 2 * nThreads nTotal n.

Definition returned {B} (c : computation B) : list B * bool := (output c, joined c).

Definition scheduled (n : Z) (choose : nat -> nat) : ParallelComputer := {|
  Transform A B f l out := returned (run (transform_step (length l) (task f l)) (fuel_for (length l) n) choose (start (length l) n out));
  Execute A B f l out := returned (run (execute_step (length l) (task f l)) (fuel_for (length l) n) choose (start (length l) n out));
  ExecuteUntil A f l := joined (run (until_step (length l) (task f l)) (fuel_for (length l) n) choose
    (start (length l) n (replicate (length l) false))) |}.
