(* ===== verification/ParallelOk.v ===== *)
(** * Every interleaving of the parallel computer gives the same result

    The three loops are instances of one set of rules ([move]); an invariant of the rules
    says where every index taken from the counter is, and a measure bounds the runs. *)

From Stdlib Require Import ZArith Lia Bool.
From stdpp Require Import base list tactics.
From S2P Require Import Prelude Parallel.

Section Computation.

Context {B : Type} (nTotal : nat) (f : nat -> option B) (ok : B -> option bool) (out0 : list B).

(** [ok b] is the answer of a task that can end the computation; [None] for a task whose
    result is stored. *)
Inductive move (k : nat) (c : computation B) : computation B -> Prop :=
| move_fetch : vFuture c !! k = Some Loop -> move k c (set_thread k (Fetched (nCurrent c)) (fetch_add c))
| move_leave i : vFuture c !! k = Some (Fetched i) -> (nTotal <= i)%nat \/ fContinue c = false -> move k c (set_thread k (Finished true) c)
| move_enter i : vFuture c !! k = Some (Fetched i) -> (i < nTotal)%nat -> move k c (set_thread k (Call i) c)
| move_throw i : vFuture c !! k = Some (Call i) -> f i = None -> move k c (set_thread k (Finished false) c)
| move_result i b : vFuture c !! k = Some (Call i) -> f i = Some b -> ok b = None -> move k c (set_thread k (Store i b) c)
| move_store i b : vFuture c !! k = Some (Store i b) -> move k c (set_thread k Loop (store i b c))
| move_direct i b : vFuture c !! k = Some (Call i) -> f i = Some b -> ok b = None -> move k c (set_thread k Loop (store i b c))
| move_ok i b : vFuture c !! k = Some (Call i) -> f i = Some b -> ok b = Some true -> move k c (set_thread k Loop c)
| move_bad i b : vFuture c !! k = Some (Call i) -> f i = Some b -> ok b = Some false -> move k c (set_thread k Stop c)
| move_stop : vFuture c !! k = Some Stop -> move k c (set_thread k (Finished false) (stop c)).

#[local] Instance thread_eq_dec : forall t : thread B, Decision (t = Finished true).
Proof. intros [| | | | |[]]; first [now left|now right]. Defined.

(** ** The measure *)

Definition cost (t : thread B) : nat :=
  match t with
  | Loop => 2
  | Fetched i => if Nat.ltb i nTotal then 5 else 1
  | Call _ => 4
  | Store _ _ => 3
  | Stop => 1
  | Finished _ => 0
  end.

Definition measure (c : computation B) : nat := 5 * (nTotal - nCurrent c) + list_sum (map cost (vFuture c)).

Lemma sum_insert k t t' (l : list (thread B)) : l !! k = Some t ->
  (list_sum (map cost (<[k := t']> l)) + cost t = list_sum (map cost l) + cost t')%nat.
Proof.
  revert k. induction l as [|x l IH]; intros [|k] H; cbn in *; try discriminate H; [injection H as ->; lia|].
  rewrite <- !Nat.add_assoc. f_equal. exact (IH k H).
Qed.

Lemma move_measure k c c' : move k c c' -> (measure c' < measure c)%nat.
Proof.
  destruct 1 as [H|i H HL|i H HL|i H E|i b H E O|i b H|i b H E O|i b H E O|i b H E O|H]; unfold measure; cbn [set_thread fetch_add store stop nCurrent vFuture];
    match goal with |- context [<[k := ?t']> _] => pose proof (sum_insert k _ t' _ H) as HS end; cbn [cost] in HS; try lia.
  - destruct (Nat.ltb_spec (nCurrent c) nTotal); lia.
  - destruct (Nat.ltb_spec i nTotal); lia.
  - destruct (Nat.ltb_spec i nTotal); lia.
Qed.

(** ** The invariant *)

Definition index (t : thread B) : option nat :=
  match t with Fetched i | Call i | Store i _ => Some i | _ => None end.

Definition in_flight (c : computation B) (i : nat) : Prop := exists k t, vFuture c !! k = Some t /\ index t = Some i.

Definition bad (i : nat) : Prop := f i = None \/ exists b, f i = Some b /\ ok b = Some false.

Definition done (c : computation B) (i : nat) : Prop := exists b, f i = Some b /\ (ok b = Some true \/ ok b = None /\ output c !! i = Some b).

Definition is_failure (t : thread B) : Prop := t = Stop \/ t = Finished false.

Definition failed (c : computation B) : Prop := exists k t, vFuture c !! k = Some t /\ is_failure t.

Definition thread_ok (c : computation B) (t : thread B) : Prop :=
  match t with
  | Loop => True
  | Fetched i => (i < nCurrent c)%nat
  | Call i => (i < nTotal)%nat
  | Store i b => (i < nTotal)%nat /\ f i = Some b /\ ok b = None
  | Stop | Finished false => exists i, (i < nTotal)%nat /\ bad i
  | Finished true => (nTotal <= nCurrent c)%nat \/ failed c
  end.

Record inv (c : computation B) : Prop := {
  inv_length : length (output c) = nTotal;
  inv_output : forall i, output c !! i = out0 !! i \/ exists b, output c !! i = Some b /\ f i = Some b;
  inv_threads : forall k t, vFuture c !! k = Some t -> thread_ok c t;
  inv_taken : forall i, (i < nCurrent c)%nat -> (i < nTotal)%nat -> in_flight c i \/ done c i \/ failed c;
  inv_continue : fContinue c = false -> failed c }.

Lemma lookup_set_thread k t (c : computation B) j t' : vFuture (set_thread k t c) !! j = Some t' -> (j = k /\ t' = t) \/ (j <> k /\ vFuture c !! j = Some t').
Proof.
  cbn. intros H. destruct (decide (j = k)) as [->|N]; [left|right; split; [exact N|now rewrite list_lookup_insert_ne in H]].
  assert (L : (k < length (vFuture c))%nat) by (apply lookup_lt_Some in H; now rewrite length_insert in H).
  rewrite list_lookup_insert_eq in H by exact L. now inversion H.
Qed.

Lemma set_thread_at k t t0 (c : computation B) : vFuture c !! k = Some t0 -> vFuture (set_thread k t c) !! k = Some t.
Proof. intros H. apply list_lookup_insert_eq. now apply lookup_lt_Some in H. Qed.

Lemma failed_set k t t0 c : vFuture c !! k = Some t0 -> (is_failure t0 -> is_failure t) -> failed c -> failed (set_thread k t c).
Proof.
  intros H HI (j & u & Hj & Hu). destruct (decide (j = k)) as [->|N].
  - exists k, t. split; [eapply set_thread_at; eauto|]. apply HI. congruence.
  - exists j, u. split; [|exact Hu]. cbn. now rewrite list_lookup_insert_ne by congruence.
Qed.

Lemma flight_set k t t0 c i : vFuture c !! k = Some t0 -> index t0 <> Some i -> in_flight c i -> in_flight (set_thread k t c) i.
Proof.
  intros H HI (j & u & Hj & Hu). exists j, u. split; [|exact Hu]. cbn. rewrite list_lookup_insert_ne; [exact Hj|]. intros ->. congruence.
Qed.

Lemma flight_new k t t0 c i : vFuture c !! k = Some t0 -> index t = Some i -> in_flight (set_thread k t c) i.
Proof. intros H HI. exists k, t. split; [eapply set_thread_at; eauto|exact HI]. Qed.

Lemma done_store i b c j : (i < length (output c))%nat -> f i = Some b -> ok b = None -> done c j \/ j = i -> done (store i b c) j.
Proof.
  intros L E O H. destruct (decide (j = i)) as [->|N].
  - exists b. split; [exact E|]. right. split; [exact O|]. cbn. now apply list_lookup_insert_eq.
  - destruct H as [(b' & Eb & H)|]; [|contradiction]. exists b'. split; [exact Eb|]. destruct H as [H|[H0 H]]; [now left|right]. split; [exact H0|]. cbn. now rewrite list_lookup_insert_ne by congruence.
Qed.

(** A thread changes and the shared data does not: what is left to show. *)
Lemma inv_set k t0 t c : inv c -> vFuture c !! k = Some t0 -> (is_failure t0 -> is_failure t) -> thread_ok c t ->
  (forall i, index t0 = Some i -> (i < nTotal)%nat -> index t = Some i \/ done c i \/ is_failure t \/ failed c) -> inv (set_thread k t c).
Proof.
  intros I H HF HT HI. split; [apply I|apply I| | |intros E; eapply failed_set; [exact H|exact HF|now apply I]].
  - intros j u Hj. apply lookup_set_thread in Hj as [[-> ->]|[N Hj]].
    + destruct t as [| | | | |[]]; cbn [thread_ok] in *; try exact HT. destruct HT as [HT|HT]; [now left|right]. eapply failed_set; eauto.
    + pose proof (inv_threads _ I _ _ Hj) as HU. destruct u as [| | | | |[]]; cbn [thread_ok] in *; try exact HU.
      destruct HU as [HU|HU]; [now left|right]. eapply failed_set; eauto.
  - intros i Hi Hn. destruct (decide (index t0 = Some i)) as [E|N].
    + destruct (HI i E Hn) as [E'|[E'|[E'|E']]]; [left; eapply flight_new; eauto|auto| |right; right; eapply failed_set; eauto].
      right; right. exists k, t. split; [eapply set_thread_at; eauto|exact E'].
    + destruct (inv_taken _ I i Hi Hn) as [HFl|[HD|HFl]]; [left; eapply flight_set; eauto|auto|right; right; eapply failed_set; eauto].
Qed.

Lemma inv_store k t0 i b c : inv c -> vFuture c !! k = Some t0 -> (i < nTotal)%nat -> f i = Some b -> ok b = None -> inv (store i b c).
Proof.
  intros I H Hi E O. split.
  - cbn. rewrite length_insert. apply I.
  - intros j. cbn. destruct (decide (j = i)) as [->|N].
    + right. exists b. split; [|exact E]. apply list_lookup_insert_eq. rewrite (inv_length _ I). exact Hi.
    + rewrite list_lookup_insert_ne by congruence. apply I.
  - intros j u Hj. exact (inv_threads _ I _ _ Hj).
  - intros j Hj Hn. destruct (inv_taken _ I j Hj Hn) as [HFl|[HD|HFl]]; [now left| |now right; right].
    right; left. apply done_store; [rewrite (inv_length _ I); exact Hi|exact E|exact O|now left].
  - apply I.
Qed.

Lemma not_failure_loop : ~ is_failure (@Loop B).
Proof. now intros [|]. Qed.

Lemma inv_fetch k c : inv c -> vFuture c !! k = Some Loop -> inv (set_thread k (Fetched (nCurrent c)) (fetch_add c)).
Proof.
  intros I H. split; [apply I|apply I| | |].
  - intros j u Hj. apply lookup_set_thread in Hj as [[-> ->]|[N Hj]]; [cbn; lia|].
    pose proof (inv_threads _ I _ _ Hj) as HU. destruct u as [| | | | |[]]; cbn [thread_ok fetch_add set_thread nCurrent] in *; auto.
    destruct HU as [HU|HU]; [left; lia|right]. eapply (failed_set k _ Loop (fetch_add c)); [exact H|now intros [|]|exact HU].
  - intros i Hi Hn. cbn in Hi. destruct (decide (i = nCurrent c)) as [->|N]; [left; eapply (flight_new _ _ _ (fetch_add c)); [exact H|reflexivity]|].
    destruct (inv_taken _ I i ltac:(lia) Hn) as [HFl|[HD|HFl]]; [left|now right; left|right; right].
    + eapply (flight_set k _ Loop (fetch_add c)); [exact H|discriminate|exact HFl].
    + eapply (failed_set k _ Loop (fetch_add c)); [exact H|now intros [|]|exact HFl].
  - intros E. eapply (failed_set k _ Loop (fetch_add c)); [exact H|now intros [|]|now apply I].
Qed.

Lemma inv_stop k c : inv c -> vFuture c !! k = Some Stop -> inv (stop c).
Proof.
  intros I H. split; [apply I|apply I| | |intros _; exists k, Stop; split; [exact H|now left]].
  - intros j u Hj. exact (inv_threads _ I _ _ Hj).
  - intros i Hi Hn. exact (inv_taken _ I i Hi Hn).
Qed.

Lemma move_inv k c c' : inv c -> move k c c' -> inv c'.
Proof.
  intros I. destruct 1 as [H|i H HL|i H HL|i H E|i b H E O|i b H|i b H E O|i b H E O|i b H E O|H]; [now apply inv_fetch|..];
    pose proof (inv_threads _ I _ _ H) as HT; cbn [thread_ok] in HT.
  - assert (D : (nTotal <= i)%nat \/ failed c) by (destruct HL; [now left|right; now apply I]).
    eapply inv_set; [exact I|exact H|now intros [|]|destruct D; [left; lia|now right]|].
    intros j [= <-] Hn. destruct D; [lia|auto].
  - eapply inv_set; [exact I|exact H|now intros [|]|exact HL|intros j [= <-] _; now left].
  - eapply inv_set; [exact I|exact H|now intros [|]|exists i; split; [exact HT|now left]|intros j _ _; right; right; left; now right].
  - eapply inv_set; [exact I|exact H|now intros [|]|repeat split; assumption|intros j [= <-] _; now left].
  - destruct HT as (Hn & E & O). eapply inv_set; [eapply inv_store; eauto|exact H|now intros [|]|exact Logic.I|].
    intros j [= <-] _. right; left. apply done_store; [rewrite (inv_length _ I); exact Hn|exact E|exact O|now right].
  - eapply inv_set; [eapply inv_store; eauto|exact H|now intros [|]|exact Logic.I|].
    intros j [= <-] _. right; left. apply done_store; [rewrite (inv_length _ I); exact HT|exact E|exact O|now right].
  - eapply inv_set; [exact I|exact H|now intros [|]|exact Logic.I|intros j [= <-] _; right; left; exists b; auto].
  - eapply inv_set; [exact I|exact H|now intros [|]|exists i; split; [exact HT|right; eauto]|intros j _ _; right; right; left; now left].
  - eapply inv_set; [eapply inv_stop; eauto|exact H|now right|exact HT|discriminate].
Qed.

(** ** The end of a computation *)

Lemma lookup_In (l : list (thread B)) k t : l !! k = Some t -> In t l.
Proof. intros H. apply list_elem_of_In. exact (list_elem_of_lookup_2 _ _ _ H). Qed.

Lemma inv_start n : length out0 = nTotal -> inv (start nTotal n out0).
Proof.
  intros HL. split; [exact HL|now left| |cbn; lia|discriminate].
  intros k t H. cbn in H. apply lookup_replicate in H as [-> _]. exact I.
Qed.

Lemma steps_threads step n (c c' : computation B) : (forall k c c', step k c = Some c' -> move k c c') -> steps step n c c' ->
  length (vFuture c') = length (vFuture c).
Proof.
  intros HS. induction 1 as [|n k c c' c'' H IH E]; [reflexivity|]. rewrite <- IH. apply HS in E. destruct E; apply length_insert.
Qed.

Lemma length_start (n : Z) : length (vFuture (start nTotal n out0)) = nThreads nTotal n.
Proof. cbn. apply length_replicate. Qed.

(** The last tests of the threads saw the end of the counter or a failure. *)
Lemma joined_true c : inv c -> finished c -> joined c = true -> vFuture c <> [] \/ nTotal = 0%nat -> forall i, (i < nTotal)%nat -> done c i.
Proof.
  intros I HF HJ HN i Hi. pose proof (proj1 (Forall_forall _ _) HF) as HF'. clear HF. assert (NF : ~ failed c).
  { intros (k & t & Hk & Ht). unfold joined in HJ. rewrite forallb_forall in HJ.
    specialize (HJ t (lookup_In _ _ _ Hk)). destruct Ht as [-> | ->]; discriminate HJ. }
  destruct HN as [HN|HN]; [|lia]. assert (H0 : exists t, vFuture c !! 0%nat = Some t) by (destruct (vFuture c) as [|t l]; [contradiction|now exists t]).
  destruct H0 as [t H0].
  assert (HC : (nTotal <= nCurrent c)%nat).
  { pose proof (inv_threads _ I _ _ H0) as HT. destruct (HF' t (lookup_In _ _ _ H0)) as [r ->].
    destruct r; cbn in HT; [destruct HT; [assumption|contradiction]|]. exfalso. apply NF. exists 0%nat, (Finished false). split; [exact H0|now right]. }
  destruct (inv_taken _ I i ltac:(lia) Hi) as [(k & u & Hk & Hu)|[HD|HD]]; [|exact HD|contradiction].
  destruct (HF' u (lookup_In _ _ _ Hk)) as [r ->]. discriminate Hu.
Qed.

Lemma joined_false c : inv c -> finished c -> joined c = false -> exists i, (i < nTotal)%nat /\ bad i.
Proof.
  intros I HF HJ. apply not_true_iff_false in HJ. destruct (decide (Forall (fun t => t = Finished true) (vFuture c))) as [H|H].
  - exfalso. apply HJ. unfold joined. apply forallb_forall. intros t Ht. rewrite Forall_forall in H. now rewrite (H t Ht).
  - apply not_Forall_Exists in H; [|apply _]. apply Exists_exists in H as (t & Ht & N). destruct (proj1 (Forall_forall _ _) HF t Ht) as [[] ->]; [contradiction N; reflexivity|].
    apply list_elem_of_In, list_elem_of_lookup_1 in Ht as [k Hk]. exact (inv_threads _ I _ _ Hk).
Qed.

End Computation.

(** ** The three loops *)

Lemma transform_moves {B} nTotal (f : nat -> option B) k c c' : transform_step nTotal f k c = Some c' -> move nTotal f (fun _ => None) k c c'.
Proof.
  unfold transform_step. destruct (vFuture c !! k) as [[|i|i|i b| |r]|] eqn:E; intros [= <-].
  - now apply move_fetch.
  - destruct (Nat.ltb_spec i nTotal); [now apply move_enter|apply move_leave with i; auto].
  - destruct (f i) eqn:Ef; [now apply move_result|now apply move_throw with i].
  - now apply move_store.
Qed.

Lemma execute_moves {B} nTotal (f : nat -> option B) k c c' : execute_step nTotal f k c = Some c' -> move nTotal f (fun _ => None) k c c'.
Proof.
  unfold execute_step. destruct (vFuture c !! k) as [[|i|i|i b| |r]|] eqn:E; intros [= <-].
  - now apply move_fetch.
  - destruct (Nat.ltb_spec i nTotal); [now apply move_enter|apply move_leave with i; auto].
  - destruct (f i) eqn:Ef; [now apply move_direct|now apply move_throw with i].
Qed.

Lemma until_moves nTotal (f : nat -> option bool) k c c' : until_step nTotal f k c = Some c' -> move nTotal f Some k c c'.
Proof.
  unfold until_step. destruct (vFuture c !! k) as [[|i|i|i b| |r]|] eqn:E; intros [= <-].
  - now apply move_fetch.
  - destruct (Nat.ltb_spec i nTotal); [|apply move_leave with i; auto]. destruct (fContinue c) eqn:Ec; [now apply move_enter|apply move_leave with i; auto].
  - destruct (f i) as [[]|] eqn:Ef; [now apply move_ok with i true|now apply move_bad with i false|now apply move_throw with i].
  - now apply move_stop.
Qed.

(** The states that the threads of each loop go through. *)
Definition transform_shape {B} (t : thread B) : Prop := match t with Stop => False | _ => True end.
Definition execute_shape {B} (t : thread B) : Prop := match t with Stop | Store _ _ => False | _ => True end.
Definition until_shape {B} (t : thread B) : Prop := match t with Store _ _ => False | _ => True end.

Ltac shape_step := let H := fresh "H" in let E := fresh "E" in intros H; cbv beta delta [transform_step execute_step until_step];
  match goal with |- context [vFuture ?c !! ?k] => destruct (vFuture c !! k) as [[|?|?|? ?| |?]|] eqn:E end; intros [= <-];
  repeat case_match; apply Forall_insert; try exact H; exact I.

Lemma transform_shape_step {B} nTotal (f : nat -> option B) k c c' : Forall transform_shape (vFuture c) -> transform_step nTotal f k c = Some c' -> Forall transform_shape (vFuture c').
Proof. shape_step. Qed.

Lemma execute_shape_step {B} nTotal (f : nat -> option B) k c c' : Forall execute_shape (vFuture c) -> execute_step nTotal f k c = Some c' -> Forall execute_shape (vFuture c').
Proof. shape_step. Qed.

Lemma until_shape_step nTotal (f : nat -> option bool) k c c' : Forall until_shape (vFuture c) -> until_step nTotal f k c = Some c' -> Forall until_shape (vFuture c').
Proof. shape_step. Qed.

(** No thread waits for another: where none can move, all have finished. *)
Lemma enabled_nil {B} (step : nat -> computation B -> option (computation B)) c k t : enabled step c = [] -> vFuture c !! k = Some t -> step k c = None.
Proof.
  intros HE Hk. destruct (step k c) eqn:E; [|reflexivity]. exfalso. assert (k ∈ enabled step c) as HI; [|rewrite HE in HI; inversion HI].
  apply list_elem_of_filter. split; [rewrite E; eauto|]. apply list_elem_of_In, in_seq. apply lookup_lt_Some in Hk. lia.
Qed.

Ltac live := intros HS HE; apply Forall_forall; intros t Ht; apply list_elem_of_In, list_elem_of_lookup_1 in Ht as [k Hk];
  pose proof (enabled_nil _ _ _ _ HE Hk) as HN; pose proof (Forall_lookup_1 _ _ _ _ HS Hk) as HT;
  cbv beta delta [transform_step execute_step until_step] in HN; rewrite Hk in HN; destruct t; try discriminate HN; try contradiction HT; eauto.

Lemma transform_live {B} nTotal (f : nat -> option B) c : Forall transform_shape (vFuture c) -> enabled (transform_step nTotal f) c = [] -> finished c.
Proof. live. Qed.

Lemma execute_live {B} nTotal (f : nat -> option B) c : Forall execute_shape (vFuture c) -> enabled (execute_step nTotal f) c = [] -> finished c.
Proof. live. Qed.

Lemma until_live nTotal (f : nat -> option bool) c : Forall until_shape (vFuture c) -> enabled (until_step nTotal f) c = [] -> finished c.
Proof. live. Qed.

(** ** Every run *)

Section Result.

Context {B : Type} (nTotal : nat) (f : nat -> option B) (ok : B -> option bool).
Context (step : nat -> computation B -> option (computation B)) (shape : thread B -> Prop).

Class loop_ok : Prop := {
  loop_moves : forall k c c', step k c = Some c' -> move nTotal f ok k c c';
  loop_shape : forall k c c', Forall shape (vFuture c) -> step k c = Some c' -> Forall shape (vFuture c');
  loop_init : shape Loop;
  loop_live : forall c, Forall shape (vFuture c) -> enabled step c = [] -> finished c }.

Context {L : loop_ok}.

Lemma loop_measure k c c' : step k c = Some c' -> (measure nTotal c' < measure nTotal c)%nat.
Proof. intros H. apply (move_measure nTotal f ok k), loop_moves, H. Qed.

(** The number of steps is bounded, whatever the choices. *)
Lemma measure_start (n : Z) (out : list B) : measure nTotal (start nTotal n out) = (5 * nTotal + 2 * nThreads nTotal n)%nat.
Proof.
  unfold measure. cbn [start nCurrent vFuture]. rewrite Nat.sub_0_r. f_equal. generalize (nThreads nTotal n). intros m.
  induction m as [|m IH]; [reflexivity|]. cbn [replicate map list_sum]. change (2 + list_sum (map (cost nTotal) (replicate m (@Loop B))) = 2 * S m)%nat. lia.
Qed.

Lemma loop_bounded n m out c : steps step n (start nTotal m out) c -> (n <= 5 * nTotal + 2 * nThreads nTotal m)%nat.
Proof. intros H. rewrite <- (measure_start m out). pose proof (steps_bounded step (measure nTotal) _ _ _ loop_measure H). lia. Qed.

Lemma loop_inv out n m c : length out = nTotal -> steps step n (start nTotal m out) c -> inv nTotal f ok out c /\ Forall shape (vFuture c).
Proof.
  intros HL H. split.
  - apply (steps_inv step (inv nTotal f ok out) _ _ _ (inv_start nTotal f ok out m HL)) in H; [exact H|]. intros k a b I E. eapply move_inv; [exact I|]. exact (loop_moves k a b E).
  - apply (steps_inv step (fun c => Forall shape (vFuture c)) _ _ _) in H; [exact H| |intros; eapply loop_shape; eauto]. cbn. apply Forall_replicate, loop_init.
Qed.

(** At the end of a run, for at least one thread. *)
Lemma loop_result out n m c : length out = nTotal -> steps step n (start nTotal m out) c -> enabled step c = [] -> (0 < m)%Z ->
  if joined c then forall i, (i < nTotal)%nat -> done f ok c i else exists i, (i < nTotal)%nat /\ bad f ok i.
Proof.
  intros HL HS HE Hm. destruct (loop_inv out n m c HL HS) as [I Sh]. pose proof (loop_live c Sh HE) as HF.
  destruct (joined c) eqn:HJ; [|eapply joined_false; eauto].
  apply (joined_true nTotal f ok out c I HF HJ). destruct (Nat.eq_dec nTotal 0) as [EN|EN]; [now right|left]. intros E.
  pose proof (steps_threads nTotal f ok step n _ _ loop_moves HS) as HT. rewrite length_start, E in HT. unfold nThreads in HT. cbn [length] in HT. lia.
Qed.

(** Without threads nothing runs. *)
Lemma loop_no_threads out n m c : (m = 0)%Z -> steps step n (start nTotal m out) c -> c = start nTotal m out /\ joined c = true.
Proof.
  intros -> H. assert (E : vFuture (start nTotal 0 out) = []) by (cbn; unfold nThreads; now rewrite Nat.min_0_r).
  destruct H as [c|n k c c' c'' H HS]; [split; [reflexivity|]; unfold joined; now rewrite E|]. exfalso.
  apply loop_moves in HS. pose proof (steps_threads _ _ _ _ _ _ _ loop_moves H) as HT. rewrite E in HT. apply nil_length_inv in HT.
  destruct HS as [A|? A|? A|? A|? ? A|? ? A|? ? A|? ? A|? ? A|A]; rewrite HT in A; discriminate A.
Qed.

End Result.

#[export] Instance transform_loop {B} nTotal (f : nat -> option B) : loop_ok nTotal f (fun _ => None) (transform_step nTotal f) transform_shape.
Proof. split; [apply transform_moves|apply transform_shape_step|exact I|apply transform_live]. Qed.

#[export] Instance execute_loop {B} nTotal (f : nat -> option B) : loop_ok nTotal f (fun _ => None) (execute_step nTotal f) execute_shape.
Proof. split; [apply execute_moves|apply execute_shape_step|exact I|apply execute_live]. Qed.

#[export] Instance until_loop nTotal (f : nat -> option bool) : loop_ok nTotal f Some (until_step nTotal f) until_shape.
Proof. split; [apply until_moves|apply until_shape_step|exact I|apply until_live]. Qed.

(** ** The computer implements its interface under every schedule *)

Lemma run_result {B} nTotal (f : nat -> option B) ok step shape (L : loop_ok nTotal f ok step shape) n choose out :
  length out = nTotal -> (0 < n)%Z -> let c := run step (fuel_for nTotal n) choose (start nTotal n out) in
  inv nTotal f ok out c /\ if joined c then forall i, (i < nTotal)%nat -> done f ok c i else exists i, (i < nTotal)%nat /\ bad f ok i.
Proof.
  intros HL Hn c. destruct (run_steps step (fuel_for nTotal n) choose (start nTotal n out)) as [k HS]. fold c in HS.
  split; [apply (loop_inv nTotal f ok step shape out k n c HL HS)|]. apply (loop_result nTotal f ok step shape out k n c HL HS); [|exact Hn].
  apply (run_ends step (measure nTotal) (loop_measure nTotal f ok step shape)). now rewrite measure_start.
Qed.

Lemma task_bad {A B} (f : A -> option B) l i : (i < length l)%nat -> task f l i = None -> exists a, In a l /\ f a = None.
Proof.
  intros Hi E. destruct (lookup_lt_is_Some_2 l i Hi) as [a Ha]. exists a. split; [apply list_elem_of_In; exact (list_elem_of_lookup_2 _ _ _ Ha)|].
  unfold task in E. now rewrite Ha in E.
Qed.

Lemma task_good {A B} (f : A -> option B) l i b : task f l i = Some b -> exists a, l !! i = Some a /\ f a = Some b.
Proof. unfold task. destruct (l !! i) as [a|]; [|discriminate]. intros E. now exists a. Qed.

Lemma forallb_false {A} (p : A -> bool) l a : In a l -> p a = false -> forallb p l = false.
Proof. intros HI E. apply not_true_iff_false. intros H. rewrite forallb_forall in H. rewrite (H a HI) in E. discriminate E. Qed.

Lemma stored_output {A B} (f : A -> option B) l out c : length out = length l -> inv (length l) (task f l) (fun _ => None) out c ->
  (if joined c then forall i, (i < length l)%nat -> done (task f l) (fun _ => None) c i else exists i, (i < length l)%nat /\ bad (task f l) (fun _ => None) i) ->
  output_of f l out (returned c).
Proof.
  intros HL I HJ. assert (HT : joined c = true -> Forall2 (fun a b => f a = Some b) l (output c)).
  { intros E. rewrite E in HJ. apply Forall2_same_length_lookup. split; [symmetry; apply I|]. intros i a b Ha Hb.
    destruct (HJ i (lookup_lt_Some _ _ _ Ha)) as (b' & Eb & [?|[_ Ho]]); [discriminate|]. unfold task in Eb. rewrite Ha in Eb. cbn in Eb. congruence. }
  split; [apply I|split; [|split; [|exact HT]]]; cbn [returned fst snd].
  - intros i. destruct (inv_output _ _ _ _ _ I i) as [E|(b & Eb & Ef)]; [now left|right]. destruct (task_good _ _ _ _ Ef) as (a & Ha & Ea). now exists a, b.
  - destruct (joined c) eqn:E.
    + symmetry. apply forallb_forall. intros a Ha. apply list_elem_of_In, list_elem_of_lookup_1 in Ha as [i Hi].
      destruct (Forall2_lookup_l _ _ _ _ _ (HT eq_refl) Hi) as (b & _ & ->). reflexivity.
    + destruct HJ as (i & Hi & [Hb|(b & _ & ?)]); [|discriminate]. destruct (task_bad f l i Hi Hb) as (a & Ha & Ea). symmetry. apply (forallb_false _ l a Ha). now rewrite Ea.
Qed.

Lemma stored_loop {A B} (f : A -> option B) l step shape (L : loop_ok (length l) (task f l) (fun _ => None) step shape) out n k c :
  (0 < n)%Z -> length out = length l -> steps step k (start (length l) n out) c ->
  (k <= 5 * length l + 2 * nThreads (length l) n)%nat /\ (enabled step c = [] -> output_of f l out (returned c)).
Proof.
  intros Hn HL HS. split; [exact (loop_bounded _ _ _ _ _ _ _ _ _ HS)|]. intros HE. apply stored_output; [exact HL| |].
  - exact (proj1 (loop_inv _ _ _ _ _ _ _ _ _ HL HS)).
  - exact (loop_result _ _ _ _ _ _ _ _ _ HL HS HE Hn).
Qed.

(** The answer of the tasks of [ExecuteUntil]. *)
Lemma until_answer {A} (f : A -> option bool) l (c : computation bool) :
  (if joined c then forall i, (i < length l)%nat -> done (task f l) Some c i else exists i, (i < length l)%nat /\ bad (task f l) Some i) ->
  forallb (fun a => match f a with Some b => b | None => false end) l = joined c.
Proof.
  destruct (joined c); intros HJ.
  - apply forallb_forall. intros a Ha. apply list_elem_of_In, list_elem_of_lookup_1 in Ha as [i Hi].
    destruct (HJ i (lookup_lt_Some _ _ _ Hi)) as (b & Eb & [[= ->]|[[=] _]]). unfold task in Eb. rewrite Hi in Eb. cbn in Eb. now rewrite Eb.
  - destruct HJ as (i & Hi & [HB|(b & HB & [= ->])]).
    + destruct (task_bad f l i Hi HB) as (a & Ha & Ea). apply (forallb_false _ l a Ha). now rewrite Ea.
    + destruct (task_good _ _ _ _ HB) as (a & Ha & Ea). apply (forallb_false _ l a); [|now rewrite Ea].
      apply list_elem_of_In. exact (list_elem_of_lookup_2 _ _ _ Ha).
Qed.

#[export] Instance scheduled_ok n choose : (0 < n)%Z -> ParallelComputer_ok (scheduled n choose).
Proof.
  intros Hn. split.
  - intros A B f l out HL. destruct (run_result _ _ _ _ _ (transform_loop (length l) (task f l)) n choose out HL Hn) as [I HJ]. exact (stored_output f l out _ HL I HJ).
  - intros A B f l out HL. destruct (run_result _ _ _ _ _ (execute_loop (length l) (task f l)) n choose out HL Hn) as [I HJ]. exact (stored_output f l out _ HL I HJ).
  - intros A f l. cbn [scheduled ExecuteUntil]. destruct (run_result _ _ _ _ _ (until_loop (length l) (task f l)) n choose (replicate (length l) false) (length_replicate _ _) Hn) as [_ HJ].
    symmetry. now apply until_answer.
Qed.
