(* ===== verification/MpBox.v ===== *)
(** * Boxes of the secret sharing: mpvss/mpbox.h and mpbox.cpp

    An opened box holds the coefficients of a polynomial and a private key; the sealed box
    made from it holds their images on the curve.  A [uint256] is its value; the 32 bytes
    that the scalars and the points read are its words. *)

From Stdlib Require Import ZArith List Lia Bool.
From S2P Require Import Prelude Radix Base25519 Sc25519 ScTable.
Import ListNotations.
Local Open Scope Z_scope.

(** s.begin(), and uint256(f.Data()) *)
Definition data_of (z : Z) : list Z := rdig (2 ^ 64) 4 z.
Definition uint256_of_data (v : list Z) : Z := rval (2 ^ 64) v.

(** ** The curve

    [CEdwards25519] as its callers use it; [Unpack] returns the new value of the object
    and whether the bytes are a point. *)
Class Edwards25519 : Type := {
  point : Type;
  point_new : point;
  Unpack : point -> Z -> point * bool;
  Pack : point -> Z;
  ScalarMult : point -> Z -> point;
  Generate : Z -> point;
  point_add : point -> point -> point;
  point_eq : point -> point -> bool }.

(** crypto_scalarmult_ed25519_base_noclamp of libsodium: the 32 bytes it writes. *)
Class Sodium : Type := { crypto_scalarmult_ed25519_base_noclamp : Z -> Z }.

Record CMPOpenedBox : Type := mk_opened { vCoeff : list Z; nPrivKey : Z }.

Record CMPSealedBox : Type := mk_sealed {
  vEncryptedCoeff : list Z; vEncryptedShare : list Z; nPubKey : Z; nR : Z; nS : Z }.

Definition sealed_new (vEncryptedCoeffIn : list Z) (nPubKeyIn nRIn nSIn : Z) : CMPSealedBox :=
  mk_sealed vEncryptedCoeffIn [] nPubKeyIn nRIn nSIn.

Section Boxes.

Context {E : Edwards25519} {N : Sodium}.
Variable int128 : bool.

Definition MPEccPubkey (s : Z) : Z := crypto_scalarmult_ed25519_base_noclamp s.

Definition MPEccPubkeyValidate (pubkey : Z) : bool :=
  negb (pubkey =? 0) && (let (P, fOk) := Unpack point_new pubkey in fOk && negb (point_eq P point_new)).

Definition MPEccSign (key r hash : Z) : Z :=
  let scalar z := sc_of_bytes int128 (data_of z) in
  uint256_of_data (sc_add int128 (scalar key) (sc_mul int128 (scalar r) (scalar hash))).

Definition MPEccVerify (pubkey rG signature hash : Z) : bool :=
  let (P, fP) := Unpack point_new pubkey in
  let (R, fR) := Unpack point_new rG in
  if fP && fR then point_eq (Generate signature) (point_add P (ScalarMult R hash)) else false.

Definition MPEccSharedKey (key other : Z) : Z :=
  let (P, fOk) := Unpack point_new other in if fOk then Pack (ScalarMult P key) else 0.

(** ** CMPOpenedBox *)

Definition opened_IsNull (b : CMPOpenedBox) : bool :=
  match vCoeff b with [] => true | _ => nPrivKey b =? 0 end.

Definition opened_Validate (b : CMPOpenedBox) : bool :=
  if forallb (fun c => negb (c =? 0)) (vCoeff b) then match vCoeff b with [] => false | _ => true end else false.

Definition opened_PubKey (b : CMPOpenedBox) : Z := MPEccPubkey (nPrivKey b).

Definition SharedKey (b : CMPOpenedBox) (pubkey : Z) : Z := MPEccSharedKey (nPrivKey b) pubkey.

(** naturalPowTable[nX - 1][i - 1] *)
Definition power_at (nX i : Z) : result (list Z) :=
  let row := (nX - 1) mod 2 ^ 32 in
  if row <? 51 then
    if i - 1 <? 26 then Ok (nth (Z.to_nat (i - 1)) (nth (Z.to_nat row) naturalPowTable []) []) else Undef
  else Undef.

(** [vCoeff] starts at position [i]; [n] rounds are left. *)
Fixpoint polynomial_loop (n : nat) (i : Z) (nX : Z) (coeffs : list Z) (f : list Z) : result (list Z) :=
  match n with
  | O => Ok f
  | S n' =>
      match coeffs with
      | [] => Undef
      | c :: coeffs' =>
          let! power := power_at nX i in
          polynomial_loop n' (i + 1) nX coeffs' (sc_add int128 f (sc_mul int128 (sc_of_bytes int128 (data_of c)) power))
      end
  end.

Definition Polynomial (b : CMPOpenedBox) (nThresh nX : Z) : result Z :=
  if opened_IsNull b || (Z.of_nat (length (vCoeff b)) <? nThresh) then Throw runtime_error
  else match vCoeff b with
       | [] => Undef
       | c :: coeffs =>
           let! f := polynomial_loop (Z.to_nat (nThresh - 1)) 1 nX coeffs (sc_of_bytes int128 (data_of c)) in
           Ok (uint256_of_data f)
       end.

Definition opened_Signature (b : CMPOpenedBox) (hash r : Z) : Z * Z := (MPEccPubkey r, MPEccSign (nPrivKey b) r hash).

Definition opened_VerifySignature (b : CMPOpenedBox) (hash r s : Z) : bool := MPEccVerify (opened_PubKey b) r s hash.

Definition MakeSealedBox (b : CMPOpenedBox) (sealed : CMPSealedBox) (nIdent r : Z) : CMPSealedBox * bool :=
  if negb (opened_Validate b) || (r =? 0) then (sealed, false)
  else let (sR, sS) := opened_Signature b nIdent r in
       (mk_sealed (map MPEccPubkey (vCoeff b)) (vEncryptedShare sealed) (opened_PubKey b) sR sS, true).

(** ** CMPSealedBox *)

Definition sealed_IsNull (b : CMPSealedBox) : bool :=
  match vEncryptedCoeff b with [] => true | _ => nPubKey b =? 0 end.

Definition sealed_PubKey (b : CMPSealedBox) : result Z := if sealed_IsNull b then Throw runtime_error else Ok (nPubKey b).

Definition VerifySignature (b : CMPSealedBox) (nIdent : Z) : bool :=
  if sealed_IsNull b then false
  else if forallb MPEccPubkeyValidate (vEncryptedCoeff b) then MPEccVerify (nPubKey b) (nR b) (nS b) nIdent else false.

Definition VerifySignature_hash (b : CMPSealedBox) (hash nSignR nSignS : Z) : bool :=
  if sealed_IsNull b then false else MPEccVerify (nPubKey b) nSignR nSignS hash.

Definition VerifyPolynomial (b : CMPSealedBox) (nX v : Z) : bool :=
  if Z.of_nat (length (vEncryptedShare b)) <=? nX then false
  else nth (Z.to_nat nX) (vEncryptedShare b) 0 =? MPEccPubkey v.

Fixpoint unpack_coeffs (n : nat) (coeffs : list Z) : result (list point) :=
  match n with
  | O => Ok []
  | S n' =>
      match coeffs with
      | [] => Undef
      | c :: coeffs' => let! vP := unpack_coeffs n' coeffs' in Ok (fst (Unpack point_new c) :: vP)
      end
  end.

(** [vP] starts at position [i]. *)
Fixpoint share_point (i nX : Z) (vP : list point) (P : point) : result point :=
  match vP with
  | [] => Ok P
  | Q :: vP' => let! power := power_at nX i in share_point (i + 1) nX vP' (point_add P (ScalarMult Q (uint256_of_data power)))
  end.

Fixpoint share_points (n : nat) (nX : Z) (vP : list point) (shares : list Z) : result (list Z) :=
  match n with
  | O => Ok shares
  | S n' =>
      match vP with
      | [] => Undef
      | P0 :: vP' => let! Q := share_point 1 nX vP' P0 in share_points n' (nX + 1) vP (upd shares (Z.to_nat nX) (Pack Q))
      end
  end.

(** vector::resize *)
Definition resize {A} (n : nat) (a : A) (l : list A) : list A := firstn n l ++ repeat a (n - length l).

Definition PrecalcPolynomial (b : CMPSealedBox) (nThresh nLastIndex : Z) : result CMPSealedBox :=
  let! vP := unpack_coeffs (Z.to_nat nThresh) (vEncryptedCoeff b) in
  let! shares := share_points (Z.to_nat (nLastIndex - 1)) 1 vP (resize (Z.to_nat nLastIndex) 0 (vEncryptedShare b)) in
  Ok (mk_sealed (vEncryptedCoeff b) shares (nPubKey b) (nR b) (nS b)).

End Boxes.
