(* ===== verification/MpBoxOk.v ===== *)
(** * A box evaluates its polynomial

    [Polynomial] is the value of the polynomial with the first [nThresh] coefficients modulo
    the order of the curve, for every argument and threshold within the table of powers. *)

From Stdlib Require Import ZArith List Lia Bool.
From S2P Require Import Prelude Radix Base25519 Base25519Ok Sc25519 Sc25519Ok ScTable Interp Poly InterpOk MpBox.
Import ListNotations.
Local Open Scope Z_scope.

Lemma data_of_u256 z : u256 (data_of z).
Proof. split; [reflexivity|]. apply rdigs_rdig. lia. Qed.

Lemma num_data_of z : num (data_of z) = z mod 2 ^ 256.
Proof. unfold num, data_of. rewrite rval_rdig by lia. f_equal. Qed.

Lemma data_of_bounded z : 0 <= z < 2 ^ 256 -> num (data_of z) = z.
Proof. intros H. rewrite num_data_of. now apply Z.mod_small. Qed.

(** Row [x - 1] of the table holds the powers of [x]. *)
Lemma power_table x i : 1 <= x <= 51 -> 1 <= i <= 26 -> exists v, power_at x i = Ok v /\ rep v (x ^ i).
Proof.
  assert (C : forallb (fun r => forallb (fun k => let v := nth k (nth r naturalPowTable []) [] in
    scalar_check v && (num v =? (Z.of_nat (S r) ^ Z.of_nat (S k)) mod ell)) (seq 0 26)) (seq 0 51) = true) by (vm_compute; reflexivity).
  intros Hx Hi. unfold power_at. rewrite Z.mod_small by lia. rewrite !(proj2 (Z.ltb_lt _ _)) by lia. eexists. split; [reflexivity|].
  rewrite forallb_forall in C. specialize (C (Z.to_nat (x - 1)) ltac:(apply in_seq; lia)).
  rewrite forallb_forall in C. specialize (C (Z.to_nat (i - 1)) ltac:(apply in_seq; lia)). cbv zeta in C.
  apply andb_true_iff in C as [C1 C2]. apply Z.eqb_eq in C2. split; [now apply canonical_weak, scalar_check_ok|].
  rewrite C2, cong_mod. replace (Z.of_nat (S (Z.to_nat (x - 1)))) with x by lia. now replace (Z.of_nat (S (Z.to_nat (i - 1)))) with i by lia.
Qed.

Definition uint256_ok (z : Z) : Prop := 0 <= z < 2 ^ 256.

Lemma rep_coeff d c : uint256_ok c -> rep (sc_of_bytes d (data_of c)) c.
Proof. intros H. pose proof (rep_bytes d (data_of c) (data_of_u256 c)) as R. now rewrite data_of_bounded in R. Qed.

Lemma polynomial_loop_ok d x n : 1 <= x <= 51 -> forall i coeffs f z, 1 <= i -> i + Z.of_nat n <= 27 -> (n <= length coeffs)%nat ->
  Forall uint256_ok coeffs -> canonical f -> rep f z ->
  returns (polynomial_loop d n i x coeffs f) (fun f' => canonical f' /\ rep f' (z + x ^ i * peval (firstn n coeffs) x)).
Proof.
  intros Hx. induction n as [|n IH]; intros i coeffs f z Hi Hn HL HC Cf Rf; cbn [polynomial_loop returns firstn peval].
  { split; [exact Cf|]. eapply rep_cong; [exact Rf|]. apply f_equal2; [ring|reflexivity]. }
  destruct coeffs as [|c coeffs]; [cbn in HL; lia|]. apply Forall_cons_iff in HC as [Hc HC].
  destruct (power_table x i Hx ltac:(lia)) as (v & -> & Hv). cbn [bind].
  assert (Rt : rep (sc_mul d (sc_of_bytes d (data_of c)) v) (c * x ^ i)) by (apply rep_mul; [now apply rep_coeff|exact Hv]).
  eapply returns_mono; [apply (IH (i + 1) coeffs _ (z + c * x ^ i)); [lia|lia|cbn in HL; lia|exact HC| |now apply rep_add]|].
  - apply sc_add_ok; [apply Rf|apply Rt|exact Cf].
  - intros f' [C R]. split; [exact C|]. eapply rep_cong; [exact R|]. cbn [firstn peval]. rewrite Z.pow_add_r, Z.pow_1_r by lia. apply f_equal2; [ring|reflexivity].
Qed.

(** The polynomial that a box deals for a threshold. *)
Definition dealt_poly (b : CMPOpenedBox) (thresh : Z) : list Z := firstn (Z.to_nat thresh) (vCoeff b).

Definition box_ok (b : CMPOpenedBox) (thresh : Z) : Prop :=
  nPrivKey b <> 0 /\ Forall uint256_ok (vCoeff b) /\ 1 <= thresh <= 27 /\ thresh <= Z.of_nat (length (vCoeff b)).

Lemma Polynomial_ok d b thresh x : box_ok b thresh -> 1 <= x <= 51 ->
  Polynomial d b thresh x = Ok (peval (dealt_poly b thresh) x mod ell).
Proof.
  intros (Hk & HC & Ht & HL) Hx. unfold Polynomial, opened_IsNull, dealt_poly. destruct (vCoeff b) as [|c coeffs]; [cbn in HL; lia|].
  rewrite (proj2 (Z.eqb_neq _ _)), (proj2 (Z.ltb_ge _ _)) by lia. cbn [orb]. apply Forall_cons_iff in HC as [Hc HC].
  destruct (sc_of_bytes_ok d (data_of c) (data_of_u256 c)) as [C0 _].
  destruct (returns_ex _ _ (polynomial_loop_ok d x (Z.to_nat (thresh - 1)) Hx 1 coeffs _ c ltac:(lia) ltac:(lia) ltac:(cbn in HL; lia) HC C0 (rep_coeff d c Hc)))
    as (f & -> & C & R). cbn [bind]. f_equal. change (num f = peval (firstn (Z.to_nat thresh) (c :: coeffs)) x mod ell).
  rewrite (rep_canonical _ _ C R). f_equal. replace (Z.to_nat thresh) with (S (Z.to_nat (thresh - 1))) by lia. cbn [firstn peval]. now rewrite Z.pow_1_r.
Qed.


Lemma polynomial_loop_no_throw d n : forall i x coeffs f e, polynomial_loop d n i x coeffs f <> Throw e.
Proof.
  induction n as [|n IH]; intros i x coeffs f e; cbn [polynomial_loop]; [discriminate|]. destruct coeffs as [|c coeffs]; [discriminate|].
  unfold power_at. destruct (_ <? 51); [destruct (_ <? 26)|]; cbn [bind]; try discriminate. apply IH.
Qed.

(** The exception is thrown exactly for a null box or too few coefficients. *)
Lemma Polynomial_throws d b thresh x e :
  Polynomial d b thresh x = Throw e <-> e = runtime_error /\ (vCoeff b = [] \/ nPrivKey b = 0 \/ Z.of_nat (length (vCoeff b)) < thresh).
Proof.
  unfold Polynomial, opened_IsNull. destruct (vCoeff b) as [|c coeffs]; cbn [orb length].
  { split; [intros [= <-]; auto|intros [-> _]; reflexivity]. }
  destruct (Z.eqb_spec (nPrivKey b) 0) as [E|E]; cbn [orb]; [split; [intros [= <-]; auto|intros [-> _]; reflexivity]|].
  destruct (Z.ltb_spec (Z.of_nat (S (length coeffs))) thresh) as [L|L]; [split; [intros [= <-]; auto|intros [-> _]; reflexivity]|].
  split; [|intros (_ & [H|[H|H]]); [discriminate H|contradiction|lia]].
  destruct (polynomial_loop _ _ _ _ _ _) eqn:P; cbn [bind]; try discriminate. now apply polynomial_loop_no_throw in P.
Qed.
