(* ===== verification/Mpvss.v ===== *)
(** * Verifiable secret sharing: mpvss/mpvss.h and mpvss.cpp

    Every candidate deals a polynomial: it distributes encrypted shares, accepts the shares
    of the others, publishes them, collects what others publish and reconstructs the
    secrets.  Maps are lists ordered by the value of their keys; the parallel computer is
    used through its interface.  A pointer to a participant is [Null], the fresh object
    made for the own entry, or the node of the map with a key; the random numbers are an
    argument. *)

From Stdlib Require Import ZArith List Lia Bool.
From S2P Require Import Prelude Parallel OrdMap Interp MpBox.
Import ListNotations.
Local Open Scope Z_scope.

Record CMPCandidate : Type := mk_candidate { cand_nIdent : Z; cand_nWeight : Z; sBox : CMPSealedBox }.

Record CMPParticipant : Type := mk_participant {
  candidate : CMPCandidate; part_nIndex : Z; nSharedKey : Z; vShare : list Z }.

Record CMPSecretShare : Type := mk_share {
  nIdent : Z; myBox : CMPOpenedBox; nWeight : Z; nIndex : Z; nThresh : Z; fCollectCompleted : bool;
  mapParticipant : list (Z * CMPParticipant);
  mapOpenedShare : list (Z * list (Z * Z)) }.

(** size_t and uint32_t *)
Definition size_t (z : Z) : Z := z mod 2 ^ 64.
Definition uint32 (z : Z) : Z := z mod 2 ^ 32.

Definition share_new (nIdentIn : Z) : CMPSecretShare := mk_share nIdentIn (mk_opened [] 0) 0 0 0 false [] [].

Definition IsEnrolled (s : CMPSecretShare) : bool := negb (nIndex s =? 0).

(** [mapParticipant.find], [operator[]] and the like *)
Abbreviation find := (om_find Z.ltb).
Abbreviation assign := (om_set Z.ltb).

Definition set_box (p : CMPParticipant) (b : CMPSealedBox) : CMPParticipant :=
  mk_participant (mk_candidate (cand_nIdent (candidate p)) (cand_nWeight (candidate p)) b) (part_nIndex p) (nSharedKey p) (vShare p).
Definition set_index (p : CMPParticipant) (i : Z) : CMPParticipant := mk_participant (candidate p) i (nSharedKey p) (vShare p).
Definition set_share (p : CMPParticipant) (v : list Z) : CMPParticipant := mk_participant (candidate p) (part_nIndex p) (nSharedKey p) v.

Definition set_participants (s : CMPSecretShare) (m : list (Z * CMPParticipant)) : CMPSecretShare :=
  mk_share (nIdent s) (myBox s) (nWeight s) (nIndex s) (nThresh s) (fCollectCompleted s) m (mapOpenedShare s).
Definition set_opened (s : CMPSecretShare) (m : list (Z * list (Z * Z))) : CMPSecretShare :=
  mk_share (nIdent s) (myBox s) (nWeight s) (nIndex s) (nThresh s) (fCollectCompleted s) (mapParticipant s) m.
Definition set_range (s : CMPSecretShare) (weight index thresh : Z) : CMPSecretShare :=
  mk_share (nIdent s) (myBox s) weight index thresh (fCollectCompleted s) (mapParticipant s) (mapOpenedShare s).
Definition set_completed (s : CMPSecretShare) (f : bool) : CMPSecretShare :=
  mk_share (nIdent s) (myBox s) (nWeight s) (nIndex s) (nThresh s) f (mapParticipant s) (mapOpenedShare s).

(** The results of tasks: undefined behaviour in one of them is that of the whole. *)
Fixpoint defined {A B} (f : A -> result B) (l : list A) : bool :=
  match l with
  | [] => true
  | a :: l' => match f a with Ok _ | Throw _ => defined f l' | _ => false end
  end.

Definition answer {A B} (f : A -> result B) (a : A) : option B := match f a with Ok b => Some b | _ => None end.

Section Sharing.

Context {E : Edwards25519} {N : Sodium} {PC : ParallelComputer}.
Variable int128 : bool.

(** ** CMPParticipant *)

Definition participant_new (c : CMPCandidate) (nSharedKeyIn : Z) : CMPParticipant := mk_participant c (2 ^ 64 - 1) nSharedKeyIn [].

Definition Encrypt (p : CMPParticipant) (data : Z) : Z := Z.lxor (nSharedKey p) data.
Definition Decrypt (p : CMPParticipant) (cipher : Z) : Z := Z.lxor (nSharedKey p) cipher.

Definition participant_IsNull (p : CMPParticipant) : bool := nSharedKey p =? 0.

Definition Verify (c : CMPCandidate) : bool := VerifySignature (sBox c) (cand_nIdent c).

(** The loop of [AcceptShare] from position [i]; [None] when a share is refused. *)
Fixpoint accept_loop (p : CMPParticipant) (nIndexIn : Z) (shares : list Z) : option (list Z) :=
  match shares with
  | [] => Some []
  | e :: shares' =>
      let v := Decrypt p e in
      if VerifyPolynomial (sBox (candidate p)) (uint32 nIndexIn) v then
        match accept_loop p (nIndexIn + 1) shares' with Some vs => Some (v :: vs) | None => None end
      else None
  end.

Definition AcceptShare (p : CMPParticipant) (nIndexIn : Z) (vEncryptedShare : list Z) : CMPParticipant * bool :=
  if Nat.eqb (length (vShare p)) (length vEncryptedShare) then (p, true)
  else match accept_loop p nIndexIn vEncryptedShare with
       | Some vs => (set_share p vs, true)
       | None => (set_share p [], false)
       end.

Fixpoint VerifyShare (p : CMPParticipant) (nIndexIn : Z) (shares : list Z) : bool :=
  match shares with
  | [] => true
  | v :: shares' =>
      if VerifyPolynomial (sBox (candidate p)) (uint32 nIndexIn) v then VerifyShare p (nIndexIn + 1) shares' else false
  end.

Definition PrepareVerification (p : CMPParticipant) (thresh nLastIndex : Z) : result CMPParticipant :=
  let! b := PrecalcPolynomial (sBox (candidate p)) thresh nLastIndex in Ok (set_box p b).

(** ** CMPSecretShare *)

(** r[7] &= 0x0FFFFFFF *)
Definition RandShare (r : Z) : Z := Z.land r (2 ^ 252 - 1).

Definition GetParticipantRange (s : CMPSecretShare) (nIdentIn : Z) : option (Z * Z) :=
  if nIdentIn =? nIdent s then Some (nIndex s, nWeight s)
  else match find nIdentIn (mapParticipant s) with
       | Some p => Some (part_nIndex p, cand_nWeight (candidate p))
       | None => None
       end.

(** A round of [Setup] takes [nMaxThresh + 2] random numbers. *)
Fixpoint setup_loop (fuel : nat) (nMaxThresh : nat) (ident : Z) (sealed : CMPSealedBox) (rand : list Z) : result (CMPOpenedBox * CMPSealedBox) :=
  match fuel with
  | O => NoFuel
  | S fuel' =>
      match rand with
      | [] => NoFuel
      | key :: rand1 =>
          let coeffs := map RandShare (firstn nMaxThresh rand1) in
          match skipn nMaxThresh rand1 with
          | [] => NoFuel
          | r :: rand2 =>
              let box := mk_opened coeffs (RandShare key) in
              let (sealed', fOk) := MakeSealedBox int128 box sealed ident (RandShare r) in
              if fOk then Ok (box, sealed') else setup_loop fuel' nMaxThresh ident sealed' rand2
          end
      end
  end.

Definition Setup (s : CMPSecretShare) (nMaxThresh : nat) (sealed : CMPSealedBox) (rand : list Z) : result (CMPSecretShare * CMPSealedBox) :=
  let! (box, sealed') := setup_loop (length rand) nMaxThresh (nIdent s) sealed rand in
  Ok (mk_share (nIdent s) box 0 0 0 false [] [], sealed').

Definition SetupWitness (s : CMPSecretShare) : CMPSecretShare :=
  mk_share 0 (mk_opened [] (nPrivKey (myBox s))) 0 0 0 false [] [].

(** *** Enroll *)

Inductive pointer : Type := Null | Self | At (key : Z).

Fixpoint enroll_add (s : CMPSecretShare) (vCandidate : list CMPCandidate) : CMPSecretShare * list pointer :=
  match vCandidate with
  | [] => (s, [])
  | c :: vCandidate' =>
      let (s', p) :=
        if cand_nIdent c =? nIdent s then (set_range s (cand_nWeight c) (nIndex s) (nThresh s), Self)
        else match find (cand_nIdent c) (mapParticipant s) with
             | Some _ => (s, Null)
             | None =>
                 match sealed_PubKey (sBox c) with
                 | Ok pubkey =>
                     (set_participants s (assign (cand_nIdent c) (participant_new c (SharedKey (myBox s) pubkey)) (mapParticipant s)), At (cand_nIdent c))
                 | _ => (s, Null)
                 end
             end in
      let (s'', ps) := enroll_add s' vCandidate' in (s'', p :: ps)
  end.

(** p == nullptr || p->IsNull() ? false : p->candidate.Verify() *)
Definition verify_pointer (m : list (Z * CMPParticipant)) (p : pointer) : bool :=
  match p with
  | At k => match find k m with Some q => if participant_IsNull q then false else Verify (candidate q) | None => false end
  | _ => false
  end.

(** The second loop: the pointers that are left, the own index, the participants and the
    last index.  [delete] of an object of the map is undefined. *)
Fixpoint enroll_index (ps : list pointer) (cs : list CMPCandidate) (vs : list bool) (index : Z) (m : list (Z * CMPParticipant)) (nLastIndex : Z)
  : result (list pointer * Z * list (Z * CMPParticipant) * Z) :=
  match ps, cs, vs with
  | p :: ps', c :: cs', v :: vs' =>
      let! (p', index', m', nLastIndex') :=
        match p with
        | Null => Ok (Null, index, m, nLastIndex)
        | Self => Ok (Null, nLastIndex, m, size_t (nLastIndex + cand_nWeight c))
        | At k =>
            match find k m with
            | None => Undef
            | Some q =>
                if participant_IsNull q then Undef
                else if negb v then Ok (Null, index, om_erase Z.ltb (cand_nIdent (candidate q)) m, nLastIndex)
                else Ok (At k, index, assign k (set_index q nLastIndex) m, size_t (nLastIndex + cand_nWeight (candidate q)))
            end
        end in
      let! (ps'', index'', m'', nLastIndex'') := enroll_index ps' cs' vs' index' m' nLastIndex' in
      Ok (p' :: ps'', index'', m'', nLastIndex'')
  | _, _, _ => Ok ([], index, m, nLastIndex)
  end.

Definition pointed (m : list (Z * CMPParticipant)) (ps : list pointer) : list (Z * CMPParticipant) :=
  flat_map (fun p => match p with At k => match find k m with Some q => [(k, q)] | None => [] end | _ => [] end) ps.

Definition store_all {V} (ks : list Z) (vs : list V) (m : list (Z * V)) : list (Z * V) :=
  fold_left (fun m kv => assign (fst kv) (snd kv) m) (combine ks vs) m.

Definition Enroll (s : CMPSecretShare) (vCandidate : list CMPCandidate) : result CMPSecretShare :=
  let (s1, vParticipant) := enroll_add s vCandidate in
  let m := mapParticipant s1 in
  let vVerify := fst (Transform (fun p => Some (verify_pointer m p)) vParticipant (repeat false (length vParticipant))) in
  let! (ps, index, m1, nLastIndex) := enroll_index vParticipant vCandidate vVerify (nIndex s1) m 1 in
  let thresh := size_t (nLastIndex - 1) / 2 + 1 in
  let work := pointed m1 ps in
  let prepare := fun kq => PrepareVerification (snd kq) thresh nLastIndex in
  if defined prepare work then
    let qs := fst (Execute (answer prepare) work (map snd work)) in
    Ok (set_participants (set_range s1 (nWeight s1) index thresh) (store_all (map fst work) qs m1))
  else Undef.

(** *** Shares *)

Fixpoint polynomials (b : CMPOpenedBox) (thresh : Z) (n : nat) (index : Z) : result (list Z) :=
  match n with
  | O => Ok []
  | S n' =>
      let! v := Polynomial int128 b thresh (uint32 index) in
      let! vs := polynomials b thresh n' (index + 1) in Ok (v :: vs)
  end.

Definition encrypted_shares (s : CMPSecretShare) (p : CMPParticipant) : result (list Z) :=
  let! vs := polynomials (myBox s) (nThresh s) (Z.to_nat (cand_nWeight (candidate p))) (part_nIndex p) in
  Ok (map (Encrypt p) vs).

Definition Distribute (s : CMPSecretShare) (mapShare : list (Z * list Z)) : result (list (Z * list Z)) :=
  let ks := map fst (mapParticipant s) in
  let old := fun k => match find k mapShare with Some v => v | None => [] end in
  let mapShare1 := store_all ks (map old ks) mapShare in
  let work := map snd (mapParticipant s) in
  if defined (encrypted_shares s) work then
    Ok (store_all ks (fst (Transform (answer (encrypted_shares s)) work (map old ks))) mapShare1)
  else Undef.

Definition Accept (s : CMPSecretShare) (nIdentFrom : Z) (vEncryptedShare : list Z) : CMPSecretShare * bool :=
  if Z.of_nat (length vEncryptedShare) =? nWeight s then
    match find nIdentFrom (mapParticipant s) with
    | Some p =>
        let (p', fOk) := AcceptShare p (nIndex s) vEncryptedShare in
        (set_participants s (assign nIdentFrom p' (mapParticipant s)), fOk)
    | None => (s, false)
    end
  else (s, false).

Definition published (m : list (Z * CMPParticipant)) : list (Z * list Z) :=
  flat_map (fun kp => match vShare (snd kp) with [] => [] | v => [(fst kp, v)] end) m.

Definition Publish (s : CMPSecretShare) : result (list (Z * list Z)) :=
  let mapShare := published (mapParticipant s) in
  let! mine := polynomials (myBox s) (nThresh s) (Z.to_nat (nWeight s)) (nIndex s) in
  Ok (assign (nIdent s) (match find (nIdent s) mapShare with Some v => v | None => [] end ++ mine) mapShare).

(** *** Collect *)

(** The own shares; [false] ends the call. *)
Fixpoint own_shares (s : CMPSecretShare) (index : Z) (shares : list Z) : result bool :=
  match shares with
  | [] => Ok true
  | v :: shares' =>
      let! w := Polynomial int128 (myBox s) (nThresh s) (uint32 index) in
      if negb (w =? v) then Ok false else own_shares s (index + 1) shares'
  end.

(** The first loop; [None] when it returns false. *)
Fixpoint collect_check (s : CMPSecretShare) (nIndexFrom nWeightFrom : Z) (mapShare : list (Z * list Z)) : result (option (list (CMPParticipant * list Z))) :=
  match mapShare with
  | [] => Ok (Some [])
  | (k, shares) :: mapShare' =>
      if negb (nWeightFrom =? Z.of_nat (length shares)) then Ok None
      else if k =? nIdent s then
        let! fOk := own_shares s nIndexFrom shares in
        if fOk then collect_check s nIndexFrom nWeightFrom mapShare' else Ok None
      else match find k (mapParticipant s) with
           | None => Ok None
           | Some p =>
               let! rest := collect_check s nIndexFrom nWeightFrom mapShare' in
               Ok (match rest with Some l => Some ((p, shares) :: l) | None => None end)
           end
  end.

Definition share_eqb (a b : Z * Z) : bool := (fst a =? fst b) && (snd a =? snd b).

(** The shares of one secret, while fewer than [thresh] are known. *)
Fixpoint open_shares (thresh : Z) (fCheckRepeated : bool) (index : Z) (shares : list Z) (vOpenedShare : list (Z * Z)) : list (Z * Z) :=
  match shares with
  | [] => vOpenedShare
  | v :: shares' =>
      if Z.of_nat (length vOpenedShare) <? thresh then
        let share := (uint32 index, v) in
        open_shares thresh fCheckRepeated (index + 1) shares'
          (if negb fCheckRepeated || negb (existsb (share_eqb share) vOpenedShare) then vOpenedShare ++ [share] else vOpenedShare)
      else vOpenedShare
  end.

Fixpoint open_all (thresh : Z) (fCheckRepeated : bool) (nIndexFrom : Z) (mapShare : list (Z * list Z)) (opened : list (Z * list (Z * Z))) : list (Z * list (Z * Z)) :=
  match mapShare with
  | [] => opened
  | (k, shares) :: mapShare' =>
      let old := match find k opened with Some v => v | None => [] end in
      open_all thresh fCheckRepeated nIndexFrom mapShare' (assign k (open_shares thresh fCheckRepeated nIndexFrom shares old) opened)
  end.

Definition Collect (s : CMPSecretShare) (nIdentFrom : Z) (mapShare : list (Z * list Z)) (fCheckRepeated : bool) : result (CMPSecretShare * bool) :=
  match GetParticipantRange s nIdentFrom with
  | None => Ok (s, false)
  | Some (nIndexFrom, nWeightFrom) =>
      let! work := collect_check s nIndexFrom nWeightFrom mapShare in
      match work with
      | None => Ok (s, false)
      | Some vecPartShare =>
          if ExecuteUntil (fun ps => Some (VerifyShare (fst ps) nIndexFrom (snd ps))) vecPartShare
          then Ok (set_opened s (open_all (nThresh s) fCheckRepeated nIndexFrom mapShare (mapOpenedShare s)), true)
          else Ok (s, false)
      end
  end.

(** *** Reconstruct *)

Definition reconstruct_one (s : CMPSecretShare) (kv : Z * list (Z * Z)) : result (Z * Z) :=
  if Z.of_nat (length (snd kv)) =? nThresh s then
    match GetParticipantRange s (fst kv) with
    | Some (_, nWeightRet) =>
        let! v := MPNewton int128 (map (fun xy => (fst xy, data_of (snd xy))) (snd kv)) in Ok (uint256_of_data v, nWeightRet)
    | None => Ok (0, 0)
    end
  else Ok (0, 0).

Definition Reconstruct (s : CMPSecretShare) (mapSecret : list (Z * (Z * Z))) : result (list (Z * (Z * Z))) :=
  let work := mapOpenedShare s in
  if defined (reconstruct_one s) work then
    let vData := fst (Transform (answer (reconstruct_one s)) work (repeat (0, 0) (length work))) in
    Ok (fold_left (fun m kd => if 0 <? snd (snd kd) then assign (fst kd) (snd kd) m else m) (combine (map fst work) vData) mapSecret)
  else Undef.

Definition share_Signature (s : CMPSecretShare) (hash rand : Z) : Z * Z := opened_Signature int128 (myBox s) hash (RandShare rand).

Definition share_VerifySignature (s : CMPSecretShare) (nIdentFrom hash r sg : Z) : bool :=
  if nIdentFrom =? nIdent s then opened_VerifySignature (myBox s) hash r sg
  else match find nIdentFrom (mapParticipant s) with
       | None => false
       | Some p => VerifySignature_hash (sBox (candidate p)) hash r sg
       end.

Definition count {A} (p : A -> bool) (l : list A) : Z := Z.of_nat (length (filter p l)).

Definition IsCollectCompleted (s : CMPSecretShare) : CMPSecretShare * bool :=
  let nDistributedCount := (if 0 <? nWeight s then 1 else 0) + count (fun kp => (0 <? length (vShare (snd kp)))%nat) (mapParticipant s) in
  let nCollectedCount := count (fun kv => Z.of_nat (length (snd kv)) =? nThresh s) (mapOpenedShare s) in
  let size := Z.of_nat (length (mapOpenedShare s)) in
  let f := if size =? 0 then false
           else if nDistributedCount =? 0 then nCollectedCount =? size else nDistributedCount <=? nCollectedCount in
  (set_completed s f, f).

End Sharing.
