(* ===== verification/MpvssOk.v ===== *)
(** * Collected shares reconstruct the secrets

    Shares collected from different participants lie at different arguments; those that
    the sealed box of a dealer accepts are points of its polynomial, and reconstruction
    returns its constant coefficient. *)

From Stdlib Require Import ZArith List Lia Bool Sorted.
From S2P Require Import Prelude Radix Base25519 Base25519Ok Sc25519 Sc25519Ok Parallel OrdMap Interp Poly InterpOk MpBox MpBoxOk Mpvss.
Import ListNotations.
Local Open Scope Z_scope.

#[export] Instance Zltb_order : StrictOrder Z.ltb.
Proof. split; intros; repeat rewrite ?Z.ltb_lt, ?Z.ltb_ge, ?Z.ltb_irrefl in *; try reflexivity; lia. Qed.

(** ** Newton's interpolation is defined within the reach of the table *)

Section Total.

Variables (d : bool) (vShare : list share).
Hypothesis near : forall i k, (i < length vShare)%nat -> (k < length vShare)%nat -> -50 <= x_at vShare i - x_at vShare k <= 50.

Lemma newton_row_total i prev : (i < length vShare)%nat -> forall n j v, (n + j = i)%nat -> exists v', newton_row d n j i vShare prev v = Ok v'.
Proof.
  intros Hi. induction n as [|n IH]; intros j v Hn; cbn [newton_row]; [now exists v|].
  rewrite !x_at_fst. destruct (inverse_at_ok (x_at vShare i) (x_at vShare (i - j - 1))) as (w & -> & _); [apply near; lia|]. cbn [bind]. apply IH. lia.
Qed.

Lemma newton_loop_total rest : forall i set basis s0, (i + length rest = length vShare)%nat -> exists s, newton_loop d vShare i rest set basis s0 = Ok s.
Proof.
  induction rest as [|[x y] rest IH]; intros i set basis s0 HL; cbn [newton_loop length] in *; [now exists s0|].
  destruct (newton_row_total i (nth (i - 1) set []) ltac:(lia) i 0 [sc_of_bytes d y] ltac:(lia)) as [v ->]. cbn [bind]. apply IH. lia.
Qed.

Lemma MPNewton_total : exists s, MPNewton d vShare = Ok s.
Proof. now apply newton_loop_total. Qed.

End Total.

(** ** The shares that [Collect] adds *)

Definition enum (index : Z) (shares : list Z) : list (Z * Z) := combine (map (fun j => index + Z.of_nat j) (seq 0 (length shares))) shares.

Lemma enum_cons index v shares : enum index (v :: shares) = (index, v) :: enum (index + 1) shares.
Proof.
  unfold enum. cbn [length seq map combine]. rewrite Z.add_0_r. f_equal. f_equal. rewrite <- seq_shift, map_map. apply map_ext. intros. lia.
Qed.

Lemma enum_in index shares x v : In (x, v) (enum index shares) -> index <= x < index + Z.of_nat (length shares).
Proof.
  revert index. induction shares as [|w shares IH]; intros index H; [contradiction|]. rewrite enum_cons in H. cbn [length].
  destruct H as [[= <- _]|H]; [lia|]. apply IH in H. lia.
Qed.

Lemma enum_nodup index shares : NoDup (map fst (enum index shares)).
Proof.
  revert index. induction shares as [|w shares IH]; intros index; [constructor|]. rewrite enum_cons. cbn [map fst]. constructor; [|apply IH].
  intros H. apply in_map_iff in H as ([x v] & <- & H). apply enum_in in H. cbn in H. lia.
Qed.

Lemma nodup_firstn {A} n (l : list A) : NoDup l -> NoDup (firstn n l).
Proof. intros H. rewrite <- (firstn_skipn n l) in H. now apply NoDup_app_remove_r in H. Qed.

(** At new arguments no share is repeated: they are added up to the threshold. *)
Lemma open_shares_new thresh chk shares : forall index l, 0 <= index -> index + Z.of_nat (length shares) <= 2 ^ 32 ->
  (forall x, In x (map fst l) -> ~ index <= x < index + Z.of_nat (length shares)) ->
  open_shares thresh chk index shares l = l ++ firstn (Z.to_nat thresh - length l) (enum index shares).
Proof.
  induction shares as [|v shares IH]; intros index l Hi Hb HN; cbn [open_shares].
  { unfold enum. cbn. now rewrite firstn_nil, app_nil_r. }
  cbn [length] in *. destruct (Z.ltb_spec (Z.of_nat (length l)) thresh) as [L|L].
  2:{ replace (Z.to_nat thresh - length l)%nat with 0%nat by lia. now rewrite app_nil_r. }
  assert (X : existsb (share_eqb (uint32 index, v)) l = false).
  { apply not_true_iff_false. intros H. apply existsb_exists in H as ([x w] & Hx & H). unfold share_eqb in H. apply andb_true_iff in H as [H _].
    apply Z.eqb_eq in H. cbn [fst] in H. unfold uint32 in H. rewrite Z.mod_small in H by lia. subst x. apply (HN index); [now apply (in_map fst) in Hx|lia]. }
  rewrite X. cbn [negb orb]. rewrite orb_true_r. rewrite IH; [|lia|lia|].
  - rewrite length_app, enum_cons, <- app_assoc. cbn [length app]. unfold uint32. rewrite Z.mod_small by lia.
    replace (Z.to_nat thresh - length l)%nat with (S (Z.to_nat thresh - (length l + 1))) by lia. reflexivity.
  - intros x H. rewrite map_app in H. apply in_app_iff in H as [H|[<-|[]]]; [specialize (HN x H); lia|]. cbn. unfold uint32. rewrite Z.mod_small by lia. lia.
Qed.

Lemma open_all_find thresh chk index (mapShare : list (Z * list Z)) : forall opened k, om_sorted Z.ltb mapShare -> om_sorted Z.ltb opened ->
  om_sorted Z.ltb (open_all thresh chk index mapShare opened) /\
  om_find Z.ltb k (open_all thresh chk index mapShare opened) =
    match om_find Z.ltb k mapShare with
    | Some shares => Some (open_shares thresh chk index shares (match om_find Z.ltb k opened with Some v => v | None => [] end))
    | None => om_find Z.ltb k opened
    end.
Proof.
  induction mapShare as [|[k' shares] m IH]; intros opened k HS HO; cbn [open_all]; [split; [exact HO|reflexivity]|].
  pose proof (om_sorted_inv Z.ltb _ _ _ HS) as [HS' HB]. set (v := open_shares _ _ _ _ _).
  assert (HO' : om_sorted Z.ltb (om_set Z.ltb k' v opened)) by now apply (om_set_sorted Z.ltb).
  destruct (IH (om_set Z.ltb k' v opened) k HS' HO') as [H1 H2]. split; [exact H1|]. rewrite H2. cbn [om_find].
  destruct (Z.eq_dec k k') as [->|N].
  - rewrite (om_find_below Z.ltb k' m HB), Z.ltb_irrefl. rewrite (om_find_set_eq Z.ltb) by exact HO. reflexivity.
  - rewrite (om_find_set_ne Z.ltb) by (auto; exact HO). destruct (Z.ltb_spec k k').
    + rewrite (om_find_below Z.ltb k m); [reflexivity|]. eapply Forall_impl; [|exact HB]. cbn. intros a Ha. apply Z.ltb_lt in Ha. apply Z.ltb_lt. lia.
    + rewrite (proj2 (Z.ltb_lt k' k)) by lia. reflexivity.
Qed.

(** ** What is known of the collected shares *)

Section Collecting.

Context {E : Edwards25519} {N : Sodium} {PC : ParallelComputer} {PCok : ParallelComputer_ok PC}.
Variable d : bool.

(** [x] is an argument of the participant [k]. *)
Definition covers (s : CMPSecretShare) (k x : Z) : Prop := exists i w, GetParticipantRange s k = Some (i, w) /\ i <= x < i + w.

(** Arguments within the tables, one participant for each. *)
Definition ranges_ok (s : CMPSecretShare) : Prop :=
  (forall k x, covers s k x -> 1 <= x <= 51) /\ (forall k k' x, covers s k x -> covers s k' x -> k = k').

(** The test of a share of the secret [k]. *)
Definition checked (s : CMPSecretShare) (k x v : Z) : Prop :=
  if k =? nIdent s then Polynomial d (myBox s) (nThresh s) x = Ok v
  else exists p, om_find Z.ltb k (mapParticipant s) = Some p /\ VerifyPolynomial (sBox (candidate p)) x v = true.

(** A scalar that libsodium reads in full. *)
Definition small (v : Z) : Prop := 0 <= v < 2 ^ 255.

(** The shares of [k] after collecting from the participants [from]. *)
Definition opened_ok (s : CMPSecretShare) (from : list Z) (k : Z) (l : list (Z * Z)) : Prop :=
  NoDup (map fst l) /\ Z.of_nat (length l) <= Z.max 0 (nThresh s) /\
  Forall (fun xv => (exists f, In f from /\ covers s f (fst xv)) /\ checked s k (fst xv) (snd xv) /\ small (snd xv)) l.

Definition collected_ok (s : CMPSecretShare) (from : list Z) : Prop :=
  ranges_ok s /\ om_sorted Z.ltb (mapOpenedShare s) /\ (forall k l, om_find Z.ltb k (mapOpenedShare s) = Some l -> opened_ok s from k l).

Lemma own_shares_ok s shares : forall index, own_shares d s index shares = Ok true ->
  forall x v, In (x, v) (enum index shares) -> Polynomial d (myBox s) (nThresh s) (uint32 x) = Ok v.
Proof.
  induction shares as [|w shares IH]; intros index H x v HI; [contradiction|]. rewrite enum_cons in HI. cbn [own_shares] in H.
  destruct (Polynomial d (myBox s) (nThresh s) (uint32 index)) as [u| | |] eqn:Ep; cbn [bind] in H; try discriminate H.
  destruct (Z.eqb_spec u w) as [->|]; cbn [negb] in H; [|discriminate H]. destruct HI as [[= <- <-]|HI]; [exact Ep|eauto].
Qed.

Lemma VerifyShare_ok p shares : forall index, VerifyShare p index shares = true ->
  forall x v, In (x, v) (enum index shares) -> VerifyPolynomial (sBox (candidate p)) (uint32 x) v = true.
Proof.
  induction shares as [|w shares IH]; intros index H x v HI; [contradiction|]. rewrite enum_cons in HI. cbn [VerifyShare] in H.
  destruct (VerifyPolynomial _ _ _) eqn:Ep; [|discriminate H]. destruct HI as [[= <- <-]|HI]; [exact Ep|eauto].
Qed.

Lemma collect_check_ok s i w mapShare : forall work, collect_check d s i w mapShare = Ok (Some work) ->
  (forall p shares, In (p, shares) work -> VerifyShare p i shares = true) ->
  forall k shares, In (k, shares) mapShare -> w = Z.of_nat (length shares) /\
    (forall x v, In (x, v) (enum i shares) -> checked s k (uint32 x) v).
Proof.
  induction mapShare as [|[k' sh] m IH]; intros work H HV k shares HI; [contradiction|]. cbn [collect_check] in H.
  destruct (Z.eqb_spec w (Z.of_nat (length sh))) as [Ew|]; cbn [negb] in H; [|discriminate H].
  destruct (Z.eqb_spec k' (nIdent s)) as [Ek|Nk].
  - destruct (own_shares d s i sh) as [[]| | |] eqn:Eo; cbn [bind] in H; try discriminate H.
    destruct HI as [[= -> ->]|HI]; [|eauto]. split; [exact Ew|]. intros x v Hx. unfold checked. rewrite (proj2 (Z.eqb_eq _ _) Ek). eapply own_shares_ok; eauto.
  - destruct (om_find Z.ltb k' (mapParticipant s)) as [p|] eqn:Ef; [|discriminate H].
    destruct (collect_check d s i w m) as [[l|]| | |] eqn:Ec; cbn [bind] in H; try discriminate H. injection H as <-.
    destruct HI as [[= -> ->]|HI]; [|eapply IH; eauto; intros; apply HV; now right]. split; [exact Ew|]. intros x v Hx. unfold checked.
    rewrite (proj2 (Z.eqb_neq _ _) Nk). exists p. split; [exact Ef|]. eapply VerifyShare_ok; [apply HV; now left|exact Hx].
Qed.

(** Collecting changes only the opened shares. *)
Lemma Collect_opened s from m chk s' f : Collect d s from m chk = Ok (s', f) -> exists o, s' = set_opened s o.
Proof.
  unfold Collect. destruct (GetParticipantRange s from) as [[i w]|]; [|intros [= <- _]; exists (mapOpenedShare s); now destruct s].
  destruct (collect_check d s i w m) as [[work|]| | |]; cbn [bind]; try discriminate.
  - destruct (ExecuteUntil _ _); intros [= <- _]; eauto. exists (mapOpenedShare s). now destruct s.
  - intros [= <- _]. exists (mapOpenedShare s). now destruct s.
Qed.

Lemma opened_ok_mono s from f k l : opened_ok s from k l -> opened_ok s (f :: from) k l.
Proof.
  intros (H1 & H2 & H3). split; [exact H1|split; [exact H2|]]. eapply Forall_impl; [|exact H3]. intros [x v] [(g & Hg & Hc) Hk]. split; [|exact Hk].
  exists g. split; [now right|exact Hc].
Qed.

Lemma opened_ok_add s from f i w k shares old chk : ranges_ok s -> ~ In f from -> GetParticipantRange s f = Some (i, w) -> w = Z.of_nat (length shares) -> Forall small shares ->
  (forall x v, In (x, v) (enum i shares) -> checked s k (uint32 x) v) -> opened_ok s from k old ->
  opened_ok s (f :: from) k (open_shares (nThresh s) chk i shares old).
Proof.
  intros [HR HD] Hf HG Hw HSm HC HO. assert (HCov : forall x v, In (x, v) (enum i shares) -> covers s f x) by (intros x v Hx; apply enum_in in Hx; exists i, w; split; [exact HG|lia]).
  destruct shares as [|v0 shares]; [now apply opened_ok_mono|].
  assert (HB : 1 <= i /\ i + w <= 52).
  { cbn [length] in Hw. split; [apply (HR f i)|enough (1 <= i + w - 1 <= 51) by lia; apply (HR f)]; exists i, w; (split; [exact HG|lia]). }
  destruct HO as (H1 & H2 & H3). rewrite Forall_forall in H3.
  rewrite open_shares_new; [|lia|lia|].
  2:{ intros x Hx Hr. apply in_map_iff in Hx as ([x' u] & <- & Hx). destruct (H3 _ Hx) as [(g & Hg & Hc) _]. cbn [fst] in *. apply Hf.
      rewrite (HD f g x'); [exact Hg| |exact Hc]. exists i, w. split; [exact HG|lia]. }
  set (new := firstn _ _). assert (HN : incl new (enum i (v0 :: shares))) by (intros y Hy; unfold new in Hy; rewrite <- (firstn_skipn (Z.to_nat (nThresh s) - length old)); apply in_app_iff; now left).
  split; [|split].
  - rewrite map_app. apply NoDup_app; [exact H1|unfold new; rewrite <- firstn_map; apply nodup_firstn, enum_nodup|].
    intros x Hx Hy. apply in_map_iff in Hx as ([x1 u] & <- & Hx). apply in_map_iff in Hy as ([x2 u'] & Ex & Hy). cbn [fst] in *. subst x2.
    destruct (H3 _ Hx) as [(g & Hg & Hc) _]. apply Hf. rewrite (HD f g x1); [exact Hg| |exact Hc]. eapply HCov. apply HN. exact Hy.
  - rewrite length_app. unfold new. rewrite length_firstn. lia.
  - apply Forall_app. split.
    + apply Forall_forall. intros y Hy. destruct (H3 y Hy) as [(g & Hg & Hc) Hk]. split; [exists g; split; [now right|exact Hc]|exact Hk].
    + apply Forall_forall. intros [x u] Hy. apply HN in Hy. cbn [fst snd]. split; [exists f; split; [now left|eauto]|].
      split; [|rewrite Forall_forall in HSm; apply HSm; exact (in_combine_r _ _ _ _ Hy)].
      pose proof (HC _ _ Hy) as H. pose proof (HR _ _ (HCov _ _ Hy)). unfold uint32 in H. now rewrite Z.mod_small in H by lia.
Qed.

Lemma Collect_ok s from f m chk s' b : collected_ok s from -> ~ In f from -> om_sorted Z.ltb m -> Forall (fun kv => Forall small (snd kv)) m ->
  Collect d s f m chk = Ok (s', b) -> collected_ok s' (f :: from).
Proof.
  intros (HR & HS & HO) Hf Hm Hsm. assert (HE : collected_ok s (f :: from)) by (split; [exact HR|split; [exact HS|]]; intros; now apply opened_ok_mono, HO).
  unfold Collect. destruct (GetParticipantRange s f) as [[i w]|] eqn:HG; [|intros [= <- _]; exact HE].
  destruct (collect_check d s i w m) as [[work|]| | |] eqn:HC; cbn [bind]; try discriminate; [|intros [= <- _]; exact HE].
  rewrite ExecuteUntil_ok. destruct (forallb _ work) eqn:HV; intros [= <- _]; [|exact HE].
  assert (HK : forall k shares, In (k, shares) m -> w = Z.of_nat (length shares) /\ (forall x v, In (x, v) (enum i shares) -> checked s k (uint32 x) v)).
  { apply (collect_check_ok s i w m work HC). intros p shares HI. rewrite forallb_forall in HV. exact (HV _ HI). }
  split; [exact HR|split].
  - exact (proj1 (open_all_find (nThresh s) chk i m (mapOpenedShare s) 0 Hm HS)).
  - intros k l Hl. cbn [set_opened mapOpenedShare] in Hl. rewrite (proj2 (open_all_find (nThresh s) chk i m (mapOpenedShare s) k Hm HS)) in Hl.
    change (opened_ok s (f :: from) k l). destruct (om_find Z.ltb k m) as [shares|] eqn:Ek; [|now apply opened_ok_mono, HO].
    injection Hl as <-. apply om_find_in in Ek; [|exact _]. destruct (HK k shares Ek) as [Hw HC']. rewrite Forall_forall in Hsm. specialize (Hsm _ Ek). cbn [snd] in Hsm.
    apply (opened_ok_add s from f i w); try assumption.
    destruct (om_find Z.ltb k (mapOpenedShare s)) as [old|] eqn:Eo; [now apply HO|]. split; [constructor|split; [cbn; lia|constructor]].
Qed.

(** Any sequence of published maps. *)
Fixpoint collect_all (s : CMPSecretShare) (reqs : list (Z * list (Z * list Z))) : result CMPSecretShare :=
  match reqs with
  | [] => Ok s
  | (f, m) :: reqs' => let! (s', _) := Collect d s f m true in collect_all s' reqs'
  end.

Definition request_ok (r : Z * list (Z * list Z)) : Prop := om_sorted Z.ltb (snd r) /\ Forall (fun kv => Forall small (snd kv)) (snd r).

Lemma collect_all_ok reqs : forall s from s', collected_ok s from -> NoDup (map fst reqs) -> (forall f, In f (map fst reqs) -> ~ In f from) ->
  Forall request_ok reqs -> collect_all s reqs = Ok s' -> (exists from', collected_ok s' from') /\ exists o, s' = set_opened s o.
Proof.
  induction reqs as [|[f m] reqs IH]; intros s from s' HO ND HD HR H; cbn [collect_all] in H.
  { injection H as <-. split; [now exists from|]. exists (mapOpenedShare s). now destruct s. }
  apply Forall_cons_iff in HR as [[Hm Hs] HR]. apply NoDup_cons_iff in ND as [Hf ND]. cbn [fst snd] in *.
  destruct (Collect d s f m true) as [[s1 b]| | |] eqn:EC; cbn [bind] in H; try discriminate H.
  destruct (Collect_opened _ _ _ _ _ _ EC) as [o ->].
  destruct (IH _ (f :: from) s' (Collect_ok _ _ _ _ _ _ _ HO (HD f (or_introl eq_refl)) Hm Hs EC) ND) as [HC [o' ->]]; [|exact HR|exact H|].
  - intros g Hg [<-|Hin]; [contradiction|]. apply (HD g); [now right|exact Hin].
  - split; [exact HC|]. now exists o'.
Qed.

(** ** Reconstruction *)

(** Every share of [k] that passes the test is a point of the polynomial [c]. *)
Definition binds (s : CMPSecretShare) (k : Z) (c : list Z) : Prop :=
  forall x v, 1 <= x <= 51 -> small v -> checked s k x v -> cong ell v (peval c x).

Abbreviation words_of_shares := (map (fun xy : Z * Z => (fst xy, data_of (snd xy)))).

Lemma opened_spread s from k l : ranges_ok s -> opened_ok s from k l -> spread (points (words_of_shares l)).
Proof.
  intros [HR _] (H1 & _ & H3). unfold points. rewrite map_map. change (spread (map fst l)). rewrite Forall_forall in H3.
  assert (B : forall x, In x (map fst l) -> 1 <= x <= 51).
  { intros x Hx. apply in_map_iff in Hx as (xv & <- & Hx). destruct (H3 _ Hx) as [(g & _ & Hc) _]. exact (HR _ _ Hc). }
  split; [exact H1|split].
  - apply Forall_forall. intros x Hx. specialize (B x Hx). unfold arg_ok. lia.
  - intros x y Hx Hy. pose proof (B x Hx). pose proof (B y Hy). lia.
Qed.

Lemma opened_on_poly s from k l c : ranges_ok s -> opened_ok s from k l -> binds s k c -> on_poly c (words_of_shares l).
Proof.
  intros [HR _] (_ & _ & H3) HB. apply Forall_forall. intros s0 Hs. apply in_map_iff in Hs as ([x v] & <- & Hs). cbn [fst snd].
  rewrite Forall_forall in H3. destruct (H3 _ Hs) as [(g & _ & Hc) [Hk Hv]]. cbn [fst snd] in *. split; [apply data_of_u256|].
  rewrite data_of_bounded by (unfold small in Hv; lia). apply HB; [exact (HR _ _ Hc)|exact Hv|exact Hk].
Qed.

Definition secret_ok (s : CMPSecretShare) (k : Z) (l : list (Z * Z)) (r : Z * Z) : Prop :=
  match GetParticipantRange s k with
  | Some (_, w) =>
      if Z.of_nat (length l) =? nThresh s
      then snd r = w /\ forall c, binds s k c -> Z.of_nat (length c) <= nThresh s -> fst r = peval c 0 mod ell
      else r = (0, 0)
  | None => r = (0, 0)
  end.

Lemma reconstruct_one_ok s from k l : ranges_ok s -> opened_ok s from k l -> exists r, reconstruct_one d s (k, l) = Ok r /\ secret_ok s k l r.
Proof.
  intros HR HO. unfold reconstruct_one, secret_ok. cbn [fst snd]. destruct (Z.eqb_spec (Z.of_nat (length l)) (nThresh s)) as [HL|HL].
  2:{ exists (0, 0). split; [reflexivity|]. now destruct (GetParticipantRange s k) as [[? ?]|]. }
  destruct (GetParticipantRange s k) as [[i w]|]; [|now exists (0, 0)].
  pose proof (opened_spread s from k l HR HO) as HS.
  destruct (MPNewton_total d (words_of_shares l)) as [v Ev].
  { intros a b Ha Hb. destruct HS as (_ & _ & HN). rewrite <- length_points in Ha, Hb. apply HN; now apply nth_In. }
  rewrite Ev. cbn [bind]. eexists. split; [reflexivity|]. cbn [fst snd]. split; [reflexivity|]. intros c HB Hc.
  pose proof (MPNewton_ok d c (words_of_shares l) HS ltac:(rewrite length_map; lia) (opened_on_poly s from k l c HR HO HB)) as H.
  rewrite Ev in H. exact (proj2 H).
Qed.

Lemma om_sorted_combine {V W} (m : list (Z * V)) (vs : list W) : om_sorted Z.ltb m -> om_sorted Z.ltb (combine (map fst m) vs).
Proof.
  intros H. revert vs. induction H as [|[k v] m HS IH HB]; intros [|w vs]; cbn; try constructor; [apply IH|].
  apply Forall_forall. intros [k' w'] HI. apply in_combine_l, in_map_iff in HI as ([k2 v2] & <- & HI). rewrite Forall_forall in HB. exact (HB _ HI).
Qed.

Lemma find_combine {V W} (R : Z -> V -> W -> Prop) (m : list (Z * V)) vs k : Forall2 (fun kv w => R (fst kv) (snd kv) w) m vs ->
  match om_find Z.ltb k m with
  | Some v => exists w, om_find Z.ltb k (combine (map fst m) vs) = Some w /\ R k v w
  | None => om_find Z.ltb k (combine (map fst m) vs) = None
  end.
Proof.
  induction 1 as [|[k' v] w m vs H HF IH]; cbn [map combine om_find fst]; [reflexivity|]. cbn [fst snd] in H.
  destruct (Z.ltb_spec k k'); [reflexivity|]. destruct (Z.ltb_spec k' k); [exact IH|]. assert (k = k') as -> by lia. eauto.
Qed.

Abbreviation keep_secret := (fun (m : list (Z * (Z * Z))) (kd : Z * (Z * Z)) => if 0 <? snd (snd kd) then om_set Z.ltb (fst kd) (snd kd) m else m).

Lemma fold_secrets (l : list (Z * (Z * Z))) : om_sorted Z.ltb l -> forall m k, om_sorted Z.ltb m ->
  om_find Z.ltb k (fold_left keep_secret l m) =
    match om_find Z.ltb k l with Some r => if 0 <? snd r then Some r else om_find Z.ltb k m | None => om_find Z.ltb k m end.
Proof.
  induction 1 as [|[k' r] l HS IH HB]; intros m k Hm; cbn [fold_left om_find fst snd]; [reflexivity|].
  assert (Hm' : om_sorted Z.ltb (if 0 <? snd r then om_set Z.ltb k' r m else m)) by (destruct (0 <? snd r); [now apply (om_set_sorted Z.ltb)|exact Hm]).
  rewrite IH by exact Hm'. destruct (Z.eq_dec k k') as [->|Nk].
  - rewrite Z.ltb_irrefl, (om_find_below Z.ltb k' l HB). destruct (0 <? snd r); [now apply (om_find_set_eq Z.ltb)|reflexivity].
  - assert (EF : om_find Z.ltb k (if 0 <? snd r then om_set Z.ltb k' r m else m) = om_find Z.ltb k m) by (destruct (0 <? snd r); [now apply (om_find_set_ne Z.ltb)|reflexivity]).
    rewrite EF. destruct (Z.ltb_spec k k').
    + rewrite (om_find_below Z.ltb k l); [reflexivity|]. eapply Forall_impl; [|exact HB]. intros a Ha. apply Z.ltb_lt in Ha. apply Z.ltb_lt. cbn [fst] in Ha. lia.
    + now rewrite (proj2 (Z.ltb_lt k' k)) by lia.
Qed.

Lemma defined_ok {A B} (f : A -> result B) l : (forall a, In a l -> exists b, f a = Ok b) -> defined f l = true.
Proof. induction l as [|a l IH]; intros H; cbn [defined]; [reflexivity|]. destruct (H a (or_introl eq_refl)) as [b ->]. apply IH. intros; apply H; now right. Qed.

(** Reconstruction returns, and gives the secret of every participant with weight for which
    enough shares were opened. *)
Lemma Reconstruct_ok s from : collected_ok s from -> returns (Reconstruct d s []) (fun secrets => forall k,
  match om_find Z.ltb k (mapOpenedShare s) with
  | Some l => exists r, secret_ok s k l r /\ om_find Z.ltb k secrets = if 0 <? snd r then Some r else None
  | None => om_find Z.ltb k secrets = None
  end).
Proof.
  intros (HR & HS & HO). unfold Reconstruct.
  assert (H1 : forall kl, In kl (mapOpenedShare s) -> exists r, reconstruct_one d s kl = Ok r /\ secret_ok s (fst kl) (snd kl) r).
  { intros [k l] Hk. eapply reconstruct_one_ok; [exact HR|]. apply HO. now apply (om_in_find Z.ltb). }
  rewrite defined_ok by (intros a Ha; destruct (H1 a Ha) as (r & Er & _); eauto). cbn [returns]. intros k.
  set (work := mapOpenedShare s) in *. set (out := repeat (0, 0) (length work)).
  destruct (Transform_ok _ _ (answer (reconstruct_one d s)) work out (repeat_length _ _)) as (_ & _ & HB & HF).
  rewrite HB in HF. assert (HA : Forall2 (fun kv r => secret_ok s (fst kv) (snd kv) r) work (fst (Transform (answer (reconstruct_one d s)) work out))).
  { assert (HT : forallb (fun a => match answer (reconstruct_one d s) a with Some _ => true | None => false end) work = true).
    { apply forallb_forall. intros a Ha. destruct (H1 a Ha) as (r & Er & _). unfold answer. now rewrite Er. }
    specialize (HF HT). clear - HF H1. induction HF as [|a b l l' Hab HF IH]; constructor; [|apply IH; intros; apply H1; now right].
    destruct (H1 a (or_introl eq_refl)) as (r & Er & Hr). unfold answer in Hab. rewrite Er in Hab. injection Hab as <-. exact Hr. }
  rewrite fold_secrets; [|now apply om_sorted_combine|constructor]. pose proof (find_combine (secret_ok s) work _ k HA) as HC.
  destruct (om_find Z.ltb k work) as [l|]; [|now rewrite HC]. destruct HC as (r & -> & Hr). exists r. split; [exact Hr|reflexivity].
Qed.

(** ** Commitments bind *)

(** The base point has the order of the scalars, and libsodium ignores the last bit. *)
Class Sodium_binding : Prop := {
  pubkey_binding : forall a b, small a -> small b ->
    crypto_scalarmult_ed25519_base_noclamp a = crypto_scalarmult_ed25519_base_noclamp b -> cong ell a b }.

(** The box holds the images of the shares of [c]. *)
Definition commits (b : CMPSealedBox) (c : list Z) : Prop :=
  forall x, 1 <= x <= 51 -> x < Z.of_nat (length (vEncryptedShare b)) -> nth (Z.to_nat x) (vEncryptedShare b) 0 = MPEccPubkey (peval c x mod ell).

Lemma ell_small z : small (z mod ell).
Proof. pose proof (Z.mod_pos_bound z ell eq_refl). assert (ell < 2 ^ 255) by reflexivity. unfold small. lia. Qed.

Lemma commits_binds {SB : Sodium_binding} s k p c : k <> nIdent s -> om_find Z.ltb k (mapParticipant s) = Some p -> commits (sBox (candidate p)) c -> binds s k c.
Proof.
  intros Nk Hp HC x v Hx Hv H. unfold checked in H. rewrite (proj2 (Z.eqb_neq _ _) Nk) in H. destruct H as (q & Hq & H). rewrite Hp in Hq. injection Hq as <-.
  unfold VerifyPolynomial in H. destruct (Z.leb_spec (Z.of_nat (length (vEncryptedShare (sBox (candidate p))))) x); [discriminate H|].
  apply Z.eqb_eq in H. rewrite (HC x) in H by lia. symmetry. transitivity (peval c x mod ell); [symmetry; apply cong_mod|].
  apply pubkey_binding; [apply ell_small|exact Hv|exact H].
Qed.

Lemma own_binds s : box_ok (myBox s) (nThresh s) -> binds s (nIdent s) (dealt_poly (myBox s) (nThresh s)).
Proof. intros HB x v Hx _ H. unfold checked in H. rewrite Z.eqb_refl, Polynomial_ok in H by assumption. injection H as <-. apply cong_mod. Qed.

(** ** Shares on their way *)

Lemma Decrypt_Encrypt p q z : nSharedKey p = nSharedKey q -> Decrypt q (Encrypt p z) = z.
Proof. intros H. unfold Decrypt, Encrypt. now rewrite H, <- Z.lxor_assoc, Z.lxor_nilpotent. Qed.

Lemma polynomials_ok b thresh n : forall index, box_ok b thresh -> 1 <= index -> index + Z.of_nat n <= 52 ->
  polynomials d b thresh n index = Ok (map (fun j => peval (dealt_poly b thresh) (index + Z.of_nat j) mod ell) (seq 0 n)).
Proof.
  induction n as [|n IH]; intros index HB H1 H2; cbn [polynomials seq map]; [reflexivity|].
  unfold uint32. rewrite Z.mod_small by lia. rewrite Polynomial_ok by (auto; lia). cbn [bind]. rewrite IH by (auto; lia). cbn [bind]. rewrite Z.add_0_r. do 2 f_equal.
  rewrite <- seq_shift, map_map. apply map_ext. intros j. do 2 f_equal. lia.
Qed.

Lemma accept_loop_ok p q vs : nSharedKey p = nSharedKey q -> forall index,
  (forall x v, In (x, v) (enum index vs) -> VerifyPolynomial (sBox (candidate q)) (uint32 x) v = true) ->
  accept_loop q index (map (Encrypt p) vs) = Some vs.
Proof.
  intros HK. induction vs as [|v vs IH]; intros index HV; cbn [map accept_loop]; [reflexivity|]. rewrite (Decrypt_Encrypt p q v HK).
  rewrite HV by (rewrite enum_cons; now left). rewrite IH; [reflexivity|]. intros x w Hx. apply HV. rewrite enum_cons. now right.
Qed.

(** The values of the polynomial of a box over a range. *)
Definition values (b : CMPOpenedBox) (thresh i w : Z) : list Z := map (fun j => peval (dealt_poly b thresh) (i + Z.of_nat j) mod ell) (seq 0 (Z.to_nat w)).

Lemma encrypted_shares_ok s k p : ranges_ok s -> box_ok (myBox s) (nThresh s) -> k <> nIdent s -> om_find Z.ltb k (mapParticipant s) = Some p ->
  encrypted_shares d s p = Ok (map (Encrypt p) (values (myBox s) (nThresh s) (part_nIndex p) (cand_nWeight (candidate p)))).
Proof.
  intros [HR _] HB Nk Hp. unfold encrypted_shares, values. set (i := part_nIndex p). set (w := cand_nWeight (candidate p)).
  assert (HC : forall x, i <= x < i + w -> 1 <= x <= 51).
  { intros x Hx. apply (HR k). exists i, w. split; [|exact Hx]. unfold GetParticipantRange. now rewrite (proj2 (Z.eqb_neq _ _) Nk), Hp. }
  destruct (Z_le_gt_dec w 0) as [L|L]; [replace (Z.to_nat w) with 0%nat by lia; reflexivity|].
  rewrite polynomials_ok; [reflexivity|exact HB| |]; [apply HC; lia|]. pose proof (HC (i + w - 1) ltac:(lia)). lia.
Qed.

Lemma store_all_find {V} (m : list (Z * V)) : forall ks vs k, om_sorted Z.ltb m -> om_sorted Z.ltb (combine ks vs) ->
  om_sorted Z.ltb (store_all ks vs m) /\ om_find Z.ltb k (store_all ks vs m) = match om_find Z.ltb k (combine ks vs) with Some v => Some v | None => om_find Z.ltb k m end.
Proof.
  intros ks vs k Hm HS. unfold store_all. revert m Hm. induction HS as [|[k' v] l HS IH HB]; intros m Hm; cbn [fold_left om_find fst snd]; [now split|].
  assert (Hm' : om_sorted Z.ltb (om_set Z.ltb k' v m)) by now apply (om_set_sorted Z.ltb). destruct (IH _ Hm') as [H1 H2]. split; [exact H1|]. rewrite H2.
  destruct (Z.eq_dec k k') as [->|Nk].
  - rewrite Z.ltb_irrefl, (om_find_below Z.ltb k' l HB). now apply (om_find_set_eq Z.ltb).
  - rewrite (om_find_set_ne Z.ltb) by assumption. destruct (Z.ltb_spec k k').
    + rewrite (om_find_below Z.ltb k l); [reflexivity|]. eapply Forall_impl; [|exact HB]. intros a Ha. apply Z.ltb_lt in Ha. apply Z.ltb_lt. cbn [fst] in Ha. lia.
    + now rewrite (proj2 (Z.ltb_lt k' k)) by lia.
Qed.

(** The participants of a state, none of them itself. *)
Definition participants_ok (s : CMPSecretShare) : Prop := om_sorted Z.ltb (mapParticipant s) /\ om_find Z.ltb (nIdent s) (mapParticipant s) = None.

Lemma Distribute_ok s : ranges_ok s -> participants_ok s -> box_ok (myBox s) (nThresh s) ->
  returns (Distribute d s []) (fun m => forall k p, om_find Z.ltb k (mapParticipant s) = Some p ->
    om_find Z.ltb k m = Some (map (Encrypt p) (values (myBox s) (nThresh s) (part_nIndex p) (cand_nWeight (candidate p))))).
Proof.
  intros HR [HS HM] HB. assert (H1 : forall k p, In (k, p) (mapParticipant s) -> encrypted_shares d s p = Ok (map (Encrypt p) (values (myBox s) (nThresh s) (part_nIndex p) (cand_nWeight (candidate p))))).
  { intros k p HI. apply (om_in_find Z.ltb) in HI; [|exact HS]. apply (encrypted_shares_ok s k); auto. intros ->. congruence. }
  unfold Distribute. set (work := map snd (mapParticipant s)). set (ks := map fst (mapParticipant s)). set (old := map _ ks).
  rewrite defined_ok by (intros p Hp; apply in_map_iff in Hp as ([k q] & <- & HI); eauto). cbn [returns]. intros k p Hp.
  destruct (Transform_ok _ _ (answer (encrypted_shares d s)) work old) as (_ & _ & HT & HF); [unfold work, old, ks; now rewrite !length_map|].
  rewrite HT in HF. assert (HA : forallb (fun a => match answer (encrypted_shares d s) a with Some _ => true | None => false end) work = true).
  { apply forallb_forall. intros q Hq. apply in_map_iff in Hq as ([k' q'] & <- & HI). unfold answer. cbn [snd]. now rewrite (H1 k' q' HI). }
  specialize (HF HA). clear HT HA. set (outs := fst _) in *.
  assert (HF2 : Forall2 (fun kv w => snd kv = snd kv /\ answer (encrypted_shares d s) (snd kv) = Some w) (mapParticipant s) outs).
  { clear - HF. unfold work in HF. revert HF. generalize outs. induction (mapParticipant s) as [|a l IH]; intros o HF; inversion HF; subst; constructor; auto. }
  assert (HSo : forall vs : list (list Z), om_sorted Z.ltb (combine ks vs)) by (intros; now apply om_sorted_combine).
  destruct (store_all_find [] ks old k ltac:(constructor) (HSo old)) as [S1 _].
  destruct (store_all_find (store_all ks old []) ks outs k S1 (HSo outs)) as [_ ->].
  pose proof (find_combine (fun _ q w => q = q /\ answer (encrypted_shares d s) q = Some w) (mapParticipant s) outs k HF2) as HC. rewrite Hp in HC.
  destruct HC as (w & Hw & _ & Ha). fold ks in Hw. rewrite Hw. unfold answer in Ha. rewrite (H1 k p) in Ha by now apply (om_find_in Z.ltb). now injection Ha as <-.
Qed.

Lemma commits_accepts b c x : commits b c -> 1 <= x <= 51 -> x < Z.of_nat (length (vEncryptedShare b)) -> VerifyPolynomial b x (peval c x mod ell) = true.
Proof. intros HC Hx HL. unfold VerifyPolynomial. rewrite (proj2 (Z.leb_gt _ _)) by lia. now rewrite (HC x Hx HL), Z.eqb_refl. Qed.

Lemma values_enum b thresh i w x v : In (x, v) (enum i (values b thresh i w)) -> v = peval (dealt_poly b thresh) x mod ell.
Proof.
  unfold values. set (f := fun y => peval (dealt_poly b thresh) y mod ell). change (In (x, v) (enum i (map (fun j => f (i + Z.of_nat j)) (seq 0 (Z.to_nat w)))) -> v = f x).
  generalize (Z.to_nat w). intros n. revert i. induction n as [|n IH]; intros i H; [contradiction|]. cbn [seq map] in H. rewrite enum_cons in H.
  destruct H as [[= <- <-]|H]; [now rewrite Z.add_0_r|]. apply (IH (i + 1)). rewrite <- seq_shift, map_map in H.
  rewrite (map_ext _ (fun j => f (i + 1 + Z.of_nat j))) in H; [exact H|]. intros j. f_equal. lia.
Qed.

(** What the dealer [sd] distributes to [sr], the receiver accepts and keeps. *)
Lemma Accept_ok sd sr p q : ranges_ok sd -> participants_ok sd -> participants_ok sr -> box_ok (myBox sd) (nThresh sd) ->
  om_find Z.ltb (nIdent sr) (mapParticipant sd) = Some p -> om_find Z.ltb (nIdent sd) (mapParticipant sr) = Some q ->
  nSharedKey p = nSharedKey q -> part_nIndex p = nIndex sr -> cand_nWeight (candidate p) = nWeight sr -> 0 < nWeight sr -> vShare q = [] ->
  commits (sBox (candidate q)) (dealt_poly (myBox sd) (nThresh sd)) -> nIndex sr + nWeight sr <= Z.of_nat (length (vEncryptedShare (sBox (candidate q)))) ->
  let shares := values (myBox sd) (nThresh sd) (nIndex sr) (nWeight sr) in
  Accept sr (nIdent sd) (map (Encrypt p) shares) = (set_participants sr (om_set Z.ltb (nIdent sd) (set_share q shares) (mapParticipant sr)), true).
Proof.
  intros [HR _] [_ HMd] [HSr HMr] HB Hp Hq HK Hi Hw Hpos HV HC HL shares. unfold Accept. rewrite length_map.
  assert (Hlen : Z.of_nat (length shares) = nWeight sr) by (unfold shares, values; rewrite length_map, length_seq; lia).
  rewrite Hlen, Z.eqb_refl, Hq. unfold AcceptShare. rewrite HV, length_map. destruct shares as [|s0 shares'] eqn:Es; [cbn in Hlen; lia|]. rewrite <- Es in *.
  replace (Nat.eqb (length (@nil Z)) (length shares)) with false by (rewrite Es; reflexivity).
  rewrite (accept_loop_ok p q shares HK); [reflexivity|]. intros x v Hx.
  assert (Hr : 1 <= x <= 51).
  { apply (HR (nIdent sr)). apply enum_in in Hx. exists (nIndex sr), (nWeight sr). split; [|lia]. unfold GetParticipantRange.
    destruct (Z.eqb_spec (nIdent sr) (nIdent sd)) as [Ee|_]; [rewrite Ee in Hp; congruence|]. now rewrite Hp, Hi, Hw. }
  pose proof (enum_in _ _ _ _ Hx). unfold uint32. rewrite Z.mod_small by lia. rewrite (values_enum _ _ _ _ _ _ Hx). apply commits_accepts; [exact HC|exact Hr|lia].
Qed.
End Collecting.
