(* ===== verification/EnrollOk.v ===== *)
(** * Enrolment gives every participant its own arguments

    The indexes that [Enroll] hands out are consecutive ranges of the weights of the own
    entry and of the candidates that verify, and the threshold is more than half of their
    sum.  Enrolment is defined when every key is a point and every box has enough
    coefficients. *)

From Stdlib Require Import ZArith List Lia Bool Sorted.
From S2P Require Import Prelude Radix Parallel OrdMap MpBox MpBoxOk Mpvss MpvssOk.
Import ListNotations.
Local Open Scope Z_scope.

(** The ranges from [a] to [b], with the participant of each. *)
Inductive consecutive : Z -> list (Z * (Z * Z)) -> Z -> Prop :=
| consecutive_nil a : consecutive a [] a
| consecutive_cons a k w l b : 0 <= w -> consecutive (a + w) l b -> consecutive a ((k, (a, w)) :: l) b.

Lemma consecutive_le a l b : consecutive a l b -> a <= b.
Proof. induction 1; lia. Qed.

Lemma consecutive_in a l b k i w : consecutive a l b -> In (k, (i, w)) l -> a <= i /\ i + w <= b /\ 0 <= w.
Proof.
  induction 1 as [|a k' w' l b Hw H IH]; intros HI; [contradiction|]. pose proof (consecutive_le _ _ _ H). destruct HI as [[= <- <- <-]|HI]; [lia|]. specialize (IH HI). lia.
Qed.

Lemma consecutive_disjoint a l b k i w k' i' w' x : consecutive a l b -> NoDup (map fst l) -> In (k, (i, w)) l -> In (k', (i', w')) l ->
  i <= x < i + w -> i' <= x < i' + w' -> k = k'.
Proof.
  induction 1 as [|a k0 w0 l b Hw H IH]; intros ND H1 H2 Hx Hx'; [contradiction|]. cbn [map] in ND. apply NoDup_cons_iff in ND as [_ ND].
  destruct H1 as [[= -> <- <-]|H1], H2 as [[= -> <- <-]|H2]; [reflexivity| | |auto];
    [pose proof (consecutive_in _ _ _ _ _ _ H H2)|pose proof (consecutive_in _ _ _ _ _ _ H H1)]; lia.
Qed.

Definition ident_of (c : CMPCandidate) : Z := cand_nIdent c.

Definition total (cs : list CMPCandidate) : Z := fold_right (fun c t => cand_nWeight c + t) 0 cs.

Lemma weights_nonneg cs : Forall (fun c => 0 <= cand_nWeight c) cs -> 0 <= total cs.
Proof. unfold total. induction 1; cbn; lia. Qed.

Section Enrolling.

Context {E : Edwards25519} {N : Sodium} {PC : ParallelComputer} {PCok : ParallelComputer_ok PC}.

(** ** The first loop *)

(** A pointer and its candidate, for the own identity [me] and the participants [m]. *)
Definition pointer_ok (me : Z) (box : CMPOpenedBox) (m : list (Z * CMPParticipant)) (p : pointer) (c : CMPCandidate) : Prop :=
  match p with
  | Null => cand_nIdent c <> me /\ sealed_IsNull (sBox c) = true
  | Self => cand_nIdent c = me
  | At k => k = cand_nIdent c /\ k <> me /\ nPubKey (sBox c) <> 0 /\
      om_find Z.ltb k m = Some (participant_new c (SharedKey box (nPubKey (sBox c))))
  end.

Lemma pointer_ok_find me box m m' p c : (forall k, k = cand_nIdent c -> om_find Z.ltb k m' = om_find Z.ltb k m) -> pointer_ok me box m p c -> pointer_ok me box m' p c.
Proof. intros H. destruct p as [| |k]; cbn; auto. intros (-> & H1 & H2 & H3). rewrite H by reflexivity. auto. Qed.

Record added (s s1 : CMPSecretShare) (ps : list pointer) (cs : list CMPCandidate) : Prop := {
  added_same : nIdent s1 = nIdent s /\ myBox s1 = myBox s /\ nIndex s1 = nIndex s /\ mapOpenedShare s1 = mapOpenedShare s;
  added_sorted : om_sorted Z.ltb (mapParticipant s1);
  added_pointers : Forall2 (pointer_ok (nIdent s) (myBox s) (mapParticipant s1)) ps cs;
  added_old : forall k p, om_find Z.ltb k (mapParticipant s) = Some p -> om_find Z.ltb k (mapParticipant s1) = Some p;
  added_keys : forall k p, om_find Z.ltb k (mapParticipant s1) = Some p -> om_find Z.ltb k (mapParticipant s) = Some p \/ In (At k) ps;
  added_weight : (forall c, In c cs -> cand_nIdent c = nIdent s -> nWeight s1 = cand_nWeight c) /\
    (~ In (nIdent s) (map ident_of cs) -> nWeight s1 = nWeight s) }.

Lemma enroll_add_ok cs : forall s, NoDup (map ident_of cs) -> om_sorted Z.ltb (mapParticipant s) ->
  (forall k, In k (map ident_of cs) -> om_find Z.ltb k (mapParticipant s) = None) -> added s (fst (enroll_add s cs)) (snd (enroll_add s cs)) cs.
Proof.
  induction cs as [|c cs IH]; intros s ND HS HN; cbn [enroll_add].
  { split; auto. split; [contradiction|reflexivity]. }
  cbn [map] in ND. apply NoDup_cons_iff in ND as [Hc ND].
  assert (HN' : forall k, In k (map ident_of cs) -> om_find Z.ltb k (mapParticipant s) = None) by (intros; apply HN; now right).
  destruct (Z.eqb_spec (cand_nIdent c) (nIdent s)) as [Ec|Nc].
  - set (s' := set_range s (cand_nWeight c) (nIndex s) (nThresh s)). specialize (IH s' ND HS HN'). destruct (enroll_add s' cs) as [s1 ps]. cbn [fst snd] in *.
    destruct IH as [I1 I2 I3 I4 I5 [I6 I7]]. split; [exact I1|exact I2|constructor; [exact Ec|exact I3]|exact I4| |].
    + intros k p Hk. cbn. destruct (I5 k p Hk); auto.
    + cbn in *. split; [|intros H; exfalso; apply H; left; exact Ec]. intros c' [<-|Hc'] E'; [|now apply I6]. apply I7. intros H. apply Hc. unfold ident_of at 1. now rewrite Ec.
  - rewrite (HN (cand_nIdent c)) by now left.
    assert (HNull : sealed_IsNull (sBox c) = true -> added s (fst (enroll_add s cs)) (Null :: snd (enroll_add s cs)) (c :: cs)).
    { intros EN. specialize (IH s ND HS HN'). destruct (enroll_add s cs) as [s1 ps]. cbn [fst snd] in *. destruct IH as [I1 I2 I3 I4 I5 [I6 I7]]. split; [exact I1|exact I2|constructor; [now split|exact I3]|exact I4| |].
      + intros k p Hk. cbn. destruct (I5 k p Hk); auto.
      + cbn in *. split; [intros c' [<-|Hc'] E'; [contradiction|now apply I6]|]. intros H. apply I7. tauto. }
    unfold sealed_PubKey. destruct (sealed_IsNull (sBox c)) eqn:EN; [destruct (enroll_add s cs); exact (HNull eq_refl)|].
    set (q := participant_new c _). set (s' := set_participants s (om_set Z.ltb (cand_nIdent c) q (mapParticipant s))).
    assert (HS' : om_sorted Z.ltb (mapParticipant s')) by (cbn; now apply (om_set_sorted Z.ltb)).
    assert (HN2 : forall k, In k (map ident_of cs) -> om_find Z.ltb k (mapParticipant s') = None).
    { intros k Hk. cbn. rewrite (om_find_set_ne Z.ltb); [now apply HN'|exact HS|]. intros ->. contradiction. }
    specialize (IH s' ND HS' HN2). destruct (enroll_add s' cs) as [s1 ps]. cbn [fst snd] in *. destruct IH as [I1 I2 I3 I4 I5 [I6 I7]]. split; [exact I1|exact I2|constructor; [|exact I3]| | |]; cbn in *.
    + split; [reflexivity|]. split; [exact Nc|]. split.
      * unfold sealed_IsNull in EN. destruct (vEncryptedCoeff (sBox c)); [discriminate EN|]. now apply Z.eqb_neq.
      * apply I4. now apply (om_find_set_eq Z.ltb).
    + intros k p Hk. apply I4. rewrite (om_find_set_ne Z.ltb); [exact Hk|exact HS|]. intros ->. rewrite HN in Hk by now left. discriminate Hk.
    + intros k p Hk. destruct (I5 k p Hk) as [H|H]; [|auto]. destruct (Z.eq_dec k (cand_nIdent c)) as [->|Nk]; [auto|].
      rewrite (om_find_set_ne Z.ltb) in H by assumption. auto.
    + split; [intros c' [<-|Hc'] E'; [contradiction|now apply I6]|]. intros H. apply I7. tauto.
Qed.

(** ** The second loop *)

Definition keys_of (ps : list pointer) : list Z := flat_map (fun p => match p with At k => [k] | _ => [] end) ps.

Lemma keys_of_in k ps : In k (keys_of ps) <-> In (At k) ps.
Proof.
  unfold keys_of. rewrite in_flat_map. split.
  - intros ([| |k'] & HI & H); cbn in H; try contradiction. destruct H as [->|[]]. exact HI.
  - intros HI. exists (At k). split; [exact HI|now left].
Qed.

Record indexed (me : Z) (m0 m : list (Z * CMPParticipant)) (ps : list pointer) (cs : list CMPCandidate) (index last : Z)
  (ps' : list pointer) (index' : Z) (m' : list (Z * CMPParticipant)) (last' : Z) (spans : list (Z * (Z * Z))) : Prop := {
  indexed_spans : consecutive last spans last' /\ NoDup (map fst spans) /\ incl (map fst spans) (map ident_of cs);
  indexed_last : last' <= last + total cs;
  indexed_sorted : om_sorted Z.ltb m';
  indexed_in : forall k c, In (At k) ps -> In c cs -> cand_nIdent c = k ->
    match om_find Z.ltb k m' with
    | Some p => verify_pointer m0 (At k) = true /\ candidate p = c /\ In (k, (part_nIndex p, cand_nWeight c)) spans /\ In (At k) ps'
    | None => verify_pointer m0 (At k) = false
    end;
  indexed_out : forall k, ~ In (At k) ps -> om_find Z.ltb k m' = om_find Z.ltb k m;
  indexed_self : (forall c, In c cs -> cand_nIdent c = me -> In (me, (index', cand_nWeight c)) spans) /\ (~ In me (map ident_of cs) -> index' = index);
  indexed_left : NoDup (keys_of ps') /\ forall k, In (At k) ps' -> In (At k) ps }.

Lemma pointer_key me box m p c k : pointer_ok me box m p c -> p = At k -> k = cand_nIdent c.
Proof. intros H ->. apply H. Qed.

Lemma pointers_key me box m ps cs k : Forall2 (pointer_ok me box m) ps cs -> In (At k) ps -> In k (map ident_of cs).
Proof. induction 1 as [|p c ps cs H HF IH]; intros HI; [contradiction|]. destruct HI as [->|HI]; [left; symmetry; eapply pointer_key; eauto|right; auto]. Qed.

Lemma pointers_find me box m m' ps cs : (forall k, In k (map ident_of cs) -> om_find Z.ltb k m' = om_find Z.ltb k m) ->
  Forall2 (pointer_ok me box m) ps cs -> Forall2 (pointer_ok me box m') ps cs.
Proof.
  intros H HF. induction HF as [|p c ps cs Hp HF IH]; constructor; [|apply IH; intros; apply H; now right].
  eapply pointer_ok_find; [|exact Hp]. intros k ->. apply H. now left.
Qed.

(** The keys of the candidates are points: the shared keys are not 0. *)
Definition keys_valid (me : Z) (box : CMPOpenedBox) (cs : list CMPCandidate) : Prop :=
  forall c, In c cs -> cand_nIdent c <> me -> nPubKey (sBox c) <> 0 -> SharedKey box (nPubKey (sBox c)) <> 0.

(** One round: from the rest of the candidates to all of them. *)
Section Round.

Variables (me : Z) (m0 m : list (Z * CMPParticipant)) (c : CMPCandidate) (cs : list CMPCandidate) (ps : list pointer) (index last : Z).
Hypotheses (fresh : ~ In (cand_nIdent c) (map ident_of cs)) (fresh_pointer : ~ In (At (cand_nIdent c)) ps) (weight : 0 <= cand_nWeight c).
Variables (ps' : list pointer) (index' : Z) (m' : list (Z * CMPParticipant)) (last' : Z) (spans : list (Z * (Z * Z))).

Lemma ident_in c' k : In c' cs -> cand_nIdent c' = k -> In k (map ident_of cs).
Proof. intros H <-. now apply (in_map ident_of). Qed.

Lemma total_cons : total (c :: cs) = cand_nWeight c + total cs.
Proof. reflexivity. Qed.

(** No range for [c], whose pointer is dropped. *)
Lemma indexed_skip p m1 : cand_nIdent c <> me -> (p = Null /\ m1 = m \/ p = At (cand_nIdent c) /\ m1 = om_erase Z.ltb (cand_nIdent c) m /\ verify_pointer m0 p = false) ->
  om_sorted Z.ltb m -> indexed me m0 m1 ps cs index last ps' index' m' last' spans -> indexed me m0 m (p :: ps) (c :: cs) index last (Null :: ps') index' m' last' spans.
Proof.
  intros Nme HP HS [(J1 & J2 & J3) I2 I3 I4 I5 [I6 I6'] [I7 I8]]. split.
  - split; [exact J1|split; [exact J2|]]. intros x Hx. right. auto.
  - rewrite total_cons. lia.
  - exact I3.
  - intros k c' HI [<-|Hc'] Ek.
    + destruct HP as [[-> ->]|(-> & -> & EV)]; [destruct HI as [HI|HI]; [discriminate HI|rewrite <- Ek in HI; contradiction]|].
      subst k. rewrite I5 by exact fresh_pointer. now rewrite (om_find_erase_eq Z.ltb).
    + destruct HI as [HI|HI]; [|specialize (I4 k c' HI Hc' Ek); destruct (om_find Z.ltb k m'); [|exact I4]; destruct I4 as (A & B & C & D); split; [exact A|split; [exact B|split; [exact C|now right]]]].
      exfalso. destruct HP as [[-> _]|(-> & _)]; [discriminate HI|]. injection HI as HE. apply fresh. rewrite HE. eapply ident_in; eauto.
  - intros k HN. rewrite I5 by (intros HI; apply HN; now right). destruct HP as [[-> ->]|(-> & -> & _)]; [reflexivity|].
    apply (om_find_erase_ne Z.ltb); [exact HS|]. intros ->. apply HN. now left.
  - split; [intros c' [<-|Hc'] Ec; [contradiction|now apply I6]|]. intros HN. apply I6'. intros HI. apply HN. now right.
  - split; [exact I7|]. intros k [HI|HI]; [discriminate HI|]. right. auto.
Qed.

(** The own entry takes the next range. *)
Lemma indexed_own : cand_nIdent c = me -> indexed me m0 m ps cs last (last + cand_nWeight c) ps' index' m' last' spans ->
  indexed me m0 m (Self :: ps) (c :: cs) index last (Null :: ps') index' m' last' ((me, (last, cand_nWeight c)) :: spans).
Proof.
  intros Eme [(J1 & J2 & J3) I2 I3 I4 I5 [I6 I6'] [I7 I8]]. assert (Hme : ~ In me (map ident_of cs)) by now rewrite <- Eme. split.
  - split; [now constructor|]. cbn [map fst]. split; [constructor; [intros HI; apply Hme, J3, HI|exact J2]|]. intros x [<-|Hx]; [left; exact Eme|right; auto].
  - rewrite total_cons. lia.
  - exact I3.
  - intros k c' [HI|HI] Hc' Ek; [discriminate HI|]. destruct Hc' as [<-|Hc']; [rewrite <- Ek in HI; contradiction|]. specialize (I4 k c' HI Hc' Ek).
    destruct (om_find Z.ltb k m') as [q|]; [|exact I4]. destruct I4 as (A & B & C). destruct C as [C D]. split; [exact A|split; [exact B|split; now right]].
  - intros k HN. apply I5. intros HI. apply HN. now right.
  - split; [|intros HN; exfalso; apply HN; left; exact Eme]. intros c' [<-|Hc'] Ec; [left; now rewrite (I6' Hme)|]. exfalso. apply Hme. eapply ident_in; eauto.
  - split; [exact I7|]. intros k [HI|HI]; [discriminate HI|]. right. auto.
Qed.

(** A verified participant takes the next range. *)
Lemma indexed_keep q : cand_nIdent c <> me -> verify_pointer m0 (At (cand_nIdent c)) = true -> candidate q = c -> part_nIndex q = last -> om_sorted Z.ltb m ->
  indexed me m0 (om_set Z.ltb (cand_nIdent c) q m) ps cs index (last + cand_nWeight c) ps' index' m' last' spans ->
  indexed me m0 m (At (cand_nIdent c) :: ps) (c :: cs) index last (At (cand_nIdent c) :: ps') index' m' last' ((cand_nIdent c, (last, cand_nWeight c)) :: spans).
Proof.
  intros Nme EV Eq Ei HS [(J1 & J2 & J3) I2 I3 I4 I5 [I6 I6'] [I7 I8]]. split.
  - split; [now constructor|]. cbn [map fst]. split; [constructor; [intros HI; apply fresh, J3, HI|exact J2]|]. intros x [<-|Hx]; [now left|right; auto].
  - rewrite total_cons. lia.
  - exact I3.
  - intros k c' HI [<-|Hc'] Ek.
    + subst k. rewrite I5 by exact fresh_pointer. rewrite (om_find_set_eq Z.ltb) by exact HS. split; [exact EV|split; [exact Eq|split; [left; now rewrite Ei|now left]]].
    + destruct HI as [[= HE]|HI]; [exfalso; apply fresh; rewrite HE; eapply ident_in; eauto|]. specialize (I4 k c' HI Hc' Ek).
      destruct (om_find Z.ltb k m') as [p|]; [|exact I4]. destruct I4 as (A & B & C). destruct C as [C D]. split; [exact A|split; [exact B|split; now right]].
  - intros k HN. rewrite I5 by (intros HI; apply HN; now right). apply (om_find_set_ne Z.ltb); [exact HS|]. intros ->. apply HN. now left.
  - split; [intros c' [<-|Hc'] Ec; [contradiction|right; now apply I6]|]. intros HN. apply I6'. intros HI. apply HN. now right.
  - split; [constructor; [rewrite keys_of_in; auto|exact I7]|]. intros k [[= <-]|HI]; [now left|right; auto].
Qed.

End Round.

Lemma enroll_index_ok me box m0 cs : forall ps index m last,
  Forall2 (pointer_ok me box m) ps cs -> NoDup (map ident_of cs) -> om_sorted Z.ltb m -> Forall (fun c => 0 <= cand_nWeight c) cs ->
  0 <= last -> last + total cs < 2 ^ 64 -> keys_valid me box cs ->
  exists ps' index' m' last' spans, enroll_index ps cs (map (verify_pointer m0) ps) index m last = Ok (ps', index', m', last') /\
    indexed me m0 m ps cs index last ps' index' m' last' spans.
Proof.
  induction cs as [|c cs IH]; intros ps index m last HF ND HS HW HL HT HK; inversion HF as [|p c0 ps0 cs0 Hp HF' E1 E2]; subst; cbn [enroll_index map].
  { exists [], index, m, last, []. split; [reflexivity|]. split; [split; [constructor|split; [constructor|easy]]|cbn; lia|exact HS|contradiction|reflexivity|split; [contradiction|reflexivity]|split; [constructor|auto]]. }
  cbn [map] in ND. apply NoDup_cons_iff in ND as [Hc ND]. apply Forall_cons_iff in HW as [Hw HW]. rewrite total_cons in HT. pose proof (weights_nonneg cs HW).
  assert (HK' : keys_valid me box cs) by (intros c' Hc'; apply HK; now right).
  assert (HNin : ~ In (At (cand_nIdent c)) ps0) by (intros HI; apply Hc; eapply pointers_key; eauto).
  assert (ES : size_t (last + cand_nWeight c) = last + cand_nWeight c) by (unfold size_t; apply Z.mod_small; lia).
  destruct p as [| |k]; cbn [pointer_ok] in Hp.
  - cbn [bind]. destruct (IH ps0 index m last HF' ND HS HW HL ltac:(lia) HK') as (ps' & index' & m' & last' & spans & -> & I). cbn [bind].
    do 5 eexists. split; [reflexivity|]. eapply (indexed_skip me m0 m c cs ps0); eauto; apply Hp.
  - rewrite ES. cbn [bind]. destruct (IH ps0 last m (last + cand_nWeight c) HF' ND HS HW ltac:(lia) ltac:(lia) HK') as (ps' & index' & m' & last' & spans & -> & I).
    cbn [bind]. do 5 eexists. split; [reflexivity|]. eapply (indexed_own me m0 m c cs ps0); eauto.
  - destruct Hp as (-> & Nme & Hpk & Hq). rewrite Hq.
    assert (Hn0 : participant_IsNull (participant_new c (SharedKey box (nPubKey (sBox c)))) = false).
    { apply Z.eqb_neq. apply HK; [now left|exact Nme|exact Hpk]. }
    rewrite Hn0. cbn [participant_new candidate]. destruct (verify_pointer m0 (At (cand_nIdent c))) eqn:EV; cbn [negb bind].
    + rewrite ES. set (q := set_index _ last). set (m1 := om_set Z.ltb (cand_nIdent c) q m). assert (HS1 : om_sorted Z.ltb m1) by now apply (om_set_sorted Z.ltb).
      assert (HF1 : Forall2 (pointer_ok me box m1) ps0 cs).
      { eapply pointers_find; [|exact HF']. intros k Hk. apply (om_find_set_ne Z.ltb); [exact HS|]. intros ->. contradiction. }
      destruct (IH ps0 index m1 (last + cand_nWeight c) HF1 ND HS1 HW ltac:(lia) ltac:(lia) HK') as (ps' & index' & m' & last' & spans & -> & I).
      cbn [bind]. do 5 eexists. split; [reflexivity|]. exact (indexed_keep me m0 m c cs ps0 index last Hc HNin Hw ps' index' m' last' spans q Nme EV eq_refl eq_refl HS I).
    + set (m1 := om_erase Z.ltb _ m). assert (HS1 : om_sorted Z.ltb m1) by now apply (om_erase_sorted Z.ltb).
      assert (HF1 : Forall2 (pointer_ok me box m1) ps0 cs).
      { eapply pointers_find; [|exact HF']. intros k Hk. apply (om_find_erase_ne Z.ltb); [exact HS|]. intros ->. contradiction. }
      destruct (IH ps0 index m1 last HF1 ND HS1 HW HL ltac:(lia) HK') as (ps' & index' & m' & last' & spans & -> & I).
      cbn [bind]. do 5 eexists. split; [reflexivity|]. eapply (indexed_skip me m0 m c cs ps0); eauto.
Qed.

(** ** The preparation of the boxes *)

Lemma unpack_coeffs_ok n : forall coeffs, (n <= length coeffs)%nat -> exists vP, unpack_coeffs n coeffs = Ok vP /\ length vP = n.
Proof.
  induction n as [|n IH]; intros coeffs HL; cbn [unpack_coeffs]; [now exists []|]. destruct coeffs as [|c coeffs]; [cbn in HL; lia|].
  destruct (IH coeffs) as (vP & -> & HP); [cbn in HL; lia|]. cbn [bind]. eexists. split; [reflexivity|]. cbn. now rewrite HP.
Qed.

Lemma share_point_ok x vP : 1 <= x <= 51 -> forall i P, 1 <= i -> i + Z.of_nat (length vP) <= 27 -> exists Q, share_point i x vP P = Ok Q.
Proof.
  intros Hx. induction vP as [|Q vP IH]; intros i P Hi HL; cbn [share_point length] in *; [now exists P|].
  destruct (power_table x i Hx ltac:(lia)) as (v & -> & _). cbn [bind]. apply IH; lia.
Qed.

Lemma share_points_ok n vP : (1 <= length vP <= 27)%nat -> forall x shares, 1 <= x -> x + Z.of_nat n <= 52 ->
  exists shares', share_points n x vP shares = Ok shares' /\ length shares' = length shares.
Proof.
  intros HP. induction n as [|n IH]; intros x shares Hx HL; cbn [share_points]; [now exists shares|].
  destruct vP as [|P0 vP']; [cbn in HP; lia|]. destruct (share_point_ok x vP' ltac:(lia) 1 P0 ltac:(lia)) as [Q ->]; [cbn in HP; lia|]. cbn [bind].
  destruct (IH (x + 1) (upd shares (Z.to_nat x) (Pack Q)) ltac:(lia) ltac:(lia)) as (sh & -> & HE). exists sh. split; [reflexivity|]. now rewrite HE, length_upd.
Qed.

Lemma length_resize {A} n (a : A) l : length (resize n a l) = n.
Proof. unfold resize. rewrite length_app, length_firstn, repeat_length. lia. Qed.

Lemma PrepareVerification_ok p thresh last : 1 <= thresh <= 27 -> thresh <= Z.of_nat (length (vEncryptedCoeff (sBox (candidate p)))) -> 1 <= last <= 52 ->
  exists b, PrepareVerification p thresh last = Ok (set_box p b) /\ Z.of_nat (length (vEncryptedShare b)) = last /\
    vEncryptedCoeff b = vEncryptedCoeff (sBox (candidate p)) /\ nPubKey b = nPubKey (sBox (candidate p)).
Proof.
  intros Ht HL Hl. unfold PrepareVerification, PrecalcPolynomial.
  destruct (unpack_coeffs_ok (Z.to_nat thresh) (vEncryptedCoeff (sBox (candidate p))) ltac:(lia)) as (vP & -> & HP). cbn [bind].
  destruct (share_points_ok (Z.to_nat (last - 1)) vP ltac:(lia) 1 (resize (Z.to_nat last) 0 (vEncryptedShare (sBox (candidate p)))) ltac:(lia) ltac:(lia)) as (sh & -> & HE).
  cbn [bind]. eexists. split; [reflexivity|]. cbn. rewrite length_resize in HE. repeat split. lia.
Qed.

Lemma store_all_in {V} (l : list (Z * V)) : NoDup (map fst l) -> forall m, om_sorted Z.ltb m ->
  let m' := fold_left (fun m kv => om_set Z.ltb (fst kv) (snd kv) m) l m in
  om_sorted Z.ltb m' /\ (forall k v, In (k, v) l -> om_find Z.ltb k m' = Some v) /\ (forall k, ~ In k (map fst l) -> om_find Z.ltb k m' = om_find Z.ltb k m).
Proof.
  induction l as [|[k0 v0] l IH]; intros ND m HS; cbn [fold_left fst snd map] in *; [split; [exact HS|split; [contradiction|reflexivity]]|].
  apply NoDup_cons_iff in ND as [N0 ND]. destruct (IH ND (om_set Z.ltb k0 v0 m)) as (I1 & I2 & I3); [now apply (om_set_sorted Z.ltb)|].
  split; [exact I1|split].
  - intros k v [[= <- <-]|HI]; [rewrite I3 by exact N0; now apply (om_find_set_eq Z.ltb)|now apply I2].
  - intros k HN. rewrite I3 by (intros HI; apply HN; now right). apply (om_find_set_ne Z.ltb); [exact HS|]. intros ->. apply HN. now left.
Qed.

Lemma pointed_in m ps k q : In (k, q) (pointed m ps) <-> In (At k) ps /\ om_find Z.ltb k m = Some q.
Proof.
  unfold pointed. rewrite in_flat_map. split.
  - intros ([| |k'] & HI & H); cbn in H; try contradiction. destruct (om_find Z.ltb k' m) as [q'|] eqn:Ef; [|contradiction]. destruct H as [[= <- <-]|[]]. now split.
  - intros [HI Hq]. exists (At k). split; [exact HI|]. rewrite Hq. now left.
Qed.

Lemma pointed_nodup m ps : NoDup (keys_of ps) -> NoDup (map fst (pointed m ps)).
Proof.
  induction ps as [|[| |k] ps IH]; intros ND; cbn in *; auto. apply NoDup_cons_iff in ND as [N0 ND].
  destruct (om_find Z.ltb k m) as [q|]; cbn; [|auto]. constructor; [|auto]. intros HI. apply in_map_iff in HI as ([k' q'] & <- & HI). apply pointed_in in HI as [HI _]. apply N0. now apply keys_of_in.
Qed.

(** ** Enrolment *)

(** What a verified candidate becomes. *)
Definition enrolled_as (c : CMPCandidate) (spans : list (Z * (Z * Z))) (last : Z) (p : CMPParticipant) : Prop :=
  Verify c = true /\ cand_nWeight (candidate p) = cand_nWeight c /\ In (cand_nIdent c, (part_nIndex p, cand_nWeight c)) spans /\
  Z.of_nat (length (vEncryptedShare (sBox (candidate p)))) = last /\ vEncryptedCoeff (sBox (candidate p)) = vEncryptedCoeff (sBox c).

Record enrolled (s s' : CMPSecretShare) (cs : list CMPCandidate) (spans : list (Z * (Z * Z))) (last : Z) : Prop := {
  enrolled_spans : consecutive 1 spans last /\ NoDup (map fst spans) /\ incl (map fst spans) (map ident_of cs) /\ last <= 1 + total cs;
  enrolled_thresh : nThresh s' = (last - 1) / 2 + 1;
  enrolled_same : nIdent s' = nIdent s /\ myBox s' = myBox s /\ mapOpenedShare s' = mapOpenedShare s;
  enrolled_participants : participants_ok s' /\ (forall k p, om_find Z.ltb k (mapParticipant s') = Some p -> In k (map ident_of cs)) /\
    (forall c, In c cs -> cand_nIdent c <> nIdent s ->
      match om_find Z.ltb (cand_nIdent c) (mapParticipant s') with Some p => enrolled_as c spans last p | None => Verify c = false end);
  enrolled_self : (In (nIdent s) (map ident_of cs) -> In (nIdent s, (nIndex s', nWeight s')) spans) /\
    (~ In (nIdent s) (map ident_of cs) -> nIndex s' = nIndex s /\ nWeight s' = nWeight s) }.

Definition enough_coeffs (me : Z) (cs : list CMPCandidate) : Prop :=
  forall c, In c cs -> cand_nIdent c <> me -> total cs / 2 + 1 <= Z.of_nat (length (vEncryptedCoeff (sBox c))).

(** Every pointer is verified as its candidate. *)
Lemma verify_pointers me box m ps cs k c : Forall2 (pointer_ok me box m) ps cs -> keys_valid me box cs -> NoDup (map ident_of cs) ->
  In c cs -> cand_nIdent c = k -> k <> me -> (In (At k) ps /\ verify_pointer m (At k) = Verify c) \/ (~ In (At k) ps /\ Verify c = false).
Proof.
  intros HF HK ND Hc Ek Nk. induction HF as [|p c0 ps cs Hp HF IH]; [contradiction|]. cbn [map] in ND. apply NoDup_cons_iff in ND as [N0 ND].
  assert (HK' : keys_valid me box cs) by (intros c' Hc'; apply HK; now right). destruct Hc as [->|Hc].
  - destruct p as [| |k']; cbn in Hp; [right|congruence|left].
    + split; [|unfold Verify, VerifySignature; now rewrite (proj2 Hp)]. intros [HI|HI]; [discriminate HI|]. apply N0. unfold ident_of at 1. rewrite Ek. eapply pointers_key; eauto.
    + destruct Hp as (-> & _ & Hpk & Hq). rewrite Ek in *. split; [now left|]. cbn [verify_pointer]. rewrite Hq. unfold participant_IsNull. cbn [participant_new nSharedKey candidate].
      rewrite (proj2 (Z.eqb_neq _ _)); [reflexivity|]. apply HK; [now left|now rewrite Ek|exact Hpk].
  - destruct (IH HK' ND Hc) as [[HI HV]|[HI HV]]; [left; split; [now right|exact HV]|right; split; [|exact HV]].
    intros [->|H]; [|contradiction]. cbn in Hp. apply N0. unfold ident_of at 1. destruct Hp as [<- _]. rewrite <- Ek. now apply (in_map ident_of).
Qed.

Lemma forall2_map {A B} (g : A -> B) l r : Forall2 (fun a b => Some (g a) = Some b) l r -> r = map g l.
Proof. induction 1 as [|a b l r H HF IH]; [reflexivity|]. cbn. injection H as <-. now rewrite IH. Qed.

Lemma transform_map {A B} (g : A -> B) l out : length out = length l -> fst (Transform (fun a => Some (g a)) l out) = map g l.
Proof.
  intros HL. destruct (Transform_ok _ _ (fun a => Some (g a)) l out HL) as (_ & _ & HB & HF). apply forall2_map. apply HF. rewrite HB.
  apply forallb_forall. reflexivity.
Qed.

(** The box is the only change. *)
Definition prepared (last : Z) (q q' : CMPParticipant) : Prop :=
  exists b, q' = set_box q b /\ Z.of_nat (length (vEncryptedShare b)) = last /\ vEncryptedCoeff b = vEncryptedCoeff (sBox (candidate q)).

Lemma prepare_all thresh last (work : list (Z * CMPParticipant)) : 1 <= thresh <= 27 -> 1 <= last <= 52 ->
  (forall k q, In (k, q) work -> thresh <= Z.of_nat (length (vEncryptedCoeff (sBox (candidate q))))) ->
  let prepare := fun kq : Z * CMPParticipant => PrepareVerification (snd kq) thresh last in
  defined prepare work = true /\ Forall2 (fun kq q' => prepared last (snd kq) q') work (fst (Execute (answer prepare) work (map snd work))).
Proof.
  intros Ht Hl HW prepare. assert (H1 : forall kq, In kq work -> exists q', prepare kq = Ok q' /\ prepared last (snd kq) q').
  { intros [k q] HI. destruct (PrepareVerification_ok q thresh last Ht (HW k q HI) Hl) as (b & Eb & H1 & H2 & _). exists (set_box q b). split; [exact Eb|]. now exists b. }
  split; [apply defined_ok; intros a Ha; destruct (H1 a Ha) as (q' & Eq & _); eauto|].
  destruct (Execute_ok _ _ (answer prepare) work (map snd work) (length_map _ _)) as (_ & _ & HB & HF).
  assert (HT : snd (Execute (answer prepare) work (map snd work)) = true).
  { rewrite HB. apply forallb_forall. intros a Ha. destruct (H1 a Ha) as (q' & Eq & _). unfold answer. now rewrite Eq. }
  specialize (HF HT). clear - HF H1. induction HF as [|a b l r H HF IH]; constructor; [|apply IH; intros; apply H1; now right].
  destruct (H1 a (or_introl eq_refl)) as (q' & Eq & Hp). unfold answer in H. rewrite Eq in H. injection H as <-. exact Hp.
Qed.

Lemma forall2_combine {A V} (R : A * V -> V -> Prop) (l : list (A * V)) r : Forall2 R l r ->
  map fst (combine (map fst l) r) = map fst l /\ forall k v, In (k, v) l -> exists v', In (k, v') (combine (map fst l) r) /\ R (k, v) v'.
Proof.
  induction 1 as [|[k0 v0] v' l r H HF [IH1 IH2]]; cbn; [split; [reflexivity|contradiction]|]. split; [now rewrite IH1|].
  intros k v [[= <- <-]|HI]; [exists v'; split; [now left|exact H]|]. destruct (IH2 k v HI) as (w & Hw & Hr). exists w. split; [now right|exact Hr].
Qed.

Lemma prepared_find m ps last qs : om_sorted Z.ltb m -> NoDup (keys_of ps) -> Forall2 (fun kq q' => prepared last (snd kq) q') (pointed m ps) qs ->
  let m' := store_all (map fst (pointed m ps)) qs m in om_sorted Z.ltb m' /\
  forall k, match om_find Z.ltb k m with
            | Some q => In (At k) ps -> exists q', om_find Z.ltb k m' = Some q' /\ prepared last q q'
            | None => om_find Z.ltb k m' = None
            end.
Proof.
  intros HS ND HF. destruct (forall2_combine _ _ _ HF) as [F1 F2].
  destruct (store_all_in (combine (map fst (pointed m ps)) qs) ltac:(rewrite F1; now apply pointed_nodup) m HS) as (S1 & S2 & S3).
  split; [exact S1|]. intros k. destruct (om_find Z.ltb k m) as [q|] eqn:Eq.
  - intros HI. destruct (F2 k q) as (q' & Hq & Hp); [now apply pointed_in|]. exists q'. split; [now apply S2|exact Hp].
  - rewrite <- Eq. apply S3. rewrite F1. intros HI. apply in_map_iff in HI as ([k' q'] & <- & HI). apply pointed_in in HI as [_ HI]. cbn [fst] in *. congruence.
Qed.

(** The participants after the first loop are the pointers of the candidates. *)
Lemma pointers_in me box m ps cs k : Forall2 (pointer_ok me box m) ps cs -> In (At k) ps -> exists c, In c cs /\ cand_nIdent c = k /\ k <> me.
Proof.
  intros AP HI. induction AP as [|p c ps cs Hp AP IH]; [contradiction|]. destruct HI as [->|HI].
  - exists c. cbn in Hp. destruct Hp as (-> & Hn & _). split; [now left|now split].
  - destruct (IH HI) as (c' & Hc' & H'). exists c'. split; [now right|exact H'].
Qed.

(** From the two loops to the new state. *)
Lemma enrolled_intro s s1 cs ps ps' index' m1 last spans m2 : mapParticipant s = [] -> NoDup (map ident_of cs) -> keys_valid (nIdent s) (myBox s) cs ->
  added s s1 ps cs -> indexed (nIdent s) (mapParticipant s1) (mapParticipant s1) ps cs (nIndex s1) 1 ps' index' m1 last spans ->
  om_sorted Z.ltb m2 -> (forall k, match om_find Z.ltb k m1 with Some q => In (At k) ps' -> exists q', om_find Z.ltb k m2 = Some q' /\ prepared last q q' | None => om_find Z.ltb k m2 = None end) ->
  enrolled s (set_participants (set_range s1 (nWeight s1) index' ((last - 1) / 2 + 1)) m2) cs spans last.
Proof.
  intros HE ND HK [(A1 & A2 & A3 & A4) AS AP AO AK [AW AW']] [(J1 & J2 & J3) I2 I3 I4 I5 [I6 I6'] [I7 I8]] S1 HM.
  assert (HN : forall k, ~ In (At k) ps -> om_find Z.ltb k m2 = None).
  { intros k HN. specialize (HM k). rewrite I5 in HM by exact HN. destruct (om_find Z.ltb k (mapParticipant s1)) as [q|] eqn:Eq; [|exact HM].
    destruct (AK k q Eq) as [H|H]; [rewrite HE in H; discriminate H|contradiction]. }
  assert (Hat : forall k p, om_find Z.ltb k m2 = Some p -> exists c, In c cs /\ cand_nIdent c = k /\ k <> nIdent s).
  { intros k p Hk. destruct (in_dec Z.eq_dec k (keys_of ps)) as [HI|HI]; [eapply pointers_in; [exact AP|now apply keys_of_in]|].
    rewrite HN in Hk by (now rewrite <- keys_of_in). discriminate Hk. }
  split; cbn [set_participants set_range nThresh nIdent myBox mapOpenedShare mapParticipant nIndex nWeight].
  - split; [exact J1|split; [exact J2|split; [exact J3|exact I2]]].
  - reflexivity.
  - now rewrite A1, A2, A4.
  - split; [split; [exact S1|]|split].
    + cbn. rewrite A1. destruct (om_find Z.ltb (nIdent s) m2) as [p|] eqn:Ep; [|reflexivity]. destruct (Hat _ _ Ep) as (c & _ & _ & Hn). contradiction.
    + intros k p Hk. destruct (Hat k p Hk) as (c & Hc & <- & _). now apply (in_map ident_of).
    + intros c Hc Nc. destruct (verify_pointers _ _ _ _ _ _ c AP HK ND Hc eq_refl Nc) as [[HI HV]|[HI HV]]; [|now rewrite HN].
      specialize (I4 _ c HI Hc eq_refl). specialize (HM (cand_nIdent c)). destruct (om_find Z.ltb (cand_nIdent c) m1) as [q|]; [|rewrite HM; congruence].
      destruct I4 as (V & Eq & Hs & Hp'). destruct (HM Hp') as (q' & -> & b & -> & Hb & Hcf). unfold enrolled_as. cbn. rewrite <- Eq at 2. rewrite Eq in *. rewrite HV in V. auto.
  - split.
    + intros HI. apply in_map_iff in HI as (c & Ec & Hc). rewrite (AW c Hc Ec). now apply I6.
    + intros HI. rewrite (I6' HI), (AW' HI). now split.
Qed.

Lemma Enroll_ok s cs : mapParticipant s = [] -> NoDup (map ident_of cs) -> Forall (fun c => 0 <= cand_nWeight c) cs -> total cs <= 51 ->
  keys_valid (nIdent s) (myBox s) cs -> enough_coeffs (nIdent s) cs ->
  returns (Enroll s cs) (fun s' => exists spans last, enrolled s s' cs spans last).
Proof.
  intros HE ND HW HT HK HC. pose proof (enroll_add_ok cs s ND ltac:(rewrite HE; constructor) ltac:(intros; now rewrite HE)) as A.
  unfold Enroll. destruct (enroll_add s cs) as [s1 ps]. cbn [fst snd] in A. pose proof (added_pointers _ _ _ _ A) as AP.
  rewrite transform_map by apply repeat_length. pose proof (weights_nonneg cs HW) as HTn.
  destruct (enroll_index_ok (nIdent s) (myBox s) (mapParticipant s1) cs ps (nIndex s1) (mapParticipant s1) 1 AP ND (added_sorted _ _ _ _ A) HW ltac:(lia) ltac:(lia) HK)
    as (ps' & index' & m1 & last & spans & -> & I). cbn [bind]. destruct (indexed_spans _ _ _ _ _ _ _ _ _ _ _ _ I) as (J1 & _ & _).
  pose proof (consecutive_le _ _ _ J1) as HL1. pose proof (indexed_last _ _ _ _ _ _ _ _ _ _ _ _ I) as HL2.
  assert (ES : size_t (last - 1) = last - 1) by (unfold size_t; apply Z.mod_small; lia). rewrite ES. set (thresh := (last - 1) / 2 + 1).
  assert (HTh : 1 <= thresh <= 27 /\ thresh <= total cs / 2 + 1).
  { assert (0 <= (last - 1) / 2) by (apply Z.div_pos; lia). assert ((last - 1) / 2 <= total cs / 2) by (apply Z.div_le_mono; lia).
    assert (total cs / 2 <= 51 / 2) by (apply Z.div_le_mono; lia). unfold thresh. change (51 / 2) with 25 in *. lia. }
  destruct (prepare_all thresh last (pointed m1 ps') (proj1 HTh) ltac:(lia)) as [HD HF].
  { intros k q Hkq. apply pointed_in in Hkq as [HI Hq]. apply (indexed_left _ _ _ _ _ _ _ _ _ _ _ _ I) in HI. destruct (pointers_in _ _ _ _ _ k AP HI) as (c & Hc & Ec & Nk).
    pose proof (indexed_in _ _ _ _ _ _ _ _ _ _ _ _ I k c HI Hc Ec) as H4. rewrite Hq in H4. destruct H4 as (_ & -> & _). specialize (HC c Hc ltac:(congruence)). lia. }
  rewrite HD. cbn [returns]. exists spans, last.
  destruct (prepared_find m1 ps' last _ (indexed_sorted _ _ _ _ _ _ _ _ _ _ _ _ I) (proj1 (indexed_left _ _ _ _ _ _ _ _ _ _ _ _ I)) HF) as [S1 HM].
  eapply enrolled_intro; eauto.
Qed.

(** ** Consequences *)

Lemma enrolled_range s s' cs spans last k i w : enrolled s s' cs spans last -> GetParticipantRange s' k = Some (i, w) ->
  In (k, (i, w)) spans \/ k = nIdent s /\ w = nWeight s /\ ~ In k (map ident_of cs).
Proof.
  intros [H1 H2 (H3 & _) (HP & HPi & HPc) (HS & HS')] HG. unfold GetParticipantRange in HG. rewrite H3 in HG. destruct (Z.eqb_spec k (nIdent s)) as [->|Nk].
  - injection HG as <- <-. destruct (in_dec Z.eq_dec (nIdent s) (map ident_of cs)) as [HI|HI]; [left; auto|right]. now rewrite (proj2 (HS' HI)).
  - destruct (om_find Z.ltb k (mapParticipant s')) as [p|] eqn:Ep; [|discriminate HG]. injection HG as <- <-.
    pose proof (HPi k p Ep) as HI. apply in_map_iff in HI as (c & <- & Hc). specialize (HPc c Hc Nk). unfold ident_of in Ep. rewrite Ep in HPc.
    destruct HPc as (_ & Ew & Hs & _). rewrite Ew. now left.
Qed.

Lemma enrolled_ranges s s' cs spans last : enrolled s s' cs spans last -> nWeight s = 0 -> last <= 52 -> ranges_ok s'.
Proof.
  intros H HW HL. destruct (enrolled_spans _ _ _ _ _ H) as (J1 & J2 & _ & _).
  assert (HC : forall k x, covers s' k x -> exists i w, In (k, (i, w)) spans /\ i <= x < i + w).
  { intros k x (i & w & HG & Hx). destruct (enrolled_range _ _ _ _ _ _ _ _ H HG) as [HI|(_ & -> & _)]; [eauto|lia]. }
  split.
  - intros k x Hk. destruct (HC k x Hk) as (i & w & HI & Hx). pose proof (consecutive_in _ _ _ _ _ _ J1 HI). lia.
  - intros k k' x Hk Hk'. destruct (HC k x Hk) as (i & w & HI & Hx), (HC k' x Hk') as (i' & w' & HI' & Hx'). eapply consecutive_disjoint; eauto.
Qed.

(** ** Enrolment that is not defined *)

(** A key that is not a point gives the shared key 0, which marks the own entry: the code
    deletes the participant inside its map. *)
Lemma Enroll_foreign_key s c : mapParticipant s = [] -> cand_nIdent c <> nIdent s -> sealed_IsNull (sBox c) = false ->
  SharedKey (myBox s) (nPubKey (sBox c)) = 0 -> Enroll s [c] = Undef.
Proof.
  intros HE Nc HB HK. unfold Enroll. cbn [enroll_add]. rewrite (proj2 (Z.eqb_neq _ _) Nc), HE. cbn [om_find]. unfold sealed_PubKey. rewrite HB, HK.
  rewrite transform_map by reflexivity. cbn [map enroll_index set_participants mapParticipant om_set om_find]. rewrite Z.ltb_irrefl. reflexivity.
Qed.

(** A verified box with fewer coefficients than the threshold is read out of its bounds. *)
Lemma unpack_coeffs_short n : forall coeffs, (length coeffs < n)%nat -> unpack_coeffs n coeffs = Undef.
Proof. induction n as [|n IH]; intros [|c coeffs] H; cbn in *; try lia; [reflexivity|]. now rewrite IH by lia. Qed.

Lemma Enroll_short_box s c : mapParticipant s = [] -> cand_nIdent c <> nIdent s -> Verify c = true -> SharedKey (myBox s) (nPubKey (sBox c)) <> 0 ->
  0 <= cand_nWeight c < 2 ^ 63 -> Z.of_nat (length (vEncryptedCoeff (sBox c))) < cand_nWeight c / 2 + 1 -> Enroll s [c] = Undef.
Proof.
  intros HE Nc HV HK HW HL. assert (HB : sealed_IsNull (sBox c) = false) by (unfold Verify, VerifySignature in HV; destruct (sealed_IsNull (sBox c)); [discriminate HV|reflexivity]).
  unfold Enroll. cbn [enroll_add]. rewrite (proj2 (Z.eqb_neq _ _) Nc), HE. cbn [om_find]. unfold sealed_PubKey. rewrite HB.
  rewrite transform_map by reflexivity. cbn [map enroll_index set_participants mapParticipant om_set om_find verify_pointer].
  unfold participant_IsNull. cbn [participant_new nSharedKey candidate]. rewrite Z.ltb_irrefl. cbn [participant_new nSharedKey candidate].
  rewrite (proj2 (Z.eqb_neq _ _) HK), HV. cbn [negb bind]. rewrite ?Z.ltb_irrefl. cbn [set_index participant_new candidate].
  assert (ES : size_t (1 + cand_nWeight c) = 1 + cand_nWeight c) by (unfold size_t; apply Z.mod_small; lia). rewrite ES.
  cbn [pointed flat_map om_find]. rewrite ?Z.ltb_irrefl. cbn [app defined snd]. unfold PrepareVerification, PrecalcPolynomial. cbn [set_index candidate participant_new].
  rewrite unpack_coeffs_short; [reflexivity|]. replace (1 + cand_nWeight c - 1) with (cand_nWeight c) by lia.
  unfold size_t. rewrite Z.mod_small by lia. lia.
Qed.
End Enrolling.
