(* ===== verification/Secret.v ===== *)
(** * The properties of the secret sharing

    The theorems about the scalars, the parallel computer, the boxes, enrolment and
    reconstruction, with their instances on a small group of participants.  The curve and
    libsodium of the instances are the additive group of the scalars, packed as the scalar
    plus one. *)

From stdpp Require Import base list.
From Stdlib Require Import ZArith List Lia Bool.
From S2P Require Import Prelude Radix Base25519 Base25519Ok Sc25519 Sc25519Ok OrdMap Interp Poly InterpOk Parallel ParallelOk MpBox MpBoxOk Mpvss MpvssOk EnrollOk.
Import ListNotations.
Local Open Scope Z_scope.

(** ** A group to compute in *)

#[local] Instance toy_curve : Edwards25519 := {|
  point := Z; point_new := 0; Unpack _ z := (z - 1, (1 <=? z) && (z <=? ell)); Pack P := P + 1;
  ScalarMult P k := (P * k) mod ell; Generate k := k mod ell; point_add P Q := (P + Q) mod ell; point_eq := Z.eqb |}.

#[local] Instance toy_sodium : Sodium := {| crypto_scalarmult_ed25519_base_noclamp s := (s mod 2 ^ 255) mod ell + 1 |}.

Lemma toy_binding : Sodium_binding.
Proof. split. intros a b Ha Hb H. unfold small in *. cbn in H. rewrite !(Z.mod_small _ (2 ^ 255)) in H by lia. unfold cong. lia. Qed.

#[local] Instance toy_computer : ParallelComputer := scheduled 2 (fun n => n).

Lemma toy_computer_ok : ParallelComputer_ok toy_computer.
Proof. apply scheduled_ok. lia. Qed.

(** Two dealers, with weights 2 and 1, and a witness. *)
Definition toy_box (k : Z) : CMPOpenedBox := mk_opened [k * 1000 + 1; k * 1000 + 2] (k * 77).

Definition toy_candidate (k w : Z) : CMPCandidate :=
  mk_candidate k w (fst (MakeSealedBox true (toy_box k) (sealed_new [] 0 0 0) k 12345)).

Definition toy_candidates : list CMPCandidate := [toy_candidate 5 2; toy_candidate 7 1].

Definition ok_or {A} (a : A) (r : result A) : A := match r with Ok b => b | _ => a end.

Definition toy_witness : CMPSecretShare := ok_or (share_new 0) (Enroll (share_new 0) toy_candidates).

Definition toy_dealer (k : Z) : CMPSecretShare :=
  ok_or (share_new 0) (Enroll (mk_share k (toy_box k) 0 0 0 false [] []) toy_candidates).

(** The shares of both secrets at the arguments of the first dealer. *)
Definition toy_requests : list (Z * list (Z * list Z)) :=
  [(5, [(5, values (toy_box 5) 2 1 2); (7, values (toy_box 7) 2 1 2)])].

Definition toy_collected : CMPSecretShare := ok_or (share_new 0) (collect_all true toy_witness toy_requests).

Example toy_secrets : Reconstruct true toy_collected [] = Ok [(5, (5001, 2)); (7, (7001, 1))].
Proof. vm_compute. reflexivity. Qed.

(** ** Scalars *)

(** C17: The scalars of both builds, with and without 128-bit integers, are the integers
    modulo the order of the base point: sums, differences, products and products with a
    32-bit integer of reduced scalars are reduced and have the value of the operation,
    negation gives a value congruent to the opposite, comparison decides equality of the
    residues, and every 32 bytes are read as their residue. *)
Theorem scalar_ring (d : bool) a b v y : canonical a -> canonical b -> u256 v -> 0 <= y < 2 ^ 32 ->
  (canonical (sc_add d a b) /\ num (sc_add d a b) = (num a + num b) mod ell) /\
  (canonical (sc_sub d a b) /\ num (sc_sub d a b) = (num a - num b) mod ell) /\
  (canonical (sc_mul d a b) /\ num (sc_mul d a b) = (num a * num b) mod ell) /\
  (canonical (sc_mul_u32 d a y) /\ num (sc_mul_u32 d a y) = (num a * y) mod ell) /\
  (weak (sc_Negative d a) /\ num (sc_Negative d a) mod ell = (- num a) mod ell) /\
  (canonical (sc_of_bytes d v) /\ num (sc_of_bytes d v) = num v mod ell) /\
  sc_eq d a b = (num a mod ell =? num b mod ell).
Proof.
  intros Ha Hb Hv Hy. pose proof (canonical_weak _ Ha) as Wa. pose proof (canonical_weak _ Hb) as Wb.
  destruct (sc_add_ok d a b Wa Wb) as (_ & E1 & C1), (sc_sub_ok d a b Wa Wb) as (_ & E2 & C2). specialize (C1 Ha). specialize (C2 Ha).
  split; [split; [exact C1|now rewrite <- (canonical_num _ C1)]|]. split; [split; [exact C2|now rewrite <- (canonical_num _ C2)]|].
  split; [now apply sc_mul_ok|]. split; [now apply sc_mul_u32_ok|]. split.
  - destruct (rep_neg d a (num a) (conj Wa eq_refl)) as [W E]. split; [exact W|exact E].
  - split; [now apply sc_of_bytes_ok|]. rewrite !canonical_num by assumption. apply sc_eq_ok; [apply Ha|apply Hb].
Qed.

Lemma scalar_ring_witness : num (sc_mul false (sc_of_u64 3) (sc_of_u64 5)) = (num (sc_of_u64 3) * num (sc_of_u64 5)) mod ell.
Proof.
  refine (proj2 (proj1 (proj2 (proj2 (scalar_ring false (sc_of_u64 3) (sc_of_u64 5) sc_new 7 _ _ _ _))))); [apply (sc_of_u64_ok 3); lia|apply (sc_of_u64_ok 5); lia|apply sc_new_ok|lia].
Defined.

(** C28: The reduction of 64 bytes is right for every number below 2^506 and for every number
    whose upper half has a residue below 2^252; it is wrong for 2^508, for which the
    folded number has 509 bits and exceeds what the Barrett reduction covers. *)
Theorem wide_reduction (d : bool) :
  (forall m, buf 8 m -> num m < 2 ^ 506 \/ num (skipn 4 m) mod ell < 2 ^ 252 -> canonical (Reduce64 d m) /\ num (Reduce64 d m) = num m mod ell) /\
  exists m, buf 8 m /\ num m = 2 ^ 508 /\ num (Reduce64 d m) <> num m mod ell.
Proof.
  split; [exact (Reduce64_ok d)|]. exists [0; 0; 0; 0; 0; 0; 0; 2 ^ 60]. split; [split; [reflexivity|repeat constructor; lia]|]. exact (Reduce64_wrong d).
Qed.

(** ** Interpolation *)

Lemma scalar_inj a b : canonical a -> canonical b -> num a = num b -> a = b.
Proof. intros [[La Da] _] [[Lb Db] _] H. apply (rval_inj (2 ^ 64)); [lia|exact Da|exact Db|congruence|exact H]. Qed.

(** C16: Lagrange's and Newton's interpolation return the same scalar, the constant
    coefficient, for shares of a polynomial with at most as many coefficients as shares, at
    different arguments that differ by at most 50. *)
Theorem interpolations_agree (d : bool) c vShare : (length c <= length vShare)%nat -> spread (points vShare) -> on_poly c vShare ->
  exists s, MPLagrange d vShare = Ok s /\ MPNewton d vShare = Ok s /\ canonical s /\ num s = peval c 0 mod ell.
Proof.
  intros HL HS HP. destruct (returns_ex _ _ (MPLagrange_ok d c vShare HL HS HP)) as (s & E & C & V).
  destruct (returns_ex _ _ (MPNewton_ok d c vShare HS HL HP)) as (s' & E' & C' & V'). exists s.
  split; [exact E|]. split; [rewrite E'; f_equal; apply scalar_inj; congruence|now split].
Qed.

Definition toy_shares : list share := [(3, sc_of_u64 (11 + 3 * 7)); (51, sc_of_u64 (11 + 51 * 7))].

Lemma interpolations_agree_witness : exists s, MPLagrange true toy_shares = Ok s /\ MPNewton true toy_shares = Ok s /\ canonical s /\ num s = peval [11; 7] 0 mod ell.
Proof.
  refine (interpolations_agree true [11; 7] toy_shares _ _ _); [cbn; lia| |].
  - change (spread [3; 51]). split; [constructor; [intros [H|[]]; lia|constructor; [intros []|constructor]]|]. split.
    + constructor; [unfold arg_ok; lia|]. constructor; [unfold arg_ok; lia|]. constructor.
    + intros x y [<-|[<-|[]]] [<-|[<-|[]]]; lia.
  - constructor; [|constructor; [|constructor]]; (split; [apply (sc_of_u64_ok _); cbn; lia|reflexivity]).
Defined.

(** ** The parallel computer *)

(** C14: with at least one thread, [Transform] and [Execute] end under every interleaving of
    their threads: a run has at
    most five steps per task and two per thread, and a run that cannot go on has the
    output of the tasks, returns whether none of them threw, and keeps the old output of
    those that did. *)
Theorem parallel_every_schedule {A B} (f : A -> option B) l out (n : Z) k c : 0 < n -> length out = length l ->
  (steps (transform_step (length l) (task f l)) k (start (length l) n out) c ->
    (k <= 5 * length l + 2 * nThreads (length l) n)%nat /\ (enabled (transform_step (length l) (task f l)) c = [] -> output_of f l out (returned c))) /\
  (steps (execute_step (length l) (task f l)) k (start (length l) n out) c ->
    (k <= 5 * length l + 2 * nThreads (length l) n)%nat /\ (enabled (execute_step (length l) (task f l)) c = [] -> output_of f l out (returned c))).
Proof.
  intros Hn HL. split; intros HS; [exact (stored_loop f l _ _ (transform_loop _ _) out n k c Hn HL HS)|exact (stored_loop f l _ _ (execute_loop _ _) out n k c Hn HL HS)].
Qed.

Lemma parallel_every_schedule_witness : exists k c, steps (transform_step 2 (task (fun x => Some (x + 1)) [4; 5])) k (start 2 2 [0; 0]) c /\
  enabled (transform_step 2 (task (fun x => Some (x + 1)) [4; 5])) c = [] /\ output_of (fun x => Some (x + 1)) [4; 5] [0; 0] (returned c).
Proof.
  destruct (run_steps (transform_step 2 (task (fun x => Some (x + 1)) [4; 5])) 20 (fun n => n) (start 2 2 [0; 0])) as [k H]. exists k. eexists. split; [exact H|].
  assert (HE : enabled (transform_step 2 (task (fun x => Some (x + 1)) [4; 5])) (run (transform_step 2 (task (fun x => Some (x + 1)) [4; 5])) 20 (fun n => n) (start 2 2 [0; 0])) = []) by (vm_compute; reflexivity).
  split; [exact HE|]. refine (proj2 (proj1 (parallel_every_schedule (fun x => Some (x + 1)) [4; 5] [0; 0] 2 k _ _ _) H) HE); [lia|reflexivity].
Defined.

(** C15: [ExecuteUntil] ends under every interleaving and returns whether every task answers
    true, a task that throws counting as false; with no threads at all, which happens when
    the number of processors is unknown, it returns true without running any task. *)
Theorem parallel_until_decides {A} (f : A -> option bool) l (n : Z) k c : 0 <= n ->
  steps (until_step (length l) (task f l)) k (start (length l) n (replicate (length l) false)) c ->
  (k <= 5 * length l + 2 * nThreads (length l) n)%nat /\
  (enabled (until_step (length l) (task f l)) c = [] ->
    joined c = if n =? 0 then true else forallb (fun a => match f a with Some b => b | None => false end) l).
Proof.
  pose proof (until_loop (length l) (task f l)) as L. intros Hn HS. split; [exact (loop_bounded _ _ _ _ _ _ _ _ _ HS)|]. intros HE. destruct (Z.eqb_spec n 0) as [E0|N0].
  - exact (proj2 (loop_no_threads _ _ _ _ _ _ _ _ _ E0 HS)).
  - pose proof (loop_result _ _ _ _ _ _ _ _ _ (length_replicate _ _) HS HE ltac:(lia)) as HR.
    symmetry. apply until_answer. exact HR.
Qed.

Lemma parallel_until_decides_witness : exists k c, steps (until_step 2 (task Some [true; false])) k (start 2 2 [false; false]) c /\ joined c = false.
Proof.
  destruct (run_steps (until_step 2 (task Some [true; false])) 20 (fun n => n) (start 2 2 [false; false])) as [k H]. exists k. eexists. split; [exact H|].
  exact (proj2 (parallel_until_decides Some [true; false] 2 k _ ltac:(lia) H) ltac:(vm_compute; reflexivity)).
Defined.

(** ** Boxes *)

(** [Polynomial] throws exactly for a null box or too few coefficients; otherwise, for
    thresholds up to 27 and arguments from 1 to 51, it returns the value of the polynomial
    with the first [thresh] coefficients modulo the order of the base point. *)
Theorem box_polynomial (d : bool) b thresh x : Forall uint256_ok (vCoeff b) -> 1 <= thresh <= 27 -> 1 <= x <= 51 ->
  Polynomial d b thresh x =
    if opened_IsNull b || (Z.of_nat (length (vCoeff b)) <? thresh) then Throw runtime_error
    else Ok (peval (firstn (Z.to_nat thresh) (vCoeff b)) x mod ell).
Proof.
  intros HC Ht Hx. destruct (opened_IsNull b || (Z.of_nat (length (vCoeff b)) <? thresh)) eqn:E; [unfold Polynomial; now rewrite E|].
  apply orb_false_iff in E as [E1 E2]. apply Z.ltb_ge in E2. apply Polynomial_ok; [|exact Hx]. unfold opened_IsNull in E1.
  destruct (vCoeff b) as [|c cs] eqn:Ec; [discriminate E1|]. apply Z.eqb_neq in E1. unfold box_ok. rewrite Ec. auto.
Qed.

Lemma box_polynomial_witness : Polynomial false (toy_box 5) 2 51 = Ok ((5001 + 51 * 5002) mod ell).
Proof.
  refine (eq_trans (box_polynomial false (toy_box 5) 2 51 _ _ _) _); [|lia|lia|vm_compute; reflexivity].
  cbn. constructor; [unfold uint256_ok; lia|constructor; [unfold uint256_ok; lia|constructor]].
Defined.

(** ** Enrolment *)

(** A new session, with candidates that enrolment can take. *)
Definition session {E : Edwards25519} (s : CMPSecretShare) (cs : list CMPCandidate) : Prop :=
  mapParticipant s = [] /\ mapOpenedShare s = [] /\ nWeight s = 0 /\ NoDup (map ident_of cs) /\ Forall (fun c => 0 <= cand_nWeight c) cs /\
  total cs <= 51 /\ keys_valid (nIdent s) (myBox s) cs /\ enough_coeffs (nIdent s) cs.

Lemma session_enrolled {E : Edwards25519} {PC : ParallelComputer} {PCok : ParallelComputer_ok PC} s cs : session s cs ->
  returns (Enroll s cs) (fun s1 => exists spans last, enrolled s s1 cs spans last /\ ranges_ok s1 /\ last - 1 < 2 * nThresh s1).
Proof.
  intros (H1 & H2 & H3 & H4 & H5 & H6 & H7 & H8). eapply returns_mono; [exact (Enroll_ok s cs H1 H4 H5 H6 H7 H8)|]. intros s1 (spans & last & H). exists spans, last.
  destruct (enrolled_spans _ _ _ _ _ H) as (J1 & _ & _ & J4). split; [exact H|]. split; [eapply enrolled_ranges; eauto; lia|].
  rewrite (enrolled_thresh _ _ _ _ _ H). pose proof (Z.mod_pos_bound (last - 1) 2 ltac:(lia)). pose proof (Z.div_mod (last - 1) 2 ltac:(lia)). lia.
Qed.

(** C13: Enrolment of distinct candidates of total weight at most 51, whose keys are points
    and whose boxes hold enough coefficients, returns: the participants are exactly the
    other candidates whose box verifies; they and the own entry have consecutive ranges of
    arguments from 1 on, as long as their weights, so that no argument belongs to two of
    them; and the threshold is more than half of the total weight. *)
Theorem enrolment_ranges {E : Edwards25519} {PC : ParallelComputer} {PCok : ParallelComputer_ok PC} s cs : session s cs ->
  returns (Enroll s cs) (fun s1 => exists spans last, enrolled s s1 cs spans last /\ ranges_ok s1 /\ last - 1 < 2 * nThresh s1).
Proof. apply session_enrolled. Qed.

Lemma toy_session : session (share_new 0) toy_candidates.
Proof.
  split; [reflexivity|]. split; [reflexivity|]. split; [reflexivity|]. split; [|split; [|split; [|split]]].
  - change (NoDup [5; 7]). constructor; [intros [H|[]]; lia|constructor; [intros []|constructor]].
  - constructor; [change (0 <= 2); lia|constructor; [change (0 <= 1); lia|constructor]].
  - change (3 <= 51). lia.
  - intros c [<-|[<-|[]]] _ _; vm_compute; congruence.
  - intros c [<-|[<-|[]]] _; vm_compute; congruence.
Qed.

Lemma enrolment_ranges_witness : returns (Enroll (share_new 0) toy_candidates)
  (fun s1 => exists spans last, enrolled (share_new 0) s1 toy_candidates spans last /\ ranges_ok s1 /\ last - 1 < 2 * nThresh s1).
Proof. exact (@enrolment_ranges toy_curve toy_computer toy_computer_ok (share_new 0) toy_candidates toy_session). Defined.

(** C26: Enrolment is not defined for data that its signature check accepts: a candidate
    whose key is not a point is taken for the own entry and deleted inside the map, and a
    verified box with fewer coefficients than the threshold is read beyond its end. *)
Theorem enrolment_undefined {E : Edwards25519} {PC : ParallelComputer} {PCok : ParallelComputer_ok PC} s c :
  mapParticipant s = [] -> cand_nIdent c <> nIdent s -> 0 <= cand_nWeight c < 2 ^ 63 ->
  sealed_IsNull (sBox c) = false /\ SharedKey (myBox s) (nPubKey (sBox c)) = 0 \/
  Verify c = true /\ SharedKey (myBox s) (nPubKey (sBox c)) <> 0 /\ Z.of_nat (length (vEncryptedCoeff (sBox c))) < cand_nWeight c / 2 + 1 ->
  Enroll s [c] = Undef.
Proof. intros H1 H2 H3 [[H4 H5]|(H4 & H5 & H6)]; [now apply Enroll_foreign_key|now apply Enroll_short_box]. Qed.

Lemma enrolment_undefined_witness : Enroll (share_new 0) [toy_candidate 5 10] = Undef.
Proof.
  refine (@enrolment_undefined toy_curve toy_computer toy_computer_ok (share_new 0) (toy_candidate 5 10) _ _ _ _); [reflexivity|vm_compute; congruence|cbn; lia|].
  right. split; [vm_compute; reflexivity|]. split; [vm_compute; congruence|vm_compute; reflexivity].
Defined.

(** ** Shares *)

(** The dealer [sd] and the receiver [sr] know each other: the same shared key, the same
    range, and at the receiver a box that commits to the polynomial of the dealer. *)
Definition linked {N : Sodium} (sd sr : CMPSecretShare) (p q : CMPParticipant) : Prop :=
  om_find Z.ltb (nIdent sr) (mapParticipant sd) = Some p /\ om_find Z.ltb (nIdent sd) (mapParticipant sr) = Some q /\
  nSharedKey p = nSharedKey q /\ part_nIndex p = nIndex sr /\ cand_nWeight (candidate p) = nWeight sr /\ 0 < nWeight sr /\
  commits (sBox (candidate q)) (dealt_poly (myBox sd) (nThresh sd)) /\ nIndex sr + nWeight sr <= Z.of_nat (length (vEncryptedShare (sBox (candidate q)))).

(** C18: What a dealer distributes, the receiver accepts: [Distribute] returns for the
    receiver the encrypted values of the dealer's polynomial over the receiver's range, and
    [Accept] of them succeeds and keeps the values. *)
Theorem share_delivery {N : Sodium} {PC : ParallelComputer} {PCok : ParallelComputer_ok PC} (d : bool) sd sr p q :
  ranges_ok sd -> participants_ok sd -> participants_ok sr -> box_ok (myBox sd) (nThresh sd) -> linked sd sr p q -> vShare q = [] ->
  returns (Distribute d sd []) (fun m => exists e, om_find Z.ltb (nIdent sr) m = Some e /\
    Accept sr (nIdent sd) e =
      (set_participants sr (om_set Z.ltb (nIdent sd) (set_share q (values (myBox sd) (nThresh sd) (nIndex sr) (nWeight sr))) (mapParticipant sr)), true)).
Proof.
  intros HR HPd HPr HB (H1 & H2 & H3 & H4 & H5 & H6 & H7 & H8) HV. eapply returns_mono; [exact (Distribute_ok d sd HR HPd HB)|]. intros m Hm.
  eexists. split; [exact (Hm _ _ H1)|]. rewrite H4, H5. exact (Accept_ok sd sr p q HR HPd HPr HB H1 H2 H3 H4 H5 H6 HV H7 H8).
Qed.

Definition toy_link (a b : Z) : CMPParticipant :=
  match om_find Z.ltb b (mapParticipant (toy_dealer a)) with Some p => p | None => participant_new (toy_candidate b 0) 0 end.

Lemma dealer_session k : k = 5 \/ k = 7 -> session (mk_share k (toy_box k) 0 0 0 false [] []) toy_candidates.
Proof.
  intros Hk. destruct toy_session as (_ & _ & _ & H4 & H5 & H6 & _ & _). split; [reflexivity|]. split; [reflexivity|]. split; [reflexivity|].
  split; [exact H4|]. split; [exact H5|]. split; [exact H6|]. split; intros c [<-|[<-|[]]]; destruct Hk as [-> | ->]; vm_compute; congruence.
Qed.

Lemma dealer_enrolled k : k = 5 \/ k = 7 -> exists spans last, enrolled (mk_share k (toy_box k) 0 0 0 false [] []) (toy_dealer k) toy_candidates spans last /\
  ranges_ok (toy_dealer k) /\ last - 1 < 2 * nThresh (toy_dealer k).
Proof.
  intros Hk. pose proof (@session_enrolled toy_curve toy_computer toy_computer_ok _ _ (dealer_session k Hk)) as H. unfold toy_dealer.
  destruct (Enroll _ toy_candidates); [exact H|contradiction..].
Qed.

Lemma dealer_box : box_ok (myBox (toy_dealer 5)) (nThresh (toy_dealer 5)).
Proof.
  replace (myBox (toy_dealer 5)) with (toy_box 5) by (vm_compute; reflexivity). replace (nThresh (toy_dealer 5)) with 2 by (vm_compute; reflexivity).
  unfold toy_box. split; [cbn; lia|]. split; [|split; [lia|cbn; lia]]. cbn. constructor; [unfold uint256_ok; lia|constructor; [unfold uint256_ok; lia|constructor]].
Qed.

Lemma share_delivery_witness : returns (Distribute true (toy_dealer 5) []) (fun m => exists e, om_find Z.ltb (nIdent (toy_dealer 7)) m = Some e /\
  Accept (toy_dealer 7) (nIdent (toy_dealer 5)) e =
    (set_participants (toy_dealer 7) (om_set Z.ltb (nIdent (toy_dealer 5)) (set_share (toy_link 7 5)
      (values (myBox (toy_dealer 5)) (nThresh (toy_dealer 5)) (nIndex (toy_dealer 7)) (nWeight (toy_dealer 7)))) (mapParticipant (toy_dealer 7))), true)).
Proof.
  refine (@share_delivery toy_sodium toy_computer toy_computer_ok true (toy_dealer 5) (toy_dealer 7) (toy_link 5 7) (toy_link 7 5) _ _ _ _ _ _).
  - destruct (dealer_enrolled 5) as (spans & last & _ & H & _); [left; reflexivity|]. exact H.
  - split; [vm_compute; repeat constructor|vm_compute; reflexivity].
  - split; [vm_compute; repeat constructor|vm_compute; reflexivity].
  - exact dealer_box.
  - split; [vm_compute; reflexivity|]. split; [vm_compute; reflexivity|]. split; [vm_compute; reflexivity|]. split; [vm_compute; reflexivity|].
    split; [vm_compute; reflexivity|]. split; [vm_compute; reflexivity|]. split; [|vm_compute; congruence].
    intros x Hx Hl. replace (Z.of_nat (length (vEncryptedShare (sBox (candidate (toy_link 7 5)))))) with 4 in Hl by (vm_compute; reflexivity).
    assert (x = 1 \/ x = 2 \/ x = 3) as [->|[->| ->]] by lia; vm_compute; reflexivity.
  - vm_compute. reflexivity.
Defined.

(** ** Reconstruction *)

Lemma toy_requests_small : Forall (fun kv => Forall small (snd kv)) [(5, values (toy_box 5) 2 1 2); (7, values (toy_box 7) 2 1 2)].
Proof.
  constructor; [|constructor; [|constructor]]; apply Forall_forall; intros v Hv; apply in_map_iff in Hv as (j & <- & _); apply ell_small.
Qed.

(** C12: After enrolment, whatever maps of shares are collected from different participants,
    [Reconstruct] returns: a participant with weight for which [nThresh] shares were opened
    has a secret, and the secret of a participant whose box commits to a polynomial of at
    most [nThresh] coefficients is its constant coefficient.  No published share can change
    it, as long as the shares are below 2^255. *)
Theorem secrets_reconstructed {E : Edwards25519} {N : Sodium} {PC : ParallelComputer} {PCok : ParallelComputer_ok PC} {SB : Sodium_binding}
  (d : bool) s cs reqs s1 s2 : session s cs -> Enroll s cs = Ok s1 -> NoDup (map fst reqs) -> Forall request_ok reqs -> collect_all d s1 reqs = Ok s2 ->
  returns (Reconstruct d s2 []) (fun secrets => forall k p, om_find Z.ltb k (mapParticipant s1) = Some p ->
    (forall l, om_find Z.ltb k (mapOpenedShare s2) = Some l -> Z.of_nat (length l) = nThresh s1 -> 0 < cand_nWeight (candidate p) ->
       exists v, om_find Z.ltb k secrets = Some (v, cand_nWeight (candidate p))) /\
    (forall v w c, om_find Z.ltb k secrets = Some (v, w) -> commits (sBox (candidate p)) c -> Z.of_nat (length c) <= nThresh s1 -> v = peval c 0 mod ell)).
Proof.
  intros HS HE ND HR HC. pose proof (session_enrolled s cs HS) as H. rewrite HE in H. cbn [returns] in H. destruct H as (spans & last & H & HRg & _).
  assert (HO : collected_ok d s1 []).
  { split; [exact HRg|]. rewrite (proj2 (proj2 (enrolled_same _ _ _ _ _ H))). destruct HS as (_ & -> & _). split; [constructor|]. intros k l Hl. discriminate Hl. }
  destruct (collect_all_ok d reqs s1 [] s2 HO ND ltac:(intros f _ []) HR HC) as ([from H2] & o & Eo).
  eapply returns_mono; [exact (Reconstruct_ok d s2 from H2)|]. intros secrets HSec k p Hp. specialize (HSec k).
  assert (Nk : k <> nIdent s1) by (intros ->; pose proof (proj2 (proj1 (enrolled_participants _ _ _ _ _ H))); congruence).
  assert (HG : GetParticipantRange s2 k = Some (part_nIndex p, cand_nWeight (candidate p))).
  { rewrite Eo. unfold GetParticipantRange. cbn. now rewrite (proj2 (Z.eqb_neq _ _) Nk), Hp. }
  assert (HT : nThresh s2 = nThresh s1) by now rewrite Eo.
  split.
  - intros l Hl HL Hw. rewrite Hl in HSec. destruct HSec as (r & Hr & ->). unfold secret_ok in Hr. rewrite HG, HT, (proj2 (Z.eqb_eq _ _) HL) in Hr.
    destruct r as [v w]. destruct Hr as [Ew _]. cbn [snd] in *. subst w. rewrite (proj2 (Z.ltb_lt _ _) Hw). eauto.
  - intros v w c Hv Hcm Hc. destruct (om_find Z.ltb k (mapOpenedShare s2)) as [l|]; [|congruence]. destruct HSec as (r & Hr & Hf). rewrite Hv in Hf.
    destruct (0 <? snd r) eqn:Ew; [|discriminate Hf]. injection Hf as <-. unfold secret_ok in Hr. rewrite HG in Hr. destruct (Z.of_nat (length l) =? nThresh s2).
    + destruct Hr as [_ Hr]. apply (Hr c); [|now rewrite HT]. rewrite Eo. exact (commits_binds d s1 k p c Nk Hp Hcm).
    + injection Hr as -> ->. discriminate Ew.
Qed.

Lemma secrets_reconstructed_witness : returns (Reconstruct true toy_collected []) (fun secrets =>
  forall k p, om_find Z.ltb k (mapParticipant toy_witness) = Some p ->
    (forall l, om_find Z.ltb k (mapOpenedShare toy_collected) = Some l -> Z.of_nat (length l) = nThresh toy_witness -> 0 < cand_nWeight (candidate p) ->
       exists v, om_find Z.ltb k secrets = Some (v, cand_nWeight (candidate p))) /\
    (forall v w c, om_find Z.ltb k secrets = Some (v, w) -> commits (sBox (candidate p)) c -> Z.of_nat (length c) <= nThresh toy_witness -> v = peval c 0 mod ell)).
Proof.
  refine (@secrets_reconstructed toy_curve toy_sodium toy_computer toy_computer_ok toy_binding true (share_new 0) toy_candidates toy_requests toy_witness toy_collected toy_session _ _ _ _).
  - vm_compute. reflexivity.
  - constructor; [intros []|constructor].
  - constructor; [|constructor]. split; [constructor; [constructor; constructor|constructor; [reflexivity|constructor]]|].
    apply toy_requests_small.
  - vm_compute. reflexivity.
Defined.

(** C27: A verified share is not known to be reduced: for a libsodium that ignores the last
    bit of the scalar, a share with this bit set passes the test of the share without it,
    but is another scalar for the interpolation. *)
Theorem unreduced_share {N : Sodium} (d : bool) b x v :
  (forall z, crypto_scalarmult_ed25519_base_noclamp z = crypto_scalarmult_ed25519_base_noclamp (z mod 2 ^ 255)) -> 0 <= v < 2 ^ 255 ->
  VerifyPolynomial b x (v + 2 ^ 255) = VerifyPolynomial b x v /\
  num (sc_of_bytes d (data_of (v + 2 ^ 255))) <> num (sc_of_bytes d (data_of v)).
Proof.
  intros HS Hv. split.
  - unfold VerifyPolynomial, MPEccPubkey. rewrite (HS (v + 2 ^ 255)), (HS v). now replace ((v + 2 ^ 255) mod 2 ^ 255) with (v mod 2 ^ 255) by (rewrite <- (Z_mod_plus_full v 1); f_equal; lia).
  - rewrite !(proj2 (sc_of_bytes_ok d _ (data_of_u256 _))), !data_of_bounded by lia. intros H.
    assert (E : (2 ^ 255) mod ell = 0). { replace (2 ^ 255) with (v + 2 ^ 255 - v) by ring. rewrite Zminus_mod, H, Z.sub_diag. reflexivity. }
    vm_compute in E. discriminate E.
Qed.

Lemma unreduced_share_witness : VerifyPolynomial (sBox (candidate (toy_link 7 5))) 3 (5001 + 3 * 5002 + 2 ^ 255) = VerifyPolynomial (sBox (candidate (toy_link 7 5))) 3 (5001 + 3 * 5002) /\
  num (sc_of_bytes true (data_of (5001 + 3 * 5002 + 2 ^ 255))) <> num (sc_of_bytes true (data_of (5001 + 3 * 5002))).
Proof.
  refine (@unreduced_share toy_sodium true (sBox (candidate (toy_link 7 5))) 3 (5001 + 3 * 5002) _ _); [|lia].
  intros z. cbn. now rewrite Zmod_mod.
Defined.
