(* ===== verification/Fp25519.v ===== *)
(** * The field of curve25519: crypto/curve25519/fp25519.cpp

    [CFP25519] holds four 64-bit words below 2^255 - 19.  [int128] is the build with 128-bit
    integers.  The loops of [Reduce] and [Range] run at most three rounds; [Inverse] takes
    fuel for its loops. *)

From Stdlib Require Import ZArith List Lia Bool.
From S2P Require Import Prelude Radix Base25519 Sc25519.
Import ListNotations.
Local Open Scope Z_scope.

Definition fp_prime : list Z := [0xFFFFFFFFFFFFFFED; 0xFFFFFFFFFFFFFFFF; 0xFFFFFFFFFFFFFFFF; 0x7FFFFFFFFFFFFFFF].
Definition halfPrime : list Z := [0xFFFFFFFFFFFFFFF6; 0xFFFFFFFFFFFFFFFF; 0xFFFFFFFFFFFFFFFF; 0x3FFFFFFFFFFFFFFF].
Definition minusOne : list Z := [0xFFFFFFFFFFFFFFEC; 0xFFFFFFFFFFFFFFFF; 0xFFFFFFFFFFFFFFFF; 0x7FFFFFFFFFFFFFFF].

(** The bytes of a constant as words. *)
Definition words_of_bytes (bs : list Z) : list Z := cast 8 64 4 bs.

Section Field.

Variable int128 : bool.

Fixpoint fp_reduce_loop (rounds : nat) (v : list Z) : list Z :=
  match rounds with
  | O => v
  | S rounds' => if 0 <=? Compare32 int128 v fp_prime then fp_reduce_loop rounds' (fst (Sub32 int128 v fp_prime)) else v
  end.

Definition fp_Reduce (v : list Z) : list Z := fp_reduce_loop 3 v.

(** The words plus a carry, with the carry out. *)
Fixpoint add_carry (v : list Z) (carry : Z) : list Z * Z :=
  match v with
  | [] => ([], carry)
  | a :: v' =>
      let sum := (a + carry) mod 2 ^ 64 in
      let (v'', carry') := add_carry v' (if a <=? sum then 0 else 1) in (sum :: v'', carry')
  end.

Fixpoint fp_range_loop (rounds : nat) (carry : Z) (v : list Z) : list Z :=
  match rounds with
  | O => v
  | S rounds' =>
      let carry := (((Z.shiftl carry 1 mod 2 ^ 32 + Z.shiftr (nth 3 v 0) 63) * 19) mod 2 ^ 64) mod 2 ^ 32 in
      if carry =? 0 then v
      else let (v', carry') := add_carry (and_word v 3 0x7FFFFFFFFFFFFFFF) carry in fp_range_loop rounds' carry' v'
  end.

Definition fp_Range (carry : Z) (v : list Z) : list Z := fp_Reduce (fp_range_loop 3 (carry mod 2 ^ 32) v).

Definition fp_new : list Z := Zero32.
Definition fp_of_u64 (u64 : Z) : list Z := Copy32_u64 u64.
Definition fp_of_bytes (md32 : list Z) : list Z := fp_Reduce (and_word (Copy32 md32) 3 0x7FFFFFFFFFFFFFFF).

Definition fp_Pack (v : list Z) : list Z :=
  let u := Copy32 v in
  if (nth 3 u 0 =? 0x7FFFFFFFFFFFFFFF) && (nth 2 u 0 =? 0xFFFFFFFFFFFFFFFF) && (nth 1 u 0 =? 0xFFFFFFFFFFFFFFFF) && (0xFFFFFFFFFFFFFFED <=? nth 0 u 0)
  then [(nth 0 u 0 - 0xFFFFFFFFFFFFFFED) mod 2 ^ 64; 0; 0; 0] else u.

Definition fp_IsZero (v : list Z) : bool := IsZero32 v.

Definition fp_Parity (v : list Z) : Z :=
  let over := (nth 3 v 0 =? nth 3 fp_prime 0) && (nth 2 v 0 =? nth 2 fp_prime 0) && (nth 1 v 0 =? nth 1 fp_prime 0) && (nth 0 fp_prime 0 <=? nth 0 v 0) in
  Z.land (Z.lxor (nth 0 v 0) (Z.b2z over)) 1.

Definition fp_add (a b : list Z) : list Z := fp_Reduce (fst (Add32 int128 a b)).

Definition fp_sub (a b : list Z) : list Z :=
  let (v, borrow) := Sub32 int128 a b in
  if 0 <? borrow then fst (Add32 int128 v fp_prime) else v.

(** m[i] += carry + m[i + n] * 38; the columns have twice [w] bits. *)
Fixpoint fold_columns (w : Z) (lo hi : list Z) (carry : Z) : list Z * Z :=
  match lo, hi with
  | a :: lo', b :: hi' =>
      let m := (a + (carry + b * 38)) mod 2 ^ (2 * w) in
      let (v, carry') := fold_columns w lo' hi' (Z.shiftr m w) in (m mod 2 ^ w :: v, carry')
  | _, _ => ([], carry)
  end.

Definition fp_mul (a b : list Z) : list Z :=
  let m := Mul32 int128 a b in
  let n := if int128 then 4%nat else 8%nat in
  let (v, carry) := fold_columns (half_bits int128) (firstn n m) (skipn n m) 0 in
  fp_Range carry (cast (half_bits int128) 64 4 v).

Definition fp_Square (a : list Z) : list Z := fp_mul a a.

Definition fp_neg (a : list Z) : list Z := fp_sub fp_new a.

Definition fp_eq (a b : list Z) : bool := Compare32 int128 a b =? 0.

(** ** Inverse *)

(** do { u /= 2, B = B/2 or (B - prime)/2 } while (IsEven(u)) *)
Fixpoint halve_loop (fuel : nat) (u B : list Z) : result (list Z * list Z) :=
  match fuel with
  | O => NoFuel
  | S fuel' =>
      let u := HalfSigned32 int128 u in
      let B := if IsEven B then HalfSigned32 int128 B else fst (Sub32 int128 (HalfSigned32 int128 B) halfPrime) in
      if IsEven u then halve_loop fuel' u B else Ok (u, B)
  end.

Definition halve (u B : list Z) : result (list Z * list Z) :=
  if IsEven u then let! (u, B) := halve_loop 256 u B in Ok (u, ReduceSigned32 int128 B B fp_prime) else Ok (u, B).

Fixpoint inverse_loop (fuel : nat) (u v B D : list Z) : result (list Z) :=
  match fuel with
  | O => NoFuel
  | S fuel' =>
      if IsOne32 v then Ok D
      else
        let! (u, B) := halve u B in
        let! (v, D) := halve v D in
        if 0 <=? CompareSigned32 int128 u v then
          let B := fst (Sub32 int128 B D) in
          inverse_loop fuel' (fst (Sub32 int128 u v)) v (ReduceSigned32 int128 B B fp_prime) D
        else
          let D := fst (Sub32 int128 D B) in
          inverse_loop fuel' u (fst (Sub32 int128 v u)) B (ReduceSigned32 int128 D D fp_prime)
  end.

Definition fp_Inverse (v : list Z) : result (list Z) :=
  if fp_IsZero v then Ok fp_new
  else let! D := inverse_loop 513 fp_prime v Zero32 [1; 0; 0; 0] in
       Ok (fp_of_bytes (ReduceSigned32 int128 D D fp_prime)).

Definition fp_div (a b : list Z) : result (list Z) := let! i := fp_Inverse b in Ok (fp_mul a i).

(** ** Powers and roots *)

Definition power_window (x : list Z) : list (list Z) :=
  fold_left (fun pre i => let a := fp_Square (nth (Nat.div i 2) pre []) in pre ++ [a; fp_mul a x]) [2; 4; 6; 8; 10; 12; 14]%nat [fp_of_u64 1; x].

Definition square4 (r : list Z) : list Z := fp_Square (fp_Square (fp_Square (fp_Square r))).

(** The bytes from the most significant on. *)
Fixpoint power_loop (pre : list (list Z)) (bs : list Z) (r : list Z) : list Z :=
  match bs with
  | [] => r
  | b :: bs' =>
      let r := fp_mul (square4 r) (nth (Z.to_nat (Z.shiftr b 4)) pre []) in
      let r := fp_mul (square4 r) (nth (Z.to_nat (Z.land b 15)) pre []) in
      power_loop pre bs' r
  end.

Definition fp_Power (x : list Z) (md32 : list Z) : list Z := power_loop (power_window x) (rev (cast 64 8 32 md32)) (fp_of_u64 1).

Fixpoint squares (n : nat) (g : list Z) : list Z := match n with O => g | S n' => squares n' (fp_Square g) end.

Definition fp_Power58 (value : list Z) : result (list Z) :=
  let g := fp_Square (fp_of_bytes value) in
  let g3 := fp_mul value g in
  let! i := fp_Inverse g3 in
  Ok (fp_mul (squares 251 g) i).

(** sqrt(-1) *)
Definition root_minus_one : list Z := words_of_bytes
  [0xb0; 0xa0; 0x0e; 0x4a; 0x27; 0x1b; 0xee; 0xc4; 0x78; 0xe4; 0x2f; 0xad; 0x06; 0x18; 0x43; 0x2f;
   0xa7; 0xd7; 0xfb; 0x3d; 0x99; 0x00; 0x4d; 0x2b; 0x0b; 0xdf; 0xc1; 0x4f; 0x80; 0x24; 0x83; 0x2b].

Definition fp_Sqrt (value : list Z) : result (list Z) :=
  if fp_IsZero value then Ok fp_new
  else
    let! z58 := fp_Power58 value in
    let z38 := fp_mul z58 value in
    let z14 := fp_mul z58 z38 in
    if IsOne32 z14 then Ok z38
    else if Compare32 int128 z14 minusOne =? 0 then Ok (fp_mul z38 (fp_of_bytes root_minus_one))
    else Ok fp_new.

End Field.

Example inverse_of_two : fp_Inverse true (fp_of_u64 2) = Ok [0xFFFFFFFFFFFFFFF7; 0xFFFFFFFFFFFFFFFF; 0xFFFFFFFFFFFFFFFF; 0x3FFFFFFFFFFFFFFF].
Proof. vm_compute. reflexivity. Qed.

