(* ===== verification/Fp25519Ok.v ===== *)
(** * The field operations are arithmetic modulo 2^255 - 19

    Every operation of both builds returns reduced words with the value of the operation;
    the bounded loops end before their bounds. *)

From Stdlib Require Import ZArith List Lia Bool Znumtheory.
From S2P Require Import Prelude Radix Base25519 Base25519Ok Sc25519 Sc25519Ok Poly Fp25519.
Import ListNotations.
Local Open Scope Z_scope.

Definition pf : Z := 2 ^ 255 - 19.

Lemma num_fp_prime : num fp_prime = pf.
Proof. reflexivity. Qed.

Lemma u256_fp_prime : u256 fp_prime.
Proof. split; [reflexivity|repeat constructor; lia]. Qed.

(** A reduced element. *)
Definition fp (v : list Z) : Prop := u256 v /\ num v < pf.

Create HintDb field.
#[export] Hint Resolve u256_fp_prime : field.

Lemma fp_u256 v : fp v -> u256 v.
Proof. apply proj1. Qed.

Lemma fp_mod v : fp v -> num v mod pf = num v.
Proof. intros [U H]. pose proof (num_bound v U). apply Z.mod_small. lia. Qed.

#[export] Hint Resolve fp_u256 : field.

(** ** Reduce and Range *)

Lemma fp_reduce_loop_ok d n : forall v, u256 v -> num v < Z.of_nat n * pf -> fp (fp_reduce_loop d n v) /\ num (fp_reduce_loop d n v) = num v mod pf.
Proof.
  induction n as [|n IH]; intros v U H; pose proof (num_bound v U) as B; cbn [fp_reduce_loop]; [lia|].
  rewrite Compare32_ge, num_fp_prime by auto with field. destruct (Z.leb_spec pf (num v)) as [G|G].
  - destruct (Sub32_num d v fp_prime U u256_fp_prime) as [U' E]. rewrite num_fp_prime, Z.mod_small in E by (unfold pf in *; lia).
    destruct (IH _ U') as [F V]; [lia|]. split; [exact F|]. rewrite V, E. replace (num v) with (num v - pf + 1 * pf) at 2 by ring. now rewrite Z_mod_plus_full.
  - split; [now split|]. symmetry. apply Z.mod_small. lia.
Qed.

Lemma fp_Reduce_ok d v : u256 v -> fp (fp_Reduce d v) /\ num (fp_Reduce d v) = num v mod pf.
Proof. intros U. apply fp_reduce_loop_ok; [exact U|]. pose proof (num_bound v U). unfold pf. lia. Qed.

Lemma add_carry_ok v : forall c, rdigs (2 ^ 64) v -> 0 <= c < 2 ^ 64 -> let '(v', c') := add_carry v c in
  length v' = length v /\ rdigs (2 ^ 64) v' /\ num v' + (2 ^ 64) ^ Z.of_nat (length v) * c' = num v + c /\ 0 <= c' < 2 ^ 64.
Proof.
  induction v as [|a v IH]; intros c HD Hc; cbn [add_carry]; [unfold num; cbn [length rval]; change ((2 ^ 64) ^ Z.of_nat 0) with 1; split; [reflexivity|split; [constructor|lia]]|].
  unfold rdigs in HD. apply Forall_cons_iff in HD as [Ha HD]. set (c1 := if a <=? (a + c) mod 2 ^ 64 then 0 else 1).
  assert (Hs : (a + c) mod 2 ^ 64 + 2 ^ 64 * c1 = a + c /\ 0 <= c1 < 2 ^ 64 /\ 0 <= (a + c) mod 2 ^ 64 < 2 ^ 64).
  { unfold c1. destruct (Z_lt_ge_dec (a + c) (2 ^ 64)) as [L|L].
    - rewrite Z.mod_small by lia. rewrite (proj2 (Z.leb_le _ _)) by lia. lia.
    - replace ((a + c) mod 2 ^ 64) with (a + c - 2 ^ 64) by (apply (Z.mod_unique_pos _ _ 1); lia). rewrite (proj2 (Z.leb_gt _ _)) by lia. lia. }
  destruct Hs as (Hs & Hc1 & Hb). specialize (IH c1 HD Hc1). destruct (add_carry v c1) as [v' c']. destruct IH as (L & D & Ev & Bc).
  cbn [length]. split; [now rewrite L|]. split; [now constructor|]. split; [|exact Bc].
  unfold num in *. cbn [rval]. rewrite Nat2Z.inj_succ, Z.pow_succ_r by lia. nia.
Qed.

Lemma shiftr_top v : u256 v -> Z.shiftr (nth 3 v 0) 63 = num v / 2 ^ 255.
Proof.
  intros U. destruct (u256_words v U) as (a & b & c & e & -> & _). cbn [nth]. rewrite Z.shiftr_div_pow2 by lia. apply (num_divide a b c e 63); [lia|exact U].
Qed.

(** One round of [Range] takes the bits from 255 on back with the factor 19. *)
Lemma range_round v c : u256 v -> 0 <= c < 2 ^ 20 ->
  (((Z.shiftl c 1 mod 2 ^ 32 + Z.shiftr (nth 3 v 0) 63) * 19) mod 2 ^ 64) mod 2 ^ 32 = (2 * c + num v / 2 ^ 255) * 19 /\ 0 <= num v / 2 ^ 255 <= 1.
Proof.
  intros U Hc. rewrite shiftr_top by exact U. pose proof (num_bound v U).
  assert (0 <= num v / 2 ^ 255 <= 1). { split; [apply Z.div_pos; lia|]. assert (num v / 2 ^ 255 < 2) by (apply Z.div_lt_upper_bound; lia). lia. }
  rewrite Z.shiftl_mul_pow2 by lia. change (2 ^ 1) with 2. split; [|assumption]. rewrite (Z.mod_small (c * 2)) by lia. rewrite (Z.mod_small _ (2 ^ 64)) by lia. rewrite Z.mod_small by lia. ring.
Qed.

Lemma range_step v c : u256 v -> 0 <= c < 2 ^ 20 -> let k := (2 * c + num v / 2 ^ 255) * 19 in let '(v', c') := add_carry (and_word v 3 0x7FFFFFFFFFFFFFFF) k in
  u256 v' /\ c' = 0 /\ num v' = num v mod 2 ^ 255 + k /\ cong pf (num v') (num v + 2 ^ 256 * c).
Proof.
  intros U Hc k. destruct (range_round v c U Hc) as [_ HT]. change 0x7FFFFFFFFFFFFFFF with (2 ^ 63 - 1). destruct (and_word_3 v 63 ltac:(lia) U) as [U' E]. change (192 + 63) with 255 in E.
  pose proof (add_carry_ok (and_word v 3 (2 ^ 63 - 1)) k (proj2 U') ltac:(unfold k; lia)) as H. destruct (add_carry _ k) as [v' c']. destruct H as (L & D & Ev & Bc).
  rewrite (proj1 U'), E in *. assert (U2 : u256 v') by now split. pose proof (num_bound v' U2) as B2. pose proof (Z.mod_pos_bound (num v) (2 ^ 255) ltac:(lia)) as B3.
  change ((2 ^ 64) ^ Z.of_nat 4) with (2 ^ 256) in Ev. assert (c' = 0) by (unfold k in *; lia). subst c'. split; [exact U2|]. split; [reflexivity|]. split; [lia|].
  replace (num v') with (num v mod 2 ^ 255 + k) by lia. unfold cong, k. pose proof (Z.div_mod (num v) (2 ^ 255) ltac:(lia)) as DM. set (q := num v / 2 ^ 255) in *.
  replace (num v + 2 ^ 256 * c) with (num v mod 2 ^ 255 + (2 * c + q) * 19 + (2 * c + q) * pf) by (unfold pf; lia). now rewrite Z_mod_plus_full.
Qed.

Lemma fp_range_loop_ok v c : u256 v -> 0 <= c < 2 ^ 20 ->
  u256 (fp_range_loop 3 c v) /\ num (fp_range_loop 3 c v) < 2 ^ 255 /\ cong pf (num (fp_range_loop 3 c v)) (num v + 2 ^ 256 * c).
Proof.
  intros U Hc. set (n := 3%nat). remember n as m eqn:Em. unfold n in Em.
  assert (G : forall m v c, (1 <= m)%nat -> u256 v -> 0 <= c < 2 ^ 20 -> (c = 0 /\ num v < 2 ^ 255 \/ (2 <= m)%nat /\ c = 0 /\ num v < 2 ^ 255 + 2 ^ 26 \/ (3 <= m)%nat) ->
    u256 (fp_range_loop m c v) /\ num (fp_range_loop m c v) < 2 ^ 255 /\ cong pf (num (fp_range_loop m c v)) (num v + 2 ^ 256 * c)).
  2:{ apply G; [lia|exact U|exact Hc|right; right; lia]. }
  clear. induction m as [|m IH]; intros v c Hm U Hc HB; [lia|]. cbn [fp_range_loop].
  destruct (range_round v c U Hc) as [-> HT]. pose proof (num_bound v U) as BV. pose proof (Z.div_mod (num v) (2 ^ 255) ltac:(lia)) as DM.
  pose proof (Z.mod_pos_bound (num v) (2 ^ 255) ltac:(lia)) as BM. destruct (Z.eqb_spec ((2 * c + num v / 2 ^ 255) * 19) 0) as [Ez|Nz].
  { assert (c = 0 /\ num v / 2 ^ 255 = 0) as [-> Eq] by lia. split; [exact U|]. split; [lia|]. rewrite Z.mul_0_r, Z.add_0_r. reflexivity. }
  pose proof (range_step v c U Hc) as HS. cbv zeta in HS. destruct (add_carry _ _) as [v' c']. destruct HS as (U' & -> & Ev & Ec).
  assert (HB' : (1 <= m)%nat /\ (0 = 0 /\ num v' < 2 ^ 255 \/ (2 <= m)%nat /\ 0 = 0 /\ num v' < 2 ^ 255 + 2 ^ 26 \/ (3 <= m)%nat)) by lia.
  destruct (IH v' 0 (proj1 HB') U' ltac:(lia) (proj2 HB')) as (U2 & L2 & C2). split; [exact U2|]. split; [exact L2|]. rewrite C2, <- Ec. now rewrite Z.mul_0_r, Z.add_0_r.
Qed.

Lemma fp_Range_ok d v c : u256 v -> 0 <= c < 2 ^ 20 -> fp (fp_Range d c v) /\ num (fp_Range d c v) = (num v + 2 ^ 256 * c) mod pf.
Proof.
  intros U Hc. unfold fp_Range. rewrite (Z.mod_small c) by lia. destruct (fp_range_loop_ok v c U Hc) as (U' & _ & C).
  destruct (fp_Reduce_ok d _ U') as [F V]. split; [exact F|]. rewrite V. exact C.
Qed.

(** ** Products *)

Lemma fold_columns_ok w lo : 32 <= w -> forall hi c, length hi = length lo -> 0 <= c < 2000 ->
  Forall (fun x => 0 <= x < 32 * 2 ^ w) lo -> Forall (fun x => 0 <= x < 32 * 2 ^ w) hi ->
  let '(v, c') := fold_columns w lo hi c in
  length v = length lo /\ rdigs (2 ^ w) v /\ 0 <= c' < 2000 /\
  rval (2 ^ w) v + (2 ^ w) ^ Z.of_nat (length lo) * c' = rval (2 ^ w) lo + 38 * rval (2 ^ w) hi + c.
Proof.
  intros Hw. pose proof (Z.pow_le_mono_r 2 32 w ltac:(lia) Hw) as PW. change (2 ^ 32) with 4294967296 in PW.
  induction lo as [|a lo IH]; intros hi c L Hc H1 H2; destruct hi as [|b hi]; try discriminate L; cbn [fold_columns].
  { cbn [length rval]. change (Z.of_nat 0) with 0. rewrite Z.pow_0_r. split; [reflexivity|]. split; [constructor|lia]. }
  apply Forall_cons_iff in H1 as [Ha H1]. apply Forall_cons_iff in H2 as [Hb H2]. injection L as L.
  assert (P2 : 2 ^ (2 * w) = 2 ^ w * 2 ^ w) by (rewrite <- Z.pow_add_r by lia; f_equal; lia).
  set (r := 2 ^ w) in *. rewrite (Z.mod_small (a + _)) by nia. rewrite Z.shiftr_div_pow2 by lia. fold r. set (m := a + (c + b * 38)).
  pose proof (Z.div_mod m r ltac:(lia)) as DM. pose proof (Z.mod_pos_bound m r ltac:(lia)) as MB.
  assert (Q : 0 <= m / r < 2000) by (split; [apply Z.div_pos; lia|apply Z.div_lt_upper_bound; lia]).
  specialize (IH hi (m / r) L Q H1 H2). destruct (fold_columns w lo hi (m / r)) as [v c']. destruct IH as (Lv & D & B & E).
  cbn [length rval]. rewrite Nat2Z.inj_succ, Z.pow_succ_r by lia. split; [now rewrite Lv|]. split; [constructor; [exact MB|exact D]|]. split; [exact B|].
  set (M := r ^ Z.of_nat (length lo)) in *. clearbody M. unfold m in *. nia.
Qed.

Lemma fp_mul_u256 d a b : u256 a -> u256 b -> fp (fp_mul d a b) /\ num (fp_mul d a b) = (num a * num b) mod pf.
Proof.
  intros Ua Ub. unfold fp_mul. destruct (Mul32_ok d a b Ua Ub) as (L & F & E). set (m := Mul32 d a b) in *. set (n := if d then 4%nat else 8%nat).
  assert (Hn : half_bits d * Z.of_nat n = 256 /\ 32 <= half_bits d /\ (2 ^ half_bits d) ^ Z.of_nat n = 2 ^ 256 /\ length m = (n + n)%nat) by (rewrite L; destruct d; repeat split; cbn; lia).
  destruct Hn as (Hw & Hw2 & Hw3 & Lm). rewrite <- (firstn_skipn n m) in F, E. apply Forall_app in F as [F1 F2].
  assert (L1 : length (firstn n m) = n) by (rewrite length_firstn; lia). assert (L2 : length (skipn n m) = n) by (rewrite length_skipn; lia).
  rewrite rval_app, L1, Hw3 in E. pose proof (fold_columns_ok (half_bits d) (firstn n m) Hw2 (skipn n m) 0 ltac:(congruence) ltac:(lia) F1 F2) as G.
  destruct (fold_columns _ _ _ 0) as [v c]. destruct G as (Lv & D & B & V). rewrite L1, Hw3 in *.
  destruct (cast_ok (half_bits d) 64 4 v ltac:(lia) ltac:(lia) D) as (L' & D' & E'); [rewrite Lv; lia|].
  destruct (fp_Range_ok d (cast (half_bits d) 64 4 v) c (conj L' D') ltac:(lia)) as [G N]. split; [exact G|]. rewrite N. unfold num at 1. rewrite E', <- E.
  replace (_ + 2 ^ 256 * rval _ (skipn n m)) with (rval (2 ^ half_bits d) v + 2 ^ 256 * c + 2 * rval (2 ^ half_bits d) (skipn n m) * pf) by (unfold pf; lia).
  now rewrite Z_mod_plus_full.
Qed.

Lemma fp_mul_ok d a b : fp a -> fp b -> fp (fp_mul d a b) /\ num (fp_mul d a b) = (num a * num b) mod pf.
Proof. intros [Ua _] [Ub _]. now apply fp_mul_u256. Qed.

(** ** The other operators *)

Lemma fp_new_ok : fp fp_new /\ num fp_new = 0.
Proof. split; [split; [split; [reflexivity|repeat constructor; lia]|reflexivity]|reflexivity]. Qed.

Lemma fp_of_u64_ok x : 0 <= x < 2 ^ 64 -> fp (fp_of_u64 x) /\ num (fp_of_u64 x) = x.
Proof. intros H. unfold fp_of_u64, Copy32_u64, fp. rewrite top_word. repeat split; [repeat constructor; lia|unfold pf; lia|lia]. Qed.

Lemma Copy32_id v : u256 v -> Copy32 v = v.
Proof. intros U. destruct (u256_words v U) as (a & b & c & e & -> & _). reflexivity. Qed.

Lemma fp_of_bytes_ok d v : u256 v -> fp (fp_of_bytes d v) /\ num (fp_of_bytes d v) = (num v mod 2 ^ 255) mod pf.
Proof.
  intros U. unfold fp_of_bytes. rewrite Copy32_id by exact U. change 0x7FFFFFFFFFFFFFFF with (2 ^ 63 - 1).
  destruct (and_word_3 v 63 ltac:(lia) U) as [U' E]. change (192 + 63) with 255 in E. rewrite <- E. now apply fp_Reduce_ok.
Qed.

Lemma fp_inj a b : fp a -> fp b -> num a mod pf = num b mod pf -> a = b.
Proof. intros Ha Hb E. rewrite !fp_mod in E by assumption. apply num_inj; auto with field. Qed.

Lemma fp_of_bytes_id d v : fp v -> fp_of_bytes d v = v.
Proof.
  intros [U H]. destruct (fp_of_bytes_ok d v U) as [F E]. apply fp_inj; [exact F|now split|]. rewrite E. pose proof (num_bound v U).
  rewrite (Z.mod_small _ (2 ^ 255)) by (unfold pf in *; lia). apply Z.mod_mod. discriminate.
Qed.

Lemma fp_add_ok d a b : fp a -> fp b -> fp (fp_add d a b) /\ num (fp_add d a b) = (num a + num b) mod pf.
Proof.
  intros [Ua Ha] [Ub Hb]. pose proof (num_bound a Ua). pose proof (num_bound b Ub). destruct (Add32_num d a b Ua Ub) as [U E].
  rewrite Z.mod_small in E by (unfold pf in *; lia). rewrite <- E. now apply fp_Reduce_ok.
Qed.

Lemma fp_sub_ok d a b : fp a -> fp b -> fp (fp_sub d a b) /\ num (fp_sub d a b) = (num a - num b) mod pf.
Proof.
  intros [Ua Ha] [Ub Hb]. pose proof (num_bound a Ua). pose proof (num_bound b Ub). unfold fp_sub.
  pose proof (Sub32_ok d a b Ua Ub) as S. destruct (Sub32 d a b) as [o c]. destruct S as (U & Bc & E).
  pose proof (num_bound o U). destruct (Z.ltb_spec 0 c) as [L|L].
  - assert (c = 1) by lia. subst c. destruct (Add32_num d o fp_prime U u256_fp_prime) as [U' E']. rewrite num_fp_prime in E'.
    assert (V : num (fst (Add32 d o fp_prime)) = num a - num b + pf) by (rewrite E'; symmetry; apply (Z.mod_unique_pos _ _ 1); unfold pf in *; lia).
    unfold fp. rewrite V. split; [split; [exact U'|lia]|]. apply (Z.mod_unique_pos _ _ (-1)); lia.
  - assert (c = 0) by lia. subst c. unfold fp. replace (num o) with (num a - num b) by lia. split; [split; [exact U|lia]|]. symmetry. apply Z.mod_small. lia.
Qed.

Lemma fp_neg_ok d a : fp a -> fp (fp_neg d a) /\ num (fp_neg d a) = (- num a) mod pf.
Proof. intros F. unfold fp_neg. destruct (fp_sub_ok d fp_new a (proj1 fp_new_ok) F) as [G E]. now rewrite (proj2 fp_new_ok) in E. Qed.

Lemma fp_eq_ok d a b : u256 a -> u256 b -> fp_eq d a b = (num a =? num b).
Proof. apply Compare32_eq. Qed.

Lemma fp_IsZero_ok a : u256 a -> fp_IsZero a = (num a =? 0).
Proof. apply IsZero32_ok. Qed.

(** A reduced element is packed as it is, and its parity is that of its value. *)
Lemma fp_top a b c e : fp [a; b; c; e] -> (e =? 0x7FFFFFFFFFFFFFFF) && (c =? 0xFFFFFFFFFFFFFFFF) && (b =? 0xFFFFFFFFFFFFFFFF) && (0xFFFFFFFFFFFFFFED <=? a) = false.
Proof.
  intros [U H]. rewrite top_word in H. apply not_true_iff_false. rewrite !andb_true_iff, !Z.eqb_eq, Z.leb_le. intros (((-> & ->) & ->) & ?). unfold pf in H. lia.
Qed.

Lemma fp_Pack_ok v : fp v -> fp_Pack v = v.
Proof.
  intros F. unfold fp_Pack. rewrite Copy32_id by apply F. destruct (u256_words v (proj1 F)) as (a & b & c & e & -> & _). cbn [nth]. now rewrite fp_top.
Qed.

Lemma fp_Parity_ok v : fp v -> fp_Parity v = num v mod 2.
Proof.
  intros F. unfold fp_Parity. destruct (u256_words v (proj1 F)) as (a & b & c & e & -> & _). cbn [nth fp_prime]. rewrite fp_top by exact F. cbn [Z.b2z].
  rewrite Z.lxor_0_r. change 1 with (Z.ones 1). rewrite Z.land_ones by lia. change (2 ^ 1) with 2. rewrite top_word.
  replace (a + _ + _ + _) with (a + (2 ^ 63 * b + 2 ^ 127 * c + 2 ^ 191 * e) * 2) by ring. now rewrite Z_mod_plus_full.
Qed.
