(* ===== verification/FpInverse.v ===== *)
(** * Inverses in the field of curve25519

    [Inverse] is the binary extended Euclidean algorithm on signed 256-bit words.  Its loop
    keeps B * n = u and D * n = v modulo the prime, and u * v is halved in every round but the
    first, so that 513 rounds end it. *)

From Stdlib Require Import ZArith List Lia Bool Znumtheory.
From S2P Require Import Prelude Radix Base25519 Base25519Ok Sc25519 Sc25519Ok Poly Fp25519 Fp25519Ok.
Import ListNotations.
Local Open Scope Z_scope.

Lemma snum_mod l : u256 l -> snum l mod 2 ^ 256 = num l /\ - 2 ^ 255 <= snum l < 2 ^ 255.
Proof.
  intros U. pose proof (num_bound l U). unfold snum, signed. change (256 - 1) with 255. destruct (Z.leb_spec (2 ^ 255) (num l)).
  - split; [|lia]. symmetry. apply (Z.mod_unique_pos _ _ (-1)); lia.
  - split; [apply Z.mod_small|]; lia.
Qed.

Lemma snum_of l x : u256 l -> num l = x mod 2 ^ 256 -> - 2 ^ 255 <= x < 2 ^ 255 -> snum l = x.
Proof.
  intros U E B. destruct (snum_mod l U) as [M R]. rewrite E in M. pose proof (Z.div_mod (snum l) (2 ^ 256) ltac:(lia)). pose proof (Z.div_mod x (2 ^ 256) ltac:(lia)). lia.
Qed.

Lemma snum_small l : u256 l -> num l < 2 ^ 255 -> snum l = num l.
Proof. intros U H. unfold snum, signed. change (256 - 1) with 255. now rewrite (proj2 (Z.leb_gt _ _)) by lia. Qed.

Lemma even_snum l : u256 l -> Z.even (num l) = Z.even (snum l).
Proof.
  intros U. unfold snum, signed. destruct (_ <=? _); [|reflexivity]. change (2 ^ 256) with (2 * 2 ^ 255). rewrite Z.even_sub, Z.even_mul. now destruct (Z.even (num l)).
Qed.

Lemma u256_halfPrime : u256 halfPrime /\ num halfPrime = (pf - 1) / 2.
Proof. split; [split; [reflexivity|repeat constructor; lia]|reflexivity]. Qed.

(** A signed coefficient between the prime and its negative. *)
Definition coef (B : list Z) : Prop := u256 B /\ - pf < snum B < pf.

Lemma fp_coef B : fp B -> coef B /\ snum B = num B.
Proof. intros [U H]. pose proof (num_bound B U). assert (E : snum B = num B) by (apply snum_small; [exact U|unfold pf in *; lia]). split; [split; [exact U|lia]|exact E]. Qed.

Definition half_coef (d : bool) (B : list Z) : list Z :=
  if IsEven B then HalfSigned32 d B else fst (Sub32 d (HalfSigned32 d B) halfPrime).

Lemma half_coef_ok d B : coef B -> coef (half_coef d B) /\ cong pf (2 * snum (half_coef d B)) (snum B).
Proof.
  intros [U H]. unfold half_coef. rewrite IsEven_ok, even_snum by exact U. destruct (HalfSigned32_ok d B U) as [Uh Eh].
  assert (Sh : snum (HalfSigned32 d B) = snum B / 2).
  { apply snum_of; [exact Uh|exact Eh|]. pose proof (Z.div_mod (snum B) 2 ltac:(lia)). pose proof (Z.mod_pos_bound (snum B) 2 ltac:(lia)). unfold pf in *. lia. }
  pose proof (Z.div_mod (snum B) 2 ltac:(lia)) as DM. pose proof (Zmod_even (snum B)) as ME. destruct (Z.even (snum B)).
  - unfold coef. rewrite Sh. split; [split; [exact Uh|lia]|]. replace (2 * (snum B / 2)) with (snum B) by lia. reflexivity.
  - destruct u256_halfPrime as [Up Ep]. destruct (Sub32_num d _ _ Uh Up) as [Us Es]. destruct (snum_mod _ Uh) as [Mh _].
    assert (Ss : snum (fst (Sub32 d (HalfSigned32 d B) halfPrime)) = snum B / 2 - (pf - 1) / 2).
    { apply snum_of; [exact Us| |]. { rewrite Es, Ep, <- Mh, Sh. apply Zminus_mod_idemp_l. }
      change ((pf - 1) / 2) with (2 ^ 254 - 10). unfold pf in *. lia. }
    change ((pf - 1) / 2) with (2 ^ 254 - 10) in Ss. unfold coef. rewrite Ss. split; [split; [exact Us|unfold pf in *; lia]|].
    replace (2 * _) with (snum B + (-1) * pf) by (unfold pf; lia). unfold cong. apply Z_mod_plus_full.
Qed.

Lemma ReduceSigned32_coef d B : coef B -> fp (ReduceSigned32 d B B fp_prime) /\ cong pf (num (ReduceSigned32 d B B fp_prime)) (snum B).
Proof.
  intros [U H]. destruct (ReduceSigned32_ok d B B fp_prime U U u256_fp_prime) as [Ur Er]. rewrite num_fp_prime in Er. unfold fp. rewrite Er. clear Er.
  unfold snum, signed in *. change (256 - 1) with 255 in *. pose proof (num_bound B U). destruct (Z.leb_spec (2 ^ 255) (num B)).
  - replace ((num B + pf) mod 2 ^ 256) with (num B - 2 ^ 256 + 1 * pf) by (apply (Z.mod_unique_pos _ _ 1); unfold pf in *; lia).
    split; [split; [exact Ur|lia]|]. unfold cong. apply Z_mod_plus_full.
  - rewrite (proj2 (Z.leb_gt _ _)) by lia. split; [split; [exact Ur|lia]|reflexivity].
Qed.

Lemma ReduceSigned32_fp d D : fp D -> ReduceSigned32 d D D fp_prime = D.
Proof.
  intros F. destruct (fp_coef D F) as [C E]. destruct (ReduceSigned32_coef d D C) as [G V]. rewrite E in V. now apply fp_inj.
Qed.

Lemma cong_half a b : cong pf (2 * a) (2 * b) -> cong pf a b.
Proof. apply (cong_cancel pf (2 ^ 254 - 9)). unfold cong, pf. reflexivity. Qed.

(** ** One variable and its coefficient

    [var n u B]: u is positive and below 2^255, and B is the coefficient of n that gives u. *)

Definition var (n : Z) (u B : list Z) : Prop := u256 u /\ 0 <= num u < 2 ^ 255 /\ fp B /\ cong pf (num B * n) (num u).

Lemma HalfSigned32_small d u : u256 u -> num u < 2 ^ 255 -> u256 (HalfSigned32 d u) /\ num (HalfSigned32 d u) = num u / 2.
Proof.
  intros U H. pose proof (num_bound u U). destruct (HalfSigned32_ok d u U) as [Uh Eh]. split; [exact Uh|]. rewrite Eh, snum_small by assumption.
  apply Z.mod_small. split; [apply Z.div_pos; lia|apply Z.div_lt_upper_bound; lia].
Qed.

Lemma fp_halve_loop_ok d n f : forall u B, u256 u -> num u < 2 ^ 255 -> 0 < num u < 2 ^ Z.of_nat f -> Z.even (num u) = true -> coef B -> cong pf (snum B * n) (num u) ->
  exists u' B', halve_loop d f u B = Ok (u', B') /\ u256 u' /\ 0 < num u' /\ 2 * num u' <= num u /\ (num u' | num u) /\ Z.even (num u') = false /\ coef B' /\ cong pf (snum B' * n) (num u').
Proof.
  induction f as [|f IH]; intros u B U H255 H Ev C K; [change (2 ^ Z.of_nat 0) with 1 in H; lia|]. cbn [halve_loop]. fold (half_coef d B).
  destruct (HalfSigned32_small d u U H255) as [Uh Eh]. destruct (half_coef_ok d B C) as [Ch Kh]. set (u1 := HalfSigned32 d u) in *. set (B1 := half_coef d B) in *.
  assert (E2 : num u = 2 * num u1). { rewrite Eh. pose proof (Z.div_mod (num u) 2 ltac:(lia)) as DM. rewrite Zmod_even, Ev in DM. lia. }
  assert (K1 : cong pf (snum B1 * n) (num u1)). { apply cong_half. rewrite <- E2, Z.mul_assoc, Kh. exact K. }
  rewrite Nat2Z.inj_succ, Z.pow_succ_r in H by lia. rewrite IsEven_ok by exact Uh. destruct (Z.even (num u1)) eqn:E1.
  - destruct (IH u1 B1 Uh ltac:(lia) ltac:(lia) E1 Ch K1) as (u' & B' & -> & U' & P' & L' & D' & O' & C' & K'). exists u', B'. split; [reflexivity|].
    repeat (split; [assumption || lia|]). split; [rewrite E2; now apply Z.divide_mul_r|]. tauto.
  - exists u1, B1. split; [reflexivity|]. repeat (split; [assumption || lia|]). split; [exists 2; lia|]. tauto.
Qed.

Lemma halve_ok d n u B : var n u B -> 0 < num u ->
  exists u' B', halve d u B = Ok (u', B') /\ var n u' B' /\ 0 < num u' <= num u /\ (Z.even (num u) = true -> 2 * num u' <= num u) /\ (num u' | num u) /\ Z.even (num u') = false.
Proof.
  intros (U & H & F & K) P. unfold halve. rewrite IsEven_ok by exact U. destruct (Z.even (num u)) eqn:Ev.
  - destruct (fp_coef B F) as [C E]. destruct (fp_halve_loop_ok d n 256 u B U ltac:(lia)) as (u' & B' & -> & U' & P' & L' & D' & O' & C' & K'); [change (Z.of_nat 256) with 256; lia|exact Ev|exact C|now rewrite E|].
    destruct (ReduceSigned32_coef d B' C') as [G V]. eexists u', _. split; [reflexivity|]. split; [|repeat split; (assumption || lia || (intros; lia))].
    split; [exact U'|]. split; [lia|]. split; [exact G|]. now rewrite V.
  - exists u, B. split; [reflexivity|]. repeat split; try assumption; try lia; try discriminate; try apply U; try apply F. exists 1; lia.
Qed.

Lemma sub_var d n u v B D : var n u B -> var n v D -> num v <= num u ->
  let B' := fst (Sub32 d B D) in var n (fst (Sub32 d u v)) (ReduceSigned32 d B' B' fp_prime) /\ num (fst (Sub32 d u v)) = num u - num v.
Proof.
  intros (U & H & F & K) (V & G & F' & K') L. cbv zeta. destruct (Sub32_num d u v U V) as [Us Es]. rewrite Z.mod_small in Es by lia. split; [|exact Es].
  destruct (Sub32_num d B D (proj1 F) (proj1 F')) as [Ub Eb]. pose proof (num_bound B (proj1 F)). pose proof (num_bound D (proj1 F')).
  assert (Sb : snum (fst (Sub32 d B D)) = num B - num D) by (apply snum_of; [exact Ub|exact Eb|destruct F, F'; unfold pf in *; lia]).
  destruct (ReduceSigned32_coef d (fst (Sub32 d B D))) as [Gb Vb]. { split; [exact Ub|]. destruct F, F'. rewrite Sb. lia. }
  split; [exact Us|]. split; [rewrite Es; lia|]. split; [exact Gb|]. rewrite Vb, Sb, Es, Z.mul_sub_distr_r, K, K'. reflexivity.
Qed.

(** ** The loop *)

Lemma odd_difference a b : Z.even a = false -> Z.even b = false -> Z.even (a - b) = true.
Proof. intros Ha Hb. rewrite Z.even_sub, Ha, Hb. reflexivity. Qed.

Definition bezout (n : Z) (D : list Z) : Prop := fp D /\ cong pf (num D * n) 1.

(** The tail of a round, after both halvings. *)
Definition round_tail (d : bool) (f : nat) (u v B D : list Z) : result (list Z) :=
  if 0 <=? CompareSigned32 d u v then
    let B := fst (Sub32 d B D) in inverse_loop d f (fst (Sub32 d u v)) v (ReduceSigned32 d B B fp_prime) D
  else let D := fst (Sub32 d D B) in inverse_loop d f u (fst (Sub32 d v u)) B (ReduceSigned32 d D D fp_prime).

Lemma CompareSigned32_small d a b : u256 a -> u256 b -> num a < 2 ^ 255 -> num b < 2 ^ 255 -> (0 <=? CompareSigned32 d a b) = (num b <=? num a).
Proof.
  intros Ua Ub Ha Hb. rewrite CompareSigned32_ok, !snum_small by assumption. destruct (Z.compare_spec (num a) (num b)) as [E|E|E]; symmetry; [apply Z.leb_le; lia|apply Z.leb_gt; lia|apply Z.leb_le; lia].
Qed.

Definition head (n : Z) (u v B D : list Z) : Prop := var n u B /\ var n v D /\ 0 < num v /\ rel_prime (num u) (num v).

Lemma coprime_sym a b : rel_prime a b -> rel_prime b a.
Proof. intros [A B G]. constructor; auto. Qed.

Lemma product_half a b a1 b1 : 0 < a1 <= a -> 0 < b1 <= b -> a1 * b1 <= a * b /\ (2 * a1 <= a \/ 2 * b1 <= b -> 2 * (a1 * b1) <= a * b).
Proof.
  intros Ha Hb. split; [apply Z.mul_le_mono_nonneg; lia|]. intros [L|L]; [rewrite Z.mul_assoc|rewrite (Z.mul_comm a1), Z.mul_assoc, (Z.mul_comm _ a1)]; apply Z.mul_le_mono_nonneg; lia.
Qed.

Lemma rel_prime_sub a b : rel_prime a b -> rel_prime (a - b) b.
Proof. intros [_ _ G]. constructor; [apply Z.divide_1_l|apply Z.divide_1_l|]. intros x H1 H2. apply G; [|exact H2]. replace a with (a - b + b) by ring. now apply Z.divide_add_r. Qed.

Lemma inverse_loop_step d n f k u v B D : (forall u v B D, head n u v B D -> num u * num v < 2 ^ k -> Z.even (num u) = true \/ Z.even (num v) = true ->
    exists D', inverse_loop d f u v B D = Ok D' /\ bezout n D') ->
  head n u v B D -> 0 < num u -> (Z.even (num u) = true \/ Z.even (num v) = true -> num u * num v < 2 * 2 ^ k) -> num u * num v < 2 ^ k \/ Z.even (num u) = true \/ Z.even (num v) = true ->
  exists D', inverse_loop d (S f) u v B D = Ok D' /\ bezout n D'.
Proof.
  intros IH (Hu & Hv & Pv & R) Pu Hk Hc. cbn [inverse_loop]. rewrite IsOne32_ok by apply Hv. destruct (Z.eqb_spec (num v) 1) as [E|N].
  { exists D. split; [reflexivity|]. destruct Hv as (_ & _ & F & K). rewrite E in K. now split. }
  destruct (halve_ok d n u B Hu Pu) as (u1 & B1 & -> & Hu1 & Lu & Eu & Du & Ou). destruct (halve_ok d n v D Hv Pv) as (v1 & D1 & -> & Hv1 & Lv & Ev & Dv & Ov).
  cbn [bind]. fold (round_tail d f u1 v1 B1 D1). assert (R1 : rel_prime (num u1) (num v1)).
  { apply (rel_prime_div (num u)); [|exact Du]. apply coprime_sym, (rel_prime_div (num v)); [now apply coprime_sym|exact Dv]. }
  destruct (product_half (num u) (num v) (num u1) (num v1) Lu Lv) as [Q1 Q2].
  assert (Q : num u1 * num v1 < 2 ^ k) by (destruct Hc as [Hc|Hc]; [lia|]; specialize (Hk Hc); lapply Q2; [lia|destruct Hc; auto]).
  unfold round_tail. rewrite CompareSigned32_small by (apply Hu1 || apply Hv1). destruct (Z.leb_spec (num v1) (num u1)) as [L|L].
  - destruct (sub_var d n u1 v1 B1 D1 Hu1 Hv1 L) as [Hs Es]. apply IH; [split; [exact Hs|split; [exact Hv1|split; [lia|rewrite Es; now apply rel_prime_sub]]]| |].
    + rewrite Es. nia.
    + left. rewrite Es. now apply odd_difference.
  - destruct (sub_var d n v1 u1 D1 B1 Hv1 Hu1 ltac:(lia)) as [Hs Es]. apply IH; [split; [exact Hu1|split; [exact Hs|split; [lia|rewrite Es; apply coprime_sym, rel_prime_sub; now apply coprime_sym]]]| |].
    + rewrite Es. nia.
    + right. rewrite Es. now apply odd_difference.
Qed.

Lemma inverse_loop_ok d n f : forall k u v B D, (k < f)%nat -> head n u v B D -> num u * num v < 2 ^ Z.of_nat k -> Z.even (num u) = true \/ Z.even (num v) = true ->
  exists D', inverse_loop d f u v B D = Ok D' /\ bezout n D'.
Proof.
  induction f as [|f IH]; intros k u v B D Hf Hh Hk Ev; [lia|]. destruct (Z.eq_dec (num u) 0) as [E0|N0].
  { cbn [inverse_loop]. destruct Hh as (_ & Hv & Pv & R). rewrite E0 in R. assert (num v = 1) as E1.
    { destruct R as [_ _ G]. specialize (G (num v) (Z.divide_0_r _) (Z.divide_refl _)). apply Z.divide_1_r_nonneg in G; lia. }
    rewrite IsOne32_ok, E1 by apply Hv. exists D. split; [reflexivity|]. destruct Hv as (_ & _ & F & K). rewrite E1 in K. now split. }
  assert (Pu : 0 < num u) by (destruct Hh as ((_ & ? & _) & _); lia). destruct k as [|k]; [change (2 ^ Z.of_nat 0) with 1 in Hk; destruct Hh as (_ & _ & ? & _); nia|].
  rewrite Nat2Z.inj_succ, Z.pow_succ_r in Hk by lia. apply (inverse_loop_step d n f (Z.of_nat k)); auto. intros. apply (IH k); auto. lia.
Qed.

Lemma Inverse_coprime d v : fp v -> rel_prime pf (num v) -> num v <> 0 -> exists i, fp_Inverse d v = Ok i /\ fp i /\ cong pf (num i * num v) 1.
Proof.
  intros F R N. pose proof (num_bound v (proj1 F)) as Bv. unfold fp_Inverse. rewrite fp_IsZero_ok, (proj2 (Z.eqb_neq _ _)) by (exact N || apply F).
  set (n := num v) in *. assert (One : fp [1; 0; 0; 0] /\ num [1; 0; 0; 0] = 1) by (apply (fp_of_u64_ok 1); lia).
  assert (H0 : head n fp_prime v Zero32 [1; 0; 0; 0]).
  { destruct F as [U L]. fold n in L. destruct fp_new_ok as [F0 E0]. split; [|split; [|split; [lia|now rewrite num_fp_prime]]].
    - split; [exact u256_fp_prime|]. rewrite num_fp_prime. split; [unfold pf; lia|]. split; [exact F0|]. change (num Zero32) with (num fp_new). rewrite E0, Z.mul_0_l. reflexivity.
    - split; [exact U|]. fold n. split; [unfold pf in L; lia|]. split; [apply One|]. rewrite (proj2 One), Z.mul_1_l. reflexivity. }
  assert (PB : pf * n < 2 ^ 510) by (destruct F as [_ L]; fold n in L; unfold pf in *; lia).
  destruct (inverse_loop_step d n 512 510 fp_prime v Zero32 [1; 0; 0; 0]) as (D & -> & FD & KD).
  - intros u w B D H. apply (inverse_loop_ok d n 512 510); [lia|exact H].
  - exact H0.
  - rewrite num_fp_prime. reflexivity.
  - intros _. rewrite num_fp_prime. fold n. lia.
  - left. rewrite num_fp_prime. exact PB.
  - cbn [bind]. rewrite ReduceSigned32_fp, fp_of_bytes_id by exact FD. exists D. now split.
Qed.
