(* ===== verification/Prime25519.v ===== *)
(** * The moduli are prime

    2^255 - 19 and the order of the base point, by Pocklington's criterion on the divisors of N - 1, checked by evaluation down to
    primes that trial division settles. *)

From Stdlib Require Import ZArith List Lia Bool Zdivisibility ZmodInv.
From Bignums Require Import BigN.
From S2P Require Import Prelude Poly Sc25519Ok Fp25519Ok.
Import ListNotations.
Local Open Scope Z_scope.

(** ** Prime divisors *)

Lemma least_divisor n : 1 < n -> exists p, Z.prime p /\ (p | n) /\ (Z.prime n \/ p * p <= n).
Proof.
  intros Hn. set (P k := 1 < k /\ (k | n)).
  assert (E : exists p, P p /\ forall k, P k -> p <= k).
  { assert (G : forall m, 0 <= m -> forall k, 0 <= k -> k <= m -> P k -> exists p, P p /\ forall j, P j -> p <= j).
    { intros m Hm. pattern m. apply natlike_ind; [|clear m Hm; intros m Hm IH|exact Hm]; intros k Hk L Pk; [unfold P in Pk; lia|].
      destruct (Z.eq_dec k (Z.succ m)) as [->|N]; [|apply (IH k); auto; lia].
      destruct (forallb (fun j => negb (n mod Z.of_nat j =? 0)) (seq 2 (Z.to_nat m - 1))) eqn:FB.
      - exists (Z.succ m). split; [exact Pk|]. intros j [Hj Dj]. destruct (Z_lt_ge_dec j (Z.succ m)) as [Lj|]; [|lia]. rewrite forallb_forall in FB.
        specialize (FB (Z.to_nat j)). rewrite in_seq, Z2Nat.id, (Z.mod0_divide n j Dj) in FB by lia. discriminate FB. lia.
      - apply not_true_iff_false in FB. rewrite forallb_forall in FB.
        destruct (existsb (fun j => n mod Z.of_nat j =? 0) (seq 2 (Z.to_nat m - 1))) eqn:EB.
        + apply existsb_exists in EB as (j & Hj & Ej). apply in_seq in Hj. apply Z.eqb_eq in Ej. apply (IH (Z.of_nat j)); [lia..|]. split; [lia|]. apply Z.mod_divide; lia.
        + exfalso. apply FB. intros j Hj. apply negb_true_iff. apply not_true_iff_false. intros Ej. apply not_true_iff_false in EB. apply EB, existsb_exists. now exists j. }
    apply (G n ltac:(lia) n); [lia|lia|]. split; [exact Hn|apply Z.divide_refl]. }
  destruct E as (p & [Hp Dp] & Min). exists p. assert (Pp : Z.prime p).
  { split; [exact Hp|]. intros k Hk Dk. assert (p <= k) by (apply Min; split; [lia|now apply (Z.divide_trans _ p)]). lia. }
  split; [exact Pp|]. split; [exact Dp|]. destruct Dp as [c Ec]. destruct (Z.eq_dec c 1) as [->|Nc].
  - left. now replace n with p by lia.
  - right. assert (1 < c) by nia. specialize (Min c). assert (p <= c) by (apply Min; split; [lia|exists p; lia]). nia.
Qed.

(** ** Trial division *)

Definition small_prime (n : Z) : bool :=
  (1 <? n) && forallb (fun k => negb (n mod Z.of_nat k =? 0)) (seq 2 (Z.to_nat (Z.sqrt n) - 1)).

Lemma small_prime_ok n : small_prime n = true -> Z.prime n.
Proof.
  unfold small_prime. rewrite andb_true_iff, Z.ltb_lt, forallb_forall. intros [Hn F]. destruct (least_divisor n Hn) as (p & Pp & Dp & [H|H]); [exact H|exfalso].
  pose proof (Z.prime_ge_2 p Pp). assert (p <= Z.sqrt n) by (apply Z.sqrt_le_square; lia). specialize (F (Z.to_nat p)).
  rewrite in_seq, Z2Nat.id, Z.mod0_divide in F by (assumption || lia). discriminate F. lia.
Qed.

(** ** Pocklington *)

Lemma cong_div n d a b : (d | n) -> cong n a b -> cong d a b.
Proof. intros D H. unfold cong in *. rewrite <- (Z.mod_mod_divide a n d), <- (Z.mod_mod_divide b n d) by exact D. now rewrite H. Qed.

Lemma cong_pow n a b k : 0 <= k -> cong n a b -> cong n (a ^ k) (b ^ k).
Proof. intros Hk H. pattern k. apply natlike_ind; [reflexivity| |exact Hk]. intros j Hj IH. rewrite !Z.pow_succ_r by exact Hj. now rewrite IH, H. Qed.

Lemma cong_0_divide n a : n <> 0 -> cong n a 0 <-> (n | a).
Proof. intros Hn. unfold cong. rewrite Z.mod_0_l by exact Hn. now apply Z.mod_divide. Qed.

Lemma cong_1_pow n a k : 0 <= k -> cong n a 1 -> cong n (a ^ k) 1.
Proof. intros Hk H. rewrite <- (Z.pow_1_l k Hk). now apply cong_pow. Qed.

Lemma le_scaled x y : 0 <= x -> 1 <= y -> x <= x * y.
Proof. nia. Qed.

Lemma pocklington_divides N a q p : Z.prime q -> Z.prime p -> (p | N) -> 1 < N -> (q | N - 1) -> cong N (a ^ (N - 1)) 1 ->
  Z.gcd (a ^ ((N - 1) / q) - 1) N = 1 -> (q | p - 1).
Proof.
  intros Hq Hp Dp HN [m Em] Ha Hg. pose proof (Z.prime_ge_2 q Hq). pose proof (Z.prime_ge_2 p Hp). destruct (Z.mod_pos_bound (p - 1) q ltac:(lia)) as [Hr _].
  destruct (Z.eq_dec ((p - 1) mod q) 0) as [E|E]; [apply Z.mod_divide; lia|exfalso].
  assert (C : Z.coprime q (p - 1)) by (apply Z.coprime_prime_l; [exact Hq|]; intros D; apply E; now apply Z.mod0_divide).
  apply Z.Bezout_coprime_iff in C as (s & t & B). replace ((N - 1) / q) with m in Hg by (rewrite Em; symmetry; apply Z.div_mul; lia). assert (Hm : 0 <= m) by nia.
  set (b := a ^ m) in *. set (k := Z.abs s + Z.abs t). set (s' := s + k * (p - 1)). set (t' := k * q - t). assert (E' : q * s' = 1 + (p - 1) * t') by (unfold s', t'; nia).
  assert (0 <= s' /\ 0 <= t') as [Hs Ht] by (pose proof (le_scaled k (p - 1)); pose proof (le_scaled k q); unfold s', t', k in *; lia).
  assert (Hqs : 0 <= q * s') by (apply Z.mul_nonneg_nonneg; lia). assert (Hmq : 0 <= m * q) by (apply Z.mul_nonneg_nonneg; lia).
  assert (Hpt : 0 <= (p - 1) * t') by (apply Z.mul_nonneg_nonneg; lia). clearbody s' t'.
  assert (Hab : cong p (b ^ (q * s')) 1).
  { unfold b. rewrite <- Z.pow_mul_r, Z.mul_assoc, Z.pow_mul_r by lia. apply cong_1_pow; [exact Hs|]. rewrite <- Em. now apply (cong_div N). }
  assert (Nb : b mod p <> 0).
  { intros Z0. assert (Q : cong p b 0) by (unfold cong; rewrite Z0; symmetry; apply Z.mod_0_l; lia). apply (cong_pow p b 0 (q * s')) in Q; [|lia]. rewrite Hab in Q. rewrite Z.pow_0_l in Q by lia.
    unfold cong in Q. rewrite Z.mod_0_l, Z.mod_1_l in Q by lia. lia. }
  assert (Hb : cong p b 1).
  { rewrite <- Hab, E', Z.pow_add_r, Z.pow_1_r, Z.pow_mul_r by lia. rewrite (cong_1_pow p (b ^ (p - 1)) t' Ht); [now rewrite Z.mul_1_r|].
    unfold cong. rewrite ZmodInv.Z.fermat_nz by assumption. symmetry. apply Z.mod_1_l. lia. }
  assert (D1 : (p | b - 1)) by (apply cong_0_divide; [lia|]; now rewrite Hb). assert (D : (p | 1)) by (rewrite <- Hg; now apply Z.gcd_greatest).
  apply Z.divide_1_r_nonneg in D; lia.
Qed.

(** Powers modulo N, on the machine integers of [BigN]. *)
Fixpoint powm (n a : bigN) (e : positive) : bigN :=
  match e with
  | xH => BigN.modulo a n
  | xO e' => let z := powm n a e' in BigN.modulo (BigN.mul z z) n
  | xI e' => let z := powm n a e' in BigN.modulo (BigN.mul a (BigN.modulo (BigN.mul z z) n)) n
  end.

Definition big (z : Z) : bigN := BigN.of_N (Z.to_N z).

Definition pow_mod (a e N : Z) : Z := BigN.to_Z (powm (big N) (big a) (Z.to_pos e)).

Lemma big_ok z : 0 <= z -> BigN.to_Z (big z) = z.
Proof. intros H. unfold big. now rewrite BigN.spec_of_N, Z2N.id. Qed.

Lemma powm_ok n a e : BigN.to_Z (powm n a e) = (BigN.to_Z a ^ Zpos e) mod BigN.to_Z n.
Proof.
  induction e as [e IH|e IH|]; cbn [powm]; rewrite ?BigN.spec_modulo, ?BigN.spec_mul, ?BigN.spec_modulo, ?BigN.spec_mul, ?IH.
  - rewrite Zmult_mod_idemp_r, Z.mul_assoc, Zmult_mod_idemp_r, <- Z.mul_assoc, (Z.mul_comm (_ mod _)), Z.mul_assoc, Zmult_mod_idemp_r.
    f_equal. rewrite Pos2Z.inj_xI, Z.pow_add_r, Z.pow_1_r, Z.pow_mul_r, Z.pow_2_r, Z.pow_mul_l by lia. ring.
  - rewrite <- Zmult_mod. f_equal. rewrite Pos2Z.inj_xO, Z.pow_mul_r, Z.pow_2_r, <- Z.pow_mul_l by lia. reflexivity.
  - now rewrite Z.pow_1_r.
Qed.

Lemma pow_mod_ok a e N : 0 <= a -> 0 < e -> 0 <= N -> pow_mod a e N = a ^ e mod N.
Proof. intros Ha He HN. unfold pow_mod. rewrite powm_ok, !big_ok, Z2Pos.id by assumption. reflexivity. Qed.

(** The divisors of N - 1 with their witnesses; their product exceeds the square root of N. *)
Definition product (c : list (Z * Z)) : Z := fold_right (fun aq x => snd aq * x) 1 c.

Fixpoint check (N : Z) (c : list (Z * Z)) : bool :=
  match c with
  | [] => true
  | (a, q) :: c' =>
      let b := pow_mod a ((N - 1) / q) N in
      (0 <=? a) && ((N - 1) mod q =? 0) && (0 <? (N - 1) / q) && (pow_mod b q N =? 1) && (Z.gcd (b - 1) N =? 1) &&
      (Z.gcd q (product c') =? 1) && check N c'
  end.

Lemma gcd_mod_sub a N : N <> 0 -> Z.gcd (a mod N - 1) N = Z.gcd (a - 1) N.
Proof. intros H. rewrite (Z.gcd_comm (a mod N - 1)), (Z.gcd_comm (a - 1)), <- (Z.gcd_mod (a mod N - 1) N), <- (Z.gcd_mod (a - 1) N) by exact H. now rewrite Zminus_mod_idemp_l. Qed.

Lemma check_divides N p c : 1 < N -> Z.prime p -> (p | N) -> Forall (fun aq => Z.prime (snd aq)) c -> check N c = true -> (product c | p - 1).
Proof.
  intros HN Hp Dp. induction c as [|[a q] c IH]; intros F H; [apply Z.divide_1_l|]. apply Forall_cons_iff in F as [Hq F]. cbn [check snd] in *. cbv zeta in H. pose proof (Z.prime_ge_2 q Hq).
  rewrite !andb_true_iff, !Z.eqb_eq, Z.leb_le, Z.ltb_lt in H. destruct H as ((((((A0 & D) & M0) & A) & G) & C) & H).
  rewrite (pow_mod_ok a) in A, G by lia. rewrite pow_mod_ok, Z.mod_pow_l in A by (lia || apply Z.mod_pos_bound; lia).
  rewrite <- Z.pow_mul_r in A by (lia || apply Z.div_pos; lia). replace ((N - 1) / q * q) with (N - 1) in A by (pose proof (Z.div_mod (N - 1) q ltac:(lia)); lia).
  rewrite gcd_mod_sub in G by lia. specialize (IH F H). change (product ((a, q) :: c)) with (q * product c).
  assert (Dq : (q | p - 1)). { apply (pocklington_divides N a); auto; [apply Z.mod_divide; lia|]. unfold cong. rewrite A, Z.mod_1_l; lia. }
  destruct Dq as [x Ex]. rewrite Ex. rewrite (Z.mul_comm x). apply Z.mul_divide_mono_l. apply (Z.gauss _ q); [now rewrite Z.mul_comm, <- Ex|]. now rewrite Z.gcd_comm.
Qed.

Lemma pocklington N c : Forall (fun aq => Z.prime (snd aq)) c -> (1 <? N) && (N <? product c * product c) && check N c = true -> Z.prime N.
Proof.
  rewrite !andb_true_iff, !Z.ltb_lt. intros F ((HN & HF) & HC). destruct (least_divisor N HN) as (p & Pp & Dp & [H|H]); [exact H|exfalso].
  pose proof (check_divides N p c HN Pp Dp F HC) as D. pose proof (Z.prime_ge_2 p Pp). apply Z.divide_pos_le in D; [|lia]. 
  assert (0 <= product c). { clear -F. induction F as [|[a q] c Hq _ IH]; [cbn; lia|]. pose proof (Z.prime_ge_2 _ Hq). apply Z.mul_nonneg_nonneg; [cbn in *; lia|exact IH]. } nia.
Qed.

Create HintDb primes.

Ltac primes := repeat (apply Forall_cons; [first [solve [auto with primes]|apply small_prime_ok; vm_compute; reflexivity]|]); apply Forall_nil.

Lemma prime_51 : Z.prime 1919519569386763.
Proof. apply (pocklington _ [(2, 8574133); (2, 127)]); [primes|vm_compute; reflexivity]. Qed.
#[export] Hint Resolve prime_51 : primes.

Lemma prime_116 : Z.prime 75445702479781427272750846543864801.
Proof. apply (pocklington _ [(2, 1919519569386763); (2, 75707)]); [primes|vm_compute; reflexivity]. Qed.
#[export] Hint Resolve prime_116 : primes.

Lemma prime_236 : Z.prime 74058212732561358302231226437062788676166966415465897661863160754340907.
Proof.
  apply (pocklington _ [(2, 1923133); (2, 75445702479781427272750846543864801)]); [primes|vm_compute; reflexivity].
Qed.
#[export] Hint Resolve prime_236 : primes.

Lemma prime_pf : Z.prime pf.
Proof.
  apply (pocklington _ [(2, 74058212732561358302231226437062788676166966415465897661863160754340907)]); [primes|vm_compute; reflexivity].
Qed.

Lemma prime_51' : Z.prime 1257559732178653.
Proof. apply (pocklington _ [(2, 531581); (2, 1224481)]); [primes|vm_compute; reflexivity]. Qed.
#[export] Hint Resolve prime_51' : primes.

Lemma prime_62 : Z.prime 4434155615661930479.
Proof. apply (pocklington _ [(2, 1257559732178653)]); [primes|vm_compute; reflexivity]. Qed.
#[export] Hint Resolve prime_62 : primes.

Lemma prime_88 : Z.prime 172054593956031949258510691.
Proof. apply (pocklington _ [(2, 4434155615661930479)]); [primes|vm_compute; reflexivity]. Qed.
#[export] Hint Resolve prime_88 : primes.

Lemma prime_134 : Z.prime 19757330305831588566944191468367130476339.
Proof. apply (pocklington _ [(2, 172054593956031949258510691)]); [primes|vm_compute; reflexivity]. Qed.
#[export] Hint Resolve prime_134 : primes.

Lemma prime_138 : Z.prime 276602624281642239937218680557139826668747.
Proof. apply (pocklington _ [(2, 19757330305831588566944191468367130476339)]); [primes|vm_compute; reflexivity]. Qed.
#[export] Hint Resolve prime_138 : primes.

Lemma prime_ell : Z.prime ell.
Proof. apply (pocklington _ [(2, 276602624281642239937218680557139826668747)]); [primes|vm_compute; reflexivity]. Qed.
