(* ===== verification/FpPower.v ===== *)
(** * Inverses, powers and square roots in the field of curve25519

    [Inverse] inverts every nonzero element, [Power] is exponentiation, and [Sqrt] finds a root
    of every square and returns zero for the other elements. *)

From Stdlib Require Import ZArith List Lia Bool Zdivisibility ZmodInv Znumtheory.
From S2P Require Import Prelude Radix Base25519 Base25519Ok Sc25519 Sc25519Ok Poly Fp25519 Fp25519Ok FpInverse Prime25519.
Import ListNotations.
Local Open Scope Z_scope.

Lemma pf_pos : 1 < pf.
Proof. reflexivity. Qed.

(** ** Facts on the residues *)

Lemma cong_nonzero_coprime a : ~ cong pf a 0 -> Z.coprime pf a.
Proof. intros H. apply Z.coprime_prime_l; [exact prime_pf|]. intros D. apply H, cong_0_divide; [discriminate|exact D]. Qed.

Lemma cong_mul_0 a b : cong pf (a * b) 0 -> cong pf a 0 \/ cong pf b 0.
Proof. rewrite !cong_0_divide by discriminate. intros D. apply (proj1 (Z.divide_prime_mul a b pf prime_pf)), D. Qed.

Lemma cong_small a b : 0 <= a < pf -> 0 <= b < pf -> cong pf a b -> a = b.
Proof. intros Ha Hb H. unfold cong in H. now rewrite !Z.mod_small in H. Qed.

Lemma fp_zero v : fp v -> cong pf (num v) 0 <-> num v = 0.
Proof. intros [U H]. pose proof (num_bound v U). split; [apply cong_small; lia|now intros ->]. Qed.

Lemma inverse_exists a : ~ cong pf a 0 -> exists i, cong pf (i * a) 1.
Proof.
  intros H. apply cong_nonzero_coprime, Z.Bezout_coprime_iff in H as (s & t & E). exists t. unfold cong. rewrite <- E. now rewrite Z.add_comm, Z_mod_plus_full.
Qed.

Lemma cong_cancel_nz a b c : ~ cong pf a 0 -> cong pf (a * b) (a * c) -> cong pf b c.
Proof. intros N H. destruct (inverse_exists a N) as [i Hi]. now apply (cong_cancel pf i a). Qed.

Lemma cong_1_nz : ~ cong pf 1 0.
Proof. discriminate. Qed.

(** ** Inverse *)

Lemma fp_Inverse_ok d v : fp v -> exists i, fp_Inverse d v = Ok i /\ fp i /\ (if num v =? 0 then num i = 0 else cong pf (num i * num v) 1).
Proof.
  intros F. destruct (Z.eqb_spec (num v) 0) as [E|N].
  - exists fp_new. unfold fp_Inverse. rewrite fp_IsZero_ok, E by apply F. split; [reflexivity|apply fp_new_ok].
  - apply Inverse_coprime; [exact F| |exact N]. apply rel_prime_iff_coprime, Z.coprime_prime_small; [exact prime_pf|].
    destruct F as [U H]. pose proof (num_bound v U). lia.
Qed.

Lemma fp_div_ok d a b : fp a -> fp b -> exists q, fp_div d a b = Ok q /\ fp q /\ (if num b =? 0 then num q = 0 else cong pf (num q * num b) (num a)).
Proof.
  intros Fa Fb. unfold fp_div. destruct (fp_Inverse_ok d b Fb) as (i & -> & Fi & H). cbn [bind]. eexists. split; [reflexivity|].
  destruct (fp_mul_ok d a i Fa Fi) as [Fm Em]. split; [exact Fm|]. rewrite Em. destruct (num b =? 0).
  - now rewrite H, Z.mul_0_r.
  - rewrite cong_mod by discriminate. now rewrite <- Z.mul_assoc, H, Z.mul_1_r.
Qed.

(** ** Powers

    [pw x k v]: v is the k-th power of x. *)

Definition pw (x : Z) (k : Z) (v : list Z) : Prop := 0 <= k /\ fp v /\ cong pf (num v) (x ^ k).

Lemma pw_mul d x j k a b : pw x j a -> pw x k b -> pw x (j + k) (fp_mul d a b).
Proof.
  intros (Hj & Fa & Ea) (Hk & Fb & Eb). destruct (fp_mul_ok d a b Fa Fb) as [F E]. split; [lia|]. split; [exact F|].
  rewrite E, cong_mod, Ea, Eb, Z.pow_add_r by (assumption || discriminate). reflexivity.
Qed.

Lemma pw_square d x k a : pw x k a -> pw x (2 * k) (fp_Square d a).
Proof. intros H. replace (2 * k) with (k + k) by ring. now apply pw_mul. Qed.

Lemma pw_1 v : fp v -> pw (num v) 1 v.
Proof. intros F. split; [lia|]. split; [exact F|]. now rewrite Z.pow_1_r. Qed.

Lemma pw_0 x : pw x 0 (fp_of_u64 1).
Proof. destruct (fp_of_u64_ok 1 ltac:(lia)) as [F E]. split; [lia|]. split; [exact F|]. now rewrite E. Qed.

Lemma power_window_ok d v k : fp v -> 0 <= k < 16 -> pw (num v) k (nth (Z.to_nat k) (power_window d v) []).
Proof.
  intros F Hk. pose proof (pw_0 (num v)) as P0. pose proof (pw_1 v F) as P1.
  assert (S : forall j a, pw (num v) j a -> pw (num v) (2 * j) (fp_Square d a) /\ pw (num v) (2 * j + 1) (fp_mul d (fp_Square d a) v)).
  { intros j a H. pose proof (pw_square d _ _ _ H). split; [assumption|]. now apply pw_mul. }
  destruct (S 1 _ P1) as [P2 P3], (S 2 _ P2) as [P4 P5], (S 3 _ P3) as [P6 P7], (S 4 _ P4) as [P8 P9], (S 5 _ P5) as [P10 P11], (S 6 _ P6) as [P12 P13], (S 7 _ P7) as [P14 P15].
  unfold power_window. cbn [fold_left Nat.div Nat.divmod fst snd nth app]. generalize dependent (fp_of_u64 1). intros one P0.
  assert (C : k = 0 \/ k = 1 \/ k = 2 \/ k = 3 \/ k = 4 \/ k = 5 \/ k = 6 \/ k = 7 \/ k = 8 \/ k = 9 \/ k = 10 \/ k = 11 \/ k = 12 \/ k = 13 \/ k = 14 \/ k = 15) by lia.
  repeat (destruct C as [->|C]; [cbn [Z.to_nat Pos.to_nat Pos.iter_op Nat.add nth]|]); [..|rewrite C; cbn [Z.to_nat Pos.to_nat Pos.iter_op Nat.add nth]].
  exact P0. exact P1. exact P2. exact P3. exact P4. exact P5. exact P6. exact P7. exact P8. exact P9. exact P10. exact P11. exact P12. exact P13. exact P14. exact P15.
Qed.

Lemma square4_ok d x k a : pw x k a -> pw x (16 * k) (square4 d a).
Proof. intros H. replace (16 * k) with (2 * (2 * (2 * (2 * k)))) by ring. now do 4 apply pw_square. Qed.

Lemma byte_nibbles b : 0 <= b < 256 -> 0 <= Z.shiftr b 4 < 16 /\ 0 <= Z.land b 15 < 16 /\ b = 16 * Z.shiftr b 4 + Z.land b 15.
Proof.
  intros H. change 15 with (Z.ones 4). rewrite Z.land_ones, Z.shiftr_div_pow2 by lia. change (2 ^ 4) with 16.
  pose proof (Z.div_mod b 16 ltac:(lia)). pose proof (Z.mod_pos_bound b 16 ltac:(lia)). lia.
Qed.

Lemma power_loop_ok d v bs : fp v -> rdigs (2 ^ 8) bs -> forall k r, pw (num v) k r ->
  pw (num v) (fold_left (fun k b => 256 * k + b) bs k) (power_loop d (power_window d v) bs r).
Proof.
  intros F. induction bs as [|b bs IH]; intros D k r H; [exact H|]. cbn [power_loop fold_left]. apply Forall_cons_iff in D as [Hb D].
  destruct (byte_nibbles b Hb) as (Hh & Hl & E). apply IH; [exact D|]. replace (256 * k + b) with (16 * (16 * k + Z.shiftr b 4) + Z.land b 15) by lia.
  apply pw_mul; [apply square4_ok, pw_mul; [now apply square4_ok|]|]; now apply power_window_ok.
Qed.

Lemma fold_bytes l : fold_left (fun k b => 256 * k + b) (rev l) 0 = rval (2 ^ 8) l.
Proof.
  induction l as [|b l IH]; [reflexivity|]. cbn [rev rval]. rewrite fold_left_app, IH. cbn [fold_left]. change (2 ^ 8) with 256. ring.
Qed.

Lemma fp_Power_ok d v e : fp v -> u256 e -> fp (fp_Power d v e) /\ num (fp_Power d v e) = (num v ^ num e) mod pf.
Proof.
  intros F U. destruct (buffer_bytes e U) as (_ & D & E). pose proof (power_loop_ok d v (rev (cast 64 8 32 e)) F (rdigs_rev _ _ D) 0 _ (pw_0 _)) as (_ & G & V).
  rewrite fold_bytes, E in V. split; [exact G|]. rewrite <- V. symmetry. now apply fp_mod.
Qed.

(** ** Square roots *)

Lemma squares_ok d x n : forall k g, pw x k g -> pw x (2 ^ Z.of_nat n * k) (squares d n g).
Proof.
  induction n as [|n IH]; intros k g H; cbn [squares]; [now rewrite Z.pow_0_r, Z.mul_1_l|].
  rewrite Nat2Z.inj_succ, Z.pow_succ_r by lia. replace (2 * 2 ^ Z.of_nat n * k) with (2 ^ Z.of_nat n * (2 * k)) by ring. now apply IH, pw_square.
Qed.

Lemma pow_nonzero a k : 0 <= k -> ~ cong pf a 0 -> ~ cong pf (a ^ k) 0.
Proof.
  intros Hk N. pattern k. apply natlike_ind; [exact cong_1_nz| |exact Hk]. intros j Hj IH H. rewrite Z.pow_succ_r in H by exact Hj. apply cong_mul_0 in H as [H|H]; auto.
Qed.

(** (p - 5) / 8 and (p - 1) / 4 *)
Definition exp58 : Z := 2 ^ 252 - 3.
Definition exp14 : Z := 2 ^ 253 - 5.

Lemma fp_Power58_ok d v : fp v -> num v <> 0 -> exists z, fp_Power58 d v = Ok z /\ pw (num v) exp58 z.
Proof.
  intros F N. unfold fp_Power58. rewrite fp_of_bytes_id by exact F. pose proof (pw_1 v F) as P1. pose proof (pw_square d _ _ _ P1) as P2.
  pose proof (pw_mul d _ _ _ _ _ P1 P2) as P3. destruct P3 as (_ & F3 & E3). destruct (fp_Inverse_ok d _ F3) as (i & -> & Fi & Hi).
  assert (N3 : ~ cong pf (num v ^ 3) 0) by (apply pow_nonzero; [lia|]; now rewrite fp_zero).
  destruct (Z.eqb_spec (num (fp_mul d v (fp_Square d v))) 0) as [Z0|_]. { exfalso. apply N3. change 3 with (1 + 2 * 1). now rewrite <- E3, Z0. }
  cbn [bind]. eexists. split; [reflexivity|]. pose proof (squares_ok d _ 251 _ _ P2) as (_ & Fs & Es). change (2 ^ Z.of_nat 251 * (2 * 1)) with (exp58 + 3) in Es.
  destruct (fp_mul_ok d _ i Fs Fi) as [Fm Em]. split; [discriminate|]. split; [exact Fm|]. rewrite Em, cong_mod by discriminate. change (1 + 2 * 1) with 3 in E3.
  rewrite Es, Z.pow_add_r by discriminate. rewrite E3 in Hi. rewrite <- Z.mul_assoc, (Z.mul_comm (num v ^ 3)), Hi, Z.mul_1_r. reflexivity.
Qed.

Lemma root_minus_one_ok d : fp (fp_of_bytes d root_minus_one) /\ cong pf (num (fp_of_bytes d root_minus_one) * num (fp_of_bytes d root_minus_one)) (-1).
Proof.
  assert (F : fp root_minus_one) by (split; [split; [reflexivity|apply rdigs_rdig; reflexivity]|vm_compute; reflexivity]). rewrite fp_of_bytes_id by exact F. split; [exact F|vm_compute; reflexivity].
Qed.

Lemma u256_minusOne : u256 minusOne /\ num minusOne = pf - 1.
Proof. split; [split; [reflexivity|repeat constructor; lia]|reflexivity]. Qed.

Definition square (x : Z) : Prop := exists y, cong pf (y * y) x.

Lemma square_root_unit z : cong pf (z * z) 1 -> cong pf z 1 \/ cong pf z (-1).
Proof.
  intros H. assert (E : cong pf ((z - 1) * (z + 1)) 0) by (replace ((z - 1) * (z + 1)) with (z * z - 1) by ring; now rewrite H).
  apply cong_mul_0 in E as [E|E]; [left; replace z with (z - 1 + 1) by ring|right; replace z with (z + 1 - 1) by ring]; now rewrite E.
Qed.

(** Euler's criterion, for the exponent (p - 1) / 4. *)
Lemma quarter_power x : square x -> ~ cong pf x 0 -> cong pf (x ^ exp14) 1 \/ cong pf (x ^ exp14) (-1).
Proof.
  intros [y E] N. apply square_root_unit. rewrite <- Z.pow_add_r by discriminate. assert (Ny : y mod pf <> 0).
  { intros Z0. apply N. rewrite <- E. assert (C : cong pf y 0) by (unfold cong; rewrite Z0; reflexivity). now rewrite C. }
  rewrite <- (cong_pow pf _ _ (exp14 + exp14) ltac:(discriminate) E). rewrite <- Z.pow_2_r, <- Z.pow_mul_r by discriminate. change (2 * (exp14 + exp14)) with (pf - 1).
  unfold cong. rewrite ZmodInv.Z.fermat_nz by (exact prime_pf || exact Ny). reflexivity.
Qed.

Lemma fp_Sqrt_ok d v : fp v -> exists r, fp_Sqrt d v = Ok r /\ fp r /\ (cong pf (num r * num r) (num v) \/ ~ square (num v) /\ num r = 0).
Proof.
  intros F. unfold fp_Sqrt. rewrite fp_IsZero_ok by apply F. destruct (Z.eqb_spec (num v) 0) as [E|N].
  { exists fp_new. destruct fp_new_ok as [F0 E0]. rewrite E0, E. split; [reflexivity|]. split; [exact F0|]. left. reflexivity. }
  destruct (fp_Power58_ok d v F N) as (z & -> & P58). cbn [bind]. pose proof (pw_mul d _ _ _ _ _ P58 (pw_1 v F)) as P38. pose proof (pw_mul d _ _ _ _ _ P58 P38) as P14.
  set (z38 := fp_mul d z v) in *. set (z14 := fp_mul d z z38) in *. change (exp58 + (exp58 + 1)) with exp14 in P14.
  destruct P38 as (_ & F38 & E38), P14 as (_ & F14 & E14). destruct u256_minusOne as [Um Em]. rewrite IsOne32_ok, Compare32_eq, Em by (apply F14 || exact Um).
  assert (SQ : cong pf (num z38 * num z38) (num v * num z14)).
  { rewrite E38, E14, <- Z.pow_add_r by discriminate. change (exp58 + 1 + (exp58 + 1)) with (Z.succ exp14). rewrite Z.pow_succ_r by discriminate. reflexivity. }
  destruct (Z.eqb_spec (num z14) 1) as [E1|N1]; [|destruct (Z.eqb_spec (num z14) (pf - 1)) as [E2|N2]].
  - exists z38. split; [reflexivity|]. rewrite E1, Z.mul_1_r in SQ. split; [exact F38|]. left. exact SQ.
  - destruct (root_minus_one_ok d) as [Fi Ei]. set (i := fp_of_bytes d root_minus_one) in *. destruct (fp_mul_ok d z38 i F38 Fi) as [Fm Em']. eexists. split; [reflexivity|]. split; [exact Fm|].
    assert (R : cong pf (num (fp_mul d z38 i) * num (fp_mul d z38 i)) (num v)).
    { rewrite Em', !cong_mod by discriminate. replace (num z38 * num i * (num z38 * num i)) with (num z38 * num z38 * (num i * num i)) by ring. rewrite SQ, Ei, E2.
      replace (num v * (pf - 1) * -1) with (num v + (- num v) * pf) by ring. unfold cong. apply Z_mod_plus_full. }
    left. exact R.
  - exists fp_new. destruct fp_new_ok as [F0 E0]. split; [reflexivity|]. split; [exact F0|]. right. split; [intros S|exact E0].
    pose proof (num_bound z14 (proj1 F14)). destruct (quarter_power (num v) S) as [Q|Q]; [now rewrite fp_zero| |]; rewrite <- E14 in Q.
    + apply N1. apply cong_small in Q; [exact Q|destruct F14; lia|unfold pf; lia].
    + apply N2. assert (Q' : cong pf (num z14) (pf - 1)) by (rewrite Q; reflexivity). apply cong_small in Q'; [exact Q'|destruct F14; lia|unfold pf; lia].
Qed.
