(* ===== verification/EdwardsId.v ===== *)
(** * Polynomial identities on a twisted Edwards curve

    What closure and associativity of the addition law come to, in any integral domain. *)

From Stdlib Require Import NsatzTactic.


Section Identities.

Context {R : Type} {zero one : R} {add mul sub : R -> R -> R} {opp : R -> R}.
Context {Ro : Ring_ops (T := R) (ring0 := zero) (ring1 := one) (add := add) (mul := mul) (sub := sub) (opp := opp) (ring_eq := @eq R)}.
Context {Rr : Ring (Ro := Ro)} {Rc : Cring (Rr := Rr)} {Rd : Integral_domain (Rcr := Rc)}.

Local Notation "a + b" := (add a b).
Local Notation "a - b" := (sub a b).
Local Notation "a * b" := (mul a b).
Local Notation "1" := one.

Variable d : R.

Definition curve (x y : R) : Prop := y * y - x * x = 1 + d * (x * x) * (y * y).

Lemma curve_add x1 y1 x2 y2 : curve x1 y1 -> curve x2 y2 -> let e := d * (x1 * x2) * (y1 * y2) in
  (y1 * y2 + x1 * x2) * (y1 * y2 + x1 * x2) * ((1 + e) * (1 + e)) - (x1 * y2 + x2 * y1) * (x1 * y2 + x2 * y1) * ((1 - e) * (1 - e)) =
  (1 + e) * (1 - e) * ((1 + e) * (1 - e)) + d * ((x1 * y2 + x2 * y1) * (x1 * y2 + x2 * y1)) * ((y1 * y2 + x1 * x2) * (y1 * y2 + x1 * x2)).
Proof. cbv zeta. unfold curve. intros H1 H2. nsatz. Qed.

Lemma curve_assoc_x x1 y1 x2 y2 x3 y3 : curve x1 y1 -> curve x2 y2 -> curve x3 y3 ->
  let e := d * (x1 * x2) * (y1 * y2) in let A := x1 * y2 + x2 * y1 in let B := y1 * y2 + x1 * x2 in
  let e' := d * (x2 * x3) * (y2 * y3) in let A' := x2 * y3 + x3 * y2 in let B' := y2 * y3 + x2 * x3 in
  (A * (1 - e) * y3 + x3 * (B * (1 + e))) * ((1 + e') * (1 - e') + d * (x1 * A') * (y1 * B')) =
  (x1 * (B' * (1 + e')) + A' * (1 - e') * y1) * ((1 + e) * (1 - e) + d * (A * x3) * (B * y3)).
Proof. cbv zeta. unfold curve. intros H1 H2 H3. nsatz. Qed.

Lemma curve_assoc_y x1 y1 x2 y2 x3 y3 : curve x1 y1 -> curve x2 y2 -> curve x3 y3 ->
  let e := d * (x1 * x2) * (y1 * y2) in let A := x1 * y2 + x2 * y1 in let B := y1 * y2 + x1 * x2 in
  let e' := d * (x2 * x3) * (y2 * y3) in let A' := x2 * y3 + x3 * y2 in let B' := y2 * y3 + x2 * x3 in
  (B * (1 + e) * y3 + A * (1 - e) * x3) * ((1 + e') * (1 - e') - d * (x1 * A') * (y1 * B')) =
  (y1 * (B' * (1 + e')) + x1 * (A' * (1 - e'))) * ((1 + e) * (1 - e) - d * (A * x3) * (B * y3)).
Proof. cbv zeta. unfold curve. intros H1 H2 H3. nsatz. Qed.

End Identities.

