(* ===== verification/Edwards.v ===== *)
(** * The group of a twisted Edwards curve

    The curve y^2 - x^2 = 1 + d x^2 y^2 over the integers modulo a prime, with a square root i
    of -1 and d not a square: the addition law is complete and makes the points a commutative
    group.  This is the reference that the extended coordinates of ed25519.cpp are proved
    against. *)

From Stdlib Require Import ZArith List Lia Bool Zdivisibility Zmod ZmodNsatz Field.
From S2P Require Import Prelude EdwardsId.
Import ListNotations.
Local Open Scope Zmod_scope.

Section Edwards.

Context {p : Z} (Hp : Z.prime p).
Context (d i : Zmod p) (Hi : i * i = - (1)) (Hd : forall x, x * x <> d) (H2 : 1 + 1 <> (0 : Zmod p)).

Add Field field_p : (Zmod.field_theory p Hp).

Lemma mul_zero (a b : Zmod p) : a * b = 0 -> a = 0 \/ b = 0.
Proof. apply Zmod.mul_0_iff_prime, Hp. Qed.

Lemma mul_nz (a b : Zmod p) : a <> 0 -> b <> 0 -> a * b <> 0.
Proof. intros Ha Hb H. apply mul_zero in H. tauto. Qed.

Lemma one_nz : (1 : Zmod p) <> 0.
Proof. apply (F_1_neq_0 (Zmod.field_theory p Hp)). Qed.

Lemma div_move (a b c : Zmod p) : b <> 0 -> a = c * b -> Zmod.mdiv a b = c.
Proof. intros N ->. field. exact N. Qed.

Lemma zero_dec (a : Zmod p) : {a = 0} + {a <> 0}.
Proof. destruct (Zmod.eqb a 0) eqn:E; [left|right; intros H]; apply Zmod.eqb_eq in E || apply Zmod.eqb_eq in H; congruence. Qed.

Definition affine : Type := Zmod p * Zmod p.

Definition on (P : affine) : Prop := let (x, y) := P in y * y - x * x = 1 + d * (x * x) * (y * y).

Definition origin : affine := (0, 1).

Definition eps (P Q : affine) : Zmod p := d * (fst P * fst Q) * (snd P * snd Q).

Definition eadd (P Q : affine) : affine :=
  let (x1, y1) := P in
  let (x2, y2) := Q in
  (Zmod.mdiv (x1 * y2 + x2 * y1) (1 + eps P Q), Zmod.mdiv (y1 * y2 + x1 * x2) (1 - eps P Q)).

Definition eopp (P : affine) : affine := (- fst P, snd P).

(** ** Completeness *)

(** The square of a quotient would be d. *)
Lemma not_d_times_square a b : b <> 0 -> a * a <> d * (b * b).
Proof. intros N E. apply (Hd (Zmod.mdiv a b)). transitivity (Zmod.mdiv (a * a) (b * b)); [field; exact N|]. rewrite E. field. exact N. Qed.

Lemma denominator P Q : on P -> on Q -> eps P Q * eps P Q <> 1.
Proof.
  destruct P as [x1 y1], Q as [x2 y2]. unfold on, eps. cbn [fst snd]. intros H1 H2' E. set (e := d * (x1 * x2) * (y1 * y2)) in *.
  assert (Ne : e <> 0) by (intros Z0; rewrite Z0, Zmod.mul_0_l in E; now apply one_nz).
  assert (Nx : x1 <> 0) by (intros Z0; apply Ne; unfold e; rewrite Z0; ring). assert (Ny : y1 <> 0) by (intros Z0; apply Ne; unfold e; rewrite Z0; ring).
  assert (S : forall s, s * s = 1 -> i * x2 + s * y2 <> 0 -> False).
  { intros s Hs N. apply (not_d_times_square (i * x1 + s * (e * y1)) (x1 * y1 * (i * x2 + s * y2))); [repeat apply mul_nz; assumption|].
    transitivity (i * i * (x1 * x1) + (1 + 1) * i * s * e * x1 * y1 + s * s * (e * e) * (y1 * y1)); [ring|]. rewrite Hi, Hs, E.
    transitivity (y1 * y1 - x1 * x1 + (1 + 1) * i * s * e * x1 * y1); [ring|]. rewrite H1.
    transitivity (d * (x1 * x1) * (y1 * y1) * (i * i * (x2 * x2) + s * s * (y2 * y2)) + (1 + 1) * i * s * e * x1 * y1); [|unfold e; ring]. rewrite Hi, Hs.
    transitivity (d * (x1 * x1) * (y1 * y1) * (y2 * y2 - x2 * x2) + (1 + 1) * i * s * e * x1 * y1); [|ring]. rewrite H2'.
    transitivity (d * (x1 * x1) * (y1 * y1) + e * e + (1 + 1) * i * s * e * x1 * y1); [rewrite E; ring|unfold e; ring]. }
  assert (A : i * x2 + y2 = 0). { destruct (zero_dec (i * x2 + y2)) as [Z0|N]; [exact Z0|]. exfalso. apply (S 1); [ring|]. now replace (1 * y2) with y2 by ring. }
  assert (B : i * x2 + - y2 = 0). { destruct (zero_dec (i * x2 + - y2)) as [Z0|N]; [exact Z0|]. exfalso. apply (S (- (1))); [ring|]. now replace (- (1) * y2) with (- y2) by ring. }
  apply Ne. assert (C : (1 + 1) * y2 = 0) by (replace ((1 + 1) * y2) with (i * x2 + y2 - (i * x2 + - y2)) by ring; rewrite A, B; ring). apply mul_zero in C as [C|C]; [contradiction|]. unfold e. rewrite C. ring.
Qed.

Lemma denominators P Q : on P -> on Q -> 1 + eps P Q <> 0 /\ 1 - eps P Q <> 0.
Proof. intros HP HQ. pose proof (denominator P Q HP HQ) as N. set (e := eps P Q) in *. clearbody e. split; intros Z0; apply N.
  - replace (e * e) with ((1 + e) * (e - 1) + 1) by ring. rewrite Z0. ring.
  - replace (e * e) with (1 - (1 - e) * (1 + e)) by ring. rewrite Z0. ring. Qed.

Lemma on_origin : on origin.
Proof. unfold on, origin. ring. Qed.

Lemma on_opp P : on P -> on (eopp P).
Proof. destruct P as [x y]. unfold on, eopp. cbn [fst snd]. intros H. replace (- x * - x) with (x * x) by ring. exact H. Qed.

(** The sum in terms of its numerators and denominators. *)
Lemma eadd_spec P Q : on P -> on Q -> exists x3 y3, eadd P Q = (x3, y3) /\
  x3 * (1 + eps P Q) = fst P * snd Q + fst Q * snd P /\ y3 * (1 - eps P Q) = snd P * snd Q + fst P * fst Q.
Proof.
  intros HP HQ. destruct (denominators P Q HP HQ) as [N1 N2]. destruct P as [x1 y1], Q as [x2 y2]. unfold eadd. eexists _, _. split; [reflexivity|]. cbn [fst snd]. split; field; assumption.
Qed.

Lemma cancel (a b c : Zmod p) : c <> 0 -> a * c = b * c -> a = b.
Proof.
  intros N E. assert (Z0 : (a - b) * c = 0) by (replace ((a - b) * c) with (a * c - b * c) by ring; rewrite E; ring).
  apply mul_zero in Z0 as [Z0|Z0]; [|contradiction]. replace a with (a - b + b) by ring. rewrite Z0. ring.
Qed.

(** A pair with those numerators and denominators is the sum. *)
Lemma eadd_unique P Q x y : on P -> on Q -> x * (1 + eps P Q) = fst P * snd Q + fst Q * snd P -> y * (1 - eps P Q) = snd P * snd Q + fst P * fst Q -> eadd P Q = (x, y).
Proof.
  intros HP HQ Ex Ey. destruct (denominators P Q HP HQ) as [N1 N2]. destruct (eadd_spec P Q HP HQ) as (x3 & y3 & -> & Ex3 & Ey3).
  f_equal; [apply (cancel _ _ (1 + eps P Q)); [exact N1|congruence]|apply (cancel _ _ (1 - eps P Q)); [exact N2|congruence]].
Qed.

Lemma on_add P Q : on P -> on Q -> on (eadd P Q).
Proof.
  intros HP HQ. destruct (denominators P Q HP HQ) as [N1 N2]. destruct (eadd_spec P Q HP HQ) as (x3 & y3 & -> & Ex & Ey).
  destruct P as [x1 y1], Q as [x2 y2]. unfold on, eps in *. cbn [fst snd] in *.
  set (e := d * (x1 * x2) * (y1 * y2)) in *. apply (cancel _ _ ((1 + e) * (1 - e) * ((1 + e) * (1 - e)))); [repeat apply mul_nz; assumption|].
  transitivity ((y3 * (1 - e)) * (y3 * (1 - e)) * ((1 + e) * (1 + e)) - (x3 * (1 + e)) * (x3 * (1 + e)) * ((1 - e) * (1 - e))); [ring|].
  transitivity ((1 + e) * (1 - e) * ((1 + e) * (1 - e)) + d * ((x3 * (1 + e)) * (x3 * (1 + e))) * ((y3 * (1 - e)) * (y3 * (1 - e)))); [|ring].
  rewrite Ex, Ey. exact (curve_add (Rd := Integral_domain_Zmod p Hp) d x1 y1 x2 y2 HP HQ).
Qed.

Lemma eps_comm P Q : eps P Q = eps Q P.
Proof. unfold eps. ring. Qed.

Lemma eadd_comm P Q : eadd P Q = eadd Q P.
Proof. unfold eadd. rewrite (eps_comm Q P). destruct P as [x1 y1], Q as [x2 y2]. f_equal; f_equal; ring. Qed.

Lemma eadd_origin P : on P -> eadd P origin = P.
Proof. destruct P as [x y]. intros H. apply eadd_unique; [exact H|exact on_origin| |]; unfold eps, origin; cbn [fst snd]; ring. Qed.

Lemma eadd_opp P : on P -> eadd P (eopp P) = origin.
Proof.
  destruct P as [x y]. intros H. apply eadd_unique; [exact H|now apply on_opp| |]; unfold eps, eopp; cbn [fst snd]; [ring|].
  unfold on in H. transitivity (1 + d * (x * x) * (y * y)); [ring|]. rewrite <- H. ring.
Qed.

Lemma eadd_assoc P Q R : on P -> on Q -> on R -> eadd (eadd P Q) R = eadd P (eadd Q R).
Proof.
  intros HP HQ HR. pose proof (on_add P Q HP HQ) as HPQ. pose proof (on_add Q R HQ HR) as HQR.
  destruct (denominators _ _ HP HQ) as [N1 N2], (denominators _ _ HQ HR) as [M1 M2].
  destruct (eadd_spec P Q HP HQ) as (x12 & y12 & E12 & Ex12 & Ey12), (eadd_spec Q R HQ HR) as (x23 & y23 & E23 & Ex23 & Ey23). rewrite E12, E23 in *.
  destruct (denominators _ _ HPQ HR) as [L1 L2], (denominators _ _ HP HQR) as [K1 K2].
  destruct (eadd_spec _ R HPQ HR) as (xl & yl & -> & Exl & Eyl), (eadd_spec P _ HP HQR) as (xr & yr & -> & Exr & Eyr). clear E12 E23 HPQ HQR.
  destruct P as [x1 y1], Q as [x2 y2], R as [x3 y3]. unfold eps in *. cbn [fst snd] in *.
  pose proof (curve_assoc_x (Rd := Integral_domain_Zmod p Hp) d x1 y1 x2 y2 x3 y3 HP HQ HR) as AX. pose proof (curve_assoc_y (Rd := Integral_domain_Zmod p Hp) d x1 y1 x2 y2 x3 y3 HP HQ HR) as AY.
  cbv zeta in AX, AY. rewrite <- Ex12, <- Ey12, <- Ex23, <- Ey23 in AX, AY. clear HP HQ HR Ex12 Ey12 Ex23 Ey23 Hi Hd H2.
  set (e := d * (x1 * x2) * (y1 * y2)) in *. set (e' := d * (x2 * x3) * (y2 * y3)) in *. clearbody e e'. f_equal.
  - apply (cancel _ _ ((1 + d * (x12 * x3) * (y12 * y3)) * ((1 + e) * (1 - e)) * ((1 + d * (x1 * x23) * (y1 * y23)) * ((1 + e') * (1 - e'))))); [repeat apply mul_nz; assumption|].
    transitivity (xl * (1 + d * (x12 * x3) * (y12 * y3)) * ((1 + e) * (1 - e)) * ((1 + d * (x1 * x23) * (y1 * y23)) * ((1 + e') * (1 - e')))); [ring|].
    transitivity (xr * (1 + d * (x1 * x23) * (y1 * y23)) * ((1 + e') * (1 - e')) * ((1 + d * (x12 * x3) * (y12 * y3)) * ((1 + e) * (1 - e)))); [|ring].
    rewrite Exl, Exr. transitivity ((x12 * (1 + e) * (1 - e) * y3 + x3 * (y12 * (1 - e) * (1 + e))) * ((1 + e') * (1 - e') + d * (x1 * (x23 * (1 + e'))) * (y1 * (y23 * (1 - e'))))); [ring|]. rewrite AX. ring.
  - apply (cancel _ _ ((1 - d * (x12 * x3) * (y12 * y3)) * ((1 + e) * (1 - e)) * ((1 - d * (x1 * x23) * (y1 * y23)) * ((1 + e') * (1 - e'))))); [repeat apply mul_nz; assumption|].
    transitivity (yl * (1 - d * (x12 * x3) * (y12 * y3)) * ((1 + e) * (1 - e)) * ((1 - d * (x1 * x23) * (y1 * y23)) * ((1 + e') * (1 - e')))); [ring|].
    transitivity (yr * (1 - d * (x1 * x23) * (y1 * y23)) * ((1 + e') * (1 - e')) * ((1 - d * (x12 * x3) * (y12 * y3)) * ((1 + e) * (1 - e)))); [|ring].
    rewrite Eyl, Eyr. transitivity ((y12 * (1 - e) * (1 + e) * y3 + x12 * (1 + e) * (1 - e) * x3) * ((1 + e') * (1 - e') - d * (x1 * (x23 * (1 + e'))) * (y1 * (y23 * (1 - e'))))); [ring|]. rewrite AY. ring.
Qed.

(** ** Multiples *)

Definition emul (n : Z) (P : affine) : affine := Z.iter n (eadd P) origin.

Lemma emul_0 P : emul 0 P = origin.
Proof. reflexivity. Qed.

Lemma emul_succ n P : (0 <= n)%Z -> emul (Z.succ n) P = eadd P (emul n P).
Proof. intros H. unfold emul. destruct n as [|n|n]; [reflexivity| |lia]. cbn [Z.succ Z.add Z.iter]. now rewrite Pos.add_1_r, Pos.iter_succ. Qed.

Lemma on_mul n P : on P -> on (emul n P).
Proof.
  intros H. destruct (Z_lt_le_dec n 0) as [L|L]; [destruct n; try lia; exact on_origin|]. pattern n. apply natlike_ind; [exact on_origin| |exact L].
  intros k Hk IH. rewrite emul_succ by exact Hk. now apply on_add.
Qed.

Lemma emul_add m n P : on P -> (0 <= m)%Z -> (0 <= n)%Z -> emul (m + n) P = eadd (emul m P) (emul n P).
Proof.
  intros H Hm Hn. pattern m. apply natlike_ind; [| |exact Hm].
  - rewrite Z.add_0_l, emul_0, eadd_comm, eadd_origin; [reflexivity|now apply on_mul].
  - intros k Hk IH. rewrite Z.add_succ_l, !emul_succ, IH, eadd_assoc by (lia || auto using on_mul). reflexivity.
Qed.

Lemma emul_origin n : (0 <= n)%Z -> emul n origin = origin.
Proof. intros H. pattern n. apply natlike_ind; [reflexivity| |exact H]. intros k Hk IH. rewrite emul_succ, IH by exact Hk. apply eadd_origin, on_origin. Qed.

Lemma emul_mul m n P : on P -> (0 <= m)%Z -> (0 <= n)%Z -> emul (m * n) P = emul m (emul n P).
Proof.
  intros H Hm Hn. pattern m. apply natlike_ind; [reflexivity| |exact Hm]. intros k Hk IH.
  rewrite Z.mul_succ_l, Z.add_comm, emul_add, emul_succ, IH by (lia || auto with zarith). reflexivity.
Qed.

Lemma emul_1 P : on P -> emul 1 P = P.
Proof. intros H. change 1%Z with (Z.succ 0). rewrite emul_succ by lia. now apply eadd_origin. Qed.

(** A multiple depends on the residue modulo the order only. *)
Lemma emul_mod n l P : on P -> (0 <= n)%Z -> (0 < l)%Z -> emul l P = origin -> emul (n mod l) P = emul n P.
Proof.
  intros H Hn Hl E. pose proof (Z.div_mod n l ltac:(lia)) as DM. pose proof (Z.mod_pos_bound n l Hl) as MB. assert (Q : (0 <= n / l)%Z) by (apply Z.div_pos; lia).
  rewrite DM at 2. rewrite Z.mul_comm, emul_add, emul_mul, E, emul_origin, eadd_comm, eadd_origin; auto using on_mul; lia || (apply Z.mul_nonneg_nonneg; lia).
Qed.

End Edwards.
