(* ===== verification/Ed25519.v ===== *)
(** * Points of curve25519 in extended coordinates: crypto/curve25519/ed25519.cpp

    A [CEdwards25519] has four field elements and a mutable table [preScalar] of sixteen
    points; the entries of the table have no table of their own.  The table stays when the
    coordinates change, and ScalarMult decides by two of them whether to use it. *)

From Stdlib Require Import ZArith List Lia Bool.
From S2P Require Import Prelude Radix Base25519 Sc25519 Fp25519.
Import ListNotations.
Local Open Scope Z_scope.

Record coordinates : Type := mk_coords { fX : list Z; fY : list Z; fZ : list Z; fT : list Z }.
Record CEdwards25519 : Type := mk_ed { coords : coordinates; preScalar : list coordinates }.

Definition set_coords (c : coordinates) (P : CEdwards25519) : CEdwards25519 := mk_ed c (preScalar P).

Definition _ecd : list Z := words_of_bytes
  [0xA3; 0x78; 0x59; 0x13; 0xCA; 0x4D; 0xEB; 0x75; 0xAB; 0xD8; 0x41; 0x41; 0x4D; 0x0A; 0x70; 0x00;
   0x98; 0xE8; 0x79; 0x77; 0x79; 0x40; 0xC7; 0x8C; 0x73; 0xFE; 0x6F; 0x2B; 0xEE; 0x6C; 0x03; 0x52].
Definition _ecd2 : list Z := words_of_bytes
  [0x59; 0xf1; 0xb2; 0x26; 0x94; 0x9b; 0xd6; 0xeb; 0x56; 0xb1; 0x83; 0x82; 0x9a; 0x14; 0xe0; 0x00;
   0x30; 0xd1; 0xf3; 0xee; 0xf2; 0x80; 0x8e; 0x19; 0xe7; 0xfc; 0xdf; 0x56; 0xdc; 0xd9; 0x06; 0x24].
Definition _base_x : list Z := words_of_bytes
  [0x1A; 0xD5; 0x25; 0x8F; 0x60; 0x2D; 0x56; 0xC9; 0xB2; 0xA7; 0x25; 0x95; 0x60; 0xC7; 0x2C; 0x69;
   0x5C; 0xDC; 0xD6; 0xFD; 0x31; 0xE2; 0xA4; 0xC0; 0xFE; 0x53; 0x6E; 0xCD; 0xD3; 0x36; 0x69; 0x21].
Definition _base_y : list Z := words_of_bytes
  [0x58; 0x66; 0x66; 0x66; 0x66; 0x66; 0x66; 0x66; 0x66; 0x66; 0x66; 0x66; 0x66; 0x66; 0x66; 0x66;
   0x66; 0x66; 0x66; 0x66; 0x66; 0x66; 0x66; 0x66; 0x66; 0x66; 0x66; 0x66; 0x66; 0x66; 0x66; 0x66].

(** md32[i] ^= mask *)
Definition xor_byte (l : list Z) (i : nat) (mask : Z) : list Z :=
  let p := cast 64 8 (8 * length l) l in cast 8 64 (length l) (upd p i (Z.lxor (nth i p 0) mask)).

Section Points.

Variable int128 : bool.

#[local] Notation "a ⊕ b" := (fp_add int128 a b) (at level 50, left associativity).
#[local] Notation "a ⊖ b" := (fp_sub int128 a b) (at level 50, left associativity).
#[local] Notation "a ⊗ b" := (fp_mul int128 a b) (at level 40, left associativity).

Definition ecd : list Z := fp_of_bytes int128 _ecd.
Definition ecd2 : list Z := fp_of_bytes int128 _ecd2.

(** ** The group operations *)

Definition FromP1P1 (x y z t : list Z) : coordinates := mk_coords (x ⊗ t) (y ⊗ z) (z ⊗ t) (x ⊗ y).

Definition Add (p q : coordinates) : coordinates :=
  let a := (fY p ⊖ fX p) ⊗ (fY q ⊖ fX q) in
  let b := (fY p ⊕ fX p) ⊗ (fY q ⊕ fX q) in
  let c := fT p ⊗ fT q ⊗ ecd2 in
  let d := fZ p ⊗ fZ q in
  let d := d ⊕ d in
  FromP1P1 (b ⊖ a) (b ⊕ a) (d ⊕ c) (d ⊖ c).

Definition Double (p : coordinates) : coordinates :=
  let a := fp_Square int128 (fX p) in
  let b := fp_Square int128 (fY p) in
  let c := fp_Square int128 (fZ p) in
  let c := c ⊕ c in
  let d := fp_neg int128 a in
  let e := fp_Square int128 (fX p ⊕ fY p) in
  let g := d ⊕ b in
  FromP1P1 (e ⊖ a ⊖ b) (d ⊖ b) g (g ⊖ c).

(** One of the four doublings of AddPrescalar: the coordinates without T, and x and y. *)
Definition double_step (s : coordinates * (list Z * list Z)) : coordinates * (list Z * list Z) :=
  let p := fst s in
  let a := fp_Square int128 (fX p) in
  let b := fp_Square int128 (fY p) in
  let c := fp_Square int128 (fZ p) in
  let c := c ⊕ c in
  let d := fp_neg int128 a in
  let e := fp_Square int128 (fX p ⊕ fY p) in
  let x := e ⊖ a ⊖ b in
  let y := d ⊖ b in
  let z := d ⊕ b in
  let t := z ⊖ c in
  (mk_coords (x ⊗ t) (y ⊗ z) (z ⊗ t) (fT p), (x, y)).

Definition AddPrescalar (p q : coordinates) : coordinates :=
  let a := (fY p ⊖ fX p) ⊗ (fY q ⊖ fX q) in
  let b := (fY p ⊕ fX p) ⊗ (fY q ⊕ fX q) in
  let c := fT p ⊗ fT q ⊗ ecd2 in
  let d := fZ p ⊗ fZ q in
  let d := d ⊕ d in
  let x := b ⊖ a in
  let y := b ⊕ a in
  let z := d ⊕ c in
  let t := d ⊖ c in
  let s := (mk_coords (x ⊗ t) (y ⊗ z) (z ⊗ t) (fT p), (x, y)) in
  let (r, xy) := double_step (double_step (double_step (double_step s))) in
  mk_coords (fX r) (fY r) (fZ r) (fst xy ⊗ snd xy).

(** ** Constructors *)

Definition origin_coords : coordinates := mk_coords (fp_of_u64 0) (fp_of_u64 1) (fp_of_u64 1) (fp_of_u64 0).

Definition ed_new : CEdwards25519 := mk_ed origin_coords [].

Definition CalcPrescalar (p : coordinates) : list coordinates :=
  fold_left (fun pre i => let r := Double (nth (Nat.div i 2) pre origin_coords) in pre ++ [r; Add r p])
    [2; 4; 6; 8; 10; 12; 14]%nat [origin_coords; p].

Definition ed_of_xy (x y : list Z) (fPrescalar : bool) : CEdwards25519 :=
  let c := mk_coords x y (fp_of_u64 1) (x ⊗ y) in mk_ed c (if fPrescalar then CalcPrescalar c else []).

Definition ed_of_xyz (x y z : list Z) : CEdwards25519 := mk_ed (mk_coords x y z (x ⊗ y)) [].

Definition ed_of_xyzt (x y z t : list Z) : CEdwards25519 := mk_ed (mk_coords x y z t) [].

Definition base : CEdwards25519 := ed_of_xy (fp_of_bytes int128 _base_x) (fp_of_bytes int128 _base_y) true.

(** ** Operators *)

Definition ed_neg (P : CEdwards25519) : CEdwards25519 :=
  ed_of_xyzt (fp_neg int128 (fX (coords P))) (fY (coords P)) (fZ (coords P)) (fp_neg int128 (fT (coords P))).

Definition ed_add (P Q : CEdwards25519) : CEdwards25519 := set_coords (Add (coords P) (coords Q)) P.

Definition ed_sub (P Q : CEdwards25519) : CEdwards25519 := ed_add P (ed_neg Q).

Definition ed_eq (P Q : CEdwards25519) : bool :=
  let p := coords P in let q := coords Q in
  fp_eq int128 (fX p ⊗ fZ q) (fX q ⊗ fZ p) && fp_eq int128 (fY p ⊗ fZ q) (fY q ⊗ fZ p).

(** ** Multiples *)

Fixpoint skip_zeros (bs : list Z) : list Z :=
  match bs with
  | b :: bs' => if b =? 0 then skip_zeros bs' else bs
  | [] => []
  end.

(** The bytes from the most significant on, the lowest one excepted. *)
Fixpoint scalar_loop (pre : list coordinates) (bs : list Z) (r : coordinates) : coordinates :=
  match bs with
  | [] => r
  | b :: bs' =>
      let r := AddPrescalar r (nth (Z.to_nat (Z.shiftr b 4)) pre origin_coords) in
      let r := AddPrescalar r (nth (Z.to_nat (Z.land b 15)) pre origin_coords) in
      scalar_loop pre bs' r
  end.

(** The table in use. *)
Definition table_current (P : CEdwards25519) : bool :=
  (length (preScalar P) =? 16)%nat &&
  let q := nth 1 (preScalar P) origin_coords in
  fp_eq int128 (fX q) (fX (coords P)) && fp_eq int128 (fY q) (fY (coords P)).

(** The product, and the point with its table. *)
Definition ed_ScalarMult (P : CEdwards25519) (u8 : list Z) : result (CEdwards25519 * CEdwards25519) :=
  match u8 with
  | [] => Undef
  | b0 :: bytes =>
      let P := if table_current P then P else mk_ed (coords P) (CalcPrescalar (coords P)) in
      let pre := preScalar P in
      let r := scalar_loop pre (skip_zeros (rev bytes)) origin_coords in
      let r := AddPrescalar r (nth (Z.to_nat (Z.shiftr b0 4)) pre origin_coords) in
      let r := Add r (nth (Z.to_nat (Z.land b0 15)) pre origin_coords) in
      Ok (mk_ed r [], P)
  end.

Definition ed_Generate (u8 : list Z) : result CEdwards25519 := let! (r, _) := ed_ScalarMult base u8 in Ok r.

(** ** Encoding *)

Definition ed_Unpack (P : CEdwards25519) (md32 : list Z) : result (CEdwards25519 * bool) :=
  let one := fp_of_u64 1 in
  let y := fp_of_bytes int128 md32 in
  let y2 := fp_Square int128 (fp_of_bytes int128 md32) in
  let! x2 := fp_div int128 (y2 ⊖ one) (y2 ⊗ ecd ⊕ one) in
  let! x := fp_Sqrt int128 x2 in
  if fp_IsZero x then Ok (set_coords (mk_coords x y one fp_new) P, fp_IsZero x2)
  else
    let x := if negb (fp_Parity x =? Z.shiftr (nth 31 (cast 64 8 32 md32) 0) 7) then fp_neg int128 x else x in
    Ok (set_coords (mk_coords x y one (x ⊗ y)) P, true).

Definition ed_Pack (P : CEdwards25519) : result (list Z) :=
  let p := coords P in
  let! zi := fp_Inverse int128 (fZ p) in
  let tx := fX p ⊗ zi in
  let ty := fY p ⊗ zi in
  Ok (xor_byte (fp_Pack ty) 31 (Z.shiftl (fp_Parity tx) 7 mod 2 ^ 8)).

End Points.
