(* ===== verification/Ed25519Ok.v ===== *)
(** * The extended coordinates implement the group of the curve

    [represents c P]: the coordinates c stand for the affine point P.  Every operation of ed25519.cpp
    carries representatives to a representative of the result of the group operation. *)

From Stdlib Require Import ZArith List Lia Bool Zdivisibility Zmod ZmodInv Field.
From S2P Require Import Prelude Radix Base25519 Base25519Ok Sc25519 Sc25519Ok Poly Fp25519 Fp25519Ok Prime25519 FpPower Edwards Ed25519.
Import ListNotations.
Local Open Scope Zmod_scope.

(** ** Field elements *)

Definition fe (v : list Z) : Zmod pf := Zmod.of_Z pf (num v).

Lemma fe_cong a b : cong pf (num a) (num b) <-> fe a = fe b.
Proof. unfold fe. now rewrite Zmod.of_Z_inj. Qed.

Lemma fe_inj a b : fp a -> fp b -> fe a = fe b -> a = b.
Proof. intros Fa Fb E. apply fp_inj; auto. now apply fe_cong. Qed.

Lemma fe_of_mod v x : num v = (x mod pf)%Z -> fe v = Zmod.of_Z pf x.
Proof. intros E. unfold fe. now rewrite E, Zmod.of_Z_mod. Qed.

Section Fields.

Variable d : bool.

Lemma fe_add a b : fp a -> fp b -> fe (fp_add d a b) = fe a + fe b.
Proof. intros Fa Fb. rewrite (fe_of_mod _ _ (proj2 (fp_add_ok d a b Fa Fb))). apply Zmod.of_Z_add. Qed.

Lemma fe_sub a b : fp a -> fp b -> fe (fp_sub d a b) = fe a - fe b.
Proof. intros Fa Fb. rewrite (fe_of_mod _ _ (proj2 (fp_sub_ok d a b Fa Fb))). apply Zmod.of_Z_sub. Qed.

Lemma fe_mul a b : fp a -> fp b -> fe (fp_mul d a b) = fe a * fe b.
Proof. intros Fa Fb. rewrite (fe_of_mod _ _ (proj2 (fp_mul_ok d a b Fa Fb))). apply Zmod.of_Z_mul. Qed.

Lemma fe_Square a : fp a -> fe (fp_Square d a) = fe a * fe a.
Proof. intros Fa. now apply fe_mul. Qed.

Lemma fe_neg a : fp a -> fe (fp_neg d a) = - fe a.
Proof. intros Fa. rewrite (fe_of_mod _ _ (proj2 (fp_neg_ok d a Fa))). apply Zmod.of_Z_opp. Qed.

Lemma fp_add_fp a b : fp a -> fp b -> fp (fp_add d a b).
Proof. intros. now apply fp_add_ok. Qed.

Lemma fp_sub_fp a b : fp a -> fp b -> fp (fp_sub d a b).
Proof. intros. now apply fp_sub_ok. Qed.

Lemma fp_mul_fp a b : fp a -> fp b -> fp (fp_mul d a b).
Proof. intros. now apply fp_mul_ok. Qed.

Lemma fp_Square_fp a : fp a -> fp (fp_Square d a).
Proof. intros. now apply fp_mul_ok. Qed.

Lemma fp_neg_fp a : fp a -> fp (fp_neg d a).
Proof. intros. now apply fp_neg_ok. Qed.

End Fields.

Lemma fp_u64_fp x : (0 <= x < 2 ^ 64)%Z -> fp (fp_of_u64 x).
Proof. intros. now apply fp_of_u64_ok. Qed.

Lemma fp_0 : fp (fp_of_u64 0).
Proof. apply fp_u64_fp. lia. Qed.

Lemma fp_1 : fp (fp_of_u64 1).
Proof. apply fp_u64_fp. lia. Qed.

Lemma fe_0 : fe (fp_of_u64 0) = 0.
Proof. unfold fe. rewrite (proj2 (fp_of_u64_ok 0 ltac:(lia))). apply Zmod.of_Z_0. Qed.

Lemma fe_1 : fe (fp_of_u64 1) = 1.
Proof. unfold fe. rewrite (proj2 (fp_of_u64_ok 1 ltac:(lia))). apply Zmod.of_Z_1. Qed.

Lemma fe_zero v : fp v -> fe v = 0 <-> num v = 0%Z.
Proof. intros F. rewrite <- fp_zero by exact F. unfold fe. rewrite <- (Zmod.of_Z_0 pf), Zmod.of_Z_inj. reflexivity. Qed.

#[export] Hint Resolve fp_add_fp fp_sub_fp fp_mul_fp fp_Square_fp fp_neg_fp fp_0 fp_1 : field.
Create Rewrite HintDb field.
#[export] Hint Rewrite fe_add fe_sub fe_mul fe_Square fe_neg using (solve [auto with field]) : field.

(** ** The parameters of the curve *)

Lemma const_ok d bs : (num bs <? pf)%Z && (length bs =? 4)%nat && forallb (fun x => (0 <=? x)%Z && (x <? 2 ^ 64)%Z) bs = true -> fp bs /\ fp_of_bytes d bs = bs.
Proof.
  rewrite !andb_true_iff, Z.ltb_lt, Nat.eqb_eq, forallb_forall. intros ((L & N) & curve_d). assert (F : fp bs).
  { split; [split; [exact N|]|exact L]. apply Forall_forall. intros x Hx. specialize (curve_d x Hx). rewrite andb_true_iff, Z.leb_le, Z.ltb_lt in curve_d. exact curve_d. }
  split; [exact F|now apply fp_of_bytes_id].
Qed.

Lemma ecd_ok d : fp _ecd /\ ecd d = _ecd.
Proof. apply const_ok. vm_compute. reflexivity. Qed.

Lemma ecd2_ok d : fp _ecd2 /\ ecd2 d = _ecd2.
Proof. apply const_ok. vm_compute. reflexivity. Qed.

Lemma base_x_ok d : fp _base_x /\ fp_of_bytes d _base_x = _base_x.
Proof. apply const_ok. vm_compute. reflexivity. Qed.

Lemma base_y_ok d : fp _base_y /\ fp_of_bytes d _base_y = _base_y.
Proof. apply const_ok. vm_compute. reflexivity. Qed.

Definition curve_d : Zmod pf := fe _ecd.
Definition sqrt_m1 : Zmod pf := fe root_minus_one.

Lemma sqrt_m1_square : sqrt_m1 * sqrt_m1 = - (1).
Proof. unfold sqrt_m1, fe. rewrite <- Zmod.of_Z_mul, <- Zmod.of_Z_1, <- Zmod.of_Z_opp, Zmod.of_Z_inj. vm_compute. reflexivity. Qed.

(** Euler's criterion. *)
Lemma not_square a : (0 < a)%Z -> (pow_mod a ((pf - 1) / 2) pf = pf - 1)%Z -> ~ square a.
Proof.
  intros Ha Q [z C]. rewrite pow_mod_ok in Q by (reflexivity || lia || discriminate). set (h := ((pf - 1) / 2)%Z) in *.
  assert (E2 : (pf - 1 = 2 * h)%Z) by (vm_compute; reflexivity). assert (Hh : (0 <= h)%Z) by (unfold pf in E2; lia). clearbody h.
  assert (C' : cong pf (z ^ (pf - 1)) (-1)). { rewrite E2, Z.pow_mul_r, Z.pow_2_r, (cong_pow pf _ _ _ Hh C) by lia. unfold cong. rewrite Q. reflexivity. }
  destruct (Z.eq_dec (z mod pf) 0) as [Z0|Nz]; [|unfold cong in C'; rewrite ZmodInv.Z.fermat_nz in C' by (exact prime_pf || exact Nz); discriminate C'].
  assert (Z1 : cong pf z 0) by (unfold cong; rewrite Z0; reflexivity). rewrite (cong_pow pf z 0 (pf - 1) ltac:(discriminate) Z1), Z.pow_0_l in C' by reflexivity. discriminate C'.
Qed.

Lemma curve_d_not_square x : x * x <> curve_d.
Proof.
  intros E. apply (not_square (num _ecd)).
  - destruct (num_bound _ (proj1 (proj1 (ecd_ok true)))) as [H _]. apply Z.le_lteq in H as [H|H]; [exact H|]. exfalso. assert (N : (num _ecd =? 0)%Z = false) by (vm_compute; reflexivity). apply Z.eqb_neq in N. congruence.
  - vm_compute. reflexivity.
  - exists (Zmod.to_Z x). apply Zmod.of_Z_inj. fold (fe _ecd). fold curve_d. rewrite <- E, Zmod.of_Z_mul. now rewrite Zmod.of_Z_to_Z.
Qed.

Lemma two_nz : 1 + 1 <> (0 : Zmod pf).
Proof. rewrite <- Zmod.of_Z_1, <- Zmod.of_Z_add, <- Zmod.of_Z_0. rewrite Zmod.of_Z_inj. discriminate. Qed.

Lemma ecd2_double : fe _ecd2 = curve_d + curve_d.
Proof. unfold curve_d, fe. rewrite <- Zmod.of_Z_add, Zmod.of_Z_inj. vm_compute. reflexivity. Qed.

(** ** Representation *)

Add Field field_pf : (Zmod.field_theory pf prime_pf).

Notation onc := (@on pf curve_d).
Notation padd := (@eadd pf curve_d).
Notation pmul := (@emul pf curve_d).
Notation pzero := (@origin pf).

Definition on_add_pf := @on_add pf prime_pf curve_d sqrt_m1 sqrt_m1_square curve_d_not_square two_nz.
Definition on_mul_pf := @on_mul pf prime_pf curve_d sqrt_m1 sqrt_m1_square curve_d_not_square two_nz.
Definition padd_unique := @eadd_unique pf prime_pf curve_d sqrt_m1 sqrt_m1_square curve_d_not_square two_nz.
Definition padd_spec := @eadd_spec pf prime_pf curve_d sqrt_m1 sqrt_m1_square curve_d_not_square two_nz.
Definition padd_denominators := @denominators pf prime_pf curve_d sqrt_m1 sqrt_m1_square curve_d_not_square two_nz.
Definition padd_origin := @eadd_origin pf prime_pf curve_d sqrt_m1 sqrt_m1_square curve_d_not_square two_nz.
Definition padd_comm := @eadd_comm pf prime_pf curve_d.
Definition padd_opp := @eadd_opp pf prime_pf curve_d sqrt_m1 sqrt_m1_square curve_d_not_square two_nz.
Definition pmul_add := @emul_add pf prime_pf curve_d sqrt_m1 sqrt_m1_square curve_d_not_square two_nz.
Definition pmul_mul := @emul_mul pf prime_pf curve_d sqrt_m1 sqrt_m1_square curve_d_not_square two_nz.
Definition pmul_1 := @emul_1 pf prime_pf curve_d sqrt_m1 sqrt_m1_square curve_d_not_square two_nz.
Definition pmul_mod := @emul_mod pf prime_pf curve_d sqrt_m1 sqrt_m1_square curve_d_not_square two_nz.
Definition nz_mul := @mul_nz pf prime_pf.

Definition on_O := @on_origin pf prime_pf curve_d.

Create HintDb curve.
#[export] Hint Resolve on_add_pf on_mul_pf on_O : curve.

(** X, Y and Z; the fourth coordinate is separate, because AddPrescalar lets it lag behind. *)
Definition represents3 (c : coordinates) (P : affine (p := pf)) : Prop :=
  fp (fX c) /\ fp (fY c) /\ fp (fZ c) /\ fe (fZ c) <> 0 /\ fe (fX c) = fst P * fe (fZ c) /\ fe (fY c) = snd P * fe (fZ c).

Definition represents (c : coordinates) (P : affine (p := pf)) : Prop :=
  represents3 c P /\ fp (fT c) /\ fe (fT c) = fst P * snd P * fe (fZ c).

(** A completed point: x / z and y / t. *)
Definition completed (x y z t : list Z) (P : affine (p := pf)) : Prop :=
  (fp x /\ fp y /\ fp z /\ fp t) /\ fe z <> 0 /\ fe t <> 0 /\ fe x = fst P * fe z /\ fe y = snd P * fe t.

Lemma completed_rep3 d x y z t T P : completed x y z t P -> represents3 (mk_coords (fp_mul d x t) (fp_mul d y z) (fp_mul d z t) T) P.
Proof.
  intros ((Fx & Fy & Fz & Ft) & Nz & Nt & Ex & Ey). unfold represents3. cbn [fX fY fZ]. rewrite !fe_mul by assumption. repeat (split; [solve [auto with field]|]).
  split; [now apply nz_mul|]. rewrite Ex, Ey. split; ring.
Qed.

Lemma completed_T d x y z t T P : completed x y z t P -> fp (fp_mul d x y) /\ fe (fp_mul d x y) = fst P * snd P * fe (fZ (mk_coords (fp_mul d x t) (fp_mul d y z) (fp_mul d z t) T)).
Proof.
  intros ((Fx & Fy & Fz & Ft) & Nz & Nt & Ex & Ey). cbn [fZ]. rewrite !fe_mul by assumption. split; [auto with field|]. rewrite Ex, Ey. ring.
Qed.

Lemma FromP1P1_ok d x y z t P : completed x y z t P -> represents (FromP1P1 d x y z t) P.
Proof. intros H. split; [now apply completed_rep3|]. exact (completed_T d x y z t [] P H). Qed.

(** The completed sum. *)
Lemma add_completed d p q P Q : represents p P -> represents q Q -> onc P -> onc Q ->
  let a := fp_mul d (fp_sub d (fY p) (fX p)) (fp_sub d (fY q) (fX q)) in
  let b := fp_mul d (fp_add d (fY p) (fX p)) (fp_add d (fY q) (fX q)) in
  let c := fp_mul d (fp_mul d (fT p) (fT q)) (ecd2 d) in
  let dd := fp_add d (fp_mul d (fZ p) (fZ q)) (fp_mul d (fZ p) (fZ q)) in
  completed (fp_sub d b a) (fp_add d b a) (fp_add d dd c) (fp_sub d dd c) (padd P Q).
Proof.
  intros ((Fx & Fy & Fz & Nz & Ex & Ey) & Ft & Et) ((Gx & Gy & Gz & Mz & Hx & Hy) & Gt & Ht) HP HQ a b c dd.
  destruct (ecd2_ok d) as [F2 E2]. destruct (padd_denominators P Q HP HQ) as [N1 N2]. destruct (padd_spec P Q HP HQ) as (x3 & y3 & -> & X3 & Y3).
  assert (Fa : fp a) by (unfold a; auto 6 with field). assert (Fb : fp b) by (unfold b; auto 6 with field). assert (Fc : fp c) by (unfold c; rewrite E2; auto 6 with field). assert (Fd : fp dd) by (unfold dd; auto 6 with field).
  assert (Va : fe a = (fe (fY p) - fe (fX p)) * (fe (fY q) - fe (fX q))) by (unfold a; now autorewrite with field). assert (Vb : fe b = (fe (fY p) + fe (fX p)) * (fe (fY q) + fe (fX q))) by (unfold b; now autorewrite with field).
  assert (Vc : fe c = fe (fT p) * fe (fT q) * (curve_d + curve_d)) by (unfold c; rewrite E2; autorewrite with field; now rewrite ecd2_double). assert (Vd : fe dd = fe (fZ p) * fe (fZ q) + fe (fZ p) * fe (fZ q)) by (unfold dd; now autorewrite with field).
  clearbody a b c dd. rewrite Ex, Ey, Hx, Hy in *. rewrite Et, Ht in Vc. set (w := fe (fZ p)) in *. set (v := fe (fZ q)) in *. destruct P as [x1 y1], Q as [x2 y2]. cbn [fst snd] in *.
  set (e := eps curve_d (x1, y1) (x2, y2)) in *. assert (Ee : e = curve_d * (x1 * x2) * (y1 * y2)) by reflexivity.
  assert (Gz1 : fe dd + fe c = (1 + 1) * (w * v) * (1 + e)) by (rewrite Vd, Vc, Ee; ring). assert (Gt1 : fe dd - fe c = (1 + 1) * (w * v) * (1 - e)) by (rewrite Vd, Vc, Ee; ring).
  unfold completed. rewrite !fe_add, !fe_sub, Gz1, Gt1 by assumption. cbn [fst snd].
  split; [auto 6 with field|]. split; [apply nz_mul; [apply nz_mul; [exact two_nz|now apply nz_mul]|assumption]|]. split; [apply nz_mul; [apply nz_mul; [exact two_nz|now apply nz_mul]|assumption]|]. rewrite Va, Vb. split.
  - transitivity ((1 + 1) * (w * v) * (x3 * (1 + e))); [rewrite X3; ring|ring].
  - transitivity ((1 + 1) * (w * v) * (y3 * (1 - e))); [rewrite Y3; ring|ring].
Qed.

Lemma Add_ok d p q P Q : represents p P -> represents q Q -> onc P -> onc Q -> represents (Add d p q) (padd P Q).
Proof. intros HP HQ OP OQ. apply FromP1P1_ok. now apply add_completed. Qed.

(** The completed double. *)
Lemma double_completed d p P : represents3 p P -> onc P ->
  let a := fp_Square d (fX p) in
  let b := fp_Square d (fY p) in
  let c := fp_add d (fp_Square d (fZ p)) (fp_Square d (fZ p)) in
  let e := fp_Square d (fp_add d (fX p) (fY p)) in
  let g := fp_add d (fp_neg d a) b in
  completed (fp_sub d (fp_sub d e a) b) (fp_sub d (fp_neg d a) b) g (fp_sub d g c) (padd P P).
Proof.
  intros (Fx & Fy & Fz & Nz & Ex & Ey) HP a b c e g. destruct (padd_denominators P P HP HP) as [N1 N2]. destruct (padd_spec P P HP HP) as (x3 & y3 & -> & X3 & Y3).
  assert (Fa : fp a) by (unfold a; auto 6 with field). assert (Fb : fp b) by (unfold b; auto 6 with field). assert (Fc : fp c) by (unfold c; auto 6 with field). assert (Fe : fp e) by (unfold e; auto 6 with field). assert (Fg : fp g) by (unfold g; auto 6 with field).
  assert (Va : fe a = fe (fX p) * fe (fX p)) by (unfold a; now autorewrite with field). assert (Vb : fe b = fe (fY p) * fe (fY p)) by (unfold b; now autorewrite with field).
  assert (Vc : fe c = fe (fZ p) * fe (fZ p) + fe (fZ p) * fe (fZ p)) by (unfold c; now autorewrite with field). assert (Ve : fe e = (fe (fX p) + fe (fY p)) * (fe (fX p) + fe (fY p))) by (unfold e; now autorewrite with field).
  assert (Vg : fe g = - fe a + fe b) by (unfold g; now autorewrite with field). clearbody a b c e g. rewrite Ex, Ey in *. set (w := fe (fZ p)) in *. destruct P as [x y]. cbn [fst snd] in *.
  set (ep := eps curve_d (x, y) (x, y)) in *. assert (C : y * y - x * x = 1 + ep) by (unfold on in HP; rewrite HP; unfold ep, eps; cbn [fst snd]; ring).
  assert (G1 : fe g = w * w * (1 + ep)) by (rewrite Vg, Va, Vb, <- C; ring). assert (G2 : fe g - fe c = - (w * w * (1 - ep))) by (rewrite G1, Vc; ring).
  assert (M : - (w * w * (1 - ep)) <> 0).
  { intros Z0. apply (nz_mul _ _ (nz_mul _ _ Nz Nz) N2). replace (w * w * (1 - ep)) with (- - (w * w * (1 - ep))) by ring. rewrite Z0. ring. }
  unfold completed. rewrite !(fe_sub d), fe_neg, G2, G1 by auto with field. cbn [fst snd]. split; [auto 8 with field|]. split; [apply nz_mul; [now apply nz_mul|assumption]|]. split; [exact M|].
  rewrite Va, Vb, Ve. split.
  - transitivity (w * w * (x3 * (1 + ep))); [rewrite X3; ring|ring].
  - transitivity (- (w * w * (y3 * (1 - ep)))); [rewrite Y3; ring|ring].
Qed.

Lemma Double_ok d p P : represents3 p P -> onc P -> represents (Double d p) (padd P P).
Proof. intros H pzero. apply FromP1P1_ok. now apply double_completed. Qed.
