(* ===== verification/EdMult.v ===== *)
(** * Multiples of points

    AddPrescalar adds and multiplies by sixteen; CalcPrescalar computes the sixteen small
    multiples; ScalarMult returns the multiple by the number that the bytes spell, provided a
    table that looks current is the table of the point. *)

From Stdlib Require Import ZArith List Lia Bool Zdivisibility Zmod Field.
From S2P Require Import Prelude Radix Base25519 Base25519Ok Fp25519 Fp25519Ok Prime25519 FpPower Edwards Ed25519 Ed25519Ok.
Import ListNotations.
Local Open Scope Z_scope.

Section Multiples.

Variable d : bool.

(** The state of the doublings: three coordinates and the numerators of the fourth. *)
Definition pending (s : coordinates * (list Z * list Z)) (P : affine (p := pf)) : Prop :=
  represents3 (fst s) P /\ fp (fst (snd s)) /\ fp (snd (snd s)) /\
  Zmod.mul (fe (fst (snd s))) (fe (snd (snd s))) = Zmod.mul (Zmod.mul (fst P) (snd P)) (fe (fZ (fst s))).

Lemma completed_pending x y z t T P : completed x y z t P -> pending (mk_coords (fp_mul d x t) (fp_mul d y z) (fp_mul d z t) T, (x, y)) P.
Proof.
  intros H. unfold pending. cbn [fst snd]. split; [now apply completed_rep3|]. destruct (completed_T d x y z t T P H) as [_ E]. destruct H as ((Fx & Fy & Fz & Ft) & _).
  split; [exact Fx|]. split; [exact Fy|]. rewrite fe_mul in E by assumption. exact E.
Qed.

Lemma double_step_ok s P : pending s P -> onc P -> pending (double_step d s) (padd P P).
Proof. intros [H _] HO. apply completed_pending. now apply double_completed. Qed.

Lemma double_16 P : onc P -> padd (padd (padd (padd P P) (padd P P)) (padd (padd P P) (padd P P))) (padd (padd (padd P P) (padd P P)) (padd (padd P P) (padd P P))) = pmul 16 P.
Proof.
  intros H. rewrite <- (pmul_1 P H) at 1 2 3 4 5 6 7 8 9 10 11 12 13 14 15 16. rewrite <- !pmul_add by (assumption || lia). reflexivity.
Qed.

Lemma AddPrescalar_ok p q P Q : represents p P -> represents q Q -> onc P -> onc Q -> represents (AddPrescalar d p q) (pmul 16 (padd P Q)).
Proof.
  intros HP HQ OP OQ. pose proof (add_completed d p q P Q HP HQ OP OQ) as C. cbv zeta in C. unfold AddPrescalar. cbv zeta.
  set (s := (mk_coords _ _ _ (fT p), _)). assert (H0 : pending s (padd P Q)) by (apply completed_pending; exact C). clearbody s.
  assert (O0 : onc (padd P Q)) by auto with curve. rewrite <- double_16 by exact O0. set (R := padd P Q) in *. clearbody R.
  apply double_step_ok in H0; [|exact O0]. apply double_step_ok in H0; [|auto with curve]. apply double_step_ok in H0; [|auto with curve]. apply double_step_ok in H0; [|auto 6 with curve].
  set (s4 := double_step d _) in *. clearbody s4. destruct s4 as [c [x y]]. destruct H0 as ((Fx & Fy & Fz & Nz & Ex & Ey) & Gx & Gy & E). cbn [fst snd] in *.
  split; [repeat (split; [assumption|]); assumption|]. cbn [fT fZ fst snd]. rewrite fe_mul by assumption. split; [auto with field|exact E].
Qed.

Lemma origin_ok : represents origin_coords pzero.
Proof.
  unfold represents, represents3, origin_coords. cbn [fX fY fZ fT]. rewrite fe_0, fe_1. unfold origin. cbn [fst snd].
  rewrite !Zmod.mul_0_l, !Zmod.mul_1_l. pose proof fp_0. pose proof fp_1. pose proof (one_nz prime_pf).
  repeat match goal with |- _ /\ _ => split end; assumption || reflexivity.
Qed.

(** ** The table *)

Definition table_of (pre : list coordinates) (P : affine (p := pf)) : Prop :=
  length pre = 16%nat /\ forall k, 0 <= k < 16 -> represents (nth (Z.to_nat k) pre origin_coords) (pmul k P).

Lemma CalcPrescalar_ok p P : represents p P -> onc P -> table_of (CalcPrescalar d p) P.
Proof.
  intros HP OP. split; [reflexivity|]. intros k Hk. assert (P1 : represents p (pmul 1 P)) by (now rewrite pmul_1).
  assert (S : forall j a, 0 <= j -> represents a (pmul j P) -> represents (Double d a) (pmul (2 * j) P) /\ represents (Add d (Double d a) p) (pmul (2 * j + 1) P)).
  { intros j a Hj H. assert (D1 : represents (Double d a) (pmul (2 * j) P)).
    { replace (2 * j) with (j + j) by ring. rewrite pmul_add by assumption. apply Double_ok; [apply H|auto with curve]. }
    split; [exact D1|]. rewrite pmul_add by (assumption || lia). apply Add_ok; auto with curve. }
  destruct (S 1 _ ltac:(lia) P1) as [P2 P3], (S 2 _ ltac:(lia) P2) as [P4 P5], (S 3 _ ltac:(lia) P3) as [P6 P7], (S 4 _ ltac:(lia) P4) as [P8 P9], (S 5 _ ltac:(lia) P5) as [P10 P11],
    (S 6 _ ltac:(lia) P6) as [P12 P13], (S 7 _ ltac:(lia) P7) as [P14 P15]. pose proof origin_ok as P0. change pzero with (pmul 0 P) in P0.
  unfold CalcPrescalar. cbn [fold_left Nat.div Nat.divmod fst snd nth app]. set (o := origin_coords) in *. clearbody o.
  assert (C : k = 0 \/ k = 1 \/ k = 2 \/ k = 3 \/ k = 4 \/ k = 5 \/ k = 6 \/ k = 7 \/ k = 8 \/ k = 9 \/ k = 10 \/ k = 11 \/ k = 12 \/ k = 13 \/ k = 14 \/ k = 15) by lia.
  repeat (destruct C as [->|C]; [cbn [Z.to_nat Pos.to_nat Pos.iter_op Nat.add nth]|]); [..|rewrite C; cbn [Z.to_nat Pos.to_nat Pos.iter_op Nat.add nth]].
  exact P0. exact P1. exact P2. exact P3. exact P4. exact P5. exact P6. exact P7. exact P8. exact P9. exact P10. exact P11. exact P12. exact P13. exact P14. exact P15.
Qed.

(** ** The loop *)

Lemma scalar_loop_ok pre P bs : onc P -> table_of pre P -> rdigs (2 ^ 8) bs -> forall n r, 0 <= n -> represents r (pmul (16 * n) P) ->
  represents (scalar_loop d pre bs r) (pmul (16 * fold_left (fun k b => 256 * k + b) bs n) P) /\ 0 <= fold_left (fun k b => 256 * k + b) bs n.
Proof.
  intros OP [_ HT]. induction bs as [|b bs IH]; intros HD n r Hn H; [now split|]. cbn [scalar_loop fold_left]. apply Forall_cons_iff in HD as [Hb HD].
  destruct (byte_nibbles b Hb) as (Hh & Hl & E). apply IH; [exact HD|lia|].
  replace (16 * (256 * n + b)) with (16 * (16 * (16 * n + Z.shiftr b 4) + Z.land b 15)) by lia. rewrite (pmul_mul 16), pmul_add, (pmul_mul 16), pmul_add by (assumption || lia).
  apply AddPrescalar_ok; auto with curve. apply AddPrescalar_ok; auto with curve.
Qed.

Lemma skip_zeros_ok bs : rdigs (2 ^ 8) bs -> rdigs (2 ^ 8) (skip_zeros bs) /\ fold_left (fun k b => 256 * k + b) (skip_zeros bs) 0 = fold_left (fun k b => 256 * k + b) bs 0.
Proof.
  induction bs as [|b bs IH]; intros H; [now split|]. cbn [skip_zeros]. destruct (Z.eqb_spec b 0) as [->|N]; [|now split]. apply Forall_cons_iff in H as [_ H]. now apply IH.
Qed.

(** A table that looks current belongs to the point. *)
Definition table_fresh (P : CEdwards25519) (A : affine (p := pf)) : Prop := table_current d P = true -> table_of (preScalar P) A.

(** The product with a given table. *)
Lemma table_product pre A b0 bytes : onc A -> table_of pre A -> rdigs (2 ^ 8) (b0 :: bytes) ->
  represents (Add d (AddPrescalar d (scalar_loop d pre (skip_zeros (rev bytes)) origin_coords) (nth (Z.to_nat (Z.shiftr b0 4)) pre origin_coords)) (nth (Z.to_nat (Z.land b0 15)) pre origin_coords))
    (pmul (rval (2 ^ 8) (b0 :: bytes)) A).
Proof.
  intros OA HT HD. apply Forall_cons_iff in HD as [Hb HD]. destruct (skip_zeros_ok (rev bytes) (rdigs_rev _ _ HD)) as [Hs Es]. assert (H0 : represents origin_coords (pmul (16 * 0) A)) by exact origin_ok.
  destruct (scalar_loop_ok _ A _ OA HT Hs 0 _ ltac:(lia) H0) as [HR HN]. rewrite Es, fold_bytes in HR, HN. cbn [rval]. destruct (byte_nibbles b0 Hb) as (Hh & Hl & E). destruct HT as [_ HT].
  set (n := rval (2 ^ 8) bytes) in *. replace (b0 + 2 ^ 8 * n) with (16 * (16 * n + Z.shiftr b0 4) + Z.land b0 15) by lia. rewrite pmul_add, (pmul_mul 16), pmul_add by (assumption || lia).
  apply Add_ok; auto with curve. apply AddPrescalar_ok; auto with curve.
Qed.

(** A table that looks current is used, whatever point it belongs to. *)
Lemma ScalarMult_current P A u8 : onc A -> table_current d P = true -> table_of (preScalar P) A -> u8 <> [] -> rdigs (2 ^ 8) u8 ->
  exists r, ed_ScalarMult d P u8 = Ok (mk_ed r [], P) /\ represents r (pmul (rval (2 ^ 8) u8) A).
Proof.
  intros OA HC HT Hne HD. destruct u8 as [|b0 bytes]; [contradiction|]. cbn [ed_ScalarMult]. rewrite HC. eexists. split; [reflexivity|]. now apply table_product.
Qed.

Lemma ScalarMult_computed P A u8 : represents (coords P) A -> onc A -> table_current d P = false -> u8 <> [] -> rdigs (2 ^ 8) u8 ->
  exists r, ed_ScalarMult d P u8 = Ok (mk_ed r [], mk_ed (coords P) (CalcPrescalar d (coords P))) /\ represents r (pmul (rval (2 ^ 8) u8) A).
Proof.
  intros HP OA HC Hne HD. destruct u8 as [|b0 bytes]; [contradiction|]. cbn [ed_ScalarMult]. rewrite HC. eexists. split; [reflexivity|]. apply table_product; [exact OA| |exact HD]. now apply CalcPrescalar_ok.
Qed.

Lemma ScalarMult_ok P A u8 : represents (coords P) A -> onc A -> table_fresh P A -> u8 <> [] -> rdigs (2 ^ 8) u8 ->
  exists r P', ed_ScalarMult d P u8 = Ok (mk_ed r [], P') /\ represents r (pmul (rval (2 ^ 8) u8) A) /\ coords P' = coords P /\ table_of (preScalar P') A.
Proof.
  intros HP OA HF Hne HD. destruct (table_current d P) eqn:E.
  - destruct (ScalarMult_current P A u8 OA E (HF E) Hne HD) as (r & H & R). exists r, P. now repeat (split; [assumption || reflexivity|]); apply HF.
  - destruct (ScalarMult_computed P A u8 HP OA E Hne HD) as (r & H & R). eexists r, _. split; [exact H|]. split; [exact R|]. split; [reflexivity|]. now apply CalcPrescalar_ok.
Qed.

(** ** Comparison and negation *)

Lemma rep_unique c P Q : represents3 c P -> represents3 c Q -> P = Q.
Proof.
  intros (_ & _ & _ & N & Ex & Ey) (_ & _ & _ & _ & Ex' & Ey'). destruct P as [x y], Q as [x' y']. cbn [fst snd] in *. rewrite Ex in Ex'. rewrite Ey in Ey'.
  f_equal; apply (cancel prime_pf _ _ _ N); assumption.
Qed.

Lemma ed_eq_ok P Q A B : represents3 (coords P) A -> represents3 (coords Q) B -> ed_eq d P Q = true <-> A = B.
Proof.
  intros (Fx & Fy & Fz & Nz & Ex & Ey) (Gx & Gy & Gz & Mz & Hx & Hy). unfold ed_eq. rewrite andb_true_iff, !fp_eq_ok, !Z.eqb_eq by (apply fp_u256; auto with field).
  assert (E : forall a b, fp a -> fp b -> num a = num b <-> fe a = fe b).
  { intros a b Fa Fb. split; [intros E; unfold fe; now rewrite E|]. intros E. now rewrite (fe_inj a b Fa Fb E). }
  rewrite !E, !fe_mul, Ex, Ey, Hx, Hy by auto with field. set (w := fe (fZ (coords P))) in *. set (v := fe (fZ (coords Q))) in *. clearbody w v. destruct A as [x y], B as [x' y']. cbn [fst snd]. split.
  - intros [E1 E2]. f_equal; apply (cancel prime_pf _ _ (Zmod.mul w v)); try (now apply nz_mul).
    + transitivity (Zmod.mul (Zmod.mul x w) v); [now rewrite Zmod.mul_assoc|]. rewrite E1. rewrite <- Zmod.mul_assoc. f_equal. apply Zmod.mul_comm.
    + transitivity (Zmod.mul (Zmod.mul y w) v); [now rewrite Zmod.mul_assoc|]. rewrite E2. rewrite <- Zmod.mul_assoc. f_equal. apply Zmod.mul_comm.
  - intros H. injection H as -> ->. split; rewrite <- !Zmod.mul_assoc; f_equal; apply Zmod.mul_comm.
Qed.

Lemma ed_neg_ok P A : represents (coords P) A -> represents (coords (ed_neg d P)) (eopp A).
Proof.
  intros ((Fx & Fy & Fz & Nz & Ex & Ey) & Ft & Et). unfold ed_neg, ed_of_xyzt, represents, represents3, eopp. cbn [coords fX fY fZ fT fst snd]. rewrite !fe_neg, Ex, Ey, Et by assumption.
  rewrite !Zmod.mul_opp_l. repeat match goal with |- _ /\ _ => split end; assumption || reflexivity || auto with field.
Qed.

End Multiples.
