(* ===== verification/EdPack.v ===== *)
(** * Encoded points

    A point is encoded by its second coordinate and the parity of the first.  Pack writes
    this number, Unpack accepts exactly the numbers whose low 255 bits are the coordinate of
    a point, and the two are inverse to each other. *)

From Stdlib Require Import ZArith List Lia Bool Zdivisibility Zmod Field.
From S2P Require Import Prelude Radix Base25519 Base25519Ok Sc25519 Sc25519Ok Poly Fp25519 Fp25519Ok Prime25519 FpPower Edwards Ed25519 Ed25519Ok EdMult.
Import ListNotations.
Local Open Scope Z_scope.

Add Field field_pf' : (Zmod.field_theory pf prime_pf).

(** The encoding of an affine point. *)
Definition encode (A : affine (p := pf)) : Z := Zmod.to_Z (snd A) + 2 ^ 255 * (Zmod.to_Z (fst A) mod 2).

Lemma num_fe v : fp v -> num v = Zmod.to_Z (fe v).
Proof. intros F. unfold fe. rewrite Zmod.to_Z_of_Z. symmetry. now apply fp_mod. Qed.

Lemma to_Z_bound (x : Zmod pf) : 0 <= Zmod.to_Z x < pf.
Proof. apply Zmod.to_Z_pos_bound. reflexivity. Qed.

Lemma encode_bound A : 0 <= encode A < 2 ^ 256 /\ encode A mod 2 ^ 255 = Zmod.to_Z (snd A) /\ encode A / 2 ^ 255 = Zmod.to_Z (fst A) mod 2.
Proof.
  unfold encode. pose proof (to_Z_bound (snd A)) as B. pose proof (Z.mod_pos_bound (Zmod.to_Z (fst A)) 2 ltac:(lia)) as M. assert (pf < 2 ^ 255) by reflexivity. split; [lia|].
  split; symmetry; [apply (Z.mod_unique_pos _ _ (Zmod.to_Z (fst A) mod 2))|apply (Z.div_unique_pos _ _ _ (Zmod.to_Z (snd A)))]; lia.
Qed.

(** ** Pack *)

Lemma xor_top_bit v b : u256 v -> num v < 2 ^ 255 -> 0 <= b < 2 -> u256 (xor_byte v 31 (Z.shiftl b 7 mod 2 ^ 8)) /\ num (xor_byte v 31 (Z.shiftl b 7 mod 2 ^ 8)) = num v + 2 ^ 255 * b.
Proof.
  intros U H Hb. destruct (top_byte v U) as (low & t & E & L & HD & Ht & En & B). pose proof U as [LU _]. unfold xor_byte. rewrite LU. change (8 * 4)%nat with 32%nat.
  rewrite E. rewrite app_nth2 by lia. rewrite L, Nat.sub_diag. cbn [nth]. replace 31%nat with (length low) by exact L. rewrite upd_middle.
  assert (Hx : Z.lxor t (Z.shiftl b 7 mod 2 ^ 8) = t + 128 * b).
  { assert (Lt : t < 128) by lia. assert (b = 0 \/ b = 1) as [-> | ->] by lia; [rewrite Z.mul_0_r, Z.add_0_r; apply Z.lxor_0_r|]. change (Z.shiftl 1 7 mod 2 ^ 8) with (1 * 2 ^ 7).
    rewrite <- Z.add_nocarry_lxor; [lia|]. apply Z.bits_inj'. intros k Hk. rewrite Z.land_spec, Z.bits_0, Z.mul_pow2_bits by lia. destruct (Z_lt_ge_dec k 7) as [K|K]; [rewrite (Z.testbit_neg_r 1 (k - 7)) by lia; apply andb_false_r|].
    rewrite <- (Z.mod_small t (2 ^ 7)), Z.mod_pow2_bits_high by lia. reflexivity. }
  rewrite Hx. destruct (cast_ok 8 64 4 (low ++ [t + 128 * b])) as (L' & D' & E'); try lia.
  - apply rdigs_app; [exact HD|]. repeat constructor; lia.
  - rewrite length_app, L. cbn [length]. lia.
  - split; [now split|]. unfold num at 1. rewrite E', rval_app, L. cbn [rval]. change ((2 ^ 8) ^ Z.of_nat 31) with (2 ^ 248). lia.
Qed.

Lemma quotient_fe d x z i (a : Zmod pf) : fp x -> fp z -> fp i -> fe z <> Zmod.zero -> cong pf (num i * num z) 1 -> fe x = Zmod.mul a (fe z) -> fe (fp_mul d x i) = a.
Proof.
  intros Fx Fz Fi Nz Hi E. rewrite fe_mul, E by assumption. assert (Ei : Zmod.mul (fe i) (fe z) = Zmod.one).
  { unfold fe. rewrite <- Zmod.of_Z_mul, <- Zmod.of_Z_1. apply Zmod.of_Z_inj. exact Hi. }
  rewrite <- Zmod.mul_assoc, (Zmod.mul_comm (fe z)), Ei. apply Zmod.mul_1_r.
Qed.

Lemma Pack_ok d P A : represents3 (coords P) A -> exists v, ed_Pack d P = Ok v /\ u256 v /\ num v = encode A.
Proof.
  intros (Fx & Fy & Fz & Nz & Ex & Ey). unfold ed_Pack. destruct (fp_Inverse_ok d _ Fz) as (i & -> & Fi & Hi). cbn [bind]. eexists. split; [reflexivity|].
  destruct (Z.eqb_spec (num (fZ (coords P))) 0) as [Z0|_]; [exfalso; apply Nz; now apply fe_zero|].
  pose proof (quotient_fe d _ _ _ _ Fx Fz Fi Nz Hi Ex) as Vx. pose proof (quotient_fe d _ _ _ _ Fy Fz Fi Nz Hi Ey) as Vy.
  assert (Gx : fp (fp_mul d (fX (coords P)) i)) by auto with field. assert (Gy : fp (fp_mul d (fY (coords P)) i)) by auto with field.
  rewrite fp_Pack_ok, fp_Parity_ok by assumption. unfold encode. rewrite <- Vx, <- Vy, <- !num_fe by assumption. apply xor_top_bit; [apply Gy|destruct Gy; unfold pf in *; lia|]. apply Z.mod_pos_bound. lia.
Qed.

(** ** Unpack *)

Lemma sign_bit v : u256 v -> Z.shiftr (nth 31 (cast 64 8 32 v) 0) 7 = num v / 2 ^ 255.
Proof.
  intros U. destruct (top_byte v U) as (low & b & E & L & HD & Hb & En & B). rewrite E, app_nth2 by lia. rewrite L, Nat.sub_diag. cbn [nth].
  rewrite Z.shiftr_div_pow2 by lia. pose proof (Z.mod_pos_bound b (2 ^ 7) ltac:(lia)). pose proof (Z.div_mod b (2 ^ 7) ltac:(lia)).
  apply (Z.div_unique_pos _ _ _ (rval (2 ^ 8) low + 2 ^ 248 * (b mod 2 ^ 7))); lia.
Qed.

Local Open Scope Zmod_scope.

(** The coordinate y determines the square of x. *)
Lemma curve_x2 (x y : Zmod pf) : onc (x, y) <-> x * x * (y * y * curve_d + 1) = y * y - 1.
Proof.
  unfold on. split; intros H.
  - transitivity (1 + curve_d * (x * x) * (y * y) + x * x - 1); [ring|]. rewrite <- H. ring.
  - transitivity (y * y - 1 + 1 - x * x); [ring|]. rewrite <- H. ring.
Qed.

Lemma x2_denominator (y : Zmod pf) : y * y * curve_d + 1 <> 0.
Proof.
  intros Z0. destruct (zero_dec y) as [->|N]; [apply (one_nz prime_pf); rewrite <- Z0; ring|].
  apply (curve_d_not_square (Zmod.mdiv sqrt_m1 y)). transitivity (Zmod.mdiv (sqrt_m1 * sqrt_m1) (y * y)); [field; exact N|]. rewrite sqrt_m1_square.
  apply (div_move prime_pf); [now apply nz_mul|]. transitivity (curve_d * (y * y) - (y * y * curve_d + 1)); [ring|]. rewrite Z0. ring.
Qed.

Lemma fe_of_bytes d md : u256 md -> fp (fp_of_bytes d md) /\ fe (fp_of_bytes d md) = Zmod.of_Z pf (num md mod 2 ^ 255).
Proof. intros U. destruct (fp_of_bytes_ok d md U) as [F E]. split; [exact F|]. now apply fe_of_mod. Qed.

Lemma fe_products a b c : cong pf (num a * num b) (num c) <-> fe a * fe b = fe c.
Proof. unfold fe. rewrite <- Zmod.of_Z_mul, Zmod.of_Z_inj. reflexivity. Qed.

Lemma fe_square x (a : Zmod pf) : fe x = a * a -> square (num x).
Proof. intros E. exists (Zmod.to_Z a). apply Zmod.of_Z_inj. rewrite Zmod.of_Z_mul, Zmod.of_Z_to_Z. now rewrite <- E. Qed.

(** The square that Unpack takes the root of. *)
Lemma Unpack_x2 d y : fp y -> exists x2, fp_div d (fp_sub d (fp_Square d y) (fp_of_u64 1)) (fp_add d (fp_mul d (fp_Square d y) (ecd d)) (fp_of_u64 1)) = Ok x2 /\ fp x2 /\
  fe x2 * (fe y * fe y * curve_d + 1) = fe y * fe y - 1.
Proof.
  intros Fy. destruct (ecd_ok d) as [Fd ->]. set (n := fp_sub d _ _). set (m := fp_add d _ _).
  assert (Fn : fp n) by (unfold n; auto with field). assert (Fm : fp m) by (unfold m; auto with field).
  assert (Vn : fe n = fe y * fe y - 1) by (unfold n; autorewrite with field; now rewrite fe_1). assert (Vm : fe m = fe y * fe y * curve_d + 1) by (unfold m; autorewrite with field; now rewrite fe_1).
  destruct (fp_div_ok d n m Fn Fm) as (q & -> & Fq & H). exists q. split; [reflexivity|]. split; [exact Fq|].
  destruct (Z.eqb_spec (num m) 0) as [Z0|_]; [exfalso; apply (x2_denominator (fe y)); rewrite <- Vm; now apply fe_zero|]. apply fe_products in H. now rewrite Vm, Vn in H.
Qed.

(** The points with a given coordinate y. *)
Lemma curve_root (x x2 y : Zmod pf) : x2 * (y * y * curve_d + 1) = y * y - 1 -> onc (x, y) <-> x * x = x2.
Proof.
  intros E. rewrite curve_x2, <- E. split; [|now intros ->]. apply (cancel prime_pf), x2_denominator.
Qed.

Lemma parity_neg (x : Zmod pf) : x <> 0 -> (Zmod.to_Z (- x) mod 2 = 1 - Zmod.to_Z x mod 2)%Z.
Proof.
  intros N. pose proof (to_Z_bound x) as B. assert (N' : Zmod.to_Z x <> 0%Z) by (now apply Zmod.to_Z_nz). rewrite Zmod.to_Z_opp.
  replace ((- Zmod.to_Z x) mod pf)%Z with (pf - Zmod.to_Z x)%Z by (apply (Z.mod_unique_pos _ _ (-1)); lia).
  replace (pf - Zmod.to_Z x)%Z with (1 - Zmod.to_Z x + (2 ^ 254 - 10) * 2)%Z by (unfold pf; lia). rewrite Z_mod_plus_full.
  pose proof (Z.div_mod (Zmod.to_Z x) 2 ltac:(lia)). pose proof (Z.mod_pos_bound (Zmod.to_Z x) 2 ltac:(lia)).
  symmetry. apply (Z.mod_unique_pos _ _ (- (Zmod.to_Z x / 2))%Z); lia.
Qed.

Lemma Unpack_ok d P md : u256 md -> let y := Zmod.of_Z pf (num md mod 2 ^ 255) in
  exists P' ok, ed_Unpack d P md = Ok (P', ok) /\ preScalar P' = preScalar P /\
  if ok then exists x, onc (x, y) /\ represents (coords P') (x, y) /\ (x = 0 \/ (Zmod.to_Z x mod 2 = num md / 2 ^ 255)%Z) else forall x, ~ onc (x, y).
Proof.
  intros U y. unfold ed_Unpack. destruct (fe_of_bytes d md U) as [Fy Ey]. fold y in Ey. set (yv := fp_of_bytes d md) in *. clearbody yv.
  destruct (Unpack_x2 d yv Fy) as (x2 & -> & F2 & E2). cbn [bind]. destruct (fp_Sqrt_ok d x2 F2) as (r & -> & Fr & HR). cbn [bind]. rewrite Ey in E2. clearbody y.
  pose proof (fun x => curve_root x (fe x2) y E2) as CR. rewrite !fp_IsZero_ok by (apply Fr || apply F2). destruct (Z.eqb_spec (num r) 0) as [Zr|Nr].
  - eexists _, _. split; [reflexivity|]. split; [reflexivity|]. destruct fp_new_ok as [F0 E0]. destruct (Z.eqb_spec (num x2) 0) as [Z2|N2].
    + exists 0. assert (V2 : fe x2 = 0) by now apply fe_zero. split; [apply CR; rewrite V2; ring|]. split; [|now left]. assert (Vr : fe r = 0) by now apply fe_zero. assert (V0 : fe fp_new = 0) by now apply fe_zero.
      unfold represents, represents3, set_coords. cbn [coords fX fY fZ fT fst snd]. rewrite Vr, V0, Ey, fe_1, !Zmod.mul_0_l, Zmod.mul_1_r. pose proof fp_1. pose proof (one_nz prime_pf).
      repeat match goal with |- _ /\ _ => split end; assumption || reflexivity.
    + intros x Hx. apply CR in Hx. destruct HR as [HR|[NS _]]; [|apply NS, (fe_square x2 x); now symmetry]. rewrite Zr in HR. apply N2. apply (fp_zero x2 F2). now rewrite <- HR.
  - assert (Sr : fe r * fe r = fe x2) by (destruct HR as [HR|[_ HR]]; [now apply fe_products|contradiction]). assert (Nr' : fe r <> 0) by (intros Z0; apply Nr; now apply fe_zero).
    rewrite fp_Parity_ok, sign_bit, num_fe by assumption. set (x := if negb _ then fp_neg d r else r).
    assert (HX : fp x /\ fe x * fe x = fe x2 /\ (Zmod.to_Z (fe x) mod 2 = num md / 2 ^ 255)%Z).
    { unfold x. pose proof (num_bound md U) as BM. pose proof (Z.div_mod (num md) (2 ^ 255) ltac:(lia)). pose proof (Z.mod_pos_bound (num md) (2 ^ 255) ltac:(lia)). pose proof (Z.mod_pos_bound (Zmod.to_Z (fe r)) 2 ltac:(lia)).
      destruct (Z.eqb_spec (Zmod.to_Z (fe r) mod 2) (num md / 2 ^ 255)) as [Ep|Np]; cbn [negb]; [split; [exact Fr|]; split; [exact Sr|exact Ep]|]. rewrite fe_neg, parity_neg by assumption. split; [auto with field|]. split; [rewrite <- Sr; ring|lia]. }
    clearbody x. destruct HX as (Fx & Ex & Px). eexists _, true. split; [reflexivity|]. split; [reflexivity|]. exists (fe x). split; [now apply CR|]. split; [|now right].
    unfold represents, represents3, set_coords. cbn [coords fX fY fZ fT fst snd]. rewrite fe_mul, Ey, fe_1, !Zmod.mul_1_r by assumption. pose proof fp_1. pose proof (one_nz prime_pf).
    repeat match goal with |- _ /\ _ => split end; assumption || reflexivity || auto with field.
Qed.

(** ** Round trips *)

Lemma root_sign (x x' : Zmod pf) : x * x = x' * x' -> x' = x \/ x' = - x.
Proof.
  intros E. assert (Z0 : (x' - x) * (x' + x) = 0) by (transitivity (x' * x' - x * x); [ring|]; rewrite E; ring).
  apply (mul_zero prime_pf) in Z0 as [Z0|Z0]; [left|right]; [transitivity (x' - x + x); [ring|]|transitivity (x' + x - x); [ring|]]; rewrite Z0; ring.
Qed.

Lemma same_point (x x' y : Zmod pf) : onc (x, y) -> onc (x', y) -> (x' = 0 \/ (Zmod.to_Z x' mod 2 = Zmod.to_Z x mod 2)%Z) -> x' = x.
Proof.
  intros H H' C. rewrite curve_x2 in H, H'. assert (E : x * x = x' * x') by (apply (cancel prime_pf _ _ _ (x2_denominator y)); congruence). destruct (zero_dec x) as [->|N].
  - destruct (root_sign 0 x' E) as [->| ->]; ring.
  - destruct (root_sign x x' E) as [->| ->]; [reflexivity|]. exfalso. destruct C as [C|C].
    + apply N. transitivity (- - x); [ring|]. rewrite C. ring.
    + rewrite parity_neg in C by exact N. pose proof (Z.mod_pos_bound (Zmod.to_Z x) 2 ltac:(lia)). lia.
Qed.

(** A point is read back from its encoding. *)
Lemma Unpack_encode d P A md : onc A -> u256 md -> num md = encode A -> exists P', ed_Unpack d P md = Ok (P', true) /\ preScalar P' = preScalar P /\ represents (coords P') A.
Proof.
  intros HA U E. destruct A as [x y]. destruct (encode_bound (x, y)) as (_ & M & Q). cbn [fst snd] in M, Q. pose proof (Unpack_ok d P md U) as H. cbv zeta in H. rewrite E, M, Q, Zmod.of_Z_to_Z in H.
  destruct H as (P' & ok & HU & HT & HR). destruct ok; [|exfalso; now apply (HR x)]. exists P'. split; [exact HU|]. split; [exact HT|].
  destruct HR as (x' & H' & R & S). now rewrite (same_point x x' y HA H' S) in R.
Qed.

(** What Unpack accepts is what Pack writes, for a reduced coordinate whose sign is not that of a zero. *)
Lemma Pack_decoded d P P' md : u256 md -> (num md mod 2 ^ 255 < pf)%Z -> ed_Unpack d P md = Ok (P', true) -> fe (fX (coords P')) <> 0 \/ (num md < 2 ^ 255)%Z -> ed_Pack d P' = Ok md.
Proof.
  intros U Hc HU HS. pose proof (Unpack_ok d P md U) as H. cbv zeta in H. destruct H as (P2 & ok & E & _ & HR). rewrite HU in E. injection E as <- <-. destruct HR as (x & HO & R & HP).
  destruct (Pack_ok d P' _ (proj1 R)) as (v & -> & Uv & Ev). f_equal. apply num_inj; [exact Uv|exact U|]. rewrite Ev. unfold encode. cbn [fst snd].
  pose proof (num_bound md U). pose proof (Z.mod_pos_bound (num md) (2 ^ 255) ltac:(lia)). pose proof (Z.div_mod (num md) (2 ^ 255) ltac:(lia)). rewrite Zmod.to_Z_of_Z, (Z.mod_small (num md mod _)) by lia.
  destruct HP as [->|HP]; [|lia]. rewrite Zmod.to_Z_0. change (0 mod 2)%Z with 0%Z. destruct HS as [HS|HS]; [|rewrite (Z.mod_small (num md)) by lia; lia].
  exfalso. apply HS. destruct R as ((_ & _ & _ & _ & -> & _) & _). cbn [fst]. ring.
Qed.
