(* ===== verification/EdBase.v ===== *)
(** * The base point and its order

    The base point is on the curve, and its multiple by the modulus of the scalars is the
    origin.  The multiple is evaluated on machine integers by a copy of the formulas that is
    proved equal to the code's. *)

From Stdlib Require Import ZArith List Lia Bool Zdivisibility Zmod Field.
From Bignums Require Import BigN.
From S2P Require Import Prelude Radix Base25519 Base25519Ok Sc25519 Sc25519Ok Poly Fp25519 Fp25519Ok Prime25519 FpPower Edwards Ed25519 Ed25519Ok EdMult EdPack.
Import ListNotations.
Local Open Scope Z_scope.

(** ** Field elements as machine integers *)

Definition bp : bigN := big pf.

Definition badd (a b : bigN) : bigN := BigN.modulo (BigN.add a b) bp.
Definition bmul (a b : bigN) : bigN := BigN.modulo (BigN.mul a b) bp.
Definition bsub (a b : bigN) : bigN := BigN.modulo (BigN.add a (BigN.sub bp (BigN.modulo b bp))) bp.

(** The words of a machine integer. *)
Definition words (a : bigN) : list Z := rdig (2 ^ 64) 4 (BigN.to_Z a mod pf).

Lemma words_ok a : fp (words a) /\ num (words a) = BigN.to_Z a mod pf.
Proof.
  pose proof (Z.mod_pos_bound (BigN.to_Z a) pf ltac:(reflexivity)) as base_point. assert (E : num (words a) = BigN.to_Z a mod pf).
  { unfold num, words. rewrite rval_rdig by lia. apply Z.mod_small. change ((2 ^ 64) ^ Z.of_nat 4) with (2 ^ 256). unfold pf in *. lia. }
  split; [|exact E]. split; [split; [apply length_rdig|apply rdigs_rdig; lia]|lia].
Qed.

Lemma words_eq v a : fp v -> cong pf (num v) (BigN.to_Z a) -> v = words a.
Proof. intros F E. destruct (words_ok a) as [G V]. apply fp_inj; [exact F|exact G|]. rewrite V. rewrite E. symmetry. apply Z.mod_mod. discriminate. Qed.

Lemma bp_ok : BigN.to_Z bp = pf.
Proof. vm_compute. reflexivity. Qed.

Section Words.

Variable d : bool.

Lemma words_add a b : fp_add d (words a) (words b) = words (badd a b).
Proof.
  destruct (words_ok a) as [Fa Ea], (words_ok b) as [Fb Eb]. destruct (fp_add_ok d _ _ Fa Fb) as [F E]. apply words_eq; [exact F|].
  unfold badd. rewrite BigN.spec_modulo, BigN.spec_add, bp_ok, E, Ea, Eb. now rewrite !cong_mod by discriminate.
Qed.

Lemma words_mul a b : fp_mul d (words a) (words b) = words (bmul a b).
Proof.
  destruct (words_ok a) as [Fa Ea], (words_ok b) as [Fb Eb]. destruct (fp_mul_ok d _ _ Fa Fb) as [F E]. apply words_eq; [exact F|].
  unfold bmul. rewrite BigN.spec_modulo, BigN.spec_mul, bp_ok, E, Ea, Eb. now rewrite !cong_mod by discriminate.
Qed.

Lemma words_sub a b : fp_sub d (words a) (words b) = words (bsub a b).
Proof.
  destruct (words_ok a) as [Fa Ea], (words_ok b) as [Fb Eb]. destruct (fp_sub_ok d _ _ Fa Fb) as [F E]. apply words_eq; [exact F|].
  unfold bsub. rewrite BigN.spec_modulo, BigN.spec_add, BigN.spec_sub, BigN.spec_modulo, bp_ok, E, Ea, Eb. pose proof (Z.mod_pos_bound (BigN.to_Z b) pf ltac:(reflexivity)).
  rewrite Z.max_r by lia. rewrite !(cong_mod pf (_ - _)), !(cong_mod pf (_ + _)), cong_mod by discriminate. replace (BigN.to_Z a + (pf - BigN.to_Z b mod pf)) with (BigN.to_Z a - BigN.to_Z b mod pf + 1 * pf) by ring.
  unfold cong. now rewrite Z_mod_plus_full.
Qed.

Lemma words_0 : fp_new = words 0%bigN.
Proof. vm_compute. reflexivity. Qed.

Lemma words_neg a : fp_neg d (words a) = words (bsub 0%bigN a).
Proof. unfold fp_neg. rewrite words_0. apply words_sub. Qed.

(** ** The formulas *)

Record bpoint : Type := mk_b { bX : bigN; bY : bigN; bZ : bigN; bT : bigN }.

Definition point_words (p : bpoint) : coordinates := mk_coords (words (bX p)) (words (bY p)) (words (bZ p)) (words (bT p)).

Definition becd2 : bigN := big (num _ecd2).

Definition bfrom (x y z t : bigN) : bpoint := mk_b (bmul x t) (bmul y z) (bmul z t) (bmul x y).

Definition bAdd (p q : bpoint) : bpoint :=
  let a := bmul (bsub (bY p) (bX p)) (bsub (bY q) (bX q)) in
  let b := bmul (badd (bY p) (bX p)) (badd (bY q) (bX q)) in
  let c := bmul (bmul (bT p) (bT q)) becd2 in
  let d := bmul (bZ p) (bZ q) in
  let d := badd d d in
  bfrom (bsub b a) (badd b a) (badd d c) (bsub d c).

Definition bDouble (p : bpoint) : bpoint :=
  let a := bmul (bX p) (bX p) in
  let b := bmul (bY p) (bY p) in
  let c := bmul (bZ p) (bZ p) in
  let c := badd c c in
  let d := bsub 0%bigN a in
  let s := badd (bX p) (bY p) in
  let e := bmul s s in
  let g := badd d b in
  bfrom (bsub (bsub e a) b) (bsub d b) g (bsub g c).

Lemma words_ecd2 : ecd2 d = words becd2.
Proof. rewrite (proj2 (ecd2_ok d)). apply words_eq; [apply (ecd2_ok d)|]. vm_compute. reflexivity. Qed.

Lemma FromP1P1_words x y z t : FromP1P1 d (words x) (words y) (words z) (words t) = point_words (bfrom x y z t).
Proof. unfold FromP1P1, point_words, bfrom. cbn [bX bY bZ bT]. now rewrite !words_mul. Qed.

Lemma Add_words p q : Add d (point_words p) (point_words q) = point_words (bAdd p q).
Proof. unfold Add, bAdd, point_words. cbn [fX fY fZ fT]. cbv zeta. rewrite words_ecd2, !words_sub, !words_add, !words_mul, !words_add, !words_sub, FromP1P1_words. reflexivity. Qed.

Lemma Double_words p : Double d (point_words p) = point_words (bDouble p).
Proof.
  unfold Double, bDouble, point_words, fp_Square. cbn [fX fY fZ fT]. cbv zeta. rewrite !words_add, !words_mul, !words_neg, !words_add, !words_sub, FromP1P1_words. reflexivity.
Qed.

Fixpoint bmult (n : positive) (p : bpoint) : bpoint :=
  match n with
  | xH => p
  | xO n' => bDouble (bmult n' p)
  | xI n' => bAdd (bDouble (bmult n' p)) p
  end.

Lemma bmult_ok p P n : represents (point_words p) P -> onc P -> represents (point_words (bmult n p)) (pmul (Zpos n) P).
Proof.
  intros HP OP. induction n as [n IH|n IH|]; cbn [bmult]; [| |now rewrite pmul_1].
  - rewrite <- Add_words, <- Double_words, Pos2Z.inj_xI, pmul_add by (assumption || lia). rewrite pmul_1 by assumption. apply Add_ok; auto with curve.
    replace (2 * Zpos n) with (Zpos n + Zpos n) by ring. rewrite pmul_add by (assumption || lia). apply Double_ok; [apply IH|auto with curve].
  - rewrite <- Double_words, Pos2Z.inj_xO. replace (2 * Zpos n) with (Zpos n + Zpos n) by ring. rewrite pmul_add by (assumption || lia). apply Double_ok; [apply IH|auto with curve].
Qed.

End Words.

(** ** The base point *)

Definition base_point : affine (p := pf) := (fe _base_x, fe _base_y).

Lemma on_base_point : onc base_point.
Proof.
  unfold on, base_point, curve_d, fe. rewrite <- !Zmod.of_Z_mul, <- Zmod.of_Z_1, <- Zmod.of_Z_sub, <- Zmod.of_Z_add, Zmod.of_Z_inj. vm_compute. reflexivity.
Qed.

Lemma rep_xy d x y : fp x -> fp y -> represents (mk_coords x y (fp_of_u64 1) (fp_mul d x y)) (fe x, fe y).
Proof.
  intros Fx Fy. unfold represents, represents3. cbn [fX fY fZ fT fst snd]. rewrite fe_mul, fe_1, !Zmod.mul_1_r by assumption. pose proof fp_1. pose proof (one_nz prime_pf).
  repeat match goal with |- _ /\ _ => split end; assumption || reflexivity || auto with field.
Qed.

Lemma base_ok d : represents (coords (base d)) base_point.
Proof.
  unfold base, ed_of_xy. cbn [coords]. destruct (base_x_ok d) as [Fx ->], (base_y_ok d) as [Fy ->]. now apply rep_xy.
Qed.

Lemma base_table d : table_of (preScalar (base d)) base_point.
Proof. unfold base, ed_of_xy. cbn [preScalar]. apply CalcPrescalar_ok; [apply (base_ok d)|exact on_base_point]. Qed.

Definition bbase : bpoint := let x := big (num _base_x) in let y := big (num _base_y) in mk_b x y 1%bigN (bmul x y).

Lemma bbase_ok : represents (point_words bbase) base_point.
Proof.
  replace (point_words bbase) with (coords (base true)); [apply base_ok|]. unfold base, ed_of_xy, point_words, bbase. cbn [coords bX bY bZ bT].
  destruct (base_x_ok true) as [Fx ->], (base_y_ok true) as [Fy ->]. rewrite <- (words_mul true).
  rewrite (words_eq _base_x (big (num _base_x)) Fx), (words_eq _base_y (big (num _base_y)) Fy) by (vm_compute; reflexivity).
  rewrite (words_eq (fp_of_u64 1) 1%bigN fp_1) by (vm_compute; reflexivity). f_equal.
Qed.

Lemma base_order : pmul ell base_point = pzero.
Proof.
  pose proof (bmult_ok true bbase base_point (Z.to_pos ell) bbase_ok on_base_point) as H. change (Zpos (Z.to_pos ell)) with ell in H. set (q := bmult (Z.to_pos ell) bbase) in *.
  assert (C : BigN.eqb (bX q) 0%bigN && BigN.eqb (bY q) (bZ q) = true) by (vm_compute; reflexivity). clearbody q. apply andb_true_iff in C as [CX CY].
  rewrite BigN.eqb_eq in CX, CY. destruct H as ((_ & _ & _ & N & EX & EY) & _). unfold point_words in *. cbn [fX fY fZ] in *. destruct (pmul ell base_point) as [x y]. cbn [fst snd] in *.
  assert (VX : fe (words (bX q)) = Zmod.zero). { apply fe_zero; [apply words_ok|]. rewrite (proj2 (words_ok (bX q))). rewrite CX. reflexivity. }
  assert (VY : fe (words (bY q)) = fe (words (bZ q))). { unfold fe. rewrite (proj2 (words_ok (bY q))), (proj2 (words_ok (bZ q))). now rewrite CY. }
  unfold origin. f_equal; apply (cancel prime_pf _ _ _ N).
  - now rewrite Zmod.mul_0_l, <- EX.
  - now rewrite Zmod.mul_1_l, <- EY.
Qed.
