(* ===== verification/Curve.v ===== *)
(** * The keys, signatures and boxes on the curve of the repository

    The instance of the interface of [MpBox] by the operations of [Ed25519], and what the
    interface promises there: the multiples of the base point, honest signatures, shared
    keys, and boxes that commit to the polynomial they were made from.  libsodium's
    multiplication of the base point is documented to return the encoded multiple by the low
    255 bits. *)

From Stdlib Require Import ZArith List Lia Bool Zdivisibility Zmod.
From S2P Require Import Prelude Radix Base25519 Base25519Ok Sc25519 Sc25519Ok Interp Poly InterpOk MpBox MpBoxOk Fp25519 Fp25519Ok Prime25519 FpPower Edwards Ed25519 Ed25519Ok EdMult EdPack EdBase.
Import ListNotations.
Local Open Scope Z_scope.

(** ** The instance *)

Definition key_bytes (z : Z) : list Z := cast 64 8 32 (data_of z).

Definition point_or (P : CEdwards25519) (r : result (CEdwards25519 * CEdwards25519)) : CEdwards25519 := match r with Ok (Q, _) => Q | _ => P end.

Definition ed25519 (d : bool) : Edwards25519 := {|
  point := CEdwards25519;
  point_new := ed_new;
  Unpack P z := match ed_Unpack d P (data_of z) with Ok r => r | _ => (P, false) end;
  Pack P := match ed_Pack d P with Ok v => uint256_of_data v | _ => 0 end;
  ScalarMult P z := point_or ed_new (ed_ScalarMult d P (key_bytes z));
  Generate z := point_or ed_new (ed_ScalarMult d (base d) (key_bytes z));
  point_add := ed_add d;
  point_eq := ed_eq d |}.

(** libsodium. *)
Class Sodium_base (N : Sodium) : Prop := {
  base_noclamp : forall s, uint256_ok s -> crypto_scalarmult_ed25519_base_noclamp s = encode (pmul (s mod 2 ^ 255) base_point) }.

(** ** The operations of the interface *)

Lemma key_bytes_ok z : uint256_ok z -> key_bytes z <> [] /\ rdigs (2 ^ 8) (key_bytes z) /\ rval (2 ^ 8) (key_bytes z) = z.
Proof.
  intros H. destruct (buffer_bytes (data_of z) (data_of_u256 z)) as (L & HD & E). rewrite data_of_bounded in E by exact H. split; [|now split]. intros E0. unfold key_bytes in E0. rewrite E0 in L. discriminate L.
Qed.

Section Interface.

Variable d : bool.

Notation stands P A := (represents (coords P) A /\ onc A).

(** No table, or the table of the point. *)
Definition usable (P : CEdwards25519) (A : affine (p := pf)) : Prop := stands P A /\ table_fresh d P A.

Lemma no_table c A : represents c A -> onc A -> usable (mk_ed c []) A.
Proof. intros R HA. split; [now split|]. intros H. discriminate H. Qed.

Lemma ScalarMult_point P A z : usable P A -> uint256_ok z -> usable (ScalarMult (Edwards25519 := ed25519 d) P z) (pmul z A).
Proof.
  intros ((HR & HA) & HT) Hz. destruct (key_bytes_ok z Hz) as (Ne & HD & E). destruct (ScalarMult_ok d P A _ HR HA HT Ne HD) as (r & P' & H & Rr & _). cbn [ScalarMult ed25519]. rewrite H. cbn [point_or].
  rewrite E in Rr. apply no_table; auto with curve.
Qed.

Lemma Generate_point z : uint256_ok z -> usable (Generate (Edwards25519 := ed25519 d) z) (pmul z base_point).
Proof.
  intros Hz. apply (ScalarMult_point (base d)); [|exact Hz]. split; [split; [apply base_ok|exact on_base_point]|]. intros _. apply base_table.
Qed.

Lemma Unpack_point A : onc A -> exists P, Unpack (Edwards25519 := ed25519 d) point_new (encode A) = (P, true) /\ usable P A.
Proof.
  intros HA. destruct (encode_bound A) as (HB & _). destruct (Unpack_encode d ed_new A (data_of (encode A)) HA (data_of_u256 _)) as (P & E & HT & R); [now apply data_of_bounded|].
  exists P. cbn [Unpack point_new ed25519]. rewrite E. split; [reflexivity|]. destruct P as [c pre]. cbn [preScalar coords ed_new] in *. subst pre. now apply no_table.
Qed.

Lemma Pack_point P A : stands P A -> Pack (Edwards25519 := ed25519 d) P = encode A.
Proof. intros [R _]. cbn [Pack ed25519]. destruct (Pack_ok d P A (proj1 R)) as (v & -> & _ & E). exact E. Qed.

Lemma add_point P Q A C : stands P A -> stands Q C -> stands (point_add (Edwards25519 := ed25519 d) P Q) (padd A C).
Proof. intros [HP OA] [HQ OC]. cbn [point_add ed25519]. split; [now apply Add_ok|auto with curve]. Qed.

Lemma eq_point P Q A C : stands P A -> stands Q C -> point_eq (Edwards25519 := ed25519 d) P Q = true <-> A = C.
Proof. intros [HP _] [HQ _]. apply ed_eq_ok; [apply HP|apply HQ]. Qed.

End Interface.

(** ** The subgroup of the base point *)

Definition padd_assoc := @eadd_assoc pf prime_pf curve_d sqrt_m1 sqrt_m1_square curve_d_not_square two_nz.
Definition on_opp_pf := @on_opp pf prime_pf curve_d.
Definition pmul_origin := @emul_origin pf prime_pf curve_d sqrt_m1 sqrt_m1_square curve_d_not_square two_nz.
#[export] Hint Resolve on_opp_pf on_base_point : curve.

Lemma padd_cancel P Q : onc P -> onc Q -> padd P Q = P -> Q = pzero.
Proof.
  intros HP HQ E. assert (G : padd (eopp P) (padd P Q) = Q). { rewrite <- padd_assoc by auto with curve. rewrite (padd_comm (eopp P)), padd_opp, padd_comm, padd_origin; auto. }
  rewrite <- G, E, padd_comm. now apply padd_opp.
Qed.

Lemma encode_inj A C : onc A -> onc C -> encode A = encode C -> A = C.
Proof.
  intros HA HC E. destruct (encode_bound A) as (_ & MA & QA), (encode_bound C) as (_ & MC & QC). rewrite E in MA, QA. rewrite MC in MA. rewrite QC in QA. destruct A as [x y], C as [x' y']. cbn [fst snd] in *.
  assert (y' = y) as -> by (apply Zmod.to_Z_inj; exact MA). f_equal. symmetry. apply (same_point x x' y); auto.
Qed.

Lemma base_point_nz : base_point <> pzero.
Proof.
  intros E. apply (f_equal snd) in E. cbn [snd base_point origin] in E. unfold base_point, origin in E. cbn [snd] in E. rewrite <- (Zmod.of_Z_1 pf) in E. unfold fe in E. apply Zmod.of_Z_inj in E. vm_compute in E. discriminate E.
Qed.

Lemma base_mod n : 0 <= n -> pmul (n mod ell) base_point = pmul n base_point.
Proof. intros H. apply pmul_mod; [exact on_base_point|exact H|reflexivity|exact base_order]. Qed.

Lemma multiple_order s : 0 <= s -> pmul ell (pmul s base_point) = pzero.
Proof.
  intros Hs. rewrite <- (pmul_mul ell s) by (exact on_base_point || exact Hs || discriminate). rewrite Z.mul_comm, (pmul_mul s ell) by (exact on_base_point || exact Hs || discriminate).
  rewrite base_order. now apply pmul_origin.
Qed.

(** A multiple that vanishes is a multiple of the order. *)
Lemma order_exact k : 0 <= k -> pmul k base_point = pzero -> k mod ell = 0.
Proof.
  intros Hk E. pose proof (Z.mod_pos_bound k ell eq_refl) as Bk. destruct (Z.eq_dec (k mod ell) 0) as [Z0|N]; [exact Z0|exfalso]. rewrite <- base_mod in E by exact Hk.
  set (r := k mod ell) in *. assert (C : Z.coprime ell r) by (apply Z.coprime_prime_small; [exact prime_ell|lia]). apply Z.Bezout_coprime_iff in C as (s & t & Hst).
  set (t' := t mod ell). pose proof (Z.mod_pos_bound t ell eq_refl) as Bt. fold t' in Bt.
  assert (M : (t' * r) mod ell = 1). { unfold t'. rewrite Zmult_mod_idemp_l. replace (t * r) with (1 + (- s) * ell) by lia. rewrite Z_mod_plus_full. reflexivity. }
  apply base_point_nz. rewrite <- (pmul_1 base_point) by auto with curve. rewrite <- M. rewrite base_mod by (apply Z.mul_nonneg_nonneg; lia).
  rewrite pmul_mul by (auto with curve; lia). rewrite E. apply pmul_origin. lia.
Qed.

Lemma pmul_inj a b : 0 <= a -> 0 <= b -> pmul a base_point = pmul b base_point -> cong ell a b.
Proof.
  assert (G : forall a b, 0 <= b <= a -> pmul a base_point = pmul b base_point -> cong ell a b).
  { intros x y H E. replace x with (y + (x - y)) in E by ring. rewrite pmul_add in E by (auto with curve; lia). apply padd_cancel in E; auto with curve. apply order_exact in E; [|lia].
    unfold cong. replace x with (y + (x - y)) by ring. rewrite <- Zplus_mod_idemp_r, E. now rewrite Z.add_0_r. }
  intros Ha Hb E. destruct (Z_le_gt_dec b a); [apply G; [lia|exact E]|]. symmetry. apply G; [lia|now symmetry].
Qed.

Lemma pmul_cong a b : 0 <= a -> 0 <= b -> cong ell a b -> pmul a base_point = pmul b base_point.
Proof. intros Ha Hb E. rewrite <- (base_mod a Ha), <- (base_mod b Hb). now rewrite E. Qed.

(** No multiple of the base point is encoded by zero: the points with second coordinate zero have order four. *)
Lemma quarter_turn (x : Zmod pf) : onc (x, Zmod.zero) -> pmul 4 (x, Zmod.zero) = pzero.
Proof.
  intros H. pose proof H as C. unfold on in C. assert (X2 : Zmod.mul x x = Zmod.opp Zmod.one).
  { transitivity (Zmod.opp (Zmod.sub (Zmod.mul Zmod.zero Zmod.zero) (Zmod.mul x x))); [|rewrite C]; rewrite ?Zmod.mul_0_l, ?Zmod.mul_0_r, ?Zmod.add_0_r, ?Zmod.sub_0_l, ?Zmod.opp_opp; reflexivity. }
  assert (E1 : padd (x, Zmod.zero) (x, Zmod.zero) = (Zmod.zero, Zmod.opp Zmod.one)).
  { apply padd_unique; [exact H|exact H| |]; unfold eps; cbn [fst snd]; rewrite ?Zmod.mul_0_l, ?Zmod.mul_0_r, ?Zmod.mul_0_l, ?Zmod.add_0_r, ?Zmod.sub_0_r, ?Zmod.mul_1_r, ?Zmod.mul_0_r, ?Zmod.add_0_l; [reflexivity|now rewrite X2]. }
  assert (H2 : onc (Zmod.zero, Zmod.opp Zmod.one)) by (rewrite <- E1; auto with curve).
  assert (E2 : padd (Zmod.zero, Zmod.opp Zmod.one) (Zmod.zero, Zmod.opp Zmod.one) = pzero).
  { apply padd_unique; [exact H2|exact H2| |]; unfold eps; cbn [fst snd]; rewrite ?Zmod.mul_0_l, ?Zmod.mul_0_r, ?Zmod.mul_0_l, ?Zmod.add_0_r, ?Zmod.sub_0_r, ?Zmod.mul_1_r, ?Zmod.mul_opp_l, ?Zmod.mul_opp_r, ?Zmod.opp_opp, ?Zmod.mul_1_l; reflexivity. }
  rewrite <- (pmul_1 _ H) in E1 at 1 2. rewrite <- pmul_add in E1 by (assumption || lia). change 4 with (1 + 1 + (1 + 1)). rewrite pmul_add, E1 by (assumption || lia). exact E2.
Qed.

Lemma multiple_y s : 0 <= s -> snd (pmul s base_point) <> Zmod.zero.
Proof.
  intros Hs E. destruct (pmul s base_point) as [x y] eqn:A. cbn [snd] in E. subst y. assert (HA : onc (x, Zmod.zero)) by (rewrite <- A; auto with curve).
  assert (L : pmul ell (x, Zmod.zero) = pzero).
  { rewrite <- A. now apply multiple_order. }
  replace ell with (4 * (ell / 4) + 1) in L by reflexivity. rewrite pmul_add, (Z.mul_comm 4), pmul_mul, (quarter_turn x HA), pmul_origin, pmul_1, padd_comm, padd_origin in L by (auto with curve; discriminate).
  apply (f_equal snd) in L. cbn [snd] in L. unfold origin in L. cbn [snd] in L. now apply (one_nz prime_pf).
Qed.

Lemma encode_nz s : 0 <= s -> encode (pmul s base_point) <> 0.
Proof.
  intros Hs E. apply (multiple_y s Hs). destruct (encode_bound (pmul s base_point)) as (_ & M & _). rewrite E in M. change (0 mod 2 ^ 255) with 0 in M.
  apply Zmod.to_Z_inj. now rewrite Zmod.to_Z_0, <- M.
Qed.
