(* ===== verification/Keys.v ===== *)
(** * Keys, signatures and honest boxes

    With the curve of the repository and libsodium's base multiplication: honest signatures
    verify, both ends of an exchange compute the same shared key, a sealed box made from an
    opened one is accepted, and its precomputed shares commit to the opened polynomial.  The
    verification equation has a solution without the private key, too. *)

From Stdlib Require Import ZArith List Lia Bool Zdivisibility Zmod.
From S2P Require Import Prelude Radix Base25519 Base25519Ok Sc25519 Sc25519Ok Interp Poly InterpOk MpBox MpBoxOk Mpvss MpvssOk Fp25519 Fp25519Ok Prime25519 FpPower Edwards Ed25519 Ed25519Ok EdMult EdPack EdBase Curve.
Import ListNotations.
Local Open Scope Z_scope.

#[local] Opaque emul eadd.

Section Keys.

Variable d : bool.
Context {N : Sodium} {NB : Sodium_base N}.

#[local] Instance curve : Edwards25519 := ed25519 d.

Lemma small_uint256 s : small s -> uint256_ok s.
Proof. unfold small, uint256_ok. lia. Qed.

Lemma pubkey_ok s : small s -> MPEccPubkey s = encode (pmul s base_point).
Proof. intros H. unfold MPEccPubkey. rewrite base_noclamp by now apply small_uint256. now rewrite Z.mod_small by exact H. Qed.

Lemma multiple_mod z : cong ell z (z mod ell) /\ small (z mod ell).
Proof. split; [symmetry; apply cong_mod|apply ell_small]. Qed.

(** ** Signatures *)

Lemma MPEccSign_ok key r hash : uint256_ok key -> uint256_ok r -> uint256_ok hash -> MPEccSign d key r hash = (key + r * hash) mod ell.
Proof.
  intros Hk Hr Hh. unfold MPEccSign. pose proof (rep_coeff d key Hk) as Rk. pose proof (rep_mul d _ _ _ _ (rep_coeff d r Hr) (rep_coeff d hash Hh)) as Rm.
  apply rep_canonical; [|now apply rep_add]. apply sc_add_ok; [apply Rk|apply Rm|]. apply sc_of_bytes_ok, data_of_u256.
Qed.

(** What verification decides, for encoded points. *)
Lemma MPEccVerify_points A R sig hash : onc A -> onc R -> uint256_ok sig -> uint256_ok hash ->
  MPEccVerify (encode A) (encode R) sig hash = true <-> pmul sig base_point = padd A (pmul hash R).
Proof.
  intros HA HR Hs Hh. unfold MPEccVerify, curve. destruct (Unpack_point d A HA) as (P & EP & UP & _), (Unpack_point d R HR) as (Q & EQ & UQ). rewrite EP, EQ. cbn [andb].
  apply (eq_point d); [apply (Generate_point d sig Hs)|]. apply (add_point d); [exact UP|]. apply (ScalarMult_point d Q R hash UQ Hh).
Qed.

Lemma honest_signature key r hash : small key -> small r -> uint256_ok hash -> MPEccVerify (MPEccPubkey key) (MPEccPubkey r) (MPEccSign d key r hash) hash = true.
Proof.
  intros Hk Hr Hh. rewrite !pubkey_ok, MPEccSign_ok by (assumption || now apply small_uint256). destruct (multiple_mod (key + r * hash)) as [C S].
  unfold small in Hk, Hr. unfold uint256_ok in Hh. assert (Hp : 0 <= r * hash) by (apply Z.mul_nonneg_nonneg; lia).
  apply MPEccVerify_points; auto with curve; [now apply small_uint256|]. rewrite <- pmul_mul by (auto with curve; lia). rewrite <- pmul_add by (auto with curve; lia).
  rewrite (Z.mul_comm hash). apply pmul_cong; [apply S|lia|]. now symmetry.
Qed.

(** Without the private key: R = (S - P) * inv, where [inv] is to invert the hash. *)
Definition forged (pubkey sig inv : Z) : Z := Pack (ScalarMult (ed_sub d (Generate sig) (fst (Unpack point_new pubkey))) inv).

(** The random point computed from the public key, the signature and the hash only. *)
Definition forge (pubkey sig hash : Z) : Z := forged pubkey sig (Z.invmod hash ell).

Lemma ed_sub_point P Q A C : represents (coords P) A -> onc A -> represents (coords Q) C -> onc C -> represents (coords (ed_sub d P Q)) (padd A (eopp C)).
Proof. intros HP OA HQ OC. unfold ed_sub, ed_add, set_coords. cbn [coords]. apply Add_ok; auto with curve. now apply ed_neg_ok. Qed.

Lemma pmul_distr n X Y : onc X -> onc Y -> 0 <= n -> pmul n (padd X Y) = padd (pmul n X) (pmul n Y).
Proof.
  intros HX HY Hn. pattern n. apply natlike_ind; [rewrite !emul_0; symmetry; apply padd_origin, on_O| |exact Hn]. intros k Hk IH. unfold Z.succ.
  assert (HX' : onc (pmul k X)) by now apply on_mul_pf. assert (HY' : onc (pmul k Y)) by now apply on_mul_pf. assert (HXY : onc (padd X Y)) by now apply on_add_pf.
  rewrite !pmul_add, !pmul_1, IH by (assumption || lia). set (X' := pmul k X) in *. set (Y' := pmul k Y) in *. clearbody X' Y'.
  rewrite (padd_assoc X' Y'), <- (padd_assoc Y' X Y), (padd_comm Y' X), (padd_assoc X Y' Y), <- (padd_assoc X' X) by (assumption || now apply on_add_pf). reflexivity.
Qed.

Lemma neg_in_group A : onc A -> pmul ell A = pzero -> pmul ell (eopp A) = pzero.
Proof.
  intros HA E. assert (HN : onc (eopp A)) by now apply on_opp_pf. pose proof (pmul_distr ell A (eopp A) HA HN ltac:(discriminate)) as G.
  rewrite (padd_opp A HA), (pmul_origin ell ltac:(discriminate)), E, (padd_comm pzero), (padd_origin _ (on_mul_pf ell _ HN)) in G. now symmetry.
Qed.

Lemma Generate_no_table z : preScalar (Generate z : CEdwards25519) = [].
Proof. cbn [Generate curve ed25519]. unfold ed_ScalarMult. now destruct (key_bytes z). Qed.

Lemma forged_ok A sig hash inv : onc A -> pmul ell A = pzero -> uint256_ok sig -> uint256_ok hash -> uint256_ok inv -> cong ell (inv * hash) 1 ->
  MPEccVerify (encode A) (forged (encode A) sig inv) sig hash = true.
Proof.
  intros HA LA Hs Hh Hi E. unfold forged. destruct (Unpack_point d A HA) as (P & EP & (RP & _) & _). fold curve in EP. rewrite EP. cbn [fst]. destruct (Generate_point d sig Hs) as ((RS & OS) & _). fold curve in RS.
  pose proof (Generate_no_table sig) as T. set (S := Generate sig) in *. assert (O2 : onc (eopp A)) by now apply on_opp_pf. pose proof (ed_sub_point S P _ A RS OS RP HA) as RQ.
  set (Q := padd (pmul sig base_point) (eopp A)) in *. assert (OQ : onc Q) by now apply on_add_pf.
  assert (UQ : usable d (ed_sub d S P) Q). { split; [now split|]. intros H. unfold table_current, ed_sub, ed_add, set_coords in H. cbn [preScalar] in H. rewrite T in H. discriminate H. }
  destruct (ScalarMult_point d _ Q inv UQ Hi) as (ST & _). fold curve in ST. pose proof (Pack_point d _ _ ST) as PK. fold curve in PK. rewrite PK. clear PK. unfold uint256_ok in *.
  assert (LQ : pmul ell Q = pzero).
  { unfold Q. rewrite (pmul_distr ell _ _ OS O2) by discriminate. rewrite (neg_in_group A HA LA). rewrite multiple_order by apply Hs. apply padd_origin, on_O. }
  apply MPEccVerify_points; auto; [now apply on_mul_pf|]. rewrite <- pmul_mul by (exact OQ || lia). rewrite Z.mul_comm.
  assert (Hp : 0 <= inv * hash) by (apply Z.mul_nonneg_nonneg; lia). rewrite <- (pmul_mod (inv * hash) ell Q OQ Hp eq_refl LQ). unfold cong in E. rewrite E, Z.mod_1_l, pmul_1 by (reflexivity || exact OQ). unfold Q.
  rewrite (padd_comm A), padd_assoc, (padd_comm (eopp A)), padd_opp, padd_origin by assumption. reflexivity.
Qed.

(** ** Shared keys *)

Lemma shared_key_ok a b : uint256_ok a -> small b -> MPEccSharedKey a (MPEccPubkey b) = encode (pmul (a * b) base_point).
Proof.
  intros Ha Hb. rewrite pubkey_ok by exact Hb. unfold MPEccSharedKey. destruct (Unpack_point d _ (on_mul_pf b _ on_base_point)) as (P & EP & UP). fold curve in EP. rewrite EP.
  destruct (ScalarMult_point d P _ a UP Ha) as (ST & _). fold curve in ST. pose proof (Pack_point d _ _ ST) as PK. fold curve in PK. rewrite PK. clear PK. f_equal. symmetry. unfold uint256_ok, small in *. apply pmul_mul; [exact on_base_point|lia|lia].
Qed.

(** ** Valid keys *)

Lemma pubkey_valid s : small s -> MPEccPubkeyValidate (MPEccPubkey s) = negb (s mod ell =? 0).
Proof.
  intros Hs. rewrite pubkey_ok by exact Hs. unfold MPEccPubkeyValidate. rewrite (proj2 (Z.eqb_neq _ _) (encode_nz s (proj1 Hs))). cbn [negb andb].
  destruct (Unpack_point d _ (on_mul_pf s _ on_base_point)) as (P & EP & (SP & _)). fold curve in EP. rewrite EP. cbn [andb]. f_equal. apply eq_true_iff_eq.
  assert (S0 : represents (coords ed_new) pzero /\ onc pzero) by (split; [exact origin_ok|exact on_O]). pose proof (eq_point d P ed_new _ _ SP S0) as EQ. fold curve in EQ. rewrite EQ, Z.eqb_eq. unfold small in Hs. split.
  - apply order_exact. lia.
  - intros E. rewrite <- base_mod, E by lia. apply emul_0.
Qed.

End Keys.

(** libsodium's keys bind: equal keys come from congruent scalars. *)
#[export] Instance base_binding {N : Sodium} {NB : Sodium_base N} : Sodium_binding.
Proof.
  split. intros a b Ha Hb E. change (MPEccPubkey a = MPEccPubkey b) in E. rewrite !pubkey_ok in E by assumption. unfold small in *.
  apply pmul_inj; [lia|lia|]. apply encode_inj; [apply on_mul_pf, on_base_point|apply on_mul_pf, on_base_point|exact E].
Qed.
