(* ===== verification/HonestBox.v ===== *)
(** * Boxes made from a polynomial

    A box that MakeSealedBox seals is accepted by VerifySignature, and PrecalcPolynomial
    computes the keys of the shares of its polynomial, so that VerifyPolynomial accepts
    exactly the values that the opened box deals. *)

From Stdlib Require Import ZArith List Lia Bool Zdivisibility Zmod.
From S2P Require Import Prelude Radix Base25519 Base25519Ok Sc25519 Sc25519Ok Interp Poly InterpOk MpBox MpBoxOk Mpvss MpvssOk Fp25519 Fp25519Ok Prime25519 FpPower Edwards Ed25519 Ed25519Ok EdMult EdPack EdBase Curve Keys.
Import ListNotations.
Local Open Scope Z_scope.

#[local] Opaque emul eadd.

Section Boxes.

Variable d : bool.
Context {N : Sodium} {NB : Sodium_base N}.

#[local] Instance box_curve : Edwards25519 := ed25519 d.

(** What RandShare returns: 252 bits. *)
Definition scalar_ok (s : Z) : Prop := 0 < s < 2 ^ 252.

Lemma scalar_small s : scalar_ok s -> small s /\ s mod ell = s /\ s <> 0.
Proof. unfold scalar_ok, small. intros H. assert (2 ^ 252 < ell) by reflexivity. split; [lia|]. split; [apply Z.mod_small; lia|lia]. Qed.

Lemma honest_box b sealed nIdent r : vCoeff b <> [] -> Forall scalar_ok (vCoeff b) -> scalar_ok (nPrivKey b) -> scalar_ok r -> uint256_ok nIdent ->
  exists sb, MakeSealedBox d b sealed nIdent r = (sb, true) /\ vEncryptedCoeff sb = map MPEccPubkey (vCoeff b) /\ vEncryptedShare sb = vEncryptedShare sealed /\ VerifySignature sb nIdent = true.
Proof.
  intros Hne HC Hk Hr Hi. unfold MakeSealedBox. assert (HV : opened_Validate b = true).
  { unfold opened_Validate. replace (forallb _ _) with true; [now destruct (vCoeff b)|]. symmetry. apply forallb_forall. intros c Hc. rewrite Forall_forall in HC. destruct (scalar_small c (HC c Hc)) as (_ & _ & Nc). now rewrite (proj2 (Z.eqb_neq _ _)). }
  destruct (scalar_small _ Hk) as (Sk & _ & Nk), (scalar_small _ Hr) as (Sr & _ & Nr). rewrite HV, (proj2 (Z.eqb_neq _ _)) by exact Nr. cbn [negb orb]. unfold opened_Signature, opened_PubKey. eexists. split; [reflexivity|]. split; [reflexivity|]. split; [reflexivity|].
  unfold VerifySignature, sealed_IsNull. cbn [vEncryptedCoeff nPubKey nR nS]. replace (match map MPEccPubkey (vCoeff b) with [] => true | _ => _ end) with false.
  2:{ destruct (vCoeff b) as [|c cs]; [contradiction|]. cbn [map]. symmetry. apply Z.eqb_neq. rewrite pubkey_ok by exact Sk. apply encode_nz, Sk. }
  replace (forallb MPEccPubkeyValidate _) with true; [now apply (honest_signature d)|]. symmetry. apply forallb_forall. intros k Hin. apply in_map_iff in Hin as (c & <- & Hc). rewrite Forall_forall in HC. destruct (scalar_small c (HC c Hc)) as (Sc & Mc & Nc).
  pose proof (pubkey_valid d c Sc) as V. change (MPEccPubkeyValidate (MPEccPubkey c) = negb (c mod ell =? 0)) in V. rewrite V, Mc. now rewrite (proj2 (Z.eqb_neq _ _)).
Qed.

(** ** Precomputed shares *)

Lemma unpack_coeffs_keys n : forall cs, (n <= length cs)%nat -> Forall small cs ->
  exists vP, unpack_coeffs n (map MPEccPubkey cs) = Ok vP /\ Forall2 (fun (P : CEdwards25519) c => usable d P (pmul c base_point)) vP (firstn n cs).
Proof.
  induction n as [|n IH]; intros cs L HC; cbn [unpack_coeffs firstn]; [exists []; split; [reflexivity|constructor]|]. destruct cs as [|c cs]; [cbn in L; lia|]. cbn [map firstn].
  apply Forall_cons_iff in HC as [Hc HC]. destruct (IH cs ltac:(cbn in L; lia) HC) as (vP & -> & F). cbn [bind]. eexists. split; [reflexivity|]. constructor; [|exact F].
  rewrite pubkey_ok by exact Hc. destruct (Unpack_point d _ (on_mul_pf c _ on_base_point)) as (P & EP & UP). fold box_curve in EP. rewrite EP. exact UP.
Qed.

Lemma share_point_keys x vP cs : 1 <= x <= 51 -> Forall2 (fun (P : CEdwards25519) c => usable d P (pmul c base_point)) vP cs -> Forall small cs -> forall i (P : CEdwards25519) z, 1 <= i -> i + Z.of_nat (length cs) <= 27 -> 0 <= z ->
  represents (coords P) (pmul z base_point) -> exists Q : CEdwards25519, share_point i x vP P = Ok Q /\ represents (coords Q) (pmul (z + x ^ i * peval cs x) base_point) /\ 0 <= peval cs x.
Proof.
  intros Hx F. induction F as [|Q c vP cs UQ F IH]; intros HC i P z Hi Hn Hz HP; cbn [share_point peval].
  { exists P. rewrite Z.mul_0_r, Z.add_0_r. split; [reflexivity|]. split; [exact HP|lia]. }
  apply Forall_cons_iff in HC as [Hc HC]. cbn [length] in Hn. destruct (power_table x i Hx ltac:(lia)) as (v & -> & [Wv Cv]). cbn [bind].
  pose proof (num_bound v (proj1 Wv)) as Bv. destruct (ScalarMult_point d Q _ (num v) UQ Bv) as (SQ & _). pose proof (add_point d P _ _ _ (conj HP (on_mul_pf z _ on_base_point)) SQ) as [RS _].
  assert (Hp : 0 <= x ^ i) by (apply Z.pow_nonneg; lia). unfold small in Hc.
  assert (E : padd (pmul z base_point) (pmul (num v) (pmul c base_point)) = pmul (z + x ^ i * c) base_point).
  { rewrite <- (pmul_mul (num v) c) by (exact on_base_point || lia). rewrite (pmul_cong (num v * c) (x ^ i * c)), <- pmul_add by (exact on_base_point || lia || (apply Z.mul_nonneg_nonneg; lia) || now rewrite Cv). reflexivity. }
  rewrite E in RS. destruct (IH HC (i + 1) _ (z + x ^ i * c) ltac:(lia) ltac:(lia) ltac:(apply Z.add_nonneg_nonneg; [lia|apply Z.mul_nonneg_nonneg; lia]) RS) as (R & ER & RR & P0). exists R. split; [exact ER|].
  split; [|apply Z.add_nonneg_nonneg; [lia|apply Z.mul_nonneg_nonneg; lia]]. replace (z + x ^ i * (c + x * peval cs x)) with (z + x ^ i * c + x ^ (i + 1) * peval cs x) by (rewrite Z.pow_add_r, Z.pow_1_r by lia; ring). exact RR.
Qed.

Lemma share_points_keys vP cs n : Forall2 (fun (P : CEdwards25519) c => usable d P (pmul c base_point)) vP cs -> Forall small cs -> cs <> [] -> Z.of_nat (length cs) <= 27 -> forall x shares, 1 <= x -> x + Z.of_nat n <= 52 -> x + Z.of_nat n <= Z.of_nat (length shares) ->
  exists shares', share_points n x vP shares = Ok shares' /\ length shares' = length shares /\
    forall k, (x <= k < x + Z.of_nat n -> nth (Z.to_nat k) shares' 0 = encode (pmul (peval cs k) base_point)) /\ (0 <= k < x -> nth (Z.to_nat k) shares' 0 = nth (Z.to_nat k) shares 0).
Proof.
  intros F HC Hne HL. induction n as [|n IH]; intros x shares Hx H52 Hs; cbn [share_points]; [exists shares; split; [reflexivity|]; split; [reflexivity|]; intros k; split; intros; [lia|reflexivity]|].
  destruct F as [|P0 c vP cs U0 F]; [contradiction|]. apply Forall_cons_iff in HC as [Hc HC']. destruct U0 as ((R0 & O0) & T0). cbn [length] in HL. unfold small in Hc.
  destruct (share_point_keys x vP cs ltac:(lia) F HC' 1 P0 c ltac:(lia) ltac:(lia) ltac:(lia) R0) as (Q & EQ & RQ & P0'). rewrite EQ. cbn [bind]. rewrite Z.pow_1_r in RQ. pose proof (Pack_point d Q _ (conj RQ (on_mul_pf _ _ on_base_point))) as PK. fold box_curve in PK. rewrite PK.
  destruct (IH (x + 1) (upd shares (Z.to_nat x) (encode (pmul (c + x * peval cs x) base_point)))) as (shares' & ES & LS & HS); [lia|lia|rewrite length_upd; lia|]. exists shares'. split; [exact ES|]. rewrite length_upd in LS. split; [exact LS|]. intros k. destruct (HS k) as [H1 H2]. split.
  - intros Hk. destruct (Z.eq_dec k x) as [->|Nk]; [|apply H1; lia]. rewrite H2 by lia. apply nth_upd_eq. lia.
  - intros Hk. rewrite H2 by lia. apply nth_upd_neq. lia.
Qed.

Lemma length_resize_keys {A} n (a : A) l : length (resize n a l) = n.
Proof. unfold resize. rewrite length_app, length_firstn, repeat_length. lia. Qed.

Lemma precalc_commits b cs thresh last : vEncryptedCoeff b = map MPEccPubkey cs -> Forall small cs -> 1 <= thresh <= 27 -> thresh <= Z.of_nat (length cs) -> 1 <= last <= 52 ->
  exists b', PrecalcPolynomial b thresh last = Ok b' /\ Z.of_nat (length (vEncryptedShare b')) = last /\ commits b' (firstn (Z.to_nat thresh) cs).
Proof.
  intros HB HC Ht HL Hlast. unfold PrecalcPolynomial. rewrite HB. destruct (unpack_coeffs_keys (Z.to_nat thresh) cs ltac:(lia) HC) as (vP & -> & F). cbn [bind].
  set (cs' := firstn (Z.to_nat thresh) cs) in *. assert (L' : length cs' = Z.to_nat thresh) by (unfold cs'; rewrite length_firstn; lia). assert (HC' : Forall small cs').
  { rewrite <- (firstn_skipn (Z.to_nat thresh) cs) in HC. now apply Forall_app in HC. }
  destruct (share_points_keys vP cs' (Z.to_nat (last - 1)) F HC' ltac:(intros E; rewrite E in L'; cbn in L'; lia) ltac:(lia) 1 (resize (Z.to_nat last) 0 (vEncryptedShare b))) as (shares & -> & LS & HS); [lia|lia|rewrite length_resize_keys; lia|].
  cbn [bind]. eexists. split; [reflexivity|]. cbn [vEncryptedShare]. rewrite LS, length_resize_keys. split; [lia|]. intros x Hx Hlen. cbn [vEncryptedShare] in *. rewrite LS, length_resize_keys in Hlen.
  rewrite (proj1 (HS x)) by lia. rewrite pubkey_ok by apply ell_small. f_equal.
  assert (P0 : 0 <= peval cs' x). { clearbody cs'. clear -HC' Hx. induction HC' as [|c l Hc _ IH]; cbn [peval]; [lia|]. unfold small in Hc. apply Z.add_nonneg_nonneg; [lia|apply Z.mul_nonneg_nonneg; lia]. }
  symmetry. apply base_mod, P0.
Qed.

Lemma commits_decides (b : CMPSealedBox) c x v : commits b c -> 1 <= x <= 51 -> x < Z.of_nat (length (vEncryptedShare b)) -> small v -> VerifyPolynomial b x v = true <-> cong ell v (peval c x).
Proof.
  intros HC Hx HL Hv. unfold VerifyPolynomial. rewrite (proj2 (Z.leb_gt _ _) HL), (HC x Hx HL), Z.eqb_eq. destruct (multiple_mod (peval c x)) as [M S]. split; intros E.
  - rewrite M. symmetry. apply pubkey_binding; [exact S|exact Hv|exact E].
  - rewrite !pubkey_ok by assumption. f_equal. unfold small in *. apply pmul_cong; [lia|lia|]. rewrite <- M. now symmetry.
Qed.

End Boxes.
