(* ===== verification/Points.v ===== *)
(** * The properties of the curve and of the keys

    The theorems about the field, the points and their encoding, the keys and the boxes,
    with their instances.  The libsodium of the instances is the multiplication of the base
    point by the code of the repository. *)

From Stdlib Require Import ZArith List Lia Bool Zdivisibility Zmod Field.
From S2P Require Import Prelude Radix Base25519 Base25519Ok Sc25519 Sc25519Ok Interp Poly InterpOk MpBox MpBoxOk Mpvss MpvssOk Fp25519 Fp25519Ok FpInverse Prime25519 FpPower Edwards Ed25519 Ed25519Ok EdMult EdPack EdBase Curve Keys HonestBox.
Import ListNotations.
Local Open Scope Z_scope.

#[local] Opaque emul eadd.

(** libsodium by the code of the repository. *)
#[local] Instance own_sodium : Sodium := {| crypto_scalarmult_ed25519_base_noclamp s := Pack (Edwards25519 := ed25519 true) (Generate (Edwards25519 := ed25519 true) (s mod 2 ^ 255)) |}.

Lemma own_sodium_ok : Sodium_base own_sodium.
Proof.
  split. intros s Hs. unfold uint256_ok in Hs. pose proof (Z.mod_pos_bound s (2 ^ 255) ltac:(lia)) as HB. assert (H : uint256_ok (s mod 2 ^ 255)) by (unfold uint256_ok; lia).
  destruct (Generate_point true _ H) as [ST _]. exact (Pack_point true _ _ ST).
Qed.

(** ** The field *)

(** C22: The field elements of both builds are the integers modulo the prime 2^255 - 19, in
    reduced form: sums, differences, products, opposites and powers have the value of the
    operation, comparison decides equality, 32 bytes are read as the residue of their low 255
    bits, a reduced element is packed as it is, and inversion ends for every element, with the
    inverse of a nonzero one and with zero for zero. *)
Theorem field_operations (d : bool) a b : fp a -> fp b ->
  (fp (fp_add d a b) /\ num (fp_add d a b) = (num a + num b) mod pf) /\
  (fp (fp_sub d a b) /\ num (fp_sub d a b) = (num a - num b) mod pf) /\
  (fp (fp_mul d a b) /\ num (fp_mul d a b) = (num a * num b) mod pf) /\
  (fp (fp_neg d a) /\ num (fp_neg d a) = (- num a) mod pf) /\
  (forall e, u256 e -> fp (fp_Power d a e) /\ num (fp_Power d a e) = (num a ^ num e) mod pf) /\
  (fp_eq d a b = true <-> a = b) /\
  (forall md, u256 md -> fp (fp_of_bytes d md) /\ num (fp_of_bytes d md) = (num md mod 2 ^ 255) mod pf) /\
  fp_of_bytes d (fp_Pack a) = a /\ fp_Parity a = num a mod 2 /\ Z.prime pf /\
  exists i, fp_Inverse d a = Ok i /\ fp i /\ (num a = 0 -> num i = 0) /\ (num a <> 0 -> (num i * num a) mod pf = 1).
Proof.
  intros Fa Fb. split; [now apply fp_add_ok|]. split; [now apply fp_sub_ok|]. split; [now apply fp_mul_ok|]. split; [now apply fp_neg_ok|]. split; [intros e U; now apply fp_Power_ok|].
  split. { rewrite fp_eq_ok, Z.eqb_eq by auto with field. split; [intros E; apply num_inj; auto with field|now intros ->]. }
  split; [intros md U; now apply fp_of_bytes_ok|]. split; [rewrite fp_Pack_ok by exact Fa; now apply fp_of_bytes_id|]. split; [now apply fp_Parity_ok|]. split; [exact prime_pf|].
  destruct (fp_Inverse_ok d a Fa) as (i & E & Fi & H). exists i. split; [exact E|]. split; [exact Fi|]. destruct (Z.eqb_spec (num a) 0) as [Z0|N0]; split; intros H0; try contradiction; [exact H|exact H].
Qed.

Lemma field_operations_witness : num (fp_mul true [2; 0; 0; 0] minusOne) = (2 * (pf - 1)) mod pf /\ exists i, fp_Inverse true [2; 0; 0; 0] = Ok i /\ (num i * 2) mod pf = 1.
Proof.
  assert (F2 : fp [2; 0; 0; 0]) by (apply (fp_u64_fp 2); lia). assert (Fm : fp minusOne) by (split; [apply u256_minusOne|reflexivity]).
  destruct (field_operations true [2; 0; 0; 0] minusOne F2 Fm) as (_ & _ & (_ & E) & _ & _ & _ & _ & _ & _ & _ & i & Ei & _ & _ & Hi). split; [exact E|]. exists i. split; [exact Ei|]. apply Hi. discriminate.
Defined.

(** C23: Sqrt ends for every element; it returns a square root of every square, and zero for
    the elements that are not squares. *)
Theorem square_roots (d : bool) v : fp v -> exists r, fp_Sqrt d v = Ok r /\ fp r /\
  ((exists y, (y * y) mod pf = num v) -> (num r * num r) mod pf = num v) /\ ((forall y, (y * y) mod pf <> num v) -> num r = 0).
Proof.
  intros F. destruct (fp_Sqrt_ok d v F) as (r & E & Fr & H). exists r. split; [exact E|]. split; [exact Fr|]. assert (C : forall x, cong pf x (num v) <-> x mod pf = num v) by (intros x; unfold cong; now rewrite (fp_mod v F)).
  destruct H as [H|[H Z0]]; split; intros H0.
  - now apply C.
  - exfalso. apply (H0 (num r)). now apply C.
  - exfalso. apply H. destruct H0 as [y Hy]. exists y. now apply C.
  - exact Z0.
Qed.

Lemma square_roots_witness : exists r, fp_Sqrt true [4; 0; 0; 0] = Ok r /\ (num r * num r) mod pf = 4.
Proof.
  assert (F : fp [4; 0; 0; 0]) by (apply (fp_u64_fp 4); lia). destruct (square_roots true _ F) as (r & E & _ & H & _). exists r. split; [exact E|]. apply H. exists 2. reflexivity.
Defined.

(** ** Points *)

(** C6: The extended coordinates implement the group of the curve y^2 - x^2 = 1 + d x^2 y^2:
    sums, doubles, opposites and differences of representatives represent the sum, double,
    opposite and difference of the points, comparison decides equality of the points whatever
    the coordinates, and the points are a commutative group with the base point in it, whose
    order is the modulus of the scalars. *)
Theorem point_group (d : bool) P Q A C : represents (coords P) A -> represents (coords Q) C -> onc A -> onc C ->
  (represents (coords (ed_add d P Q)) (padd A C) /\ onc (padd A C)) /\
  represents (Double d (coords P)) (padd A A) /\
  (represents (coords (ed_neg d P)) (eopp A) /\ onc (eopp A)) /\
  represents (coords (ed_sub d P Q)) (padd A (eopp C)) /\
  (ed_eq d P Q = true <-> A = C) /\
  (padd A C = padd C A /\ padd A pzero = A /\ padd A (eopp A) = pzero /\ forall R, onc R -> padd (padd A C) R = padd A (padd C R)) /\
  (represents (coords (base d)) base_point /\ onc base_point /\ forall k, 0 <= k -> pmul k base_point = pzero <-> k mod ell = 0).
Proof.
  intros HP HQ OA OC. split; [split; [now apply Add_ok|now apply on_add_pf]|]. split; [apply Double_ok; [apply HP|exact OA]|]. split; [split; [now apply ed_neg_ok|now apply on_opp_pf]|].
  split; [now apply ed_sub_point|]. split; [apply ed_eq_ok; [apply HP|apply HQ]|]. split.
  - split; [apply padd_comm|]. split; [now apply padd_origin|]. split; [now apply padd_opp|]. intros R OR. now apply padd_assoc.
  - split; [apply base_ok|]. split; [exact on_base_point|]. intros k Hk. split; [now apply order_exact|]. intros E. rewrite <- base_mod, E by exact Hk. apply emul_0.
Qed.

Lemma point_group_witness : represents (coords (ed_add true (base true) ed_new)) (padd base_point pzero).
Proof. destruct (point_group true (base true) ed_new base_point pzero (base_ok true) origin_ok on_base_point on_O) as ((H & _) & _). exact H. Defined.

(** C7: ScalarMult ends for every nonempty string of bytes and returns the multiple of the
    point by the number they spell, with the lowest byte first, for every state of the table
    but one that belongs to another point with the same first two coordinates; it leaves the
    table of the point behind. *)
Theorem point_multiples (d : bool) P A u8 : represents (coords P) A -> onc A -> table_fresh d P A -> u8 <> [] -> Forall (fun b => 0 <= b < 2 ^ 8) u8 ->
  exists r P', ed_ScalarMult d P u8 = Ok (r, P') /\ represents (coords r) (pmul (rval (2 ^ 8) u8) A) /\ coords P' = coords P /\ table_of (preScalar P') A /\ table_fresh d P' A.
Proof.
  intros HP OA HT Hne HD. destruct (ScalarMult_ok d P A u8 HP OA HT Hne HD) as (r & P' & E & R & EC & T). exists (mk_ed r []), P'. split; [exact E|]. split; [exact R|]. split; [exact EC|]. split; [exact T|]. now intros _.
Qed.

Lemma point_multiples_witness : exists r P', ed_ScalarMult true ed_new [7; 1] = Ok (r, P') /\ represents (coords r) (pmul 263 pzero).
Proof.
  destruct (point_multiples true ed_new pzero [7; 1] origin_ok on_O) as (r & P' & E & R & _); [intros H; discriminate H|discriminate|repeat constructor; lia|]. exists r, P'. split; [exact E|exact R].
Defined.

(** ** The table of another point *)

(** -1/4, which the sum with the point of order two carries to its opposite. *)
Definition quarter : list Z := rdig (2 ^ 64) 4 (2 ^ 253 - 5).
Definition scaled (d : bool) : coordinates := mk_coords (fp_mul d _base_x quarter) (fp_mul d _base_y quarter) quarter (fp_mul d (fp_mul d _base_x _base_y) quarter).
Definition half_turn : CEdwards25519 := ed_of_xyzt fp_new minusOne (fp_of_u64 1) fp_new.
Definition half_point : affine (p := pf) := (Zmod.zero, Zmod.opp Zmod.one).

Lemma quarter_ok : fp quarter /\ Zmod.mul (Zmod.of_Z pf 4) (fe quarter) = Zmod.opp Zmod.one.
Proof.
  split; [split; [split; [reflexivity|apply rdigs_rdig; lia]|vm_compute; reflexivity]|]. unfold fe. rewrite <- Zmod.of_Z_mul, <- Zmod.of_Z_1, <- Zmod.of_Z_opp. apply Zmod.of_Z_inj. vm_compute. reflexivity.
Qed.

Lemma fe_minusOne : fp minusOne /\ fe minusOne = Zmod.opp Zmod.one.
Proof.
  split; [split; [apply u256_minusOne|reflexivity]|]. unfold fe. rewrite <- Zmod.of_Z_1, <- Zmod.of_Z_opp. apply Zmod.of_Z_inj. vm_compute. reflexivity.
Qed.

Lemma fe_new : fp fp_new /\ fe fp_new = Zmod.zero.
Proof. destruct fp_new_ok as [F E]. split; [exact F|]. now apply fe_zero. Qed.

Add Field field_pf'' : (Zmod.field_theory pf prime_pf).

Lemma quarter_nz : fe quarter <> Zmod.zero.
Proof.
  destruct quarter_ok as [_ E]. intros Z0. rewrite Z0, Zmod.mul_0_r in E. apply (one_nz prime_pf). transitivity (Zmod.opp (Zmod.opp (Zmod.one : Zmod pf))); [ring|]. rewrite <- E. ring.
Qed.

Lemma scaled_ok d : represents (scaled d) base_point.
Proof.
  destruct quarter_ok as [Fq _], (base_x_ok d) as [Fx _], (base_y_ok d) as [Fy _]. unfold represents, represents3, scaled, base_point. cbn [fX fY fZ fT fst snd]. rewrite !fe_mul by auto with field. pose proof quarter_nz.
  repeat match goal with |- _ /\ _ => split end; assumption || reflexivity || auto with field.
Qed.

Lemma on_half_point : onc half_point.
Proof. unfold on, half_point. ring. Qed.

Lemma half_turn_ok : represents (coords half_turn) half_point.
Proof.
  destruct fe_minusOne as [Fm Em], fe_new as [F0 E0]. unfold represents, represents3, half_turn, ed_of_xyzt, half_point. cbn [coords fX fY fZ fT fst snd]. rewrite Em, E0, fe_1. pose proof fp_1. pose proof (one_nz prime_pf).
  repeat match goal with |- _ /\ _ => split end; assumption || ring.
Qed.

(** The sum has the first two coordinates of the point. *)
Lemma half_turn_coords d : fX (Add d (scaled d) (coords half_turn)) = fX (scaled d) /\ fY (Add d (scaled d) (coords half_turn)) = fY (scaled d).
Proof.
  destruct (scaled_ok d) as ((Fx & Fy & Fz & _) & Ft & _), half_turn_ok as ((Gx & Gy & Gz & _) & Gt & _), quarter_ok as [_ Hq], fe_minusOne as [_ Em], fe_new as [_ E0], (ecd2_ok d) as [F2 E2].
  assert (Eq : forall v : Zmod pf, v = Zmod.opp (Zmod.mul v (Zmod.mul (Zmod.of_Z pf 4) (fe quarter)))) by (intros v; rewrite Hq; ring). assert (E4 : Zmod.of_Z pf 4 = Zmod.add (Zmod.add Zmod.one Zmod.one) (Zmod.add Zmod.one Zmod.one)) by (rewrite <- (Zmod.of_Z_1 pf), <- !Zmod.of_Z_add; reflexivity).
  set (s := scaled d) in *. change (fe quarter) with (fe (fZ s)) in Eq. set (h := coords half_turn) in *. assert (Hx : fe (fX h) = Zmod.zero) by exact E0. assert (Hy : fe (fY h) = Zmod.opp Zmod.one) by exact Em. assert (Hz : fe (fZ h) = Zmod.one) by exact fe_1. assert (Ht : fe (fT h) = Zmod.zero) by exact E0.
  clearbody s h. rewrite E4 in Eq. clear E4 Hq. unfold Add, FromP1P1. cbv zeta. rewrite E2. cbn [fX fY]. split; (apply fe_inj; [auto 8 with field|assumption|]); autorewrite with field; rewrite Hx, Hy, Hz, Ht.
  - etransitivity; [|symmetry; apply Eq]. ring.
  - etransitivity; [|symmetry; apply Eq]. ring.
Qed.

(** C24: ScalarMult decides by X and Y alone whether its table is current.  There is a point
    P without a table and a point Q such that, after P has been multiplied, the product of
    P + Q by one is not P + Q: the sum has the first two coordinates of P in another scale,
    and the table of P is used for it. *)
Theorem stale_table (d : bool) : exists P Q A C, represents (coords P) A /\ preScalar P = [] /\ represents (coords Q) C /\ onc A /\ onc C /\
  exists r1 P1 r2 P2, ed_ScalarMult d P [1] = Ok (r1, P1) /\ ed_eq d r1 P = true /\ ed_ScalarMult d (ed_add d P1 Q) [1] = Ok (r2, P2) /\ ed_eq d r2 (ed_add d P1 Q) = false.
Proof.
  exists (mk_ed (scaled d) []), half_turn, base_point, half_point. pose proof (scaled_ok d) as RS. split; [exact RS|]. split; [reflexivity|]. split; [exact half_turn_ok|]. split; [exact on_base_point|]. split; [exact on_half_point|].
  assert (HD : rdigs (2 ^ 8) [1]) by (repeat constructor; lia). assert (Ne : [1] <> []) by discriminate.
  destruct (ScalarMult_computed d (mk_ed (scaled d) []) base_point [1] RS on_base_point eq_refl Ne HD) as (r1 & E1 & R1). cbn [coords] in E1. change (rval (2 ^ 8) [1]) with 1 in R1. rewrite pmul_1 in R1 by exact on_base_point.
  set (P1 := mk_ed (scaled d) (CalcPrescalar d (scaled d))) in *. destruct (half_turn_coords d) as [EX EY]. destruct (RS) as ((Fx & Fy & _) & _).
  assert (HC : table_current d (ed_add d P1 half_turn) = true).
  { unfold table_current, ed_add, set_coords. cbn [preScalar coords P1]. replace (nth 1 (CalcPrescalar d (scaled d)) origin_coords) with (scaled d) by reflexivity. rewrite EX, EY, !fp_eq_ok, !Z.eqb_refl by auto with field. reflexivity. }
  destruct (ScalarMult_current d (ed_add d P1 half_turn) base_point [1] on_base_point HC (CalcPrescalar_ok d _ _ RS on_base_point) Ne HD) as (r2 & E2 & R2). change (rval (2 ^ 8) [1]) with 1 in R2. rewrite pmul_1 in R2 by exact on_base_point.
  exists (mk_ed r1 []), P1, (mk_ed r2 []), (ed_add d P1 half_turn). split; [exact E1|]. split; [apply (ed_eq_ok d _ _ base_point base_point); [apply R1|apply RS|reflexivity]|]. split; [exact E2|].
  pose proof (Add_ok d (scaled d) (coords half_turn) base_point half_point RS half_turn_ok on_base_point on_half_point) as RA.
  apply not_true_iff_false. intros E. rewrite (ed_eq_ok d (mk_ed r2 []) (ed_add d P1 half_turn) base_point (padd base_point half_point) (proj1 R2) (proj1 RA)) in E.
  symmetry in E. apply padd_cancel in E; [|exact on_base_point|exact on_half_point]. apply (f_equal snd) in E. unfold half_point, origin in E. cbn [snd] in E. apply two_nz. rewrite <- E at 1. ring.
Qed.

(** ** Encoding *)

(** C9: Pack ends for every point and writes the second coordinate with the parity of the
    first; Unpack ends for every 32 bytes, accepts them exactly when their low 255 bits are
    the second coordinate of a point of the curve, and returns a point with this coordinate.
    A packed point is read back; and what was read is packed to the same bytes, when the
    coordinate is reduced and a sign bit does not go with a zero. *)
Theorem point_encoding (d : bool) P A : represents (coords P) A -> onc A ->
  (exists v, ed_Pack d P = Ok v /\ num v = encode A /\ forall P0, exists P', ed_Unpack d P0 v = Ok (P', true) /\ represents (coords P') A) /\
  (forall P0 md, u256 md -> exists P' ok, ed_Unpack d P0 md = Ok (P', ok) /\
     (ok = true <-> exists x, onc (x, Zmod.of_Z pf (num md mod 2 ^ 255))) /\
     (ok = true -> exists x, onc (x, Zmod.of_Z pf (num md mod 2 ^ 255)) /\ represents (coords P') (x, Zmod.of_Z pf (num md mod 2 ^ 255))) /\
     (ok = true -> num md mod 2 ^ 255 < pf -> fp_IsZero (fX (coords P')) = false \/ num md < 2 ^ 255 -> ed_Pack d P' = Ok md)).
Proof.
  intros HP OA. split.
  - destruct (Pack_ok d P A (proj1 HP)) as (v & E & U & V). exists v. split; [exact E|]. split; [exact V|]. intros P0. destruct (Unpack_encode d P0 A v OA U V) as (P' & E' & _ & R). exists P'. split; [exact E'|exact R].
  - intros P0 md U. pose proof (Unpack_ok d P0 md U) as H. cbv zeta in H. destruct H as (P' & ok & E & _ & H). exists P', ok. split; [exact E|]. destruct ok.
    + destruct H as (x & Ox & Rx & _). split; [split; [intros _; exists x; exact Ox|reflexivity]|]. split; [intros _; exists x; split; [exact Ox|exact Rx]|]. intros _ Hc Hs. apply (Pack_decoded d P0 P' md U Hc E).
      destruct Hs as [Hs|Hs]; [left|now right]. intros Z0. assert (Fx : fp (fX (coords P'))) by apply Rx. rewrite fp_IsZero_ok in Hs by apply Fx. apply Z.eqb_neq in Hs. apply Hs. now apply fe_zero.
    + split; [split; [discriminate|intros [x Hx]; exfalso; exact (H x Hx)]|]. split; discriminate.
Qed.

Lemma point_encoding_witness : exists v, ed_Pack true (base true) = Ok v /\ exists P', ed_Unpack true ed_new v = Ok (P', true) /\ represents (coords P') base_point.
Proof.
  destruct (point_encoding true (base true) base_point (base_ok true) on_base_point) as ((v & E & _ & H) & _). exists v. split; [exact E|]. apply H.
Defined.

(** ** Keys and boxes *)

(** C19: With libsodium's base multiplication as documented, a box that MakeSealedBox seals
    from nonzero 252-bit coefficients, key and random number is accepted by VerifySignature,
    and its owner's signatures of any hash verify. *)
Theorem honest_boxes (d : bool) {N : Sodium} {NB : Sodium_base N} b sealed nIdent r : vCoeff b <> [] -> Forall scalar_ok (vCoeff b) -> scalar_ok (nPrivKey b) -> scalar_ok r -> uint256_ok nIdent ->
  exists sb, MakeSealedBox d b sealed nIdent r = (sb, true) /\ vEncryptedCoeff sb = map MPEccPubkey (vCoeff b) /\ VerifySignature (E := ed25519 d) sb nIdent = true /\
  forall hash r', uint256_ok hash -> scalar_ok r' -> let (sR, sS) := opened_Signature d b hash r' in VerifySignature_hash (E := ed25519 d) sb hash sR sS = true.
Proof.
  intros Hne HC Hk Hr Hi. destruct (honest_box d b sealed nIdent r Hne HC Hk Hr Hi) as (sb & E & EC & _ & V). exists sb. split; [exact E|]. split; [exact EC|]. split; [exact V|]. intros hash r' Hh Hr'. unfold opened_Signature.
  assert (EK : nPubKey sb = MPEccPubkey (nPrivKey b)). { unfold MakeSealedBox in E. destruct (_ || _); [discriminate E|]. cbv zeta in E. unfold opened_Signature in E. injection E as <-. reflexivity. }
  unfold VerifySignature_hash. unfold VerifySignature in V. destruct (sealed_IsNull sb); [discriminate V|]. rewrite EK. exact (honest_signature d _ _ _ (proj1 (scalar_small _ Hk)) (proj1 (scalar_small _ Hr')) Hh).
Qed.

Lemma honest_boxes_witness : exists sb, MakeSealedBox true (mk_opened [3; 5] 7) (sealed_new [] 0 0 0) 1 9 = (sb, true) /\ VerifySignature (E := ed25519 true) sb 1 = true.
Proof.
  destruct (honest_boxes true (NB := own_sodium_ok) (mk_opened [3; 5] 7) (sealed_new [] 0 0 0) 1 9) as (sb & E & _ & V & _).
  - discriminate.
  - repeat constructor; lia.
  - split; reflexivity.
  - split; reflexivity.
  - split; [discriminate|reflexivity].
  - exists sb. split; [exact E|exact V].
Defined.

(** C8: With libsodium's base multiplication as documented, PrecalcPolynomial on the keys of
    252-bit coefficients returns a box that accepts, at every argument of its table, the value
    that the opened box deals and, below 2^255, only numbers congruent to it. *)
Theorem honest_shares (d : bool) {N : Sodium} {NB : Sodium_base N} b sb thresh last x : vEncryptedCoeff sb = map MPEccPubkey (vCoeff b) -> Forall scalar_ok (vCoeff b) -> nPrivKey b <> 0 ->
  1 <= thresh <= 27 -> thresh <= Z.of_nat (length (vCoeff b)) -> last <= 52 -> 1 <= x < last ->
  exists sb' v, PrecalcPolynomial (E := ed25519 d) sb thresh last = Ok sb' /\ Polynomial d b thresh x = Ok v /\ VerifyPolynomial sb' x v = true /\
  forall w, small w -> VerifyPolynomial sb' x w = true <-> cong ell w v.
Proof.
  intros HB HC Hk Ht HL Hlast Hx. assert (HS : Forall small (vCoeff b)) by (eapply Forall_impl; [|exact HC]; intros c Hc; now apply scalar_small).
  destruct (precalc_commits d sb (vCoeff b) thresh last HB HS Ht HL ltac:(lia)) as (sb' & E & LS & CM). exists sb', (peval (dealt_poly b thresh) x mod ell). split; [exact E|].
  assert (BX : box_ok b thresh). { split; [exact Hk|]. split; [eapply Forall_impl; [|exact HS]; intros c Hc; now apply small_uint256|]. split; assumption. }
  split; [apply Polynomial_ok; [exact BX|lia]|]. pose proof (fun w Hw => commits_decides sb' _ x w CM ltac:(lia) ltac:(lia) Hw) as DEC. split; [apply DEC; [apply ell_small|apply cong_mod]|]. intros w Hw. rewrite (DEC w Hw). unfold dealt_poly. now rewrite (cong_mod ell).
Qed.

Lemma honest_shares_witness : exists sb' v, PrecalcPolynomial (E := ed25519 true) (sealed_new (map MPEccPubkey [3; 5]) 1 1 1) 2 4 = Ok sb' /\ Polynomial true (mk_opened [3; 5] 7) 2 3 = Ok v /\ VerifyPolynomial sb' 3 v = true.
Proof.
  destruct (honest_shares true (NB := own_sodium_ok) (mk_opened [3; 5] 7) (sealed_new (map MPEccPubkey [3; 5]) 1 1 1) 2 4 3) as (sb' & v & E & P & V & _).
  - reflexivity.
  - repeat constructor; lia.
  - discriminate.
  - lia.
  - cbn. lia.
  - lia.
  - lia.
  - exists sb', v. split; [exact E|]. split; [exact P|exact V].
Defined.

(** C21: With libsodium's base multiplication as documented, two boxes compute the same shared
    key from each other's public keys; it is never zero, which stands for a key that is not a
    point, and it encodes the origin exactly when the product of the private keys is a
    multiple of the order. *)
Theorem shared_keys_agree (d : bool) {N : Sodium} {NB : Sodium_base N} b1 b2 : small (nPrivKey b1) -> small (nPrivKey b2) ->
  SharedKey (E := ed25519 d) b1 (opened_PubKey b2) = SharedKey (E := ed25519 d) b2 (opened_PubKey b1) /\
  SharedKey (E := ed25519 d) b1 (opened_PubKey b2) <> 0 /\
  (SharedKey (E := ed25519 d) b1 (opened_PubKey b2) = 1 <-> (nPrivKey b1 * nPrivKey b2) mod ell = 0).
Proof.
  intros H1 H2. unfold SharedKey, opened_PubKey. rewrite !(shared_key_ok d) by (assumption || now apply small_uint256). rewrite (Z.mul_comm (nPrivKey b2)). split; [reflexivity|]. unfold small in *.
  assert (Hp : 0 <= nPrivKey b1 * nPrivKey b2) by (apply Z.mul_nonneg_nonneg; lia). split; [now apply encode_nz|]. assert (E1 : encode pzero = 1) by (unfold encode, origin; cbn [fst snd]; rewrite Zmod.to_Z_0, Zmod.to_Z_1_pos by (unfold pf; lia); reflexivity).
  rewrite <- E1. split; intros E.
  - apply order_exact; [exact Hp|]. apply encode_inj; [apply on_mul_pf, on_base_point|exact on_O|exact E].
  - f_equal. rewrite <- base_mod, E by exact Hp. apply emul_0.
Qed.

Lemma shared_keys_agree_witness : SharedKey (E := ed25519 true) (mk_opened [3] 7) (opened_PubKey (mk_opened [4] 8)) = SharedKey (E := ed25519 true) (mk_opened [4] 8) (opened_PubKey (mk_opened [3] 7)).
Proof.
  destruct (shared_keys_agree true (NB := own_sodium_ok) (mk_opened [3] 7) (mk_opened [4] 8)) as (H & _); [split; [discriminate|reflexivity]|split; [discriminate|reflexivity]|]. exact H.
Defined.

Lemma invmod_ell_small h : small (Z.invmod h ell).
Proof. unfold Z.invmod. apply ell_small. Qed.

Lemma invmod_ell h : h mod ell <> 0 -> cong ell (Z.invmod h ell * h) 1.
Proof.
  intros Nh. unfold cong. rewrite (Z.invmod_prime h ell prime_ell Nh). reflexivity.
Qed.

(** C20: The signatures of boxes can be forged without the private key: the hash does not
    depend on the random point, so for every number chosen as the signature and every hash
    that is not a multiple of the order there is a function of the public key, which
    inverts the hash modulo the order and uses the operations of the code, whose result
    MPEccVerify accepts as the random point, whatever the private key is. *)
Theorem signatures_forgeable (d : bool) {N : Sodium} {NB : Sodium_base N} hash sig : uint256_ok hash -> hash mod ell <> 0 -> uint256_ok sig ->
  forall key, small key -> MPEccVerify (E := ed25519 d) (MPEccPubkey key) (forge d (MPEccPubkey key) sig hash) sig hash = true.
Proof.
  intros Hh Nh Hs key Hk. unfold forge. rewrite pubkey_ok by exact Hk.
  apply forged_ok; [apply on_mul_pf, on_base_point|apply multiple_order, Hk|exact Hs|exact Hh|apply small_uint256, invmod_ell_small|].
  apply invmod_ell, Nh.
Qed.

(** The same two public keys' forgeries, with no use of the keys 7 and 8. *)
Lemma signatures_forgeable_witness :
  MPEccVerify (E := ed25519 true) (MPEccPubkey 7) (forge true (MPEccPubkey 7) 100 3) 100 3 = true /\
  MPEccVerify (E := ed25519 true) (MPEccPubkey 8) (forge true (MPEccPubkey 8) 100 3) 100 3 = true.
Proof.
  split; apply (signatures_forgeable true (NB := own_sodium_ok) 3 100); solve [split; [discriminate|reflexivity] | discriminate].
Defined.
