(* ===== verification/TrieNode.v ===== *)
(** * Nodes of the Merkle Patricia trie: storage/triedb.h and triedb.cpp

    Every state of the node (accounts, votes, names, order books, ...) is kept in a
    trie whose nodes are stored under their hash.  This file models the nodes:
    [CKeyNibble], [CTrieBranch], [CTrieExtension], [CTrieValue], their streams and
    [CalcHash].  A [uint256] is an integer, bytes and nibbles are integers; the hash
    function is a parameter, as it calls a library.  [std::vector::operator[]] out of
    range is [Undef]. *)

From Stdlib Require Import ZArith List Lia Bool.
From S2P Require Import Prelude Radix Stream.
Import ListNotations.
Local Open Scope Z_scope.

(** ** CKeyNibble *)

(** The first half of a byte, then the second half unless the byte is the last one
    and [flag] is set. *)
Fixpoint Byte2Nibble (bt : list Z) (flag : Z) (nibble : list Z) : list Z :=
  match bt with
  | [] => nibble
  | d :: bt' =>
      let nibble := nibble ++ [Z.shiftr d 4] in
      let nibble :=
        if (match bt' with [] => false | _ => true end) || (flag =? 0)
        then nibble ++ [Z.land d 15] else nibble in
      Byte2Nibble bt' flag nibble
  end.

(** for (const uint8& d : nibble), with [x] and [n] the byte under construction. *)
Fixpoint nibble2byte_loop (nibble : list Z) (x n : Z) (bt : list Z) : Z * Z * list Z :=
  match nibble with
  | [] => (x, n, bt)
  | d :: nibble' =>
      let x := if n =? 0 then Z.lor x (Z.shiftl d 4) mod 256 else Z.lor x (Z.land d 15) in
      let n := n + 1 in
      if 2 <=? n then nibble2byte_loop nibble' 0 0 (bt ++ [x])
      else nibble2byte_loop nibble' x n bt
  end.

Definition Nibble2Byte (nibble bt : list Z) : Z * list Z :=
  let '(x, n, bt) := nibble2byte_loop nibble 0 0 bt in
  if n =? 0 then (0, bt) else (1, bt ++ [x]).

(** ** CTrieBranch *)

Record CTrieBranch := mk_branch {
  keyIndexNext : list Z;
  keyIndexValue : list Z;
  branchNext : list Z;
  branchValue : list Z
}.

Definition new_branch : CTrieBranch := mk_branch (repeat 0 16) (repeat 0 16) [] [].

(** The common body of [GetNextHash] and [GetValueHash]: the entry [n] of a table of
    16 one-based indices into the vector of hashes. *)
Definition get_hash (keyIndex branch : list Z) (n : Z) : result Z :=
  if 16 <=? n then Ok 0
  else match nth_error keyIndex (Z.to_nat n) with
  | None => Undef
  | Some x =>
      if x =? 0 then Ok 0
      else
        let x := x - 1 in
        if Z.of_nat (length branch) <=? x then Ok 0 else Ok (nth (Z.to_nat x) branch 0)
  end.

(** The common body of [SetNextHash] and [SetValueHash]; the index is a [uint8]. *)
Definition set_hash (keyIndex branch : list Z) (n hash : Z) : result (list Z * list Z) :=
  if 16 <=? n then Ok (keyIndex, branch)
  else match nth_error keyIndex (Z.to_nat n) with
  | None => Undef
  | Some x =>
      if (x =? 0) || (Z.of_nat (length branch) <=? x - 1) then
        if negb (hash =? 0) then
          let branch := branch ++ [hash] in
          Ok (upd keyIndex (Z.to_nat n) (Z.of_nat (length branch) mod 256), branch)
        else Ok (keyIndex, branch)
      else
        let branch := upd branch (Z.to_nat (x - 1)) hash in
        Ok (if hash =? 0 then upd keyIndex (Z.to_nat n) 0 else keyIndex, branch)
  end.

Definition BranchGetNextHash (b : CTrieBranch) (n : Z) : result Z := get_hash (keyIndexNext b) (branchNext b) n.
Definition BranchGetValueHash (b : CTrieBranch) (n : Z) : result Z := get_hash (keyIndexValue b) (branchValue b) n.

Definition BranchSetNextHash (b : CTrieBranch) (n hash : Z) : result CTrieBranch :=
  let! (ki, br) := set_hash (keyIndexNext b) (branchNext b) n hash in
  Ok (mk_branch ki (keyIndexValue b) br (branchValue b)).

Definition BranchSetValueHash (b : CTrieBranch) (n hash : Z) : result CTrieBranch :=
  let! (ki, br) := set_hash (keyIndexValue b) (branchValue b) n hash in
  Ok (mk_branch (keyIndexNext b) ki (branchNext b) br).

(** ** CTrieExtension *)

(** [flag]: low 4 bits 1 for an odd key; high 4 bits 1 when the value comes first in [link]. *)
Record CTrieExtension := mk_extension {
  flag : Z;
  key : list Z;
  link : list Z
}.

Definition new_extension : CTrieExtension := mk_extension 0 [] [].

Definition SetKey (e : CTrieExtension) (vKeyNibble : list Z) : CTrieExtension :=
  let '(nNibbleFlag, key) := Nibble2Byte vKeyNibble [] in
  mk_extension (Z.lor (Z.land (flag e) 240) nNibbleFlag) key (link e).

Definition GetKey (e : CTrieExtension) : list Z := Byte2Nibble (key e) (Z.land (flag e) 15) [].

Definition ExtSetNextHash (e : CTrieExtension) (hash : Z) : CTrieExtension :=
  if Z.shiftr (flag e) 4 =? 0 then
    match link e with
    | [] => mk_extension (flag e) (key e) [hash]
    | _ :: l => mk_extension (flag e) (key e) (hash :: l)
    end
  else
    match link e with
    | [] => mk_extension (Z.land (flag e) 15) (key e) [hash]
    | [x] => mk_extension (flag e) (key e) [x; hash]
    | x :: _ :: l => mk_extension (flag e) (key e) (x :: hash :: l)
    end.

Definition ExtSetValueHash (e : CTrieExtension) (hash : Z) : CTrieExtension :=
  if Z.shiftr (flag e) 4 =? 0 then
    match link e with
    | [] => mk_extension (Z.lor (Z.land (flag e) 15) 16) (key e) [hash]
    | [x] => mk_extension (flag e) (key e) [x; hash]
    | x :: _ :: l => mk_extension (flag e) (key e) (x :: hash :: l)
    end
  else
    match link e with
    | [] => mk_extension (flag e) (key e) [hash]
    | _ :: l => mk_extension (flag e) (key e) (hash :: l)
    end.

Definition ExtGetNextHash (e : CTrieExtension) : Z :=
  if Z.shiftr (flag e) 4 =? 0 then
    match link e with [] => 0 | x :: _ => x end
  else match link e with _ :: x :: _ => x | _ => 0 end.

Definition ExtGetValueHash (e : CTrieExtension) : Z :=
  if Z.shiftr (flag e) 4 =? 0 then
    match link e with _ :: x :: _ => x | _ => 0 end
  else match link e with [] => 0 | x :: _ => x end.

(** ** CTrieValue *)

(** The field [type] selects the member in use; the other members are never read. *)
Inductive CTrieValue :=
| TYPE_BRANCH (vaBranch : CTrieBranch)
| TYPE_EXTENSION (vaExtension : CTrieExtension)
| TYPE_VALUE (vaValue : list Z).

(** [base_uint::Serialize]: 32 bytes, the most significant one first. *)
Definition uint256 : codec Z :=
  mk_codec (fun h => rev (rdig 256 32 h))
    (fun s => let? (us, s) := stream_read 32 s in Some (rval 256 (rev us), s))
    (fun _ => 32) (fun h => 0 <= h < 2 ^ 256).

(** A class whose [Serialize] writes its members one after the other. *)
Definition members {A C} (c : codec A) (to : A -> C) (from : C -> A) : codec C :=
  mk_codec (fun x => save c (from x)) (fun s => let? (a, s) := load c s in Some (to a, s))
    (fun x => ser_size c (from x)) (fun x => ok c (from x)).

Definition branch_codec : codec CTrieBranch :=
  members (pair_codec (vector_pod 1) (pair_codec (vector_pod 1) (pair_codec (vector uint256) (vector uint256))))
    (fun '(kn, (kv, (bn, bv))) => mk_branch kn kv bn bv)
    (fun b => (keyIndexNext b, (keyIndexValue b, (branchNext b, branchValue b)))).

Definition extension_codec : codec CTrieExtension :=
  members (pair_codec (pod 1) (pair_codec (vector_pod 1) (vector uint256)))
    (fun '(f, (k, l)) => mk_extension f k l) (fun e => (flag e, (key e, link e))).

Definition GetStream (v : CTrieValue) : list Z :=
  match v with
  | TYPE_BRANCH b => save (pod 1) 1 ++ save branch_codec b
  | TYPE_EXTENSION e => save (pod 1) 2 ++ save extension_codec e
  | TYPE_VALUE d => save (pod 1) 3 ++ save (vector_pod 1) d
  end.

(** [None]: the stream ends too early or holds another type, and the call returns false. *)
Definition SetStream (ssValue : list Z) : option CTrieValue :=
  let? (type, ssValue) := load (pod 1) ssValue in
  if type =? 1 then let? (b, _) := load branch_codec ssValue in Some (TYPE_BRANCH b)
  else if type =? 2 then let? (e, _) := load extension_codec ssValue in Some (TYPE_EXTENSION e)
  else if type =? 3 then let? (d, _) := load (vector_pod 1) ssValue in Some (TYPE_VALUE d)
  else None.

Section Hash.
Variable CryptoHash : list Z -> Z.

(** for (uint8 i = 0; i < 16; i++) if (...) { fHasValue = true; break; } *)
Fixpoint branch_has_value (n : nat) (i : Z) (b : CTrieBranch) : result bool :=
  match n with
  | O => Ok false
  | S n' =>
      let! next := BranchGetNextHash b i in
      if negb (next =? 0) then Ok true
      else
        let! value := BranchGetValueHash b i in
        if negb (value =? 0) then Ok true else branch_has_value n' (i + 1) b
  end.

Definition CalcHash (v : CTrieValue) : result Z :=
  let! fHasValue :=
    match v with
    | TYPE_BRANCH b => branch_has_value 16 0 b
    | TYPE_EXTENSION e => Ok (negb (ExtGetNextHash e =? 0) || negb (ExtGetValueHash e =? 0))
    | TYPE_VALUE d => Ok (match d with [] => false | _ => true end)
    end in
  Ok (if fHasValue then CryptoHash (GetStream v) else 0).

End Hash.
