(* ===== verification/TrieNodeOk.v ===== *)
(** * The nodes of the trie behave as tables

    A branch is a table of 16 value hashes and 16 hashes of lower nodes, as long as
    its vectors of hashes stay below 256 entries; an extension is a key, a value hash
    and the hash of a lower node.  Keys and nodes survive their encodings. *)

From Stdlib Require Import ZArith List Lia Bool.
From S2P Require Import Prelude Radix Stream TrieNode.
Import ListNotations.
Local Open Scope Z_scope.

(** ** Nibbles *)

Definition nibble (d : Z) : Prop := 0 <= d < 16.
Definition nibbles (l : list Z) : Prop := Forall nibble l.

Lemma byte2nibble_app bt f : forall nb, Byte2Nibble bt f nb = nb ++ Byte2Nibble bt f [].
Proof.
  induction bt as [|d bt IH]; intros nb; cbn [Byte2Nibble]; [now rewrite app_nil_r|].
  destruct (_ || _); rewrite IH; [rewrite (IH (([] ++ _) ++ _))|rewrite (IH ([] ++ _))]; cbn [app];
    now rewrite <- ?app_assoc.
Qed.

Lemma byte2nibble_cons d bt f : bt <> [] \/ f = 0 ->
  Byte2Nibble (d :: bt) f [] = Z.shiftr d 4 :: Z.land d 15 :: Byte2Nibble bt f [].
Proof.
  intros H. cbn [Byte2Nibble]. rewrite byte2nibble_app.
  replace (_ || _) with true; [reflexivity|]. destruct H as [H| ->].
  - destruct bt; [contradiction|reflexivity].
  - now rewrite Z.eqb_refl, orb_true_r.
Qed.

Lemma n2b_app nb : forall x n bt, nibble2byte_loop nb x n bt =
  (let '(x, n, b) := nibble2byte_loop nb x n [] in (x, n, bt ++ b)).
Proof.
  induction nb as [|d nb IH]; intros x n bt; cbn [nibble2byte_loop]; [now rewrite app_nil_r|].
  destruct (2 <=? n + 1).
  - rewrite IH, (IH _ _ ([] ++ _)). destruct (nibble2byte_loop nb 0 0 []) as [[x' n'] b].
    cbn [app]. now rewrite <- app_assoc.
  - apply IH.
Qed.

Lemma nibble2byte_cons2 a b nb : nibble a -> nibble b -> Nibble2Byte (a :: b :: nb) [] =
  (fst (Nibble2Byte nb []), 16 * a + b :: snd (Nibble2Byte nb [])).
Proof.
  intros Ha Hb. unfold nibble in *. unfold Nibble2Byte. cbn [nibble2byte_loop].
  change (0 =? 0) with true. change (0 + 1 =? 0) with false. change (2 <=? 0 + 1) with false.
  change (2 <=? 0 + 1 + 1) with true. cbv iota. rewrite n2b_app, Z.lor_0_l.
  replace (Z.lor (Z.shiftl a 4 mod 256) (Z.land b 15)) with (16 * a + b).
  - destruct (nibble2byte_loop nb 0 0 []) as [[x n] l]. destruct (n =? 0); reflexivity.
  - rewrite Z.shiftl_mul_pow2 by lia. rewrite Z.mod_small by lia.
    change 15 with (Z.ones 4). rewrite Z.land_ones by lia. rewrite Z.mod_small by lia.
    rewrite <- Z.shiftl_mul_pow2 by lia. rewrite lor_shiftl_add by lia.
    change (2 ^ 4) with 16. lia.
Qed.

Lemma nibble2byte_one a : nibble a -> Nibble2Byte [a] [] = (1, [16 * a]).
Proof.
  intros Ha. unfold nibble in *. unfold Nibble2Byte. cbn [nibble2byte_loop].
  change (0 =? 0) with true. change (2 <=? 0 + 1) with false. change (0 + 1 =? 0) with false. cbv iota.
  rewrite Z.lor_0_l, Z.shiftl_mul_pow2 by lia. rewrite Z.mod_small by lia. change (2 ^ 4) with 16.
  cbn [app]. now rewrite Z.mul_comm.
Qed.

Lemma byte_halves a b : nibble a -> nibble b -> Z.shiftr (16 * a + b) 4 = a /\ Z.land (16 * a + b) 15 = b.
Proof.
  unfold nibble. intros Ha Hb. rewrite Z.shiftr_div_pow2 by lia. change 15 with (Z.ones 4).
  rewrite Z.land_ones by lia. change (2 ^ 4) with 16. split.
  - rewrite Z.mul_comm, Z.div_add_l by lia. rewrite (Z.div_small b) by lia. lia.
  - rewrite Z.add_comm, Z.mul_comm, Z.mod_add by lia. apply Z.mod_small. lia.
Qed.

(** Packing two nibbles to a byte loses nothing. *)
Lemma nibble_round_trip n : forall nb, (length nb <= n)%nat -> nibbles nb ->
  let '(f, bt) := Nibble2Byte nb [] in
  Byte2Nibble bt f [] = nb /\ (f = 0 \/ f = 1) /\ rdigs 256 bt /\ (length bt <= length nb)%nat /\ (nb <> [] -> bt <> []).
Proof.
  induction n as [n IH] using (well_founded_induction Wf_nat.lt_wf). intros nb Hn Hb.
  destruct nb as [|a [|b nb]].
  - cbn. repeat split; auto; constructor.
  - inversion Hb as [|? ? Ha _]; subst. rewrite (nibble2byte_one a Ha).
    cbn [Byte2Nibble app orb]. change (1 =? 0) with false. cbv iota.
    pose proof (byte_halves a 0 Ha ltac:(unfold nibble; lia)) as [E _]. rewrite Z.add_0_r in E. rewrite E.
    unfold nibble in Ha. split; [reflexivity|]. split; [now right|]. split; [repeat constructor; lia|].
    split; [apply le_n|discriminate].
  - inversion Hb as [|? ? Ha Hb']; subst. inversion Hb' as [|? ? Hb1 Hnb]; subst.
    rewrite (nibble2byte_cons2 a b nb Ha Hb1). cbn [length] in Hn.
    specialize (IH (length nb) ltac:(lia) nb (le_n _) Hnb).
    destruct (Nibble2Byte nb []) as [f bt] eqn:E. cbn [fst snd].
    destruct IH as (IH & Hf & Hd & Hl & Hne). destruct (byte_halves a b Ha Hb1) as [E1 E2].
    assert (Hc : bt <> [] \/ f = 0).
    { destruct nb; [|left; apply Hne; discriminate]. cbn in E. injection E as <- <-. now right. }
    rewrite byte2nibble_cons, E1, E2, IH by exact Hc. unfold nibble in *. cbn [length].
    split; [reflexivity|]. split; [exact Hf|]. split; [constructor; [lia|exact Hd]|]. split; [lia|discriminate].
Qed.

Lemma byte2nibble_nibbles bt f : rdigs 256 bt -> nibbles (Byte2Nibble bt f []).
Proof.
  induction 1 as [|d bt Hd _ IH]; [constructor|]. cbn [Byte2Nibble]. rewrite byte2nibble_app.
  apply Forall_app. split; [|exact IH].
  assert (H1 : nibble (Z.shiftr d 4)).
  { unfold nibble. rewrite Z.shiftr_div_pow2 by lia. split; [apply Z.div_pos; lia|apply Z.div_lt_upper_bound; lia]. }
  assert (H2 : nibble (Z.land d 15)).
  { unfold nibble. change 15 with (Z.ones 4). rewrite Z.land_ones by lia. apply Z.mod_pos_bound. lia. }
  destruct (_ || _); cbn [app]; auto with datatypes. all: repeat constructor; apply H1 || apply H2.
Qed.

Lemma byte2nibble_inj b1 : forall b2, rdigs 256 b1 -> rdigs 256 b2 ->
  Byte2Nibble b1 0 [] = Byte2Nibble b2 0 [] -> b1 = b2.
Proof.
  induction b1 as [|x b1 IH]; intros [|y b2] H1 H2; [auto|rewrite byte2nibble_cons by auto; discriminate..|].
  rewrite !byte2nibble_cons by auto. intros [= E1 E2 E3]. inversion H1; inversion H2; subst.
  f_equal; [|now apply IH]. rewrite !Z.shiftr_div_pow2 in E1 by lia. change 15 with (Z.ones 4) in E2.
  rewrite !Z.land_ones in E2 by lia.
  rewrite (Z.div_mod x (2 ^ 4)), (Z.div_mod y (2 ^ 4)) by lia. congruence.
Qed.

(** ** The tables of a branch *)

(** One table: 16 indices that are distinct unless they are 0, into a vector that has
    at most [c] entries. *)
Record slots_ok (c : nat) (ki br : list Z) : Prop := {
  so_len : length ki = 16%nat;
  so_idx : forall i, (i < 16)%nat -> 0 <= nth i ki 0 <= Z.of_nat (length br);
  so_dis : forall i j, (i < 16)%nat -> (j < 16)%nat -> nth i ki 0 = nth j ki 0 -> nth i ki 0 <> 0 -> i = j;
  so_cap : (length br <= c)%nat;
  so_rng : Forall (fun h => 0 <= h < 2 ^ 256) br
}.

Definition slot (ki br : list Z) (n : Z) : Z :=
  let x := nth (Z.to_nat n) ki 0 in if x =? 0 then 0 else nth (Z.to_nat (x - 1)) br 0.

Lemma slot_range c ki br n : slots_ok c ki br -> 0 <= slot ki br n < 2 ^ 256.
Proof.
  intros H. unfold slot. destruct (_ =? 0); [lia|].
  destruct (Nat.lt_ge_cases (Z.to_nat (nth (Z.to_nat n) ki 0 - 1)) (length br)) as [Hl|Hl].
  - apply (proj1 (Forall_forall _ _) (so_rng _ _ _ H)), nth_In, Hl.
  - rewrite nth_overflow by exact Hl. lia.
Qed.

Lemma get_hash_ok c ki br n : slots_ok c ki br -> nibble n -> get_hash ki br n = Ok (slot ki br n).
Proof.
  intros H Hn. unfold nibble in Hn. unfold get_hash, slot.
  destruct (Z.leb_spec 16 n); [lia|]. pose proof (so_idx _ _ _ H (Z.to_nat n) ltac:(lia)) as Hi.
  rewrite (nth_error_nth' ki 0) by (rewrite (so_len _ _ _ H); lia).
  destruct (Z.eqb_spec (nth (Z.to_nat n) ki 0) 0); [reflexivity|].
  destruct (Z.leb_spec (Z.of_nat (length br)) (nth (Z.to_nat n) ki 0 - 1)); [lia|reflexivity].
Qed.

Lemma slots_new : slots_ok 0 (repeat 0 16) [].
Proof.
  assert (E : forall i, nth i (repeat 0 16) 0 = 0).
  { intros i. destruct (Nat.lt_ge_cases i 16); [apply nth_repeat_lt; assumption|].
    apply nth_overflow. rewrite repeat_length. assumption. }
  split; try reflexivity; [intros i _; rewrite E; cbn; lia|intros; exfalso; auto|constructor].
Qed.

Lemma slot_new n : slot (repeat 0 16) [] n = 0.
Proof.
  unfold slot. destruct (Nat.lt_ge_cases (Z.to_nat n) 16).
  - now rewrite nth_repeat_lt.
  - rewrite (nth_overflow (repeat 0 16)); [reflexivity|]. rewrite repeat_length. assumption.
Qed.

Lemma slots_mono c c' ki br : (c <= c')%nat -> slots_ok c ki br -> slots_ok c' ki br.
Proof. intros Hc [H1 H2 H3 H4 H5]. split; auto. lia. Qed.

(** Writing an entry: the table changes there and nowhere else. *)
Lemma set_hash_push c ki br n h : slots_ok c ki br -> (length br < 255)%nat -> nibble n -> 0 <= h < 2 ^ 256 ->
  nth (Z.to_nat n) ki 0 = 0 ->
  let ki' := upd ki (Z.to_nat n) (Z.of_nat (length (br ++ [h])) mod 256) in
  slots_ok (S c) ki' (br ++ [h]) /\
  forall m, nibble m -> slot ki' (br ++ [h]) m = if m =? n then h else slot ki br m.
Proof.
  intros H Hl Hn Hh Hx ki'. unfold nibble in Hn. destruct H as [H1 H2 H3 H4 H5].
  assert (Hlen : Z.of_nat (length (br ++ [h])) mod 256 = Z.of_nat (length br) + 1)
    by (rewrite length_app; cbn [length]; rewrite Z.mod_small; lia).
  assert (E : forall i, (i < 16)%nat -> nth i ki' 0 = if Nat.eqb i (Z.to_nat n) then Z.of_nat (length br) + 1 else nth i ki 0).
  { intros i Hi. unfold ki'. destruct (Nat.eqb_spec i (Z.to_nat n)) as [->|Hne].
    - rewrite nth_upd_eq by lia. exact Hlen.
    - now rewrite nth_upd_neq by auto. }
  split; [split|].
  - unfold ki'. now rewrite length_upd.
  - intros i Hi. rewrite E by exact Hi. rewrite length_app. cbn [length]. specialize (H2 i Hi).
    destruct (Nat.eqb_spec i (Z.to_nat n)); lia.
  - intros i j Hi Hj. rewrite !E by assumption. pose proof (H2 i Hi). pose proof (H2 j Hj).
    destruct (Nat.eqb_spec i (Z.to_nat n)) as [->|]; destruct (Nat.eqb_spec j (Z.to_nat n)) as [->|]; auto; lia.
  - rewrite length_app. cbn [length]. lia.
  - apply Forall_app. auto.
  - intros m Hm. unfold nibble in Hm. unfold slot at 1. cbv zeta. rewrite E by lia.
    destruct (Z.eqb_spec m n) as [->|Hne].
    + rewrite Nat.eqb_refl. destruct (Z.eqb_spec (Z.of_nat (length br) + 1) 0); [lia|].
      replace (Z.to_nat (Z.of_nat (length br) + 1 - 1)) with (length br) by lia.
      rewrite app_nth2, Nat.sub_diag by lia. reflexivity.
    + destruct (Nat.eqb_spec (Z.to_nat m) (Z.to_nat n)); [lia|]. unfold slot. cbv zeta.
      specialize (H2 (Z.to_nat m) ltac:(lia)).
      destruct (Z.eqb_spec (nth (Z.to_nat m) ki 0) 0); [reflexivity|]. rewrite app_nth1 by lia. reflexivity.
Qed.

Lemma set_hash_over c ki br n h : slots_ok c ki br -> nibble n -> 0 <= h < 2 ^ 256 ->
  nth (Z.to_nat n) ki 0 <> 0 ->
  let br' := upd br (Z.to_nat (nth (Z.to_nat n) ki 0 - 1)) h in
  let ki' := if h =? 0 then upd ki (Z.to_nat n) 0 else ki in
  slots_ok c ki' br' /\ forall m, nibble m -> slot ki' br' m = if m =? n then h else slot ki br m.
Proof.
  intros H Hn Hh Hx br' ki'. unfold nibble in Hn. destruct H as [H1 H2 H3 H4 H5].
  assert (E : forall i, (i < 16)%nat -> nth i ki' 0 = if (h =? 0) && Nat.eqb i (Z.to_nat n) then 0 else nth i ki 0).
  { intros i Hi. unfold ki'. destruct (h =? 0); [cbn [andb]|reflexivity].
    destruct (Nat.eqb_spec i (Z.to_nat n)) as [->|Hne]; [now rewrite nth_upd_eq by lia|now rewrite nth_upd_neq by auto]. }
  pose proof (H2 (Z.to_nat n) ltac:(lia)) as Hxn.
  split; [split|].
  - unfold ki'. destruct (h =? 0); now rewrite ?length_upd.
  - intros i Hi. rewrite E by exact Hi. unfold br'. rewrite length_upd. specialize (H2 i Hi).
    destruct (_ && _); lia.
  - intros i j Hi Hj. rewrite !E by assumption.
    destruct ((h =? 0) && Nat.eqb i (Z.to_nat n)) eqn:Ei; [easy|].
    destruct ((h =? 0) && Nat.eqb j (Z.to_nat n)) eqn:Ej; auto. lia.
  - unfold br'. rewrite length_upd. exact H4.
  - unfold br'. apply Forall_forall. intros y Hy. apply In_nth with (d := 0) in Hy. destruct Hy as (j & Hj & <-).
    rewrite length_upd in Hj. destruct (Nat.eq_dec (Z.to_nat (nth (Z.to_nat n) ki 0 - 1)) j) as [->|Hne].
    + now rewrite nth_upd_eq by exact Hj.
    + rewrite nth_upd_neq by exact Hne. apply (proj1 (Forall_forall _ _) H5), nth_In, Hj.
  - intros m Hm. unfold nibble in Hm. unfold slot at 1. cbv zeta. rewrite E by lia.
    pose proof (H2 (Z.to_nat m) ltac:(lia)) as Hxm.
    destruct (Z.eqb_spec m n) as [->|Hne].
    + rewrite Nat.eqb_refl, andb_true_r. destruct (Z.eqb_spec h 0) as [->|]; [reflexivity|].
      destruct (Z.eqb_spec (nth (Z.to_nat n) ki 0) 0); [easy|]. unfold br'. apply nth_upd_eq. lia.
    + destruct (Nat.eqb_spec (Z.to_nat m) (Z.to_nat n)); [lia|]. rewrite andb_false_r. unfold slot. cbv zeta.
      destruct (Z.eqb_spec (nth (Z.to_nat m) ki 0) 0) as [|Hm0]; [reflexivity|]. unfold br'. apply nth_upd_neq.
      intros E1. assert (Z.to_nat n = Z.to_nat m) by (apply H3; auto; lia). lia.
Qed.

Lemma set_hash_ok c ki br n h : slots_ok c ki br -> (c < 255)%nat -> nibble n -> 0 <= h < 2 ^ 256 ->
  exists ki' br', set_hash ki br n h = Ok (ki', br') /\ slots_ok (S c) ki' br' /\
  forall m, nibble m -> slot ki' br' m = if m =? n then h else slot ki br m.
Proof.
  intros H Hl Hn Hh. pose proof (so_cap _ _ _ H) as Hc. pose proof Hn as [Hn0 Hn1].
  pose proof (so_idx _ _ _ H (Z.to_nat n) ltac:(lia)) as Hi.
  unfold set_hash. destruct (Z.leb_spec 16 n); [lia|].
  rewrite (nth_error_nth' ki 0) by (rewrite (so_len _ _ _ H); lia).
  destruct (Z.eqb_spec (nth (Z.to_nat n) ki 0) 0) as [Hx|Hx]; cbn [orb].
  - destruct (Z.eqb_spec h 0) as [->|Hh0]; cbn [negb].
    + exists ki, br. split; [reflexivity|]. split; [eapply slots_mono; [|exact H]; lia|].
      intros m Hm. destruct (Z.eqb_spec m n) as [->|]; [|reflexivity]. unfold slot. cbv zeta. now rewrite Hx.
    + eexists _, _. split; [reflexivity|]. apply set_hash_push; auto. lia.
  - destruct (Z.leb_spec (Z.of_nat (length br)) (nth (Z.to_nat n) ki 0 - 1)); [lia|].
    eexists _, _. split; [reflexivity|]. destruct (set_hash_over c ki br n h) as [H6 H7]; auto.
    split; [|exact H7]. eapply slots_mono; [|exact H6]. lia.
Qed.

Definition next_of (b : CTrieBranch) (n : Z) : Z := slot (keyIndexNext b) (branchNext b) n.
Definition value_of (b : CTrieBranch) (n : Z) : Z := slot (keyIndexValue b) (branchValue b) n.

Definition branch_ok (c : nat) (b : CTrieBranch) : Prop :=
  slots_ok c (keyIndexNext b) (branchNext b) /\ slots_ok c (keyIndexValue b) (branchValue b).

Lemma branch_next c b n : branch_ok c b -> nibble n -> BranchGetNextHash b n = Ok (next_of b n).
Proof. intros [H _]. apply (get_hash_ok c), H. Qed.

Lemma branch_value c b n : branch_ok c b -> nibble n -> BranchGetValueHash b n = Ok (value_of b n).
Proof. intros [_ H]. apply (get_hash_ok c), H. Qed.

Lemma branch_new : branch_ok 0 new_branch.
Proof. split; apply slots_new. Qed.

Lemma branch_mono c c' b : (c <= c')%nat -> branch_ok c b -> branch_ok c' b.
Proof. intros Hc [H1 H2]. split; eapply slots_mono; eauto. Qed.

Lemma next_new n : next_of new_branch n = 0.
Proof. apply slot_new. Qed.

Lemma value_new n : value_of new_branch n = 0.
Proof. apply slot_new. Qed.

Lemma branch_set_next c b n h : branch_ok c b -> (c < 255)%nat -> nibble n -> 0 <= h < 2 ^ 256 ->
  exists b', BranchSetNextHash b n h = Ok b' /\ branch_ok (S c) b' /\
  (forall m, nibble m -> next_of b' m = if m =? n then h else next_of b m) /\
  (forall m, value_of b' m = value_of b m).
Proof.
  intros [H1 H2] Hc Hn Hh. destruct (set_hash_ok c _ _ n h H1 Hc Hn Hh) as (ki & br & E & H3 & H4).
  unfold BranchSetNextHash. rewrite E. eexists. split; [reflexivity|].
  split; [split; [apply H3|eapply slots_mono; [|exact H2]; lia]|]. split; [exact H4|reflexivity].
Qed.

Lemma branch_set_value c b n h : branch_ok c b -> (c < 255)%nat -> nibble n -> 0 <= h < 2 ^ 256 ->
  exists b', BranchSetValueHash b n h = Ok b' /\ branch_ok (S c) b' /\
  (forall m, nibble m -> value_of b' m = if m =? n then h else value_of b m) /\
  (forall m, next_of b' m = next_of b m).
Proof.
  intros [H1 H2] Hc Hn Hh. destruct (set_hash_ok c _ _ n h H2 Hc Hn Hh) as (ki & br & E & H3 & H4).
  unfold BranchSetValueHash. rewrite E. eexists. split; [reflexivity|].
  split; [split; [eapply slots_mono; [|exact H1]; lia|apply H3]|]. split; [exact H4|reflexivity].
Qed.

(** ** Extensions *)

Lemma flag_low f : Z.land (Z.land f 15) 15 = Z.land f 15.
Proof. rewrite <- Z.land_assoc. reflexivity. Qed.

Lemma flag_low_hi f : Z.land (Z.lor (Z.land f 15) 16) 15 = Z.land f 15.
Proof. rewrite Z.land_lor_distr_l, flag_low. change (Z.land 16 15) with 0. apply Z.lor_0_r. Qed.

Lemma flag_hi_low f : Z.shiftr (Z.land f 15) 4 = 0.
Proof. rewrite Z.shiftr_land. change (Z.shiftr 15 4) with 0. apply Z.land_0_r. Qed.

Lemma flag_hi f : Z.shiftr (Z.lor (Z.land f 15) 16) 4 = 1.
Proof. rewrite Z.shiftr_lor, flag_hi_low. reflexivity. Qed.

Ltac ext_cases e :=
  let f := fresh "f" in let k := fresh "k" in let l := fresh "l" in
  destruct e as [f k l];
  unfold ExtSetNextHash, ExtSetValueHash, ExtGetNextHash, ExtGetValueHash, GetKey; cbn [flag key link];
  let E := fresh "E" in destruct (Z.shiftr f 4 =? 0) eqn:E;
  destruct l as [|? [|? ?]]; cbn [flag key link]; rewrite ?flag_hi_low, ?flag_hi, ?flag_low, ?flag_low_hi, ?E;
  try reflexivity.

Lemma ext_next_next e h : ExtGetNextHash (ExtSetNextHash e h) = h.
Proof. ext_cases e. Qed.
Lemma ext_value_next e h : ExtGetValueHash (ExtSetNextHash e h) = ExtGetValueHash e.
Proof. ext_cases e. Qed.
Lemma ext_value_value e h : ExtGetValueHash (ExtSetValueHash e h) = h.
Proof. ext_cases e. Qed.
Lemma ext_next_value e h : ExtGetNextHash (ExtSetValueHash e h) = ExtGetNextHash e.
Proof. ext_cases e. Qed.
Lemma ext_key_next e h : GetKey (ExtSetNextHash e h) = GetKey e.
Proof. ext_cases e. Qed.
Lemma ext_key_value e h : GetKey (ExtSetValueHash e h) = GetKey e.
Proof. ext_cases e. Qed.

Create Rewrite HintDb trie.
#[export] Hint Rewrite ext_next_next ext_value_next ext_value_value ext_next_value ext_key_next ext_key_value : trie.

(** ** Streams of nodes *)

#[export] Instance uint256_lawful : Lawful uint256.
Proof.
  assert (L : forall h, length (rev (rdig 256 32 h)) = 32%nat) by (intros; now rewrite length_rev, length_rdig).
  split; cbn [ok uint256 load save ser_size].
  - intros h rest Hh. rewrite (stream_read_n 32) by apply L.
    rewrite rev_involutive, rval_rdig, Z.mod_small by lia. reflexivity.
  - intros h _. now rewrite L.
  - intros h _. apply rdigs_rev, rdigs_rdig. lia.
  - intros s a r t H. read_more stream_read_more. now injection H as <- <-.
Qed.

Lemma members_lawful {A C} (c : codec A) (to : A -> C) (from : C -> A) :
  Lawful c -> (forall x, to (from x) = x) -> Lawful (members c to from).
Proof.
  intros Lc Hto. split; cbn [ok members load save ser_size].
  - intros x rest Hx. now rewrite (load_save (c := c)), Hto.
  - intros x Hx. now apply (size_save (c := c)).
  - intros x Hx. now apply (save_bytes (c := c)).
  - intros s a r t H. read_more (load_more (c := c)). now injection H as <- <-.
Qed.

#[export] Instance branch_lawful : Lawful branch_codec.
Proof. apply members_lawful; [exact _|now intros []]. Qed.

#[export] Instance extension_lawful : Lawful extension_codec.
Proof. apply members_lawful; [exact _|now intros []]. Qed.

(** The keys an extension can hold. *)
Definition key_ok (k : list Z) : Prop := nibbles k /\ Z.of_nat (length k) <= PTRDIFF_MAX.

(** What the nodes of a trie satisfy; [c] bounds the vectors of hashes of the branches. *)
Definition ext_ok (e : CTrieExtension) : Prop :=
  GetKey e <> [] /\ key_ok (GetKey e) /\ ok extension_codec e.

Definition data_ok (d : list Z) : Prop := ok (vector_pod 1) d.

Definition node_ok (c : nat) (v : CTrieValue) : Prop :=
  match v with
  | TYPE_BRANCH b => branch_ok c b
  | TYPE_EXTENSION e => ext_ok e
  | TYPE_VALUE d => data_ok d
  end.

Lemma slots_codec c ki br : slots_ok c ki br -> (c < 256)%nat -> ok (vector_pod 1) ki /\ ok (vector uint256) br.
Proof.
  intros H Hc. pose proof (so_cap _ _ _ H). pose proof (so_len _ _ _ H) as Hl. cbn [ok vector_pod vector uint256].
  unfold PTRDIFF_MAX, U64. rewrite Hl. split; split; try lia.
  - apply Forall_forall. intros x Hx. apply In_nth with (d := 0) in Hx. destruct Hx as (i & Hi & <-).
    pose proof (so_idx _ _ _ H i ltac:(lia)). change (256 ^ Z.of_nat 1) with 256. lia.
  - exact (so_rng _ _ _ H).
Qed.

Lemma branch_codec_ok c b : branch_ok c b -> (c < 256)%nat -> ok branch_codec b.
Proof.
  intros [H1 H2] Hc. destruct (slots_codec c _ _ H1 Hc), (slots_codec c _ _ H2 Hc).
  cbn [branch_codec members ok pair_codec fst snd]. auto.
Qed.

(** Reading a node back from its stream. *)
Lemma node_round_trip c v : node_ok c v -> (c < 256)%nat -> SetStream (GetStream v) = Some v.
Proof.
  assert (L : forall t s, 0 <= t < 256 -> load (pod 1) (save (pod 1) t ++ s) = Some (t, s))
    by (intros; apply (load_save (c := pod 1)); cbn; lia).
  intros H Hc. unfold SetStream, GetStream. destruct v as [b|e|d]; rewrite L by lia; cbn [Z.eqb Pos.eqb].
  - rewrite <- (app_nil_r (save branch_codec b)), (load_save (c := branch_codec)); [reflexivity|].
    now apply (branch_codec_ok c).
  - rewrite <- (app_nil_r (save extension_codec e)), (load_save (c := extension_codec)); [reflexivity|apply H].
  - rewrite <- (app_nil_r (save (vector_pod 1) d)), (load_save (c := vector_pod 1)); [reflexivity|apply H].
Qed.

(** ** Keeping the invariant of extensions *)

Lemma ext_codec_ok e : ok extension_codec e <->
  0 <= flag e < 256 /\ ok (vector_pod 1) (key e) /\ ok (vector uint256) (link e).
Proof. cbn [extension_codec members ok pair_codec fst snd pod]. change (256 ^ Z.of_nat 1) with 256. tauto. Qed.

Lemma flag_byte f : 0 <= f < 256 -> 0 <= Z.land f 15 < 256 /\ 0 <= Z.lor (Z.land f 15) 16 < 256.
Proof.
  intros Hf. change 15 with (Z.ones 4). rewrite Z.land_ones by lia. change (2 ^ 4) with 16.
  pose proof (Z.mod_pos_bound f 16 ltac:(lia)) as Hm. rewrite Z.lor_comm.
  pose proof (lor_shiftl_add 1 (f mod 16) 4 ltac:(lia) Hm) as E.
  change (Z.shiftl 1 4) with 16 in E. rewrite E. change (2 ^ 4) with 16. lia.
Qed.

Lemma ext_set_next_ok e h : ext_ok e -> 0 <= h < 2 ^ 256 -> ext_ok (ExtSetNextHash e h).
Proof.
  intros (H1 & H2 & H3) Hh. unfold ext_ok. rewrite ext_key_next. split; [exact H1|]. split; [exact H2|].
  destruct (proj1 (ext_codec_ok e) H3) as (Hf & Hk & Hl & Hn). apply ext_codec_ok.
  destruct (flag_byte _ Hf) as [F1 F2]. unfold ExtSetNextHash.
  destruct (Z.shiftr (flag e) 4 =? 0), (link e) as [|x [|y l]]; cbn [flag key link];
    (split; [assumption|split; [assumption|split]]);
    (repeat match goal with H : Forall _ (_ :: _) |- _ => inversion_clear H end);
    (repeat (apply Forall_cons; [assumption|]); assumption || apply Forall_nil) || (cbn [length] in *; unfold U64 in *; lia).
Qed.

Lemma ext_set_value_ok e h : ext_ok e -> 0 <= h < 2 ^ 256 -> ext_ok (ExtSetValueHash e h).
Proof.
  intros (H1 & H2 & H3) Hh. unfold ext_ok. rewrite ext_key_value. split; [exact H1|]. split; [exact H2|].
  destruct (proj1 (ext_codec_ok e) H3) as (Hf & Hk & Hl & Hn). apply ext_codec_ok.
  destruct (flag_byte _ Hf) as [F1 F2]. unfold ExtSetValueHash.
  destruct (Z.shiftr (flag e) 4 =? 0), (link e) as [|x [|y l]]; cbn [flag key link];
    (split; [assumption|split; [assumption|split]]);
    (repeat match goal with H : Forall _ (_ :: _) |- _ => inversion_clear H end);
    (repeat (apply Forall_cons; [assumption|]); assumption || apply Forall_nil) || (cbn [length] in *; unfold U64 in *; lia).
Qed.

Lemma ext_link_range e : ext_ok e -> 0 <= ExtGetNextHash e < 2 ^ 256 /\ 0 <= ExtGetValueHash e < 2 ^ 256.
Proof.
  intros (_ & _ & H3). destruct (proj1 (ext_codec_ok e) H3) as (_ & _ & Hl & _).
  unfold ExtGetNextHash, ExtGetValueHash. cbn [ok uint256] in Hl.
  destruct (Z.shiftr (flag e) 4 =? 0), (link e) as [|x [|y l]];
    repeat match goal with H : Forall _ (_ :: _) |- _ => inversion_clear H end; split; auto; lia.
Qed.

Lemma key_ok_skip n k : key_ok k -> key_ok (skipn n k).
Proof.
  intros [H1 H2]. split; [|rewrite length_skipn; lia].
  rewrite <- (firstn_skipn n k) in H1. apply Forall_app in H1. apply H1.
Qed.

Lemma key_ok_first n k : key_ok k -> key_ok (firstn n k).
Proof.
  intros [H1 H2]. split; [|rewrite length_firstn; lia].
  rewrite <- (firstn_skipn n k) in H1. apply Forall_app in H1. apply H1.
Qed.

Lemma set_key_ok k : key_ok k -> k <> [] ->
  let e := SetKey new_extension k in ext_ok e /\ GetKey e = k /\ ExtGetNextHash e = 0 /\ ExtGetValueHash e = 0.
Proof.
  intros HK Hk. pose proof HK as [H1 H2]. pose proof (nibble_round_trip (length k) k (le_n _) H1) as R.
  unfold SetKey. cbn [flag new_extension link].
  destruct (Nibble2Byte k []) as [f bt]. destruct R as (R & Hf & Hd & Hl & Hb). cbv zeta.
  change (Z.land 0 240) with 0. rewrite Z.lor_0_l.
  assert (Hg : GetKey (mk_extension f bt []) = k).
  { unfold GetKey. cbn [flag key]. destruct Hf as [-> | ->]; exact R. }
  split; [|split; [exact Hg|]].
  - unfold ext_ok. rewrite Hg. split; [exact Hk|]. split; [exact HK|]. apply ext_codec_ok. cbn [flag key link].
    split; [destruct Hf; lia|]. split; [|split; [constructor|cbn; unfold U64; lia]].
    split; [exact Hd|lia].
  - unfold ExtGetNextHash, ExtGetValueHash. cbn [flag link]. destruct (Z.shiftr f 4 =? 0); auto.
Qed.

Lemma ext_key_ok e : ext_ok e -> key_ok (GetKey e) /\ GetKey e <> [].
Proof. intros (H1 & H2 & _). auto. Qed.
