(* ===== verification/Trie.v ===== *)
(** * The trie database: storage/triedb.cpp, hnbase/db/kvdb.h

    [CTrieDB] keeps many versions of a map from keys to values.  A version is named
    by the hash of its root; an update starts from a root, rewrites the nodes on the
    path of each key into [mapCacheNode] and returns the hash of the new root; the
    nodes of the cache are then written to the key-value store under their hash.  The
    store behind [CKVDB] is an interface, [CKVDBEngine], here a class; the hash
    function is a parameter.  [None] stands for [return false]. *)

From Stdlib Require Import ZArith List Lia Bool.
From S2P Require Import Prelude Radix Stream OrdMap TrieNode.
Import ListNotations.
Local Open Scope Z_scope.

(** The virtual methods of [CKVDBEngine] the trie calls. *)
Class CKVDBEngine (E : Type) := {
  Get : E -> list Z -> option (list Z);
  Put : E -> list Z -> list Z -> bool * E;
  Remove : E -> list Z -> bool * E
}.

(** What the trie expects of an engine that has no input or output error; [engine_ok] is
    the invariant of the engine's own data. *)
Class ReliableEngine (E : Type) `{CKVDBEngine E} := {
  engine_ok : E -> Prop;
  put_ok : forall e k v, engine_ok e -> fst (Put e k v) = true /\ engine_ok (snd (Put e k v));
  get_put_eq : forall e k v, engine_ok e -> Get (snd (Put e k v)) k = Some v;
  get_put_ne : forall e k v k', engine_ok e -> k' <> k -> Get (snd (Put e k v)) k' = Get e k';
  remove_ok : forall e k, engine_ok e -> fst (Remove e k) = true /\ engine_ok (snd (Remove e k));
  get_remove_eq : forall e k, engine_ok e -> Get (snd (Remove e k)) k = None;
  get_remove_ne : forall e k k', engine_ok e -> k' <> k -> Get (snd (Remove e k)) k' = Get e k'
}.

Definition TDB_KEY_TYPE_TRIE_KEY : Z := 16.
Definition TDB_KEY_TYPE_EXT_KEY : Z := 32.

(** ** Nodes in the store *)

Section Store.
Context {E : Type} `{CKVDBEngine E}.

(** ssKey << TDB_KEY_TYPE_TRIE_KEY << hash *)
Definition trie_key (hash : Z) : list Z := save (pod 1) TDB_KEY_TYPE_TRIE_KEY ++ save uint256 hash.

(** ssNewKey << TDB_KEY_TYPE_EXT_KEY; ssNewKey.Write(ssKey) *)
Definition ext_key (ssKey : list Z) : list Z := save (pod 1) TDB_KEY_TYPE_EXT_KEY ++ ssKey.

Definition SetDbNodeValue (db : E) (hash : Z) (value : CTrieValue) : bool * E :=
  Put db (trie_key hash) (GetStream value).

Definition GetDbNodeValue (db : E) (hash : Z) : option CTrieValue :=
  match Get db (trie_key hash) with
  | Some ssValue => SetStream ssValue
  | None => None
  end.

Definition RemoveDbNodeValue (db : E) (hash : Z) : bool * E := Remove db (trie_key hash).

Definition WriteExtKv (db : E) (ssKey ssValue : list Z) : bool * E := Put db (ext_key ssKey) ssValue.
Definition ReadExtKv (db : E) (ssKey : list Z) : option (list Z) := Get db (ext_key ssKey).
Definition RemoveExtKv (db : E) (ssKey : list Z) : bool * E := Remove db (ext_key ssKey).

Definition cache_t : Type := list (Z * CTrieValue).

(** The node and whether it comes from the cache. *)
Definition GetNodeValue (db : E) (hash : Z) (mapCacheNode : cache_t) : option (CTrieValue * bool) :=
  if hash =? 0 then None
  else match om_find Z.ltb hash mapCacheNode with
  | Some value => Some (value, true)
  | None => match GetDbNodeValue db hash with Some value => Some (value, false) | None => None end
  end.

End Store.

(** ** The path of a key *)

Inductive kv_type := KV_TYPE_SHARE | KV_TYPE_OLD | KV_TYPE_NEW.

Record CTrieKeyValue := mk_kv {
  nKvType : kv_type;
  keyOld : list Z;
  keyNew : list Z;
  value : CTrieValue;
  hashValue : Z
}.

Definition set_value (kv : CTrieKeyValue) (v : CTrieValue) : CTrieKeyValue :=
  mk_kv (nKvType kv) (keyOld kv) (keyNew kv) v (hashValue kv).
Definition set_hashValue (kv : CTrieKeyValue) (h : Z) : CTrieKeyValue :=
  mk_kv (nKvType kv) (keyOld kv) (keyNew kv) (value kv) h.

(** The blocks that append the node of the rest of the new key: a branch for one
    nibble, an extension for more. *)
Definition new_tail (syKey : list Z) : list CTrieKeyValue :=
  match syKey with
  | [] => []
  | [n] => [mk_kv KV_TYPE_NEW [] [n] (TYPE_BRANCH new_branch) 0]
  | _ => [mk_kv KV_TYPE_NEW [] syKey (TYPE_EXTENSION (SetKey new_extension syKey)) 0]
  end.

(** vaBranch.SetNextHash(n, e.GetNextHash()); vaBranch.SetValueHash(n, e.GetValueHash()) *)
Definition copy_to_branch (b : CTrieBranch) (n : Z) (e : CTrieExtension) : result CTrieBranch :=
  let! b := BranchSetNextHash b n (ExtGetNextHash e) in
  BranchSetValueHash b n (ExtGetValueHash e).

Definition copy_to_extension (x e : CTrieExtension) : CTrieExtension :=
  ExtSetValueHash (ExtSetNextHash x (ExtGetNextHash e)) (ExtGetValueHash e).

(** The rest of the key of a split extension [e]: a branch for one nibble, an
    extension for more. *)
Definition old_tail (btNodeKey : list Z) (e : CTrieExtension) : result (list CTrieKeyValue) :=
  match btNodeKey with
  | [] => Ok []
  | [n] =>
      let! b := copy_to_branch new_branch n e in
      Ok [mk_kv KV_TYPE_OLD [n] [] (TYPE_BRANCH b) 0]
  | _ => Ok [mk_kv KV_TYPE_OLD btNodeKey [] (TYPE_EXTENSION (copy_to_extension (SetKey new_extension btNodeKey) e)) 0]
  end.

(** The branch where the key of a split extension and the new key part. *)
Definition fork_branch (btNodeKey syKey : list Z) (e : CTrieExtension) : result CTrieKeyValue :=
  match btNodeKey, syKey with
  | o :: btRest, n :: _ =>
      let! b := match btRest with [] => copy_to_branch new_branch o e | _ => Ok new_branch end in
      Ok (mk_kv KV_TYPE_SHARE [o] [n] (TYPE_BRANCH b) 0)
  | _, _ => Undef
  end.

(** for (i = 0; i < nMinLen; i++) { if (syKey[i] != btNodeKey[i]) break; nSameLen++; } *)
Fixpoint same_len (syKey btNodeKey : list Z) : nat :=
  match syKey, btNodeKey with
  | s :: syKey', b :: btNodeKey' => if s =? b then S (same_len syKey' btNodeKey') else O
  | _, _ => O
  end.

Fixpoint list_eqb (l1 l2 : list Z) : bool :=
  match l1, l2 with
  | [], [] => true
  | x :: l1', y :: l2' => (x =? y) && list_eqb l1' l2'
  | _, _ => false
  end.

(** What [GetBranchPath] and [GetExtensionPath] leave: the boolean they return, the
    rest of the key, the hash of the next node, the path. *)
Definition path_state : Type := bool * list Z * Z * list CTrieKeyValue.

Definition GetBranchPath (syKey : list Z) (hash : Z) (b : CTrieBranch) (path : list CTrieKeyValue) : result path_state :=
  match syKey with
  | [] => Undef
  | n :: syRest =>
      let path := path ++ [mk_kv KV_TYPE_SHARE [] [n] (TYPE_BRANCH b) 0] in
      match syRest with
      | [] => Ok (false, syRest, hash, path)
      | _ =>
          let! hash := BranchGetNextHash b n in
          if negb (hash =? 0) then Ok (true, syRest, hash, path)
          else Ok (false, syRest, hash, path ++ new_tail syRest)
      end
  end.

(** The part of [GetExtensionPath] after the key of the node turned out not to be a
    prefix of the key. *)
Definition split_extension (syKey btNodeKey : list Z) (e : CTrieExtension) : result (list CTrieKeyValue) :=
  let nSameLen := same_len syKey btNodeKey in
  let! (btNodeKey, syKey, nodes) :=
    match nSameLen with
    | O =>
        let! kvBranch := fork_branch btNodeKey syKey e in
        Ok (skipn 1 btNodeKey, skipn 1 syKey, [kvBranch])
    | _ =>
        let! top :=
          match nSameLen with
          | S O => fork_branch btNodeKey syKey e
          | _ =>
              let keyOld := firstn nSameLen btNodeKey in
              let x := SetKey new_extension keyOld in
              let x := if Nat.eqb (length btNodeKey) nSameLen then copy_to_extension x e else x in
              Ok (mk_kv KV_TYPE_SHARE keyOld (firstn nSameLen syKey) (TYPE_EXTENSION x) 0)
          end in
        let btNodeKey := skipn nSameLen btNodeKey in
        let syKey := skipn nSameLen syKey in
        match btNodeKey, syKey with
        | _ :: btRest, _ :: syRest =>
            let! kvBranch := fork_branch btNodeKey syKey e in
            Ok (btRest, syRest, [top; kvBranch])
        | _, _ => Ok (btNodeKey, syKey, [top])
        end
    end in
  let! old := old_tail btNodeKey e in
  Ok (nodes ++ old ++ new_tail syKey).

Definition GetExtensionPath (syKey : list Z) (hash : Z) (e : CTrieExtension) (path : list CTrieKeyValue) : result path_state :=
  let btNodeKey := GetKey e in
  if (Nat.leb (length btNodeKey) (length syKey)) && list_eqb btNodeKey (firstn (length btNodeKey) syKey) then
    let path := path ++ [mk_kv KV_TYPE_SHARE btNodeKey btNodeKey (TYPE_EXTENSION e) 0] in
    let hash := ExtGetNextHash e in
    let syKey := skipn (length btNodeKey) syKey in
    if hash =? 0 then Ok (false, syKey, hash, path ++ new_tail syKey)
    else Ok (true, syKey, hash, path)
  else
    let! nodes := split_extension syKey btNodeKey e in
    Ok (false, syKey, hash, path ++ nodes).

Section Update.
Variable CryptoHash : list Z -> Z.
Context {E : Type} `{CKVDBEngine E}.

(** while (!syKey.empty()); [None]: a node is missing or is a value. *)
Fixpoint get_node_path_loop (fuel : nat) (db : E) (hashRoot hash : Z) (syKey : list Z)
    (path : list CTrieKeyValue) (vRemove : list Z) (mapCacheNode : cache_t)
    : result (option (list CTrieKeyValue * list Z)) :=
  match syKey with
  | [] => Ok (Some (path, vRemove))
  | _ =>
    match fuel with
    | O => NoFuel
    | S fuel' =>
      match GetNodeValue db hash mapCacheNode with
      | None => if hash =? hashRoot then Ok (Some (path ++ new_tail syKey, vRemove)) else Ok None
      | Some (v, fCache) =>
          let remove := if fCache then vRemove ++ [hash] else vRemove in
          let next (r : path_state) :=
            let '(more, syKey, hash, path) := r in
            if more then get_node_path_loop fuel' db hashRoot hash syKey path remove mapCacheNode
            else Ok (Some (path, remove)) in
          match v with
          | TYPE_BRANCH b => let! r := GetBranchPath syKey hash b path in next r
          | TYPE_EXTENSION e => let! r := GetExtensionPath syKey hash e path in next r
          | TYPE_VALUE _ => Ok None
          end
      end
    end
  end.

Definition GetNodePath (db : E) (hashRoot : Z) (nbKeyNibble : list Z) (mapCacheNode : cache_t) :=
  get_node_path_loop (length nbKeyNibble) db hashRoot hashRoot nbKeyNibble [] [] mapCacheNode.

(** ** Rewriting the path *)

Definition CalcValueHash (kv : CTrieKeyValue) : result CTrieKeyValue :=
  let! h := CalcHash CryptoHash (value kv) in Ok (set_hashValue kv h).

Definition is_new (kv : CTrieKeyValue) : bool := match nKvType kv with KV_TYPE_NEW => true | _ => false end.
Definition is_old (kv : CTrieKeyValue) : bool := match nKvType kv with KV_TYPE_OLD => true | _ => false end.

(** One round of the first loop of [AddNode]: the nodes of the old trie, with
    [hashPrevOld] the hash of the node below.  [None]: return false. *)
Definition old_step (kv : CTrieKeyValue) (hashPrevOld : Z) : result (option (CTrieKeyValue * Z)) :=
  match value kv with
  | TYPE_BRANCH b =>
      if is_new kv then Ok (Some (kv, hashPrevOld))
      else
        let! b :=
          match keyOld kv with
          | n :: _ => if negb (hashPrevOld =? 0) then BranchSetNextHash b n hashPrevOld else Ok b
          | [] => Ok b
          end in
        let! kv := CalcValueHash (set_value kv (TYPE_BRANCH b)) in
        Ok (Some (kv, hashValue kv))
  | TYPE_EXTENSION e =>
      if is_new kv then Ok (Some (kv, hashPrevOld))
      else
        let e := if negb (hashPrevOld =? 0) then ExtSetNextHash e hashPrevOld else e in
        let! kv := CalcValueHash (set_value kv (TYPE_EXTENSION e)) in
        Ok (Some (kv, hashValue kv))
  | TYPE_VALUE _ => Ok None
  end.

(** for (int64 i = path.size() - 2; i >= 0; i--): from the end of the path. *)
Fixpoint old_pass (path : list CTrieKeyValue) : result (option (list CTrieKeyValue * Z)) :=
  match path with
  | [] => Ok (Some ([], 0))
  | kv :: path' =>
      let! r := old_pass path' in
      match r with
      | None => Ok None
      | Some (path', hashPrevOld) =>
          let! r := old_step kv hashPrevOld in
          match r with None => Ok None | Some (kv, hashPrevOld) => Ok (Some (kv :: path', hashPrevOld)) end
      end
  end.

(** How a round of the second loop ends: go on, leave [AddNode] with true because
    the value is already there, or leave it with false. *)
Inductive new_result (A : Type) :=
| Go (a : A)
| Same
| Bad.
Arguments Go {A} a.
Arguments Same {A}.
Arguments Bad {A}.

Definition new_step (kv : CTrieKeyValue) (hashPrev : Z) (fIsValue : bool)
    : result (new_result (CTrieKeyValue * Z * bool)) :=
  let finish kv fIsValue := let! kv := CalcValueHash kv in Ok (Go (kv, hashValue kv, fIsValue)) in
  match value kv with
  | TYPE_BRANCH b =>
      if is_old kv then Ok (Go (kv, hashPrev, fIsValue))
      else match keyNew kv with
      | [] => finish kv fIsValue
      | n :: _ =>
          if fIsValue then
            let! same := BranchGetValueHash b n in
            if negb (hashPrev =? 0) && (same =? hashPrev) then Ok Same
            else
              let! b := BranchSetValueHash b n hashPrev in
              finish (set_value kv (TYPE_BRANCH b)) false
          else
            let! b := BranchSetNextHash b n hashPrev in
            finish (set_value kv (TYPE_BRANCH b)) false
      end
  | TYPE_EXTENSION e =>
      if is_old kv then Ok (Go (kv, hashPrev, fIsValue))
      else if fIsValue then
        if negb (hashPrev =? 0) && (ExtGetValueHash e =? hashPrev) then Ok Same
        else finish (set_value kv (TYPE_EXTENSION (ExtSetValueHash e hashPrev))) false
      else finish (set_value kv (TYPE_EXTENSION (ExtSetNextHash e hashPrev))) false
  | TYPE_VALUE _ => Ok Bad
  end.

Fixpoint new_pass (path : list CTrieKeyValue) (hashPrev : Z) (fIsValue : bool)
    : result (new_result (list CTrieKeyValue * Z * bool)) :=
  match path with
  | [] => Ok (Go ([], hashPrev, fIsValue))
  | kv :: path' =>
      let! r := new_pass path' hashPrev fIsValue in
      match r with
      | Go (path', hashPrev, fIsValue) =>
          let! r := new_step kv hashPrev fIsValue in
          match r with
          | Go (kv, hashPrev, fIsValue) => Ok (Go (kv :: path', hashPrev, fIsValue))
          | Same => Ok Same
          | Bad => Ok Bad
          end
      | Same => Ok Same
      | Bad => Ok Bad
      end
  end.

(** for (i = 0; i < path.size(); i++) if (kv.hashValue != 0) mapCacheNode[kv.hashValue] = kv.value *)
Definition cache_path (path : list CTrieKeyValue) (mapCacheNode : cache_t) : cache_t :=
  fold_left (fun c kv => if negb (hashValue kv =? 0) then om_set Z.ltb (hashValue kv) (value kv) c else c)
    path mapCacheNode.

(** The rewritten path with the value at its end, the hash of the new root and the
    nodes to remove from the cache. *)
Definition new_path (db : E) (hashRoot : Z) (nbKeyNibble btValue : list Z) (mapCacheNode : cache_t)
    : result (new_result (list CTrieKeyValue * Z * list Z)) :=
  let! r := GetNodePath db hashRoot nbKeyNibble mapCacheNode in
  match r with
  | None => Ok Bad
  | Some (path, vRemove) =>
      let! kvValue := CalcValueHash (mk_kv KV_TYPE_NEW [] [] (TYPE_VALUE btValue) 0) in
      let! r := old_pass path in
      match r with
      | None => Ok Bad
      | Some (path, _) =>
          let! r := new_pass path (hashValue kvValue) true in
          match r with
          | Bad => Ok Bad
          | Same => Ok Same
          | Go (path, hashPrev, _) => Ok (Go (path ++ [kvValue], hashPrev, vRemove))
          end
      end
  end.

Definition AddNode (db : E) (hashRoot : Z) (nbKeyNibble btValue : list Z) (mapCacheNode : cache_t)
    : result (option (Z * cache_t)) :=
  let! r := new_path db hashRoot nbKeyNibble btValue mapCacheNode in
  match r with
  | Bad => Ok None
  | Same => Ok (Some (hashRoot, mapCacheNode))
  | Go (path, hashPrev, vRemove) =>
      let mapCacheNode := fold_left (fun c h => om_erase Z.ltb h c) vRemove mapCacheNode in
      Ok (Some (hashPrev, cache_path path mapCacheNode))
  end.

Fixpoint trie_add_nodes (db : E) (hashRoot : Z) (mapKvList : list (list Z * list Z)) (mapCacheNode : cache_t)
    : result (option (Z * cache_t)) :=
  match mapKvList with
  | [] => Ok (Some (hashRoot, mapCacheNode))
  | (k, v) :: mapKvList' =>
      let! r := AddNode db hashRoot (Byte2Nibble k 0 []) v mapCacheNode in
      match r with
      | None => Ok None
      | Some (hashRoot, mapCacheNode) => trie_add_nodes db hashRoot mapKvList' mapCacheNode
      end
  end.

Definition CreateTrieNodeList (db : E) (hashPrevRoot : Z) (mapKvList : list (list Z * list Z)) (mapCacheNode : cache_t)
    : result (option (Z * cache_t)) :=
  match mapKvList with
  | [] => Ok (Some (hashPrevRoot, mapCacheNode))
  | _ => trie_add_nodes db hashPrevRoot mapKvList mapCacheNode
  end.

Definition CreateCacheTrie := CreateTrieNodeList.

(** for (auto& kv : mapCacheNode) if (!SetDbNodeValue(...)) return false; *)
Fixpoint SaveCacheTrie (db : E) (mapCacheNode : cache_t) : bool * E :=
  match mapCacheNode with
  | [] => (true, db)
  | (hash, v) :: c =>
      let (ok, db) := SetDbNodeValue db hash v in
      if ok then SaveCacheTrie db c else (false, db)
  end.

(** The new root and the store; [None] in place of the root: return false. *)
Definition AddNewTrie (db : E) (hashPrevRoot : Z) (mapKvList : list (list Z * list Z)) : result (option Z * E) :=
  let! r := CreateTrieNodeList db hashPrevRoot mapKvList [] in
  match r with
  | None => Ok (None, db)
  | Some (hashNewRoot, mapCacheNode) =>
      let (ok, db) := SaveCacheTrie db mapCacheNode in
      Ok (if ok then Some hashNewRoot else None, db)
  end.

(** ** Reading a key *)

(** while (!syKey.empty()); [inl hash]: the hash of the value, [inr tt]: return false. *)
Fixpoint get_key_value_loop (fuel : nat) (db : E) (hash : Z) (syKey : list Z) : result (Z + unit) :=
  match syKey with
  | [] => Ok (inl hash)
  | n :: syRest =>
    match fuel with
    | O => NoFuel
    | S fuel' =>
      match GetDbNodeValue db hash with
      | None => Ok (inr tt)
      | Some (TYPE_BRANCH b) =>
          let! hash := match syRest with [] => BranchGetValueHash b n | _ => BranchGetNextHash b n end in
          if hash =? 0 then Ok (inr tt) else get_key_value_loop fuel' db hash syRest
      | Some (TYPE_EXTENSION e) =>
          let nbNodeKey := GetKey e in
          if Nat.leb (length nbNodeKey) (length syKey) && list_eqb nbNodeKey (firstn (length nbNodeKey) syKey) then
            let hash :=
              if Nat.eqb (length syKey) (length nbNodeKey) then ExtGetValueHash e else ExtGetNextHash e in
            if hash =? 0 then Ok (inr tt)
            else get_key_value_loop fuel' db hash (skipn (length nbNodeKey) syKey)
          else Ok (inr tt)
      | Some (TYPE_VALUE _) => Ok (inr tt)
      end
    end
  end.

Definition GetKeyValue (db : E) (hashRoot : Z) (nbKey : list Z) : result (option (list Z)) :=
  if hashRoot =? 0 then Ok None
  else
    let! r := get_key_value_loop (length nbKey) db hashRoot nbKey in
    match r with
    | inr _ => Ok None
    | inl hash =>
        match GetDbNodeValue db hash with
        | Some (TYPE_VALUE vaValue) => Ok (Some vaValue)
        | _ => Ok None
        end
    end.

Definition Retrieve (db : E) (hashRoot : Z) (btKey : list Z) : result (option (list Z)) :=
  GetKeyValue db hashRoot (Byte2Nibble btKey 0 []).

Definition VerifyTrieRootNode (db : E) (hashRoot : Z) : bool :=
  if hashRoot =? 0 then true
  else match GetDbNodeValue db hashRoot with Some _ => true | None => false end.

End Update.

Arguments Go {A} a.
Arguments Same {A}.
Arguments Bad {A}.
