(* ===== verification/TrieRep.v ===== *)
(** * What a root hash stands for

    [rep f c h m]: in the store [f] the hash [h] is the root of a trie that holds the
    map [m] from nibble strings to values, whose branches have at most [c] entries per
    table.  The predicate follows the nodes; a hash 0 is the empty map.  It determines
    [m], a root other than 0 holds at least one value, and it depends only on the nodes
    that can be reached from [h]. *)

From Stdlib Require Import ZArith List Lia Bool.
From S2P Require Import Prelude Radix Stream TrieNode TrieNodeOk Trie.
Import ListNotations.
Local Open Scope Z_scope.

(** ** Maps *)

Definition kmap : Type := list Z -> option (list Z).

(** The rest of [k] after the prefix [p]. *)
Fixpoint strip (p k : list Z) : option (list Z) :=
  match p, k with
  | [], _ => Some k
  | x :: p', y :: k' => if x =? y then strip p' k' else None
  | _ :: _, [] => None
  end.

Lemma strip_some p : forall k r, strip p k = Some r <-> k = p ++ r.
Proof.
  induction p as [|x p IH]; intros k r; cbn [strip app]; [split; congruence|].
  destruct k as [|y k]; [split; discriminate|]. destruct (Z.eqb_spec x y) as [->|Hne].
  - rewrite IH. split; congruence.
  - split; [discriminate|]. intros [= E _]. now contradiction Hne.
Qed.

Lemma strip_app p r : strip p (p ++ r) = Some r.
Proof. now apply strip_some. Qed.

Lemma strip_comp p q k : strip (p ++ q) k = match strip p k with Some r => strip q r | None => None end.
Proof.
  revert k. induction p as [|x p IH]; intros k; cbn [strip app]; [reflexivity|].
  destruct k as [|y k]; [reflexivity|]. destruct (x =? y); auto.
Qed.

Definition ext_map (p : list Z) (ov : option (list Z)) (mn : kmap) : kmap := fun k =>
  match strip p k with
  | None => None
  | Some [] => ov
  | Some k' => mn k'
  end.

Definition branch_map (vs : Z -> option (list Z)) (ns : Z -> kmap) : kmap := fun k =>
  match k with
  | [] => None
  | i :: k' =>
      if (0 <=? i) && (i <? 16) then match k' with [] => vs i | _ => ns i k' end else None
  end.

Definition no_map : kmap := fun _ => None.

(** Storing the value [v] under [key]; the empty value deletes the key. *)
Definition stored (v : list Z) : option (list Z) := match v with [] => None | _ => Some v end.

Definition map_set (m : kmap) (key v : list Z) : kmap := fun k => if list_eqb k key then stored v else m k.

Lemma list_eqb_spec l1 : forall l2, reflect (l1 = l2) (list_eqb l1 l2).
Proof.
  induction l1 as [|x l1 IH]; intros [|y l2]; cbn [list_eqb]; try (constructor; congruence).
  destruct (Z.eqb_spec x y) as [->|]; cbn [andb]; [|constructor; congruence].
  destruct (IH l2) as [->|]; constructor; congruence.
Qed.

Lemma prefix_test (ek key : list Z) :
  if Nat.leb (length ek) (length key) && list_eqb ek (firstn (length ek) key)
  then key = ek ++ skipn (length ek) key else forall r, key <> ek ++ r.
Proof.
  destruct (Nat.leb_spec (length ek) (length key)); cbn [andb].
  - destruct (list_eqb_spec ek (firstn (length ek) key)) as [E1|Hne].
    + rewrite E1 at 1. now rewrite firstn_skipn.
    + intros r ->. apply Hne. rewrite firstn_app, firstn_all, Nat.sub_diag. symmetry. apply app_nil_r.
  - intros r ->. rewrite length_app in *. lia.
Qed.

Lemma nibble_b i : nibble i <-> (0 <=? i) && (i <? 16) = true.
Proof. unfold nibble. rewrite andb_true_iff, Z.leb_le, Z.ltb_lt. tauto. Qed.

Section Rep.
Variable CryptoHash : list Z -> Z.
Abbreviation CalcHash := (CalcHash CryptoHash).

(** ** The hash of a node *)

Definition content (v : CTrieValue) : Prop :=
  match v with
  | TYPE_BRANCH b => exists i, nibble i /\ (next_of b i <> 0 \/ value_of b i <> 0)
  | TYPE_EXTENSION e => ExtGetNextHash e <> 0 \/ ExtGetValueHash e <> 0
  | TYPE_VALUE d => d <> []
  end.

Lemma branch_has_value_ok c b : branch_ok c b -> forall n i, 0 <= i -> i + Z.of_nat n <= 16 ->
  exists r, branch_has_value n i b = Ok r /\
  (r = true <-> exists j, i <= j < i + Z.of_nat n /\ (next_of b j <> 0 \/ value_of b j <> 0)).
Proof.
  intros Hb n. induction n as [|n IH]; intros i Hi Hn; cbn [branch_has_value].
  - exists false. split; [reflexivity|]. split; [discriminate|]. intros (j & Hj & _). lia.
  - assert (Hni : nibble i) by (unfold nibble; lia).
    rewrite (branch_next c b i Hb Hni). cbn [bind]. destruct (Z.eqb_spec (next_of b i) 0) as [E1|E1]; cbn [negb].
    + rewrite (branch_value c b i Hb Hni). cbn [bind]. destruct (Z.eqb_spec (value_of b i) 0) as [E2|E2]; cbn [negb].
      * destruct (IH (i + 1) ltac:(lia) ltac:(lia)) as (r & E & Hr). exists r. split; [exact E|]. rewrite Hr.
        split; intros (j & Hj & Hs); exists j; (split; [|exact Hs]); [lia|].
        destruct (Z.eq_dec j i) as [->|]; [tauto|lia].
      * exists true. split; [reflexivity|]. split; [intros _|auto]. exists i. split; [lia|auto].
    + exists true. split; [reflexivity|]. split; [intros _|auto]. exists i. split; [lia|auto].
Qed.

Lemma calc_hash_ok c v : node_ok c v -> exists r,
  CalcHash v = Ok (if r : bool then CryptoHash (GetStream v) else 0) /\ (r = true <-> content v).
Proof.
  intros Hv. unfold TrieNode.CalcHash. destruct v as [b|e|d]; cbn [content].
  - destruct (branch_has_value_ok c b Hv 16 0 ltac:(lia) ltac:(lia)) as (r & E & Hr). rewrite E.
    exists r. split; [reflexivity|]. rewrite Hr. split; intros (j & Hj & Hs); exists j; unfold nibble in *; split; auto; lia.
  - eexists. split; [reflexivity|]. rewrite orb_true_iff, !negb_true_iff, !Z.eqb_neq. tauto.
  - eexists. split; [reflexivity|]. destruct d; split; congruence.
Qed.

Lemma calc_hash_content c v h : node_ok c v -> CalcHash v = Ok h -> h <> 0 ->
  content v /\ h = CryptoHash (GetStream v).
Proof.
  intros Hv Hh Hn. destruct (calc_hash_ok c v Hv) as ([|] & E & Hr); rewrite E in Hh; injection Hh as <-; [|easy].
  split; [now apply Hr|reflexivity].
Qed.

Lemma calc_hash_zero c v : node_ok c v -> CalcHash v = Ok 0 -> CryptoHash (GetStream v) <> 0 -> ~ content v.
Proof.
  intros Hv Hh Hn. destruct (calc_hash_ok c v Hv) as ([|] & E & Hr); rewrite E in Hh; [injection Hh as Hh; easy|].
  intros Hc. apply Hr in Hc. discriminate.
Qed.

(** ** Representation *)

Section Store.
Variable f : Z -> option CTrieValue.

Definition vrep (h : Z) (o : option (list Z)) : Prop :=
  match o with
  | None => h = 0
  | Some d => h <> 0 /\ d <> [] /\ data_ok d /\ f h = Some (TYPE_VALUE d) /\ CryptoHash (GetStream (TYPE_VALUE d)) = h
  end.

Inductive rep (c : nat) : Z -> kmap -> Prop :=
| rep_empty m : (forall k, m k = None) -> rep c 0 m
| rep_branch h b m vs ns : h <> 0 -> f h = Some (TYPE_BRANCH b) -> CalcHash (TYPE_BRANCH b) = Ok h ->
    branch_ok c b -> (forall k, m k = branch_map vs ns k) ->
    (forall i, nibble i -> vrep (value_of b i) (vs i)) ->
    (forall i, nibble i -> rep c (next_of b i) (ns i)) -> rep c h m
| rep_ext h e m ov mn : h <> 0 -> f h = Some (TYPE_EXTENSION e) -> CalcHash (TYPE_EXTENSION e) = Ok h ->
    ext_ok e -> (forall k, m k = ext_map (GetKey e) ov mn k) ->
    vrep (ExtGetValueHash e) ov -> rep c (ExtGetNextHash e) mn -> rep c h m.

Lemma rep_eq c h m m' : rep c h m -> (forall k, m' k = m k) -> rep c h m'.
Proof.
  intros Hr He. destruct Hr as [m E|h b m vs ns H0 H1 H2 H3 H4 H5 H6|h e m ov mn H0 H1 H2 H3 H4 H5 H6].
  - apply rep_empty. intros k. now rewrite He.
  - eapply rep_branch; eauto. intros k. now rewrite He.
  - eapply rep_ext; eauto. intros k. now rewrite He.
Qed.

Lemma rep_zero c m : rep c 0 m -> forall k, m k = None.
Proof. intros Hr. inversion Hr; subst; auto; contradiction. Qed.

Lemma rep_nil c h m : rep c h m -> m [] = None.
Proof.
  intros Hr. destruct Hr as [m E|h b m vs ns H0 H1 H2 H3 H4 H5 H6|h e m ov mn H0 H1 H2 H3 H4 H5 H6]; [apply E|now rewrite H4|].
  rewrite H4. unfold ext_map. destruct H3 as (H3 & _). destruct (GetKey e); [contradiction|reflexivity].
Qed.

Lemma rep_mono c c' h m : (c <= c')%nat -> rep c h m -> rep c' h m.
Proof.
  intros Hc. induction 1; [now apply rep_empty| |].
  - eapply rep_branch; eauto using branch_mono.
  - eapply rep_ext; eauto.
Qed.

Lemma vrep_det h o o' : vrep h o -> vrep h o' -> o = o'.
Proof.
  destruct o as [d|], o' as [d'|]; cbn [vrep]; try (intuition congruence).
Qed.

Lemma rep_det c h m : rep c h m -> forall m', rep c h m' -> forall k, m k = m' k.
Proof.
  induction 1 as [m E|h b m vs ns H0 H1 H2 H3 H4 H5 _ IH|h e m ov mn H0 H1 H2 H3 H4 H5 _ IH]; intros m' Hr k.
  - now rewrite E, (rep_zero c m' Hr).
  - inversion Hr as [|h' b' m'' vs' ns' G0 G1 G2 G3 G4 G5 G6|h' e' m'' ov' mn' G0 G1 G2 G3 G4 G5 G6]; subst; try congruence.
    rewrite H1 in G1. injection G1 as <-. rewrite H4, G4. unfold branch_map. destruct k as [|i k]; [reflexivity|].
    destruct ((0 <=? i) && (i <? 16)) eqn:Ei; [|reflexivity]. apply nibble_b in Ei.
    destruct k; [eapply vrep_det; eauto|eapply IH; eauto].
  - inversion Hr as [|h' b' m'' vs' ns' G0 G1 G2 G3 G4 G5 G6|h' e' m'' ov' mn' G0 G1 G2 G3 G4 G5 G6]; subst; try congruence.
    rewrite H1 in G1. injection G1 as <-. rewrite H4, G4. unfold ext_map.
    destruct (strip (GetKey e) k) as [[|i k']|]; [eapply vrep_det; eauto|eapply IH; eauto|reflexivity].
Qed.

(** A root other than 0 holds something. *)
Lemma rep_nonempty c h m : rep c h m -> h <> 0 -> exists k d, k <> [] /\ m k = Some d.
Proof.
  assert (V : forall h o, vrep h o -> h <> 0 -> exists d, o = Some d) by (intros ? [d|]; cbn; [eauto|contradiction]).
  induction 1 as [m E|h b m vs ns H0 H1 H2 H3 H4 H5 _ IH|h e m ov mn H0 H1 H2 H3 H4 H5 Hn IH]; intros Hh; [easy| |].
  - destruct (calc_hash_content c (TYPE_BRANCH b) h H3 H2 Hh) as [(i & Hi & [Hs|Hs]) _].
    + destruct (IH i Hi Hs) as (k & d & Hk & Hd). exists (i :: k), d. split; [discriminate|]. rewrite H4.
      cbn [branch_map]. rewrite (proj1 (nibble_b i) Hi). destruct k; [contradiction|exact Hd].
    + destruct (V _ _ (H5 i Hi) Hs) as (d & Hd). exists [i], d. split; [discriminate|]. rewrite H4.
      cbn [branch_map]. now rewrite (proj1 (nibble_b i) Hi).
  - destruct (calc_hash_content c (TYPE_EXTENSION e) h H3 H2 Hh) as [[Hs|Hs] _].
    + destruct (IH Hs) as (k & d & Hk & Hd). exists (GetKey e ++ k), d.
      split; [intros E; apply app_eq_nil in E; tauto|]. rewrite H4. unfold ext_map. rewrite strip_app.
      destruct k; [contradiction|exact Hd].
    + destruct (V _ _ H5 Hs) as (d & Hd). exists (GetKey e), d. split; [apply H3|]. rewrite H4. unfold ext_map.
      rewrite <- (app_nil_r (GetKey e)) at 2. now rewrite strip_app.
Qed.

(** [reach h p r]: the node [r] is found below [h] at the position [p]. *)
Inductive reach : Z -> list Z -> Z -> Prop :=
| reach_here h : h <> 0 -> reach h [] h
| reach_branch h b i p r : h <> 0 -> f h = Some (TYPE_BRANCH b) -> nibble i -> reach (next_of b i) p r -> reach h (i :: p) r
| reach_ext h e p r : h <> 0 -> f h = Some (TYPE_EXTENSION e) -> reach (ExtGetNextHash e) p r -> reach h (GetKey e ++ p) r.

Lemma rep_reach c h p r : reach h p r -> forall m, rep c h m ->
  exists m', rep c r m' /\ forall k, k <> [] -> m' k = m (p ++ k).
Proof.
  induction 1 as [h H0|h b i p r H0 H1 Hi Hr IH|h e p r H0 H1 Hr IH]; intros m Hm.
  - exists m. auto.
  - inversion Hm as [|h' b' m'' vs' ns' G0 G1 G2 G3 G4 G5 G6|h' e' m'' ov' mn' G0 G1 G2 G3 G4 G5 G6]; subst; try congruence.
    rewrite H1 in G1. injection G1 as <-. destruct (IH _ (G6 i Hi)) as (m' & R & E). exists m'. split; [exact R|].
    intros k Hk. rewrite E, G4 by exact Hk. cbn [app branch_map]. rewrite (proj1 (nibble_b i) Hi).
    destruct (p ++ k) eqn:Epk; [|reflexivity]. apply app_eq_nil in Epk. tauto.
  - inversion Hm as [|h' b' m'' vs' ns' G0 G1 G2 G3 G4 G5 G6|h' e' m'' ov' mn' G0 G1 G2 G3 G4 G5 G6]; subst; try congruence.
    rewrite H1 in G1. injection G1 as <-. destruct (IH _ G6) as (m' & R & E). exists m'. split; [exact R|].
    intros k Hk. rewrite E, G4 by exact Hk. unfold ext_map. rewrite <- app_assoc, strip_app.
    destruct (p ++ k) eqn:Epk; [|reflexivity]. apply app_eq_nil in Epk. tauto.
Qed.

(** A node is at one position only when all values are different. *)
Lemma reach_once c h m p q r : rep c h m ->
  (forall k k' d, m k = Some d -> m k' = Some d -> k = k') ->
  reach h p r -> reach h q r -> p = q.
Proof.
  intros Hm Hinj Hp Hq. destruct (rep_reach c h p r Hp m Hm) as (m1 & R1 & E1).
  destruct (rep_reach c h q r Hq m Hm) as (m2 & R2 & E2).
  assert (Hr : r <> 0) by (clear -Hp; induction Hp; auto).
  destruct (rep_nonempty c r m1 R1 Hr) as (k & d & Hk & Hd).
  assert (Hd2 : m2 k = Some d) by (rewrite <- (rep_det c r m1 R1 m2 R2); exact Hd).
  rewrite E1 in Hd by exact Hk. rewrite E2 in Hd2 by exact Hk.
  apply (app_inv_tail k). eapply Hinj; eauto.
Qed.

End Store.

(** The representation depends on the nodes that are reached and on the values. *)
Lemma vrep_frame f f' h o : vrep f h o ->
  (forall r d, f r = Some (TYPE_VALUE d) -> data_ok d -> CryptoHash (GetStream (TYPE_VALUE d)) = r -> f' r = f r) -> vrep f' h o.
Proof.
  destruct o as [d|]; cbn [vrep]; [|auto]. intros (H1 & H2 & H3 & H4 & H5) Hf. repeat split; auto; try apply H3.
  now rewrite (Hf h d).
Qed.

Lemma rep_frame f f' c h m : rep f c h m ->
  (forall r d, f r = Some (TYPE_VALUE d) -> data_ok d -> CryptoHash (GetStream (TYPE_VALUE d)) = r -> f' r = f r) ->
  (forall p r, reach f h p r -> f' r = f r) -> rep f' c h m.
Proof.
  intros Hm Hv. induction Hm as [m E|h b m vs ns H0 H1 H2 H3 H4 H5 _ IH|h e m ov mn H0 H1 H2 H3 H4 H5 _ IH]; intros Hf.
  - now apply rep_empty.
  - eapply rep_branch; eauto.
    + rewrite (Hf [] h); [exact H1|now apply reach_here].
    + intros i Hi. eapply vrep_frame; eauto.
    + intros i Hi. apply IH; [exact Hi|]. intros p r Hr. eapply Hf, reach_branch; eauto.
  - eapply rep_ext; eauto.
    + rewrite (Hf [] h); [exact H1|now apply reach_here].
    + eapply vrep_frame; eauto.
    + apply IH. intros p r Hr. eapply Hf, reach_ext; eauto.
Qed.

(** ** Building a representation from a node just written *)

Lemma rep_of_branch f c b h m vs ns : branch_ok c b -> CalcHash (TYPE_BRANCH b) = Ok h ->
  CryptoHash (GetStream (TYPE_BRANCH b)) <> 0 -> (h <> 0 -> f h = Some (TYPE_BRANCH b)) ->
  (forall k, m k = branch_map vs ns k) -> (forall i, nibble i -> vrep f (value_of b i) (vs i)) ->
  (forall i, nibble i -> rep f c (next_of b i) (ns i)) -> rep f c h m.
Proof.
  intros Hb Hh Hz Hf Hm Hv Hn. destruct (Z.eq_dec h 0) as [->|H0]; [|eapply rep_branch; eauto].
  apply rep_empty. pose proof (calc_hash_zero c (TYPE_BRANCH b) Hb Hh Hz) as Hc. intros k. rewrite Hm.
  unfold branch_map. destruct k as [|i k]; [reflexivity|]. destruct ((0 <=? i) && (i <? 16)) eqn:Ei; [|reflexivity].
  apply nibble_b in Ei. cbn [content] in Hc. destruct k as [|j k].
  - specialize (Hv i Ei). destruct (vs i) as [d|]; [|reflexivity]. contradiction Hc. exists i. destruct Hv. auto.
  - destruct (Z.eq_dec (next_of b i) 0) as [E|E]; [|contradiction Hc; eauto].
    specialize (Hn i Ei). rewrite E in Hn. eapply rep_zero, Hn.
Qed.

Lemma rep_of_ext f c e h m ov mn : ext_ok e -> CalcHash (TYPE_EXTENSION e) = Ok h ->
  CryptoHash (GetStream (TYPE_EXTENSION e)) <> 0 -> (h <> 0 -> f h = Some (TYPE_EXTENSION e)) ->
  (forall k, m k = ext_map (GetKey e) ov mn k) -> vrep f (ExtGetValueHash e) ov ->
  rep f c (ExtGetNextHash e) mn -> rep f c h m.
Proof.
  intros Hb Hh Hz Hf Hm Hv Hn. destruct (Z.eq_dec h 0) as [->|H0]; [|eapply rep_ext; eauto].
  apply rep_empty. pose proof (calc_hash_zero c (TYPE_EXTENSION e) Hb Hh Hz) as Hc. intros k. rewrite Hm.
  unfold ext_map. cbn [content] in Hc. destruct (strip (GetKey e) k) as [[|i k']|]; [| |reflexivity].
  - destruct ov as [d|]; [|reflexivity]. destruct Hv. tauto.
  - destruct (Z.eq_dec (ExtGetNextHash e) 0) as [E|E]; [|tauto]. rewrite E in Hn. eapply rep_zero, Hn.
Qed.

End Rep.
