(* ===== verification/TrieAdd.v ===== *)
(** * An update of the trie updates the map

    [path_rep] says what the two loops of [AddNode] make of a path: the hash they end
    with represents a given map in every store that holds the rewritten nodes and
    still holds the old nodes beside the path.  The lemmas follow the blocks of
    [GetBranchPath] and [GetExtensionPath]: the node of the rest of a new key, a split
    extension, a node that stays on the path. *)

From Stdlib Require Import ZArith List Lia Bool.
From S2P Require Import Prelude Radix Stream OrdMap TrieNode TrieNodeOk Trie TrieRep.
Import ListNotations.
Local Open Scope Z_scope.

Definition in256 (h : Z) : Prop := 0 <= h < 2 ^ 256.

(** A hash function with results of 256 bits. *)
Class Hash256 (CryptoHash : list Z -> Z) : Prop := hash_range : forall s, in256 (CryptoHash s).

Section Add.
Variable CryptoHash : list Z -> Z.
Context {HR : Hash256 CryptoHash}.
Abbreviation rep := (rep CryptoHash).
Abbreviation vrep := (vrep CryptoHash).
Abbreviation old_pass := (old_pass CryptoHash).
Abbreviation new_pass := (new_pass CryptoHash).
Abbreviation old_step := (old_step CryptoHash).
Abbreviation new_step := (new_step CryptoHash).
Abbreviation CalcHash := (CalcHash CryptoHash).

Lemma calc_range c v : node_ok c v -> exists h, CalcHash v = Ok h /\ in256 h.
Proof.
  intros Hv. destruct (calc_hash_ok CryptoHash c v Hv) as (r & E & _). eexists. split; [exact E|].
  destruct r; [apply hash_range|unfold in256; lia].
Qed.

Lemma calc_value_hash c kv : node_ok c (value kv) ->
  exists h, CalcHash (value kv) = Ok h /\ in256 h /\ CalcValueHash CryptoHash kv = Ok (set_hashValue kv h).
Proof.
  intros Hv. destruct (calc_range c _ Hv) as (h & E & Hh). exists h. split; [exact E|]. split; [exact Hh|].
  unfold CalcValueHash. now rewrite E.
Qed.

(** The store holds the nodes of the path, and none of them hashes to 0. *)
Definition written (f : Z -> option CTrieValue) (t : list CTrieKeyValue) : Prop :=
  Forall (fun kv => (hashValue kv <> 0 -> f (hashValue kv) = Some (value kv)) /\
                    CryptoHash (GetStream (value kv)) <> 0) t.

Section Value.
Variable v : list Z.
Variable hv : Z.
Hypothesis Hv : CalcHash (TYPE_VALUE v) = Ok hv.

Lemma hv_range : in256 hv.
Proof.
  unfold TrieNode.CalcHash in Hv. cbn [bind] in Hv. injection Hv as <-.
  destruct v; [unfold in256; lia|apply hash_range].
Qed.

Definition path_rep (kvs : list CTrieKeyValue) (F : (Z -> option CTrieValue) -> Prop) (c : nat) (m : kmap) : Prop :=
  exists t1 ho t2 hp, old_pass kvs = Ok (Some (t1, ho)) /\ in256 ho /\
  new_pass t1 hv true = Ok (Go (t2, hp, false)) /\ in256 hp /\
  forall f, written f t2 -> vrep f hv (stored v) -> F f -> rep f c hp m.

Definition path_same (kvs : list CTrieKeyValue) : Prop :=
  exists t1 ho, old_pass kvs = Ok (Some (t1, ho)) /\ in256 ho /\ new_pass t1 hv true = Ok Same.

Lemma path_rep_weaken kvs (F F' : (Z -> option CTrieValue) -> Prop) c m m' :
  path_rep kvs F c m -> (forall f, F' f -> F f) -> (forall k, m' k = m k) -> path_rep kvs F' c m'.
Proof.
  intros (t1 & ho & t2 & hp & E1 & R1 & E2 & R2 & H) HF Hm. exists t1, ho, t2, hp.
  repeat (split; [assumption|]). intros f W V HF'. eapply rep_eq; [|exact Hm]. apply H; auto.
Qed.

(** One more node in front of a path. *)
Lemma old_pass_cons kv kvs t1 ho kv1 ho' : old_pass kvs = Ok (Some (t1, ho)) ->
  old_step kv ho = Ok (Some (kv1, ho')) -> old_pass (kv :: kvs) = Ok (Some (kv1 :: t1, ho')).
Proof. intros E1 E2. cbn [Trie.old_pass]. rewrite E1. cbn [bind]. now rewrite E2. Qed.

Lemma new_pass_cons kv t h b t2 hp b' kv2 hp' b'' : new_pass t h b = Ok (Go (t2, hp, b')) ->
  new_step kv hp b' = Ok (Go (kv2, hp', b'')) -> new_pass (kv :: t) h b = Ok (Go (kv2 :: t2, hp', b'')).
Proof. intros E1 E2. cbn [Trie.new_pass]. rewrite E1. cbn [bind]. now rewrite E2. Qed.

(** ** The node of the rest of a new key *)

Lemma nibble_1 n k : key_ok (n :: k) -> nibble n.
Proof. intros [H _]. now inversion H. Qed.

Lemma not_same : negb (hv =? 0) && (0 =? hv) = false.
Proof. destruct (Z.eqb_spec hv 0), (Z.eqb_spec 0 hv); auto; congruence. Qed.

Lemma branch_map_single n (o : option (list Z)) : nibble n -> forall k,
  ext_map [n] o no_map k = branch_map (fun i => if i =? n then o else None) (fun _ => no_map) k.
Proof.
  intros Hn k. unfold ext_map, branch_map. destruct k as [|i k]; [reflexivity|]. cbn [strip]. rewrite (Z.eqb_sym n i).
  destruct (Z.eqb_spec i n) as [->|]; [rewrite (proj1 (nibble_b n) Hn); destruct k; reflexivity|].
  destruct (_ && _), k; reflexivity.
Qed.

Lemma new_tail_ok k c : key_ok k -> k <> [] -> (1 <= c < 256)%nat ->
  old_pass (new_tail k) = Ok (Some (new_tail k, 0)) /\
  exists t2 hp, new_pass (new_tail k) hv true = Ok (Go (t2, hp, false)) /\ in256 hp /\
  forall f, written f t2 -> vrep f hv (stored v) -> rep f c hp (ext_map k (stored v) no_map).
Proof.
  intros Hk Hne Hc. destruct k as [|n k]; [contradiction|]. pose proof (nibble_1 n k Hk) as Hn. destruct k as [|n' k].
  - split; [reflexivity|]. cbn [new_tail Trie.new_pass bind]. unfold Trie.new_step. cbn [is_old nKvType value keyNew].
    rewrite (branch_value 0 _ n branch_new Hn). cbn [bind]. rewrite value_new, not_same.
    destruct (branch_set_value 0 new_branch n hv branch_new ltac:(lia) Hn hv_range) as (b & E & Hb & Bv & Bn).
    rewrite E. cbn [bind].
    destruct (calc_value_hash 1 (mk_kv KV_TYPE_NEW [] [n] (TYPE_BRANCH b) 0) Hb) as (h & Eh & Rh & Ec).
    unfold set_value. cbn [nKvType keyOld keyNew hashValue]. rewrite Ec. cbn [bind set_hashValue hashValue].
    eexists _, h. split; [reflexivity|]. split; [exact Rh|]. intros f W V. inversion_clear W as [|? ? [W1 W2] _].
    eapply rep_of_branch with (b := b); [apply (branch_mono 1); [lia|exact Hb]|exact Eh|exact W2|exact W1|apply (branch_map_single n (stored v) Hn)| |].
    + intros i Hi. rewrite Bv by exact Hi. destruct (Z.eqb_spec i n); [exact V|rewrite value_new; reflexivity].
    + intros i Hi. rewrite Bn, next_new. now apply rep_empty.
  - split; [reflexivity|]. cbn [new_tail Trie.new_pass bind]. unfold Trie.new_step. cbn [is_old nKvType value].
    destruct (set_key_ok (n :: n' :: k) Hk ltac:(discriminate)) as (He & Hg & Hx & Hy).
    set (e := SetKey new_extension (n :: n' :: k)) in *. rewrite Hy, not_same.
    pose proof (ext_set_value_ok e hv He hv_range) as He'.
    destruct (calc_value_hash c (mk_kv KV_TYPE_NEW [] (n :: n' :: k) (TYPE_EXTENSION (ExtSetValueHash e hv)) 0) He') as (h & Eh & Rh & Ec).
    unfold set_value. cbn [nKvType keyOld keyNew hashValue]. rewrite Ec. cbn [bind set_hashValue hashValue].
    eexists _, h. split; [reflexivity|]. split; [exact Rh|]. intros f W V. inversion_clear W as [|? ? [W1 W2] _].
    eapply rep_of_ext with (e := ExtSetValueHash e hv) (ov := stored v) (mn := no_map); [exact He'|exact Eh|exact W2|exact W1| | |]; autorewrite with trie.
    + intros k'. now rewrite Hg.
    + exact V.
    + rewrite Hx. now apply rep_empty.
Qed.

(** ** The rest of the key of a split extension *)

Lemma copy_ext x e : ext_ok x -> ext_ok e -> let y := copy_to_extension x e in
  ext_ok y /\ GetKey y = GetKey x /\ ExtGetNextHash y = ExtGetNextHash e /\ ExtGetValueHash y = ExtGetValueHash e.
Proof.
  intros Hx He. destruct (ext_link_range e He) as [R1 R2]. unfold copy_to_extension. autorewrite with trie.
  split; [apply ext_set_value_ok, R2; apply ext_set_next_ok, R1; exact Hx|auto].
Qed.

Lemma copy_branch n e : nibble n -> ext_ok e -> exists b, copy_to_branch new_branch n e = Ok b /\ branch_ok 2 b /\
  (forall i, nibble i -> next_of b i = if i =? n then ExtGetNextHash e else 0) /\
  (forall i, nibble i -> value_of b i = if i =? n then ExtGetValueHash e else 0).
Proof.
  intros Hn He. destruct (ext_link_range e He) as [R1 R2]. unfold copy_to_branch.
  destruct (branch_set_next 0 new_branch n _ branch_new ltac:(lia) Hn R1) as (b1 & E1 & B1 & N1 & V1).
  destruct (branch_set_value 1 b1 n _ B1 ltac:(lia) Hn R2) as (b2 & E2 & B2 & V2 & N2).
  exists b2. rewrite E1. cbn [bind]. split; [exact E2|]. split; [exact B2|]. split; intros i Hi.
  - rewrite N2, N1, next_new by exact Hi. reflexivity.
  - rewrite V2, V1, value_new by exact Hi. reflexivity.
Qed.

Lemma branch_map_ext n o mn : nibble n -> forall k, ext_map [n] o mn k =
  branch_map (fun i => if i =? n then o else None) (fun i => if i =? n then mn else no_map) k.
Proof.
  intros Hn k. unfold ext_map, branch_map. destruct k as [|i k]; [reflexivity|]. cbn [strip]. rewrite (Z.eqb_sym n i).
  destruct (Z.eqb_spec i n) as [->|]; [rewrite (proj1 (nibble_b n) Hn); destruct k; reflexivity|].
  destruct (_ && _), k; reflexivity.
Qed.

Lemma old_tail_ok k e c : key_ok k -> k <> [] -> ext_ok e -> (2 <= c < 256)%nat ->
  exists kv kv1 ho, old_tail k e = Ok [kv] /\ old_step kv 0 = Ok (Some (kv1, ho)) /\ in256 ho /\
  (forall hp b, new_step kv1 hp b = Ok (Go (kv1, hp, b))) /\
  forall f ov mn, written f [kv1] -> vrep f (ExtGetValueHash e) ov -> rep f c (ExtGetNextHash e) mn ->
    rep f c ho (ext_map k ov mn).
Proof.
  intros Hk Hne He Hc. destruct k as [|n k]; [contradiction|]. pose proof (nibble_1 n k Hk) as Hn. destruct k as [|n' k].
  - destruct (copy_branch n e Hn He) as (b & E & Hb & Bn & Bv). cbn [old_tail]. rewrite E. cbn [bind].
    destruct (calc_value_hash 2 (mk_kv KV_TYPE_OLD [n] [] (TYPE_BRANCH b) 0) Hb) as (h & Eh & Rh & Ec).
    eexists _, _, h. split; [reflexivity|]. unfold Trie.old_step. cbn [is_new nKvType value keyOld].
    change (0 =? 0) with true. cbn [negb bind]. unfold set_value. cbn [nKvType keyOld keyNew hashValue]. rewrite Ec.
    cbn [bind set_hashValue hashValue]. split; [reflexivity|]. split; [exact Rh|]. split; [reflexivity|].
    intros f ov mn W V R. inversion_clear W as [|? ? [W1 W2] _].
    eapply rep_of_branch with (b := b); [apply (branch_mono 2); [lia|exact Hb]|exact Eh|exact W2|exact W1|apply (branch_map_ext n ov mn Hn)| |].
    + intros i Hi. rewrite Bv by exact Hi. destruct (i =? n); [exact V|reflexivity].
    + intros i Hi. rewrite Bn by exact Hi. destruct (i =? n); [exact R|now apply rep_empty].
  - destruct (set_key_ok (n :: n' :: k) Hk ltac:(discriminate)) as (Hx & Hg & _).
    destruct (copy_ext _ e Hx He) as (Hy & Yk & Yn & Yv). cbn [old_tail].
    set (y := copy_to_extension (SetKey new_extension (n :: n' :: k)) e) in *.
    destruct (calc_value_hash c (mk_kv KV_TYPE_OLD (n :: n' :: k) [] (TYPE_EXTENSION y) 0) Hy) as (h & Eh & Rh & Ec).
    eexists _, _, h. split; [reflexivity|]. unfold Trie.old_step. cbn [is_new nKvType value keyOld].
    change (0 =? 0) with true. cbn [negb bind]. unfold set_value. cbn [nKvType keyOld keyNew hashValue]. rewrite Ec.
    cbn [bind set_hashValue hashValue]. split; [reflexivity|]. split; [exact Rh|]. split; [reflexivity|].
    intros f ov mn W V R. inversion_clear W as [|? ? [W1 W2] _].
    eapply rep_of_ext with (e := y) (ov := ov) (mn := mn); [exact Hy|exact Eh|exact W2|exact W1| | |].
    + intros k'. now rewrite Yk, Hg.
    + rewrite Yv. exact V.
    + rewrite Yn. exact R.
Qed.

(** ** One round of each loop at a node of the path *)

Lemma old_branch_step c kv b ho : value kv = TYPE_BRANCH b -> branch_ok c b -> (c < 255)%nat -> in256 ho ->
  is_new kv = false -> nibbles (keyOld kv) ->
  exists b1 h, old_step kv ho = Ok (Some (set_hashValue (set_value kv (TYPE_BRANCH b1)) h, h)) /\ in256 h /\
  branch_ok (S c) b1 /\ (forall i, value_of b1 i = value_of b i) /\
  (forall i, nibble i -> next_of b1 i =
     match keyOld kv with o :: _ => if (i =? o) && negb (ho =? 0) then ho else next_of b i | [] => next_of b i end).
Proof.
  intros Ev Hb Hc Hho Hn Hk. unfold Trie.old_step. rewrite Ev, Hn.
  assert (S : exists b1, match keyOld kv with
      | n :: _ => if negb (ho =? 0) then BranchSetNextHash b n ho else Ok b | [] => Ok b end = Ok b1 /\
    branch_ok (S c) b1 /\ (forall i, value_of b1 i = value_of b i) /\
    (forall i, nibble i -> next_of b1 i =
     match keyOld kv with o :: _ => if (i =? o) && negb (ho =? 0) then ho else next_of b i | [] => next_of b i end)).
  { pose proof (branch_mono c (S c) b ltac:(lia) Hb) as Hb'. destruct (keyOld kv) as [|o ko]; [exists b; auto|].
    inversion_clear Hk as [|? ? Ho _]. destruct (negb (ho =? 0)).
    - destruct (branch_set_next c b o ho Hb Hc Ho Hho) as (b1 & E & B & N & V). exists b1. split; [exact E|].
      split; [exact B|]. split; [exact V|]. intros i Hi. rewrite andb_true_r. now apply N.
    - exists b. split; [reflexivity|]. split; [exact Hb'|]. split; [auto|]. intros i Hi. now rewrite andb_false_r. }
  destruct S as (b1 & E & B & V & N). rewrite E. cbn [bind].
  destruct (calc_value_hash (S c) (set_value kv (TYPE_BRANCH b1)) B) as (h & Eh & Rh & Ec). rewrite Ec. cbn [bind].
  exists b1, h. auto.
Qed.

Lemma new_branch_step c kv b n kn hp fv : value kv = TYPE_BRANCH b -> branch_ok c b -> (c < 255)%nat -> in256 hp ->
  is_old kv = false -> keyNew kv = n :: kn -> nibble n -> (fv = true -> negb (hp =? 0) && (value_of b n =? hp) = false) ->
  exists b2 h, new_step kv hp fv = Ok (Go (set_hashValue (set_value kv (TYPE_BRANCH b2)) h, h, false)) /\ in256 h /\
  CalcHash (TYPE_BRANCH b2) = Ok h /\ branch_ok (S c) b2 /\
  (forall i, nibble i -> value_of b2 i = if fv && (i =? n) then hp else value_of b i) /\
  (forall i, nibble i -> next_of b2 i = if negb fv && (i =? n) then hp else next_of b i).
Proof.
  intros Ev Hb Hc Hhp Ho Hk Hn Hs. unfold Trie.new_step. rewrite Ev, Ho, Hk. destruct fv.
  - rewrite (branch_value c b n Hb Hn). cbn [bind]. rewrite Hs by reflexivity.
    destruct (branch_set_value c b n hp Hb Hc Hn Hhp) as (b2 & E & B & V & N). rewrite E. cbn [bind].
    destruct (calc_value_hash (S c) (set_value kv (TYPE_BRANCH b2)) B) as (h & Eh & Rh & Ec). rewrite Ec. cbn [bind].
    exists b2, h. repeat (split; [assumption || reflexivity|]). intros i Hi. cbn [negb andb]. apply N.
  - destruct (branch_set_next c b n hp Hb Hc Hn Hhp) as (b2 & E & B & N & V). rewrite E. cbn [bind].
    destruct (calc_value_hash (S c) (set_value kv (TYPE_BRANCH b2)) B) as (h & Eh & Rh & Ec). rewrite Ec. cbn [bind].
    exists b2, h. repeat (split; [assumption || reflexivity|]). split; [intros i Hi; cbn [andb]; apply V|exact N].
Qed.

Lemma old_ext_step kv e ho : value kv = TYPE_EXTENSION e -> ext_ok e -> in256 ho -> is_new kv = false ->
  exists h, let e1 := if negb (ho =? 0) then ExtSetNextHash e ho else e in
  old_step kv ho = Ok (Some (set_hashValue (set_value kv (TYPE_EXTENSION e1)) h, h)) /\ in256 h /\ ext_ok e1.
Proof.
  intros Ev He Hho Hn. unfold Trie.old_step. rewrite Ev, Hn. cbv zeta.
  assert (He1 : ext_ok (if negb (ho =? 0) then ExtSetNextHash e ho else e))
    by (destruct (negb _); [apply ext_set_next_ok|]; assumption).
  destruct (calc_value_hash 0 (set_value kv (TYPE_EXTENSION (if negb (ho =? 0) then ExtSetNextHash e ho else e))) He1)
    as (h & Eh & Rh & Ec). rewrite Ec. cbn [bind]. exists h. auto.
Qed.

Lemma new_ext_step kv e hp fv : value kv = TYPE_EXTENSION e -> ext_ok e -> in256 hp -> is_old kv = false ->
  (fv = true -> negb (hp =? 0) && (ExtGetValueHash e =? hp) = false) ->
  exists h, let e2 := if fv then ExtSetValueHash e hp else ExtSetNextHash e hp in
  new_step kv hp fv = Ok (Go (set_hashValue (set_value kv (TYPE_EXTENSION e2)) h, h, false)) /\ in256 h /\
  CalcHash (TYPE_EXTENSION e2) = Ok h /\ ext_ok e2.
Proof.
  intros Ev He Hhp Ho Hs. unfold Trie.new_step. rewrite Ev, Ho.
  assert (He2 : ext_ok (if fv then ExtSetValueHash e hp else ExtSetNextHash e hp))
    by (destruct fv; [apply ext_set_value_ok|apply ext_set_next_ok]; assumption).
  destruct (calc_value_hash 0 (set_value kv (TYPE_EXTENSION (if fv then ExtSetValueHash e hp else ExtSetNextHash e hp))) He2)
    as (h & Eh & Rh & Ec). exists h. cbv zeta. destruct fv.
  - rewrite Hs by reflexivity. rewrite Ec. auto.
  - rewrite Ec. auto.
Qed.

(** ** A split extension *)

Definition is_nil {A} (l : list A) : bool := match l with [] => true | _ => false end.

Lemma ext_single p o k : ext_map p o no_map k = if list_eqb k p then o else None.
Proof.
  unfold ext_map. destruct (strip p k) as [[|i r]|] eqn:E.
  - apply strip_some in E. rewrite app_nil_r in E. subst. destruct (list_eqb_spec p p); [reflexivity|contradiction].
  - apply strip_some in E. subst. destruct (list_eqb_spec (p ++ i :: r) p) as [E|]; [|reflexivity].
    rewrite <- (app_nil_r p) in E at 2. apply app_inv_head in E. discriminate.
  - destruct (list_eqb_spec k p) as [->|]; [|reflexivity].
    rewrite <- (app_nil_r p) in E at 2. rewrite strip_app in E. discriminate.
Qed.

Lemma fork_map o eo n sn ov mn : nibble o -> nibble n -> o <> n -> forall k,
  map_set (ext_map (o :: eo) ov mn) (n :: sn) v k = branch_map
    (fun i => if i =? n then (if is_nil sn then stored v else None)
              else if i =? o then (if is_nil eo then ov else None) else None)
    (fun i => if i =? n then (if is_nil sn then no_map else ext_map sn (stored v) no_map)
              else if i =? o then (if is_nil eo then mn else ext_map eo ov mn) else no_map) k.
Proof.
  intros Ho Hn Hon k. unfold map_set, ext_map at 1, branch_map. destruct k as [|i k]; [reflexivity|]. cbn [list_eqb strip].
  rewrite (Z.eqb_sym o i). destruct (Z.eqb_spec i n) as [->|Hin]; cbn [andb].
  - rewrite (proj1 (nibble_b n) Hn). destruct (Z.eqb_spec n o); [congruence|].
    destruct sn as [|s sn]; cbn [is_nil]; [destruct k; reflexivity|]. destruct k; [reflexivity|].
    now rewrite ext_single.
  - destruct (Z.eqb_spec i o) as [->|]; [|destruct (_ && _), k; reflexivity].
    rewrite (proj1 (nibble_b o) Ho). destruct eo; cbn [is_nil strip]; destruct k; reflexivity.
Qed.

(** The nodes below the branch where the two keys part. *)
Lemma tails_ok eo sn e c : key_ok eo -> key_ok sn -> ext_ok e -> (2 <= c < 256)%nat ->
  exists old t1 ho t2 hp, old_tail eo e = Ok old /\
  old_pass (old ++ new_tail sn) = Ok (Some (t1, ho)) /\ in256 ho /\
  new_pass t1 hv true = Ok (Go (t2, hp, is_nil sn)) /\ in256 hp /\
  (eo = [] -> ho = 0) /\ (sn = [] -> hp = hv) /\
  forall f, written f t2 ->
    (forall ov mn, eo <> [] -> vrep f (ExtGetValueHash e) ov -> rep f c (ExtGetNextHash e) mn -> rep f c ho (ext_map eo ov mn)) /\
    (sn <> [] -> vrep f hv (stored v) -> rep f c hp (ext_map sn (stored v) no_map)).
Proof.
  intros Heo Hsn He Hc.
  assert (N : exists t2 hp, old_pass (new_tail sn) = Ok (Some (new_tail sn, 0)) /\
    new_pass (new_tail sn) hv true = Ok (Go (t2, hp, is_nil sn)) /\ in256 hp /\ (sn = [] -> hp = hv) /\
    forall f, written f t2 -> sn <> [] -> vrep f hv (stored v) -> rep f c hp (ext_map sn (stored v) no_map)).
  { destruct sn as [|s sn].
    - exists [], hv. split; [reflexivity|]. split; [reflexivity|]. split; [apply hv_range|].
      split; [auto|]. intros f _ H. contradiction.
    - destruct (new_tail_ok (s :: sn) c Hsn ltac:(discriminate) ltac:(lia)) as (E1 & t2 & hp & E2 & R & H).
      exists t2, hp. split; [exact E1|]. split; [exact E2|]. split; [exact R|]. split; [discriminate|]. auto. }
  destruct N as (t2 & hp & E1 & E2 & R & Hs & H). destruct eo as [|o eo].
  - exists [], (new_tail sn), 0, t2, hp. split; [reflexivity|]. split; [exact E1|]. split; [unfold in256; lia|].
    split; [exact E2|]. split; [exact R|]. split; [auto|]. split; [exact Hs|].
    intros f W. split; [intros ? ? []; reflexivity|auto].
  - destruct (old_tail_ok (o :: eo) e c Heo ltac:(discriminate) He Hc) as (kv & kv1 & ho & F1 & F2 & F3 & F4 & F5).
    exists [kv], (kv1 :: new_tail sn), ho, (kv1 :: t2), hp. split; [exact F1|]. cbn [app].
    split; [eapply old_pass_cons; eauto|]. split; [exact F3|]. split; [eapply new_pass_cons; eauto|].
    split; [exact R|]. split; [discriminate|]. split; [exact Hs|]. intros f W. inversion_clear W as [|? ? W1 W2].
    split; [intros ov mn _; apply F5; repeat constructor; apply W1|auto].
Qed.

(** The old links of an extension, in the new store. *)
Definition links (f : Z -> option CTrieValue) (c : nat) (e : CTrieExtension) (ov : option (list Z)) (mn : kmap) : Prop :=
  vrep f (ExtGetValueHash e) ov /\ rep f c (ExtGetNextHash e) mn.

Lemma fork_ok o eo n sn e c ov mn : key_ok (o :: eo) -> key_ok (n :: sn) -> ext_ok e -> o <> n -> (4 <= c < 256)%nat ->
  exists kb old, fork_branch (o :: eo) (n :: sn) e = Ok kb /\ old_tail eo e = Ok old /\
  path_rep (kb :: old ++ new_tail sn) (fun f => links f c e ov mn) c (map_set (ext_map (o :: eo) ov mn) (n :: sn) v).
Proof.
  intros Heo Hsn He Hon Hc. pose proof (nibble_1 o eo Heo) as Ho. pose proof (nibble_1 n sn Hsn) as Hn.
  destruct (tails_ok eo sn e c (key_ok_skip 1 _ Heo) (key_ok_skip 1 _ Hsn) He ltac:(lia))
    as (old & t1 & ho & t2 & hp & E1 & E2 & R1 & E3 & R2 & Z1 & Z2 & H).
  assert (B0 : exists b, match eo with [] => copy_to_branch new_branch o e | _ => Ok new_branch end = Ok b /\ branch_ok 2 b /\
    (forall i, nibble i -> next_of b i = if is_nil eo && (i =? o) then ExtGetNextHash e else 0) /\
    (forall i, nibble i -> value_of b i = if is_nil eo && (i =? o) then ExtGetValueHash e else 0)).
  { destruct eo; [exact (copy_branch o e Ho He)|]. exists new_branch. split; [reflexivity|].
    split; [apply (branch_mono 0); [lia|apply branch_new]|]. split; intros i _; [apply next_new|apply value_new]. }
  destruct B0 as (b & E0 & Hb & Bn & Bv). exists (mk_kv KV_TYPE_SHARE [o] [n] (TYPE_BRANCH b) 0), old.
  split; [cbn [fork_branch]; rewrite E0; reflexivity|]. split; [exact E1|].
  destruct (old_branch_step 2 (mk_kv KV_TYPE_SHARE [o] [n] (TYPE_BRANCH b) 0) b ho eq_refl Hb ltac:(lia) R1 eq_refl
    (Forall_cons _ Ho (Forall_nil _))) as (b1 & h1 & S1 & R3 & Hb1 & V1 & N1). cbn [keyOld] in N1.
  set (kv1 := set_hashValue _ h1) in S1.
  destruct (new_branch_step 3 kv1 b1 n [] hp (is_nil sn) eq_refl Hb1 ltac:(lia) R2 eq_refl eq_refl Hn)
    as (b2 & h2 & S2 & R4 & C2 & Hb2 & V2 & N2).
  { intros Hs. rewrite V1, Bv by exact Hn. destruct (Z.eqb_spec n o); [congruence|]. rewrite andb_false_r.
    rewrite Z2 by (destruct sn; [reflexivity|discriminate]). apply not_same. }
  eexists _, h1, _, h2. split; [eapply old_pass_cons; eauto|]. split; [exact R3|].
  split; [eapply new_pass_cons; eauto|]. split; [exact R4|]. intros f W V [L1 L2].
  inversion_clear W as [|? ? [W1 W2] W3]. destruct (H f W3) as [H1 H2].
  eapply rep_of_branch; [apply (branch_mono 4); [lia|exact Hb2]|exact C2|exact W2|exact W1|apply fork_map; auto| |]; intros i Hi.
  - rewrite V2, V1, Bv by exact Hi. destruct (Z.eqb_spec i n) as [->|].
    + rewrite andb_true_r. destruct sn; cbn [is_nil]; [now rewrite Z2 by reflexivity|].
      destruct (Z.eqb_spec n o); [congruence|]. now rewrite andb_false_r.
    + rewrite andb_false_r. destruct (i =? o); [|now rewrite andb_false_r]. rewrite andb_true_r.
      destruct eo; [exact L1|reflexivity].
  - rewrite N2, N1, Bn by exact Hi. destruct (Z.eqb_spec i n) as [->|].
    + rewrite andb_true_r. destruct sn; cbn [is_nil negb]; [|apply H2; [discriminate|exact V]].
      destruct (Z.eqb_spec n o); [congruence|]. cbn [andb]. rewrite andb_false_r. now apply rep_empty.
    + rewrite andb_false_r. destruct (i =? o); cbn [andb]; [|rewrite andb_false_r; now apply rep_empty].
      rewrite andb_true_r. destruct eo; cbn [is_nil].
      * rewrite Z1 by reflexivity. exact L2.
      * specialize (H1 ov mn ltac:(discriminate) L1 L2). destruct (Z.eqb_spec ho 0) as [->|]; exact H1.
Qed.

(** The node of the common part of the two keys. *)
Definition top (p : list Z) : CTrieKeyValue :=
  match p with
  | [a] => mk_kv KV_TYPE_SHARE [a] [a] (TYPE_BRANCH new_branch) 0
  | _ => mk_kv KV_TYPE_SHARE p p (TYPE_EXTENSION (SetKey new_extension p)) 0
  end.

(** What the two loops make of [top p]: the old hash below, then the new one, or the
    value, goes to it. *)
Lemma top_ok p c ho hp fv : key_ok p -> p <> [] -> in256 ho -> in256 hp -> (4 <= c < 256)%nat -> (fv = true -> hp = hv) ->
  exists kv1 h1 kv2 h2, old_step (top p) ho = Ok (Some (kv1, h1)) /\ in256 h1 /\
  new_step kv1 hp fv = Ok (Go (kv2, h2, false)) /\ in256 h2 /\
  forall f o m, written f [kv2] -> (if fv then vrep f hp o else o = None) -> rep f c (if fv then ho else hp) m ->
    rep f c h2 (ext_map p o m).
Proof.
  intros Hp Hne Rho Rhp Hc Hfv. destruct p as [|a [|a' p]]; [contradiction| |].
  - pose proof (nibble_1 a [] Hp) as Ha. cbn [top].
    destruct (old_branch_step 0 (mk_kv KV_TYPE_SHARE [a] [a] (TYPE_BRANCH new_branch) 0) new_branch ho eq_refl branch_new
      ltac:(lia) Rho eq_refl (Forall_cons _ Ha (Forall_nil _))) as (b1 & h1 & S1 & R1 & B1 & V1 & N1). cbn [keyOld] in N1.
    set (kv1 := set_hashValue _ h1) in S1.
    destruct (new_branch_step 1 kv1 b1 a [] hp fv eq_refl B1 ltac:(lia) Rhp eq_refl eq_refl Ha)
      as (b2 & h2 & S2 & R2 & C2 & B2 & V2 & N2).
    { intros Hf. rewrite V1, value_new, (Hfv Hf). apply not_same. }
    eexists _, h1, _, h2. split; [exact S1|]. split; [exact R1|]. split; [exact S2|]. split; [exact R2|].
    intros f o m W Ho Hm. inversion_clear W as [|? ? [W1 W2] _].
    eapply rep_of_branch; [apply (branch_mono 2); [lia|exact B2]|exact C2|exact W2|exact W1|apply branch_map_ext; exact Ha| |]; intros i Hi.
    + rewrite V2, V1, value_new by exact Hi. destruct (i =? a), fv; cbn [andb]; try reflexivity; [exact Ho|now rewrite Ho].
    + rewrite N2, N1, next_new by exact Hi. destruct (i =? a), fv; cbn [andb negb]; try exact Hm; try now apply rep_empty.
      destruct (Z.eqb_spec ho 0) as [E|]; cbn [negb]; [rewrite <- E|]; exact Hm.
  - destruct (set_key_ok (a :: a' :: p) Hp ltac:(discriminate)) as (He & Hg & Hx & Hy).
    set (q := a :: a' :: p) in *. change (top q) with (mk_kv KV_TYPE_SHARE q q (TYPE_EXTENSION (SetKey new_extension q)) 0).
    set (e := SetKey new_extension q) in *.
    destruct (old_ext_step (mk_kv KV_TYPE_SHARE q q (TYPE_EXTENSION e) 0) e ho eq_refl He Rho eq_refl) as (h1 & S1 & R1 & E1).
    cbv zeta in *. set (kv1 := set_hashValue _ h1) in S1.
    destruct (new_ext_step kv1 _ hp fv eq_refl E1 Rhp eq_refl) as (h2 & S2 & R2 & C2 & E2).
    { intros Hf. rewrite (Hfv Hf). destruct (negb (ho =? 0)); autorewrite with trie; rewrite Hy; apply not_same. }
    cbv zeta in *. eexists _, h1, _, h2. split; [exact S1|]. split; [exact R1|]. split; [exact S2|]. split; [exact R2|].
    intros f o m W Ho Hm. inversion_clear W as [|? ? [W1 W2] _].
    eapply rep_of_ext with (ov := o) (mn := m); [exact E2|exact C2|exact W2|exact W1| | |].
    + intros k. destruct fv, (negb (ho =? 0)); autorewrite with trie; now rewrite Hg.
    + destruct fv, (negb (ho =? 0)); autorewrite with trie; try exact Ho; rewrite Hy, Ho; reflexivity.
    + destruct fv; [|destruct (negb (ho =? 0)); autorewrite with trie; exact Hm].
      destruct (Z.eqb_spec ho 0) as [E|]; cbn [negb]; autorewrite with trie; [rewrite Hx, <- E|]; exact Hm.
Qed.

Lemma top_next_ok p kvs F c m : key_ok p -> p <> [] -> (4 <= c < 256)%nat -> path_rep kvs F c m ->
  path_rep (top p :: kvs) F c (ext_map p None m).
Proof.
  intros Hp Hne Hc (t1 & ho & t2 & hp & E1 & R1 & E2 & R2 & H).
  destruct (top_ok p c ho hp false Hp Hne R1 R2 Hc ltac:(discriminate)) as (kv1 & h1 & kv2 & h2 & S1 & R3 & S2 & R4 & T).
  eexists _, h1, _, h2. split; [eapply old_pass_cons; eauto|]. split; [exact R3|]. split; [eapply new_pass_cons; eauto|].
  split; [exact R4|]. intros f W V HF. inversion_clear W as [|? ? W1 W2].
  apply T; [repeat constructor; apply W1|reflexivity|apply H; assumption].
Qed.

Lemma top_value_ok p eo e c ov mn : key_ok p -> p <> [] -> key_ok eo -> eo <> [] -> ext_ok e -> (4 <= c < 256)%nat ->
  exists old, old_tail eo e = Ok old /\
  path_rep (top p :: old) (fun f => links f c e ov mn) c (ext_map p (stored v) (ext_map eo ov mn)).
Proof.
  intros Hp Hne Heo Hneo He Hc.
  destruct (old_tail_ok eo e c Heo Hneo He ltac:(lia)) as (kv & kv1 & ho & F1 & F2 & F3 & F4 & F5).
  destruct (top_ok p c ho hv true Hp Hne F3 hv_range Hc ltac:(auto)) as (kt1 & h1 & kt2 & h2 & S1 & R3 & S2 & R4 & T).
  exists [kv]. split; [exact F1|]. eexists _, h1, _, h2.
  split; [eapply old_pass_cons; [eapply old_pass_cons; [reflexivity|exact F2]|exact S1]|]. split; [exact R3|].
  split; [eapply new_pass_cons; [eapply new_pass_cons; [reflexivity|apply F4]|exact S2]|]. split; [exact R4|].
  intros f W V [L1 L2]. inversion_clear W as [|? ? W1 W2].
  apply T; [repeat constructor; apply W1|exact V|apply F5; auto].
Qed.

Lemma set_below p eo sn ov mn : sn <> [] -> eo <> [] -> forall k,
  map_set (ext_map (p ++ eo) ov mn) (p ++ sn) v k = ext_map p None (map_set (ext_map eo ov mn) sn v) k.
Proof.
  intros Hs He k. unfold map_set, ext_map. rewrite strip_comp. destruct (strip p k) as [r|] eqn:E.
  - apply strip_some in E. subst k. destruct (list_eqb_spec (p ++ r) (p ++ sn)) as [E|E].
    + apply app_inv_head in E. subst r. destruct sn; [contradiction|]. destruct (list_eqb_spec (z :: sn) (z :: sn)); [reflexivity|easy].
    + destruct r as [|i r]; [destruct eo; [contradiction|reflexivity]|].
      destruct (list_eqb_spec (i :: r) sn) as [<-|]; [contradiction|reflexivity].
  - destruct (list_eqb_spec k (p ++ sn)) as [->|]; [|reflexivity]. rewrite strip_app in E. discriminate.
Qed.

Lemma set_here p eo ov mn : eo <> [] -> forall k,
  map_set (ext_map (p ++ eo) ov mn) p v k = ext_map p (stored v) (ext_map eo ov mn) k.
Proof.
  intros He k. unfold map_set, ext_map. rewrite strip_comp. destruct (strip p k) as [r|] eqn:E.
  - apply strip_some in E. subst k. destruct (list_eqb_spec (p ++ r) p) as [E|E].
    + rewrite <- (app_nil_r p) in E at 2. apply app_inv_head in E. now subst r.
    + destruct r; [rewrite app_nil_r in E; contradiction|reflexivity].
  - destruct (list_eqb_spec k p) as [->|]; [|reflexivity]. rewrite <- (app_nil_r p) in E at 2. rewrite strip_app in E. discriminate.
Qed.

Lemma same_len_spec s : forall b, exists p s' b', s = p ++ s' /\ b = p ++ b' /\ same_len s b = length p /\
  match s', b' with x :: _, y :: _ => x <> y | _, _ => True end.
Proof.
  induction s as [|x s IH]; intros b; [exists [], [], b; auto|]. destruct b as [|y b]; [exists [], (x :: s), []; auto|].
  cbn [same_len]. destruct (Z.eqb_spec x y) as [->|Hne].
  - destruct (IH b) as (p & s' & b' & -> & -> & E & H). exists (y :: p), s', b'. cbn [length]. auto.
  - exists [], (x :: s), (y :: b). auto.
Qed.

(** [split_extension] once the common part [p] is known: the node of [p], then the
    two rests. *)
Lemma split_extension_top p eo sn e : p <> [] -> eo <> [] -> same_len (p ++ sn) (p ++ eo) = length p ->
  split_extension (p ++ sn) (p ++ eo) e =
  let! (eo, sn, nodes) :=
    match eo, sn with
    | _ :: eo', _ :: sn' => let! kb := fork_branch eo sn e in Ok (eo', sn', [top p; kb])
    | _, _ => Ok (eo, sn, [top p])
    end in
  let! old := old_tail eo e in Ok (nodes ++ old ++ new_tail sn).
Proof.
  intros Hp He Hl. unfold split_extension. rewrite Hl.
  assert (SK : forall q : list Z, skipn (length p) (p ++ q) = q)
    by (intros q; now rewrite skipn_app, skipn_all, Nat.sub_diag).
  assert (FK : forall q : list Z, firstn (length p) (p ++ q) = p)
    by (intros q; rewrite firstn_app, firstn_all, Nat.sub_diag; apply app_nil_r).
  destruct p as [|a [|a' p]]; [contradiction| |].
  - cbn [length app skipn]. destruct eo as [|o eo]; [contradiction|]. reflexivity.
  - set (q := a :: a' :: p) in *. assert (Eq : length q = S (S (length p))) by reflexivity.
    rewrite Eq. cbv iota. rewrite <- Eq, !SK, !FK.
    replace (Nat.eqb (length (q ++ eo)) (length q)) with false; [reflexivity|].
    symmetry. apply Nat.eqb_neq. rewrite length_app. destruct eo; [contradiction|cbn [length]; lia].
Qed.

Lemma split_ok ek sk e c ov mn : key_ok ek -> key_ok sk -> sk <> [] -> ext_ok e -> (forall r, sk <> ek ++ r) ->
  (4 <= c < 256)%nat -> exists nodes, split_extension sk ek e = Ok nodes /\
  path_rep nodes (fun f => links f c e ov mn) c (map_set (ext_map ek ov mn) sk v).
Proof.
  intros Hek Hsk Hne He Hnp Hc. destruct (same_len_spec sk ek) as (p & sn & eo & -> & -> & El & Hd).
  assert (Heo : eo <> []) by (intros ->; rewrite app_nil_r in Hnp; now apply (Hnp sn)).
  pose proof (key_ok_skip (length p) _ Hek) as Keo. pose proof (key_ok_skip (length p) _ Hsk) as Ksn.
  rewrite skipn_app, skipn_all, Nat.sub_diag in Keo, Ksn. cbn [skipn app] in Keo, Ksn.
  assert (Kp : key_ok p).
  { pose proof (key_ok_first (length p) _ Hek) as H. rewrite firstn_app, firstn_all, Nat.sub_diag in H. cbn [firstn] in H.
    now rewrite app_nil_r in H. }
  destruct p as [|a p].
  - cbn [app] in *. destruct sn as [|n sn]; [contradiction|]. destruct eo as [|o eo]; [contradiction|].
    destruct (fork_ok o eo n sn e c ov mn Keo Ksn He ltac:(congruence) Hc) as (kb & old & E1 & E2 & P).
    exists (kb :: old ++ new_tail sn). split; [|exact P]. unfold split_extension. rewrite El. cbn [length].
    rewrite E1. cbn [bind skipn]. now rewrite E2.
  - rewrite split_extension_top by (exact Heo || discriminate || exact El).
    destruct eo as [|o eo]; [contradiction|]. destruct sn as [|n sn].
    + destruct (top_value_ok (a :: p) (o :: eo) e c ov mn Kp ltac:(discriminate) Keo Heo He Hc) as (old & E & P).
      exists (top (a :: p) :: old). cbn [bind]. rewrite E. cbn [bind new_tail app]. rewrite !app_nil_r.
      split; [reflexivity|]. eapply path_rep_weaken; [exact P|auto|]. intros k. now apply (set_here (a :: p)).
    + destruct (fork_ok o eo n sn e c ov mn Keo Ksn He ltac:(congruence) Hc) as (kb & old & E1 & E2 & P).
      exists (top (a :: p) :: kb :: old ++ new_tail sn). rewrite E1. cbn [bind]. rewrite E2. split; [reflexivity|].
      eapply path_rep_weaken; [apply (top_next_ok (a :: p)); [exact Kp|discriminate|exact Hc|exact P]|auto|].
      intros k. now apply (set_below (a :: p)).
Qed.

(** ** Nodes that stay on the path *)

Lemma old_branch_keep c kv b ho : value kv = TYPE_BRANCH b -> branch_ok c b -> is_new kv = false -> keyOld kv = [] ->
  exists h, old_step kv ho = Ok (Some (set_hashValue (set_value kv (TYPE_BRANCH b)) h, h)) /\ in256 h.
Proof.
  intros Ev Hb Hn Hk. unfold Trie.old_step. rewrite Ev, Hn, Hk. cbn [bind].
  destruct (calc_value_hash c (set_value kv (TYPE_BRANCH b)) Hb) as (h & Eh & Rh & Ec). rewrite Ec. exists h. auto.
Qed.

Lemma path_same_cons kv kvs : (forall ho, in256 ho -> exists kv1 h, old_step kv ho = Ok (Some (kv1, h)) /\ in256 h) ->
  path_same kvs -> path_same (kv :: kvs).
Proof.
  intros Hk (t1 & ho & E1 & R1 & E2). destruct (Hk ho R1) as (kv1 & h & S1 & R2). exists (kv1 :: t1), h.
  split; [eapply old_pass_cons; eauto|]. split; [exact R2|]. cbn [Trie.new_pass]. now rewrite E2.
Qed.

Definition share_branch (n : Z) (b : CTrieBranch) : CTrieKeyValue := mk_kv KV_TYPE_SHARE [] [n] (TYPE_BRANCH b) 0.
Definition share_ext (e : CTrieExtension) : CTrieKeyValue :=
  mk_kv KV_TYPE_SHARE (GetKey e) (GetKey e) (TYPE_EXTENSION e) 0.

Lemma share_branch_next c n b kvs F m vs ns : branch_ok c b -> nibble n -> (c < 255)%nat -> path_rep kvs F (S c) m ->
  path_rep (share_branch n b :: kvs)
    (fun f => F f /\ (forall i, nibble i -> vrep f (value_of b i) (vs i)) /\
              forall i, nibble i -> i <> n -> rep f (S c) (next_of b i) (ns i))
    (S c) (branch_map vs (fun i => if i =? n then m else ns i)).
Proof.
  intros Hb Hn Hc (t1 & ho & t2 & hp & E1 & R1 & E2 & R2 & H).
  destruct (old_branch_keep c (share_branch n b) b ho eq_refl Hb eq_refl eq_refl) as (h1 & S1 & R3).
  set (kv1 := set_hashValue _ h1) in S1.
  destruct (new_branch_step c kv1 b n [] hp false eq_refl Hb Hc R2 eq_refl eq_refl Hn ltac:(discriminate))
    as (b2 & h2 & S2 & R4 & C2 & B2 & V2 & N2).
  eexists _, h1, _, h2. split; [eapply old_pass_cons; eauto|]. split; [exact R3|].
  split; [eapply new_pass_cons; eauto|]. split; [exact R4|]. intros f W V (HF & HV & HN).
  inversion_clear W as [|? ? [W1 W2] W3].
  eapply rep_of_branch; [exact B2|exact C2|exact W2|exact W1|reflexivity| |]; intros i Hi.
  - rewrite V2 by exact Hi. cbn [andb]. apply HV, Hi.
  - rewrite N2 by exact Hi. cbn [negb andb]. destruct (Z.eqb_spec i n); [apply H; assumption|apply HN; assumption].
Qed.

Lemma share_branch_value c n b vs ns : branch_ok c b -> nibble n -> (c < 255)%nat ->
  (path_same [share_branch n b] /\ hv <> 0 /\ value_of b n = hv) \/
  path_rep [share_branch n b]
    (fun f => (forall i, nibble i -> i <> n -> vrep f (value_of b i) (vs i)) /\
              forall i, nibble i -> rep f (S c) (next_of b i) (ns i))
    (S c) (branch_map (fun i => if i =? n then stored v else vs i) ns).
Proof.
  intros Hb Hn Hc. assert (R0 : in256 0) by (unfold in256; lia).
  destruct (old_branch_keep c (share_branch n b) b 0 eq_refl Hb eq_refl eq_refl) as (h1 & S1 & R3).
  set (kv1 := set_hashValue _ h1) in S1.
  pose proof (old_pass_cons (share_branch n b) [] [] 0 kv1 h1 eq_refl S1) as E1.
  destruct (negb (hv =? 0) && (value_of b n =? hv)) eqn:Es.
  - left. split; [|apply andb_true_iff in Es; destruct Es as [Es1 Es2]; apply Z.eqb_eq in Es2;
      apply negb_true_iff, Z.eqb_neq in Es1; auto].
    exists [kv1], h1. split; [exact E1|]. split; [exact R3|]. cbn [Trie.new_pass bind].
    unfold Trie.new_step. subst kv1. cbn [value set_hashValue set_value share_branch is_old nKvType keyNew].
    rewrite (branch_value c b n Hb Hn). cbn [bind]. now rewrite Es.
  - right. destruct (new_branch_step c kv1 b n [] hv true eq_refl Hb Hc hv_range eq_refl eq_refl Hn (fun _ => Es))
      as (b2 & h2 & S2 & R4 & C2 & B2 & V2 & N2).
    eexists _, h1, _, h2. split; [exact E1|]. split; [exact R3|].
    split; [eapply new_pass_cons; [reflexivity|exact S2]|]. split; [exact R4|]. intros f W V (HV & HN).
    inversion_clear W as [|? ? [W1 W2] W3].
    eapply rep_of_branch; [exact B2|exact C2|exact W2|exact W1|reflexivity| |]; intros i Hi.
    + rewrite V2 by exact Hi. cbn [andb]. destruct (Z.eqb_spec i n); [exact V|apply HV; assumption].
    + rewrite N2 by exact Hi. cbn [negb andb]. apply HN, Hi.
Qed.

Lemma share_ext_next c e kvs F m ov : ext_ok e -> path_rep kvs F c m ->
  path_rep (share_ext e :: kvs) (fun f => F f /\ vrep f (ExtGetValueHash e) ov) c (ext_map (GetKey e) ov m).
Proof.
  intros He (t1 & ho & t2 & hp & E1 & R1 & E2 & R2 & H).
  destruct (old_ext_step (share_ext e) e ho eq_refl He R1 eq_refl) as (h1 & S1 & R3 & X1). cbv zeta in *.
  set (kv1 := set_hashValue _ h1) in S1.
  destruct (new_ext_step kv1 _ hp false eq_refl X1 R2 eq_refl ltac:(discriminate)) as (h2 & S2 & R4 & C2 & X2). cbv zeta in *.
  eexists _, h1, _, h2. split; [eapply old_pass_cons; eauto|]. split; [exact R3|].
  split; [eapply new_pass_cons; eauto|]. split; [exact R4|]. intros f W V (HF & HV).
  inversion_clear W as [|? ? [W1 W2] W3].
  eapply rep_of_ext with (ov := ov) (mn := m); [exact X2|exact C2|exact W2|exact W1| | |]; destruct (negb (ho =? 0));
    autorewrite with trie; auto.
Qed.

Lemma share_ext_value c e ov mn : ext_ok e ->
  (path_same [share_ext e] /\ hv <> 0 /\ ExtGetValueHash e = hv) \/
  path_rep [share_ext e] (fun f => rep f c (ExtGetNextHash e) mn) c (map_set (ext_map (GetKey e) ov mn) (GetKey e) v).
Proof.
  intros He. assert (R0 : in256 0) by (unfold in256; lia).
  destruct (old_ext_step (share_ext e) e 0 eq_refl He R0 eq_refl) as (h1 & S1 & R3 & X1). cbv zeta in *.
  change (negb (0 =? 0)) with false in *. cbv iota in *. set (kv1 := set_hashValue _ h1) in S1.
  pose proof (old_pass_cons (share_ext e) [] [] 0 kv1 h1 eq_refl S1) as E1.
  destruct (negb (hv =? 0) && (ExtGetValueHash e =? hv)) eqn:Es.
  - left. split; [|apply andb_true_iff in Es; destruct Es as [Es1 Es2]; apply Z.eqb_eq in Es2;
      apply negb_true_iff, Z.eqb_neq in Es1; auto].
    exists [kv1], h1. split; [exact E1|]. split; [exact R3|]. cbn [Trie.new_pass bind].
    unfold Trie.new_step. subst kv1. cbn [value set_hashValue set_value share_ext is_old nKvType keyNew]. now rewrite Es.
  - right. destruct (new_ext_step kv1 e hv true eq_refl X1 hv_range eq_refl (fun _ => Es)) as (h2 & S2 & R4 & C2 & X2). cbv zeta in *.
    eexists _, h1, _, h2. split; [exact E1|]. split; [exact R3|].
    split; [eapply new_pass_cons; [reflexivity|exact S2]|]. split; [exact R4|]. intros f W V HN.
    inversion_clear W as [|? ? [W1 W2] W3].
    eapply rep_of_ext with (ov := stored v) (mn := mn); [exact X2|exact C2|exact W2|exact W1| | |]; autorewrite with trie; auto.
    intros k. unfold map_set. destruct (list_eqb_spec k (GetKey e)) as [->|Hne].
    + unfold ext_map. rewrite <- (app_nil_r (GetKey e)) at 2. now rewrite strip_app.
    + unfold ext_map. destruct (strip (GetKey e) k) as [[|i r]|] eqn:E; try reflexivity.
      apply strip_some in E. now rewrite app_nil_r in E.
Qed.

End Value.
End Add.
