(* ===== verification/TriePath.v ===== *)
(** * AddNode stores a value

    The path [GetNodePath] returns, rewritten by the two loops, represents the updated
    map; [AddNode] then removes the replaced nodes from the cache and enters the new
    ones.  A removed node may still be needed elsewhere in the trie when it occurs
    twice, which different values exclude. *)

From Stdlib Require Import ZArith List Lia Bool.
From S2P Require Import Prelude Radix Stream OrdMap TrieNode TrieNodeOk Trie TrieRep TrieAdd.
Import ListNotations.
Local Open Scope Z_scope.

Section Path.
Variable CryptoHash : list Z -> Z.
Context {HR : Hash256 CryptoHash}.
Abbreviation rep := (rep CryptoHash).
Abbreviation vrep := (vrep CryptoHash).

(** The values of [f], and the nodes below [h] beside the path of [key], are in [f']. *)
Definition frame (f f' : Z -> option CTrieValue) (h : Z) (key : list Z) : Prop :=
  (forall r d, f r = Some (TYPE_VALUE d) -> data_ok d -> CryptoHash (GetStream (TYPE_VALUE d)) = r -> f' r = f r) /\
  (forall p r, reach f h p r -> (forall s, s <> [] -> p ++ s <> key) -> f' r = f r).

Section Frame.
Variables f f' : Z -> option CTrieValue.
Variable h : Z.
Hypothesis Hh : h <> 0.

Lemma frame_value key x o : frame f f' h key -> vrep f x o -> vrep f' x o.
Proof. intros [H _] Hx. eapply vrep_frame; eauto. Qed.

Lemma frame_branch b n key : f h = Some (TYPE_BRANCH b) -> nibble n -> frame f f' h (n :: key) -> frame f f' (next_of b n) key.
Proof.
  intros Hb Hn [H1 H2]. split; [exact H1|]. intros p r Hr Hp. eapply H2; [eapply reach_branch; eauto|].
  intros s Hs [= E]. now apply (Hp s).
Qed.

Lemma frame_branch_side b n i c m key : f h = Some (TYPE_BRANCH b) -> nibble i -> i <> n \/ key = [] ->
  frame f f' h (n :: key) -> rep f c (next_of b i) m -> rep f' c (next_of b i) m.
Proof.
  intros Hb Hi Hn [H1 H2] Hm. eapply rep_frame; [exact Hm|exact H1|]. intros p r Hr. eapply H2; [eapply reach_branch; eauto|].
  intros s Hs [= E1 E2]. destruct Hn as [Hn| ->]; [contradiction|]. apply app_eq_nil in E2. tauto.
Qed.

Lemma frame_ext e key : f h = Some (TYPE_EXTENSION e) -> frame f f' h (GetKey e ++ key) -> frame f f' (ExtGetNextHash e) key.
Proof.
  intros Hb [H1 H2]. split; [exact H1|]. intros p r Hr Hp. eapply H2; [eapply reach_ext; eauto|].
  intros s Hs E. rewrite <- app_assoc in E. apply app_inv_head in E. now apply (Hp s).
Qed.

Lemma frame_ext_side e c m key : f h = Some (TYPE_EXTENSION e) -> (forall s, s <> [] -> key <> GetKey e ++ s) ->
  frame f f' h key -> rep f c (ExtGetNextHash e) m -> rep f' c (ExtGetNextHash e) m.
Proof.
  intros Hb Hk [H1 H2] Hm. eapply rep_frame; [exact Hm|exact H1|]. intros p r Hr. eapply H2; [eapply reach_ext; eauto|].
  intros s Hs E. rewrite <- app_assoc in E. apply (Hk (p ++ s)); [|now symmetry].
  intros E'. apply app_eq_nil in E'. tauto.
Qed.

End Frame.

Section Walk.
Context {E : Type} `{CKVDBEngine E}.
Variable db : E.
Variable cache : cache_t.
Variable v : list Z.
Variable hv : Z.
Hypothesis Hv : CalcHash CryptoHash (TYPE_VALUE v) = Ok hv.
Variable c : nat.
Hypothesis Hc : (3 <= c < 255)%nat.

Definition fetch (db : E) (cache : cache_t) (h : Z) : option CTrieValue :=
  match GetNodeValue db h cache with Some (x, _) => Some x | None => None end.
Abbreviation f := (fetch db cache).

(** The value is already there, under a hash that is the same. *)
Definition same_value (m : kmap) (key : list Z) : Prop :=
  exists d, m key = Some d /\ hv <> 0 /\ f hv = Some (TYPE_VALUE d) /\ CryptoHash (GetStream (TYPE_VALUE d)) = hv.

Definition updated (h : Z) (key : list Z) (m : kmap) (kvs : list CTrieKeyValue) : Prop :=
  (path_same CryptoHash hv kvs /\ same_value m key) \/
  path_rep CryptoHash v hv kvs (fun f' => frame f f' h key) (S c) (map_set m key v).

Lemma same_of_vrep m key x o : m key = o -> vrep f x o -> hv <> 0 -> x = hv -> same_value m key.
Proof.
  intros Hm Hx H0 ->. destruct o as [d|]; [|contradiction]. destruct Hx as (_ & _ & _ & Hf & Hd). exists d. auto.
Qed.

Lemma set_empty m key : (forall k, m k = None) -> forall k, map_set m key v k = ext_map key (stored v) no_map k.
Proof. intros Hm k. rewrite ext_single. unfold map_set. now rewrite Hm. Qed.

Lemma updated_new h key m : (forall k, m k = None) -> key_ok key -> key <> [] -> updated h key m (new_tail key).
Proof.
  intros Hm Hk Hne. right.
  destruct (new_tail_ok CryptoHash v hv Hv key (S c) Hk Hne ltac:(lia)) as (E1 & t2 & hp & E2 & R & HT).
  exists (new_tail key), 0, t2, hp. split; [exact E1|]. split; [unfold in256; lia|]. split; [exact E2|]. split; [exact R|].
  intros f' W V _. eapply rep_eq; [apply HT; assumption|]. now apply set_empty.
Qed.

(** ** One node of the path *)

Lemma branch_end h b n vs ns m : h <> 0 -> f h = Some (TYPE_BRANCH b) -> branch_ok c b -> nibble n ->
  (forall k, m k = branch_map vs ns k) -> (forall i, nibble i -> vrep f (value_of b i) (vs i)) ->
  (forall i, nibble i -> rep f c (next_of b i) (ns i)) -> updated h [n] m [share_branch n b].
Proof.
  intros Hh Hf Hb Hn Hm HV HN.
  destruct (share_branch_value CryptoHash v hv Hv c n b vs ns Hb Hn ltac:(lia)) as [(S & H0 & Es)|P].
  - left. split; [exact S|]. eapply same_of_vrep; [reflexivity| |exact H0|exact Es]. rewrite Hm. cbn [branch_map].
    rewrite (proj1 (nibble_b n) Hn). apply HV, Hn.
  - right. eapply path_rep_weaken; [exact P| |].
    + intros f' HF. split; [intros i Hi _; eapply frame_value; eauto|]. intros i Hi.
      eapply frame_branch_side; eauto. apply (rep_mono _ _ c); [lia|apply HN, Hi].
    + intros k. unfold map_set. rewrite Hm. unfold branch_map. destruct k as [|i k]; [reflexivity|]. cbn [list_eqb].
      destruct (Z.eqb_spec i n) as [->|]; cbn [andb].
      * rewrite (proj1 (nibble_b n) Hn). destruct k; reflexivity.
      * destruct (_ && _), k; reflexivity.
Qed.

Lemma branch_more h b n key vs ns m kvs : h <> 0 -> f h = Some (TYPE_BRANCH b) -> branch_ok c b -> nibble n ->
  key <> [] -> (forall k, m k = branch_map vs ns k) -> (forall i, nibble i -> vrep f (value_of b i) (vs i)) ->
  (forall i, nibble i -> rep f c (next_of b i) (ns i)) ->
  updated (next_of b n) key (ns n) kvs -> updated h (n :: key) m (share_branch n b :: kvs).
Proof.
  intros Hh Hf Hb Hn Hk Hm HV HN [(S & d & Hd & R)|P].
  - left. split.
    + eapply path_same_cons; [|exact S]. intros ho _.
      destruct (old_branch_keep CryptoHash c (share_branch n b) b ho eq_refl Hb eq_refl eq_refl) as (h1 & S1 & R1). eauto.
    + exists d. split; [|exact R]. rewrite Hm. cbn [branch_map]. rewrite (proj1 (nibble_b n) Hn).
      destruct key; [contradiction|exact Hd].
  - right. eapply path_rep_weaken; [apply (share_branch_next CryptoHash v hv c n b kvs _ _ vs ns Hb Hn ltac:(lia) P)| |].
    + intros f' HF. split; [eapply frame_branch; eauto|]. split; [intros i Hi; eapply frame_value; eauto|].
      intros i Hi Hin. apply (frame_branch_side f f' h Hh b n i (S c) (ns i) key Hf Hi (or_introl Hin) HF). apply (rep_mono _ _ c); [lia|apply HN, Hi].
    + intros k. unfold map_set. rewrite Hm. unfold branch_map. destruct k as [|i k]; [reflexivity|]. cbn [list_eqb].
      destruct (Z.eqb_spec i n) as [->|]; cbn [andb].
      * rewrite (proj1 (nibble_b n) Hn). destruct k; [destruct key; [contradiction|reflexivity]|reflexivity].
      * destruct (_ && _), k; reflexivity.
Qed.

Lemma ext_end h e ov mn m : h <> 0 -> f h = Some (TYPE_EXTENSION e) -> ext_ok e ->
  (forall k, m k = ext_map (GetKey e) ov mn k) -> vrep f (ExtGetValueHash e) ov -> rep f c (ExtGetNextHash e) mn ->
  updated h (GetKey e) m [share_ext e].
Proof.
  intros Hh Hf He Hm HV HN. destruct (share_ext_value CryptoHash v hv Hv (S c) e ov mn He) as [(S & H0 & Es)|P].
  - left. split; [exact S|]. eapply same_of_vrep; [|exact HV|exact H0|exact Es]. rewrite Hm. unfold ext_map.
    rewrite <- (app_nil_r (GetKey e)) at 2. now rewrite strip_app.
  - right. eapply path_rep_weaken; [exact P| |].
    + intros f' HF. eapply (frame_ext_side f f' h Hh e (S c) mn (GetKey e)); [exact Hf| |exact HF|].
      * intros s Hs Ek. rewrite <- (app_nil_r (GetKey e)) in Ek at 1. apply app_inv_head in Ek. now subst s.
      * apply (rep_mono _ _ c); [lia|exact HN].
    + intros k. unfold map_set. now rewrite Hm.
Qed.

Lemma ext_more h e key ov mn m kvs : h <> 0 -> f h = Some (TYPE_EXTENSION e) -> ext_ok e -> key <> [] ->
  (forall k, m k = ext_map (GetKey e) ov mn k) -> vrep f (ExtGetValueHash e) ov ->
  updated (ExtGetNextHash e) key mn kvs -> updated h (GetKey e ++ key) m (share_ext e :: kvs).
Proof.
  intros Hh Hf He Hk Hm HV [(S & d & Hd & R)|P].
  - left. split.
    + eapply path_same_cons; [|exact S]. intros ho Rho.
      destruct (old_ext_step CryptoHash (share_ext e) e ho eq_refl He Rho eq_refl) as (h1 & S1 & R1 & _). eauto.
    + exists d. split; [|exact R]. rewrite Hm. unfold ext_map. rewrite strip_app. destruct key; [contradiction|exact Hd].
  - right. eapply path_rep_weaken; [apply (share_ext_next CryptoHash v hv (S c) e kvs _ _ ov He P)| |].
    + intros f' HF. split; [eapply frame_ext; eauto|eapply frame_value; eauto].
    + intros k. unfold map_set. rewrite Hm. unfold ext_map. destruct (strip (GetKey e) k) as [r|] eqn:Er.
      * apply strip_some in Er. subst k. destruct (list_eqb_spec (GetKey e ++ r) (GetKey e ++ key)) as [Ek|Ek].
        -- apply app_inv_head in Ek. subst r. destruct key; [contradiction|].
           destruct (list_eqb_spec (z :: key) (z :: key)); [reflexivity|easy].
        -- destruct r as [|i r]; [reflexivity|]. destruct (list_eqb_spec (i :: r) key) as [<-|]; [contradiction|reflexivity].
      * destruct (list_eqb_spec k (GetKey e ++ key)) as [->|]; [|reflexivity]. rewrite strip_app in Er. discriminate.
Qed.

Lemma ext_split h e key ov mn m : h <> 0 -> f h = Some (TYPE_EXTENSION e) -> ext_ok e -> key_ok key -> key <> [] ->
  (forall r, key <> GetKey e ++ r) -> (forall k, m k = ext_map (GetKey e) ov mn k) ->
  vrep f (ExtGetValueHash e) ov -> rep f c (ExtGetNextHash e) mn ->
  exists nodes, split_extension key (GetKey e) e = Ok nodes /\ updated h key m nodes.
Proof.
  intros Hh Hf He Hk Hne Hp Hm HV HN.
  destruct (split_ok CryptoHash v hv Hv (GetKey e) key e (S c) ov mn (proj1 (ext_key_ok e He)) Hk Hne He Hp ltac:(lia)) as (nodes & E1 & P).
  exists nodes. split; [exact E1|]. right. eapply path_rep_weaken; [exact P| |].
  - intros f' HF. split; [eapply frame_value; eauto|].
    eapply (frame_ext_side f f' h Hh e (S c) mn key); [exact Hf|intros s _; apply Hp|exact HF|].
    apply (rep_mono _ _ c); [lia|exact HN].
  - intros k. unfold map_set. now rewrite Hm.
Qed.

(** ** The whole path *)

Lemma fetch_node h x : f h = Some x -> exists fc : bool, GetNodeValue db h cache = Some (x, fc).
Proof. unfold fetch. destruct (GetNodeValue db h cache) as [[y fc]|]; [intros [= ->]; eauto|discriminate]. Qed.

(** The replaced nodes: above the end of the key. *)
Definition on_path (h : Z) (key : list Z) (r : Z) : Prop := exists p s, s <> [] /\ key = p ++ s /\ reach f h p r.

Lemma on_path_here h key : h <> 0 -> key <> [] -> on_path h key h.
Proof. intros Hh Hk. exists [], key. split; [exact Hk|]. split; [reflexivity|now apply reach_here]. Qed.

Lemma removed_ok h key (fc : bool) rms : h <> 0 -> key <> [] -> Forall (on_path h key) rms ->
  Forall (on_path h key) ((if fc then [h] else []) ++ rms).
Proof. intros Hh Hk Hr. destruct fc; [constructor; [now apply on_path_here|]|]; exact Hr. Qed.

Lemma remove_app (fc : bool) h (rm : list Z) : (if fc then rm ++ [h] else rm) = rm ++ (if fc then [h] else []).
Proof. destruct fc; [reflexivity|now rewrite app_nil_r]. Qed.

(** [GetNodePath] from the node [h] with at most [fuel] nibbles left: the nodes it adds to the
    path update the map, and what it adds to the list of removed nodes is on the path. *)
Definition found (hashRoot : Z) (fuel : nat) (h : Z) (key : list Z) (m : kmap) (path : list CTrieKeyValue) (rm : list Z) : Prop :=
  exists kvs rms, get_node_path_loop fuel db hashRoot h key path rm cache = Ok (Some (path ++ kvs, rm ++ rms)) /\
  updated h key m kvs /\ Forall (on_path h key) rms.

Definition loop_ok (hashRoot : Z) (fuel : nat) : Prop := forall h m key path rm, rep f c h m -> key_ok key -> key <> [] ->
  (length key <= fuel)%nat -> h = hashRoot \/ h <> 0 -> found hashRoot fuel h key m path rm.

Lemma path_branch hashRoot fuel h b m vs ns n key path rm : loop_ok hashRoot fuel -> key_ok (n :: key) ->
  (length key <= fuel)%nat -> h <> 0 -> f h = Some (TYPE_BRANCH b) -> branch_ok c b ->
  (forall k, m k = branch_map vs ns k) -> (forall i, nibble i -> vrep f (value_of b i) (vs i)) ->
  (forall i, nibble i -> rep f c (next_of b i) (ns i)) -> found hashRoot (S fuel) h (n :: key) m path rm.
Proof.
  intros IH Hk Hl H0 H1 H3 H4 H5 H6. unfold found. cbn [get_node_path_loop].
  destruct (fetch_node h _ H1) as (fc & Ef). rewrite Ef. pose proof (nibble_1 n key Hk) as Hn. cbn [GetBranchPath].
  change (mk_kv KV_TYPE_SHARE [] [n] (TYPE_BRANCH b) 0) with (share_branch n b). rewrite remove_app. destruct key as [|n' key].
  + cbn [bind]. exists [share_branch n b], (if fc then [h] else []). split; [reflexivity|].
    split; [eapply branch_end; eauto|]. rewrite <- (app_nil_r (if fc then _ else _)). now apply removed_ok.
  + rewrite (branch_next c b n H3 Hn). cbn [bind]. destruct (Z.eqb_spec (next_of b n) 0) as [E0|E0]; cbn [negb bind].
    * exists (share_branch n b :: new_tail (n' :: key)), (if fc then [h] else []).
      split; [now rewrite <- app_assoc|]. split.
      -- eapply branch_more; eauto; [discriminate|]. apply updated_new; [|exact (key_ok_skip 1 _ Hk)|discriminate].
         specialize (H6 n Hn). rewrite E0 in H6. eapply rep_zero, H6.
      -- rewrite <- (app_nil_r (if fc then _ else _)). now apply removed_ok.
    * destruct (IH (next_of b n) (ns n) (n' :: key) (path ++ [share_branch n b]) (rm ++ (if fc then [h] else []))
        (H6 n Hn) (key_ok_skip 1 _ Hk) ltac:(discriminate) ltac:(cbn [length] in *; lia) (or_intror E0)) as (kvs & rms & E1 & U & R).
      exists (share_branch n b :: kvs), ((if fc then [h] else []) ++ rms). rewrite E1, <- !app_assoc. split; [reflexivity|].
      split; [eapply branch_more; eauto; discriminate|]. apply removed_ok; [exact H0|discriminate|].
      eapply Forall_impl; [|exact R]. intros r (p & s & Hs & Ep & Hr). exists (n :: p), s. split; [exact Hs|].
      split; [now rewrite Ep|eapply reach_branch; eauto].
Qed.

Lemma path_ext hashRoot fuel h e m ov mn n key path rm : loop_ok hashRoot fuel -> key_ok (n :: key) ->
  (length key <= fuel)%nat -> h <> 0 -> f h = Some (TYPE_EXTENSION e) -> ext_ok e ->
  (forall k, m k = ext_map (GetKey e) ov mn k) -> vrep f (ExtGetValueHash e) ov -> rep f c (ExtGetNextHash e) mn ->
  found hashRoot (S fuel) h (n :: key) m path rm.
Proof.
  intros IH Hk Hl H0 H1 H3 H4 H5 H6. unfold found. cbn [get_node_path_loop].
  destruct (fetch_node h _ H1) as (fc & Ef). rewrite Ef. unfold GetExtensionPath.
  change (mk_kv KV_TYPE_SHARE (GetKey e) (GetKey e) (TYPE_EXTENSION e) 0) with (share_ext e). rewrite remove_app.
  pose proof (prefix_test (GetKey e) (n :: key)) as Hp. destruct (_ && _).
  + set (rest := skipn (length (GetKey e)) (n :: key)) in *. destruct (ext_key_ok e H3) as [Kek Hek].
    assert (Kr : key_ok rest) by (apply key_ok_skip; exact Hk).
    destruct (Z.eqb_spec (ExtGetNextHash e) 0) as [E0|E0]; cbn [bind].
    * exists (share_ext e :: new_tail rest), (if fc then [h] else []).
      split; [now rewrite <- app_assoc|]. split.
      -- rewrite Hp. destruct rest as [|r0 rest']; [rewrite app_nil_r; eapply ext_end; eauto|].
         eapply ext_more; eauto; [discriminate|]. apply updated_new; [|exact Kr|discriminate].
         rewrite E0 in H6. eapply rep_zero, H6.
      -- rewrite <- (app_nil_r (if fc then _ else _)). now apply removed_ok.
    * destruct rest as [|r0 rest'] eqn:Er.
      -- exists [share_ext e], (if fc then [h] else []). destruct fuel; cbn [get_node_path_loop];
           (split; [reflexivity|]; split; [rewrite Hp, app_nil_r; eapply ext_end; eauto|];
            rewrite <- (app_nil_r (if fc then _ else _)); now apply removed_ok).
      -- assert (Hlr : (length (r0 :: rest') <= fuel)%nat).
         { apply (f_equal (@length Z)) in Hp. rewrite length_app in Hp. cbn [length] in *.
           destruct (GetKey e); [contradiction|cbn [length] in Hp; lia]. }
         destruct (IH (ExtGetNextHash e) mn (r0 :: rest') (path ++ [share_ext e]) (rm ++ (if fc then [h] else []))
           H6 Kr ltac:(discriminate) Hlr (or_intror E0)) as (kvs & rms & E1 & U & R).
         exists (share_ext e :: kvs), ((if fc then [h] else []) ++ rms). rewrite E1, <- !app_assoc. split; [reflexivity|].
         rewrite Hp. split; [eapply ext_more; eauto; discriminate|]. rewrite <- Hp. apply removed_ok; [exact H0|discriminate|].
         eapply Forall_impl; [|exact R]. intros r (p & s & Hs & Ep & Hr). exists (GetKey e ++ p), s. split; [exact Hs|].
         split; [now rewrite Hp, Ep, app_assoc|eapply reach_ext; eauto].
  + destruct (ext_split h e (n :: key) ov mn m H0 H1 H3 Hk ltac:(discriminate) Hp H4 H5 H6) as (nodes & E1 & U).
    rewrite E1. cbn [bind]. exists nodes, (if fc then [h] else []). split; [reflexivity|]. split; [exact U|].
    rewrite <- (app_nil_r (if fc then _ else _)). now apply removed_ok.
Qed.

Lemma path_loop hashRoot fuel : loop_ok hashRoot fuel.
Proof.
  induction fuel as [|fuel IH]; intros h m key path rm Hm Hk Hne Hl Hroot; [destruct key; [contradiction|cbn in Hl; lia]|].
  destruct key as [|n key]; [contradiction|]. cbn [length] in Hl.
  destruct Hm as [m Em|h b m vs ns H0 H1 H2 H3 H4 H5 H6|h e m ov mn H0 H1 H2 H3 H4 H5 H6].
  - unfold found. cbn [get_node_path_loop]. unfold GetNodeValue. destruct Hroot as [<-|]; [|congruence]. rewrite !Z.eqb_refl.
    exists (new_tail (n :: key)), []. rewrite app_nil_r. split; [reflexivity|]. split; [now apply updated_new|constructor].
  - eapply path_branch; eauto. lia.
  - eapply path_ext; eauto. lia.
Qed.

End Walk.
End Path.
