(* ===== verification/TrieUpdate.v ===== *)
(** * Updates of the trie against the map they implement

    [AddNode] on a cache and a database, [CreateTrieNodeList] over a list of pairs,
    [SaveCacheTrie] and [AddNewTrie]: each returns, and the root it returns represents
    the updated map.  The hash function must not give the same hash to two of the
    nodes at hand, nor the hash 0 to one of them. *)

From Stdlib Require Import ZArith List Lia Bool.
From S2P Require Import Prelude Radix Stream OrdMap TrieNode TrieNodeOk Trie TrieRep TrieAdd TriePath.
Import ListNotations.
Local Open Scope Z_scope.

#[export] Instance hash_order : StrictOrder Z.ltb.
Proof.
  split; intros *; rewrite ?Z.ltb_lt, ?Z.ltb_ge, ?Z.ltb_nlt; lia.
Qed.

(** ** The cache *)

Definition cache_ok (c : cache_t) : Prop := om_sorted Z.ltb c /\ Forall (fun p => in256 (fst p)) c.

Lemma cache_ok_nil : cache_ok [].
Proof. split; constructor. Qed.

Lemma cache_set_ok c h x : cache_ok c -> in256 h -> cache_ok (om_set Z.ltb h x c).
Proof.
  intros [H1 H2] Hh. split; [apply (om_set_sorted Z.ltb), H1|]. apply (om_set_forall Z.ltb); auto.
Qed.

Lemma cache_erase_ok c h : cache_ok c -> cache_ok (om_erase Z.ltb h c).
Proof.
  intros [H1 H2]. split; [apply (om_erase_sorted Z.ltb), H1|].
  eapply incl_Forall; [|exact H2]. apply om_erase_incl.
Qed.

Lemma erase_all_ok rms : forall c, cache_ok c -> cache_ok (fold_left (fun c h => om_erase Z.ltb h c) rms c) /\
  (forall h, ~ In h rms -> om_find Z.ltb h (fold_left (fun c h => om_erase Z.ltb h c) rms c) = om_find Z.ltb h c) /\
  incl (fold_left (fun c h => om_erase Z.ltb h c) rms c) c.
Proof.
  induction rms as [|r rms IH]; intros c Hc; cbn [fold_left]; [split; [exact Hc|split; [auto|apply incl_refl]]|].
  destruct (IH _ (cache_erase_ok c r Hc)) as (I1 & I2 & I3). split; [exact I1|]. split.
  - intros h Hh. cbn [In] in Hh. rewrite I2 by tauto. apply (om_find_erase_ne Z.ltb); [apply Hc|]. intros ->. tauto.
  - eapply incl_tran; [exact I3|apply om_erase_incl].
Qed.

(** The last node entered under a hash is found there. *)
Lemma cache_path_ok path : forall c, cache_ok c -> Forall (fun kv => in256 (hashValue kv)) path ->
  cache_ok (cache_path path c) /\
  (forall h, h <> 0 -> (forall kv, In kv path -> hashValue kv <> h) -> om_find Z.ltb h (cache_path path c) = om_find Z.ltb h c) /\
  (forall kv, In kv path -> hashValue kv <> 0 -> exists kv', In kv' path /\ hashValue kv' = hashValue kv /\
     om_find Z.ltb (hashValue kv) (cache_path path c) = Some (value kv')) /\
  (forall p, In p (cache_path path c) -> In p c \/ exists kv, In kv path /\ hashValue kv <> 0 /\ p = (hashValue kv, value kv)).
Proof.
  induction path as [|kv path IH]; intros c Hc Hr; [split; [exact Hc|split; [auto|split; [easy|now left]]]|]. inversion_clear Hr as [|? ? Hk Hr'].
  unfold cache_path. cbn [fold_left].
  set (c1 := if negb (hashValue kv =? 0) then om_set Z.ltb (hashValue kv) (value kv) c else c).
  assert (Hc1 : cache_ok c1) by (unfold c1; destruct (negb _); [now apply cache_set_ok|exact Hc]).
  destruct (IH c1 Hc1 Hr') as (I1 & I2 & I3 & I4). fold (cache_path path c1). split; [exact I1|]. split; [|split].
  - intros h Hh Hn. rewrite I2; [|exact Hh|intros kv' Hi; apply Hn; now right]. unfold c1. destruct (negb _); [|reflexivity].
    apply (om_find_set_ne Z.ltb); [apply Hc|]. intros ->. apply (Hn kv); [now left|reflexivity].
  - intros kv0 Hi Hn. destruct (in_dec Z.eq_dec (hashValue kv0) (map hashValue path)) as [Hin|Hout].
    + apply in_map_iff in Hin. destruct Hin as (kv1 & E1 & Hin). destruct (I3 kv1 Hin ltac:(congruence)) as (kv2 & A & B & C).
      exists kv2. split; [now right|]. rewrite <- E1. auto.
    + destruct Hi as [->|Hi]; [|contradiction Hout; now apply in_map]. exists kv0. split; [now left|]. split; [reflexivity|].
      rewrite I2; [|exact Hn|intros kv' Hi' E1; apply Hout; rewrite <- E1; now apply in_map].
      unfold c1. destruct (Z.eqb_spec (hashValue kv0) 0); [contradiction|]. apply (om_find_set_eq Z.ltb), Hc.
  - intros p Hp. destruct (I4 p Hp) as [Hi|(kv' & Hi & E1)]; [|right; exists kv'; split; [now right|exact E1]].
    unfold c1 in Hi. destruct (Z.eqb_spec (hashValue kv) 0) as [E0|E0]; cbn [negb] in Hi; [now left|].
    assert (In p (om_set Z.ltb (hashValue kv) (value kv) c) -> In p c \/ p = (hashValue kv, value kv)) as HS.
    { clear. induction c as [|[k x] c IH]; cbn [om_set In]; [intros [<-|[]]; now right|].
      destruct (Z.ltb_spec (hashValue kv) k); [intros [<-|[<-|Hi]]; cbn; auto|].
      destruct (Z.ltb_spec k (hashValue kv)); [intros [<-|Hi]; cbn; auto; destruct (IH Hi); auto|].
      replace k with (hashValue kv) by lia. intros [<-|Hi]; cbn; auto. }
    destruct (HS Hi) as [|E1]; [now left|right; exists kv; split; [now left|auto]].
Qed.

(** ** The nodes of a rewritten path carry their hash *)

Section Update.
Variable CryptoHash : list Z -> Z.
Context {HR : Hash256 CryptoHash}.
Abbreviation rep := (rep CryptoHash).
Abbreviation vrep := (vrep CryptoHash).

Definition hashed (kv : CTrieKeyValue) : Prop := CalcHash CryptoHash (value kv) = Ok (hashValue kv).

Lemma calc_value_hashed kv kv' : CalcValueHash CryptoHash kv = Ok kv' -> hashed kv'.
Proof.
  unfold CalcValueHash, hashed. destruct (CalcHash CryptoHash (value kv)) eqn:E; [|discriminate..]. intros [= <-]. exact E.
Qed.

Lemma old_step_hashed kv ho kv1 h : old_step CryptoHash kv ho = Ok (Some (kv1, h)) -> is_new kv1 = false -> hashed kv1.
Proof.
  unfold old_step. intros Hs Hn. destruct (value kv) as [b|e|d]; [| |discriminate]; destruct (is_new kv) eqn:En.
  1, 3: injection Hs as <- _; congruence.
  - destruct (match keyOld kv with [] => _ | _ => _ end); [|discriminate..]. cbn [bind] in Hs.
    destruct (CalcValueHash CryptoHash _) eqn:E; [|discriminate..]. injection Hs as <- _. eapply calc_value_hashed, E.
  - destruct (CalcValueHash CryptoHash _) eqn:E; [|discriminate..]. injection Hs as <- _. eapply calc_value_hashed, E.
Qed.

Lemma old_pass_hashed kvs : forall t1 ho, old_pass CryptoHash kvs = Ok (Some (t1, ho)) ->
  Forall (fun kv => is_new kv = false -> hashed kv) t1.
Proof.
  induction kvs as [|kv kvs IH]; intros t1 ho Hp; cbn [old_pass] in Hp; [injection Hp as <- _; constructor|].
  destruct (old_pass CryptoHash kvs) as [[[t ho']|]| | |]; try discriminate. cbn [bind] in Hp.
  destruct (old_step CryptoHash kv ho') as [[[kv1 h]|]| | |] eqn:E; try discriminate. injection Hp as <- _.
  constructor; [intros Hn; eapply old_step_hashed; eauto|eapply IH; reflexivity].
Qed.

Lemma new_step_hashed kv hp fv kv2 h b : (is_new kv = false -> hashed kv) ->
  new_step CryptoHash kv hp fv = Ok (Go (kv2, h, b)) -> hashed kv2.
Proof.
  unfold new_step. intros Ho Hs.
  assert (Hold : is_old kv = true -> hashed kv).
  { intros Hi. apply Ho. unfold is_old, is_new in *. destruct (nKvType kv); congruence. }
  assert (F : forall k b', (let! kv := CalcValueHash CryptoHash k in Ok (Go (kv, hashValue kv, b'))) = Ok (Go (kv2, h, b)) -> hashed kv2).
  { intros k b' Hk. destruct (CalcValueHash CryptoHash k) eqn:E; [|discriminate..]. injection Hk as <- _ _. eapply calc_value_hashed, E. }
  destruct (value kv) as [x|e|d]; [| |discriminate]; destruct (is_old kv).
  1, 3: injection Hs as <- _ _; auto.
  - destruct (keyNew kv) as [|n kn]; [eapply F, Hs|]. destruct fv.
    + destruct (BranchGetValueHash x n); [|discriminate..]. cbn [bind] in Hs. destruct (_ && _); [discriminate|].
      destruct (BranchSetValueHash x n hp); [|discriminate..]. eapply F, Hs.
    + destruct (BranchSetNextHash x n hp); [|discriminate..]. eapply F, Hs.
  - destruct fv; [destruct (_ && _); [discriminate|]|]; eapply F, Hs.
Qed.

Lemma new_pass_hashed t1 : forall hp b t2 h b', Forall (fun kv => is_new kv = false -> hashed kv) t1 ->
  new_pass CryptoHash t1 hp b = Ok (Go (t2, h, b')) -> Forall hashed t2.
Proof.
  induction t1 as [|kv t1 IH]; intros hp b t2 h b' Ht Hp; cbn [new_pass] in Hp; [injection Hp as <- _ _; constructor|].
  inversion_clear Ht as [|? ? H1 H2].
  destruct (new_pass CryptoHash t1 hp b) as [[[[t h'] b'']| |]| | |] eqn:E1; try discriminate. cbn [bind] in Hp.
  destruct (new_step CryptoHash kv h' b'') as [[[[kv2 h2] b2]| |]| | |] eqn:E; try discriminate. injection Hp as <- _ _.
  constructor; [eapply new_step_hashed; eauto|eapply IH; eauto].
Qed.

(** ** Collisions among the nodes at hand *)

(** No node of [A] hashes to 0, and different ones hash to different values. *)
Record collision_free (A : CTrieValue -> Prop) : Prop := {
  cf_nonzero : forall x, A x -> CryptoHash (GetStream x) <> 0;
  cf_inj : forall x y, A x -> A y -> CryptoHash (GetStream x) = CryptoHash (GetStream y) -> x = y
}.

Context {E : Type} `{CKVDBEngine E}.

(** The nodes an update hashes to rewrite the path, with the value. *)
Definition written_nodes (db : E) (root : Z) (key v : list Z) (cache : cache_t) : list CTrieValue :=
  match new_path CryptoHash db root key v cache with
  | Ok (Go (path, _, _)) => map value path
  | _ => [TYPE_VALUE v]
  end.

Definition injective_map (m : kmap) : Prop := forall k k' d, m k = Some d -> m k' = Some d -> k = k'.

Lemma fetch_find (db : E) c h x : om_find Z.ltb h c = Some x -> h <> 0 -> fetch db c h = Some x.
Proof. intros Hf Hh. unfold fetch, GetNodeValue. destruct (Z.eqb_spec h 0); [contradiction|]. now rewrite Hf. Qed.

Lemma fetch_same (db : E) c c' h : om_find Z.ltb h c' = om_find Z.ltb h c -> fetch db c' h = fetch db c h.
Proof. intros Hf. unfold fetch, GetNodeValue. now rewrite Hf. Qed.

Lemma rep_node f c h p r m : rep f c h m -> reach f h p r -> exists x, f r = Some x /\ CryptoHash (GetStream x) = r /\ node_ok c x /\ forall d, x <> TYPE_VALUE d.
Proof.
  intros Hm Hr. destruct (rep_reach CryptoHash f c h p r Hr m Hm) as (m' & R & _).
  assert (H0 : r <> 0) by (clear -Hr; induction Hr; auto).
  destruct R as [m' _|r b m' vs ns G0 G1 G2 G3 G4 G5 G6|r e m' ov mn G0 G1 G2 G3 G4 G5 G6]; [contradiction| |].
  - exists (TYPE_BRANCH b). destruct (calc_hash_content CryptoHash c (TYPE_BRANCH b) r G3 G2 G0) as [_ E1]. split; [exact G1|]. split; [now symmetry|]. split; [exact G3|discriminate].
  - exists (TYPE_EXTENSION e). destruct (calc_hash_content CryptoHash c (TYPE_EXTENSION e) r G3 G2 G0) as [_ E1]. split; [exact G1|]. split; [now symmetry|]. split; [exact G3|discriminate].
Qed.

Lemma hashed_stream kv : hashed kv -> hashValue kv <> 0 -> hashValue kv = CryptoHash (GetStream (value kv)).
Proof.
  unfold hashed, TrieNode.CalcHash. intros Hh H0. destruct (match value kv with TYPE_BRANCH b => _ | _ => _ end) as [[|]| | |];
    cbn [bind] in Hh; try discriminate; injection Hh as Hh; congruence.
Qed.

(** What the entries of a cache satisfy. *)
Definition entry_ok (A : CTrieValue -> Prop) (p : Z * CTrieValue) : Prop :=
  A (snd p) /\ CryptoHash (GetStream (snd p)) = fst p.

Lemma erase_nil rms : fold_left (fun c h => om_erase Z.ltb h c) rms ([] : cache_t) = [].
Proof. induction rms as [|r rms IH]; [reflexivity|exact IH]. Qed.

(** The store after an update: what was entered is there, and what was neither removed nor
    overwritten by a different node is as before. *)
Lemma written_store (db : E) A path rms cache : collision_free A -> cache_ok cache -> Forall hashed path ->
  Forall (fun kv => in256 (hashValue kv)) path -> Forall (fun kv => A (value kv)) path ->
  let cache' := cache_path path (fold_left (fun c h => om_erase Z.ltb h c) rms cache) in
  cache_ok cache' /\ Forall (fun p => In p cache \/ entry_ok A p) cache' /\
  written CryptoHash (fetch db cache') path /\
  forall r x, fetch db cache r = Some x -> CryptoHash (GetStream x) = r -> A x -> cache = [] \/ ~ In r rms ->
    fetch db cache' r = fetch db cache r.
Proof.
  intros HA Hc Hh Hr Hp cache'. destruct (erase_all_ok rms cache Hc) as (E1 & E2 & E3).
  set (c1 := fold_left (fun c h => om_erase Z.ltb h c) rms cache) in *.
  destruct (cache_path_ok path c1 E1 Hr) as (P1 & P2 & P3 & P4). fold cache' in P1, P2, P3, P4.
  assert (W : forall kv, In kv path -> hashValue kv <> 0 -> om_find Z.ltb (hashValue kv) cache' = Some (value kv)).
  { intros kv Hi H0. destruct (P3 kv Hi H0) as (kv' & Hi' & Eh & Ef). rewrite Ef. f_equal.
    rewrite Forall_forall in Hh, Hp. apply (cf_inj A HA); [now apply Hp|now apply Hp|].
    rewrite <- (hashed_stream kv), <- (hashed_stream kv'); auto; congruence. }
  split; [exact P1|]. split; [|split].
  - apply Forall_forall. intros p Hi. destruct (P4 p Hi) as [Hi'|(kv & Hi' & H0 & ->)]; [left; now apply E3|right].
    rewrite Forall_forall in Hp, Hh. split; [now apply Hp|symmetry; now apply hashed_stream; [apply Hh|]].
  - apply Forall_forall. intros kv Hi. split; [intros H0; now apply fetch_find; [apply W|]|].
    rewrite Forall_forall in Hp. apply (cf_nonzero A HA). now apply Hp.
  - intros r x Hx Hs Ax Hn. assert (H0 : r <> 0) by (rewrite <- Hs; now apply (cf_nonzero A HA)).
    destruct (in_dec Z.eq_dec r (map hashValue path)) as [Hin|Hout].
    + apply in_map_iff in Hin. destruct Hin as (kv & Eh & Hi). rewrite Hx.
      rewrite Forall_forall in Hh, Hp. assert (value kv = x) as <-.
      { apply (cf_inj A HA); [now apply Hp|exact Ax|]. rewrite <- (hashed_stream kv); [congruence|now apply Hh|congruence]. }
      rewrite <- Eh. apply fetch_find; [apply W; [exact Hi|congruence]|congruence].
    + apply fetch_same. rewrite P2; [|exact H0|intros kv Hi Eh; apply Hout; rewrite <- Eh; now apply in_map].
      destruct Hn as [Hn|Hn]; [|now apply E2]. unfold c1. rewrite Hn. now rewrite erase_nil.
Qed.

(** ** AddNode *)

Lemma value_hash v : exists hv, CalcHash CryptoHash (TYPE_VALUE v) = Ok hv /\
  CalcValueHash CryptoHash (mk_kv KV_TYPE_NEW [] [] (TYPE_VALUE v) 0) = Ok (mk_kv KV_TYPE_NEW [] [] (TYPE_VALUE v) hv).
Proof. eexists. split; [reflexivity|]. reflexivity. Qed.

Lemma hashed_range t : Forall hashed t -> Forall (fun kv => in256 (hashValue kv)) t.
Proof.
  intros Ht. eapply Forall_impl; [|exact Ht]. intros kv Hk. destruct (Z.eq_dec (hashValue kv) 0) as [->|Hn].
  - unfold in256. lia.
  - rewrite (hashed_stream kv Hk Hn). apply hash_range.
Qed.

Lemma AddNode_ok (A : CTrieValue -> Prop) (db : E) cache root m key v c : collision_free A ->
  (forall h x, GetDbNodeValue db h = Some x -> A x) -> Forall (entry_ok A) cache ->
  Forall A (written_nodes db root key v cache) -> cache_ok cache -> (3 <= c < 255)%nat ->
  rep (fetch db cache) c root m -> key_ok key -> key <> [] -> data_ok v -> cache = [] \/ injective_map m ->
  exists root' cache', AddNode CryptoHash db root key v cache = Ok (Some (root', cache')) /\
    rep (fetch db cache') (S c) root' (map_set m key v) /\ cache_ok cache' /\ Forall (entry_ok A) cache'.
Proof.
  intros HA HD HC HW Hcache Hc Hm Hk Hne Hv Hinj. destruct (value_hash v) as (hv & Ev & Ec).
  destruct (path_loop CryptoHash db cache v hv Ev c Hc root (length key) root m key [] [] Hm Hk Hne (le_n _) (or_introl eq_refl))
    as (kvs & rms & Ep & U & R). cbn [app] in Ep.
  assert (FA : forall r x, fetch db cache r = Some x -> A x).
  { intros r x. unfold fetch, GetNodeValue. destruct (r =? 0); [discriminate|].
    destruct (om_find Z.ltb r cache) as [y|] eqn:Ef.
    - intros [= <-]. apply (om_find_in Z.ltb (O := hash_order)) in Ef. rewrite Forall_forall in HC. apply (HC _ Ef).
    - destruct (GetDbNodeValue db r) as [y|] eqn:Ed; [|discriminate]. intros [= <-]. eapply HD, Ed. }
  assert (Hhv : hv <> 0 -> v <> [] /\ hv = CryptoHash (GetStream (TYPE_VALUE v))).
  { intros H0. destruct (calc_hash_content CryptoHash c (TYPE_VALUE v) hv Hv Ev H0). auto. }
  destruct U as [[(t1 & ho & E1 & _ & E2) (d & Hd & H0 & Hf & Hs)]|(t1 & ho & t2 & hp & E1 & _ & E2 & _ & HP)].
  - assert (EN : new_path CryptoHash db root key v cache = Ok Same).
    { unfold new_path, GetNodePath. rewrite Ep. cbn [bind]. rewrite Ec. cbn [bind]. rewrite E1. cbn [bind hashValue]. now rewrite E2. }
    exists root, cache. unfold AddNode, written_nodes in *. rewrite EN in *. split; [reflexivity|]. split; [|auto].
    apply Forall_inv in HW. destruct (Hhv H0) as [Hv0 Eh].
    assert (TYPE_VALUE d = TYPE_VALUE v) as [= ->] by (apply (cf_inj A HA); [eapply FA, Hf|exact HW|congruence]).
    eapply rep_eq; [apply (rep_mono CryptoHash _ c); [lia|exact Hm]|]. intros k. unfold map_set.
    destruct (list_eqb_spec k key) as [->|]; [|reflexivity]. rewrite Hd. destruct v; [contradiction|reflexivity].
  - assert (EN : new_path CryptoHash db root key v cache = Ok (Go (t2 ++ [mk_kv KV_TYPE_NEW [] [] (TYPE_VALUE v) hv], hp, rms))).
    { unfold new_path, GetNodePath. rewrite Ep. cbn [bind]. rewrite Ec. cbn [bind]. rewrite E1. cbn [bind hashValue]. now rewrite E2. }
    unfold AddNode, written_nodes in *. rewrite EN in *. cbn [bind]. set (path := t2 ++ _) in *.
    assert (Hh : Forall hashed path).
    { apply Forall_app. split; [eapply new_pass_hashed; [eapply old_pass_hashed, E1|exact E2]|]. repeat constructor. exact Ev. }
    assert (HP' : Forall (fun kv => A (value kv)) path) by (rewrite Forall_map in HW; exact HW).
    assert (Hr : Forall (fun kv => in256 (hashValue kv)) path) by now apply hashed_range.
    destruct (written_store db A path rms cache HA Hcache Hh Hr HP') as (W1 & W2 & W3 & W4). cbv zeta in *.
    set (cache' := cache_path path _) in *. exists hp, cache'. split; [reflexivity|]. split; [|split; [exact W1|]].
    + apply Forall_app in W3. destruct W3 as [W3 W3']. apply HP; [exact W3| |split].
      * apply Forall_inv in W3'. cbn [hashValue value] in W3'. destruct (Z.eq_dec hv 0) as [Z0|Z0].
        -- destruct v as [|v0 v']; [exact Z0|]. exfalso. rewrite Z0 in Ev.
           apply (calc_hash_zero CryptoHash c (TYPE_VALUE (v0 :: v')) Hv Ev (proj2 W3')). discriminate.
        -- destruct (Hhv Z0) as [Hv0 Eh]. destruct v as [|v0 v']; [contradiction|]. cbn [stored TrieRep.vrep].
           repeat split; auto; try apply Hv. now apply W3'.
      * intros r d Hd Hok Hs. apply (W4 r (TYPE_VALUE d)); auto; [eapply FA, Hd|]. right. intros Hin.
        rewrite Forall_forall in R. destruct (R r Hin) as (p & s & _ & _ & Hreach).
        destruct (rep_node _ _ _ _ _ _ Hm Hreach) as (x & Ex & _ & _ & Hx). apply (Hx d). congruence.
      * intros p r Hreach Hp. destruct (rep_node _ _ _ _ _ _ Hm Hreach) as (x & Ex & Hs & _).
        apply (W4 r x); auto; [eapply FA, Ex|]. destruct Hinj as [Hinj|Hinj]; [now left|right]. intros Hin.
        rewrite Forall_forall in R. destruct (R r Hin) as (p' & s & Hsn & Ek & Hreach').
        assert (p = p') as -> by (eapply reach_once; eauto). now apply (Hp s).
    + apply Forall_forall. intros p Hi. rewrite Forall_forall in W2, HC. destruct (W2 p Hi); auto.
Qed.

End Update.
