(* ===== verification/TrieDb.v ===== *)
(** * Tries in the database

    [SaveCacheTrie] makes a trie of the cache a trie of the store, [GetKeyValue] reads
    the map a root stands for, and a list of pairs updates it pair by pair. *)

From Stdlib Require Import ZArith List Lia Bool.
From S2P Require Import Prelude Radix Stream OrdMap TrieNode TrieNodeOk Trie TrieRep TrieAdd TriePath TrieUpdate.
Import ListNotations.
Local Open Scope Z_scope.

Section Db.
Variable CryptoHash : list Z -> Z.
Context {HR : Hash256 CryptoHash}.
Context {E : Type} `{RE : ReliableEngine E}.
Abbreviation rep := (rep CryptoHash).

(** The root [root] of the store stands for the map [m]. *)
Definition trie_holds (db : E) (c : nat) (root : Z) (m : kmap) : Prop := rep (fetch db []) c root m.

Lemma trie_empty db c : trie_holds db c 0 no_map.
Proof. now apply rep_empty. Qed.

(** ** Keys of the store *)

Lemma trie_key_inj h h' : in256 h -> in256 h' -> trie_key h = trie_key h' -> h = h'.
Proof.
  intros H1 H2 Ek. unfold trie_key in Ek. apply app_inv_head in Ek.
  pose proof (load_save (c := uint256) h [] H1) as L1. pose proof (load_save (c := uint256) h' [] H2) as L2.
  rewrite Ek, L2 in L1. congruence.
Qed.

(** The other records of the store have keys of their own. *)
Lemma trie_key_ext h k : trie_key h <> ext_key k.
Proof. discriminate. Qed.

(** ** SaveCacheTrie *)

Lemma SaveCacheTrie_ok cache : forall db, engine_ok db -> cache_ok cache ->
  exists db', SaveCacheTrie db cache = (true, db') /\ engine_ok db' /\
  (forall h, in256 h -> Get db' (trie_key h) =
     match om_find Z.ltb h cache with Some x => Some (GetStream x) | None => Get db (trie_key h) end) /\
  (forall k, Get db' (ext_key k) = Get db (ext_key k)).
Proof.
  induction cache as [|[h x] cache IH]; intros db Hok [Hs Hr]; cbn [SaveCacheTrie]; [exists db; auto|].
  destruct (om_sorted_inv Z.ltb h x cache Hs) as [Hs' Hlt]. inversion_clear Hr as [|? ? Hh Hr']. cbn [fst] in Hh.
  unfold SetDbNodeValue. destruct (Put db (trie_key h) (GetStream x)) as [b db1] eqn:Ep.
  pose proof (put_ok db (trie_key h) (GetStream x) Hok) as P1. pose proof (get_put_eq db (trie_key h) (GetStream x) Hok) as P2.
  pose proof (fun k' => get_put_ne db (trie_key h) (GetStream x) k' Hok) as P3. rewrite Ep in P1, P2, P3. cbn [fst snd] in P1, P2, P3.
  destruct P1 as [-> Hok1].
  destruct (IH db1 Hok1 (conj Hs' Hr')) as (db' & E1 & Hok' & G1 & G2). exists db'. split; [exact E1|]. split; [exact Hok'|]. split.
  - intros k Hk. rewrite G1 by exact Hk. cbn [om_find]. destruct (Z.ltb_spec k h) as [Hkh|Hkh].
    + rewrite (om_find_below Z.ltb).
      * apply P3. intros Ek. apply trie_key_inj in Ek; auto. lia.
      * eapply Forall_impl; [|exact Hlt]. intros p Hp. apply Z.ltb_lt in Hp. apply Z.ltb_lt. lia.
    + destruct (Z.ltb_spec h k) as [Hhk|Hhk].
      * destruct (om_find Z.ltb k cache); [reflexivity|]. apply P3. intros Ek. apply trie_key_inj in Ek; auto. lia.
      * assert (k = h) as -> by lia. rewrite (om_find_below Z.ltb); [exact P2|exact Hlt].
  - intros k. rewrite G2. apply P3. intros Ek. now apply (trie_key_ext h k).
Qed.

Lemma fetch_db db h : h <> 0 -> fetch db [] h = GetDbNodeValue db h.
Proof.
  intros Hh. unfold fetch, GetNodeValue. destruct (Z.eqb_spec h 0); [contradiction|]. cbn [om_find].
  destruct (GetDbNodeValue db h); reflexivity.
Qed.

(** A node of the cache is read back from the store. *)
Lemma fetch_saved db db' cache c h x : (c < 256)%nat -> in256 h -> node_ok c x -> fetch db cache h = Some x ->
  (forall h, in256 h -> Get db' (trie_key h) =
     match om_find Z.ltb h cache with Some x => Some (GetStream x) | None => Get db (trie_key h) end) ->
  fetch db' [] h = Some x.
Proof.
  intros Hc Hh Hx Hf G. assert (H0 : h <> 0).
  { intros ->. discriminate Hf. }
  rewrite fetch_db by exact H0. unfold GetDbNodeValue. rewrite G by exact Hh. unfold fetch, GetNodeValue in Hf.
  destruct (Z.eqb_spec h 0); [contradiction|]. destruct (om_find Z.ltb h cache) as [y|].
  - injection Hf as ->. eapply node_round_trip; eauto.
  - unfold GetDbNodeValue in Hf. destruct (Get db (trie_key h)); [|discriminate]. now destruct (SetStream l) as [y|]; [injection Hf as ->|].
Qed.

Lemma save_rep db db' cache c root m : (c < 256)%nat ->
  (forall h, in256 h -> Get db' (trie_key h) =
     match om_find Z.ltb h cache with Some x => Some (GetStream x) | None => Get db (trie_key h) end) ->
  rep (fetch db cache) c root m -> trie_holds db' c root m.
Proof.
  intros Hc G Hm. eapply rep_frame; [exact Hm| |].
  - intros r d Hd Hok Hs. rewrite Hd. eapply (fetch_saved db db' cache c); eauto. rewrite <- Hs. apply hash_range.
  - intros p r Hr. destruct (rep_node CryptoHash _ _ _ _ _ _ Hm Hr) as (x & Hx & Hs & Hn & _). rewrite Hx.
    eapply (fetch_saved db db' cache c); eauto. rewrite <- Hs. apply hash_range.
Qed.

(** The tries already in the store stay: what is entered under the hash of one of their
    nodes is that node. *)
Lemma save_keeps (A : CTrieValue -> Prop) db db' cache c root m : collision_free CryptoHash A ->
  (forall h x, GetDbNodeValue db h = Some x -> A x) -> Forall (entry_ok CryptoHash A) cache -> cache_ok cache -> (c < 256)%nat ->
  (forall h, in256 h -> Get db' (trie_key h) =
     match om_find Z.ltb h cache with Some x => Some (GetStream x) | None => Get db (trie_key h) end) ->
  trie_holds db c root m -> trie_holds db' c root m.
Proof.
  intros HA HD HC Hcache Hc G Hm. eapply save_rep; [exact Hc|exact G|].
  assert (F : forall r x, fetch db [] r = Some x -> CryptoHash (GetStream x) = r -> fetch db cache r = fetch db [] r).
  { intros r x Hx Hs. assert (H0 : r <> 0) by (intros ->; discriminate Hx). rewrite Hx.
    rewrite fetch_db in Hx by exact H0. unfold fetch, GetNodeValue. destruct (Z.eqb_spec r 0); [contradiction|].
    destruct (om_find Z.ltb r cache) as [y|] eqn:Ef; [|now rewrite Hx].
    apply (om_find_in Z.ltb (O := hash_order)) in Ef. rewrite Forall_forall in HC. destruct (HC _ Ef) as [Ay Hy].
    cbn [fst snd] in *. f_equal. apply (cf_inj CryptoHash A HA); [exact Ay|eapply HD, Hx|congruence]. }
  eapply rep_frame; [exact Hm| |].
  - intros r d Hd _ Hs. eapply F; eauto.
  - intros p r Hr. destruct (rep_node CryptoHash _ _ _ _ _ _ Hm Hr) as (x & Hx & Hs & _). eapply F; eauto.
Qed.

(** ** GetKeyValue *)

Lemma get_loop_ok db c fuel : forall key h m, (length key <= fuel)%nat -> nibbles key -> key <> [] -> h <> 0 -> trie_holds db c h m ->
  exists r, get_key_value_loop fuel db h key = Ok r /\
  match r with
  | inl hv => exists o, vrep CryptoHash (fetch db []) hv o /\ hv <> 0 /\ m key = o
  | inr _ => m key = None
  end.
Proof.
  induction fuel as [|fuel IH]; intros key h m Hl Hk Hne Hh Hm; [destruct key; [contradiction|cbn in Hl; lia]|].
  destruct key as [|n key]; [contradiction|]. cbn [get_key_value_loop length] in *. inversion_clear Hk as [|? ? Hn Hk'].
  inversion Hm as [m' Em|h' b m' vs ns H0 H1 H2 H3 H4 H5 H6|h' e m' ov mn H0 H1 H2 H3 H4 H5 H6]; subst; [contradiction| |];
    rewrite fetch_db in H1 by exact Hh; rewrite H1.
  - rewrite H4. cbn [branch_map]. rewrite (proj1 (nibble_b n) Hn). destruct key as [|n' key].
    + rewrite (branch_value c b n H3 Hn). cbn [bind]. specialize (H5 n Hn). destruct (Z.eqb_spec (value_of b n) 0) as [E0|E0].
      * exists (inr tt). split; [reflexivity|]. rewrite E0 in H5. destruct (vs n); [destruct H5; contradiction|reflexivity].
      * exists (inl (value_of b n)). destruct fuel; (split; [reflexivity|]; exists (vs n); auto).
    + rewrite (branch_next c b n H3 Hn). cbn [bind]. specialize (H6 n Hn). destruct (Z.eqb_spec (next_of b n) 0) as [E0|E0].
      * exists (inr tt). split; [reflexivity|]. rewrite E0 in H6. eapply rep_zero, H6.
      * apply (IH (n' :: key) (next_of b n) (ns n)); auto; [cbn [length] in *; lia|discriminate].
  - rewrite H4. pose proof (prefix_test (GetKey e) (n :: key)) as Hp. cbn [length] in Hp.
    destruct (ext_key_ok e H3) as [_ Hek]. destruct (_ && _).
    + set (rest := skipn (length (GetKey e)) (n :: key)) in *. rewrite Hp. unfold ext_map. rewrite strip_app.
      assert (Hlr : S (length key) = (length (GetKey e) + length rest)%nat)
        by (change (S (length key)) with (length (n :: key)); rewrite Hp, length_app; reflexivity).
      destruct rest as [|r0 rest'] eqn:Er.
      * cbn [length] in Hlr. rewrite (proj2 (Nat.eqb_eq _ _)) by lia. destruct (Z.eqb_spec (ExtGetValueHash e) 0) as [E0|E0].
        -- exists (inr tt). split; [reflexivity|]. rewrite E0 in H5. destruct ov; [destruct H5; contradiction|reflexivity].
        -- exists (inl (ExtGetValueHash e)). destruct fuel; (split; [reflexivity|]; exists ov; auto).
      * cbn [length] in Hlr. rewrite (proj2 (Nat.eqb_neq _ _)) by lia. destruct (Z.eqb_spec (ExtGetNextHash e) 0) as [E0|E0].
        -- exists (inr tt). split; [reflexivity|]. rewrite E0 in H6. eapply rep_zero, H6.
        -- apply (IH (r0 :: rest') (ExtGetNextHash e) mn); auto; [|rewrite <- Er|discriminate].
           ++ destruct (GetKey e); [contradiction|cbn [length] in *; lia].
           ++ assert (Hall : nibbles (n :: key)) by now constructor. rewrite Hp in Hall. apply Forall_app in Hall.
              rewrite Er. apply Hall.
    + exists (inr tt). split; [reflexivity|]. unfold ext_map. destruct (strip (GetKey e) (n :: key)) as [r|] eqn:Es; [|reflexivity].
      apply strip_some in Es. now contradiction (Hp r).
Qed.

Lemma GetKeyValue_ok db c root m key : nibbles key -> trie_holds db c root m -> GetKeyValue db root key = Ok (m key).
Proof.
  intros Hk Hm. unfold GetKeyValue. destruct (Z.eqb_spec root 0) as [->|Hr]; [now rewrite (rep_zero _ _ _ _ Hm)|].
  destruct key as [|n key].
  - cbn [get_key_value_loop length bind]. rewrite (rep_nil _ _ _ _ _ Hm).
    inversion Hm as [m' Em|h' b m' vs ns H0 H1|h' e m' ov mn H0 H1]; subst; [contradiction| |];
      rewrite fetch_db in H1 by exact Hr; now rewrite H1.
  - destruct (get_loop_ok db c (length (n :: key)) (n :: key) root m (le_n _) Hk ltac:(discriminate) Hr Hm) as (r & Er & Hv).
    rewrite Er. cbn [bind]. destruct r as [hv|u]; [|now rewrite Hv]. destruct Hv as (o & Hv & H0 & Eo). rewrite Eo.
    destruct o as [d|]; [|contradiction]. destruct Hv as (_ & _ & _ & Hf & _). rewrite fetch_db in Hf by exact H0. now rewrite Hf.
Qed.

Lemma Retrieve_ok db c root m k : rdigs 256 k -> trie_holds db c root m -> Retrieve db root k = Ok (m (Byte2Nibble k 0 [])).
Proof. intros Hk Hm. eapply GetKeyValue_ok; [now apply byte2nibble_nibbles|exact Hm]. Qed.

(** ** Lists of updates *)

(** The map after the pairs of a list, in their order. *)
Definition map_sets (m : kmap) (kvs : list (list Z * list Z)) : kmap :=
  fold_left (fun m kv => map_set m (Byte2Nibble (fst kv) 0 []) (snd kv)) kvs m.

(** What a key of bytes has after them. *)
Definition last_value (o : option (list Z)) (kvs : list (list Z * list Z)) (k : list Z) : option (list Z) :=
  fold_left (fun o kv => if list_eqb k (fst kv) then stored (snd kv) else o) kvs o.

(** The pairs a trie can take: a key that is not empty, a value that fits a vector. *)
Definition kv_ok (kv : list Z * list Z) : Prop :=
  rdigs 256 (fst kv) /\ fst kv <> [] /\ 2 * Z.of_nat (length (fst kv)) <= PTRDIFF_MAX /\ data_ok (snd kv).

Lemma byte2nibble_length bt : length (Byte2Nibble bt 0 []) = (2 * length bt)%nat.
Proof. induction bt as [|d bt IH]; [reflexivity|]. rewrite byte2nibble_cons by now right. cbn [length]. lia. Qed.

Lemma kv_key_ok kv : kv_ok kv -> key_ok (Byte2Nibble (fst kv) 0 []) /\ Byte2Nibble (fst kv) 0 [] <> [].
Proof.
  intros (H1 & H2 & H3 & _). split; [split; [now apply byte2nibble_nibbles|rewrite byte2nibble_length; lia]|].
  destruct (fst kv) as [|d bt]; [contradiction|]. rewrite byte2nibble_cons by now right. discriminate.
Qed.

Lemma map_sets_bytes kvs : forall m k, rdigs 256 k -> Forall kv_ok kvs ->
  map_sets m kvs (Byte2Nibble k 0 []) = last_value (m (Byte2Nibble k 0 [])) kvs k.
Proof.
  induction kvs as [|kv kvs IH]; intros m k Hk Hp; [reflexivity|]. inversion_clear Hp as [|? ? [Hd _] Hp'].
  unfold map_sets, last_value in *. cbn [fold_left]. rewrite IH by assumption. f_equal. unfold map_set.
  destruct (list_eqb_spec k (fst kv)) as [Ek|Hn], (list_eqb_spec (Byte2Nibble k 0 []) (Byte2Nibble (fst kv) 0 [])) as [En|En];
    try reflexivity; [subst k; contradiction|]. now apply byte2nibble_inj in En.
Qed.

(** The nodes all the updates of a list hash. *)
Fixpoint all_written (db : E) (root : Z) (kvs : list (list Z * list Z)) (cache : cache_t) : list CTrieValue :=
  match kvs with
  | [] => []
  | (k, v) :: kvs' =>
      written_nodes CryptoHash db root (Byte2Nibble k 0 []) v cache ++
      match AddNode CryptoHash db root (Byte2Nibble k 0 []) v cache with
      | Ok (Some (root, cache)) => all_written db root kvs' cache
      | _ => []
      end
  end.

(** The keys of the map have different values before each of the updates; not needed
    before the first one, which has no nodes in the cache to remove. *)
Fixpoint distinct_from (m : kmap) (kvs : list (list Z * list Z)) : Prop :=
  match kvs with
  | [] => True
  | kv :: kvs' => injective_map m /\ distinct_from (map_set m (Byte2Nibble (fst kv) 0 []) (snd kv)) kvs'
  end.

Definition distinct_after_first (m : kmap) (kvs : list (list Z * list Z)) : Prop :=
  match kvs with
  | [] => True
  | kv :: kvs' => distinct_from (map_set m (Byte2Nibble (fst kv) 0 []) (snd kv)) kvs'
  end.

Lemma trie_add_nodes_ok (A : CTrieValue -> Prop) (db : E) kvs : forall cache root m c, collision_free CryptoHash A ->
  (forall h x, GetDbNodeValue db h = Some x -> A x) -> Forall (entry_ok CryptoHash A) cache ->
  Forall A (all_written db root kvs cache) -> cache_ok cache -> (3 <= c)%nat -> (c + length kvs <= 255)%nat ->
  rep (fetch db cache) c root m -> Forall kv_ok kvs ->
  (if is_nil cache then distinct_after_first m kvs else distinct_from m kvs) ->
  exists root' cache', trie_add_nodes CryptoHash db root kvs cache = Ok (Some (root', cache')) /\
    rep (fetch db cache') (c + length kvs) root' (map_sets m kvs) /\ cache_ok cache' /\ Forall (entry_ok CryptoHash A) cache'.
Proof.
  induction kvs as [|[k v] kvs IH]; intros cache root m c HA HD HC HW Hcache Hc Hl Hm Hp Hd; cbn [trie_add_nodes length] in *.
  - exists root, cache. rewrite Nat.add_0_r. auto.
  - inversion_clear Hp as [|? ? Hkv Hp']. destruct (kv_key_ok _ Hkv) as [Hk Hne]. cbn [fst snd] in Hk, Hne.
    cbn [all_written] in HW. apply Forall_app in HW. destruct HW as [HW1 HW2].
    destruct (AddNode_ok CryptoHash A db cache root m (Byte2Nibble k 0 []) v c) as (root1 & cache1 & E1 & R1 & C1 & F1);
      auto; try lia; [apply Hkv|destruct cache; [now left|right; apply Hd]|].
    rewrite E1 in *. cbn [bind]. cbv iota in HW2.
    destruct (IH cache1 root1 (map_set m (Byte2Nibble k 0 []) v) (S c)) as (root2 & cache2 & E2 & R2 & C2 & F2); auto; try lia.
    + assert (Hd' : distinct_from (map_set m (Byte2Nibble k 0 []) v) kvs) by (destruct cache; apply Hd).
      destruct cache1; [|exact Hd']. destruct kvs; [exact I|apply Hd'].
    + exists root2, cache2. split; [exact E2|]. replace (c + S (length kvs))%nat with (S c + length kvs)%nat by lia. auto.
Qed.

(** ** AddNewTrie *)

(** The nodes at hand: those the updates hash and those of the store. *)
Definition at_hand (db : E) (root : Z) (kvs : list (list Z * list Z)) (x : CTrieValue) : Prop :=
  In x (all_written db root kvs []) \/ exists h, GetDbNodeValue db h = Some x.

Lemma AddNewTrie_ok (db : E) root m c kvs : engine_ok db -> collision_free CryptoHash (at_hand db root kvs) ->
  trie_holds db c root m -> (3 <= c)%nat -> (c + length kvs <= 255)%nat -> Forall kv_ok kvs -> distinct_after_first m kvs ->
  exists root' db', AddNewTrie CryptoHash db root kvs = Ok (Some root', db') /\ engine_ok db' /\
    trie_holds db' (c + length kvs) root' (map_sets m kvs) /\
    (forall c0 root0 m0, (c0 < 256)%nat -> trie_holds db c0 root0 m0 -> trie_holds db' c0 root0 m0) /\
    (forall k, ReadExtKv db' k = ReadExtKv db k).
Proof.
  intros Hok HA Hm Hc Hl Hp Hd. set (A := at_hand db root kvs) in *.
  assert (HD : forall h x, GetDbNodeValue db h = Some x -> A x) by (intros h x Hx; right; eauto).
  assert (HW : Forall A (all_written db root kvs [])) by (apply Forall_forall; intros x Hx; now left).
  destruct (trie_add_nodes_ok A db kvs [] root m c) as (root' & cache & E1 & R1 & C1 & F1); auto using cache_ok_nil.
  destruct (SaveCacheTrie_ok cache db Hok C1) as (db' & E2 & Hok' & G1 & G2).
  exists root', db'. split; [|split; [exact Hok'|split; [|split]]].
  - unfold AddNewTrie, CreateTrieNodeList. destruct kvs as [|kv kvs'].
    + cbn in E1. injection E1 as <- <-. cbn in E2. injection E2 as <-. reflexivity.
    + rewrite E1. cbn [bind]. now rewrite E2.
  - eapply save_rep; eauto. lia.
  - intros c0 root0 m0 H0 Hm0. eapply save_keeps; eauto.
  - exact G2.
Qed.

End Db.
