(* ===== verification/MemKv.v ===== *)
(** * The key-value store in memory: storage/memkvdb.h and memkvdb.cpp

    [CMemDBEngine] implements [CKVDBEngine] by two ordered maps, the data and the batch
    of an open transaction.  It satisfies what the trie expects of an engine.  The
    iterator is the key it points to; the code has no bound on its use, so that moving
    an iterator that was never set, or whose entry was erased, is [Undef]. *)

From Stdlib Require Import ZArith List Lia Bool.
From S2P Require Import Prelude OrdMap Trie.
Import ListNotations.
Local Open Scope Z_scope.

(** operator< of std::vector<uint8> *)
Fixpoint bytes_ltb (a b : list Z) : bool :=
  match a, b with
  | _, [] => false
  | [], _ :: _ => true
  | x :: a', y :: b' => if x <? y then true else if y <? x then false else bytes_ltb a' b'
  end.

#[export] Instance bytes_order : StrictOrder bytes_ltb.
Proof.
  split.
  - induction x as [|d x IH]; cbn [bytes_ltb]; [reflexivity|]. now rewrite Z.ltb_irrefl.
  - induction x as [|a x IH]; intros [|b y] [|c z]; cbn [bytes_ltb]; try easy.
    destruct (Z.ltb_spec a b), (Z.ltb_spec b a), (Z.ltb_spec b c), (Z.ltb_spec c b), (Z.ltb_spec a c), (Z.ltb_spec c a);
      try easy; try lia. intros L1 L2. exact (IH _ _ L1 L2).
  - induction x as [|a x IH]; intros [|b y]; cbn [bytes_ltb]; try easy.
    destruct (Z.ltb_spec a b), (Z.ltb_spec b a); try easy. intros L1 L2. f_equal; [lia|now apply IH].
Qed.

Definition bytesmap : Type := list (list Z * list Z).

Inductive iterator := it_unset | it_at (k : list Z) | it_end.

Record CMemDBEngine := mk_mem {
  mapKv : bytesmap;
  fBatchhCommit : bool;
  mapBatchCache : bytesmap;
  itCurr : iterator
}.

Definition mem_new : CMemDBEngine := mk_mem [] false [] it_unset.

Definition mem_Open (e : CMemDBEngine) : bool * CMemDBEngine := (true, mk_mem [] false [] it_unset).
Definition mem_Close (e : CMemDBEngine) : CMemDBEngine := mk_mem [] false [] it_unset.

Definition mem_TxnBegin (e : CMemDBEngine) : bool * CMemDBEngine := (true, mk_mem (mapKv e) true [] (itCurr e)).

Definition mem_TxnCommit (e : CMemDBEngine) : bool * CMemDBEngine :=
  (true,
   if fBatchhCommit e then
     mk_mem (fold_left (fun m kv => om_set bytes_ltb (fst kv) (snd kv) m) (mapBatchCache e) (mapKv e)) false [] (itCurr e)
   else e).

Definition mem_TxnAbort (e : CMemDBEngine) : CMemDBEngine := mk_mem (mapKv e) false [] (itCurr e).

Definition mem_Get (e : CMemDBEngine) (btKey : list Z) : option (list Z) :=
  match (if fBatchhCommit e then om_find bytes_ltb btKey (mapBatchCache e) else None) with
  | Some v => Some v
  | None => om_find bytes_ltb btKey (mapKv e)
  end.

(** [fOverwrite] is not used. *)
Definition mem_Put (e : CMemDBEngine) (btKey btValue : list Z) : bool * CMemDBEngine :=
  (true,
   if fBatchhCommit e then
     mk_mem (mapKv e) true (om_set bytes_ltb btKey btValue (mapBatchCache e)) (itCurr e)
   else mk_mem (om_set bytes_ltb btKey btValue (mapKv e)) false (mapBatchCache e) (itCurr e)).

Definition mem_Remove (e : CMemDBEngine) (btKey : list Z) : bool * CMemDBEngine :=
  (true,
   mk_mem (om_erase bytes_ltb btKey (mapKv e)) (fBatchhCommit e)
     (if fBatchhCommit e then om_erase bytes_ltb btKey (mapBatchCache e) else mapBatchCache e) (itCurr e)).

Definition mem_RemoveAll (e : CMemDBEngine) : bool * CMemDBEngine := (true, mk_mem [] (fBatchhCommit e) [] it_unset).

Definition set_itCurr (e : CMemDBEngine) (i : iterator) : CMemDBEngine :=
  mk_mem (mapKv e) (fBatchhCommit e) (mapBatchCache e) i.

Definition mem_MoveFirst (e : CMemDBEngine) : bool * CMemDBEngine :=
  match mapKv e with
  | [] => (false, e)
  | (k, _) :: _ => (true, set_itCurr e (it_at k))
  end.

Definition mem_MoveTo (e : CMemDBEngine) (btKey : list Z) : bool * CMemDBEngine :=
  match mapKv e with
  | [] => (false, e)
  | _ =>
      match om_find bytes_ltb btKey (mapKv e) with
      | None => (false, set_itCurr e it_end)
      | Some _ => (true, set_itCurr e (it_at btKey))
      end
  end.

(** ++itCurr: the entry after [k]. *)
Fixpoint next_key (k : list Z) (m : bytesmap) : iterator :=
  match m with
  | [] => it_end
  | (k', _) :: m' => if bytes_ltb k k' then it_at k' else next_key k m'
  end.

(** The entry the iterator points to, before it moves on; [None]: the end. *)
Definition mem_MoveNext (e : CMemDBEngine) : result (option (list Z * list Z) * CMemDBEngine) :=
  match itCurr e with
  | it_unset => Undef
  | it_end => Ok (None, e)
  | it_at k =>
      match om_find bytes_ltb k (mapKv e) with
      | None => Undef
      | Some v => Ok (Some (k, v), set_itCurr e (next_key k (mapKv e)))
      end
  end.

#[export] Instance mem_engine : CKVDBEngine CMemDBEngine := {
  Get := mem_Get;
  Put := mem_Put;
  Remove := mem_Remove
}.

(** ** The engine keeps what the trie expects *)

Definition mem_ok (e : CMemDBEngine) : Prop := om_sorted bytes_ltb (mapKv e) /\ om_sorted bytes_ltb (mapBatchCache e).

Lemma mem_new_ok : mem_ok mem_new.
Proof. split; constructor. Qed.

#[export] Instance mem_reliable : ReliableEngine CMemDBEngine.
Proof.
  refine {| engine_ok := mem_ok |}; cbn [Get Put Remove mem_engine].
  - intros [m [|] b i] k v [H1 H2]; (split; [reflexivity|]); split; cbn; auto; apply (om_set_sorted bytes_ltb); assumption.
  - intros [m [|] b i] k v [H1 H2]; unfold mem_Get, mem_Put; cbn [fst snd fBatchhCommit mapBatchCache mapKv] in *;
      now rewrite (om_find_set_eq bytes_ltb) by assumption.
  - intros [m [|] b i] k v k' [H1 H2] Hk; unfold mem_Get, mem_Put; cbn [fst snd fBatchhCommit mapBatchCache mapKv] in *;
      now rewrite (om_find_set_ne bytes_ltb) by assumption.
  - intros [m [|] b i] k [H1 H2]; (split; [reflexivity|]); split; cbn; auto; apply (om_erase_sorted bytes_ltb); assumption.
  - intros [m [|] b i] k [H1 H2]; unfold mem_Get, mem_Remove; cbn [fst snd fBatchhCommit mapBatchCache mapKv] in *;
      now rewrite !(om_find_erase_eq bytes_ltb) by assumption.
  - intros [m [|] b i] k k' [H1 H2] Hk; unfold mem_Get, mem_Remove; cbn [fst snd fBatchhCommit mapBatchCache mapKv] in *;
      now rewrite !(om_find_erase_ne bytes_ltb) by assumption.
Defined.

(** ** Transactions *)

Lemma commit_find (b : bytesmap) : forall (m : bytesmap) k, om_sorted bytes_ltb b -> om_sorted bytes_ltb m ->
  om_find bytes_ltb k (fold_left (fun m kv => om_set bytes_ltb (fst kv) (snd kv) m) b m) =
  match om_find bytes_ltb k b with Some v => Some v | None => om_find bytes_ltb k m end.
Proof.
  induction b as [|[k0 v0] b IH]; intros m k Hb Hm; [reflexivity|]. cbn [fold_left fst snd om_find].
  destruct (om_sorted_inv bytes_ltb k0 v0 b Hb) as [Hb' Hlt]. rewrite IH by (auto; apply (om_set_sorted bytes_ltb); assumption).
  rewrite (om_find_set bytes_ltb) by assumption. destruct (bytes_ltb k k0) eqn:E1; cbn [orb].
  - rewrite om_find_below; [reflexivity|]. eapply Forall_impl; [|exact Hlt]. intros p. now apply ltb_trans.
  - destruct (bytes_ltb k0 k) eqn:E2; [reflexivity|]. assert (k = k0) as -> by now apply ltb_total.
    now rewrite om_find_below.
Qed.

(** A committed transaction leaves what was read inside it. *)
Lemma commit_get e k : mem_ok e -> mem_Get (snd (mem_TxnCommit e)) k = mem_Get e k.
Proof.
  intros [H1 H2]. destruct e as [m [|] b i]; [|reflexivity]. unfold mem_Get, mem_TxnCommit.
  cbn [snd fBatchhCommit mapBatchCache mapKv] in *. now rewrite commit_find.
Qed.

(** An aborted transaction of writes leaves what was there before it. *)
Lemma abort_get e kvs k : mem_Get (mem_TxnAbort (fold_left (fun e kv => snd (mem_Put e (fst kv) (snd kv))) kvs (snd (mem_TxnBegin e)))) k =
  om_find bytes_ltb k (mapKv e).
Proof.
  assert (F : forall kvs e', fBatchhCommit e' = true ->
    mapKv (fold_left (fun e kv => snd (mem_Put e (fst kv) (snd kv))) kvs e') = mapKv e').
  { clear. induction kvs as [|kv kvs IH]; intros e' He; [reflexivity|]. cbn [fold_left]. unfold mem_Put at 2. rewrite He.
    cbn [snd]. now rewrite IH. }
  unfold mem_Get, mem_TxnAbort. cbn [fBatchhCommit mapKv]. now rewrite F.
Qed.

(** A removal inside a transaction is not undone when it is aborted. *)
Lemma abort_keeps_removal : let e := snd (mem_Put mem_new [1] [2]) in
  mem_Get e [1] = Some [2] /\ mem_Get (mem_TxnAbort (snd (mem_Remove (snd (mem_TxnBegin e)) [1]))) [1] = None.
Proof. split; reflexivity. Qed.
