(* ===== verification/Tries.v ===== *)
(** * What the trie database promises

    An update makes a new root from which exactly the updated map is read, and leaves
    all the roots the store had; two limits of the code under which values are lost. *)

From Stdlib Require Import ZArith List Lia Bool.
From S2P Require Import Prelude Radix Stream OrdMap TrieNode TrieNodeOk Trie TrieRep TrieAdd TriePath TrieUpdate TrieDb MemKv.
Import ListNotations.
Local Open Scope Z_scope.

(** ** A hash function to evaluate the model with *)

Definition sum_hash (s : list Z) : Z := fold_left (fun a d => a * 257 + d + 1) s 0 mod (2 ^ 256 - 1) + 1.

#[export] Instance sum_hash_range : Hash256 sum_hash.
Proof.
  intros s. unfold in256, sum_hash.
  pose proof (Z.mod_pos_bound (fold_left (fun a d => a * 257 + d + 1) s 0) (2 ^ 256 - 1) eq_refl). lia.
Qed.

Definition node_eqb (x y : CTrieValue) : bool :=
  match x, y with
  | TYPE_BRANCH a, TYPE_BRANCH b =>
      list_eqb (keyIndexNext a) (keyIndexNext b) && list_eqb (keyIndexValue a) (keyIndexValue b) &&
      list_eqb (branchNext a) (branchNext b) && list_eqb (branchValue a) (branchValue b)
  | TYPE_EXTENSION a, TYPE_EXTENSION b => (flag a =? flag b) && list_eqb (key a) (key b) && list_eqb (link a) (link b)
  | TYPE_VALUE a, TYPE_VALUE b => list_eqb a b
  | _, _ => false
  end.

Lemma node_eqb_eq x y : node_eqb x y = true -> x = y.
Proof.
  assert (L : forall a b, list_eqb a b = true -> a = b) by (intros a b; destruct (list_eqb_spec a b); congruence).
  destruct x as [[a1 a2 a3 a4]|[a1 a2 a3]|a], y as [[b1 b2 b3 b4]|[b1 b2 b3]|b]; cbn; try discriminate;
    rewrite ?andb_true_iff, ?Z.eqb_eq; intros; f_equal; [f_equal|f_equal|]; try apply L; tauto.
Qed.

(** Only equal nodes of a list have equal hashes, and none has the hash 0. *)
Definition separated (H : list Z -> Z) (l : list CTrieValue) : bool :=
  let hs := map (fun x => (x, H (GetStream x))) l in
  forallb (fun p => negb (snd p =? 0)) hs &&
  forallb (fun p => forallb (fun q => negb (snd p =? snd q) || node_eqb (fst p) (fst q)) hs) hs.

Lemma separated_free H l (A : CTrieValue -> Prop) : separated H l = true -> (forall x, A x -> In x l) -> collision_free H A.
Proof.
  unfold separated. rewrite andb_true_iff, !forallb_forall. intros [H1 H2] H4.
  assert (Hin : forall x, A x -> In (x, H (GetStream x)) (map (fun x => (x, H (GetStream x))) l))
    by (intros x Ax; apply (in_map (fun x => (x, H (GetStream x)))), H4, Ax). split.
  - intros x Ax. specialize (H1 _ (Hin x Ax)). now apply negb_true_iff, Z.eqb_neq in H1.
  - intros x y Ax Ay Exy. specialize (H2 _ (Hin x Ax)). rewrite forallb_forall in H2. specialize (H2 _ (Hin y Ay)).
    cbn [fst snd] in H2. rewrite Exy, Z.eqb_refl in H2. now apply node_eqb_eq.
Qed.

(** A store in memory with nothing in it. *)
Lemma at_hand_new root kvs x : at_hand sum_hash mem_new root kvs x -> In x (all_written sum_hash mem_new root kvs []).
Proof. intros [Hx|(h & Hx)]; [exact Hx|discriminate Hx]. Qed.

(** ** Updates *)

(** C5: AddNewTrie refines the update of a map: on an engine that works, and a hash function
    that separates the nodes at hand, it returns a root from which Retrieve reads, for every
    key of bytes, the last value of the list, nothing for the empty value, and the old
    value for the other keys; every root the store had still stands for its map.  The keys
    are not empty, the tables of the branches have room (255 entries), and while nodes
    are in the cache no two keys have the same value. *)
Theorem trie_update_refines (CryptoHash : list Z -> Z) {HR : Hash256 CryptoHash} {E : Type} {KE : CKVDBEngine E} {RE : ReliableEngine E}
    (db : E) root m c kvs :
  engine_ok db -> collision_free CryptoHash (at_hand CryptoHash db root kvs) -> trie_holds CryptoHash db c root m ->
  (3 <= c)%nat -> (c + length kvs <= 255)%nat -> Forall kv_ok kvs -> distinct_after_first m kvs ->
  exists root' db', AddNewTrie CryptoHash db root kvs = Ok (Some root', db') /\ engine_ok db' /\
    trie_holds CryptoHash db' (c + length kvs) root' (map_sets m kvs) /\
    (forall k, rdigs 256 k -> Retrieve db' root' k = Ok (last_value (m (Byte2Nibble k 0 [])) kvs k)) /\
    (forall c0 root0 m0, (c0 < 256)%nat -> trie_holds CryptoHash db c0 root0 m0 ->
       trie_holds CryptoHash db' c0 root0 m0 /\ forall k, rdigs 256 k -> Retrieve db' root0 k = Ok (m0 (Byte2Nibble k 0 []))).
Proof.
  intros Hok HA Hm Hc Hl Hp Hd.
  destruct (AddNewTrie_ok CryptoHash db root m c kvs Hok HA Hm Hc Hl Hp Hd) as (root' & db' & E1 & Hok' & R & K & _).
  exists root', db'. split; [exact E1|]. split; [exact Hok'|]. split; [exact R|]. split.
  - intros k Hk. rewrite (Retrieve_ok CryptoHash db' _ root' _ k Hk R). now rewrite map_sets_bytes.
  - intros c0 root0 m0 H0 Hm0. pose proof (K c0 root0 m0 H0 Hm0) as Hm'. split; [exact Hm'|].
    intros k Hk. exact (Retrieve_ok CryptoHash db' _ root0 _ k Hk Hm').
Qed.

(** Pairs of a key and a value of at most 100 bytes. *)
Definition small_pairb (kv : list Z * list Z) : bool :=
  forallb (fun d => (0 <=? d) && (d <? 256)) (fst kv ++ snd kv) && negb (is_nil (fst kv)) &&
  Nat.leb (length (fst kv) + length (snd kv)) 100.

Lemma small_pair kv : small_pairb kv = true -> kv_ok kv.
Proof.
  unfold small_pairb. rewrite !andb_true_iff, forallb_app, andb_true_iff, !forallb_forall, Nat.leb_le. intros [[[H1 H2] H3] H4].
  assert (D : forall l, (forall d, In d l -> (0 <=? d) && (d <? 256) = true) -> rdigs 256 l).
  { intros l Hl. apply Forall_forall. intros d Hi. specialize (Hl d Hi). rewrite andb_true_iff, Z.leb_le, Z.ltb_lt in Hl. exact Hl. }
  split; [now apply D|]. split; [intros E0; rewrite E0 in H3; discriminate|]. unfold PTRDIFF_MAX. split; [lia|].
  split; [now apply D|]. unfold PTRDIFF_MAX. lia.
Qed.

(** Different keys of an explicit map have different values. *)
Ltac different_values :=
  let k := fresh in let k' := fresh in let d := fresh in
  intros k k' d; unfold map_set, no_map; cbn [fst snd];
  repeat match goal with |- context [list_eqb ?a ?b] => destruct (list_eqb_spec a b) end; cbn [stored]; congruence.

(** Three keys that share a prefix, one of them a prefix of another, and one overwritten. *)
Definition some_pairs : list (list Z * list Z) := [([18; 52], [1]); ([18; 53; 7], [2]); ([18], [3]); ([18; 52], [4])].

Lemma trie_update_refines_witness : exists root' db',
  AddNewTrie sum_hash mem_new 0 some_pairs = Ok (Some root', db') /\
  Retrieve db' root' [18; 52] = Ok (Some [4]) /\ Retrieve db' root' [18; 53; 7] = Ok (Some [2]) /\
  Retrieve db' root' [18] = Ok (Some [3]) /\ Retrieve db' root' [18; 53] = Ok None.
Proof.
  assert (C : collision_free sum_hash (at_hand sum_hash mem_new 0 some_pairs)).
  { apply (separated_free sum_hash (all_written sum_hash mem_new 0 some_pairs [])); [vm_compute; reflexivity|apply at_hand_new]. }
  assert (P : Forall kv_ok some_pairs).
  { repeat (apply Forall_cons; [apply small_pair; reflexivity|]). apply Forall_nil. }
  assert (D : distinct_after_first no_map some_pairs).
  { repeat split; different_values. }
  destruct (trie_update_refines sum_hash (RE := mem_reliable) mem_new 0 no_map 3 some_pairs mem_new_ok C (trie_empty sum_hash mem_new 3)
    (le_n _) ltac:(cbn; lia) P D) as (root' & db' & E1 & _ & _ & R & _).
  exists root', db'. split; [exact E1|]. repeat split; apply R; repeat constructor; lia.
Defined.

(** ** Values that are lost *)

(** Two keys with the same value, then a third next to the second. *)
Definition shared_pairs : list (list Z * list Z) := [([17], [1]); ([33], [1]); ([34], [2])].

Lemma full_table c ki br n h : slots_ok c ki br -> length br = 255%nat -> nibble n -> nth (Z.to_nat n) ki 0 = 0 -> h <> 0 ->
  exists ki' br', set_hash ki br n h = Ok (ki', br') /\ get_hash ki' br' n = Ok 0.
Proof.
  intros Hs Hl [Hn1 Hn2] Hx Hh. unfold set_hash. destruct (Z.leb_spec 16 n); [lia|].
  rewrite (nth_error_nth' ki 0) by (rewrite (so_len _ _ _ Hs); lia). rewrite Hx. cbn [Z.eqb orb].
  destruct (Z.eqb_spec h 0); [contradiction|]. cbn [negb]. eexists _, _. split; [reflexivity|]. unfold get_hash.
  destruct (Z.leb_spec 16 n); [lia|]. rewrite (nth_error_nth' _ 0) by (rewrite length_upd, (so_len _ _ _ Hs); lia).
  rewrite nth_upd_eq by (rewrite (so_len _ _ _ Hs); lia). rewrite length_app, Hl. reflexivity.
Qed.

(** A value entered into a branch and deleted, [k] times. *)
Fixpoint churn (k : nat) (b : CTrieBranch) : result CTrieBranch :=
  match k with
  | O => Ok b
  | S k' =>
      let! b := BranchSetValueHash b 0 1 in
      let! b := BranchSetValueHash b 0 0 in churn k' b
  end.

(** C25: values can be lost.  Two equal subtries are one node: after an update of one of them
    in the same batch that node is erased from the cache, and the key in the other is gone
    from the new trie, though no hashes collide.  The index of a table is one byte: the
    256th value entered into a branch, counting those that were deleted since, is not
    found.  The empty key makes its value the root of the trie, and all other keys are gone. *)
Theorem trie_loses_values :
  (collision_free sum_hash (at_hand sum_hash mem_new 0 shared_pairs) /\
   exists root db, AddNewTrie sum_hash mem_new 0 shared_pairs = Ok (Some root, db) /\
     Retrieve db root [17] = Ok None /\ Retrieve db root [33] = Ok (Some [1]) /\ Retrieve db root [34] = Ok (Some [2])) /\
  (forall c b n h, branch_ok c b -> length (branchValue b) = 255%nat -> nibble n -> nth (Z.to_nat n) (keyIndexValue b) 0 = 0 ->
     h <> 0 -> exists b', BranchSetValueHash b n h = Ok b' /\ BranchGetValueHash b' n = Ok 0) /\
  (exists b b', churn 255 new_branch = Ok b /\ BranchSetValueHash b 3 7 = Ok b' /\ BranchGetValueHash b' 3 = Ok 0) /\
  (exists root1 db1 root2 db2, AddNewTrie sum_hash mem_new 0 [([18], [3])] = Ok (Some root1, db1) /\
     AddNewTrie sum_hash db1 root1 [([], [9])] = Ok (Some root2, db2) /\
     Retrieve db2 root1 [18] = Ok (Some [3]) /\ Retrieve db2 root2 [18] = Ok None).
Proof.
  split; [split|split; [|split]].
  - apply (separated_free sum_hash (all_written sum_hash mem_new 0 shared_pairs [])); [vm_compute; reflexivity|apply at_hand_new].
  - eexists _, _. split; [vm_compute; reflexivity|]. split; [|split]; vm_compute; reflexivity.
  - intros c b n h [_ Hb] Hl Hn Hx Hh. destruct (full_table c _ _ n h Hb Hl Hn Hx Hh) as (ki & br & E1 & E2).
    unfold BranchSetValueHash, BranchGetValueHash. rewrite E1. eexists. split; [reflexivity|exact E2].
  - eexists _, _. split; [vm_compute; reflexivity|]. split; vm_compute; reflexivity.
  - eexists _, _, _, _. split; [vm_compute; reflexivity|]. split; [vm_compute; reflexivity|].
    split; vm_compute; reflexivity.
Qed.
